(** * Code generation back end: parallel moves, operands, frames, deopts

    A shallow embedding of the parts of

      - [src/maglev/maglev-code-generator.cc]
      - [src/compiler/backend/x64/code-generator-x64.cc]

    that the specification's testable properties talk about, together with
    the proofs (or refutations) of those properties. *)

From Stdlib Require Import ZArith Lia String Sorted.
From stdpp Require Import base option list gmap.

Local Open Scope Z_scope.

(* ===================================================================== *)
(** * The parallel move resolver ([maglev-code-generator.cc], l. 96-424) *)
(* ===================================================================== *)

Module ParallelMoveResolver.

(** A register is identified by its code ([reg.code()]); a stack slot by its
    frame-pointer offset ([int32_t]). *)
Abbreviation RegisterT := nat.

(** [SourceT] / [ChainStartT]: the template argument of the chain
    functions is either a register or a stack slot. *)
Inductive Loc :=
| Reg (r : RegisterT)
| Slot (s : Z).

Global Instance Loc_eq_dec : EqDecision Loc.
Proof. solve_decision. Defined.

(** [struct GapMoveTargets]: the outgoing edges of one node.  [registers]
    is a [RegListBase] (a set of registers iterated by increasing code),
    [stack_slots] a [SmallVector<int32_t>]. *)
Record GapMoveTargets := mkTargets {
  registers : list RegisterT;
  stack_slots : list Z
}.

Definition NoTargets : GapMoveTargets := mkTargets [] [].

Global Instance GapMoveTargets_inhabited : Inhabited GapMoveTargets :=
  populate NoTargets.

Definition is_empty (t : GapMoveTargets) : bool :=
  match registers t, stack_slots t with
  | [], [] => true
  | _, _ => false
  end.

(** [RegListBase::set]: set the bit of [r]; iteration stays by increasing
    register code. *)
Fixpoint reglist_set (r : RegisterT) (l : list RegisterT) : list RegisterT :=
  match l with
  | [] => [r]
  | x :: l' =>
      if (r <? x)%nat then r :: l
      else if (r =? x)%nat then l
      else x :: reglist_set r l'
  end.

Definition set_register (r : RegisterT) (t : GapMoveTargets) : GapMoveTargets :=
  mkTargets (reglist_set r (registers t)) (stack_slots t).

Definition push_back_slot (s : Z) (t : GapMoveTargets) : GapMoveTargets :=
  mkTargets (registers t) (stack_slots t ++ [s]).

(** All targets of a node as locations, in the order in which
    [RecursivelyEmitMoveChainTargets] and [EmitMovesFromSource] visit them:
    registers first, then stack slots. *)
Definition locs_of (t : GapMoveTargets) : list Loc :=
  (Reg <$> registers t) ++ (Slot <$> stack_slots t).

Section Resolver.

(** [ValueNode*]: the node a materialising move loads. *)
Variable ValueNode : Type.

(** [RegisterTHelper<RegisterT>::kScratch] and [::kAllocatableRegisters]
    (in iteration order); both are declared outside this file. *)
Variable kScratchRegT : RegisterT.
Variable kAllocatableRegistersT : list RegisterT.

(** [moves_from_stack_slot_.begin()->first]: the iteration order of a
    [std::unordered_map] is unspecified, so [begin] is any function that
    selects a key of a non-empty map. *)
Variable begin : gmap Z GapMoveTargets -> option Z.

(** The instructions the resolver emits through [masm_]. *)
Inductive Instr :=
| MoveRegReg (dst src : RegisterT)        (* __ Move(target_reg, source_reg) *)
| MoveRegSlot (dst : RegisterT) (src : Z) (* __ Move(reg, StackSlot{slot}) *)
| MoveSlotReg (dst : Z) (src : RegisterT) (* __ Move(StackSlot{slot}, reg) *)
| PushReg (r : RegisterT)                 (* Push(reg) *)
| PopReg (r : RegisterT)                  (* Pop(reg) *)
| LoadToRegister (node : ValueNode) (dst : RegisterT)
| RecordComment (c : string).

(** The fields of [ParallelMoveResolver]. *)
Record Resolver := mkResolver {
  moves_from_register_ : list GapMoveTargets;
  moves_from_stack_slot_ : gmap Z GapMoveTargets;
  materializing_register_moves_ : list (option ValueNode);
  materializing_stack_slot_moves_ : list (Z * ValueNode);
  scratch_has_cycle_start_ : bool
}.

Definition set_moves_from_register (a : list GapMoveTargets) (st : Resolver) :=
  mkResolver a (moves_from_stack_slot_ st) (materializing_register_moves_ st)
    (materializing_stack_slot_moves_ st) (scratch_has_cycle_start_ st).

Definition set_moves_from_stack_slot (m : gmap Z GapMoveTargets) (st : Resolver) :=
  mkResolver (moves_from_register_ st) m (materializing_register_moves_ st)
    (materializing_stack_slot_moves_ st) (scratch_has_cycle_start_ st).

Definition set_materializing_register_moves (a : list (option ValueNode))
    (st : Resolver) :=
  mkResolver (moves_from_register_ st) (moves_from_stack_slot_ st) a
    (materializing_stack_slot_moves_ st) (scratch_has_cycle_start_ st).

Definition set_materializing_stack_slot_moves (l : list (Z * ValueNode))
    (st : Resolver) :=
  mkResolver (moves_from_register_ st) (moves_from_stack_slot_ st)
    (materializing_register_moves_ st) l (scratch_has_cycle_start_ st).

Definition set_scratch_has_cycle_start (b : bool) (st : Resolver) :=
  mkResolver (moves_from_register_ st) (moves_from_stack_slot_ st)
    (materializing_register_moves_ st) (materializing_stack_slot_moves_ st) b.

(** A freshly constructed resolver for [n = RegisterT::kNumRegisters]. *)
Definition new_resolver (n : nat) : Resolver :=
  mkResolver (replicate n NoTargets) ∅ (replicate n None) [] false.

(* --------------------------------------------------------------------- *)
(** ** Recording moves *)

(** [compiler::InstructionOperand] as far as [RecordMove] inspects it. *)
Inductive InstructionOperand :=
| RegisterOperand (r : RegisterT)   (* IsAnyRegister() *)
| StackSlotOperand (offset : Z)     (* IsAnyStackSlot(), by its fp offset *)
| ConstantOperand.                  (* IsConstant() *)

(** [compiler::AllocatedOperand] of a target: a register or a stack slot
    (the latter already through [GetFramePointerOffsetForStackSlot]). *)
Definition AllocatedOperand := Loc.

Definition targets_from_register (r : RegisterT) (st : Resolver) : GapMoveTargets :=
  moves_from_register_ st !!! r.

Definition targets_from_stack_slot (s : Z) (st : Resolver) : GapMoveTargets :=
  default NoTargets (moves_from_stack_slot_ st !! s).

Definition RecordMoveToRegister (node : ValueNode) (source : InstructionOperand)
    (target_reg : RegisterT) (st : Resolver) : Resolver :=
  match source with
  | RegisterOperand source_reg =>
      if decide (target_reg ≠ source_reg) then
        set_moves_from_register
          (<[source_reg := set_register target_reg (targets_from_register source_reg st)]>
             (moves_from_register_ st)) st
      else st
  | StackSlotOperand source_slot =>
      set_moves_from_stack_slot
        (<[source_slot := set_register target_reg (targets_from_stack_slot source_slot st)]>
           (moves_from_stack_slot_ st)) st
  | ConstantOperand =>
      set_materializing_register_moves
        (<[target_reg := Some node]> (materializing_register_moves_ st)) st
  end.

Definition RecordMoveToStackSlot (node : ValueNode) (source : InstructionOperand)
    (target_slot : Z) (st : Resolver) : Resolver :=
  match source with
  | RegisterOperand source_reg =>
      set_moves_from_register
        (<[source_reg := push_back_slot target_slot (targets_from_register source_reg st)]>
           (moves_from_register_ st)) st
  | StackSlotOperand source_slot =>
      if decide (source_slot ≠ target_slot) then
        set_moves_from_stack_slot
          (<[source_slot := push_back_slot target_slot (targets_from_stack_slot source_slot st)]>
             (moves_from_stack_slot_ st)) st
      else st
  | ConstantOperand =>
      set_materializing_stack_slot_moves
        (materializing_stack_slot_moves_ st ++ [(target_slot, node)]) st
  end.

Definition RecordMove (node : ValueNode) (source : InstructionOperand)
    (target : AllocatedOperand) (st : Resolver) : Resolver :=
  match target with
  | Reg r => RecordMoveToRegister node source r st
  | Slot s => RecordMoveToStackSlot node source s st
  end.

(* --------------------------------------------------------------------- *)
(** ** Emitting moves *)

(** [PopTargets]: return and remove all outgoing edges of [source]. *)
Definition PopTargets (source : Loc) (st : Resolver) : GapMoveTargets * Resolver :=
  match source with
  | Reg source_reg =>
      (targets_from_register source_reg st,
       set_moves_from_register (<[source_reg := NoTargets]> (moves_from_register_ st)) st)
  | Slot source_slot =>
      match moves_from_stack_slot_ st !! source_slot with
      | None => (NoTargets, st)
      | Some t => (t, set_moves_from_stack_slot (delete source_slot (moves_from_stack_slot_ st)) st)
      end
  end.

(** [EmitMovesFromSource(RegisterT source_reg, GapMoveTargets&&)]. *)
Definition EmitMovesFromRegister (source_reg : RegisterT) (targets : GapMoveTargets)
    : list Instr :=
  ((fun target_reg => MoveRegReg target_reg source_reg) <$> registers targets)
  ++ ((fun target_slot => MoveSlotReg target_slot source_reg) <$> stack_slots targets).

(** [EmitMovesFromSource(int32_t source_slot, GapMoveTargets&&)]: the slot
    value is cached in the first register target or, failing that, in the
    scratch register, whose cycle start is then saved on the native stack. *)
Definition EmitMovesFromStackSlot (source_slot : Z) (targets : GapMoveTargets)
    (st : Resolver) : Resolver * list Instr :=
  match registers targets with
  | register_with_slot_value :: rest =>
      (st, MoveRegSlot register_with_slot_value source_slot
             :: EmitMovesFromRegister register_with_slot_value
                  (mkTargets rest (stack_slots targets)))
  | [] =>
      let '(st1, push) :=
        if scratch_has_cycle_start_ st
        then (set_scratch_has_cycle_start false st, [PushReg kScratchRegT])
        else (st, []) in
      (st1, push ++ MoveRegSlot kScratchRegT source_slot
                 :: EmitMovesFromRegister kScratchRegT targets)
  end.

Definition EmitMovesFromSource (source : Loc) (targets : GapMoveTargets)
    (st : Resolver) : Resolver * list Instr :=
  match source with
  | Reg source_reg => (st, EmitMovesFromRegister source_reg targets)
  | Slot source_slot => EmitMovesFromStackSlot source_slot targets st
  end.

(** The loop body shared by the two [for] loops of
    [RecursivelyEmitMoveChainTargets]: [has_cycle |= ContinueEmitMoveChain]. *)
Fixpoint visit_targets (continue : Loc -> Resolver -> option (bool * Resolver * list Instr))
    (targets : list Loc) (has_cycle : bool) (st : Resolver)
    : option (bool * Resolver * list Instr) :=
  match targets with
  | [] => Some (has_cycle, st, [])
  | target :: targets' =>
      match continue target st with
      | None => None
      | Some (c, st1, out1) =>
          match visit_targets continue targets' (has_cycle || c) st1 with
          | None => None
          | Some (c', st2, out2) => Some (c', st2, out1 ++ out2)
          end
      end
  end.

Definition RecursivelyEmitMoveChainTargets
    (continue : Loc -> Resolver -> option (bool * Resolver * list Instr))
    (targets : GapMoveTargets) (st : Resolver)
    : option (bool * Resolver * list Instr) :=
  match visit_targets continue (Reg <$> registers targets) false st with
  | None => None
  | Some (c1, st1, out1) =>
      match visit_targets continue (Slot <$> stack_slots targets) c1 st1 with
      | None => None
      | Some (c2, st2, out2) => Some (c2, st2, out1 ++ out2)
      end
  end.

Definition MoveToScratch (chain_start : Loc) : Instr :=
  match chain_start with
  | Slot s => MoveRegSlot kScratchRegT s
  | Reg r => MoveRegReg kScratchRegT r
  end.

(** [ContinueEmitMoveChain].  The recursion follows edges that it removes
    from the graph; [fuel] bounds its depth ([None]: out of fuel). *)
Fixpoint ContinueEmitMoveChain (fuel : nat) (chain_start source : Loc)
    (st : Resolver) : option (bool * Resolver * list Instr) :=
  match fuel with
  | O => None
  | S fuel' =>
      if decide (chain_start = source) then
        Some (true, set_scratch_has_cycle_start true st,
              [RecordComment "--   * Cycle"; MoveToScratch chain_start])
      else
        let '(targets, st1) := PopTargets source st in
        if is_empty targets then
          Some (false, st1, [RecordComment "--   * End of chain"])
        else
          match RecursivelyEmitMoveChainTargets
                  (ContinueEmitMoveChain fuel' chain_start) targets st1 with
          | None => None
          | Some (has_cycle, st2, out1) =>
              let '(st3, out2) := EmitMovesFromSource source targets st2 in
              Some (has_cycle, st3, out1 ++ out2)
          end
  end.

(** [StartEmitMoveChain]. *)
Definition StartEmitMoveChain (fuel : nat) (source : Loc) (st : Resolver)
    : option (Resolver * list Instr) :=
  let '(targets, st1) := PopTargets source st in
  if is_empty targets then Some (st1, [])
  else
    match RecursivelyEmitMoveChainTargets
            (ContinueEmitMoveChain fuel source) targets st1 with
    | None => None
    | Some (true, st2, out1) =>
        let pop := if scratch_has_cycle_start_ st2 then [] else [PopReg kScratchRegT] in
        Some (set_scratch_has_cycle_start false st2,
              out1 ++ pop ++ EmitMovesFromRegister kScratchRegT targets
                   ++ [RecordComment "--   * End of cycle"])
    | Some (false, st2, out1) =>
        let '(st3, out2) := EmitMovesFromSource source targets st2 in
        Some (st3, out1 ++ out2 ++ [RecordComment "--   * Chain emitted with no cycles"])
    end.

(** First loop of [EmitMoves]: one chain per allocatable register, each
    followed by the register's materialising move, if any. *)
Fixpoint EmitRegisterMoves (fuel : nat) (regs : list RegisterT) (st : Resolver)
    : option (Resolver * list Instr) :=
  match regs with
  | [] => Some (st, [])
  | reg :: regs' =>
      match StartEmitMoveChain fuel (Reg reg) st with
      | None => None
      | Some (st1, out1) =>
          let load :=
            match materializing_register_moves_ st1 !!! reg with
            | Some materializing_register_move =>
                [LoadToRegister materializing_register_move reg]
            | None => []
            end in
          match EmitRegisterMoves fuel regs' st1 with
          | None => None
          | Some (st2, out2) => Some (st2, out1 ++ load ++ out2)
          end
      end
  end.

(** Second loop: [while (!moves_from_stack_slot_.empty())]; every iteration
    removes a key of the map, and [n] bounds their number. *)
Fixpoint EmitStackSlotMoves (n fuel : nat) (st : Resolver)
    : option (Resolver * list Instr) :=
  if decide (moves_from_stack_slot_ st = ∅) then Some (st, [])
  else
    match n with
    | O => None
    | S n' =>
        match begin (moves_from_stack_slot_ st) with
        | None => None
        | Some first =>
            match StartEmitMoveChain fuel (Slot first) st with
            | None => None
            | Some (st1, out1) =>
                match EmitStackSlotMoves n' fuel st1 with
                | None => None
                | Some (st2, out2) => Some (st2, out1 ++ out2)
                end
            end
        end
    end.

(** Third loop: materialising moves into stack slots, through the scratch
    register. *)
Definition EmitMaterializingStackSlotMoves (l : list (Z * ValueNode)) : list Instr :=
  concat ((fun '(stack_slot, node) =>
             [LoadToRegister node kScratchRegT; MoveSlotReg stack_slot kScratchRegT]) <$> l).

(** The number of nodes that still have outgoing edges: every recursive
    call of [ContinueEmitMoveChain] has removed one of them. *)
Definition pending_sources (st : Resolver) : nat :=
  (length (filter (fun t => is_empty t = false) (moves_from_register_ st))
   + size (moves_from_stack_slot_ st))%nat.

Definition EmitMoves (st : Resolver) : option (Resolver * list Instr) :=
  let fuel := S (pending_sources st) in
  match EmitRegisterMoves fuel kAllocatableRegistersT st with
  | None => None
  | Some (st1, out1) =>
      match EmitStackSlotMoves fuel fuel st1 with
      | None => None
      | Some (st2, out2) =>
          Some (st2, out1 ++ out2
                     ++ EmitMaterializingStackSlotMoves
                          (materializing_stack_slot_moves_ st2))
      end
  end.

(* --------------------------------------------------------------------- *)
(** ** A reference interpreter for the emitted code *)

(** The values held by registers and stack slots are left abstract. *)
Variable Value : Type.

(** Modelled from the spec: [ValueNode::LoadToRegister] is declared outside
    this file; a materialising move constructs the constant of its node in
    the destination register ("a move whose source is a constant that must
    be constructed rather than copied"). *)
Variable node_value : ValueNode -> Value.

(** The machine state the moves act on: the register file of the class
    [RegisterT], the frame's stack slots (addressed from the frame pointer)
    and the native stack below the frame, on which [Push]/[Pop] operate. *)
Record Machine := mkMachine {
  reg_file : RegisterT -> Value;
  frame_slots : Z -> Value;
  native_stack : list Value
}.

Definition read (m : Machine) (l : Loc) : Value :=
  match l with
  | Reg r => reg_file m r
  | Slot s => frame_slots m s
  end.

Definition write (l : Loc) (v : Value) (m : Machine) : Machine :=
  match l with
  | Reg r =>
      mkMachine (fun r' => if decide (r' = r) then v else reg_file m r')
        (frame_slots m) (native_stack m)
  | Slot s =>
      mkMachine (reg_file m)
        (fun s' => if decide (s' = s) then v else frame_slots m s')
        (native_stack m)
  end.

Definition exec_instr (i : Instr) (m : Machine) : option Machine :=
  match i with
  | MoveRegReg dst src => Some (write (Reg dst) (read m (Reg src)) m)
  | MoveRegSlot dst src => Some (write (Reg dst) (read m (Slot src)) m)
  | MoveSlotReg dst src => Some (write (Slot dst) (read m (Reg src)) m)
  | PushReg r =>
      Some (mkMachine (reg_file m) (frame_slots m) (reg_file m r :: native_stack m))
  | PopReg r =>
      match native_stack m with
      | [] => None
      | v :: k => Some (write (Reg r) v (mkMachine (reg_file m) (frame_slots m) k))
      end
  | LoadToRegister node dst => Some (write (Reg dst) (node_value node) m)
  | RecordComment _ => Some m
  end.

Fixpoint exec (code : list Instr) (m : Machine) : option Machine :=
  match code with
  | [] => Some m
  | i :: code' =>
      match exec_instr i m with
      | None => None
      | Some m1 => exec code' m1
      end
  end.

(** Use of the native stack by a piece of code that starts with [d] values
    pushed: only the scratch register is ever pushed or popped, and never
    more than one value is on the stack.  [None]: the discipline is broken
    at some instruction. *)
Fixpoint stack_use (d : nat) (code : list Instr) : option nat :=
  match code with
  | [] => Some d
  | PushReg r :: code' =>
      if decide (r = kScratchRegT /\ d = 0%nat) then stack_use 1 code' else None
  | PopReg r :: code' =>
      if decide (r = kScratchRegT /\ d = 1%nat) then stack_use 0 code' else None
  | _ :: code' => stack_use d code'
  end.

(** What the scratch register is committed to: nothing ([ScratchFree]); the
    start of the cycle that has just been announced and is moved to it by
    the next instruction ([ScratchCommitting]); the start of a cycle
    ([ScratchCycleStart]); or a temporary, while the start of the cycle that
    it held is saved on the native stack ([ScratchSaved]). *)
Inductive ScratchState :=
| ScratchFree
| ScratchCommitting
| ScratchCycleStart
| ScratchSaved.

(** The use the code makes of the scratch register, from the state [s] on.
    The start of a cycle is committed to the scratch register by the move
    after the comment of [ContinueEmitMoveChain], and given up at the comment
    of [StartEmitMoveChain].  While the scratch register holds the start of a
    cycle nothing is written to it but after it has been pushed, and it is
    popped again before the cycle is closed; it is pushed and popped in no
    other state.  [None]: the code does otherwise. *)
Fixpoint scratch_protocol (s : ScratchState) (code : list Instr)
    : option ScratchState :=
  match code with
  | [] => Some s
  | i :: code' =>
      match s with
      | ScratchCommitting =>
          match i with
          | MoveRegReg dst _ | MoveRegSlot dst _ =>
              if decide (dst = kScratchRegT)
              then scratch_protocol ScratchCycleStart code' else None
          | _ => None
          end
      | _ =>
          match i with
          | RecordComment c =>
              if String.eqb c "--   * Cycle" then
                match s with
                | ScratchFree => scratch_protocol ScratchCommitting code'
                | _ => None
                end
              else if String.eqb c "--   * End of cycle" then
                match s with
                | ScratchCycleStart => scratch_protocol ScratchFree code'
                | _ => None
                end
              else scratch_protocol s code'
          | PushReg r =>
              match s with
              | ScratchCycleStart =>
                  if decide (r = kScratchRegT)
                  then scratch_protocol ScratchSaved code' else None
              | _ => None
              end
          | PopReg r =>
              match s with
              | ScratchSaved =>
                  if decide (r = kScratchRegT)
                  then scratch_protocol ScratchCycleStart code' else None
              | _ => None
              end
          | MoveRegReg dst _ | MoveRegSlot dst _ | LoadToRegister _ dst =>
              if decide (dst = kScratchRegT) then
                match s with
                | ScratchCycleStart => None
                | _ => scratch_protocol s code'
                end
              else scratch_protocol s code'
          | MoveSlotReg _ _ => scratch_protocol s code'
          end
      end
  end.

(** The location an instruction writes, and the one it reads, if any. *)
Definition written_loc (i : Instr) : option Loc :=
  match i with
  | MoveRegReg dst _ | MoveRegSlot dst _ | PopReg dst | LoadToRegister _ dst =>
      Some (Reg dst)
  | MoveSlotReg dst _ => Some (Slot dst)
  | PushReg _ | RecordComment _ => None
  end.

Definition read_loc (i : Instr) : option Loc :=
  match i with
  | MoveRegReg _ src | MoveSlotReg _ src | PushReg src => Some (Reg src)
  | MoveRegSlot _ src => Some (Slot src)
  | PopReg _ | LoadToRegister _ _ | RecordComment _ => None
  end.

Definition is_load (i : Instr) : Prop :=
  exists node dst, i = LoadToRegister node dst.

(* --------------------------------------------------------------------- *)
(** ** The move graph of a resolver state *)

(** The outgoing edges of a node, whatever its kind. *)
Definition get (st : Resolver) (source : Loc) : list Loc :=
  locs_of match source with
          | Reg r => targets_from_register r st
          | Slot s => targets_from_stack_slot s st
          end.

(** The in-degree invariant of the upstream allocator, on a resolver state:
    every location is the target of at most one edge; edges never involve
    the scratch register, and there are no self-loops. *)
Record GraphOK (st : Resolver) : Prop := mkGraphOK {
  g_indeg : forall p q t, t ∈ get st p -> t ∈ get st q -> p = q;
  g_nodup : forall p, NoDup (get st p);
  g_scratch_source : get st (Reg kScratchRegT) = [];
  g_scratch_target : forall p, Reg kScratchRegT ∉ get st p;
  g_noself : forall p, p ∉ get st p
}.

Definition same_materializations (st st' : Resolver) : Prop :=
  materializing_register_moves_ st' = materializing_register_moves_ st
  /\ materializing_stack_slot_moves_ st' = materializing_stack_slot_moves_ st.

(** [Step X st m st' m']: between [(st, m)] and [(st', m')] some nodes had
    all their outgoing edges removed from the graph and emitted; every
    emitted edge has taken effect on the machine, and nothing but the
    targets of emitted edges and the locations in [X] has changed. *)
Record Step (X : Loc -> Prop) (st : Resolver) (m : Machine)
    (st' : Resolver) (m' : Machine) : Prop := mkStep {
  step_le : forall p, get st' p = get st p \/ get st' p = [];
  step_emitted : forall p t, t ∈ get st p -> get st' p = [] -> read m' t = read m p;
  step_frame : forall l, ~ X l -> (forall p, l ∈ get st p -> get st' p <> []) ->
                 read m' l = read m l;
  step_closed : forall p t, t ∈ get st p -> get st' p = [] -> get st' t = [];
  step_mat : same_materializations st st'
}.

Definition is_scratch (l : Loc) : Prop := l = Reg kScratchRegT.

(** Ghost state of one chain: [v0] is the value the chain start [cs] held
    when the chain began and [k0] the native stack at that time; [hc] tells
    whether the cycle through [cs] has been met, and [U] lists the targets
    already taken out of the graph but not visited yet. *)
Definition CycInv (cs : Loc) (v0 : Value) (k0 : list Value) (hc : bool)
    (U : list Loc) (st : Resolver) (m : Machine) : Prop :=
  if hc then
    (forall p, cs ∉ get st p) /\ (cs ∉ U) /\
    (if scratch_has_cycle_start_ st
     then read m (Reg kScratchRegT) = v0 /\ native_stack m = k0
     else native_stack m = v0 :: k0)
  else
    scratch_has_cycle_start_ st = false /\ read m cs = v0 /\ native_stack m = k0.

(** Number of values the chain keeps on the native stack. *)
Definition depth (hc : bool) (st : Resolver) : nat :=
  if hc && negb (scratch_has_cycle_start_ st) then 1%nat else 0%nat.

(* --------------------------------------------------------------------- *)
(** ** Basic facts *)

Lemma is_empty_locs t : is_empty t = true <-> locs_of t = [].
Proof.
  destruct t as [[|r rs] [|s ss]]; unfold is_empty, locs_of; simpl; split;
    intros H; try discriminate; reflexivity.
Qed.

Lemma is_empty_false_locs t : is_empty t = false <-> locs_of t <> [].
Proof.
  rewrite <- is_empty_locs. destruct (is_empty t); split; congruence.
Qed.

Lemma lookup_total_insert_targets (l : list GapMoveTargets) i j :
  (<[i := NoTargets]> l) !!! j = if decide (i = j) then NoTargets else l !!! j.
Proof.
  revert i j. induction l as [|x l IH]; intros [|i] [|j]; simpl;
    try reflexivity; try (destruct (decide _); [lia|reflexivity]).
  - destruct (decide _); reflexivity.
  - rewrite IH. repeat destruct (decide _); try reflexivity; lia.
Qed.

Lemma get_PopTargets source st p :
  get (PopTargets source st).2 p = if decide (p = source) then [] else get st p.
Proof.
  destruct (decide (p = source)) as [->|Hne].
  - destruct source as [r|s]; simpl.
    + unfold get, targets_from_register; simpl.
      rewrite lookup_total_insert_targets, decide_True by reflexivity. reflexivity.
    + unfold get, targets_from_stack_slot.
      destruct (moves_from_stack_slot_ st !! s) as [t|] eqn:Hs; simpl.
      * rewrite lookup_delete_eq. reflexivity.
      * rewrite Hs. reflexivity.
  - destruct source as [r|s]; simpl.
    + destruct p as [r'|s']; unfold get, targets_from_register; simpl; [|reflexivity].
      rewrite lookup_total_insert_targets, decide_False by congruence. reflexivity.
    + destruct (moves_from_stack_slot_ st !! s) as [t|] eqn:Hs; simpl; [|reflexivity].
      destruct p as [r'|s']; unfold get, targets_from_stack_slot; simpl; [reflexivity|].
      rewrite lookup_delete_ne by congruence. reflexivity.
Qed.

Lemma locs_PopTargets source st : locs_of (PopTargets source st).1 = get st source.
Proof.
  destruct source as [r|s]; simpl; [reflexivity|].
  unfold get, targets_from_stack_slot.
  destruct (moves_from_stack_slot_ st !! s); reflexivity.
Qed.

Lemma PopTargets_mat source st : same_materializations st (PopTargets source st).2.
Proof.
  destruct source as [r|s]; simpl; [split; reflexivity|].
  destruct (moves_from_stack_slot_ st !! s); split; reflexivity.
Qed.

Lemma PopTargets_flag source st :
  scratch_has_cycle_start_ (PopTargets source st).2 = scratch_has_cycle_start_ st.
Proof.
  destruct source as [r|s]; simpl; [reflexivity|].
  destruct (moves_from_stack_slot_ st !! s); reflexivity.
Qed.

Lemma get_set_flag b st p : get (set_scratch_has_cycle_start b st) p = get st p.
Proof. destruct p; reflexivity. Qed.

Lemma read_write_eq l v m : read (write l v m) l = v.
Proof. destruct l; simpl; rewrite decide_True by reflexivity; reflexivity. Qed.

Lemma read_write_ne l l' v m : l <> l' -> read (write l v m) l' = read m l'.
Proof.
  intros Hne. destruct l, l'; simpl; try reflexivity;
    rewrite decide_False by congruence; reflexivity.
Qed.

Lemma native_stack_write l v m : native_stack (write l v m) = native_stack m.
Proof. destruct l; reflexivity. Qed.

Lemma exec_app a b m : exec (a ++ b) m = exec a m ≫= exec b.
Proof.
  revert m. induction a as [|i a IH]; intros m; simpl; [reflexivity|].
  destruct (exec_instr i m); simpl; [apply IH|reflexivity].
Qed.

Lemma stack_use_app d a b :
  stack_use d (a ++ b) = stack_use d a ≫= fun d' => stack_use d' b.
Proof.
  revert d. induction a as [|i a IH]; intros d; simpl; [reflexivity|].
  destruct i; try apply IH; destruct (decide _); simpl; try apply IH; reflexivity.
Qed.

(** The move [EmitMovesFromSource] emits for one target of a register. *)
Definition move_from (r : RegisterT) (t : Loc) : Instr :=
  match t with
  | Reg d => MoveRegReg d r
  | Slot s => MoveSlotReg s r
  end.

Lemma EmitMovesFromRegister_map r ts :
  EmitMovesFromRegister r ts = move_from r <$> locs_of ts.
Proof.
  unfold EmitMovesFromRegister, locs_of.
  rewrite fmap_app, <- !list_fmap_compose. reflexivity.
Qed.

Lemma exec_moves_from r ts m :
  Reg r ∉ ts ->
  exists m', exec (move_from r <$> ts) m = Some m'
    /\ (forall t, t ∈ ts -> read m' t = read m (Reg r))
    /\ (forall l, l ∉ ts -> read m' l = read m l)
    /\ native_stack m' = native_stack m.
Proof.
  revert m. induction ts as [|t ts IH]; intros m Hr.
  - exists m. repeat split; try reflexivity. intros t Ht. inversion Ht.
  - apply not_elem_of_cons in Hr as [Hne Hr].
    set (m1 := write t (read m (Reg r)) m).
    assert (Hexec : exec_instr (move_from r t) m = Some m1) by (destruct t; reflexivity).
    destruct (IH m1 Hr) as (m' & He & Hin & Hout & Hstk).
    assert (Hr1 : read m1 (Reg r) = read m (Reg r)).
    { unfold m1. apply read_write_ne. congruence. }
    exists m'. split; [|split; [|split]].
    + simpl. rewrite Hexec. exact He.
    + intros t' Ht'. destruct (decide (t' ∈ ts)) as [Hi|Hni].
      * rewrite (Hin _ Hi). exact Hr1.
      * apply elem_of_cons in Ht' as [->|?]; [|contradiction].
        rewrite (Hout _ Hni). unfold m1. apply read_write_eq.
    + intros l Hl. apply not_elem_of_cons in Hl as [Hl1 Hl2].
      rewrite (Hout _ Hl2). unfold m1. apply read_write_ne. congruence.
    + rewrite Hstk. unfold m1. apply native_stack_write.
Qed.

Lemma stack_use_moves_from d r ts : stack_use d (move_from r <$> ts) = Some d.
Proof. induction ts as [|[?|?] ts IH]; simpl; auto. Qed.

(** Facts about the graph order. *)
Definition graph_le (st st' : Resolver) : Prop :=
  forall p, get st' p = get st p \/ get st' p = [].

Lemma graph_le_refl st : graph_le st st.
Proof. intros p. left. reflexivity. Qed.

Lemma graph_le_elem st st' p t : graph_le st st' -> t ∈ get st' p -> t ∈ get st p.
Proof.
  intros Hle Ht. destruct (Hle p) as [H|H]; rewrite H in Ht; [exact Ht|inversion Ht].
Qed.

Lemma graph_le_nil st st' p : graph_le st st' -> get st p = [] -> get st' p = [].
Proof. intros Hle Hp. destruct (Hle p) as [H|H]; congruence. Qed.

Lemma graph_le_trans st st1 st2 : graph_le st st1 -> graph_le st1 st2 -> graph_le st st2.
Proof.
  intros H1 H2 p. destruct (H2 p) as [H|H]; [|right; exact H].
  rewrite H. apply H1.
Qed.

Lemma GraphOK_le st st' : GraphOK st -> graph_le st st' -> GraphOK st'.
Proof.
  intros [Hin Hnd Hss Hst Hns] Hle. split.
  - intros p q t Hp Hq. eapply Hin; eapply graph_le_elem; eauto.
  - intros p. destruct (Hle p) as [H|H]; rewrite H; [apply Hnd|constructor].
  - eapply graph_le_nil; eauto.
  - intros p Hp. eapply Hst, graph_le_elem; eauto.
  - intros p Hp. eapply Hns, graph_le_elem; eauto.
Qed.

Lemma graph_le_PopTargets source st : graph_le st (PopTargets source st).2.
Proof.
  intros p. rewrite get_PopTargets. destruct (decide _); [right|left]; reflexivity.
Qed.

Lemma Step_same_graph X st m st' m' :
  (forall p, get st' p = get st p) -> same_materializations st st' ->
  (forall l, ~ X l -> read m' l = read m l) -> Step X st m st' m'.
Proof.
  intros Hg Hm Hfr. split; auto.
  - intros p t Ht He. rewrite Hg in He. rewrite He in Ht. inversion Ht.
  - intros p t Ht He. rewrite Hg in He. rewrite He in Ht. inversion Ht.
Qed.

Lemma Step_refl X st m st' :
  (forall p, get st' p = get st p) -> same_materializations st st' -> Step X st m st' m.
Proof. intros Hg Hm. apply Step_same_graph; auto. Qed.

Lemma Step_graph_le X st m st' m' : Step X st m st' m' -> graph_le st st'.
Proof. intros H. exact (step_le _ _ _ _ _ H). Qed.

Lemma same_materializations_trans st st1 st2 :
  same_materializations st st1 -> same_materializations st1 st2 ->
  same_materializations st st2.
Proof. intros [? ?] [? ?]. split; congruence. Qed.

Lemma Step_trans X st m st1 m1 st2 m2 :
  GraphOK st ->
  (forall l, X l -> (forall p, l ∉ get st p) /\ get st1 l = []) ->
  Step X st m st1 m1 -> Step X st1 m1 st2 m2 -> Step X st m st2 m2.
Proof.
  intros Hok HX [Hle1 Hem1 Hfr1 Hcl1 Hm1] [Hle2 Hem2 Hfr2 Hcl2 Hm2].
  split.
  - apply (graph_le_trans st st1 st2); assumption.
  - intros p t Ht He2. destruct (Hle1 p) as [He1|He1].
    + (* emitted by the second step *)
      rewrite <- He1 in Ht. rewrite (Hem2 p t Ht He2).
      apply Hfr1.
      * intros Hx. destruct (HX p Hx) as [_ Hp]. rewrite Hp in Ht. inversion Ht.
      * intros q Hq Heq. pose proof (Hcl1 q p Hq Heq) as Hp.
        rewrite Hp in Ht. inversion Ht.
    + (* emitted by the first step *)
      rewrite <- (Hem1 p t Ht He1). apply Hfr2.
      * intros Hx. destruct (HX t Hx) as [Hnt _]. exact (Hnt p Ht).
      * intros q Hq Heq. pose proof (graph_le_elem st st1 q t Hle1 Hq) as Hq'.
        assert (p = q) by (eapply g_indeg; eauto). subst q.
        rewrite He1 in Hq. inversion Hq.
  - intros l Hx Hl. rewrite Hfr2, Hfr1; auto.
    + intros p Hp He1. apply (Hl p Hp). eapply graph_le_nil; eauto.
    + intros p Hp. apply Hl. eapply graph_le_elem; eauto.
  - intros p t Ht He2. destruct (Hle1 p) as [He1|He1].
    + rewrite <- He1 in Ht. eauto.
    + eapply graph_le_nil; eauto.
  - eapply same_materializations_trans; eauto.
Qed.

(** *** The fuel measure *)

Local Abbreviation nonempty := (fun t : GapMoveTargets => is_empty t = false).

Lemma filter_insert_NoTargets_le (l : list GapMoveTargets) i :
  (length (filter nonempty (<[i := NoTargets]> l)) <= length (filter nonempty l))%nat.
Proof.
  revert i. induction l as [|x l IH]; intros [|i]; simpl; try lia.
  - rewrite !filter_cons. simpl. destruct (decide (is_empty x = false)); simpl; lia.
  - rewrite !filter_cons. destruct (decide (is_empty x = false)); simpl;
      specialize (IH i); lia.
Qed.

Lemma filter_insert_NoTargets_lt (l : list GapMoveTargets) i :
  is_empty (l !!! i) = false ->
  (length (filter nonempty (<[i := NoTargets]> l)) < length (filter nonempty l))%nat.
Proof.
  revert i. induction l as [|x l IH]; intros [|i]; simpl; try discriminate.
  - intros Hx. rewrite !filter_cons. simpl.
    rewrite decide_True by exact Hx. simpl. lia.
  - intros Hx. rewrite !filter_cons. destruct (decide (is_empty x = false)); simpl;
      specialize (IH i Hx); lia.
Qed.

Lemma pending_PopTargets_le source st :
  (pending_sources (PopTargets source st).2 <= pending_sources st)%nat.
Proof.
  unfold pending_sources. destruct source as [r|s]; simpl.
  - pose proof (filter_insert_NoTargets_le (moves_from_register_ st) r).
    unfold set_moves_from_register; simpl. lia.
  - destruct (moves_from_stack_slot_ st !! s) as [t|] eqn:Hs; simpl; [|lia].
    rewrite map_size_delete_Some by eauto. lia.
Qed.

Lemma pending_PopTargets_lt source st :
  is_empty (PopTargets source st).1 = false ->
  (pending_sources (PopTargets source st).2 < pending_sources st)%nat.
Proof.
  unfold pending_sources. destruct source as [r|s]; simpl.
  - intros H. pose proof (filter_insert_NoTargets_lt (moves_from_register_ st) r H).
    unfold set_moves_from_register; simpl. lia.
  - destruct (moves_from_stack_slot_ st !! s) as [t|] eqn:Hs; simpl; [|discriminate].
    intros _. rewrite map_size_delete_Some by eauto.
    assert (size (moves_from_stack_slot_ st) <> 0%nat)
      by (eapply map_size_ne_0_lookup_2; eauto).
    lia.
Qed.

(** *** The cycle invariant *)

Lemma CycInv_frame cs v0 k0 hc U U' st m st' m' :
  CycInv cs v0 k0 hc U st m ->
  graph_le st st' -> (forall x, x ∈ U' -> x ∈ U) ->
  scratch_has_cycle_start_ st' = scratch_has_cycle_start_ st ->
  native_stack m' = native_stack m ->
  (hc = true -> scratch_has_cycle_start_ st = true ->
   read m' (Reg kScratchRegT) = read m (Reg kScratchRegT)) ->
  (hc = false -> read m' cs = read m cs) ->
  CycInv cs v0 k0 hc U' st' m'.
Proof.
  unfold CycInv. intros Hinv Hle HU Hflag Hstk Hscr Hcs. destruct hc.
  - destruct Hinv as (Hnt & HnU & Hsave). split; [|split].
    + intros p Hp. eapply Hnt, graph_le_elem; eauto.
    + intros Hx. apply HnU, HU, Hx.
    + rewrite Hflag. destruct (scratch_has_cycle_start_ st).
      * destruct Hsave as [Hv Hk]. rewrite Hscr, Hstk by reflexivity. auto.
      * congruence.
  - destruct Hinv as (Hf & Hv & Hk). rewrite Hflag, Hcs, Hstk by reflexivity. auto.
Qed.

Lemma CycInv_flag_true cs v0 k0 hc U st m :
  CycInv cs v0 k0 hc U st m -> scratch_has_cycle_start_ st = true -> hc = true.
Proof. unfold CycInv. destruct hc; [reflexivity|]. intros (Hf & _). congruence. Qed.

(** *** What [EmitMovesFromSource] does to the machine *)

Lemma EmitMovesFromSource_spec source targets st m cs v0 k0 hc U :
  source ∉ locs_of targets -> Reg kScratchRegT ∉ locs_of targets ->
  source <> Reg kScratchRegT -> NoDup (locs_of targets) ->
  cs <> Reg kScratchRegT ->
  CycInv cs v0 k0 hc U st m -> (hc = false -> cs ∉ locs_of targets) ->
  exists st' out m',
    EmitMovesFromSource source targets st = (st', out)
    /\ exec out m = Some m'
    /\ (forall p, get st' p = get st p)
    /\ same_materializations st st'
    /\ pending_sources st' = pending_sources st
    /\ (forall t, t ∈ locs_of targets -> read m' t = read m source)
    /\ (forall l, l <> Reg kScratchRegT -> l ∉ locs_of targets -> read m' l = read m l)
    /\ CycInv cs v0 k0 hc U st' m'
    /\ stack_use (depth hc st) out = Some (depth hc st').
Proof.
  intros Hsrc Hscr Hne Hnd Hcs Hinv Hhc.
  destruct source as [r|k]; simpl.
  - (* from a register *)
    rewrite EmitMovesFromRegister_map.
    destruct (exec_moves_from r (locs_of targets) m Hsrc) as (m' & He & Hin & Hout & Hstk).
    exists st, (move_from r <$> locs_of targets), m'.
    split_and!; [reflexivity|exact He|reflexivity|split; reflexivity|reflexivity
                |exact Hin|intros l _; apply Hout| |apply stack_use_moves_from].
    apply (CycInv_frame cs v0 k0 hc U U st m st m' Hinv (graph_le_refl st));
      [auto|reflexivity|exact Hstk|intros _ _; apply Hout, Hscr
      |intros Hf; apply Hout, Hhc, Hf].
  - (* from a stack slot *)
    unfold EmitMovesFromStackSlot.
    destruct targets as [[|r1 rest] slots]; simpl.
    + (* cached in the scratch register *)
      set (ts := locs_of (mkTargets [] slots)) in *.
      destruct (scratch_has_cycle_start_ st) eqn:Hflag; simpl.
      * pose proof (CycInv_flag_true _ _ _ _ _ _ _ Hinv Hflag) as ->.
        set (m0 := mkMachine (reg_file m) (frame_slots m)
                     (reg_file m kScratchRegT :: native_stack m)).
        set (m1 := write (Reg kScratchRegT) (read m0 (Slot k)) m0).
        rewrite EmitMovesFromRegister_map. fold ts.
        destruct (exec_moves_from kScratchRegT ts m1 Hscr) as (m' & He & Hin & Hout & Hstk).
        exists (set_scratch_has_cycle_start false st),
          (PushReg kScratchRegT :: MoveRegSlot kScratchRegT k
             :: (move_from kScratchRegT <$> ts)), m'.
        split_and!; [reflexivity|exact He|apply get_set_flag|split; reflexivity
                    |reflexivity| | | |].
        -- intros t Ht. rewrite (Hin t Ht). unfold m1. rewrite read_write_eq. reflexivity.
        -- intros l Hl Hlt. rewrite (Hout l Hlt). unfold m1.
           rewrite read_write_ne by congruence. destruct l; reflexivity.
        -- unfold CycInv in *. simpl. destruct Hinv as (Hnt & HnU & Hsave).
           rewrite Hflag in Hsave. destruct Hsave as [Hv Hk].
           split; [exact Hnt|split; [exact HnU|]].
           rewrite Hstk. unfold m1. rewrite native_stack_write. simpl.
           simpl in Hv. congruence.
        -- unfold depth. rewrite Hflag. simpl.
           rewrite decide_True by (split; reflexivity).
           apply stack_use_moves_from.
      * set (m1 := write (Reg kScratchRegT) (read m (Slot k)) m).
        rewrite EmitMovesFromRegister_map. fold ts.
        destruct (exec_moves_from kScratchRegT ts m1 Hscr) as (m' & He & Hin & Hout & Hstk).
        exists st, (MoveRegSlot kScratchRegT k :: (move_from kScratchRegT <$> ts)), m'.
        split_and!; [reflexivity|exact He|reflexivity|split; reflexivity
                    |reflexivity| | | |].
        -- intros t Ht. rewrite (Hin t Ht). unfold m1. rewrite read_write_eq. reflexivity.
        -- intros l Hl Hlt. rewrite (Hout l Hlt). unfold m1.
           rewrite read_write_ne by congruence. reflexivity.
        -- apply (CycInv_frame cs v0 k0 hc U U st m st m' Hinv (graph_le_refl st));
             [auto|reflexivity| | |].
           ++ rewrite Hstk. unfold m1. apply native_stack_write.
           ++ congruence.
           ++ intros Hf. rewrite (Hout cs (Hhc Hf)). unfold m1.
              apply read_write_ne. congruence.
        -- simpl. apply stack_use_moves_from.
    + (* cached in the first register target *)
      set (ts := locs_of (mkTargets rest slots)).
      assert (Hts : locs_of (mkTargets (r1 :: rest) slots) = Reg r1 :: ts) by reflexivity.
      rewrite Hts in *. apply NoDup_cons in Hnd as [Hr1 Hnd].
      apply not_elem_of_cons in Hscr as [Hscr1 Hscr].
      set (m1 := write (Reg r1) (read m (Slot k)) m).
      rewrite EmitMovesFromRegister_map. fold ts.
      destruct (exec_moves_from r1 ts m1 Hr1) as (m' & He & Hin & Hout & Hstk).
      exists st, (MoveRegSlot r1 k :: (move_from r1 <$> ts)), m'.
      assert (Hr1v : read m1 (Reg r1) = read m (Slot k)) by apply read_write_eq.
      split_and!; [reflexivity|exact He|reflexivity|split; reflexivity
                  |reflexivity| | | |].
      * intros t Ht. apply elem_of_cons in Ht as [->|Ht].
        -- rewrite (Hout _ Hr1). exact Hr1v.
        -- rewrite (Hin t Ht). exact Hr1v.
      * intros l Hl Hlt. apply not_elem_of_cons in Hlt as [Hl1 Hlt].
        rewrite (Hout l Hlt). unfold m1. apply read_write_ne. congruence.
      * apply (CycInv_frame cs v0 k0 hc U U st m st m' Hinv (graph_le_refl st));
          [auto|reflexivity| | |].
        -- rewrite Hstk. unfold m1. apply native_stack_write.
        -- intros _ _. rewrite (Hout _ Hscr). unfold m1. apply read_write_ne. congruence.
        -- intros Hf. specialize (Hhc Hf). apply not_elem_of_cons in Hhc as [Hc1 Hc2].
           rewrite (Hout cs Hc2). unfold m1. apply read_write_ne. congruence.
      * simpl. apply stack_use_moves_from.
Qed.

(** *** One chain *)

Lemma same_materializations_refl st : same_materializations st st.
Proof. split; reflexivity. Qed.

Lemma same_materializations_sym st st' :
  same_materializations st st' -> same_materializations st' st.
Proof. intros [? ?]. split; congruence. Qed.

(** State of a chain when some targets [V] have been taken out of the
    graph but not been visited yet. *)
Record ChainPre (cs : Loc) (V : list Loc) (st : Resolver) : Prop := mkChainPre {
  cp_ok : GraphOK st;
  cp_start : get st cs = [];
  cp_nodup : NoDup V;
  cp_inflight : forall t p, t ∈ V -> t ∉ get st p;
  cp_scratch : Reg kScratchRegT ∉ V
}.

(** Result of visiting the targets [vis]: [ret] tells whether the chain
    start was among the nodes reached. *)
Record ChainPost (cs : Loc) (v0 : Value) (k0 : list Value) (hc : bool)
    (U vis : list Loc) (st : Resolver) (m : Machine) (ret : bool)
    (st' : Resolver) (out : list Instr) (m' : Machine) : Prop := mkChainPost {
  post_exec : exec out m = Some m';
  post_step : Step is_scratch st m st' m';
  post_visited : forall t, t ∈ vis -> get st' t = [];
  post_inv : CycInv cs v0 k0 (hc || ret) U st' m';
  post_cycle : cs ∈ vis -> ret = true;
  post_stack : stack_use (depth hc st) out = Some (depth (hc || ret) st');
  post_pending : (pending_sources st' <= pending_sources st)%nat
}.

Lemma ChainPre_le cs V V' st st' :
  ChainPre cs V st -> graph_le st st' -> V' ⊆ V -> NoDup V' -> ChainPre cs V' st'.
Proof.
  intros [Hok Hcs Hnd Hin Hscr] Hle Hsub Hnd'. split.
  - eapply GraphOK_le; eauto.
  - eapply graph_le_nil; eauto.
  - exact Hnd'.
  - intros t p Ht Hp. eapply (Hin t p); [apply Hsub, Ht|].
    eapply graph_le_elem; eauto.
  - intros H. apply Hscr, Hsub, H.
Qed.

Lemma scratch_side st st1 :
  GraphOK st -> graph_le st st1 ->
  forall l, is_scratch l -> (forall p, l ∉ get st p) /\ get st1 l = [].
Proof.
  intros Hok Hle l ->. split.
  - apply (g_scratch_target st Hok).
  - eapply graph_le_nil; eauto. apply (g_scratch_source st Hok).
Qed.

Lemma ChainPost_seq cs v0 k0 hc U1 U2 vis1 vis2 st m ret1 st1 out1 m1 ret2 st2 out2 m2 :
  GraphOK st ->
  ChainPost cs v0 k0 hc U1 vis1 st m ret1 st1 out1 m1 ->
  ChainPost cs v0 k0 (hc || ret1) U2 vis2 st1 m1 ret2 st2 out2 m2 ->
  ChainPost cs v0 k0 hc U2 (vis1 ++ vis2) st m (ret1 || ret2) st2 (out1 ++ out2) m2.
Proof.
  intros Hok [He1 Hs1 Hv1 Hi1 Hc1 Hk1 Hp1] [He2 Hs2 Hv2 Hi2 Hc2 Hk2 Hp2].
  split.
  - rewrite exec_app, He1. exact He2.
  - eapply Step_trans; eauto. apply scratch_side; [exact Hok|].
    eapply Step_graph_le; eauto.
  - intros t Ht. apply elem_of_app in Ht as [Ht|Ht]; [|auto].
    eapply graph_le_nil; [eapply Step_graph_le; eauto|auto].
  - rewrite orb_assoc. exact Hi2.
  - intros Hcs. apply elem_of_app in Hcs as [H|H].
    + rewrite (Hc1 H). reflexivity.
    + rewrite (Hc2 H). apply orb_true_r.
  - rewrite stack_use_app, Hk1. simpl. rewrite orb_assoc. exact Hk2.
  - lia.
Qed.

Lemma ChainPost_le cs v0 k0 hc U vis st m ret st' out m' :
  ChainPost cs v0 k0 hc U vis st m ret st' out m' -> graph_le st st'.
Proof. intros H. eapply Step_graph_le. apply (post_step _ _ _ _ _ _ _ _ _ _ _ _ H). Qed.

Lemma ChainPost_nil cs v0 k0 hc U st m :
  CycInv cs v0 k0 hc U st m ->
  ChainPost cs v0 k0 hc U [] st m false st [] m.
Proof.
  intros Hinv. split; try reflexivity.
  - apply Step_refl; [reflexivity|apply same_materializations_refl].
  - intros t Ht. inversion Ht.
  - rewrite orb_false_r. exact Hinv.
  - intros Ht. inversion Ht.
  - simpl. rewrite orb_false_r. reflexivity.
Qed.

Section Chain.

Variable fuel : nat.
Variable cs : Loc.
Variable v0 : Value.
Variable k0 : list Value.
Variable continue : Loc -> Resolver -> option (bool * Resolver * list Instr).

Hypothesis cs_not_scratch : cs <> Reg kScratchRegT.

Hypothesis continue_spec : forall s st m hc U,
  ChainPre cs (s :: U) st -> CycInv cs v0 k0 hc (s :: U) st m ->
  (pending_sources st < fuel)%nat ->
  exists ret st' out m',
    continue s st = Some (ret, st', out)
    /\ ChainPost cs v0 k0 hc U [s] st m ret st' out m'.

Lemma visit_targets_spec ts : forall acc st m hc U,
  ChainPre cs (ts ++ U) st -> CycInv cs v0 k0 hc (ts ++ U) st m ->
  (pending_sources st < fuel)%nat ->
  exists ret st' out m',
    visit_targets continue ts acc st = Some (acc || ret, st', out)
    /\ ChainPost cs v0 k0 hc U ts st m ret st' out m'.
Proof.
  induction ts as [|t ts IH]; intros acc st m hc U Hpre Hinv Hfuel.
  - exists false, st, [], m. simpl. rewrite orb_false_r. split; [reflexivity|].
    apply ChainPost_nil. exact Hinv.
  - simpl in Hpre, Hinv.
    destruct (continue_spec t st m hc (ts ++ U) Hpre Hinv Hfuel)
      as (ret1 & st1 & out1 & m1 & Hk & Hpost1).
    assert (Hpre1 : ChainPre cs (ts ++ U) st1).
    { eapply ChainPre_le; [exact Hpre|eapply ChainPost_le; eauto| |].
      - intros x Hx. apply elem_of_cons. right. exact Hx.
      - pose proof (cp_nodup _ _ _ Hpre) as Hnd. apply NoDup_cons in Hnd. apply Hnd. }
    assert (Hfuel1 : (pending_sources st1 < fuel)%nat).
    { pose proof (post_pending _ _ _ _ _ _ _ _ _ _ _ _ Hpost1). lia. }
    destruct (IH (acc || ret1) st1 m1 (hc || ret1) U Hpre1 (post_inv _ _ _ _ _ _ _ _ _ _ _ _ Hpost1) Hfuel1)
      as (ret2 & st2 & out2 & m2 & Hv & Hpost2).
    exists (ret1 || ret2), st2, (out1 ++ out2), m2. split.
    + simpl. rewrite Hk, Hv. rewrite orb_assoc. reflexivity.
    + apply (ChainPost_seq cs v0 k0 hc (ts ++ U) U [t] ts st m ret1 st1 out1 m1);
        [apply Hpre|exact Hpost1|exact Hpost2].
Qed.

Lemma RecursivelyEmitMoveChainTargets_spec targets st m hc U :
  ChainPre cs (locs_of targets ++ U) st ->
  CycInv cs v0 k0 hc (locs_of targets ++ U) st m ->
  (pending_sources st < fuel)%nat ->
  exists ret st' out m',
    RecursivelyEmitMoveChainTargets continue targets st = Some (ret, st', out)
    /\ ChainPost cs v0 k0 hc U (locs_of targets) st m ret st' out m'.
Proof.
  unfold locs_of, RecursivelyEmitMoveChainTargets. rewrite <- !app_assoc.
  intros Hpre Hinv Hfuel.
  destruct (visit_targets_spec (Reg <$> registers targets) false st m hc
              ((Slot <$> stack_slots targets) ++ U) Hpre Hinv Hfuel)
    as (ret1 & st1 & out1 & m1 & Hv1 & Hpost1).
  simpl in Hv1. rewrite Hv1.
  assert (Hpre1 : ChainPre cs ((Slot <$> stack_slots targets) ++ U) st1).
  { eapply ChainPre_le; [exact Hpre|eapply ChainPost_le; eauto| |].
    - intros x Hx. apply elem_of_app. right. exact Hx.
    - pose proof (cp_nodup _ _ _ Hpre) as Hnd. apply NoDup_app in Hnd. apply Hnd. }
  assert (Hfuel1 : (pending_sources st1 < fuel)%nat).
  { pose proof (post_pending _ _ _ _ _ _ _ _ _ _ _ _ Hpost1). lia. }
  destruct (visit_targets_spec (Slot <$> stack_slots targets) ret1 st1 m1 (hc || ret1) U
              Hpre1 (post_inv _ _ _ _ _ _ _ _ _ _ _ _ Hpost1) Hfuel1)
    as (ret2 & st2 & out2 & m2 & Hv2 & Hpost2).
  rewrite Hv2.
  exists (ret1 || ret2), st2, (out1 ++ out2), m2. split; [reflexivity|].
  eapply ChainPost_seq; [apply Hpre|exact Hpost1|exact Hpost2].
Qed.

End Chain.

(** Taking the edges of [s] out of the graph, emitting (part of) what is
    reachable from them, and then emitting the edges of [s] themselves is a
    step of the whole. *)
Lemma Step_pop_emit X s st st1 m st2 m2 st3 m3 :
  GraphOK st ->
  (forall l, X l -> forall p, l ∉ get st p) ->
  (forall p, get st1 p = if decide (p = s) then [] else get st p) ->
  same_materializations st st1 ->
  Step X st1 m st2 m2 ->
  (forall t, t ∈ get st s -> get st2 t = []) ->
  (forall p, get st3 p = get st2 p) -> same_materializations st2 st3 ->
  (forall t, t ∈ get st s -> read m3 t = read m s) ->
  (forall l, ~ X l -> l ∉ get st s -> read m3 l = read m2 l) ->
  Step X st m st3 m3.
Proof.
  intros Hok HX H1 Hm1 [Hle Hem Hfr Hcl Hm2] Hvis H3 Hm3 Hts Hrest.
  assert (Hs2 : get st2 s = []).
  { destruct (Hle s) as [H|H]; [|exact H]. rewrite H, H1.
    rewrite decide_True by reflexivity. reflexivity. }
  split.
  - intros p. rewrite H3. destruct (Hle p) as [H|H]; [|right; exact H].
    rewrite H, H1. destruct (decide (p = s)); [right|left]; reflexivity.
  - intros p t Ht He. rewrite H3 in He.
    destruct (decide (p = s)) as [->|Hne]; [apply Hts, Ht|].
    assert (Ht1 : t ∈ get st1 p) by (rewrite H1, decide_False by exact Hne; exact Ht).
    rewrite <- (Hem p t Ht1 He). apply Hrest.
    + intros Hx. exact (HX t Hx p Ht).
    + intros Hts'. apply Hne. eapply g_indeg; eauto.
  - intros l Hx Hl.
    assert (Hls : l ∉ get st s).
    { intros Hin. apply (Hl s Hin). rewrite H3. exact Hs2. }
    rewrite (Hrest l Hx Hls). apply Hfr; [exact Hx|].
    intros p Hp He. rewrite H1 in Hp. destruct (decide (p = s)); [inversion Hp|].
    apply (Hl p Hp). rewrite H3. exact He.
  - intros p t Ht He. rewrite H3 in *.
    destruct (decide (p = s)) as [->|Hne]; [apply Hvis, Ht|].
    apply (Hcl p t); [|exact He]. rewrite H1, decide_False by exact Hne. exact Ht.
  - eapply same_materializations_trans; [exact Hm1|].
    eapply same_materializations_trans; eauto.
Qed.

Lemma PopTargets_split source st :
  PopTargets source st = ((PopTargets source st).1, (PopTargets source st).2).
Proof. destruct (PopTargets source st); reflexivity. Qed.

Lemma depth_PopTargets hc source st :
  depth hc (PopTargets source st).2 = depth hc st.
Proof. unfold depth. rewrite PopTargets_flag. reflexivity. Qed.

(** The state in which the targets of [s] are visited. *)
Lemma ChainPre_pop cs s U st :
  ChainPre cs (s :: U) st ->
  ChainPre cs (get st s ++ U) (PopTargets s st).2.
Proof.
  intros [Hok Hcs Hnd Hin Hscr].
  apply NoDup_cons in Hnd as [HsU Hnd].
  split.
  - eapply GraphOK_le; [exact Hok|apply graph_le_PopTargets].
  - eapply graph_le_nil; [apply graph_le_PopTargets|exact Hcs].
  - apply NoDup_app. split; [apply (g_nodup st Hok)|split; [|exact Hnd]].
    intros x Hx HxU. apply (Hin x s); [|exact Hx]. apply elem_of_cons. right. exact HxU.
  - intros t p Ht. rewrite get_PopTargets. destruct (decide (p = s)) as [->|Hne].
    + intros H. inversion H.
    + apply elem_of_app in Ht as [Ht|Ht].
      * intros Hp. apply Hne. eapply g_indeg; eauto.
      * apply Hin. apply elem_of_cons. right. exact Ht.
  - intros H. apply elem_of_app in H as [H|H].
    + exact (g_scratch_target st Hok s H).
    + apply Hscr. apply elem_of_cons. right. exact H.
Qed.

Lemma CycInv_pop cs v0 k0 hc s U st m :
  CycInv cs v0 k0 hc (s :: U) st m ->
  CycInv cs v0 k0 hc (get st s ++ U) (PopTargets s st).2 m.
Proof.
  intros Hinv. unfold CycInv in *. rewrite PopTargets_flag. destruct hc; [|exact Hinv].
  destruct Hinv as (Hnt & HnU & Hsave). split; [|split; [|exact Hsave]].
  - intros p Hp. eapply Hnt, graph_le_elem; [apply graph_le_PopTargets|exact Hp].
  - intros H. apply elem_of_app in H as [H|H]; [exact (Hnt s H)|].
    apply HnU. apply elem_of_cons. right. exact H.
Qed.

Lemma ContinueEmitMoveChain_spec fuel cs v0 k0 :
  cs <> Reg kScratchRegT ->
  forall s st m hc U,
  ChainPre cs (s :: U) st -> CycInv cs v0 k0 hc (s :: U) st m ->
  (pending_sources st < fuel)%nat ->
  exists ret st' out m',
    ContinueEmitMoveChain fuel cs s st = Some (ret, st', out)
    /\ ChainPost cs v0 k0 hc U [s] st m ret st' out m'.
Proof.
  intros Hcs. induction fuel as [|fuel IH]; intros s st m hc U Hpre Hinv Hfuel; [lia|].
  simpl. destruct (decide (cs = s)) as [<-|Hne].
  - (* back at the chain start: a cycle *)
    assert (Hhc : hc = false).
    { destruct hc; [|reflexivity]. destruct Hinv as (_ & HnU & _).
      exfalso. apply HnU. apply elem_of_cons. left. reflexivity. }
    subst hc. destruct Hinv as (Hflag & Hv & Hk).
    set (m' := write (Reg kScratchRegT) (read m cs) m).
    exists true, (set_scratch_has_cycle_start true st),
      [RecordComment "--   * Cycle"; MoveToScratch cs], m'.
    split; [reflexivity|]. split.
    + destruct cs; reflexivity.
    + apply Step_same_graph; [apply get_set_flag|split; reflexivity|].
      intros l Hl. unfold m'. apply read_write_ne. intros <-. apply Hl. reflexivity.
    + intros t Ht. apply list_elem_of_singleton in Ht as ->.
      rewrite get_set_flag. apply (cp_start _ _ _ Hpre).
    + unfold CycInv. cbn [orb scratch_has_cycle_start_ set_scratch_has_cycle_start].
      split; [|split].
      * intros p. rewrite get_set_flag. apply (cp_inflight _ _ _ Hpre).
        apply elem_of_cons. left. reflexivity.
      * pose proof (cp_nodup _ _ _ Hpre) as Hnd. apply NoDup_cons in Hnd. apply Hnd.
      * split; [unfold m'; rewrite read_write_eq; exact Hv|].
        unfold m'. rewrite native_stack_write. exact Hk.
    + reflexivity.
    + unfold depth. simpl. destruct cs; reflexivity.
    + unfold pending_sources. simpl. lia.
  - rewrite (PopTargets_split s st).
    set (targets := (PopTargets s st).1). set (st1 := (PopTargets s st).2).
    assert (Hts : locs_of targets = get st s) by apply locs_PopTargets.
    assert (Hs_notin : forall p, s ∉ get st p).
    { intros p. apply (cp_inflight _ _ _ Hpre). apply elem_of_cons. left. reflexivity. }
    assert (Hs_scr : s <> Reg kScratchRegT).
    { intros ->. apply (cp_scratch _ _ _ Hpre). apply elem_of_cons. left. reflexivity. }
    destruct (is_empty targets) eqn:Hempty.
    + (* nothing leaves [s] *)
      apply is_empty_locs in Hempty. rewrite Hts in Hempty.
      assert (Hget : forall p, get st1 p = get st p).
      { intros p. unfold st1. rewrite get_PopTargets.
        destruct (decide (p = s)) as [->|]; [symmetry; exact Hempty|reflexivity]. }
      exists false, st1, [RecordComment "--   * End of chain"], m.
      split; [reflexivity|]. split.
      * reflexivity.
      * apply Step_refl; [exact Hget|apply PopTargets_mat].
      * intros t Ht. apply list_elem_of_singleton in Ht as ->.
        rewrite Hget. exact Hempty.
      * rewrite orb_false_r.
        apply (CycInv_frame cs v0 k0 hc (s :: U) U st m st1 m Hinv);
          [apply graph_le_PopTargets| |apply PopTargets_flag|reflexivity
          |reflexivity|reflexivity].
        intros x Hx. apply elem_of_cons. right. exact Hx.
      * intros Ht. apply list_elem_of_singleton in Ht. congruence.
      * simpl. rewrite orb_false_r. unfold st1. rewrite depth_PopTargets. reflexivity.
      * apply pending_PopTargets_le.
    + (* visit the targets of [s], then move [s] to them *)
      assert (Hfuel1 : (pending_sources st1 < fuel)%nat).
      { pose proof (pending_PopTargets_lt s st Hempty). unfold st1. lia. }
      pose proof (ChainPre_pop cs s U st Hpre) as Hpre1.
      pose proof (CycInv_pop cs v0 k0 hc s U st m Hinv) as Hinv1.
      rewrite <- Hts in Hpre1, Hinv1. fold st1 in Hpre1, Hinv1.
      destruct (RecursivelyEmitMoveChainTargets_spec fuel cs v0 k0
                  (ContinueEmitMoveChain fuel cs) IH targets st1 m hc U
                  Hpre1 Hinv1 Hfuel1)
        as (ret & st2 & out1 & m2 & Hrec & Hpost).
      rewrite Hrec.
      pose proof (cp_ok _ _ _ Hpre) as Hok.
      destruct (EmitMovesFromSource_spec s targets st2 m2 cs v0 k0 (hc || ret) U)
        as (st3 & out2 & m3 & Hemit & Hex & Hget3 & Hmat3 & Hpend3 & Hin3 & Hout3
            & Hinv3 & Hstk3).
      { rewrite Hts. apply (g_noself st Hok). }
      { rewrite Hts. apply (g_scratch_target st Hok). }
      { exact Hs_scr. }
      { rewrite Hts. apply (g_nodup st Hok). }
      { exact Hcs. }
      { apply (post_inv _ _ _ _ _ _ _ _ _ _ _ _ Hpost). }
      { intros Hf Hin. apply orb_false_iff in Hf as [_ Hret].
        rewrite (post_cycle _ _ _ _ _ _ _ _ _ _ _ _ Hpost Hin) in Hret. discriminate. }
      rewrite Hemit.
      exists ret, st3, (out1 ++ out2), m3. split; [reflexivity|].
      pose proof (post_step _ _ _ _ _ _ _ _ _ _ _ _ Hpost) as Hstep.
      assert (Hs2 : read m2 s = read m s).
      { apply (step_frame _ _ _ _ _ Hstep); [exact Hs_scr|].
        intros p Hp. exfalso. apply (Hs_notin p).
        eapply graph_le_elem; [apply graph_le_PopTargets|exact Hp]. }
      split.
      * rewrite exec_app, (post_exec _ _ _ _ _ _ _ _ _ _ _ _ Hpost). exact Hex.
      * apply (Step_pop_emit is_scratch s st st1 m st2 m2 st3 m3); auto.
        -- intros l -> p. apply (g_scratch_target st Hok).
        -- intros p. unfold st1. apply get_PopTargets.
        -- apply PopTargets_mat.
        -- intros t Ht. apply (post_visited _ _ _ _ _ _ _ _ _ _ _ _ Hpost).
           rewrite Hts. exact Ht.
        -- intros t Ht. rewrite <- Hs2. apply Hin3. rewrite Hts. exact Ht.
        -- intros l Hl Hlt. apply Hout3; [exact Hl|rewrite Hts; exact Hlt].
      * intros t Ht. apply list_elem_of_singleton in Ht as ->. rewrite Hget3.
        eapply graph_le_nil; [eapply Step_graph_le; exact Hstep|].
        unfold st1. rewrite get_PopTargets, decide_True by reflexivity. reflexivity.
      * exact Hinv3.
      * intros Ht. apply list_elem_of_singleton in Ht. congruence.
      * rewrite stack_use_app.
        pose proof (post_stack _ _ _ _ _ _ _ _ _ _ _ _ Hpost) as Hk1.
        unfold st1 in Hk1. rewrite depth_PopTargets in Hk1. rewrite Hk1. simpl.
        exact Hstk3.
      * pose proof (post_pending _ _ _ _ _ _ _ _ _ _ _ _ Hpost).
        pose proof (pending_PopTargets_le s st). fold st1 in H0. lia.
Qed.

(** [StartEmitMoveChain] emits every edge reachable from [cs] and leaves
    the scratch register free and the native stack as it found it. *)
Lemma StartEmitMoveChain_spec fuel cs st m :
  GraphOK st -> cs <> Reg kScratchRegT ->
  scratch_has_cycle_start_ st = false ->
  (pending_sources st < fuel)%nat ->
  exists st' out m',
    StartEmitMoveChain fuel cs st = Some (st', out)
    /\ exec out m = Some m'
    /\ Step is_scratch st m st' m'
    /\ get st' cs = []
    /\ scratch_has_cycle_start_ st' = false
    /\ native_stack m' = native_stack m
    /\ stack_use 0 out = Some 0%nat
    /\ (pending_sources st' <= pending_sources (PopTargets cs st).2)%nat.
Proof.
  intros Hok Hcs Hflag Hfuel. unfold StartEmitMoveChain.
  rewrite (PopTargets_split cs st).
  set (targets := (PopTargets cs st).1). set (st1 := (PopTargets cs st).2).
  assert (Hts : locs_of targets = get st cs) by apply locs_PopTargets.
  assert (Hget1 : forall p, get st1 p = if decide (p = cs) then [] else get st p)
    by (intros p; apply get_PopTargets).
  assert (Hflag1 : scratch_has_cycle_start_ st1 = false)
    by (unfold st1; rewrite PopTargets_flag; exact Hflag).
  assert (Hpend1 : (pending_sources st1 <= pending_sources st)%nat)
    by apply pending_PopTargets_le.
  destruct (is_empty targets) eqn:Hempty.
  - apply is_empty_locs in Hempty. rewrite Hts in Hempty.
    assert (Hget : forall p, get st1 p = get st p).
    { intros p. rewrite Hget1.
      destruct (decide (p = cs)) as [->|]; [symmetry; exact Hempty|reflexivity]. }
    exists st1, [], m.
    split_and!; [reflexivity|reflexivity| |rewrite Hget; exact Hempty|exact Hflag1
                |reflexivity|reflexivity|reflexivity].
    apply Step_refl; [exact Hget|apply PopTargets_mat].
  - assert (Hpre1 : ChainPre cs (locs_of targets ++ []) st1).
    { rewrite Hts, app_nil_r. split.
      - eapply GraphOK_le; [exact Hok|apply graph_le_PopTargets].
      - rewrite Hget1, decide_True by reflexivity. reflexivity.
      - apply (g_nodup st Hok).
      - intros t p Ht. rewrite Hget1. destruct (decide (p = cs)) as [->|Hne].
        + intros H. inversion H.
        + intros Hp. apply Hne. eapply g_indeg; eauto.
      - apply (g_scratch_target st Hok). }
    assert (Hinv1 : CycInv cs (read m cs) (native_stack m) false
                      (locs_of targets ++ []) st1 m).
    { split; [exact Hflag1|split; reflexivity]. }
    destruct (RecursivelyEmitMoveChainTargets_spec fuel cs (read m cs) (native_stack m)
                (ContinueEmitMoveChain fuel cs)
                (ContinueEmitMoveChain_spec fuel cs (read m cs) (native_stack m) Hcs)
                targets st1 m false [] Hpre1 Hinv1 ltac:(lia))
      as (ret & st2 & out1 & m2 & Hrec & Hpost).
    rewrite Hrec.
    destruct Hpost as [Hex1 Hstep Hvis Hinv2 _ Hstk1 Hpend2].
    cbn [orb] in Hinv2, Hstk1.
    assert (Hd1 : depth false st1 = 0%nat) by reflexivity.
    rewrite Hd1 in Hstk1.
    destruct ret.
    + (* the chain is a cycle: its start is moved from the scratch register *)
      destruct Hinv2 as (Hnt & _ & Hsave).
      assert (Hpop : exists m2',
                exec (if scratch_has_cycle_start_ st2 then [] else [PopReg kScratchRegT]) m2
                  = Some m2'
                /\ read m2' (Reg kScratchRegT) = read m cs
                /\ native_stack m2' = native_stack m
                /\ (forall l, l <> Reg kScratchRegT -> read m2' l = read m2 l)
                /\ stack_use (depth true st2)
                     (if scratch_has_cycle_start_ st2 then [] else [PopReg kScratchRegT])
                   = Some 0%nat).
      { unfold depth. destruct (scratch_has_cycle_start_ st2).
        - destruct Hsave as [Hv Hk]. exists m2. split_and!; auto.
        - exists (write (Reg kScratchRegT) (read m cs)
                    (mkMachine (reg_file m2) (frame_slots m2) (native_stack m))).
          split_and!.
          + simpl. rewrite Hsave. reflexivity.
          + apply read_write_eq.
          + rewrite native_stack_write. reflexivity.
          + intros l Hl. rewrite read_write_ne by congruence. destruct l; reflexivity.
          + simpl. rewrite decide_True by (split; reflexivity). reflexivity. }
      destruct Hpop as (m2' & Hexp & Hscr' & Hstk' & Hfr' & Hsu').
      assert (Hscr_ts : Reg kScratchRegT ∉ locs_of targets).
      { rewrite Hts. apply (g_scratch_target st Hok). }
      destruct (exec_moves_from kScratchRegT (locs_of targets) m2' Hscr_ts)
        as (m3 & Hex3 & Hin3 & Hout3 & Hstk3).
      exists (set_scratch_has_cycle_start false st2),
        (out1 ++ (if scratch_has_cycle_start_ st2 then [] else [PopReg kScratchRegT])
              ++ EmitMovesFromRegister kScratchRegT targets
              ++ [RecordComment "--   * End of cycle"]), m3.
      split_and!.
      * reflexivity.
      * rewrite exec_app, Hex1. simpl. rewrite exec_app, Hexp. simpl.
        rewrite exec_app, EmitMovesFromRegister_map, Hex3. reflexivity.
      * apply (Step_pop_emit is_scratch cs st st1 m st2 m2
                 (set_scratch_has_cycle_start false st2) m3 Hok);
          [ intros l -> p; apply (g_scratch_target st Hok)
          | exact Hget1
          | apply PopTargets_mat
          | exact Hstep
          | intros t Ht; apply Hvis; rewrite Hts; exact Ht
          | intros p; apply get_set_flag
          | split; reflexivity
          | intros t Ht; rewrite Hin3 by (rewrite Hts; exact Ht); exact Hscr'
          | intros l Hl Hlt; rewrite Hout3 by (rewrite Hts; exact Hlt);
            apply Hfr'; intros ->; apply Hl; reflexivity ].
      * rewrite get_set_flag. eapply graph_le_nil; [eapply Step_graph_le; exact Hstep|].
        rewrite Hget1, decide_True by reflexivity. reflexivity.
      * reflexivity.
      * rewrite Hstk3. exact Hstk'.
      * rewrite stack_use_app, Hstk1. simpl. rewrite stack_use_app, Hsu'. simpl.
        rewrite stack_use_app, EmitMovesFromRegister_map, stack_use_moves_from.
        reflexivity.
      * exact Hpend2.
    + (* no cycle: the start is moved last, from where it is *)
      destruct (EmitMovesFromSource_spec cs targets st2 m2 cs (read m cs) (native_stack m)
                  false [])
        as (st3 & out2 & m3 & Hemit & Hex & Hget3 & Hmat3 & Hpend3 & Hin3 & Hout3
            & Hinv3 & Hstk3).
      { rewrite Hts. apply (g_noself st Hok). }
      { rewrite Hts. apply (g_scratch_target st Hok). }
      { exact Hcs. }
      { rewrite Hts. apply (g_nodup st Hok). }
      { exact Hcs. }
      { exact Hinv2. }
      { intros _. rewrite Hts. apply (g_noself st Hok). }
      rewrite Hemit.
      destruct Hinv2 as (Hf2 & Hv2 & Hk2). destruct Hinv3 as (Hf3 & Hv3 & Hk3).
      exists st3, (out1 ++ out2 ++ [RecordComment "--   * Chain emitted with no cycles"]), m3.
      split_and!.
      * reflexivity.
      * rewrite exec_app, Hex1. simpl. rewrite exec_app, Hex. reflexivity.
      * apply (Step_pop_emit is_scratch cs st st1 m st2 m2 st3 m3 Hok);
          [ intros l -> p; apply (g_scratch_target st Hok)
          | exact Hget1
          | apply PopTargets_mat
          | exact Hstep
          | intros t Ht; apply Hvis; rewrite Hts; exact Ht
          | exact Hget3
          | exact Hmat3
          | intros t Ht; rewrite <- Hv2; apply Hin3; rewrite Hts; exact Ht
          | intros l Hl Hlt; apply Hout3; [|rewrite Hts; exact Hlt];
            intros ->; apply Hl; reflexivity ].
      * rewrite Hget3. eapply graph_le_nil; [eapply Step_graph_le; exact Hstep|].
        rewrite Hget1, decide_True by reflexivity. reflexivity.
      * exact Hf3.
      * exact Hk3.
      * rewrite stack_use_app, Hstk1. unfold depth in Hstk3 |- *.
        cbn [andb mbind option_bind] in Hstk3 |- *.
        rewrite stack_use_app, Hstk3. reflexivity.
      * rewrite Hpend3. exact Hpend2.
Qed.

(* --------------------------------------------------------------------- *)
(** ** The three loops of [EmitMoves] *)

(** The scratch register is not handed out by the register allocator, and
    [begin] of a non-empty map is one of its keys. *)
Hypothesis scratch_not_allocatable : kScratchRegT ∉ kAllocatableRegistersT.
Hypothesis begin_spec : forall m : gmap Z GapMoveTargets,
  m <> ∅ -> exists k, begin m = Some k /\ is_Some (m !! k).

Definition mat_reg (st : Resolver) (r : RegisterT) : option ValueNode :=
  materializing_register_moves_ st !!! r.

(** A resolver state as [RecordMove] builds it from a move set with
    in-degree at most one over allocatable registers. *)
Record ResolverOK (st : Resolver) : Prop := mkResolverOK {
  r_graph : GraphOK st;
  r_flag : scratch_has_cycle_start_ st = false;
  r_sources : forall r, get st (Reg r) <> [] -> r ∈ kAllocatableRegistersT;
  r_mat_reg : forall r n, mat_reg st r = Some n ->
                r ∈ kAllocatableRegistersT /\ forall p, Reg r ∉ get st p;
  r_mat_slot_nodup : NoDup (materializing_stack_slot_moves_ st).*1;
  r_mat_slot : forall s n p, (s, n) ∈ materializing_stack_slot_moves_ st ->
                 Slot s ∉ get st p
}.

(** The locations [EmitMoves] may have overwritten on its own account when
    the registers [done] have been dealt with. *)
Definition done_or_scratch (st0 : Resolver) (done : list RegisterT) (l : Loc) : Prop :=
  l = Reg kScratchRegT \/ exists r n, l = Reg r /\ r ∈ done /\ mat_reg st0 r = Some n.

Record LoopInv (st0 : Resolver) (m0 : Machine) (done : list RegisterT)
    (st : Resolver) (m : Machine) : Prop := mkLoopInv {
  li_step : Step (done_or_scratch st0 done) st0 m0 st m;
  li_flag : scratch_has_cycle_start_ st = false;
  li_stack : native_stack m = native_stack m0;
  li_done : forall r, r ∈ done -> get st (Reg r) = [];
  li_mat : forall r n, r ∈ done -> mat_reg st0 r = Some n ->
             read m (Reg r) = node_value n
}.

Lemma Step_weaken (X X' : Loc -> Prop) st m st' m' :
  (forall l, X l -> X' l) -> Step X st m st' m' -> Step X' st m st' m'.
Proof.
  intros HX [Hle Hem Hfr Hcl Hm]. split; [exact Hle|exact Hem| |exact Hcl|exact Hm].
  intros l Hl. apply Hfr. intros Hx. apply Hl, HX, Hx.
Qed.

Lemma Step_write (X : Loc -> Prop) st m st' m' l v :
  X l -> (forall p, l ∉ get st p) ->
  Step X st m st' m' -> Step X st m st' (write l v m').
Proof.
  intros Hx Hl [Hle Hem Hfr Hcl Hm]. split; [exact Hle| | |exact Hcl|exact Hm].
  - intros p t Ht He. rewrite read_write_ne; [auto|].
    intros ->. exact (Hl p Ht).
  - intros l' Hl' Hp. rewrite read_write_ne; [auto|]. intros ->. contradiction.
Qed.

Lemma allocatable_not_scratch r : r ∈ kAllocatableRegistersT -> Reg r <> Reg kScratchRegT.
Proof. intros Hr [= ->]. contradiction. Qed.

Lemma LoopInv_init st0 m0 :
  scratch_has_cycle_start_ st0 = false -> LoopInv st0 m0 [] st0 m0.
Proof.
  intros Hflag. split; [|exact Hflag|reflexivity| |].
  - apply Step_refl; [reflexivity|apply same_materializations_refl].
  - intros r Hr. inversion Hr.
  - intros r n Hr. inversion Hr.
Qed.

Lemma LoopInv_chain st0 m0 done st m st1 m1 :
  ResolverOK st0 -> LoopInv st0 m0 done st m ->
  Step is_scratch st m st1 m1 ->
  scratch_has_cycle_start_ st1 = false -> native_stack m1 = native_stack m ->
  LoopInv st0 m0 done st1 m1.
Proof.
  intros Hok [Hstep Hflag Hstk Hdone Hmat] Hchain Hflag1 Hstk1.
  pose proof (Step_graph_le _ _ _ _ _ Hstep) as Hle.
  pose proof (Step_graph_le _ _ _ _ _ Hchain) as Hle1.
  split.
  - eapply Step_trans; [apply (r_graph st0 Hok)| |exact Hstep|].
    + intros l [->|(r & n & -> & Hr & Hn)].
      * apply (scratch_side st0 st (r_graph st0 Hok) Hle). reflexivity.
      * split; [apply (r_mat_reg st0 Hok r n Hn)|apply Hdone, Hr].
    + eapply Step_weaken; [|exact Hchain]. intros l ->. left. reflexivity.
  - exact Hflag1.
  - congruence.
  - intros r Hr. eapply graph_le_nil; [exact Hle1|apply Hdone, Hr].
  - intros r n Hr Hn. rewrite <- (Hmat r n Hr Hn).
    destruct (r_mat_reg st0 Hok r n Hn) as [Hal Hnt].
    apply (step_frame _ _ _ _ _ Hchain).
    + apply allocatable_not_scratch, Hal.
    + intros p Hp. exfalso. apply (Hnt p). eapply graph_le_elem; eauto.
Qed.

Lemma LoopInv_load st0 m0 done st m r :
  ResolverOK st0 -> LoopInv st0 m0 done st m -> get st (Reg r) = [] ->
  exists m',
    exec match mat_reg st0 r with
         | Some node => [LoadToRegister node r]
         | None => []
         end m = Some m'
    /\ LoopInv st0 m0 (done ++ [r]) st m'.
Proof.
  intros Hok [Hstep Hflag Hstk Hdone Hmat] Hr.
  assert (Hstep' : Step (done_or_scratch st0 (done ++ [r])) st0 m0 st m).
  { eapply Step_weaken; [|exact Hstep].
    intros l [->|(r' & n & -> & Hr' & Hn)]; [left; reflexivity|].
    right. exists r', n. split_and!; auto. apply elem_of_app. left. exact Hr'. }
  assert (Hdone' : forall r', r' ∈ done ++ [r] -> get st (Reg r') = []).
  { intros r' Hr'. apply elem_of_app in Hr' as [H|H]; [auto|].
    apply list_elem_of_singleton in H as ->. exact Hr. }
  destruct (mat_reg st0 r) as [node|] eqn:Hnode.
  - exists (write (Reg r) (node_value node) m). split; [reflexivity|].
    destruct (r_mat_reg st0 Hok r node Hnode) as [Hal Hnt].
    split.
    + apply Step_write; [|exact Hnt|exact Hstep'].
      right. exists r, node. split_and!; auto. apply elem_of_app. right.
      apply list_elem_of_singleton. reflexivity.
    + exact Hflag.
    + rewrite native_stack_write. exact Hstk.
    + exact Hdone'.
    + intros r' n Hr' Hn. destruct (decide (r' = r)) as [->|Hne].
      * rewrite read_write_eq. congruence.
      * rewrite read_write_ne by congruence. apply Hmat; [|exact Hn].
        apply elem_of_app in Hr' as [H|H]; [exact H|].
        apply list_elem_of_singleton in H. contradiction.
  - exists m. split; [reflexivity|]. split; auto.
    intros r' n Hr' Hn. apply Hmat; [|exact Hn].
    apply elem_of_app in Hr' as [H|H]; [exact H|].
    apply list_elem_of_singleton in H as ->. congruence.
Qed.

Lemma LoopInv_GraphOK st0 m0 done st m :
  ResolverOK st0 -> LoopInv st0 m0 done st m -> GraphOK st.
Proof.
  intros Hok Hinv. eapply GraphOK_le; [apply (r_graph st0 Hok)|].
  eapply Step_graph_le. apply (li_step _ _ _ _ _ Hinv).
Qed.

Lemma EmitRegisterMoves_spec fuel st0 m0 regs : forall done st m,
  ResolverOK st0 -> LoopInv st0 m0 done st m ->
  (forall r, r ∈ regs -> r ∈ kAllocatableRegistersT) ->
  (pending_sources st < fuel)%nat ->
  exists st' out m',
    EmitRegisterMoves fuel regs st = Some (st', out)
    /\ exec out m = Some m'
    /\ LoopInv st0 m0 (done ++ regs) st' m'
    /\ stack_use 0 out = Some 0%nat
    /\ (pending_sources st' <= pending_sources st)%nat.
Proof.
  induction regs as [|reg regs IH]; intros done st m Hok Hinv Hregs Hfuel.
  - exists st, [], m. rewrite app_nil_r. split_and!; auto.
  - simpl.
    assert (Hal : reg ∈ kAllocatableRegistersT) by (apply Hregs; left).
    destruct (StartEmitMoveChain_spec fuel (Reg reg) st m)
      as (st1 & out1 & m1 & Hstart & Hex1 & Hstep1 & Hreg1 & Hflag1 & Hstk1 & Hsu1 & Hpend1).
    { eapply LoopInv_GraphOK; eauto. }
    { apply allocatable_not_scratch, Hal. }
    { apply (li_flag _ _ _ _ _ Hinv). }
    { exact Hfuel. }
    rewrite Hstart.
    pose proof (LoopInv_chain st0 m0 done st m st1 m1 Hok Hinv Hstep1 Hflag1 Hstk1) as Hinv1.
    destruct (LoopInv_load st0 m0 done st1 m1 reg Hok Hinv1 Hreg1) as (m2 & Hex2 & Hinv2).
    assert (Hmat : materializing_register_moves_ st1 !!! reg = mat_reg st0 reg).
    { unfold mat_reg. f_equal.
      apply (step_mat _ _ _ _ _ (li_step _ _ _ _ _ Hinv1)). }
    rewrite Hmat.
    pose proof (pending_PopTargets_le (Reg reg) st) as Hpop.
    destruct (IH (done ++ [reg]) st1 m2 Hok Hinv2) as
      (st3 & out3 & m3 & Hrec & Hex3 & Hinv3 & Hsu3 & Hpend3).
    { intros r Hr. apply Hregs. right. exact Hr. }
    { lia. }
    rewrite Hrec. rewrite <- app_assoc in Hinv3.
    exists st3, (out1 ++ match mat_reg st0 reg with
                        | Some node => [LoadToRegister node reg]
                        | None => []
                        end ++ out3), m3.
    split_and!.
    + reflexivity.
    + rewrite exec_app, Hex1. simpl. rewrite exec_app, Hex2. exact Hex3.
    + exact Hinv3.
    + rewrite stack_use_app, Hsu1. simpl. rewrite stack_use_app.
      destruct (mat_reg st0 reg); simpl; exact Hsu3.
    + lia.
Qed.

Lemma pending_PopTargets_slot_lt s st :
  is_Some (moves_from_stack_slot_ st !! s) ->
  (pending_sources (PopTargets (Slot s) st).2 < pending_sources st)%nat.
Proof.
  intros [t Ht]. unfold pending_sources. simpl. rewrite Ht. simpl.
  rewrite map_size_delete_Some by eauto.
  assert (size (moves_from_stack_slot_ st) <> 0%nat)
    by (eapply map_size_ne_0_lookup_2; eauto).
  lia.
Qed.

Lemma EmitStackSlotMoves_spec fuel st0 m0 done n : forall st m,
  ResolverOK st0 -> LoopInv st0 m0 done st m ->
  (pending_sources st <= n)%nat -> (pending_sources st < fuel)%nat ->
  exists st' out m',
    EmitStackSlotMoves n fuel st = Some (st', out)
    /\ exec out m = Some m'
    /\ LoopInv st0 m0 done st' m'
    /\ moves_from_stack_slot_ st' = ∅
    /\ stack_use 0 out = Some 0%nat.
Proof.
  induction n as [|n IH]; intros st m Hok Hinv Hn Hfuel.
  - assert (Hempty : moves_from_stack_slot_ st = ∅).
    { apply map_size_empty_inv. unfold pending_sources in Hn. lia. }
    exists st, [], m. simpl. rewrite decide_True by exact Hempty. split_and!; auto.
  - simpl. destruct (decide (moves_from_stack_slot_ st = ∅)) as [Hempty|Hne].
    + exists st, [], m. split_and!; auto.
    + destruct (begin_spec _ Hne) as (first & Hbegin & Hfirst).
      rewrite Hbegin.
      destruct (StartEmitMoveChain_spec fuel (Slot first) st m)
        as (st1 & out1 & m1 & Hstart & Hex1 & Hstep1 & Hreg1 & Hflag1 & Hstk1 & Hsu1 & Hpend1).
      { eapply LoopInv_GraphOK; eauto. }
      { discriminate. }
      { apply (li_flag _ _ _ _ _ Hinv). }
      { exact Hfuel. }
      rewrite Hstart.
      pose proof (LoopInv_chain st0 m0 done st m st1 m1 Hok Hinv Hstep1 Hflag1 Hstk1) as Hinv1.
      pose proof (pending_PopTargets_slot_lt first st Hfirst) as Hlt.
      destruct (IH st1 m1 Hok Hinv1) as (st2 & out2 & m2 & Hrec & Hex2 & Hinv2 & Hmap2 & Hsu2);
        [lia|lia|].
      rewrite Hrec. exists st2, (out1 ++ out2), m2. split_and!; auto.
      * rewrite exec_app, Hex1. exact Hex2.
      * rewrite stack_use_app, Hsu1. exact Hsu2.
Qed.

(* --------------------------------------------------------------------- *)
(** ** [EmitMoves] on a well-formed resolver state *)

(** [Simultaneous st m m']: [m'] is [m] after all moves recorded in [st]
    have been executed at once. *)
Definition Simultaneous (st : Resolver) (m m' : Machine) : Prop :=
  (forall p t, t ∈ get st p -> read m' t = read m p)
  /\ (forall r n, mat_reg st r = Some n -> read m' (Reg r) = node_value n)
  /\ (forall s n, (s, n) ∈ materializing_stack_slot_moves_ st ->
        read m' (Slot s) = node_value n)
  /\ (forall l, l <> Reg kScratchRegT -> (forall p, l ∉ get st p) ->
        (forall r n, l = Reg r -> mat_reg st r <> Some n) ->
        (forall s n, l = Slot s -> (s, n) ∉ materializing_stack_slot_moves_ st) ->
        read m' l = read m l)
  /\ native_stack m' = native_stack m.

Lemma exec_materializing_stack_slot_moves l : forall m,
  NoDup l.*1 ->
  exists m',
    exec (EmitMaterializingStackSlotMoves l) m = Some m'
    /\ (forall s n, (s, n) ∈ l -> read m' (Slot s) = node_value n)
    /\ (forall l', l' <> Reg kScratchRegT ->
          (forall s n, l' = Slot s -> (s, n) ∉ l) -> read m' l' = read m l')
    /\ native_stack m' = native_stack m
    /\ stack_use 0 (EmitMaterializingStackSlotMoves l) = Some 0%nat.
Proof.
  induction l as [|[s n] l IH]; intros m Hnd.
  - exists m. split_and!; auto. intros s n H. inversion H.
  - simpl in Hnd. apply NoDup_cons in Hnd as [Hs Hnd].
    set (m1 := write (Slot s) (node_value n) (write (Reg kScratchRegT) (node_value n) m)).
    destruct (IH m1 Hnd) as (m' & Hex & Hin & Hout & Hstk & Hsu).
    exists m'. split_and!.
    + unfold EmitMaterializingStackSlotMoves in *.
      cbn [fmap list_fmap concat app exec exec_instr].
      rewrite read_write_eq. exact Hex.
    + intros s' n' Hin'. apply elem_of_cons in Hin' as [[= -> ->]|Hin']; [|auto].
      rewrite Hout; [unfold m1; apply read_write_eq|discriminate|].
      intros s' n' [= <-] Hin'. apply Hs. apply list_elem_of_fmap.
      exists (s, n'). split; [reflexivity|exact Hin'].
    + intros l' Hl' Hnot. rewrite Hout; [|exact Hl'|].
      * unfold m1. rewrite !read_write_ne; [reflexivity|congruence|].
        intros <-. apply (Hnot s n eq_refl). left.
      * intros s' n' -> Hin'. apply (Hnot s' n' eq_refl). right. exact Hin'.
    + rewrite Hstk. unfold m1. rewrite !native_stack_write. reflexivity.
    + exact Hsu.
Qed.

Lemma get_slot_empty_map st s :
  moves_from_stack_slot_ st = ∅ -> get st (Slot s) = [].
Proof.
  intros H. unfold get, targets_from_stack_slot. rewrite H, lookup_empty. reflexivity.
Qed.

Theorem EmitMoves_simultaneous st m :
  ResolverOK st ->
  exists st' code m',
    EmitMoves st = Some (st', code)
    /\ exec code m = Some m'
    /\ Simultaneous st m m'
    /\ stack_use 0 code = Some 0%nat.
Proof.
  intros Hok. unfold EmitMoves.
  destruct (EmitRegisterMoves_spec (S (pending_sources st)) st m kAllocatableRegistersT
              [] st m Hok (LoopInv_init st m (r_flag st Hok)))
    as (st1 & out1 & m1 & Hregs & Hex1 & Hinv1 & Hsu1 & Hpend1); [auto|lia|].
  rewrite Hregs. simpl in Hinv1.
  destruct (EmitStackSlotMoves_spec (S (pending_sources st)) st m kAllocatableRegistersT
              (S (pending_sources st)) st1 m1 Hok Hinv1)
    as (st2 & out2 & m2 & Hslots & Hex2 & Hinv2 & Hmap2 & Hsu2); [lia|lia|].
  rewrite Hslots.
  destruct Hinv2 as [Hstep Hflag Hstk Hdone Hmat].
  destruct (step_mat _ _ _ _ _ Hstep) as [Hmr Hms]. rewrite Hms.
  destruct (exec_materializing_stack_slot_moves (materializing_stack_slot_moves_ st) m2
              (r_mat_slot_nodup st Hok))
    as (m3 & Hex3 & Hin3 & Hout3 & Hstk3 & Hsu3).
  exists st2, (out1 ++ out2 ++ EmitMaterializingStackSlotMoves
                                 (materializing_stack_slot_moves_ st)), m3.
  assert (Hall : forall p, get st2 p = []).
  { intros [r|s]; [|apply get_slot_empty_map, Hmap2].
    destruct (decide (r ∈ kAllocatableRegistersT)) as [Hr|Hr]; [apply Hdone, Hr|].
    eapply graph_le_nil; [eapply Step_graph_le; exact Hstep|].
    destruct (get st (Reg r)) eqn:Hg; [reflexivity|].
    exfalso. apply Hr, (r_sources st Hok). rewrite Hg. discriminate. }
  pose proof (r_graph st Hok) as Hg.
  split_and!.
  - reflexivity.
  - rewrite exec_app, Hex1. simpl. rewrite exec_app, Hex2. exact Hex3.
  - split_and!.
    + intros p t Ht. rewrite Hout3.
      * apply (step_emitted _ _ _ _ _ Hstep p t Ht (Hall p)).
      * intros ->. exact (g_scratch_target st Hg p Ht).
      * intros s n -> Hin. exact (r_mat_slot st Hok s n p Hin Ht).
    + intros r n Hn. destruct (r_mat_reg st Hok r n Hn) as [Hal Hnt].
      rewrite Hout3; [apply (Hmat r n Hal Hn)|apply allocatable_not_scratch, Hal|discriminate].
    + exact Hin3.
    + intros l Hl Hnt Hnr Hns. rewrite Hout3 by auto.
      apply (step_frame _ _ _ _ _ Hstep).
      * intros [->|(r & n & -> & Hr & Hn)]; [congruence|]. exact (Hnr r n eq_refl Hn).
      * intros p Hp. exfalso. exact (Hnt p Hp).
    + congruence.
  - rewrite stack_use_app, Hsu1. simpl. rewrite stack_use_app, Hsu2. exact Hsu3.
Qed.

(* --------------------------------------------------------------------- *)
(** ** The scratch register is saved when it is needed again *)

(** The state of the scratch register that goes with the state of a chain:
    [hc] tells whether the cycle has been met. *)
Definition scratch_state (hc : bool) (st : Resolver) : ScratchState :=
  if hc then
    if scratch_has_cycle_start_ st then ScratchCycleStart else ScratchSaved
  else ScratchFree.

Lemma scratch_protocol_app s a b :
  scratch_protocol s (a ++ b) = scratch_protocol s a ≫= fun s' => scratch_protocol s' b.
Proof.
  revert s. induction a as [|i a IH]; intros s; [reflexivity|].
  cbn [app scratch_protocol].
  destruct s, i; try reflexivity; try apply IH;
    repeat (destruct (decide _) || destruct (String.eqb _ _));
    try reflexivity; apply IH.
Qed.

Lemma scratch_protocol_moves_from s r ts :
  s <> ScratchCommitting -> Reg kScratchRegT ∉ ts ->
  scratch_protocol s (move_from r <$> ts) = Some s.
Proof.
  intros Hs. induction ts as [|t ts IH]; intros Hts; [reflexivity|].
  apply not_elem_of_cons in Hts as [Ht Hts].
  destruct t as [d|k]; cbn [fmap list_fmap move_from scratch_protocol].
  - destruct (decide (d = kScratchRegT)) as [->|]; [congruence|].
    destruct s; try congruence; apply IH, Hts.
  - destruct s; try congruence; apply IH, Hts.
Qed.

Lemma scratch_state_not_committing hc st : scratch_state hc st <> ScratchCommitting.
Proof. unfold scratch_state. destruct hc, (scratch_has_cycle_start_ st); discriminate. Qed.

Lemma scratch_state_PopTargets hc source st :
  scratch_state hc (PopTargets source st).2 = scratch_state hc st.
Proof. unfold scratch_state. rewrite PopTargets_flag. reflexivity. Qed.

(** [EmitMovesFromSource] writes a temporary to the scratch register only
    when it has no register target to keep the value of the stack slot in,
    and pushes the scratch register first if it holds the start of a
    cycle. *)
Lemma EmitMovesFromSource_protocol source targets st hc :
  Reg kScratchRegT ∉ locs_of targets ->
  (scratch_has_cycle_start_ st = true -> hc = true) ->
  scratch_protocol (scratch_state hc st) (EmitMovesFromSource source targets st).2
  = Some (scratch_state hc (EmitMovesFromSource source targets st).1).
Proof.
  intros Hscr Hflag. destruct source as [r|k]; cbn [EmitMovesFromSource fst snd].
  - rewrite EmitMovesFromRegister_map.
    apply scratch_protocol_moves_from; [apply scratch_state_not_committing|exact Hscr].
  - unfold EmitMovesFromStackSlot.
    destruct targets as [[|r1 rest] slots]; cbn [registers stack_slots].
    + destruct (scratch_has_cycle_start_ st) eqn:Hf; cbn [fst snd app].
      * rewrite (Hflag eq_refl). unfold scratch_state. rewrite Hf.
        cbn [scratch_protocol scratch_has_cycle_start_ set_scratch_has_cycle_start].
        rewrite !decide_True by reflexivity.
        rewrite EmitMovesFromRegister_map.
        apply scratch_protocol_moves_from; [discriminate|exact Hscr].
      * unfold scratch_state. rewrite Hf.
        destruct hc; cbn [scratch_protocol]; rewrite decide_True by reflexivity;
          rewrite EmitMovesFromRegister_map;
          (apply scratch_protocol_moves_from; [discriminate|exact Hscr]).
    + cbn [fst snd].
      assert (Hts : locs_of (mkTargets (r1 :: rest) slots)
                    = Reg r1 :: locs_of (mkTargets rest slots)) by reflexivity.
      rewrite Hts in Hscr. apply not_elem_of_cons in Hscr as [Hr1 Hscr].
      assert (Hne : r1 <> kScratchRegT) by congruence.
      pose proof (scratch_state_not_committing hc st) as Hnc.
      rewrite EmitMovesFromRegister_map.
      destruct (scratch_state hc st) eqn:Hs; try congruence;
        cbn [scratch_protocol]; rewrite decide_False by exact Hne;
        (apply scratch_protocol_moves_from; [discriminate|exact Hscr]).
Qed.

Lemma EmitMovesFromSource_split source targets st :
  EmitMovesFromSource source targets st
  = ((EmitMovesFromSource source targets st).1, (EmitMovesFromSource source targets st).2).
Proof. destruct (EmitMovesFromSource source targets st); reflexivity. Qed.

Section ChainProtocol.

Variable fuel : nat.
Variable cs : Loc.
Variable v0 : Value.
Variable k0 : list Value.
Variable continue : Loc -> Resolver -> option (bool * Resolver * list Instr).

Hypothesis cs_not_scratch : cs <> Reg kScratchRegT.

Hypothesis continue_protocol : forall s st m hc U,
  ChainPre cs (s :: U) st -> CycInv cs v0 k0 hc (s :: U) st m ->
  (pending_sources st < fuel)%nat ->
  exists ret st' out m',
    continue s st = Some (ret, st', out)
    /\ ChainPost cs v0 k0 hc U [s] st m ret st' out m'
    /\ scratch_protocol (scratch_state hc st) out = Some (scratch_state (hc || ret) st').

Lemma visit_targets_protocol ts : forall acc st m hc U,
  ChainPre cs (ts ++ U) st -> CycInv cs v0 k0 hc (ts ++ U) st m ->
  (pending_sources st < fuel)%nat ->
  exists ret st' out m',
    visit_targets continue ts acc st = Some (acc || ret, st', out)
    /\ ChainPost cs v0 k0 hc U ts st m ret st' out m'
    /\ scratch_protocol (scratch_state hc st) out = Some (scratch_state (hc || ret) st').
Proof.
  induction ts as [|t ts IH]; intros acc st m hc U Hpre Hinv Hfuel.
  - exists false, st, [], m. simpl. rewrite !orb_false_r. split; [reflexivity|].
    split; [apply ChainPost_nil; exact Hinv|reflexivity].
  - simpl in Hpre, Hinv.
    destruct (continue_protocol t st m hc (ts ++ U) Hpre Hinv Hfuel)
      as (ret1 & st1 & out1 & m1 & Hk & Hpost1 & Hproto1).
    assert (Hpre1 : ChainPre cs (ts ++ U) st1).
    { eapply ChainPre_le; [exact Hpre|eapply ChainPost_le; eauto| |].
      - intros x Hx. apply elem_of_cons. right. exact Hx.
      - pose proof (cp_nodup _ _ _ Hpre) as Hnd. apply NoDup_cons in Hnd. apply Hnd. }
    assert (Hfuel1 : (pending_sources st1 < fuel)%nat).
    { pose proof (post_pending _ _ _ _ _ _ _ _ _ _ _ _ Hpost1). lia. }
    destruct (IH (acc || ret1) st1 m1 (hc || ret1) U Hpre1
                (post_inv _ _ _ _ _ _ _ _ _ _ _ _ Hpost1) Hfuel1)
      as (ret2 & st2 & out2 & m2 & Hv & Hpost2 & Hproto2).
    exists (ret1 || ret2), st2, (out1 ++ out2), m2. split_and!.
    + simpl. rewrite Hk, Hv. rewrite orb_assoc. reflexivity.
    + apply (ChainPost_seq cs v0 k0 hc (ts ++ U) U [t] ts st m ret1 st1 out1 m1);
        [apply Hpre|exact Hpost1|exact Hpost2].
    + rewrite scratch_protocol_app, Hproto1. simpl. rewrite orb_assoc. exact Hproto2.
Qed.

Lemma RecursivelyEmitMoveChainTargets_protocol targets st m hc U :
  ChainPre cs (locs_of targets ++ U) st ->
  CycInv cs v0 k0 hc (locs_of targets ++ U) st m ->
  (pending_sources st < fuel)%nat ->
  exists ret st' out m',
    RecursivelyEmitMoveChainTargets continue targets st = Some (ret, st', out)
    /\ ChainPost cs v0 k0 hc U (locs_of targets) st m ret st' out m'
    /\ scratch_protocol (scratch_state hc st) out = Some (scratch_state (hc || ret) st').
Proof.
  unfold locs_of, RecursivelyEmitMoveChainTargets. rewrite <- !app_assoc.
  intros Hpre Hinv Hfuel.
  destruct (visit_targets_protocol (Reg <$> registers targets) false st m hc
              ((Slot <$> stack_slots targets) ++ U) Hpre Hinv Hfuel)
    as (ret1 & st1 & out1 & m1 & Hv1 & Hpost1 & Hproto1).
  simpl in Hv1. rewrite Hv1.
  assert (Hpre1 : ChainPre cs ((Slot <$> stack_slots targets) ++ U) st1).
  { eapply ChainPre_le; [exact Hpre|eapply ChainPost_le; eauto| |].
    - intros x Hx. apply elem_of_app. right. exact Hx.
    - pose proof (cp_nodup _ _ _ Hpre) as Hnd. apply NoDup_app in Hnd. apply Hnd. }
  assert (Hfuel1 : (pending_sources st1 < fuel)%nat).
  { pose proof (post_pending _ _ _ _ _ _ _ _ _ _ _ _ Hpost1). lia. }
  destruct (visit_targets_protocol (Slot <$> stack_slots targets) ret1 st1 m1 (hc || ret1) U
              Hpre1 (post_inv _ _ _ _ _ _ _ _ _ _ _ _ Hpost1) Hfuel1)
    as (ret2 & st2 & out2 & m2 & Hv2 & Hpost2 & Hproto2).
  rewrite Hv2.
  exists (ret1 || ret2), st2, (out1 ++ out2), m2. split_and!; [reflexivity| |].
  - eapply ChainPost_seq; [apply Hpre|exact Hpost1|exact Hpost2].
  - rewrite scratch_protocol_app, Hproto1. simpl. rewrite orb_assoc. exact Hproto2.
Qed.

End ChainProtocol.

Lemma ContinueEmitMoveChain_protocol fuel cs v0 k0 :
  cs <> Reg kScratchRegT ->
  forall s st m hc U,
  ChainPre cs (s :: U) st -> CycInv cs v0 k0 hc (s :: U) st m ->
  (pending_sources st < fuel)%nat ->
  exists ret st' out m',
    ContinueEmitMoveChain fuel cs s st = Some (ret, st', out)
    /\ ChainPost cs v0 k0 hc U [s] st m ret st' out m'
    /\ scratch_protocol (scratch_state hc st) out = Some (scratch_state (hc || ret) st').
Proof.
  intros Hcs. induction fuel as [|fuel IH]; intros s st m hc U Hpre Hinv Hfuel; [lia|].
  destruct (ContinueEmitMoveChain_spec (S fuel) cs v0 k0 Hcs s st m hc U Hpre Hinv Hfuel)
    as (ret & st' & out & m' & Hrun & Hpost).
  exists ret, st', out, m'. split; [exact Hrun|]. split; [exact Hpost|].
  simpl in Hrun. destruct (decide (cs = s)) as [<-|Hne].
  - (* back at the chain start: the scratch register is free *)
    assert (Hhc : hc = false).
    { destruct hc; [|reflexivity]. destruct Hinv as (_ & HnU & _).
      exfalso. apply HnU. apply elem_of_cons. left. reflexivity. }
    subst hc. injection Hrun as <- <- <-.
    unfold scratch_state.
    cbn [orb scratch_has_cycle_start_ set_scratch_has_cycle_start scratch_protocol].
    change (String.eqb "--   * Cycle" "--   * Cycle") with true. cbv iota.
    destruct cs; cbn [MoveToScratch scratch_protocol];
      rewrite decide_True by reflexivity; reflexivity.
  - rewrite (PopTargets_split s st) in Hrun.
    set (targets := (PopTargets s st).1) in *. set (st1 := (PopTargets s st).2) in *.
    assert (Hts : locs_of targets = get st s) by apply locs_PopTargets.
    destruct (is_empty targets) eqn:Hempty.
    + injection Hrun as <- <- <-. rewrite orb_false_r.
      cbn [scratch_protocol].
      pose proof (scratch_state_not_committing hc st) as Hnc.
      unfold st1. rewrite scratch_state_PopTargets.
      destruct (scratch_state hc st); try congruence; reflexivity.
    + assert (Hfuel1 : (pending_sources st1 < fuel)%nat).
      { pose proof (pending_PopTargets_lt s st Hempty). unfold st1. lia. }
      pose proof (ChainPre_pop cs s U st Hpre) as Hpre1.
      pose proof (CycInv_pop cs v0 k0 hc s U st m Hinv) as Hinv1.
      rewrite <- Hts in Hpre1, Hinv1. fold st1 in Hpre1, Hinv1.
      destruct (RecursivelyEmitMoveChainTargets_protocol fuel cs v0 k0
                  (ContinueEmitMoveChain fuel cs) IH targets st1 m hc U
                  Hpre1 Hinv1 Hfuel1)
        as (ret1 & st2 & out1 & m2 & Hrec & Hpost1 & Hproto1).
      rewrite Hrec in Hrun.
      rewrite (EmitMovesFromSource_split s targets st2) in Hrun.
      injection Hrun as <- <- <-.
      rewrite scratch_protocol_app.
      unfold st1 in Hproto1. rewrite scratch_state_PopTargets in Hproto1.
      rewrite Hproto1. cbn [mbind option_bind].
      apply EmitMovesFromSource_protocol.
      * rewrite Hts. apply (g_scratch_target st (cp_ok _ _ _ Hpre)).
      * apply (CycInv_flag_true cs v0 k0 _ U st2 m2).
        apply (post_inv _ _ _ _ _ _ _ _ _ _ _ _ Hpost1).
Qed.

(** A chain leaves the scratch register free: the start of a cycle is
    committed to it once, saved and restored around every temporary, and
    given up at the end of the cycle. *)
Lemma StartEmitMoveChain_protocol fuel cs st (m : Machine) st' out :
  GraphOK st -> cs <> Reg kScratchRegT ->
  scratch_has_cycle_start_ st = false ->
  (pending_sources st < fuel)%nat ->
  StartEmitMoveChain fuel cs st = Some (st', out) ->
  scratch_protocol ScratchFree out = Some ScratchFree.
Proof.
  intros Hok Hcs Hflag Hfuel. unfold StartEmitMoveChain.
  rewrite (PopTargets_split cs st).
  set (targets := (PopTargets cs st).1). set (st1 := (PopTargets cs st).2).
  assert (Hts : locs_of targets = get st cs) by apply locs_PopTargets.
  assert (Hget1 : forall p, get st1 p = if decide (p = cs) then [] else get st p)
    by (intros p; apply get_PopTargets).
  assert (Hflag1 : scratch_has_cycle_start_ st1 = false)
    by (unfold st1; rewrite PopTargets_flag; exact Hflag).
  assert (Hpend1 : (pending_sources st1 <= pending_sources st)%nat)
    by apply pending_PopTargets_le.
  assert (Hscr_ts : Reg kScratchRegT ∉ locs_of targets).
  { rewrite Hts. apply (g_scratch_target st Hok). }
  destruct (is_empty targets) eqn:Hempty.
  - intros [= <- <-]. reflexivity.
  - assert (Hpre1 : ChainPre cs (locs_of targets ++ []) st1).
    { rewrite Hts, app_nil_r. split.
      - eapply GraphOK_le; [exact Hok|apply graph_le_PopTargets].
      - rewrite Hget1, decide_True by reflexivity. reflexivity.
      - apply (g_nodup st Hok).
      - intros t p Ht. rewrite Hget1. destruct (decide (p = cs)) as [->|Hne].
        + intros H. inversion H.
        + intros Hp. apply Hne. eapply g_indeg; eauto.
      - apply (g_scratch_target st Hok). }
    assert (Hinv1 : CycInv cs (read m cs) (native_stack m) false
                      (locs_of targets ++ []) st1 m).
    { split; [exact Hflag1|split; reflexivity]. }
    destruct (RecursivelyEmitMoveChainTargets_protocol fuel cs (read m cs) (native_stack m)
                (ContinueEmitMoveChain fuel cs)
                (ContinueEmitMoveChain_protocol fuel cs (read m cs) (native_stack m) Hcs)
                targets st1 m false [] Hpre1 Hinv1 ltac:(lia))
      as (ret & st2 & out1 & m2 & Hrec & Hpost & Hproto).
    rewrite Hrec. cbn [orb] in Hproto.
    change (scratch_state false st1) with ScratchFree in Hproto.
    destruct ret.
    + intros [= <- <-].
      rewrite scratch_protocol_app, Hproto. cbn [mbind option_bind].
      rewrite scratch_protocol_app. unfold scratch_state.
      destruct (scratch_has_cycle_start_ st2);
        cbn [scratch_protocol mbind option_bind];
        rewrite ?decide_True by reflexivity;
        cbn [mbind option_bind];
        rewrite scratch_protocol_app, EmitMovesFromRegister_map;
        (rewrite scratch_protocol_moves_from; [reflexivity|discriminate|exact Hscr_ts]).
    + rewrite (EmitMovesFromSource_split cs targets st2).
      intros [= <- <-].
      rewrite scratch_protocol_app, Hproto. cbn [mbind option_bind].
      rewrite scratch_protocol_app.
      rewrite (EmitMovesFromSource_protocol cs targets st2 false Hscr_ts).
      * reflexivity.
      * intros Hf. pose proof (post_inv _ _ _ _ _ _ _ _ _ _ _ _ Hpost) as Hinv2.
        cbn [orb] in Hinv2. destruct Hinv2 as (Hf2 & _). congruence.
Qed.

Lemma scratch_protocol_load (node : option ValueNode) (r : RegisterT) :
  r <> kScratchRegT ->
  scratch_protocol ScratchFree
    match node with
    | Some n => [LoadToRegister n r]
    | None => []
    end = Some ScratchFree.
Proof.
  intros Hr. destruct node; cbn [scratch_protocol]; [|reflexivity].
  rewrite decide_False by exact Hr. reflexivity.
Qed.

Lemma EmitRegisterMoves_protocol fuel st0 m0 regs : forall done st m st' out,
  ResolverOK st0 -> LoopInv st0 m0 done st m ->
  (forall r, r ∈ regs -> r ∈ kAllocatableRegistersT) ->
  (pending_sources st < fuel)%nat ->
  EmitRegisterMoves fuel regs st = Some (st', out) ->
  scratch_protocol ScratchFree out = Some ScratchFree.
Proof.
  induction regs as [|reg regs IH]; intros done st m st' out Hok Hinv Hregs Hfuel.
  - intros [= <- <-]. reflexivity.
  - cbn [EmitRegisterMoves].
    assert (Hal : reg ∈ kAllocatableRegistersT) by (apply Hregs; left).
    destruct (StartEmitMoveChain_spec fuel (Reg reg) st m)
      as (st1 & out1 & m1 & Hstart & Hex1 & Hstep1 & Hreg1 & Hflag1 & Hstk1 & Hsu1 & Hpend1).
    { eapply LoopInv_GraphOK; eauto. }
    { apply allocatable_not_scratch, Hal. }
    { apply (li_flag _ _ _ _ _ Hinv). }
    { exact Hfuel. }
    rewrite Hstart.
    assert (Hproto1 : scratch_protocol ScratchFree out1 = Some ScratchFree).
    { apply (StartEmitMoveChain_protocol fuel (Reg reg) st m st1 out1);
        [eapply LoopInv_GraphOK; eauto|apply allocatable_not_scratch, Hal
        |apply (li_flag _ _ _ _ _ Hinv)|exact Hfuel|exact Hstart]. }
    pose proof (LoopInv_chain st0 m0 done st m st1 m1 Hok Hinv Hstep1 Hflag1 Hstk1) as Hinv1.
    destruct (LoopInv_load st0 m0 done st1 m1 reg Hok Hinv1 Hreg1) as (m2 & Hex2 & Hinv2).
    pose proof (pending_PopTargets_le (Reg reg) st) as Hpop.
    destruct (EmitRegisterMoves fuel regs st1) as [[st3 out3]|] eqn:Hrec; [|discriminate].
    intros [= <- <-].
    rewrite scratch_protocol_app, Hproto1. cbn [mbind option_bind].
    rewrite scratch_protocol_app, scratch_protocol_load.
    + cbn [mbind option_bind].
      apply (IH (done ++ [reg]) st1 m2 st3 out3 Hok Hinv2);
        [intros r Hr; apply Hregs; right; exact Hr|lia|exact Hrec].
    + intros ->. contradiction.
Qed.

Lemma EmitStackSlotMoves_protocol fuel st0 m0 done n : forall st m st' out,
  ResolverOK st0 -> LoopInv st0 m0 done st m ->
  (pending_sources st < fuel)%nat ->
  EmitStackSlotMoves n fuel st = Some (st', out) ->
  scratch_protocol ScratchFree out = Some ScratchFree.
Proof.
  induction n as [|n IH]; intros st m st' out Hok Hinv Hfuel; cbn [EmitStackSlotMoves].
  - destruct (decide (moves_from_stack_slot_ st = ∅)); [|discriminate].
    intros [= <- <-]. reflexivity.
  - destruct (decide (moves_from_stack_slot_ st = ∅)) as [Hempty|Hne].
    + intros [= <- <-]. reflexivity.
    + destruct (begin_spec _ Hne) as (first & Hbegin & Hfirst).
      rewrite Hbegin.
      destruct (StartEmitMoveChain_spec fuel (Slot first) st m)
        as (st1 & out1 & m1 & Hstart & Hex1 & Hstep1 & Hreg1 & Hflag1 & Hstk1 & Hsu1 & Hpend1).
      { eapply LoopInv_GraphOK; eauto. }
      { discriminate. }
      { apply (li_flag _ _ _ _ _ Hinv). }
      { exact Hfuel. }
      rewrite Hstart.
      assert (Hproto1 : scratch_protocol ScratchFree out1 = Some ScratchFree).
      { apply (StartEmitMoveChain_protocol fuel (Slot first) st m st1 out1);
          [eapply LoopInv_GraphOK; eauto|discriminate
          |apply (li_flag _ _ _ _ _ Hinv)|exact Hfuel|exact Hstart]. }
      pose proof (LoopInv_chain st0 m0 done st m st1 m1 Hok Hinv Hstep1 Hflag1 Hstk1) as Hinv1.
      pose proof (pending_PopTargets_slot_lt first st Hfirst) as Hlt.
      destruct (EmitStackSlotMoves n fuel st1) as [[st2 out2]|] eqn:Hrec; [|discriminate].
      intros [= <- <-].
      rewrite scratch_protocol_app, Hproto1. cbn [mbind option_bind].
      apply (IH st1 m1 st2 out2 Hok Hinv1); [lia|exact Hrec].
Qed.

Lemma EmitMaterializingStackSlotMoves_protocol l :
  scratch_protocol ScratchFree (EmitMaterializingStackSlotMoves l) = Some ScratchFree.
Proof.
  induction l as [|[s n] l IH]; [reflexivity|].
  unfold EmitMaterializingStackSlotMoves in *.
  cbn [fmap list_fmap concat app scratch_protocol].
  rewrite decide_True by reflexivity. exact IH.
Qed.

(** The code of [EmitMoves] keeps to the protocol of the scratch register
    and leaves it free. *)
Theorem EmitMoves_protocol st (m : Machine) st' code :
  ResolverOK st ->
  EmitMoves st = Some (st', code) ->
  scratch_protocol ScratchFree code = Some ScratchFree.
Proof.
  intros Hok. unfold EmitMoves.
  destruct (EmitRegisterMoves_spec (S (pending_sources st)) st m kAllocatableRegistersT
              [] st m Hok (LoopInv_init st m (r_flag st Hok)))
    as (st1 & out1 & m1 & Hregs & Hex1 & Hinv1 & Hsu1 & Hpend1); [auto|lia|].
  rewrite Hregs. simpl in Hinv1.
  pose proof (EmitRegisterMoves_protocol (S (pending_sources st)) st m kAllocatableRegistersT
                [] st m st1 out1 Hok (LoopInv_init st m (r_flag st Hok))
                ltac:(auto) ltac:(lia) Hregs) as Hproto1.
  destruct (EmitStackSlotMoves (S (pending_sources st)) (S (pending_sources st)) st1)
    as [[st2 out2]|] eqn:Hslots; [|discriminate].
  pose proof (EmitStackSlotMoves_protocol (S (pending_sources st)) st m
                kAllocatableRegistersT (S (pending_sources st)) st1 m1 st2 out2 Hok Hinv1
                ltac:(lia) Hslots) as Hproto2.
  intros [= <- <-].
  rewrite scratch_protocol_app, Hproto1. cbn [mbind option_bind].
  rewrite scratch_protocol_app, Hproto2. cbn [mbind option_bind].
  apply EmitMaterializingStackSlotMoves_protocol.
Qed.

(** ** Every value put in the scratch register is used *)

(** What the scratch register holds: nothing of use ([ScratchEmpty]), a
    value that no instruction has read yet ([ScratchUnread]), or a value
    that has been read ([ScratchRead]). *)
Inductive ScratchValue :=
  | ScratchEmpty
  | ScratchUnread
  | ScratchRead.

Definition reads_scratch (i : Instr) : bool :=
  bool_decide (read_loc i = Some (Reg kScratchRegT)).

Definition writes_scratch (i : Instr) : bool :=
  bool_decide (written_loc i = Some (Reg kScratchRegT)).

(** An instruction reads the scratch register only when it holds a value,
    and writes it only when the value it holds has been read: a value that
    is still to be used is not overwritten.  A push reads the register and
    a pop writes it.  [None]: the instruction does otherwise. *)
Definition scratch_value_step (s : ScratchValue) (i : Instr) : option ScratchValue :=
  match (if reads_scratch i
         then match s with ScratchEmpty => None | _ => Some ScratchRead end
         else Some s) with
  | None => None
  | Some s1 =>
      if writes_scratch i
      then match s1 with ScratchUnread => None | _ => Some ScratchUnread end
      else Some s1
  end.

Fixpoint scratch_values_used (s : ScratchValue) (code : list Instr)
    : option ScratchValue :=
  match code with
  | [] => Some s
  | i :: code' =>
      match scratch_value_step s i with
      | None => None
      | Some s' => scratch_values_used s' code'
      end
  end.

(** The content of the scratch register that goes with the state of a
    chain: the start of a cycle that is not saved on the stack is still to
    be used. *)
Definition scratch_value_ok (hc : bool) (st : Resolver) (s : ScratchValue) : Prop :=
  if hc then
    if scratch_has_cycle_start_ st then s = ScratchUnread else s = ScratchRead
  else s <> ScratchUnread.

Lemma scratch_values_used_app s a b :
  scratch_values_used s (a ++ b)
  = scratch_values_used s a ≫= fun s' => scratch_values_used s' b.
Proof.
  revert s. induction a as [|i a IH]; intros s; [reflexivity|].
  cbn [app scratch_values_used].
  destruct (scratch_value_step s i); [apply IH|reflexivity].
Qed.

Lemma scratch_value_step_other s i :
  read_loc i <> Some (Reg kScratchRegT) -> written_loc i <> Some (Reg kScratchRegT) ->
  scratch_value_step s i = Some s.
Proof.
  intros Hr Hw. unfold scratch_value_step, reads_scratch, writes_scratch.
  rewrite !bool_decide_eq_false_2 by assumption. reflexivity.
Qed.

Lemma scratch_value_step_write s i :
  read_loc i <> Some (Reg kScratchRegT) -> written_loc i = Some (Reg kScratchRegT) ->
  s <> ScratchUnread ->
  scratch_value_step s i = Some ScratchUnread.
Proof.
  intros Hr Hw Hs. unfold scratch_value_step, reads_scratch, writes_scratch.
  rewrite bool_decide_eq_false_2 by assumption.
  rewrite bool_decide_eq_true_2 by assumption.
  destruct s; congruence.
Qed.

Lemma scratch_value_step_read s i :
  read_loc i = Some (Reg kScratchRegT) -> written_loc i <> Some (Reg kScratchRegT) ->
  s <> ScratchEmpty ->
  scratch_value_step s i = Some ScratchRead.
Proof.
  intros Hr Hw Hs. unfold scratch_value_step, reads_scratch, writes_scratch.
  rewrite bool_decide_eq_true_2 by assumption.
  rewrite bool_decide_eq_false_2 by assumption.
  destruct s; congruence.
Qed.

Lemma scratch_values_used_moves_from s r ts :
  r <> kScratchRegT -> Reg kScratchRegT ∉ ts ->
  scratch_values_used s (move_from r <$> ts) = Some s.
Proof.
  intros Hr. induction ts as [|t ts IH]; intros Hts; [reflexivity|].
  apply not_elem_of_cons in Hts as [Ht Hts].
  cbn [fmap list_fmap scratch_values_used].
  rewrite scratch_value_step_other; [apply IH, Hts| |].
  - destruct t; cbn; congruence.
  - destruct t; cbn; congruence.
Qed.

Lemma scratch_values_used_moves_from_scratch s ts :
  ts <> [] -> Reg kScratchRegT ∉ ts -> s <> ScratchEmpty ->
  scratch_values_used s (move_from kScratchRegT <$> ts) = Some ScratchRead.
Proof.
  intros Hne Hts Hs.
  assert (Hall : forall ts, Reg kScratchRegT ∉ ts -> forall s, s <> ScratchEmpty ->
            scratch_values_used s (move_from kScratchRegT <$> ts)
            = Some (match ts with [] => s | _ => ScratchRead end)).
  { clear. induction ts as [|t ts IH]; intros Hts s Hs; [reflexivity|].
    apply not_elem_of_cons in Hts as [Ht Hts].
    cbn [fmap list_fmap scratch_values_used].
    rewrite scratch_value_step_read; [| | |exact Hs].
    - rewrite (IH Hts) by discriminate. destruct ts; reflexivity.
    - destruct t; reflexivity.
    - destruct t; cbn; congruence. }
  rewrite (Hall ts Hts s Hs). destruct ts; [contradiction|reflexivity].
Qed.

Lemma scratch_value_ok_PopTargets hc source st s :
  scratch_value_ok hc (PopTargets source st).2 s <-> scratch_value_ok hc st s.
Proof. unfold scratch_value_ok. rewrite PopTargets_flag. reflexivity. Qed.

(** [EmitMovesFromSource] overwrites the scratch register only when the
    value in it has been read: the start of a cycle, which is still to be
    used, is pushed first. *)
Lemma EmitMovesFromSource_values source targets st hc s :
  source <> Reg kScratchRegT ->
  Reg kScratchRegT ∉ locs_of targets ->
  is_empty targets = false ->
  (scratch_has_cycle_start_ st = true -> hc = true) ->
  scratch_value_ok hc st s ->
  exists s',
    scratch_values_used s (EmitMovesFromSource source targets st).2 = Some s'
    /\ scratch_value_ok hc (EmitMovesFromSource source targets st).1 s'.
Proof.
  intros Hsrc Hscr Hempty Hflag Hok.
  destruct source as [r|k]; cbn [EmitMovesFromSource fst snd].
  - exists s. split; [|exact Hok]. rewrite EmitMovesFromRegister_map.
    apply scratch_values_used_moves_from; [congruence|exact Hscr].
  - unfold EmitMovesFromStackSlot.
    destruct targets as [[|r1 rest] slots]; cbn [registers stack_slots].
    + (* no register target: the scratch register takes the value *)
      assert (Hslots : locs_of (mkTargets [] slots) <> []).
      { apply is_empty_false_locs. exact Hempty. }
      assert (Hwrite : forall s0, s0 <> ScratchUnread ->
                scratch_values_used s0
                  (MoveRegSlot kScratchRegT k
                   :: EmitMovesFromRegister kScratchRegT (mkTargets [] slots))
                = Some ScratchRead).
      { intros s0 Hs0. cbn [scratch_values_used].
        rewrite scratch_value_step_write; [|discriminate|reflexivity|exact Hs0].
        rewrite EmitMovesFromRegister_map.
        apply scratch_values_used_moves_from_scratch;
          [exact Hslots|exact Hscr|discriminate]. }
      destruct (scratch_has_cycle_start_ st) eqn:Hf; cbn [fst snd app].
      * rewrite (Hflag eq_refl) in Hok |- *. unfold scratch_value_ok in Hok.
        rewrite Hf in Hok. subst s.
        exists ScratchRead. split.
        -- cbn [scratch_values_used].
           rewrite scratch_value_step_read; [|reflexivity|discriminate|discriminate].
           apply Hwrite. discriminate.
        -- unfold scratch_value_ok. reflexivity.
      * exists ScratchRead. split.
        -- apply Hwrite. unfold scratch_value_ok in Hok. rewrite Hf in Hok.
           destruct hc; [rewrite Hok; discriminate|exact Hok].
        -- unfold scratch_value_ok. rewrite Hf. destruct hc; [reflexivity|discriminate].
    + cbn [fst snd].
      assert (Hts : locs_of (mkTargets (r1 :: rest) slots)
                    = Reg r1 :: locs_of (mkTargets rest slots)) by reflexivity.
      rewrite Hts in Hscr. apply not_elem_of_cons in Hscr as [Hr1 Hscr].
      assert (Hne : r1 <> kScratchRegT) by congruence.
      exists s. split; [|exact Hok].
      cbn [scratch_values_used].
      rewrite scratch_value_step_other; [|discriminate|cbn; congruence].
      rewrite EmitMovesFromRegister_map.
      apply scratch_values_used_moves_from; [exact Hne|exact Hscr].
Qed.

Section ChainValues.

Variable fuel : nat.
Variable cs : Loc.
Variable v0 : Value.
Variable k0 : list Value.
Variable continue : Loc -> Resolver -> option (bool * Resolver * list Instr).

Hypothesis cs_not_scratch : cs <> Reg kScratchRegT.

Hypothesis continue_values : forall s st m hc U sv,
  ChainPre cs (s :: U) st -> CycInv cs v0 k0 hc (s :: U) st m ->
  (pending_sources st < fuel)%nat ->
  scratch_value_ok hc st sv ->
  exists ret st' out m' sv',
    continue s st = Some (ret, st', out)
    /\ ChainPost cs v0 k0 hc U [s] st m ret st' out m'
    /\ scratch_values_used sv out = Some sv'
    /\ scratch_value_ok (hc || ret) st' sv'.

Lemma visit_targets_values ts : forall acc st m hc U sv,
  ChainPre cs (ts ++ U) st -> CycInv cs v0 k0 hc (ts ++ U) st m ->
  (pending_sources st < fuel)%nat ->
  scratch_value_ok hc st sv ->
  exists ret st' out m' sv',
    visit_targets continue ts acc st = Some (acc || ret, st', out)
    /\ ChainPost cs v0 k0 hc U ts st m ret st' out m'
    /\ scratch_values_used sv out = Some sv'
    /\ scratch_value_ok (hc || ret) st' sv'.
Proof.
  induction ts as [|t ts IH]; intros acc st m hc U sv Hpre Hinv Hfuel Hsv.
  - exists false, st, [], m, sv. simpl. rewrite !orb_false_r. split; [reflexivity|].
    split_and!; [apply ChainPost_nil; exact Hinv|reflexivity|exact Hsv].
  - simpl in Hpre, Hinv.
    destruct (continue_values t st m hc (ts ++ U) sv Hpre Hinv Hfuel Hsv)
      as (ret1 & st1 & out1 & m1 & sv1 & Hk & Hpost1 & Hused1 & Hsv1).
    assert (Hpre1 : ChainPre cs (ts ++ U) st1).
    { eapply ChainPre_le; [exact Hpre|eapply ChainPost_le; eauto| |].
      - intros x Hx. apply elem_of_cons. right. exact Hx.
      - pose proof (cp_nodup _ _ _ Hpre) as Hnd. apply NoDup_cons in Hnd. apply Hnd. }
    assert (Hfuel1 : (pending_sources st1 < fuel)%nat).
    { pose proof (post_pending _ _ _ _ _ _ _ _ _ _ _ _ Hpost1). lia. }
    destruct (IH (acc || ret1) st1 m1 (hc || ret1) U sv1 Hpre1
                (post_inv _ _ _ _ _ _ _ _ _ _ _ _ Hpost1) Hfuel1 Hsv1)
      as (ret2 & st2 & out2 & m2 & sv2 & Hv & Hpost2 & Hused2 & Hsv2).
    exists (ret1 || ret2), st2, (out1 ++ out2), m2, sv2. split_and!.
    + simpl. rewrite Hk, Hv. rewrite orb_assoc. reflexivity.
    + apply (ChainPost_seq cs v0 k0 hc (ts ++ U) U [t] ts st m ret1 st1 out1 m1);
        [apply Hpre|exact Hpost1|exact Hpost2].
    + rewrite scratch_values_used_app, Hused1. exact Hused2.
    + rewrite orb_assoc. exact Hsv2.
Qed.

Lemma RecursivelyEmitMoveChainTargets_values targets st m hc U sv :
  ChainPre cs (locs_of targets ++ U) st ->
  CycInv cs v0 k0 hc (locs_of targets ++ U) st m ->
  (pending_sources st < fuel)%nat ->
  scratch_value_ok hc st sv ->
  exists ret st' out m' sv',
    RecursivelyEmitMoveChainTargets continue targets st = Some (ret, st', out)
    /\ ChainPost cs v0 k0 hc U (locs_of targets) st m ret st' out m'
    /\ scratch_values_used sv out = Some sv'
    /\ scratch_value_ok (hc || ret) st' sv'.
Proof.
  unfold locs_of, RecursivelyEmitMoveChainTargets. rewrite <- !app_assoc.
  intros Hpre Hinv Hfuel Hsv.
  destruct (visit_targets_values (Reg <$> registers targets) false st m hc
              ((Slot <$> stack_slots targets) ++ U) sv Hpre Hinv Hfuel Hsv)
    as (ret1 & st1 & out1 & m1 & sv1 & Hv1 & Hpost1 & Hused1 & Hsv1).
  simpl in Hv1. rewrite Hv1.
  assert (Hpre1 : ChainPre cs ((Slot <$> stack_slots targets) ++ U) st1).
  { eapply ChainPre_le; [exact Hpre|eapply ChainPost_le; eauto| |].
    - intros x Hx. apply elem_of_app. right. exact Hx.
    - pose proof (cp_nodup _ _ _ Hpre) as Hnd. apply NoDup_app in Hnd. apply Hnd. }
  assert (Hfuel1 : (pending_sources st1 < fuel)%nat).
  { pose proof (post_pending _ _ _ _ _ _ _ _ _ _ _ _ Hpost1). lia. }
  destruct (visit_targets_values (Slot <$> stack_slots targets) ret1 st1 m1 (hc || ret1) U
              sv1 Hpre1 (post_inv _ _ _ _ _ _ _ _ _ _ _ _ Hpost1) Hfuel1 Hsv1)
    as (ret2 & st2 & out2 & m2 & sv2 & Hv2 & Hpost2 & Hused2 & Hsv2).
  rewrite Hv2.
  exists (ret1 || ret2), st2, (out1 ++ out2), m2, sv2. split_and!; [reflexivity| | |].
  - eapply ChainPost_seq; [apply Hpre|exact Hpost1|exact Hpost2].
  - rewrite scratch_values_used_app, Hused1. exact Hused2.
  - rewrite orb_assoc. exact Hsv2.
Qed.

End ChainValues.

Lemma ContinueEmitMoveChain_values fuel cs v0 k0 :
  cs <> Reg kScratchRegT ->
  forall s st m hc U sv,
  ChainPre cs (s :: U) st -> CycInv cs v0 k0 hc (s :: U) st m ->
  (pending_sources st < fuel)%nat ->
  scratch_value_ok hc st sv ->
  exists ret st' out m' sv',
    ContinueEmitMoveChain fuel cs s st = Some (ret, st', out)
    /\ ChainPost cs v0 k0 hc U [s] st m ret st' out m'
    /\ scratch_values_used sv out = Some sv'
    /\ scratch_value_ok (hc || ret) st' sv'.
Proof.
  intros Hcs. induction fuel as [|fuel IH]; intros s st m hc U sv Hpre Hinv Hfuel Hsv; [lia|].
  destruct (ContinueEmitMoveChain_spec (S fuel) cs v0 k0 Hcs s st m hc U Hpre Hinv Hfuel)
    as (ret & st' & out & m' & Hrun & Hpost).
  assert (Hgoal : exists sv',
            scratch_values_used sv out = Some sv'
            /\ scratch_value_ok (hc || ret) st' sv').
  { simpl in Hrun. destruct (decide (cs = s)) as [<-|Hne].
    - (* back at the chain start: it goes to the scratch register *)
      assert (Hhc : hc = false).
      { destruct hc; [|reflexivity]. destruct Hinv as (_ & HnU & _).
        exfalso. apply HnU. apply elem_of_cons. left. reflexivity. }
      subst hc. injection Hrun as <- <- <-.
      exists ScratchUnread. split; [|reflexivity].
      cbn [scratch_values_used].
      rewrite scratch_value_step_other by discriminate.
      rewrite scratch_value_step_write; [reflexivity| | |exact Hsv].
      + destruct cs; cbn; congruence.
      + destruct cs; reflexivity.
    - rewrite (PopTargets_split s st) in Hrun.
      set (targets := (PopTargets s st).1) in *. set (st1 := (PopTargets s st).2) in *.
      assert (Hts : locs_of targets = get st s) by apply locs_PopTargets.
      destruct (is_empty targets) eqn:Hempty.
      + injection Hrun as <- <- <-. rewrite orb_false_r.
        exists sv. split.
        * cbn [scratch_values_used]. rewrite scratch_value_step_other by discriminate.
          reflexivity.
        * apply scratch_value_ok_PopTargets. exact Hsv.
      + assert (Hfuel1 : (pending_sources st1 < fuel)%nat).
        { pose proof (pending_PopTargets_lt s st Hempty). unfold st1. lia. }
        pose proof (ChainPre_pop cs s U st Hpre) as Hpre1.
        pose proof (CycInv_pop cs v0 k0 hc s U st m Hinv) as Hinv1.
        rewrite <- Hts in Hpre1, Hinv1. fold st1 in Hpre1, Hinv1.
        assert (Hsv1 : scratch_value_ok hc st1 sv)
          by (apply scratch_value_ok_PopTargets; exact Hsv).
        destruct (RecursivelyEmitMoveChainTargets_values fuel cs v0 k0
                    (ContinueEmitMoveChain fuel cs) IH targets st1 m hc U sv
                    Hpre1 Hinv1 Hfuel1 Hsv1)
          as (ret1 & st2 & out1 & m2 & sv2 & Hrec & Hpost1 & Hused1 & Hsv2).
        rewrite Hrec in Hrun.
        rewrite (EmitMovesFromSource_split s targets st2) in Hrun.
        injection Hrun as <- <- <-.
        destruct (EmitMovesFromSource_values s targets st2 (hc || ret1) sv2)
          as (sv3 & Hused3 & Hsv3).
        * intros ->. apply (cp_scratch _ _ _ Hpre). left.
        * rewrite Hts. apply (g_scratch_target st (cp_ok _ _ _ Hpre)).
        * exact Hempty.
        * apply (CycInv_flag_true cs v0 k0 _ U st2 m2).
          apply (post_inv _ _ _ _ _ _ _ _ _ _ _ _ Hpost1).
        * exact Hsv2.
        * exists sv3. split; [|exact Hsv3].
          rewrite scratch_values_used_app, Hused1. exact Hused3. }
  destruct Hgoal as (sv' & Hused & Hsv').
  exists ret, st', out, m', sv'. auto.
Qed.

(** A chain uses every value it puts in the scratch register. *)
Lemma StartEmitMoveChain_values fuel cs st (m : Machine) st' out sv :
  GraphOK st -> cs <> Reg kScratchRegT ->
  scratch_has_cycle_start_ st = false ->
  (pending_sources st < fuel)%nat ->
  StartEmitMoveChain fuel cs st = Some (st', out) ->
  sv <> ScratchUnread ->
  exists sv', scratch_values_used sv out = Some sv' /\ sv' <> ScratchUnread.
Proof.
  intros Hok Hcs Hflag Hfuel Hrun Hsv. revert Hrun. unfold StartEmitMoveChain.
  rewrite (PopTargets_split cs st).
  set (targets := (PopTargets cs st).1). set (st1 := (PopTargets cs st).2).
  assert (Hts : locs_of targets = get st cs) by apply locs_PopTargets.
  assert (Hget1 : forall p, get st1 p = if decide (p = cs) then [] else get st p)
    by (intros p; apply get_PopTargets).
  assert (Hflag1 : scratch_has_cycle_start_ st1 = false)
    by (unfold st1; rewrite PopTargets_flag; exact Hflag).
  assert (Hpend1 : (pending_sources st1 <= pending_sources st)%nat)
    by apply pending_PopTargets_le.
  assert (Hscr_ts : Reg kScratchRegT ∉ locs_of targets).
  { rewrite Hts. apply (g_scratch_target st Hok). }
  destruct (is_empty targets) eqn:Hempty.
  - intros [= <- <-]. exists sv. split; [reflexivity|exact Hsv].
  - assert (Hpre1 : ChainPre cs (locs_of targets ++ []) st1).
    { rewrite Hts, app_nil_r. split.
      - eapply GraphOK_le; [exact Hok|apply graph_le_PopTargets].
      - rewrite Hget1, decide_True by reflexivity. reflexivity.
      - apply (g_nodup st Hok).
      - intros t p Ht. rewrite Hget1. destruct (decide (p = cs)) as [->|Hne].
        + intros H. inversion H.
        + intros Hp. apply Hne. eapply g_indeg; eauto.
      - apply (g_scratch_target st Hok). }
    assert (Hinv1 : CycInv cs (read m cs) (native_stack m) false
                      (locs_of targets ++ []) st1 m).
    { split; [exact Hflag1|split; reflexivity]. }
    destruct (RecursivelyEmitMoveChainTargets_values fuel cs (read m cs) (native_stack m)
                (ContinueEmitMoveChain fuel cs)
                (ContinueEmitMoveChain_values fuel cs (read m cs) (native_stack m) Hcs)
                targets st1 m false [] sv Hpre1 Hinv1 ltac:(lia) Hsv)
      as (ret & st2 & out1 & m2 & sv2 & Hrec & Hpost & Hused & Hsv2).
    rewrite Hrec. cbn [orb] in Hsv2.
    assert (Hslots : locs_of targets <> []) by (apply is_empty_false_locs; exact Hempty).
    destruct ret.
    + intros [= <- <-]. exists ScratchRead. split; [|discriminate].
      rewrite scratch_values_used_app, Hused. cbn [mbind option_bind].
      rewrite scratch_values_used_app.
      assert (Hpop : scratch_values_used sv2
                       (if scratch_has_cycle_start_ st2 then [] else [PopReg kScratchRegT])
                     = Some ScratchUnread).
      { unfold scratch_value_ok in Hsv2.
        destruct (scratch_has_cycle_start_ st2); subst sv2; [reflexivity|].
        cbn [scratch_values_used].
        rewrite scratch_value_step_write; [reflexivity|discriminate|reflexivity|discriminate]. }
      rewrite Hpop. cbn [mbind option_bind].
      rewrite scratch_values_used_app, EmitMovesFromRegister_map.
      rewrite scratch_values_used_moves_from_scratch;
        [|exact Hslots|exact Hscr_ts|discriminate].
      cbn [mbind option_bind scratch_values_used].
      rewrite scratch_value_step_other by discriminate. reflexivity.
    + rewrite (EmitMovesFromSource_split cs targets st2).
      intros [= <- <-].
      destruct (EmitMovesFromSource_values cs targets st2 false sv2 Hcs Hscr_ts Hempty)
        as (sv3 & Hused3 & Hsv3); [|exact Hsv2|].
      { intros Hf. pose proof (post_inv _ _ _ _ _ _ _ _ _ _ _ _ Hpost) as Hinv2.
        cbn [orb] in Hinv2. destruct Hinv2 as (Hf2 & _). congruence. }
      exists sv3. split; [|exact Hsv3].
      rewrite scratch_values_used_app, Hused. cbn [mbind option_bind].
      rewrite scratch_values_used_app, Hused3. cbn [mbind option_bind scratch_values_used].
      rewrite scratch_value_step_other by discriminate. reflexivity.
Qed.

Lemma scratch_values_used_load (node : option ValueNode) (r : RegisterT) sv :
  r <> kScratchRegT ->
  scratch_values_used sv
    match node with
    | Some n => [LoadToRegister n r]
    | None => []
    end = Some sv.
Proof.
  intros Hr. destruct node; cbn [scratch_values_used]; [|reflexivity].
  rewrite scratch_value_step_other; [reflexivity|discriminate|cbn; congruence].
Qed.

Lemma EmitRegisterMoves_values fuel st0 m0 regs : forall done st m st' out sv,
  ResolverOK st0 -> LoopInv st0 m0 done st m ->
  (forall r, r ∈ regs -> r ∈ kAllocatableRegistersT) ->
  (pending_sources st < fuel)%nat ->
  EmitRegisterMoves fuel regs st = Some (st', out) ->
  sv <> ScratchUnread ->
  exists sv', scratch_values_used sv out = Some sv' /\ sv' <> ScratchUnread.
Proof.
  induction regs as [|reg regs IH]; intros done st m st' out sv Hok Hinv Hregs Hfuel.
  - intros [= <- <-] Hsv. exists sv. split; [reflexivity|exact Hsv].
  - cbn [EmitRegisterMoves].
    assert (Hal : reg ∈ kAllocatableRegistersT) by (apply Hregs; left).
    destruct (StartEmitMoveChain_spec fuel (Reg reg) st m)
      as (st1 & out1 & m1 & Hstart & Hex1 & Hstep1 & Hreg1 & Hflag1 & Hstk1 & Hsu1 & Hpend1).
    { eapply LoopInv_GraphOK; eauto. }
    { apply allocatable_not_scratch, Hal. }
    { apply (li_flag _ _ _ _ _ Hinv). }
    { exact Hfuel. }
    rewrite Hstart.
    pose proof (LoopInv_chain st0 m0 done st m st1 m1 Hok Hinv Hstep1 Hflag1 Hstk1) as Hinv1.
    destruct (LoopInv_load st0 m0 done st1 m1 reg Hok Hinv1 Hreg1) as (m2 & Hex2 & Hinv2).
    pose proof (pending_PopTargets_le (Reg reg) st) as Hpop.
    destruct (EmitRegisterMoves fuel regs st1) as [[st3 out3]|] eqn:Hrec; [|discriminate].
    intros [= <- <-] Hsv.
    destruct (StartEmitMoveChain_values fuel (Reg reg) st m st1 out1 sv)
      as (sv1 & Hused1 & Hsv1);
      [eapply LoopInv_GraphOK; eauto|apply allocatable_not_scratch, Hal
      |apply (li_flag _ _ _ _ _ Hinv)|exact Hfuel|exact Hstart|exact Hsv|].
    destruct (IH (done ++ [reg]) st1 m2 st3 out3 sv1 Hok Hinv2)
      as (sv3 & Hused3 & Hsv3);
      [intros r Hr; apply Hregs; right; exact Hr|lia|exact Hrec|exact Hsv1|].
    exists sv3. split; [|exact Hsv3].
    rewrite scratch_values_used_app, Hused1. cbn [mbind option_bind].
    rewrite scratch_values_used_app, scratch_values_used_load.
    + exact Hused3.
    + intros ->. contradiction.
Qed.

Lemma EmitStackSlotMoves_values fuel st0 m0 done n : forall st m st' out sv,
  ResolverOK st0 -> LoopInv st0 m0 done st m ->
  (pending_sources st < fuel)%nat ->
  EmitStackSlotMoves n fuel st = Some (st', out) ->
  sv <> ScratchUnread ->
  exists sv', scratch_values_used sv out = Some sv' /\ sv' <> ScratchUnread.
Proof.
  induction n as [|n IH]; intros st m st' out sv Hok Hinv Hfuel; cbn [EmitStackSlotMoves].
  - destruct (decide (moves_from_stack_slot_ st = ∅)); [|discriminate].
    intros [= <- <-] Hsv. exists sv. split; [reflexivity|exact Hsv].
  - destruct (decide (moves_from_stack_slot_ st = ∅)) as [Hempty|Hne].
    + intros [= <- <-] Hsv. exists sv. split; [reflexivity|exact Hsv].
    + destruct (begin_spec _ Hne) as (first & Hbegin & Hfirst).
      rewrite Hbegin.
      destruct (StartEmitMoveChain_spec fuel (Slot first) st m)
        as (st1 & out1 & m1 & Hstart & Hex1 & Hstep1 & Hreg1 & Hflag1 & Hstk1 & Hsu1 & Hpend1).
      { eapply LoopInv_GraphOK; eauto. }
      { discriminate. }
      { apply (li_flag _ _ _ _ _ Hinv). }
      { exact Hfuel. }
      rewrite Hstart.
      pose proof (LoopInv_chain st0 m0 done st m st1 m1 Hok Hinv Hstep1 Hflag1 Hstk1) as Hinv1.
      pose proof (pending_PopTargets_slot_lt first st Hfirst) as Hlt.
      destruct (EmitStackSlotMoves n fuel st1) as [[st2 out2]|] eqn:Hrec; [|discriminate].
      intros [= <- <-] Hsv.
      destruct (StartEmitMoveChain_values fuel (Slot first) st m st1 out1 sv)
        as (sv1 & Hused1 & Hsv1);
        [eapply LoopInv_GraphOK; eauto|discriminate
        |apply (li_flag _ _ _ _ _ Hinv)|exact Hfuel|exact Hstart|exact Hsv|].
      destruct (IH st1 m1 st2 out2 sv1 Hok Hinv1) as (sv2 & Hused2 & Hsv2);
        [lia|exact Hrec|exact Hsv1|].
      exists sv2. split; [|exact Hsv2].
      rewrite scratch_values_used_app, Hused1. exact Hused2.
Qed.

Lemma EmitMaterializingStackSlotMoves_values l : forall sv,
  sv <> ScratchUnread ->
  exists sv',
    scratch_values_used sv (EmitMaterializingStackSlotMoves l) = Some sv'
    /\ sv' <> ScratchUnread.
Proof.
  induction l as [|[s n] l IH]; intros sv Hsv.
  - exists sv. split; [reflexivity|exact Hsv].
  - destruct (IH ScratchRead) as (sv' & Hused & Hsv'); [discriminate|].
    exists sv'. split; [|exact Hsv'].
    unfold EmitMaterializingStackSlotMoves in *.
    cbn [fmap list_fmap concat app scratch_values_used].
    rewrite scratch_value_step_write; [|discriminate|reflexivity|exact Hsv].
    rewrite scratch_value_step_read; [|reflexivity|discriminate|discriminate].
    exact Hused.
Qed.

(** In the code of [EmitMoves] every value put in the scratch register is
    read before the scratch register is written again, and before the end
    of the code. *)
Theorem EmitMoves_values_used st (m : Machine) st' code :
  ResolverOK st ->
  EmitMoves st = Some (st', code) ->
  exists sv, scratch_values_used ScratchEmpty code = Some sv /\ sv <> ScratchUnread.
Proof.
  intros Hok. unfold EmitMoves.
  destruct (EmitRegisterMoves_spec (S (pending_sources st)) st m kAllocatableRegistersT
              [] st m Hok (LoopInv_init st m (r_flag st Hok)))
    as (st1 & out1 & m1 & Hregs & Hex1 & Hinv1 & Hsu1 & Hpend1); [auto|lia|].
  rewrite Hregs. simpl in Hinv1.
  destruct (EmitRegisterMoves_values (S (pending_sources st)) st m kAllocatableRegistersT
              [] st m st1 out1 ScratchEmpty Hok (LoopInv_init st m (r_flag st Hok))
              ltac:(auto) ltac:(lia) Hregs ltac:(discriminate))
    as (sv1 & Hused1 & Hsv1).
  destruct (EmitStackSlotMoves (S (pending_sources st)) (S (pending_sources st)) st1)
    as [[st2 out2]|] eqn:Hslots; [|discriminate].
  destruct (EmitStackSlotMoves_values (S (pending_sources st)) st m
              kAllocatableRegistersT (S (pending_sources st)) st1 m1 st2 out2 sv1 Hok Hinv1
              ltac:(lia) Hslots Hsv1)
    as (sv2 & Hused2 & Hsv2).
  intros [= <- <-].
  destruct (EmitMaterializingStackSlotMoves_values (materializing_stack_slot_moves_ st2)
              sv2 Hsv2) as (sv3 & Hused3 & Hsv3).
  exists sv3. split; [|exact Hsv3].
  rewrite scratch_values_used_app, Hused1. cbn [mbind option_bind].
  rewrite scratch_values_used_app, Hused2. exact Hused3.
Qed.

(** ** What is pushed is popped *)

Definition is_push_or_pop (i : Instr) : bool :=
  match i with
  | PushReg _ | PopReg _ => true
  | _ => false
  end.

Definition is_pop (i : Instr) : bool :=
  match i with
  | PopReg _ => true
  | _ => false
  end.

Lemma exec_keeps_native_stack code : forall m m',
  Forall (fun i => is_push_or_pop i = false) code ->
  exec code m = Some m' -> native_stack m' = native_stack m.
Proof.
  induction code as [|i code IH]; intros m m' Hcode; [intros [= <-]; reflexivity|].
  apply Forall_cons in Hcode as [Hi Hcode]. cbn [exec].
  destruct (exec_instr i m) as [m1|] eqn:Hstep; [|discriminate].
  intros Hrun. rewrite (IH m1 m' Hcode Hrun).
  destruct i; try discriminate; injection Hstep as <-;
    try apply native_stack_write; reflexivity.
Qed.

(** Code that keeps one value on the native stack at most pushes nothing
    more until it has popped it. *)
Lemma stack_use_no_push mid : forall d',
  stack_use 1 mid = Some d' ->
  Forall (fun i => is_pop i = false) mid ->
  Forall (fun i => is_push_or_pop i = false) mid /\ d' = 1%nat.
Proof.
  induction mid as [|i mid IH]; intros d' Hsu Hpop.
  - injection Hsu as <-. split; [constructor|reflexivity].
  - apply Forall_cons in Hpop as [Hi Hpop].
    destruct i; cbn [stack_use] in Hsu; try discriminate;
      try (destruct (IH d' Hsu Hpop) as [Hmid ->]; split; [constructor; auto|reflexivity]).
    destruct (decide _) as [[_ Hd]|]; discriminate.
Qed.

(** In code that runs and keeps to the discipline of [stack_use], a push
    and the next pop after it are of the scratch register, and the pop gives
    the scratch register the value it had at the push, whatever was written
    to it in between. *)
Lemma push_is_restored code m m' pre r mid r' post :
  stack_use 0 code = Some 0%nat ->
  exec code m = Some m' ->
  code = pre ++ PushReg r :: mid ++ PopReg r' :: post ->
  Forall (fun i => is_pop i = false) mid ->
  exists m1 m2,
    exec pre m = Some m1
    /\ exec (PushReg r :: mid ++ [PopReg r']) m1 = Some m2
    /\ r = kScratchRegT /\ r' = kScratchRegT
    /\ read m2 (Reg kScratchRegT) = read m1 (Reg kScratchRegT)
    /\ native_stack m2 = native_stack m1.
Proof.
  intros Hsu Hex -> Hmid.
  rewrite stack_use_app in Hsu. rewrite exec_app in Hex.
  destruct (exec pre m) as [m1|] eqn:Hpre; [|discriminate].
  destruct (stack_use 0 pre) as [d|] eqn:Hd; [|discriminate].
  cbn [mbind option_bind] in Hsu, Hex. cbn [stack_use] in Hsu.
  destruct (decide (r = kScratchRegT /\ d = 0%nat)) as [[-> ->]|]; [|discriminate].
  rewrite stack_use_app in Hsu.
  destruct (stack_use 1 mid) as [d1|] eqn:Hd1; [|discriminate].
  destruct (stack_use_no_push mid d1 Hd1 Hmid) as [Hnone ->].
  cbn [mbind option_bind stack_use] in Hsu.
  destruct (decide (r' = kScratchRegT /\ 1%nat = 1%nat)) as [[-> _]|]; [|discriminate].
  cbn [exec exec_instr] in Hex.
  rewrite exec_app in Hex.
  set (m2 := mkMachine (reg_file m1) (frame_slots m1)
               (reg_file m1 kScratchRegT :: native_stack m1)) in *.
  destruct (exec mid m2) as [m3|] eqn:Hrun; [|discriminate].
  pose proof (exec_keeps_native_stack mid m2 m3 Hnone Hrun) as Hstk.
  cbn [native_stack m2] in Hstk. unfold m2 in Hstk. cbn [native_stack] in Hstk.
  eexists m1, _. split; [reflexivity|]. split.
  - cbn [exec exec_instr]. fold m2. rewrite exec_app, Hrun.
    cbn [mbind option_bind exec exec_instr]. rewrite Hstk. reflexivity.
  - split_and!; try reflexivity.
    rewrite read_write_eq. reflexivity.
Qed.

(* --------------------------------------------------------------------- *)
(** ** Which locations the emitted code touches *)

Definition is_target (st : Resolver) (l : Loc) : Prop := exists p, l ∈ get st p.

(** An instruction of a chain with start [cs] emitted in state [st]: it
    writes the scratch register or a target of a pending edge, and reads the
    scratch register, the chain start, a node with pending edges or a target
    of a pending edge. *)
Definition chain_instr (st : Resolver) (cs : Loc) (i : Instr) : Prop :=
  (forall l, written_loc i = Some l -> l = Reg kScratchRegT \/ is_target st l)
  /\ (forall l, read_loc i = Some l ->
        l = Reg kScratchRegT \/ l = cs \/ get st l <> [] \/ is_target st l)
  /\ ~ is_load i.

Lemma is_target_le st st' l : graph_le st st' -> is_target st' l -> is_target st l.
Proof. intros Hle [p Hp]. exists p. eapply graph_le_elem; eauto. Qed.

Lemma chain_instr_le st st' cs i :
  graph_le st st' -> chain_instr st' cs i -> chain_instr st cs i.
Proof.
  intros Hle (Hw & Hr & Hl). split_and!; [| |exact Hl].
  - intros l Hwl. destruct (Hw l Hwl) as [?|?]; eauto using is_target_le.
  - intros l Hrl. destruct (Hr l Hrl) as [?|[?|[H|?]]]; eauto using is_target_le.
    right. right. left. intros Hnil. apply H. eapply graph_le_nil; eauto.
Qed.

Lemma chain_instr_comment st cs c : chain_instr st cs (RecordComment c).
Proof. split_and!; [discriminate|discriminate|intros (? & ? & [=])]. Qed.

Lemma chain_instr_moves_from st cs r ts :
  (forall t, t ∈ ts -> is_target st t) ->
  Reg r = Reg kScratchRegT \/ Reg r = cs \/ get st (Reg r) <> [] \/ is_target st (Reg r) ->
  Forall (chain_instr st cs) (move_from r <$> ts).
Proof.
  intros Hts Hr. apply Forall_fmap, Forall_forall. intros t Ht.
  specialize (Hts t Ht). destruct t as [d|d]; simpl.
  - split_and!; [intros l [= <-]; auto|intros l [= <-]; exact Hr|intros (? & ? & [=])].
  - split_and!; [intros l [= <-]; auto|intros l [= <-]; exact Hr|intros (? & ? & [=])].
Qed.

Lemma EmitMovesFromSource_get source targets st p :
  get (EmitMovesFromSource source targets st).1 p = get st p.
Proof.
  destruct source as [r|k]; simpl; [reflexivity|].
  unfold EmitMovesFromStackSlot. destruct (registers targets); [|reflexivity].
  destruct (scratch_has_cycle_start_ st); simpl; [apply get_set_flag|reflexivity].
Qed.

Lemma EmitMovesFromSource_chain_instr st0 cs source targets st :
  (forall t, t ∈ locs_of targets -> is_target st0 t) ->
  source = cs \/ get st0 source <> [] ->
  Forall (chain_instr st0 cs) (EmitMovesFromSource source targets st).2.
Proof.
  intros Hts Hsrc.
  assert (Hsrc' : forall l, l = source ->
            l = Reg kScratchRegT \/ l = cs \/ get st0 l <> [] \/ is_target st0 l).
  { intros l ->. destruct Hsrc; auto. }
  destruct source as [r|k]; simpl.
  - rewrite EmitMovesFromRegister_map. apply chain_instr_moves_from; auto.
  - unfold EmitMovesFromStackSlot. destruct targets as [[|r1 rest] slots]; simpl.
    + assert (Hrest : Forall (chain_instr st0 cs)
                (MoveRegSlot kScratchRegT k
                   :: EmitMovesFromRegister kScratchRegT (mkTargets [] slots))).
      { constructor.
        - split_and!; [intros l [= <-]; auto|intros l [= <-]; auto
                      |intros (? & ? & [=])].
        - rewrite EmitMovesFromRegister_map. apply chain_instr_moves_from; auto. }
      destruct (scratch_has_cycle_start_ st); simpl; [|exact Hrest].
      constructor; [|exact Hrest].
      split_and!; [discriminate|intros l [= <-]; auto|intros (? & ? & [=])].
    + assert (Hr1 : is_target st0 (Reg r1)) by (apply Hts; left).
      constructor.
      * split_and!; [intros l [= <-]; auto|intros l [= <-]; auto|intros (? & ? & [=])].
      * rewrite EmitMovesFromRegister_map. apply chain_instr_moves_from; [|auto].
        intros t Ht. apply Hts. right. exact Ht.
Qed.

Lemma EmitMovesFromSource_mat source targets st :
  same_materializations st (EmitMovesFromSource source targets st).1.
Proof.
  destruct source as [r|k]; simpl; [apply same_materializations_refl|].
  unfold EmitMovesFromStackSlot.
  destruct (registers targets); [|apply same_materializations_refl].
  destruct (scratch_has_cycle_start_ st); simpl; split; reflexivity.
Qed.

(** What is known of the result of a chain function without looking at the
    machine: the graph has shrunk, the materialising moves are untouched and
    the code consists of chain instructions. *)
Definition chain_result (st0 : Resolver) (cs : Loc) (st : Resolver)
    (res : bool * Resolver * list Instr) : Prop :=
  graph_le st res.1.2 /\ same_materializations st res.1.2
  /\ Forall (chain_instr st0 cs) res.2.

Lemma visit_targets_chain_instr continue st0 cs ts : forall acc st res,
  (forall s st res, continue s st = Some res -> chain_result st cs st res) ->
  graph_le st0 st ->
  visit_targets continue ts acc st = Some res ->
  chain_result st0 cs st res.
Proof.
  induction ts as [|t ts IH]; intros acc st res Hk Hle Hv; simpl in Hv.
  - injection Hv as <-.
    split_and!; [apply graph_le_refl|apply same_materializations_refl|constructor].
  - destruct (continue t st) as [[[c st1] out1]|] eqn:Hc; [|discriminate].
    destruct (Hk t st _ Hc) as (Hle1 & Hm1 & Hout1). simpl in Hle1, Hm1, Hout1.
    destruct (visit_targets continue ts (acc || c) st1) as [[[c' st2] out2]|] eqn:Hv';
      [|discriminate].
    injection Hv as <-.
    destruct (IH _ _ _ Hk (graph_le_trans _ _ _ Hle Hle1) Hv') as (Hle2 & Hm2 & Hout2).
    simpl in *.
    split_and!; simpl.
    + eapply graph_le_trans; eauto.
    + eapply same_materializations_trans; eauto.
    + apply Forall_app. split; [|exact Hout2].
      eapply Forall_impl; [exact Hout1|]. intros i. apply chain_instr_le, Hle.
Qed.

Lemma ContinueEmitMoveChain_chain_instr fuel cs : forall s st res,
  ContinueEmitMoveChain fuel cs s st = Some res -> chain_result st cs st res.
Proof.
  induction fuel as [|fuel IH]; intros s st res H; [discriminate|].
  simpl in H. destruct (decide (cs = s)) as [<-|Hne].
  - injection H as <-. split_and!; simpl.
    + intros p; left; apply get_set_flag.
    + split; reflexivity.
    + constructor; [apply chain_instr_comment|]. constructor; [|constructor].
      destruct cs; simpl;
        (split_and!; [intros l [= <-]; auto|intros l [= <-]; auto|intros (? & ? & [=])]).
  - rewrite (PopTargets_split s st) in H.
    set (targets := (PopTargets s st).1) in *. set (st1 := (PopTargets s st).2) in *.
    assert (Hts : locs_of targets = get st s) by apply locs_PopTargets.
    pose proof (graph_le_PopTargets s st) as Hle1. fold st1 in Hle1.
    pose proof (PopTargets_mat s st) as Hm1. fold st1 in Hm1.
    destruct (is_empty targets) eqn:Hempty.
    + injection H as <-. split_and!; simpl; [exact Hle1|exact Hm1|].
      constructor; [apply chain_instr_comment|constructor].
    + unfold RecursivelyEmitMoveChainTargets in H.
      destruct (visit_targets (ContinueEmitMoveChain fuel cs) (Reg <$> registers targets)
                  false st1) as [[[c1 st2] out1]|] eqn:Hv1; [|discriminate].
      destruct (visit_targets (ContinueEmitMoveChain fuel cs) (Slot <$> stack_slots targets)
                  c1 st2) as [[[c2 st3] out2]|] eqn:Hv2; [|discriminate].
      destruct (visit_targets_chain_instr _ st _ _ _ _ _ IH Hle1 Hv1) as (Hle2 & Hm2 & Hout1).
      simpl in Hle2, Hm2, Hout1.
      destruct (visit_targets_chain_instr _ st _ _ _ _ _ IH
                  (graph_le_trans _ _ _ Hle1 Hle2) Hv2) as (Hle3 & Hm3 & Hout2).
      simpl in Hle3, Hm3, Hout2.
      pose proof (EmitMovesFromSource_get s targets st3) as Hget.
      pose proof (EmitMovesFromSource_mat s targets st3) as Hm4.
      pose proof (EmitMovesFromSource_chain_instr st cs s targets st3) as Hemit.
      destruct (EmitMovesFromSource s targets st3) as [st4 out3].
      injection H as <-. simpl in *. split_and!; simpl.
      * eapply graph_le_trans; [exact Hle1|]. eapply graph_le_trans; [exact Hle2|].
        eapply graph_le_trans; [exact Hle3|]. intros p. left. apply Hget.
      * eapply same_materializations_trans; [exact Hm1|].
        eapply same_materializations_trans; [exact Hm2|].
        eapply same_materializations_trans; eauto.
      * rewrite !Forall_app. split_and!; auto. apply Hemit.
        -- intros t Ht. exists s. rewrite <- Hts. exact Ht.
        -- right. rewrite <- Hts. apply is_empty_false_locs, Hempty.
Qed.

(** An instruction emitted by [StartEmitMoveChain] in state [st]. *)
Definition graph_instr (st : Resolver) (i : Instr) : Prop :=
  (forall l, written_loc i = Some l -> l = Reg kScratchRegT \/ is_target st l)
  /\ (forall l, read_loc i = Some l ->
        l = Reg kScratchRegT \/ get st l <> [] \/ is_target st l)
  /\ ~ is_load i.

Lemma graph_instr_le st st' i :
  graph_le st st' -> graph_instr st' i -> graph_instr st i.
Proof.
  intros Hle (Hw & Hr & Hl). split_and!; [| |exact Hl].
  - intros l Hwl. destruct (Hw l Hwl) as [?|?]; eauto using is_target_le.
  - intros l Hrl. destruct (Hr l Hrl) as [?|[H|?]]; eauto using is_target_le.
    right. left. intros Hnil. apply H. eapply graph_le_nil; eauto.
Qed.

Lemma chain_instr_graph_instr st cs i :
  get st cs <> [] -> chain_instr st cs i -> graph_instr st i.
Proof.
  intros Hcs (Hw & Hr & Hl). split_and!; [exact Hw| |exact Hl].
  intros l Hrl. destruct (Hr l Hrl) as [?|[->|[?|?]]]; auto.
Qed.

Lemma StartEmitMoveChain_graph_instr fuel cs st st' out :
  StartEmitMoveChain fuel cs st = Some (st', out) ->
  graph_le st st' /\ same_materializations st st' /\ get st' cs = []
  /\ Forall (graph_instr st) out.
Proof.
  unfold StartEmitMoveChain. rewrite (PopTargets_split cs st).
  set (targets := (PopTargets cs st).1). set (st1 := (PopTargets cs st).2).
  assert (Hts : locs_of targets = get st cs) by apply locs_PopTargets.
  pose proof (graph_le_PopTargets cs st) as Hle1. fold st1 in Hle1.
  pose proof (PopTargets_mat cs st) as Hm1. fold st1 in Hm1.
  assert (Hcs1 : get st1 cs = []).
  { unfold st1. rewrite get_PopTargets, decide_True by reflexivity. reflexivity. }
  destruct (is_empty targets) eqn:Hempty.
  - intros [= <- <-]. split_and!; [exact Hle1|exact Hm1|exact Hcs1|constructor].
  - assert (Hcs : get st cs <> []) by (rewrite <- Hts; apply is_empty_false_locs, Hempty).
    unfold RecursivelyEmitMoveChainTargets.
    destruct (visit_targets (ContinueEmitMoveChain fuel cs) (Reg <$> registers targets)
                false st1) as [[[c1 st2] out1]|] eqn:Hv1; [|discriminate].
    destruct (visit_targets (ContinueEmitMoveChain fuel cs) (Slot <$> stack_slots targets)
                c1 st2) as [[[c2 st3] out2]|] eqn:Hv2; [|discriminate].
    destruct (visit_targets_chain_instr _ st _ _ _ _ _
                (ContinueEmitMoveChain_chain_instr fuel cs) Hle1 Hv1) as (Hle2 & Hm2 & Hout1).
    simpl in Hle2, Hm2, Hout1.
    destruct (visit_targets_chain_instr _ st _ _ _ _ _
                (ContinueEmitMoveChain_chain_instr fuel cs)
                (graph_le_trans _ _ _ Hle1 Hle2) Hv2) as (Hle3 & Hm3 & Hout2).
    simpl in Hle3, Hm3, Hout2.
    assert (Hle13 : graph_le st1 st3) by (eapply graph_le_trans; eauto).
    assert (Hle : graph_le st st3) by (eapply graph_le_trans; eauto).
    assert (Hm : same_materializations st st3).
    { eapply same_materializations_trans; [exact Hm1|].
      eapply same_materializations_trans; eauto. }
    assert (Hcs3 : get st3 cs = []) by (eapply graph_le_nil; [exact Hle13|exact Hcs1]).
    assert (Hts' : forall t, t ∈ locs_of targets -> is_target st t).
    { intros t Ht. exists cs. rewrite <- Hts. exact Ht. }
    assert (Hchain : forall code, Forall (chain_instr st cs) code ->
                       Forall (graph_instr st) code).
    { intros code Hc. eapply Forall_impl; [exact Hc|].
      intros i. apply chain_instr_graph_instr, Hcs. }
    destruct c2.
    + intros [= <- <-]. split_and!.
      * intros p; rewrite get_set_flag; apply Hle.
      * destruct Hm. split; simpl; assumption.
      * rewrite get_set_flag. exact Hcs3.
      * apply Hchain. rewrite !Forall_app. split_and!; auto.
        -- destruct (scratch_has_cycle_start_ st3); constructor; [|constructor].
           split_and!; [intros l [= <-]; auto|discriminate|intros (? & ? & [=])].
        -- rewrite EmitMovesFromRegister_map. apply chain_instr_moves_from; auto.
        -- constructor; [apply chain_instr_comment|constructor].
    + pose proof (EmitMovesFromSource_get cs targets st3) as Hget.
      pose proof (EmitMovesFromSource_mat cs targets st3) as Hm4.
      pose proof (EmitMovesFromSource_chain_instr st cs cs targets st3 Hts'
                    (or_introl eq_refl)) as Hemit.
      destruct (EmitMovesFromSource cs targets st3) as [st4 out3].
      intros [= <- <-]. simpl in *. split_and!.
      * eapply graph_le_trans; [exact Hle|]. intros p. left. apply Hget.
      * eapply same_materializations_trans; eauto.
      * rewrite Hget. exact Hcs3.
      * apply Hchain. rewrite !Forall_app. split_and!; auto.
        constructor; [apply chain_instr_comment|constructor].
Qed.

(** *** The code of [EmitMoves] as a whole *)

(** [uses r i]: the move [i] reads or writes register [r] (a materialising
    load of [r] itself does not count). *)
Definition uses (r : RegisterT) (i : Instr) : Prop :=
  read_loc i = Some (Reg r) \/ (written_loc i = Some (Reg r) /\ ~ is_load i).

(** Once a constant has been materialised in an allocatable register, no
    later move reads or overwrites that register. *)
Fixpoint loads_are_final (code : list Instr) : Prop :=
  match code with
  | [] => True
  | i :: rest =>
      (forall node r, i = LoadToRegister node r -> r <> kScratchRegT ->
         Forall (fun j => ~ uses r j) rest)
      /\ loads_are_final rest
  end.

(** An instruction of the first two loops of [EmitMoves]: a move of a chain,
    or the materialising move of an allocatable register. *)
Definition emit_instr (st : Resolver) (i : Instr) : Prop :=
  graph_instr st i
  \/ exists node r, i = LoadToRegister node r /\ r ∈ kAllocatableRegistersT
                  /\ mat_reg st r = Some node.

Lemma graph_instr_not_uses st r i :
  graph_instr st i -> r <> kScratchRegT -> get st (Reg r) = [] ->
  ~ is_target st (Reg r) -> ~ uses r i.
Proof.
  intros (Hw & Hr & Hl) Hscr Hsrc Htgt [Hrd|[Hwr _]].
  - destruct (Hr _ Hrd) as [[= ->]|[?|?]]; contradiction.
  - destruct (Hw _ Hwr) as [[= ->]|?]; contradiction.
Qed.

Lemma emit_instr_not_uses st r i :
  emit_instr st i -> r <> kScratchRegT -> get st (Reg r) = [] ->
  ~ is_target st (Reg r) -> ~ uses r i.
Proof.
  intros [Hg|(node & r' & -> & _)] Hscr Hsrc Htgt.
  - eapply graph_instr_not_uses; eauto.
  - intros [[=]|[_ Hl]]. apply Hl. eexists _, _. reflexivity.
Qed.

Lemma emit_instr_le st st' i :
  graph_le st st' -> same_materializations st st' -> emit_instr st' i -> emit_instr st i.
Proof.
  intros Hle [Hm _] [Hg|(node & r & -> & Hal & Hn)].
  - left. eapply graph_instr_le; eauto.
  - right. exists node, r. split_and!; auto. unfold mat_reg in *. congruence.
Qed.

Lemma loads_are_final_app a b :
  loads_are_final a -> loads_are_final b ->
  (forall node r, LoadToRegister node r ∈ a -> r <> kScratchRegT ->
     Forall (fun j => ~ uses r j) b) ->
  loads_are_final (a ++ b).
Proof.
  induction a as [|i a IH]; intros Ha Hb Hab; [exact Hb|].
  destruct Ha as [Hi Ha]. simpl. split.
  - intros node r -> Hr. apply Forall_app. split; [eauto|].
    apply (Hab node r); [left|exact Hr].
  - apply IH; auto. intros node r Hin. apply (Hab node r). right. exact Hin.
Qed.

Lemma loads_are_final_no_loads a :
  Forall (fun i => ~ is_load i) a -> loads_are_final a.
Proof.
  induction 1 as [|i a Hi _ IH]; simpl; [exact I|]. split; [|exact IH].
  intros node r -> _. exfalso. apply Hi. eexists _, _. reflexivity.
Qed.

Lemma loads_are_final_split pre node r post :
  loads_are_final (pre ++ LoadToRegister node r :: post) -> r <> kScratchRegT ->
  Forall (fun j => ~ uses r j) post.
Proof.
  induction pre as [|i pre IH]; simpl; intros [Hi Hrest] Hr.
  - exact (Hi node r eq_refl Hr).
  - apply IH; assumption.
Qed.

Lemma loads_are_final_scratch a :
  (forall node r, LoadToRegister node r ∈ a -> r = kScratchRegT) -> loads_are_final a.
Proof.
  induction a as [|i a IH]; intros Ha; simpl; [exact I|]. split.
  - intros node r -> Hr. exfalso. apply Hr. apply (Ha node r). left.
  - apply IH. intros node r Hin. apply (Ha node r). right. exact Hin.
Qed.

Lemma graph_instr_not_load st code :
  Forall (graph_instr st) code -> Forall (fun i => ~ is_load i) code.
Proof. intros Hc. eapply Forall_impl; [exact Hc|]. intros i (_ & _ & H). exact H. Qed.

Lemma EmitRegisterMoves_code fuel regs : forall st st' out,
  EmitRegisterMoves fuel regs st = Some (st', out) ->
  (forall r n, mat_reg st r = Some n -> ~ is_target st (Reg r)) ->
  (forall r, r ∈ regs -> r ∈ kAllocatableRegistersT) ->
  graph_le st st' /\ same_materializations st st'
  /\ Forall (emit_instr st) out /\ loads_are_final out
  /\ (forall node r, LoadToRegister node r ∈ out -> get st' (Reg r) = []).
Proof.
  induction regs as [|reg regs IH]; intros st st' out H Hmat Hregs; simpl in H.
  - injection H as <- <-.
    split_and!; [apply graph_le_refl|apply same_materializations_refl|constructor|exact I|].
    intros node r Hin. inversion Hin.
  - destruct (StartEmitMoveChain fuel (Reg reg) st) as [[st1 out1]|] eqn:Hstart;
      [|discriminate].
    destruct (StartEmitMoveChain_graph_instr _ _ _ _ _ Hstart) as (Hle1 & Hm1 & Hreg1 & Hout1).
    destruct (EmitRegisterMoves fuel regs st1) as [[st2 out2]|] eqn:Hrec; [|discriminate].
    injection H as <- <-.
    assert (Hmat1 : forall r n, mat_reg st1 r = Some n -> ~ is_target st1 (Reg r)).
    { intros r n Hn Ht. apply (Hmat r n).
      - unfold mat_reg in *. destruct Hm1 as [Hm1 _]. congruence.
      - eapply is_target_le; eauto. }
    destruct (IH _ _ _ Hrec Hmat1) as (Hle2 & Hm2 & Hout2 & Hfin2 & Hld2).
    { intros r Hr. apply Hregs. right. exact Hr. }
    assert (Hout2' : Forall (emit_instr st) out2).
    { eapply Forall_impl; [exact Hout2|]. intros i. apply emit_instr_le; auto. }
    assert (Hreg : mat_reg st1 reg = mat_reg st reg).
    { unfold mat_reg. destruct Hm1 as [Hm1 _]. congruence. }
    fold (mat_reg st1 reg). rewrite Hreg.
    assert (Hreg2 : get st2 (Reg reg) = []) by (eapply graph_le_nil; eauto).
    split_and!.
    + eapply graph_le_trans; eauto.
    + eapply same_materializations_trans; eauto.
    + rewrite !Forall_app. split_and!; auto.
      * eapply Forall_impl; [exact Hout1|]. intros i Hi. left. exact Hi.
      * destruct (mat_reg st reg) as [node|] eqn:Hn; constructor; [|constructor].
        right. exists node, reg. split_and!; auto. apply Hregs. left.
    + apply loads_are_final_app.
      * apply loads_are_final_no_loads. eapply graph_instr_not_load; eauto.
      * apply loads_are_final_app; [|exact Hfin2|].
        -- destruct (mat_reg st reg); simpl;
             [split; [intros ? ? _ _; constructor|exact I]|exact I].
        -- intros node r Hin Hr. destruct (mat_reg st reg) as [node'|] eqn:Hn;
             [|inversion Hin].
           apply list_elem_of_singleton in Hin. injection Hin as -> ->.
           eapply Forall_impl; [exact Hout2|]. intros i Hi.
           eapply emit_instr_not_uses; eauto; apply Hmat1 with node'; congruence.
      * intros node r Hin _. exfalso.
        pose proof (graph_instr_not_load _ _ Hout1) as Hnl.
        rewrite Forall_forall in Hnl. apply (Hnl _ Hin). eexists _, _. reflexivity.
    + intros node r Hin. apply elem_of_app in Hin as [Hin|Hin].
      * exfalso. pose proof (graph_instr_not_load _ _ Hout1) as Hnl.
        rewrite Forall_forall in Hnl. apply (Hnl _ Hin). eexists _, _. reflexivity.
      * apply elem_of_app in Hin as [Hin|Hin]; [|eauto].
        destruct (mat_reg st reg); [|inversion Hin].
        apply list_elem_of_singleton in Hin. injection Hin as -> ->. exact Hreg2.
Qed.

Lemma EmitStackSlotMoves_code fuel n : forall st st' out,
  EmitStackSlotMoves n fuel st = Some (st', out) ->
  graph_le st st' /\ same_materializations st st' /\ Forall (graph_instr st) out.
Proof.
  induction n as [|n IH]; intros st st' out H; simpl in H.
  - destruct (decide _); [|discriminate]. injection H as <- <-.
    split_and!; [apply graph_le_refl|apply same_materializations_refl|constructor].
  - destruct (decide _).
    + injection H as <- <-.
      split_and!; [apply graph_le_refl|apply same_materializations_refl|constructor].
    + destruct (begin (moves_from_stack_slot_ st)) as [first|]; [|discriminate].
      destruct (StartEmitMoveChain fuel (Slot first) st) as [[st1 out1]|] eqn:Hstart;
        [|discriminate].
      destruct (StartEmitMoveChain_graph_instr _ _ _ _ _ Hstart) as (Hle1 & Hm1 & _ & Hout1).
      destruct (EmitStackSlotMoves n fuel st1) as [[st2 out2]|] eqn:Hrec; [|discriminate].
      injection H as <- <-. destruct (IH _ _ _ Hrec) as (Hle2 & Hm2 & Hout2).
      split_and!.
      * eapply graph_le_trans; eauto.
      * eapply same_materializations_trans; eauto.
      * apply Forall_app. split; [exact Hout1|].
        eapply Forall_impl; [exact Hout2|]. intros i. apply graph_instr_le, Hle1.
Qed.

Lemma EmitMaterializingStackSlotMoves_instr l i :
  i ∈ EmitMaterializingStackSlotMoves l ->
  (exists node, i = LoadToRegister node kScratchRegT)
  \/ (exists s node, i = MoveSlotReg s kScratchRegT /\ (s, node) ∈ l).
Proof.
  induction l as [|[s node] l IH]; unfold EmitMaterializingStackSlotMoves; simpl.
  - intros H. inversion H.
  - intros H. apply elem_of_cons in H as [->|H]; [left; eauto|].
    apply elem_of_cons in H as [->|H].
    + right. exists s, node. split; [reflexivity|left].
    + destruct (IH H) as [?|(s' & node' & -> & Hin)]; [left; assumption|].
      right. exists s', node'. split; [reflexivity|right; exact Hin].
Qed.

(** The shape of the code of [EmitMoves]: the chains with the register
    materialisations among them, then the stack slot materialisations. *)
Lemma EmitMoves_code st st' code :
  EmitMoves st = Some (st', code) ->
  (forall r n, mat_reg st r = Some n -> ~ is_target st (Reg r)) ->
  exists graph_code,
    code = graph_code ++ EmitMaterializingStackSlotMoves (materializing_stack_slot_moves_ st)
    /\ Forall (emit_instr st) graph_code
    /\ loads_are_final code.
Proof.
  unfold EmitMoves. intros H Hmat.
  destruct (EmitRegisterMoves _ _ st) as [[st1 out1]|] eqn:Hregs; [|discriminate].
  destruct (EmitStackSlotMoves _ _ st1) as [[st2 out2]|] eqn:Hslots; [|discriminate].
  injection H as <- <-.
  destruct (EmitRegisterMoves_code _ _ _ _ _ Hregs Hmat) as (Hle1 & Hm1 & Hout1 & Hfin1 & Hld1);
    [auto|].
  destruct (EmitStackSlotMoves_code _ _ _ _ _ Hslots) as (Hle2 & Hm2 & Hout2).
  assert (Hms : materializing_stack_slot_moves_ st2 = materializing_stack_slot_moves_ st).
  { destruct Hm1 as [_ H1]. destruct Hm2 as [_ H2]. congruence. }
  rewrite Hms.
  exists (out1 ++ out2). split_and!.
  - rewrite app_assoc. reflexivity.
  - apply Forall_app. split; [exact Hout1|].
    eapply Forall_impl; [exact Hout2|]. intros i Hi.
    eapply emit_instr_le; eauto. left. exact Hi.
  - apply loads_are_final_app; [exact Hfin1| |].
    + apply loads_are_final_app.
      * apply loads_are_final_no_loads. eapply graph_instr_not_load; eauto.
      * apply loads_are_final_scratch. intros node r Hi.
        apply EmitMaterializingStackSlotMoves_instr in Hi
          as [(n' & [= _ ->])|(? & ? & [=] & _)].
        reflexivity.
      * intros node r Hin _. exfalso.
        pose proof (graph_instr_not_load _ _ Hout2) as Hnl.
        rewrite Forall_forall in Hnl. apply (Hnl _ Hin). eexists _, _. reflexivity.
    + intros node r Hin Hr.
      assert (Hsrc : get st1 (Reg r) = []) by eauto.
      assert (Htgt : ~ is_target st1 (Reg r)).
      { intros Ht.
        assert (Hl : emit_instr st (LoadToRegister node r)).
        { rewrite Forall_forall in Hout1. apply Hout1, Hin. }
        destruct Hl as [(_ & _ & Hl)|(n' & r' & [= <- <-] & _ & Hn)].
        - apply Hl. eexists _, _. reflexivity.
        - apply (Hmat r node Hn). eapply is_target_le; eauto. }
      apply Forall_app. split.
      * eapply Forall_impl; [exact Hout2|]. intros i Hi.
        eapply graph_instr_not_uses; eauto.
      * apply Forall_forall. intros i Hi.
        apply EmitMaterializingStackSlotMoves_instr in Hi as [(n' & ->)|(s & n' & -> & _)].
        -- intros [[=]|[_ Hl]]. apply Hl. eexists _, _. reflexivity.
        -- intros [[= ->]|[[=] _]]. contradiction.
Qed.

(* --------------------------------------------------------------------- *)
(** ** Move sets and the states [RecordMove] builds from them *)

(** [RegisterT::kNumRegisters]; every allocatable register has a code
    below it. *)
Variable kNumRegisters : nat.
Hypothesis allocatable_lt : forall r, r ∈ kAllocatableRegistersT -> (r < kNumRegisters)%nat.

(** One call of [RecordMove]. *)
Record GapMove := mkGapMove {
  move_node : ValueNode;
  move_source : InstructionOperand;
  move_target : AllocatedOperand
}.

Definition record_move (st : Resolver) (mv : GapMove) : Resolver :=
  RecordMove (move_node mv) (move_source mv) (move_target mv) st.

(** The resolver after the moves have been recorded, in order. *)
Definition record_moves (moves : list GapMove) (st : Resolver) : Resolver :=
  foldl record_move st moves.

Definition source_loc (o : InstructionOperand) : option Loc :=
  match o with
  | RegisterOperand r => Some (Reg r)
  | StackSlotOperand s => Some (Slot s)
  | ConstantOperand => None
  end.

(** The value a move transfers, read in machine state [m]. *)
Definition source_value (m : Machine) (mv : GapMove) : Value :=
  match source_loc (move_source mv) with
  | Some l => read m l
  | None => node_value (move_node mv)
  end.

(** Simultaneous-assignment semantics of a move set: every target gets the
    value its source had before any move took place. *)
Definition simultaneous (moves : list GapMove) (m : Machine) (l : Loc) : Value :=
  match List.find (fun mv => bool_decide (move_target mv = l)) moves with
  | Some mv => source_value m mv
  | None => read m l
  end.

(** The invariant of the upstream allocator: a location is the target of at
    most one move of the set. *)
Definition in_degree_le_1 (moves : list GapMove) : Prop :=
  NoDup (move_target <$> moves).

(** The registers of a move set are allocatable ones. *)
Definition allocated (moves : list GapMove) : Prop :=
  forall mv, mv ∈ moves ->
    (forall r, move_source mv = RegisterOperand r -> r ∈ kAllocatableRegistersT)
    /\ (forall r, move_target mv = Reg r -> r ∈ kAllocatableRegistersT).

Lemma elem_of_reglist_set x r l : x ∈ reglist_set r l <-> x = r \/ x ∈ l.
Proof.
  induction l as [|y l IH]; simpl.
  - rewrite list_elem_of_singleton. split; [auto|intros [?|H]; [auto|inversion H]].
  - destruct (r <? y)%nat eqn:Hlt; [apply elem_of_cons|].
    destruct (r =? y)%nat eqn:Heq.
    + apply Nat.eqb_eq in Heq as ->. rewrite elem_of_cons. tauto.
    + rewrite !elem_of_cons, IH. tauto.
Qed.

(** A [RegList] is iterated by increasing register code. *)
Definition ascending (l : list RegisterT) : Prop := StronglySorted lt l.

Lemma ascending_reglist_set r l : ascending l -> ascending (reglist_set r l).
Proof.
  unfold ascending. induction l as [|y l IH]; simpl; intros Hs.
  - repeat constructor.
  - apply StronglySorted_inv in Hs as [Hs Hy].
    destruct (r <? y)%nat eqn:Hlt.
    + apply Nat.ltb_lt in Hlt. constructor; [constructor; assumption|].
      constructor; [exact Hlt|].
      eapply List.Forall_impl; [|exact Hy]. intros z Hz. simpl in *. lia.
    + destruct (r =? y)%nat eqn:Heq; [constructor; assumption|].
      apply Nat.ltb_ge in Hlt. apply Nat.eqb_neq in Heq.
      constructor; [auto|].
      apply List.Forall_forall. intros z Hz. apply list_elem_of_In in Hz.
      apply elem_of_reglist_set in Hz as [->|Hz]; [lia|].
      rewrite List.Forall_forall in Hy. apply Hy, list_elem_of_In, Hz.
Qed.

Lemma ascending_NoDup l : ascending l -> NoDup l.
Proof.
  unfold ascending. induction l as [|y l IH]; intros Hs; [constructor|].
  apply StronglySorted_inv in Hs as [Hs Hy]. apply NoDup_cons. split; [|auto].
  intros Hin. rewrite List.Forall_forall in Hy.
  apply list_elem_of_In, Hy in Hin. lia.
Qed.

(** Target sets as [RecordMove] builds them. *)
Definition targets_ok (t : GapMoveTargets) : Prop :=
  ascending (registers t) /\ NoDup (stack_slots t).

Lemma NoDup_locs_of t : targets_ok t -> NoDup (locs_of t).
Proof.
  intros [Hr Hs]. unfold locs_of. apply NoDup_app. split_and!.
  - apply NoDup_fmap_2; [intros ? ? [= ->]; reflexivity|apply ascending_NoDup, Hr].
  - intros x Hx Hx'. apply list_elem_of_fmap in Hx as (r & -> & _).
    apply list_elem_of_fmap in Hx' as (s' & [=] & _).
  - apply NoDup_fmap_2; [intros ? ? [= ->]; reflexivity|exact Hs].
Qed.

Lemma elem_of_locs_of x t :
  x ∈ locs_of t <->
  (exists r, x = Reg r /\ r ∈ registers t) \/ (exists s', x = Slot s' /\ s' ∈ stack_slots t).
Proof.
  unfold locs_of. rewrite elem_of_app, !list_elem_of_fmap. reflexivity.
Qed.

(** [add_target l t]: the target set [t] with the edge to [l] added, as
    [RecordMoveToRegister] and [RecordMoveToStackSlot] do it. *)
Definition add_target (l : Loc) (t : GapMoveTargets) : GapMoveTargets :=
  match l with
  | Reg r => set_register r t
  | Slot s' => push_back_slot s' t
  end.

Lemma elem_of_add_target x l t : x ∈ locs_of (add_target l t) <-> x = l \/ x ∈ locs_of t.
Proof.
  rewrite !elem_of_locs_of. destruct l as [r|k]; simpl.
  - setoid_rewrite elem_of_reglist_set. split.
    + intros [(r' & -> & [->|H])|H]; eauto.
    + intros [->|[(r' & -> & H)|H]]; eauto.
  - setoid_rewrite elem_of_app. setoid_rewrite list_elem_of_singleton. split.
    + intros [H|(s' & -> & [H| ->])]; eauto.
    + intros [->|[H|(s' & -> & H)]]; eauto.
Qed.

Lemma targets_ok_add_target l t :
  targets_ok t -> l ∉ locs_of t -> targets_ok (add_target l t).
Proof.
  intros [Hr Hs] Hl. destruct l as [r|k]; simpl; split; simpl; auto.
  - apply ascending_reglist_set, Hr.
  - apply NoDup_app. split_and!; [exact Hs| |apply NoDup_singleton].
    intros x Hx Hx'. apply list_elem_of_singleton in Hx' as ->.
    apply Hl, elem_of_locs_of. right. eauto.
Qed.

(** The target set of a node. *)
Definition targets_of (st : Resolver) (source : Loc) : GapMoveTargets :=
  match source with
  | Reg r => targets_from_register r st
  | Slot s => targets_from_stack_slot s st
  end.

Lemma get_targets_of st p : get st p = locs_of (targets_of st p).
Proof. destruct p; reflexivity. Qed.

(** Recording a move from a location [p] to another location. *)
Lemma targets_of_record_edge st node source target p q :
  source_loc source = Some p -> p <> target ->
  (forall r, p = Reg r -> (r < length (moves_from_register_ st))%nat) ->
  targets_of (RecordMove node source target st) q
  = if decide (q = p) then add_target target (targets_of st p) else targets_of st q.
Proof.
  intros Hsrc Hne Hlen.
  destruct source as [r|s|]; simpl in Hsrc; [| |discriminate]; injection Hsrc as <-.
  - specialize (Hlen r eq_refl).
    assert (Hreg : forall v, targets_of (set_moves_from_register
                     (<[r := v]> (moves_from_register_ st)) st) q
                   = if decide (q = Reg r) then v else targets_of st q).
    { intros v. destruct q as [r'|s']; simpl; unfold targets_from_register; simpl.
      - rewrite list_lookup_total_insert.
        destruct (decide (r = r')) as [->|Hr].
        + rewrite decide_True by auto. rewrite decide_True by reflexivity. reflexivity.
        + rewrite decide_False by (intros [? _]; contradiction).
          rewrite decide_False by congruence. reflexivity.
      - reflexivity. }
    destruct target as [d|k]; simpl.
    + rewrite decide_True by congruence. apply Hreg.
    + apply Hreg.
  - assert (Hslot : forall v, targets_of (set_moves_from_stack_slot
                      (<[s := v]> (moves_from_stack_slot_ st)) st) q
                    = if decide (q = Slot s) then v else targets_of st q).
    { intros v. destruct q as [r'|s']; simpl; unfold targets_from_stack_slot; simpl.
      - reflexivity.
      - destruct (decide (s = s')) as [->|Hs].
        + rewrite lookup_insert_eq. rewrite decide_True by reflexivity. reflexivity.
        + rewrite lookup_insert_ne by exact Hs.
          rewrite decide_False by congruence. reflexivity. }
    destruct target as [d|k]; simpl.
    + apply Hslot.
    + rewrite decide_True by congruence. apply Hslot.
Qed.

Lemma RecordMove_edge_other st node source target p :
  source_loc source = Some p ->
  same_materializations st (RecordMove node source target st)
  /\ scratch_has_cycle_start_ (RecordMove node source target st)
     = scratch_has_cycle_start_ st
  /\ length (moves_from_register_ (RecordMove node source target st))
     = length (moves_from_register_ st).
Proof.
  intros Hsrc. destruct source as [r|s|]; simpl in Hsrc; [| |discriminate];
    destruct target as [d|k]; simpl; try destruct (decide _); simpl;
    rewrite ?length_insert; split_and!; try reflexivity; split; reflexivity.
Qed.

(** Recording a move of a location to itself changes nothing. *)
Lemma RecordMove_self st node source target :
  source_loc source = Some target -> RecordMove node source target st = st.
Proof.
  destruct source as [r|s|]; simpl; [| |discriminate]; intros [= <-]; simpl.
  - rewrite decide_False by auto. reflexivity.
  - rewrite decide_False by auto. reflexivity.
Qed.

(** Recording a materialising move leaves the graph alone. *)
Lemma RecordMove_constant st node target :
  let st' := RecordMove node ConstantOperand target st in
  (forall p, targets_of st' p = targets_of st p)
  /\ scratch_has_cycle_start_ st' = scratch_has_cycle_start_ st
  /\ length (moves_from_register_ st') = length (moves_from_register_ st)
  /\ length (materializing_register_moves_ st') = length (materializing_register_moves_ st)
  /\ match target with
     | Reg r =>
         materializing_register_moves_ st' = <[r := Some node]> (materializing_register_moves_ st)
         /\ materializing_stack_slot_moves_ st' = materializing_stack_slot_moves_ st
     | Slot s =>
         materializing_register_moves_ st' = materializing_register_moves_ st
         /\ materializing_stack_slot_moves_ st'
            = materializing_stack_slot_moves_ st ++ [(s, node)]
     end.
Proof.
  destruct target as [r|s]; simpl; rewrite ?length_insert;
    (split_and!; try reflexivity; intros [?|?]; reflexivity).
Qed.

(** What [record_moves] has built after the moves [moves]. *)
Record Recorded (moves : list GapMove) (st : Resolver) : Prop := mkRecorded {
  rec_len : length (moves_from_register_ st) = kNumRegisters;
  rec_len_mat : length (materializing_register_moves_ st) = kNumRegisters;
  rec_flag : scratch_has_cycle_start_ st = false;
  rec_ok : forall p, targets_ok (targets_of st p);
  rec_edges : forall p t,
    t ∈ get st p <->
    exists mv, mv ∈ moves /\ source_loc (move_source mv) = Some p
               /\ move_target mv = t /\ p <> t;
  rec_mat_reg : forall r n,
    mat_reg st r = Some n <->
    exists mv, mv ∈ moves /\ move_source mv = ConstantOperand
               /\ move_target mv = Reg r /\ move_node mv = n;
  rec_mat_slot : forall s n,
    (s, n) ∈ materializing_stack_slot_moves_ st <->
    exists mv, mv ∈ moves /\ move_source mv = ConstantOperand
               /\ move_target mv = Slot s /\ move_node mv = n;
  rec_mat_slot_nodup : NoDup (materializing_stack_slot_moves_ st).*1
}.

Lemma lookup_total_replicate_any {A} `{!Inhabited A} n (i : nat) (x : A) :
  x = inhabitant -> replicate n x !!! i = x.
Proof.
  intros ->. revert i. induction n as [|n IH]; intros [|i]; simpl; auto.
Qed.

Lemma Recorded_new : Recorded [] (new_resolver kNumRegisters).
Proof.
  assert (Hget : forall p, targets_of (new_resolver kNumRegisters) p = NoTargets).
  { intros [r|s]; simpl.
    - unfold targets_from_register. simpl.
      apply lookup_total_replicate_any. reflexivity.
    - reflexivity. }
  split; simpl.
  - apply length_replicate.
  - apply length_replicate.
  - reflexivity.
  - intros p. rewrite Hget. split; constructor.
  - intros p t. rewrite get_targets_of, Hget. split.
    + intros H. inversion H.
    + intros (mv & H & _). inversion H.
  - intros r n. unfold mat_reg. simpl.
    rewrite lookup_total_replicate_any by reflexivity. split.
    + discriminate.
    + intros (mv & H & _). inversion H.
  - intros s n. split.
    + intros H. inversion H.
    + intros (mv & H & _). inversion H.
  - constructor.
Qed.

Lemma in_degree_snoc moves mv :
  in_degree_le_1 (moves ++ [mv]) ->
  in_degree_le_1 moves
  /\ forall mv', mv' ∈ moves -> move_target mv' <> move_target mv.
Proof.
  unfold in_degree_le_1. rewrite fmap_app. intros H.
  apply NoDup_app in H as (Hnd & Hdis & _). split; [exact Hnd|].
  intros mv' Hin Heq. apply (Hdis (move_target mv')).
  - apply list_elem_of_fmap. eauto.
  - rewrite Heq. left.
Qed.

Lemma Recorded_snoc moves mv st :
  Recorded moves st ->
  in_degree_le_1 (moves ++ [mv]) -> allocated (moves ++ [mv]) ->
  Recorded (moves ++ [mv]) (record_move st mv).
Proof.
  intros [Hlen Hlenm Hflag Hok Hedges Hmr Hms Hmsnd] Hdeg Halloc.
  destruct (in_degree_snoc _ _ Hdeg) as [Hdeg' Hfresh].
  destruct (Halloc mv) as [Hsrc_al Htgt_al]; [apply elem_of_app; right; left|].
  assert (Hnot_tgt : forall p, move_target mv ∉ get st p).
  { intros p Hin. apply Hedges in Hin as (mv' & Hin' & _ & Heq & _).
    exact (Hfresh mv' Hin' Heq). }
  assert (Hin_snoc : forall (P : GapMove -> Prop),
            (exists mv', mv' ∈ moves ++ [mv] /\ P mv')
            <-> (exists mv', mv' ∈ moves /\ P mv') \/ P mv).
  { intros P. split.
    - intros (mv' & Hin & HP). apply elem_of_app in Hin as [Hin|Hin]; [left; eauto|].
      apply list_elem_of_singleton in Hin as ->. right. exact HP.
    - intros [(mv' & Hin & HP)|HP].
      + exists mv'. split; [apply elem_of_app; left; exact Hin|exact HP].
      + exists mv. split; [apply elem_of_app; right; left|exact HP]. }
  unfold record_move. destruct mv as [node source target]. simpl in *.
  destruct (source_loc source) as [p|] eqn:Hsrc.
  - (* a move between locations *)
    assert (Hconst : source <> ConstantOperand) by (intros ->; discriminate).
    destruct (decide (p = target)) as [->|Hne].
    + (* of a location to itself: nothing is recorded *)
      rewrite (RecordMove_self st node source target Hsrc).
      split; auto.
      * intros q t. rewrite Hedges, Hin_snoc. simpl. split; [auto|].
        intros [H|(Hs & <- & Hq)]; [exact H|]. congruence.
      * intros r n. rewrite Hmr, Hin_snoc. simpl. split; [auto|].
        intros [H|(Hs & _)]; [exact H|]. contradiction.
      * intros s n. rewrite Hms, Hin_snoc. simpl. split; [auto|].
        intros [H|(Hs & _)]; [exact H|]. contradiction.
    + assert (Hp_len : forall r, p = Reg r -> (r < length (moves_from_register_ st))%nat).
      { intros r ->. rewrite Hlen. apply allocatable_lt, Hsrc_al.
        destruct source; simpl in Hsrc; congruence. }
      pose proof (targets_of_record_edge st node source target p) as Htgts.
      destruct (RecordMove_edge_other st node source target p Hsrc)
        as ([Hm1 Hm2] & Hflag' & Hlen').
      split.
      * congruence.
      * congruence.
      * congruence.
      * intros q. rewrite Htgts by auto. destruct (decide (q = p)) as [->|]; [|apply Hok].
        apply targets_ok_add_target; [apply Hok|].
        rewrite <- get_targets_of. apply Hnot_tgt.
      * intros q t. rewrite get_targets_of, Htgts by auto. rewrite Hin_snoc. simpl.
        destruct (decide (q = p)) as [->|Hq].
        -- rewrite elem_of_add_target, <- get_targets_of, Hedges. split.
           ++ intros [->|H]; [right; auto|left; exact H].
           ++ intros [H|(_ & <- & _)]; [right; exact H|left; reflexivity].
        -- rewrite <- get_targets_of, Hedges. split; [auto|].
           intros [H|(Hs & _)]; [exact H|]. congruence.
      * intros r n. unfold mat_reg. rewrite Hm1. fold (mat_reg st r).
        rewrite Hmr, Hin_snoc. simpl. split; [auto|].
        intros [H|(Hs & _)]; [exact H|]. contradiction.
      * intros s n. rewrite Hm2, Hms, Hin_snoc. simpl. split; [auto|].
        intros [H|(Hs & _)]; [exact H|]. contradiction.
      * rewrite Hm2. exact Hmsnd.
  - (* a materialising move *)
    assert (Hconst : source = ConstantOperand) by (destruct source; simpl in Hsrc; congruence).
    subst source.
    destruct (RecordMove_constant st node target) as (Hget & Hflag' & Hlen' & Hlenm' & Hmat).
    assert (Hget' : forall q, get (RecordMove node ConstantOperand target st) q = get st q).
    { intros q. rewrite !get_targets_of, Hget. reflexivity. }
    split.
    + congruence.
    + congruence.
    + congruence.
    + intros q. rewrite Hget. apply Hok.
    + intros q t. rewrite Hget', Hedges, Hin_snoc. simpl. split; [auto|].
      intros [H|(Hs & _)]; [exact H|]. discriminate.
    + intros r n. rewrite Hin_snoc. simpl. destruct target as [d|k].
      * destruct Hmat as [Hmat _]. unfold mat_reg. rewrite Hmat.
        rewrite list_lookup_total_insert. fold (mat_reg st r).
        destruct (decide (d = r)) as [->|Hd].
        -- rewrite decide_True.
           2:{ split; [reflexivity|]. rewrite Hlenm. apply allocatable_lt, Htgt_al. reflexivity. }
           split; [intros [= ->]; right; auto|].
           intros [(mv' & Hin & _ & Heq & _)|(_ & _ & ->)]; [|reflexivity].
           exfalso. exact (Hfresh mv' Hin Heq).
        -- rewrite decide_False by (intros [? _]; contradiction).
           rewrite Hmr. split; [auto|]. intros [H|(_ & [= ?] & _)]; [exact H|contradiction].
      * destruct Hmat as [Hmat _]. unfold mat_reg. rewrite Hmat. fold (mat_reg st r).
        rewrite Hmr. split; [auto|]. intros [H|(_ & [=] & _)]. exact H.
    + intros s n. rewrite Hin_snoc. simpl. destruct target as [d|k].
      * destruct Hmat as [_ Hmat]. rewrite Hmat, Hms. split; [auto|].
        intros [H|(_ & [=] & _)]. exact H.
      * destruct Hmat as [_ Hmat]. rewrite Hmat, elem_of_app, list_elem_of_singleton, Hms.
        split.
        -- intros [H|[= -> ->]]; [left; exact H|right; auto].
        -- intros [H|(_ & [= ->] & ->)]; [left; exact H|right; reflexivity].
    + destruct target as [d|k]; destruct Hmat as [_ Hmat]; rewrite Hmat; [exact Hmsnd|].
      rewrite fmap_app. apply NoDup_app. split_and!; [exact Hmsnd| |apply NoDup_singleton].
      intros x Hx Hx'. simpl in Hx'. apply list_elem_of_singleton in Hx' as ->.
      apply list_elem_of_fmap in Hx as ([s n] & Hs & Hin). simpl in Hs. subst s.
      apply Hms in Hin as (mv' & Hin & _ & Heq & _). exact (Hfresh mv' Hin Heq).
Qed.

Lemma Recorded_record_moves moves :
  in_degree_le_1 moves -> allocated moves ->
  Recorded moves (record_moves moves (new_resolver kNumRegisters)).
Proof.
  induction moves as [|mv moves IH] using rev_ind; intros Hdeg Halloc.
  - apply Recorded_new.
  - unfold record_moves. rewrite foldl_snoc. apply Recorded_snoc; auto.
    apply IH.
    + apply (in_degree_snoc _ _ Hdeg).
    + intros mv' Hin. apply Halloc. apply elem_of_app. left. exact Hin.
Qed.

Lemma in_degree_unique moves mv mv' :
  in_degree_le_1 moves -> mv ∈ moves -> mv' ∈ moves ->
  move_target mv = move_target mv' -> mv = mv'.
Proof.
  unfold in_degree_le_1. induction moves as [|x moves IH]; intros Hnd Hin Hin' Heq.
  - inversion Hin.
  - simpl in Hnd. apply NoDup_cons in Hnd as [Hx Hnd].
    apply elem_of_cons in Hin as [->|Hin]; apply elem_of_cons in Hin' as [->|Hin']; auto.
    + exfalso. apply Hx. rewrite Heq. apply list_elem_of_fmap. eauto.
    + exfalso. apply Hx. rewrite <- Heq. apply list_elem_of_fmap. eauto.
Qed.

Lemma ResolverOK_Recorded moves st :
  Recorded moves st -> in_degree_le_1 moves -> allocated moves -> ResolverOK st.
Proof.
  intros [Hlen Hlenm Hflag Hok Hedges Hmr Hms Hmsnd] Hdeg Halloc.
  assert (Hsrc_reg : forall mv r, mv ∈ moves -> source_loc (move_source mv) = Some (Reg r) ->
            r ∈ kAllocatableRegistersT).
  { intros mv r Hin Hs. apply (proj1 (Halloc mv Hin)). revert Hs.
    destruct (move_source mv); simpl; intros [=]; congruence. }
  split; [split| | | | |].
  - intros p q t Hp Hq. apply Hedges in Hp as (mv & Hin & Hs & Ht & _).
    apply Hedges in Hq as (mv' & Hin' & Hs' & Ht' & _).
    assert (mv = mv') by (eapply in_degree_unique; eauto; congruence). subst mv'.
    congruence.
  - intros p. rewrite get_targets_of. apply NoDup_locs_of, Hok.
  - destruct (get st (Reg kScratchRegT)) as [|t ts] eqn:Hg; [reflexivity|].
    exfalso. assert (Ht : t ∈ get st (Reg kScratchRegT)) by (rewrite Hg; left).
    apply Hedges in Ht as (mv & Hin & Hs & _).
    apply scratch_not_allocatable. eapply Hsrc_reg; eauto.
  - intros p Hp. apply Hedges in Hp as (mv & Hin & _ & Ht & _).
    apply scratch_not_allocatable. apply (proj2 (Halloc mv Hin)). exact Ht.
  - intros p Hp. apply Hedges in Hp as (mv & _ & _ & _ & Hne). contradiction.
  - exact Hflag.
  - intros r Hr. destruct (get st (Reg r)) as [|t ts] eqn:Hg; [contradiction|].
    assert (Ht : t ∈ get st (Reg r)) by (rewrite Hg; left).
    apply Hedges in Ht as (mv & Hin & Hs & _). eapply Hsrc_reg; eauto.
  - intros r n Hn. apply Hmr in Hn as (mv & Hin & Hs & Ht & _). split.
    + apply (proj2 (Halloc mv Hin)). exact Ht.
    + intros p Hp. apply Hedges in Hp as (mv' & Hin' & Hs' & Ht' & _).
      assert (mv = mv') by (eapply in_degree_unique; eauto; congruence). subst mv'.
      rewrite Hs in Hs'. discriminate.
  - exact Hmsnd.
  - intros s n p Hin Hp. apply Hms in Hin as (mv & Hin & Hs & Ht & _).
    apply Hedges in Hp as (mv' & Hin' & Hs' & Ht' & _).
    assert (mv = mv') by (eapply in_degree_unique; eauto; congruence). subst mv'.
    rewrite Hs in Hs'. discriminate.
Qed.

(* --------------------------------------------------------------------- *)
(** ** The properties of the resolver *)

Lemma recorded_ok moves :
  in_degree_le_1 moves -> allocated moves ->
  Recorded moves (record_moves moves (new_resolver kNumRegisters))
  /\ ResolverOK (record_moves moves (new_resolver kNumRegisters)).
Proof.
  intros Hdeg Halloc.
  pose proof (Recorded_record_moves moves Hdeg Halloc) as Hrec.
  split; [exact Hrec|]. eapply ResolverOK_Recorded; eauto.
Qed.

(** C1.  For every move set with in-degree at most one (over the allocatable
    registers of the class), recording it and running the code of
    [EmitMoves] on the reference interpreter ends, on every machine state,
    in the state the simultaneous assignment gives: every location other
    than the scratch register holds the value [simultaneous] assigns to it,
    and the native stack is as it was. *)
Theorem EmitMoves_equals_simultaneous_assignment (moves : list GapMove) (m : Machine) :
  in_degree_le_1 moves -> allocated moves ->
  exists st' code m',
    EmitMoves (record_moves moves (new_resolver kNumRegisters)) = Some (st', code)
    /\ exec code m = Some m'
    /\ (forall l, l <> Reg kScratchRegT -> read m' l = simultaneous moves m l)
    /\ native_stack m' = native_stack m.
Proof.
  intros Hdeg Halloc.
  destruct (recorded_ok moves Hdeg Halloc) as [Hrec Hok].
  set (st := record_moves moves (new_resolver kNumRegisters)) in *.
  destruct (EmitMoves_simultaneous st m Hok)
    as (st' & code & m' & Hemit & Hex & (Hedge & Hmr & Hms & Hframe & Hstk) & _).
  exists st', code, m'. split_and!; auto.
  intros l Hl. unfold simultaneous.
  destruct (List.find _ moves) as [mv|] eqn:Hfind.
  - apply List.find_some in Hfind as [Hin Ht].
    apply list_elem_of_In in Hin. apply bool_decide_eq_true in Ht.
    unfold source_value. destruct (source_loc (move_source mv)) as [p|] eqn:Hsrc.
    + destruct (decide (p = l)) as [->|Hne].
      * (* a move of [l] to itself *)
        assert (Hother : forall mv', mv' ∈ moves -> move_target mv' = l -> mv' = mv).
        { intros mv' Hin' Ht'. eapply in_degree_unique; eauto. congruence. }
        apply Hframe; [exact Hl| | |].
        -- intros q Hq. apply (rec_edges _ _ Hrec) in Hq as (mv' & Hin' & Hs' & Ht' & Hq).
           rewrite (Hother mv' Hin' Ht') in Hs'. congruence.
        -- intros r n -> Hn. apply (rec_mat_reg _ _ Hrec) in Hn as (mv' & Hin' & Hs' & Ht' & _).
           rewrite (Hother mv' Hin' Ht') in Hs'. rewrite Hs' in Hsrc. discriminate.
        -- intros s n -> Hn. apply (rec_mat_slot _ _ Hrec) in Hn as (mv' & Hin' & Hs' & Ht' & _).
           rewrite (Hother mv' Hin' Ht') in Hs'. rewrite Hs' in Hsrc. discriminate.
      * apply Hedge. apply (rec_edges _ _ Hrec). exists mv. auto.
    + assert (Hc : move_source mv = ConstantOperand).
      { destruct (move_source mv); simpl in Hsrc; congruence. }
      destruct l as [r|s].
      * apply Hmr. apply (rec_mat_reg _ _ Hrec). exists mv. auto.
      * apply Hms. apply (rec_mat_slot _ _ Hrec). exists mv. auto.
  - assert (Hnone : forall mv, mv ∈ moves -> move_target mv <> l).
    { intros mv Hin Ht. apply list_elem_of_In in Hin.
      pose proof (List.find_none _ _ Hfind mv Hin) as Hb. simpl in Hb.
      apply bool_decide_eq_false in Hb. contradiction. }
    apply Hframe; [exact Hl| | |].
    + intros q Hq. apply (rec_edges _ _ Hrec) in Hq as (mv' & Hin' & _ & Ht' & _).
      exact (Hnone mv' Hin' Ht').
    + intros r n -> Hn. apply (rec_mat_reg _ _ Hrec) in Hn as (mv' & Hin' & _ & Ht' & _).
      exact (Hnone mv' Hin' Ht').
    + intros s n -> Hn. apply (rec_mat_slot _ _ Hrec) in Hn as (mv' & Hin' & _ & Ht' & _).
      exact (Hnone mv' Hin' Ht').
Qed.

(* --------------------------------------------------------------------- *)
(** ** Recorded move sets, for the callers of the resolver *)

(** What recording a move set and emitting it does to a machine state. *)
Lemma EmitMoves_record_moves_spec (moves : list GapMove) (m : Machine) :
  in_degree_le_1 moves -> allocated moves ->
  exists st' code m',
    EmitMoves (record_moves moves (new_resolver kNumRegisters)) = Some (st', code)
    /\ exec code m = Some m'
    /\ (forall l, l <> Reg kScratchRegT -> read m' l = simultaneous moves m l)
    /\ native_stack m' = native_stack m.
Proof.
  intros Hdeg Halloc.
  destruct (recorded_ok moves Hdeg Halloc) as [Hrec Hok].
  set (st := record_moves moves (new_resolver kNumRegisters)) in *.
  destruct (EmitMoves_simultaneous st m Hok)
    as (st' & code & m' & Hemit & Hex & (Hedge & Hmr & Hms & Hframe & Hstk) & _).
  exists st', code, m'. split_and!; auto.
  intros l Hl. unfold simultaneous.
  destruct (List.find _ moves) as [mv|] eqn:Hfind.
  - apply List.find_some in Hfind as [Hin Ht].
    apply list_elem_of_In in Hin. apply bool_decide_eq_true in Ht.
    unfold source_value. destruct (source_loc (move_source mv)) as [p|] eqn:Hsrc.
    + destruct (decide (p = l)) as [->|Hne].
      * (* a move of [l] to itself *)
        assert (Hother : forall mv', mv' ∈ moves -> move_target mv' = l -> mv' = mv).
        { intros mv' Hin' Ht'. eapply in_degree_unique; eauto. congruence. }
        apply Hframe; [exact Hl| | |].
        -- intros q Hq. apply (rec_edges _ _ Hrec) in Hq as (mv' & Hin' & Hs' & Ht' & Hq).
           rewrite (Hother mv' Hin' Ht') in Hs'. congruence.
        -- intros r n -> Hn. apply (rec_mat_reg _ _ Hrec) in Hn as (mv' & Hin' & Hs' & Ht' & _).
           rewrite (Hother mv' Hin' Ht') in Hs'. rewrite Hs' in Hsrc. discriminate.
        -- intros s n -> Hn. apply (rec_mat_slot _ _ Hrec) in Hn as (mv' & Hin' & Hs' & Ht' & _).
           rewrite (Hother mv' Hin' Ht') in Hs'. rewrite Hs' in Hsrc. discriminate.
      * apply Hedge. apply (rec_edges _ _ Hrec). exists mv. auto.
    + assert (Hc : move_source mv = ConstantOperand).
      { destruct (move_source mv); simpl in Hsrc; congruence. }
      destruct l as [r|s].
      * apply Hmr. apply (rec_mat_reg _ _ Hrec). exists mv. auto.
      * apply Hms. apply (rec_mat_slot _ _ Hrec). exists mv. auto.
  - assert (Hnone : forall mv, mv ∈ moves -> move_target mv <> l).
    { intros mv Hin Ht. apply list_elem_of_In in Hin.
      pose proof (List.find_none _ _ Hfind mv Hin) as Hb. simpl in Hb.
      apply bool_decide_eq_false in Hb. contradiction. }
    apply Hframe; [exact Hl| | |].
    + intros q Hq. apply (rec_edges _ _ Hrec) in Hq as (mv' & Hin' & _ & Ht' & _).
      exact (Hnone mv' Hin' Ht').
    + intros r n -> Hn. apply (rec_mat_reg _ _ Hrec) in Hn as (mv' & Hin' & _ & Ht' & _).
      exact (Hnone mv' Hin' Ht').
    + intros s n -> Hn. apply (rec_mat_slot _ _ Hrec) in Hn as (mv' & Hin' & _ & Ht' & _).
      exact (Hnone mv' Hin' Ht').
Qed.

(** With in-degree at most one, a target gets the value of its move. *)
Lemma simultaneous_target (moves : list GapMove) (m : Machine) (mv : GapMove) :
  in_degree_le_1 moves -> mv ∈ moves ->
  simultaneous moves m (move_target mv) = source_value m mv.
Proof.
  intros Hdeg Hin. unfold simultaneous.
  destruct (List.find _ moves) as [mv'|] eqn:Hfind.
  - apply List.find_some in Hfind as [Hin' Ht].
    apply list_elem_of_In in Hin'. apply bool_decide_eq_true in Ht.
    rewrite (in_degree_unique moves mv' mv Hdeg Hin' Hin Ht). reflexivity.
  - apply list_elem_of_In in Hin.
    pose proof (List.find_none _ _ Hfind mv Hin) as Hb. simpl in Hb.
    apply bool_decide_eq_false in Hb. contradiction.
Qed.

(* --------------------------------------------------------------------- *)
(** ** The [DEBUG] checks of [RecordMove] (l. 166-210)

    In a [DEBUG] build [RecordMoveToRegister] and [RecordMoveToStackSlot]
    first look for an existing move to their target and end in [FATAL] when
    there is one. *)

(** [RegListBase::has]. *)
Definition has (r : RegisterT) (l : list RegisterT) : bool := bool_decide (r ∈ l).

(** [CheckNoExistingMoveToRegister]; [false]: one of the [FATAL]s is
    reached. *)
Definition CheckNoExistingMoveToRegister (target_reg : RegisterT) (st : Resolver)
    : bool :=
  forallb (fun reg => negb (has target_reg (registers (targets_from_register reg st))))
    kAllocatableRegistersT
  && forallb (fun '(stack_slot, targets) => negb (has target_reg (registers targets)))
       (map_to_list (moves_from_stack_slot_ st))
  && match materializing_register_moves_ st !!! target_reg with
     | None => true
     | Some _ => false
     end.

(** [CheckNoExistingMoveToStackSlot]. *)
Definition CheckNoExistingMoveToStackSlot (target_slot : Z) (st : Resolver) : bool :=
  forallb (fun reg =>
             negb (existsb (fun slot => slot =? target_slot)
                     (stack_slots (targets_from_register reg st))))
    kAllocatableRegistersT
  && forallb (fun '(stack_slot, targets) =>
                negb (existsb (fun slot => slot =? target_slot) (stack_slots targets)))
       (map_to_list (moves_from_stack_slot_ st))
  && forallb (fun '(stack_slot, node) => negb (stack_slot =? target_slot))
       (materializing_stack_slot_moves_ st).

(** The [DEBUG] build of the recording functions; [None]: [FATAL]. *)
Definition RecordMoveToRegister_DEBUG (node : ValueNode) (source : InstructionOperand)
    (target_reg : RegisterT) (st : Resolver) : option Resolver :=
  if CheckNoExistingMoveToRegister target_reg st
  then Some (RecordMoveToRegister node source target_reg st)
  else None.

Definition RecordMoveToStackSlot_DEBUG (node : ValueNode) (source : InstructionOperand)
    (target_slot : Z) (st : Resolver) : option Resolver :=
  if CheckNoExistingMoveToStackSlot target_slot st
  then Some (RecordMoveToStackSlot node source target_slot st)
  else None.

Definition RecordMove_DEBUG (node : ValueNode) (source : InstructionOperand)
    (target : AllocatedOperand) (st : Resolver) : option Resolver :=
  match target with
  | Reg r => RecordMoveToRegister_DEBUG node source r st
  | Slot s => RecordMoveToStackSlot_DEBUG node source s st
  end.

Definition record_move_DEBUG (st : option Resolver) (mv : GapMove) : option Resolver :=
  st ≫= RecordMove_DEBUG (move_node mv) (move_source mv) (move_target mv).

(** The moves recorded in order by a [DEBUG] build. *)
Definition record_moves_DEBUG (moves : list GapMove) (st : Resolver) : option Resolver :=
  foldl record_move_DEBUG (Some st) moves.

(** The check of a target, whatever its kind. *)
Definition CheckNoExistingMove (target : Loc) (st : Resolver) : bool :=
  match target with
  | Reg r => CheckNoExistingMoveToRegister r st
  | Slot s => CheckNoExistingMoveToStackSlot s st
  end.

Lemma RecordMove_DEBUG_check node source target st :
  RecordMove_DEBUG node source target st
  = if CheckNoExistingMove target st then Some (RecordMove node source target st) else None.
Proof. destruct target; reflexivity. Qed.

Lemma existsb_eqb_slot (k : Z) (l : list Z) :
  existsb (fun slot => slot =? k) l = true <-> k ∈ l.
Proof.
  rewrite List.existsb_exists. split.
  - intros (x & Hin & Heq). apply Z.eqb_eq in Heq as ->. apply list_elem_of_In, Hin.
  - intros Hin. exists k. split; [apply list_elem_of_In, Hin|apply Z.eqb_refl].
Qed.

(** What it takes for the map of stack slot sources to hold an edge. *)
Lemma get_slot_map st s t :
  t ∈ get st (Slot s) <->
  exists targets, (s, targets) ∈ map_to_list (moves_from_stack_slot_ st)
                  /\ t ∈ locs_of targets.
Proof.
  unfold get, targets_from_stack_slot. split.
  - destruct (moves_from_stack_slot_ st !! s) as [targets|] eqn:Hs; simpl.
    + intros Ht. exists targets. split; [apply elem_of_map_to_list, Hs|exact Ht].
    + intros Ht. inversion Ht.
  - intros (targets & Hin & Ht). apply elem_of_map_to_list in Hin.
    rewrite Hin. exact Ht.
Qed.

(** The check passes when nothing is recorded for the target. *)
Lemma CheckNoExistingMove_passes target st :
  (forall p, target ∉ get st p) ->
  (forall r, target = Reg r -> mat_reg st r = None) ->
  (forall s n, target = Slot s -> (s, n) ∉ materializing_stack_slot_moves_ st) ->
  CheckNoExistingMove target st = true.
Proof.
  intros Hedge Hreg Hslot. destruct target as [r|k]; simpl.
  - unfold CheckNoExistingMoveToRegister.
    rewrite !andb_true_iff. split_and!.
    + apply List.forallb_forall. intros reg _. apply negb_true_iff.
      unfold has. apply bool_decide_eq_false. intros Hin.
      apply (Hedge (Reg reg)). unfold get. apply elem_of_locs_of. left. eauto.
    + apply List.forallb_forall. intros [s targets] Hin. apply negb_true_iff.
      unfold has. apply bool_decide_eq_false. intros Hr.
      apply (Hedge (Slot s)). apply get_slot_map. exists targets.
      split; [apply list_elem_of_In, Hin|]. apply elem_of_locs_of. left. eauto.
    + specialize (Hreg r eq_refl). unfold mat_reg in Hreg. rewrite Hreg. reflexivity.
  - unfold CheckNoExistingMoveToStackSlot.
    rewrite !andb_true_iff. split_and!.
    + apply List.forallb_forall. intros reg _. apply negb_true_iff.
      apply not_true_is_false. rewrite existsb_eqb_slot. intros Hin.
      apply (Hedge (Reg reg)). unfold get. apply elem_of_locs_of. right. eauto.
    + apply List.forallb_forall. intros [s targets] Hin. apply negb_true_iff.
      apply not_true_is_false. rewrite existsb_eqb_slot. intros Hk.
      apply (Hedge (Slot s)). apply get_slot_map. exists targets.
      split; [apply list_elem_of_In, Hin|]. apply elem_of_locs_of. right. eauto.
    + apply List.forallb_forall. intros [s n] Hin. apply negb_true_iff.
      apply Z.eqb_neq. intros ->. apply (Hslot k n eq_refl), list_elem_of_In, Hin.
Qed.

(** The check fails when an edge from an allocatable register or from a
    stack slot leads to the target, or a materialising move is recorded for
    it. *)
Lemma CheckNoExistingMove_fails target st :
  (exists p, target ∈ get st p /\ forall r, p = Reg r -> r ∈ kAllocatableRegistersT)
  \/ (exists r n, target = Reg r /\ mat_reg st r = Some n)
  \/ (exists s n, target = Slot s /\ (s, n) ∈ materializing_stack_slot_moves_ st) ->
  CheckNoExistingMove target st = false.
Proof.
  intros [(p & Hin & Hp)|[(r & n & -> & Hn)|(s & n & -> & Hn)]].
  - assert (Hregs : forall (f : RegisterT -> bool) reg,
              reg ∈ kAllocatableRegistersT -> f reg = false ->
              forallb f kAllocatableRegistersT = false).
    { intros f reg Hreg Hf. apply not_true_is_false. intros Hall.
      rewrite List.forallb_forall in Hall.
      rewrite (Hall reg) in Hf by (apply list_elem_of_In, Hreg). discriminate. }
    assert (Hmap : forall (f : Z * GapMoveTargets -> bool) x,
              x ∈ map_to_list (moves_from_stack_slot_ st) -> f x = false ->
              forallb f (map_to_list (moves_from_stack_slot_ st)) = false).
    { intros f x Hx Hf. apply not_true_is_false. intros Hall.
      rewrite List.forallb_forall in Hall.
      rewrite (Hall x) in Hf by (apply list_elem_of_In, Hx). discriminate. }
    destruct p as [reg|s].
    + specialize (Hp reg eq_refl). unfold get in Hin.
      apply elem_of_locs_of in Hin as [(r & -> & Hr)|(k & -> & Hk)]; simpl.
      * unfold CheckNoExistingMoveToRegister.
        rewrite (Hregs _ reg Hp); [reflexivity|].
        apply negb_false_iff, bool_decide_eq_true, Hr.
      * unfold CheckNoExistingMoveToStackSlot.
        rewrite (Hregs _ reg Hp); [reflexivity|].
        apply negb_false_iff, existsb_eqb_slot, Hk.
    + apply get_slot_map in Hin as (targets & Hs & Hin).
      apply elem_of_locs_of in Hin as [(r & -> & Hr)|(k & -> & Hk)]; simpl.
      * unfold CheckNoExistingMoveToRegister.
        rewrite (Hmap _ (s, targets) Hs); [apply andb_false_iff; left; apply andb_false_r|].
        apply negb_false_iff, bool_decide_eq_true, Hr.
      * unfold CheckNoExistingMoveToStackSlot.
        rewrite (Hmap _ (s, targets) Hs); [apply andb_false_iff; left; apply andb_false_r|].
        apply negb_false_iff, existsb_eqb_slot, Hk.
  - simpl. unfold CheckNoExistingMoveToRegister. unfold mat_reg in Hn. rewrite Hn.
    apply andb_false_r.
  - simpl. unfold CheckNoExistingMoveToStackSlot.
    apply andb_false_iff. right. apply not_true_is_false. intros Hall.
    rewrite List.forallb_forall in Hall.
    specialize (Hall (s, n) (proj1 (list_elem_of_In _ _) Hn)). simpl in Hall.
    rewrite Z.eqb_refl in Hall. discriminate.
Qed.

Lemma forallb_false_elem {A} (f : A -> bool) (l : list A) :
  forallb f l = false -> exists x, x ∈ l /\ f x = false.
Proof.
  induction l as [|a l IH]; simpl; [discriminate|].
  destruct (f a) eqn:Hfa; simpl.
  - intros H. destruct (IH H) as (x & Hx & Hf). exists x. split; [right; exact Hx|exact Hf].
  - intros _. exists a. split; [left|exact Hfa].
Qed.

(** A failed check has found something recorded for the target. *)
Lemma CheckNoExistingMove_fails_inv target st :
  CheckNoExistingMove target st = false ->
  (exists p, target ∈ get st p)
  \/ (exists r n, target = Reg r /\ mat_reg st r = Some n)
  \/ (exists s n, target = Slot s /\ (s, n) ∈ materializing_stack_slot_moves_ st).
Proof.
  destruct target as [r|k]; simpl.
  - unfold CheckNoExistingMoveToRegister. rewrite !andb_false_iff.
    intros [[H|H]|H].
    + apply forallb_false_elem in H as (reg & _ & H).
      apply negb_false_iff, bool_decide_eq_true in H.
      left. exists (Reg reg). unfold get. apply elem_of_locs_of. left. eauto.
    + apply forallb_false_elem in H as ([s targets] & Hin & H).
      apply negb_false_iff, bool_decide_eq_true in H.
      left. exists (Slot s). apply get_slot_map. exists targets. split; [exact Hin|].
      apply elem_of_locs_of. left. eauto.
    + right. left. unfold mat_reg. revert H.
      destruct (materializing_register_moves_ st !!! r) as [n|] eqn:Hn; [|discriminate].
      intros _. exists r, n. split; [reflexivity|exact Hn].
  - unfold CheckNoExistingMoveToStackSlot. rewrite !andb_false_iff.
    intros [[H|H]|H].
    + apply forallb_false_elem in H as (reg & _ & H).
      apply negb_false_iff, existsb_eqb_slot in H.
      left. exists (Reg reg). unfold get. apply elem_of_locs_of. right. eauto.
    + apply forallb_false_elem in H as ([s targets] & Hin & H).
      apply negb_false_iff, existsb_eqb_slot in H.
      left. exists (Slot s). apply get_slot_map. exists targets. split; [exact Hin|].
      apply elem_of_locs_of. right. eauto.
    + apply forallb_false_elem in H as ([s n] & Hin & H).
      apply negb_false_iff, Z.eqb_eq in H. subst s.
      right. right. eauto.
Qed.

Lemma record_moves_DEBUG_snoc moves mv st :
  record_moves_DEBUG (moves ++ [mv]) st
  = record_moves_DEBUG moves st
      ≫= RecordMove_DEBUG (move_node mv) (move_source mv) (move_target mv).
Proof. unfold record_moves_DEBUG. rewrite foldl_snoc. reflexivity. Qed.

(** Every check passes while the targets are fresh. *)
Lemma record_moves_DEBUG_recorded (moves : list GapMove) :
  in_degree_le_1 moves -> allocated moves ->
  record_moves_DEBUG moves (new_resolver kNumRegisters)
  = Some (record_moves moves (new_resolver kNumRegisters)).
Proof.
  induction moves as [|mv moves IH] using rev_ind; intros Hdeg Halloc; [reflexivity|].
  destruct (in_degree_snoc _ _ Hdeg) as [Hdeg' Hfresh].
  assert (Halloc' : allocated moves).
  { intros mv' Hin. apply Halloc. apply elem_of_app. left. exact Hin. }
  rewrite record_moves_DEBUG_snoc, (IH Hdeg' Halloc'). simpl.
  pose proof (Recorded_record_moves moves Hdeg' Halloc') as Hrec.
  unfold record_moves at 2. rewrite foldl_snoc. fold (record_moves moves).
  rewrite RecordMove_DEBUG_check, CheckNoExistingMove_passes; [reflexivity| | |].
  - intros p Hin. apply (rec_edges _ _ Hrec) in Hin as (mv' & Hin' & _ & Heq & _).
    exact (Hfresh mv' Hin' Heq).
  - intros r Hr. destruct (mat_reg _ r) as [n|] eqn:Hn; [|reflexivity].
    apply (rec_mat_reg _ _ Hrec) in Hn as (mv' & Hin' & _ & Heq & _).
    exfalso. apply (Hfresh mv' Hin'). congruence.
  - intros s n Hs Hin. apply (rec_mat_slot _ _ Hrec) in Hin as (mv' & Hin' & _ & Heq & _).
    apply (Hfresh mv' Hin'). congruence.
Qed.

(** A move as [RecordMove] records it: not of a location to itself. *)
Definition records_something (mv : GapMove) : Prop :=
  source_loc (move_source mv) <> Some (move_target mv).

(** The [DEBUG] checks decide the in-degree invariant.  Over allocatable
    registers, a move set with in-degree at most one is recorded without
    reaching a [FATAL], and gives the resolver state of the release build;
    recording one more move then ends in [FATAL] exactly when its target is
    the target of a move already recorded (moves of a location to itself
    record nothing and are not seen by the checks). *)
Theorem record_moves_DEBUG_fatal_iff (moves : list GapMove) (mv : GapMove) :
  in_degree_le_1 moves -> allocated moves ->
  record_moves_DEBUG moves (new_resolver kNumRegisters)
  = Some (record_moves moves (new_resolver kNumRegisters))
  /\ (record_moves_DEBUG (moves ++ [mv]) (new_resolver kNumRegisters) = None
      <-> exists mv', mv' ∈ moves /\ move_target mv' = move_target mv
                      /\ records_something mv').
Proof.
  intros Hdeg Halloc.
  pose proof (record_moves_DEBUG_recorded moves Hdeg Halloc) as Hsome.
  split; [exact Hsome|].
  rewrite record_moves_DEBUG_snoc, Hsome. simpl.
  pose proof (Recorded_record_moves moves Hdeg Halloc) as Hrec.
  rewrite RecordMove_DEBUG_check. split.
  - intros Hfatal.
    destruct (CheckNoExistingMove _ _) eqn:Hcheck; [discriminate|].
    apply CheckNoExistingMove_fails_inv in Hcheck
      as [(p & Hp)|[(r & n & Ht & Hn)|(s & n & Ht & Hn)]].
    + apply (rec_edges _ _ Hrec) in Hp as (mv' & Hin & Hs & Ht' & Hne).
      exists mv'. split_and!; auto.
      unfold records_something. rewrite Hs, Ht'. congruence.
    + apply (rec_mat_reg _ _ Hrec) in Hn as (mv' & Hin & Hc & Ht' & _).
      exists mv'. split_and!; [auto|congruence|].
      unfold records_something. rewrite Hc. discriminate.
    + apply (rec_mat_slot _ _ Hrec) in Hn as (mv' & Hin & Hc & Ht' & _).
      exists mv'. split_and!; [auto|congruence|].
      unfold records_something. rewrite Hc. discriminate.
  - intros (mv' & Hin & Heq & Hnotself). unfold records_something in Hnotself.
    rewrite CheckNoExistingMove_fails; [reflexivity|].
    rewrite <- Heq.
    destruct (source_loc (move_source mv')) as [p|] eqn:Hsrc.
    + left. exists p. split.
      * apply (rec_edges _ _ Hrec). exists mv'. split_and!; auto.
        intros Hp. apply Hnotself. rewrite Hp. reflexivity.
      * intros r ->. apply (proj1 (Halloc mv' Hin)).
        destruct (move_source mv'); simpl in Hsrc; congruence.
    + assert (Hc : move_source mv' = ConstantOperand).
      { destruct (move_source mv'); simpl in Hsrc; congruence. }
      right. destruct (move_target mv') as [r|s] eqn:Ht.
      * left. exists r, (move_node mv'). split; [reflexivity|].
        apply (rec_mat_reg _ _ Hrec). exists mv'. auto.
      * right. exists s, (move_node mv'). split; [reflexivity|].
        apply (rec_mat_slot _ _ Hrec). exists mv'. auto.
Qed.

(* --------------------------------------------------------------------- *)
(** ** What [EmitMoves] leaves of the resolver *)

Lemma EmitMoves_final_state st (m : Machine) :
  ResolverOK st ->
  exists st' code,
    EmitMoves st = Some (st', code)
    /\ (forall p, get st' p = [])
    /\ moves_from_stack_slot_ st' = ∅
    /\ scratch_has_cycle_start_ st' = false
    /\ same_materializations st st'.
Proof.
  intros Hok. unfold EmitMoves.
  destruct (EmitRegisterMoves_spec (S (pending_sources st)) st m kAllocatableRegistersT
              [] st m Hok (LoopInv_init st m (r_flag st Hok)))
    as (st1 & out1 & m1 & Hregs & Hex1 & Hinv1 & Hsu1 & Hpend1); [auto|lia|].
  rewrite Hregs. simpl in Hinv1.
  destruct (EmitStackSlotMoves_spec (S (pending_sources st)) st m kAllocatableRegistersT
              (S (pending_sources st)) st1 m1 Hok Hinv1)
    as (st2 & out2 & m2 & Hslots & Hex2 & Hinv2 & Hmap2 & Hsu2); [lia|lia|].
  rewrite Hslots.
  destruct Hinv2 as [Hstep Hflag Hstk Hdone Hmat].
  eexists _, _. split_and!; [reflexivity| |exact Hmap2|exact Hflag|].
  - intros [r|s]; [|apply get_slot_empty_map, Hmap2].
    destruct (decide (r ∈ kAllocatableRegistersT)) as [Hr|Hr]; [apply Hdone, Hr|].
    eapply graph_le_nil; [eapply Step_graph_le; exact Hstep|].
    destruct (get st (Reg r)) eqn:Hg; [reflexivity|].
    exfalso. apply Hr, (r_sources st Hok). rewrite Hg. discriminate.
  - exact (step_mat _ _ _ _ _ Hstep).
Qed.

(* --------------------------------------------------------------------- *)
(** ** Calling [StartEmitMoveChain] again *)

(** "Subsequent calls with the same source should emit no code": whatever
    the resolver state, once [StartEmitMoveChain] has returned for a source,
    a second call for that source emits nothing and leaves the move graph as
    it is. *)
Theorem StartEmitMoveChain_again_emits_no_code (fuel fuel' : nat) (source : Loc)
    (st st' : Resolver) (out : list Instr) :
  StartEmitMoveChain fuel source st = Some (st', out) ->
  exists st'',
    StartEmitMoveChain fuel' source st' = Some (st'', [])
    /\ forall p, get st'' p = get st' p.
Proof.
  intros Hfirst.
  destruct (StartEmitMoveChain_graph_instr _ _ _ _ _ Hfirst) as (_ & _ & Hnil & _).
  unfold StartEmitMoveChain. rewrite (PopTargets_split source st').
  assert (Hempty : is_empty (PopTargets source st').1 = true).
  { apply is_empty_locs. rewrite locs_PopTargets. exact Hnil. }
  rewrite Hempty. eexists. split; [reflexivity|].
  intros p. rewrite get_PopTargets. destruct (decide (p = source)) as [->|]; auto.
Qed.

End Resolver.

Arguments MoveRegReg {ValueNode} dst src.
Arguments MoveRegSlot {ValueNode} dst src.
Arguments MoveSlotReg {ValueNode} dst src.
Arguments PushReg {ValueNode} r.
Arguments PopReg {ValueNode} r.
Arguments LoadToRegister {ValueNode} node dst.
Arguments RecordComment {ValueNode} c.
Arguments mkGapMove {ValueNode} move_node move_source move_target.
Arguments move_node {ValueNode} g.
Arguments move_source {ValueNode} g.
Arguments move_target {ValueNode} g.
Arguments materializing_stack_slot_moves_ {ValueNode} r.
Arguments new_resolver {ValueNode} n.
Arguments record_move {ValueNode} st mv.
Arguments record_moves {ValueNode} moves st.
Arguments in_degree_le_1 {ValueNode} moves.
Arguments allocated {ValueNode} kAllocatableRegistersT moves.
Arguments get {ValueNode} st source.
Arguments EmitMoves {ValueNode} kScratchRegT kAllocatableRegistersT begin st.
Arguments EmitMaterializingStackSlotMoves {ValueNode} kScratchRegT l.
Arguments stack_use {ValueNode} kScratchRegT d code.
Arguments scratch_protocol {ValueNode} kScratchRegT s code.
Arguments scratch_values_used {ValueNode} kScratchRegT s code.
Arguments is_pop {ValueNode} i.
Arguments written_loc {ValueNode} i.
Arguments read_loc {ValueNode} i.
Arguments uses {ValueNode} r i.
Arguments exec {ValueNode Value} node_value code m.
Arguments read {Value} m l.
Arguments native_stack {Value} m.
Arguments simultaneous {ValueNode Value} node_value moves m l.

(** ** Properties of the emitted code that do not involve the machine *)

Section Code.

Variable ValueNode : Type.
Variable kScratchRegT : RegisterT.
Variable kAllocatableRegistersT : list RegisterT.
Variable begin : gmap Z GapMoveTargets -> option Z.
Variable kNumRegisters : nat.

Hypothesis scratch_not_allocatable : kScratchRegT ∉ kAllocatableRegistersT.
Hypothesis begin_spec : forall m : gmap Z GapMoveTargets,
  m <> ∅ -> exists k, begin m = Some k /\ is_Some (m !! k).
Hypothesis allocatable_lt : forall r, r ∈ kAllocatableRegistersT -> (r < kNumRegisters)%nat.

(** The code of [EmitMoves] for a recorded move set, with what is known of
    it: [EmitMoves] returns, its use of the native stack is balanced, and
    the code is made of chain instructions and register materialisations
    followed by the stack slot materialisations. *)
Lemma EmitMoves_recorded (moves : list (GapMove ValueNode)) :
  in_degree_le_1 moves -> allocated kAllocatableRegistersT moves ->
  let st := record_moves moves (new_resolver kNumRegisters) in
  exists st' graph_code,
    EmitMoves kScratchRegT kAllocatableRegistersT begin st
    = Some (st', graph_code
                 ++ EmitMaterializingStackSlotMoves kScratchRegT
                      (materializing_stack_slot_moves_ st))
    /\ stack_use kScratchRegT 0
         (graph_code ++ EmitMaterializingStackSlotMoves kScratchRegT
                          (materializing_stack_slot_moves_ st)) = Some 0%nat
    /\ Forall (emit_instr ValueNode kScratchRegT kAllocatableRegistersT st) graph_code
    /\ loads_are_final ValueNode kScratchRegT
         (graph_code ++ EmitMaterializingStackSlotMoves kScratchRegT
                          (materializing_stack_slot_moves_ st)).
Proof.
  intros Hdeg Halloc st.
  destruct (recorded_ok ValueNode kScratchRegT kAllocatableRegistersT
              scratch_not_allocatable kNumRegisters allocatable_lt moves Hdeg Halloc)
    as [Hrec Hok].
  fold st in Hrec, Hok.
  destruct (EmitMoves_simultaneous ValueNode kScratchRegT kAllocatableRegistersT begin
              unit (fun _ => tt) scratch_not_allocatable begin_spec st
              (mkMachine unit (fun _ => tt) (fun _ => tt) []) Hok)
    as (st' & code & _ & Hemit & _ & _ & Hsu).
  destruct (EmitMoves_code ValueNode kScratchRegT kAllocatableRegistersT begin
              scratch_not_allocatable st st' code Hemit)
    as (graph_code & -> & Hgraph & Hfinal).
  { intros r n Hn [p Hp].
    exact (proj2 (r_mat_reg _ _ _ _ Hok r n Hn) p Hp). }
  exists st', graph_code. auto.
Qed.

(** C2.  For every move set with in-degree at most one (over the
    allocatable registers of the class), the code of [EmitMoves] keeps its
    temporaries in the one scratch register of the register class: whatever
    it writes is a target of the move set or that scratch register; only the
    scratch register is ever pushed or popped, at no instruction is more
    than one value on the native stack ([stack_use]), and none is left at
    the end.  The code keeps to [scratch_protocol]: once the start of a
    cycle is committed to the scratch register, nothing is written to the
    scratch register until it has been pushed, and it is popped again before
    the cycle is closed.  Whatever the code puts in the scratch register is
    read before the scratch register is written again
    ([scratch_values_used]): a value that is still to be used is never
    overwritten, it is pushed first.  And on every machine, every push runs
    together with the next pop after it, both are of the scratch register,
    and the pop gives the scratch register the value it held at the push,
    with the native stack as it was. *)
Theorem EmitMoves_uses_one_scratch (moves : list (GapMove ValueNode)) :
  in_degree_le_1 moves -> allocated kAllocatableRegistersT moves ->
  exists st' code,
    EmitMoves kScratchRegT kAllocatableRegistersT begin
      (record_moves moves (new_resolver kNumRegisters)) = Some (st', code)
    /\ stack_use kScratchRegT 0 code = Some 0%nat
    /\ (forall i l, i ∈ code -> written_loc i = Some l ->
          l = Reg kScratchRegT \/ l ∈ move_target <$> moves)
    /\ scratch_protocol kScratchRegT ScratchFree code = Some ScratchFree
    /\ (exists sv,
          scratch_values_used kScratchRegT ScratchEmpty code = Some sv
          /\ sv <> ScratchUnread)
    /\ (forall (Value : Type) (node_value : ValueNode -> Value) (m : Machine Value)
               pre r mid r' post,
          code = pre ++ PushReg r :: mid ++ PopReg r' :: post ->
          Forall (fun i => is_pop i = false) mid ->
          exists m1 m2,
            exec node_value pre m = Some m1
            /\ exec node_value (PushReg r :: mid ++ [PopReg r']) m1 = Some m2
            /\ r = kScratchRegT /\ r' = kScratchRegT
            /\ read m2 (Reg kScratchRegT) = read m1 (Reg kScratchRegT)
            /\ native_stack m2 = native_stack m1).
Proof.
  intros Hdeg Halloc.
  destruct (recorded_ok ValueNode kScratchRegT kAllocatableRegistersT
              scratch_not_allocatable kNumRegisters allocatable_lt moves Hdeg Halloc)
    as [Hrec Hok].
  destruct (EmitMoves_recorded moves Hdeg Halloc) as (st' & graph_code & Hemit & Hsu & Hgraph & _).
  eexists _, _. split_and!; [exact Hemit|exact Hsu| | | |].
  - assert (Htarget : forall mv, mv ∈ moves -> move_target mv ∈ move_target <$> moves).
    { intros mv Hin. apply list_elem_of_fmap. eauto. }
    intros i l Hi Hw. apply elem_of_app in Hi as [Hi|Hi].
    + rewrite Forall_forall in Hgraph.
      destruct (Hgraph i Hi) as [(Hwr & _)|(node & r & -> & _ & Hn)].
      * destruct (Hwr l Hw) as [->|[p Hp]]; [left; reflexivity|right].
        apply (rec_edges _ _ _ _ Hrec) in Hp as (mv & Hin & _ & <- & _). auto.
      * injection Hw as <-. right.
        apply (rec_mat_reg _ _ _ _ Hrec) in Hn as (mv & Hin & _ & <- & _). auto.
    + apply EmitMaterializingStackSlotMoves_instr in Hi as [(node & ->)|(s & node & -> & Hin)].
      * injection Hw as <-. left. reflexivity.
      * injection Hw as <-. right.
        apply (rec_mat_slot _ _ _ _ Hrec) in Hin as (mv & Hin & _ & <- & _). auto.
  - exact (EmitMoves_protocol ValueNode kScratchRegT kAllocatableRegistersT begin
             unit (fun _ => tt) scratch_not_allocatable begin_spec _
             (mkMachine unit (fun _ => tt) (fun _ => tt) []) _ _ Hok Hemit).
  - exact (EmitMoves_values_used ValueNode kScratchRegT kAllocatableRegistersT begin
             unit (fun _ => tt) scratch_not_allocatable begin_spec _
             (mkMachine unit (fun _ => tt) (fun _ => tt) []) _ _ Hok Hemit).
  - intros Value node_value m pre r mid r' post Hcode Hmid.
    destruct (EmitMoves_simultaneous ValueNode kScratchRegT kAllocatableRegistersT begin
                Value node_value scratch_not_allocatable begin_spec _ m Hok)
      as (st'' & code' & m' & Hemit' & Hex & _).
    rewrite Hemit in Hemit'. injection Hemit' as <- <-.
    exact (push_is_restored ValueNode kScratchRegT Value node_value _ m m' pre r mid r' post
             Hsu Hex Hcode Hmid).
Qed.


(** The operand that names a location. *)
Definition operand_of (l : Loc) : InstructionOperand :=
  match l with
  | Reg r => RegisterOperand r
  | Slot s => StackSlotOperand s
  end.

(** C10.  Recording a move of a register or of a stack slot to itself
    leaves the resolver as it was -- no edge is added to the graph -- so the
    code [EmitMoves] emits for a move set with such a move in it is the code
    it emits for the move set without it. *)
Theorem RecordMove_self_move_is_no_op (node : ValueNode) (l : Loc)
    (st : Resolver ValueNode) (before after : list (GapMove ValueNode)) :
  RecordMove ValueNode node (operand_of l) l st = st
  /\ (forall p, get (RecordMove ValueNode node (operand_of l) l st) p = get st p)
  /\ EmitMoves kScratchRegT kAllocatableRegistersT begin
       (record_moves (before ++ mkGapMove node (operand_of l) l :: after) st)
     = EmitMoves kScratchRegT kAllocatableRegistersT begin
         (record_moves (before ++ after) st).
Proof.
  assert (Hself : forall st', RecordMove ValueNode node (operand_of l) l st' = st').
  { intros st'. apply RecordMove_self. destruct l; reflexivity. }
  split_and!.
  - apply Hself.
  - intros p. rewrite Hself. reflexivity.
  - unfold record_moves. rewrite !foldl_app. simpl. unfold record_move at 2. simpl.
    rewrite Hself. reflexivity.
Qed.

(** [EmitMoves] uses up the move graph: for every move set with in-degree
    at most one (over the allocatable registers of the class), no edge is
    left in the resolver when [EmitMoves] returns -- the map of stack slot
    sources is empty and no register has a target -- while the materialising
    moves stay recorded and the scratch register is free again. *)
Theorem EmitMoves_empties_move_graph (moves : list (GapMove ValueNode)) :
  in_degree_le_1 moves -> allocated kAllocatableRegistersT moves ->
  let st := record_moves moves (new_resolver kNumRegisters) in
  exists st' code,
    EmitMoves kScratchRegT kAllocatableRegistersT begin st = Some (st', code)
    /\ (forall p, get st' p = [])
    /\ moves_from_stack_slot_ ValueNode st' = ∅
    /\ scratch_has_cycle_start_ ValueNode st' = false
    /\ materializing_register_moves_ ValueNode st'
       = materializing_register_moves_ ValueNode st
    /\ materializing_stack_slot_moves_ st' = materializing_stack_slot_moves_ st.
Proof.
  intros Hdeg Halloc st.
  destruct (recorded_ok ValueNode kScratchRegT kAllocatableRegistersT
              scratch_not_allocatable kNumRegisters allocatable_lt moves Hdeg Halloc)
    as [_ Hok].
  fold st in Hok.
  destruct (EmitMoves_final_state ValueNode kScratchRegT kAllocatableRegistersT begin
              unit (fun _ => tt) scratch_not_allocatable begin_spec st
              (mkMachine unit (fun _ => tt) (fun _ => tt) []) Hok)
    as (st' & code & Hemit & Hall & Hmap & Hflag & Hmr & Hms).
  exists st', code. split_and!; auto.
Qed.

End Code.

(** ** An instance: the general purpose registers of x64

    Register codes are those of x64 ([rax] = 0, ..., [r15] = 15); the
    scratch register is [r10], which is not allocatable. *)

Definition example_scratch : RegisterT := 10%nat.

Definition example_allocatable : list RegisterT :=
  [0; 1; 2; 3; 6; 7; 8; 9; 11; 12; 14; 15]%nat.

Definition example_num_registers : nat := 16.

(** An iteration order of the stack slot map: its first key. *)
Definition first_key (m : gmap Z GapMoveTargets) : option Z :=
  fst <$> head (map_to_list m).

Lemma first_key_spec (m : gmap Z GapMoveTargets) :
  m <> ∅ -> exists k, first_key m = Some k /\ is_Some (m !! k).
Proof.
  intros Hne. unfold first_key.
  destruct (map_to_list m) as [|[k v] l] eqn:Hl.
  - apply map_to_list_empty_iff in Hl. contradiction.
  - exists k. split; [reflexivity|].
    exists v. apply elem_of_map_to_list. rewrite Hl. left.
Qed.

Lemma example_scratch_not_allocatable : example_scratch ∉ example_allocatable.
Proof.
  unfold example_scratch, example_allocatable.
  rewrite !not_elem_of_cons. split_and!; try lia. apply not_elem_of_nil.
Qed.

Lemma example_allocatable_lt r :
  r ∈ example_allocatable -> (r < example_num_registers)%nat.
Proof.
  unfold example_allocatable, example_num_registers.
  rewrite !elem_of_cons. intros H.
  repeat (destruct H as [->|H]; [lia|]). inversion H.
Qed.

(** A swap of two registers, a swap of two stack slots, and a constant for
    a register and for a stack slot. *)
Definition example_moves : list (GapMove nat) :=
  [ mkGapMove 0%nat (RegisterOperand 1) (Reg 2);
    mkGapMove 0%nat (RegisterOperand 2) (Reg 1);
    mkGapMove 7%nat ConstantOperand (Reg 0);
    mkGapMove 8%nat ConstantOperand (Slot (-24));
    mkGapMove 0%nat (StackSlotOperand (-8)) (Slot (-16));
    mkGapMove 0%nat (StackSlotOperand (-16)) (Slot (-8)) ].

Definition example_machine : Machine Z :=
  mkMachine Z (fun r => Z.of_nat r + 100) (fun s => s) [].

Lemma example_moves_in_degree : in_degree_le_1 example_moves.
Proof.
  unfold in_degree_le_1, example_moves. simpl.
  repeat (apply NoDup_cons_2;
          [rewrite ?not_elem_of_cons; split_and?; try discriminate; apply not_elem_of_nil|]).
  apply NoDup_nil_2.
Qed.

Lemma example_moves_allocated : allocated example_allocatable example_moves.
Proof.
  intros mv Hin. unfold example_moves in Hin.
  repeat (apply elem_of_cons in Hin as [->|Hin]);
    try (split; intros r [= <-]; unfold example_allocatable;
         rewrite !elem_of_cons; auto 20).
  inversion Hin.
Qed.

Lemma EmitMoves_equals_simultaneous_assignment_witness :
  exists st' code m',
    EmitMoves example_scratch example_allocatable first_key
      (record_moves example_moves (new_resolver example_num_registers))
    = Some (st', code)
    /\ exec Z.of_nat code example_machine = Some m'
    /\ (forall l, l <> Reg example_scratch ->
          read m' l = simultaneous Z.of_nat example_moves example_machine l)
    /\ native_stack m' = native_stack example_machine.
Proof.
  apply (EmitMoves_equals_simultaneous_assignment nat example_scratch
           example_allocatable first_key Z Z.of_nat
           example_scratch_not_allocatable first_key_spec
           example_num_registers example_allocatable_lt
           example_moves example_machine).
  - exact example_moves_in_degree.
  - exact example_moves_allocated.
Defined.

Lemma EmitMoves_uses_one_scratch_witness :
  exists st' code,
    EmitMoves example_scratch example_allocatable first_key
      (record_moves example_moves (new_resolver example_num_registers))
    = Some (st', code)
    /\ stack_use example_scratch 0 code = Some 0%nat
    /\ (forall i l, i ∈ code -> written_loc i = Some l ->
          l = Reg example_scratch \/ l ∈ move_target <$> example_moves)
    /\ scratch_protocol example_scratch ScratchFree code = Some ScratchFree
    /\ (exists sv,
          scratch_values_used example_scratch ScratchEmpty code = Some sv
          /\ sv <> ScratchUnread)
    /\ (forall (Value : Type) (node_value : nat -> Value) (m : Machine Value)
               pre r mid r' post,
          code = pre ++ PushReg r :: mid ++ PopReg r' :: post ->
          Forall (fun i => is_pop i = false) mid ->
          exists m1 m2,
            exec node_value pre m = Some m1
            /\ exec node_value (PushReg r :: mid ++ [PopReg r']) m1 = Some m2
            /\ r = example_scratch /\ r' = example_scratch
            /\ read m2 (Reg example_scratch) = read m1 (Reg example_scratch)
            /\ native_stack m2 = native_stack m1).
Proof.
  apply (EmitMoves_uses_one_scratch nat example_scratch example_allocatable
           first_key example_num_registers
           example_scratch_not_allocatable first_key_spec example_allocatable_lt
           example_moves).
  - exact example_moves_in_degree.
  - exact example_moves_allocated.
Defined.

(** The code of [example_moves].  The swap of the registers needs the
    scratch register for the start of its cycle only.  The swap of the stack
    slots commits slot [-16], the start of its cycle, to the scratch
    register; slot [-8] has no register target to go through, so the scratch
    register is pushed, used for the move and popped again. *)
Lemma example_moves_code :
  snd <$> EmitMoves example_scratch example_allocatable first_key
            (record_moves example_moves (new_resolver example_num_registers))
  = Some [ LoadToRegister 7%nat 0%nat;
           RecordComment "--   * Cycle";
           MoveRegReg 10%nat 1%nat; MoveRegReg 1%nat 2%nat; MoveRegReg 2%nat 10%nat;
           RecordComment "--   * End of cycle";
           RecordComment "--   * Cycle";
           MoveRegSlot 10%nat (-16); PushReg 10%nat;
           MoveRegSlot 10%nat (-8); MoveSlotReg (-16) 10%nat;
           PopReg 10%nat; MoveSlotReg (-8) 10%nat;
           RecordComment "--   * End of cycle";
           LoadToRegister 8%nat 10%nat; MoveSlotReg (-24) 10%nat ].
Proof. vm_compute. reflexivity. Qed.


(** *** Materialising moves and graph moves, in the words of the specification *)

(** The moves that only the chains of the move graph emit. *)
Definition graph_move {ValueNode : Type} (i : Instr ValueNode) : Prop :=
  match i with
  | MoveRegReg _ _ | MoveRegSlot _ _ => True
  | _ => False
  end.

(** Every materialising move comes after all the moves of the graph: no
    move of the graph follows a [LoadToRegister]. *)
Definition materializing_moves_last {ValueNode : Type}
    (code : list (Instr ValueNode)) : Prop :=
  forall pre node r post,
    code = pre ++ LoadToRegister node r :: post ->
    Forall (fun j => ~ graph_move j) post.

(** A constant for [rax] and a move from [rcx] to [rdx]. *)
Definition constant_then_move : list (GapMove nat) :=
  [ mkGapMove 7%nat ConstantOperand (Reg 0);
    mkGapMove 0%nat (RegisterOperand 1) (Reg 2) ].


(** *** The [DEBUG] checks and the final state, on the instance *)

(** One more move, a constant for [rdx], which the first move of
    [example_moves] already targets. *)
Lemma record_moves_DEBUG_fatal_iff_witness :
  record_moves_DEBUG nat example_allocatable example_moves
    (new_resolver example_num_registers)
  = Some (record_moves example_moves (new_resolver example_num_registers))
  /\ (record_moves_DEBUG nat example_allocatable
        (example_moves ++ [mkGapMove 9%nat ConstantOperand (Reg 2)])
        (new_resolver example_num_registers) = None
      <-> exists mv', mv' ∈ example_moves
                      /\ move_target mv' = Reg 2 /\ records_something nat mv').
Proof.
  apply (record_moves_DEBUG_fatal_iff nat example_allocatable
           example_num_registers example_allocatable_lt example_moves
           (mkGapMove 9%nat ConstantOperand (Reg 2))).
  - exact example_moves_in_degree.
  - exact example_moves_allocated.
Defined.

Lemma StartEmitMoveChain_again_emits_no_code_witness :
  exists st' out,
    StartEmitMoveChain nat example_scratch 8 (Reg 1)
      (record_moves example_moves (new_resolver example_num_registers))
    = Some (st', out)
    /\ exists st'',
         StartEmitMoveChain nat example_scratch 8 (Reg 1) st' = Some (st'', [])
         /\ forall p, get st'' p = get st' p.
Proof.
  eexists _, _. split; [vm_compute; reflexivity|].
  eapply (StartEmitMoveChain_again_emits_no_code nat example_scratch 8 8 (Reg 1)
            (record_moves example_moves (new_resolver example_num_registers))).
  vm_compute. reflexivity.
Defined.

Lemma EmitMoves_empties_move_graph_witness :
  let st := record_moves example_moves (new_resolver example_num_registers) in
  exists st' code,
    EmitMoves example_scratch example_allocatable first_key st = Some (st', code)
    /\ (forall p, get st' p = [])
    /\ moves_from_stack_slot_ nat st' = ∅
    /\ scratch_has_cycle_start_ nat st' = false
    /\ materializing_register_moves_ nat st' = materializing_register_moves_ nat st
    /\ materializing_stack_slot_moves_ st' = materializing_stack_slot_moves_ st.
Proof.
  apply (EmitMoves_empties_move_graph nat example_scratch example_allocatable
           first_key example_num_registers
           example_scratch_not_allocatable first_key_spec example_allocatable_lt
           example_moves).
  - exact example_moves_in_degree.
  - exact example_moves_allocated.
Defined.

(* --------------------------------------------------------------------- *)
(** ** [EmitBlockEndGapMoves] (l. 683-779): the gap moves at a block end *)

Section BlockEndGapMoves.

Variable ValueNode : Type.

(** [RegisterState] and [RegisterMerge] are declared outside this file, as
    are [LoadMergeState] and [RegisterMerge::operand]. *)
Variable RegisterState : Type.
Variable RegisterMerge : Type.
Variable LoadMergeState : RegisterState -> option (ValueNode * RegisterMerge).
Variable merge_operand : RegisterMerge -> nat -> InstructionOperand.

(** [Input]: a node and the operand it is in. *)
Record Input := mkInput {
  input_node : ValueNode;
  input_operand : InstructionOperand
}.

(** [Phi], as far as the gap moves read it: [input(i)] is the input for
    predecessor [i] and [phi_result] is [result().operand()]. *)
Record Phi := mkPhi {
  has_valid_live_range : bool;
  phi_input : nat -> Input;
  phi_result : AllocatedOperand
}.

(** The target block: its phis, and the registers of
    [state()->register_state()] as [ForEachGeneralRegister] and
    [ForEachDoubleRegister] visit them. *)
Record BasicBlock := mkBasicBlock {
  has_state : bool;
  has_phi : bool;
  phis : list Phi;
  general_registers : list (RegisterT * RegisterState);
  double_registers : list (RegisterT * RegisterState)
}.

(** The two register classes: general purpose and double registers. *)
Variable kScratchRegT : RegisterT.
Variable kAllocatableRegistersT : list RegisterT.
Variable kNumRegisters : nat.
Variable kScratchDoubleRegT : RegisterT.
Variable kAllocatableDoubleRegistersT : list RegisterT.
Variable kNumDoubleRegisters : nat.
Variable begin : gmap Z GapMoveTargets -> option Z.

(** The body of the loop over the phis, on [register_moves] and
    [registers_set_by_phis] (with [v8_flags.code_comments] off). *)
Definition record_phi (predecessor_id : nat)
    (acc : Resolver ValueNode * list RegisterT) (phi : Phi)
    : Resolver ValueNode * list RegisterT :=
  let '(register_moves, registers_set_by_phis) := acc in
  if has_valid_live_range phi then
    let input := phi_input phi predecessor_id in
    let target := phi_result phi in
    (RecordMove ValueNode (input_node input) (input_operand input) target register_moves,
     match target with
     | Reg r => reglist_set r registers_set_by_phis
     | Slot _ => registers_set_by_phis
     end)
  else acc.

(** The callback of [ForEachGeneralRegister]. *)
Definition record_register_merge (predecessor_id : nat)
    (registers_set_by_phis : list RegisterT)
    (register_moves : Resolver ValueNode) (entry : RegisterT * RegisterState)
    : Resolver ValueNode :=
  let '(reg, state) := entry in
  if has reg registers_set_by_phis then register_moves
  else
    match LoadMergeState state with
    | Some (node, merge) =>
        RecordMoveToRegister ValueNode node (merge_operand merge predecessor_id) reg
          register_moves
    | None => register_moves
    end.

(** The callback of [ForEachDoubleRegister]. *)
Definition record_double_register_merge (predecessor_id : nat)
    (double_register_moves : Resolver ValueNode) (entry : RegisterT * RegisterState)
    : Resolver ValueNode :=
  let '(reg, state) := entry in
  match LoadMergeState state with
  | Some (node, merge) =>
      RecordMoveToRegister ValueNode node (merge_operand merge predecessor_id) reg
        double_register_moves
  | None => double_register_moves
  end.

(** [EmitBlockEndGapMoves]: the code for the general purpose registers and
    the stack slots, and the code for the double registers that follows
    it. *)
Definition EmitBlockEndGapMoves (target : BasicBlock) (predecessor_id : nat)
    : option (list (Instr ValueNode) * list (Instr ValueNode)) :=
  if negb (has_state target) then
    Some ([RecordComment "--   Target has no state, must be a fallthrough"], [])
  else
    let '(register_moves, registers_set_by_phis) :=
      if has_phi target
      then foldl (record_phi predecessor_id) (new_resolver kNumRegisters, [])
             (phis target)
      else (new_resolver kNumRegisters, []) in
    let register_moves :=
      foldl (record_register_merge predecessor_id registers_set_by_phis)
        register_moves (general_registers target) in
    match EmitMoves kScratchRegT kAllocatableRegistersT begin register_moves with
    | None => None
    | Some (_, general) =>
        let double_register_moves :=
          foldl (record_double_register_merge predecessor_id)
            (new_resolver kNumDoubleRegisters) (double_registers target) in
        match EmitMoves kScratchDoubleRegT kAllocatableDoubleRegistersT begin
                double_register_moves with
        | None => None
        | Some (_, doubles) =>
            Some (RecordComment "--   Gap moves:" :: general,
                  RecordComment "--   Double gap moves:" :: doubles)
        end
    end.

(** *** What the block end asks for *)

(** The phis the loop does not skip. *)
Definition live_phis (target : BasicBlock) : list Phi :=
  if has_phi target
  then filter (fun phi => has_valid_live_range phi = true) (phis target)
  else [].

Definition operand_allocated (regs : list RegisterT) (o : InstructionOperand) : Prop :=
  forall r, o = RegisterOperand r -> r ∈ regs.

Definition loc_allocated (regs : list RegisterT) (l : Loc) : Prop :=
  forall r, l = Reg r -> r ∈ regs.

(** What the register allocator guarantees at a block end: the live phis
    have distinct results, each register is visited once, and all registers
    involved are allocatable ones of their class. *)
Record gap_moves_ok (target : BasicBlock) (predecessor_id : nat) : Prop :=
  mkGapMovesOk {
  phis_distinct : NoDup (phi_result <$> live_phis target);
  general_distinct : NoDup (general_registers target).*1;
  double_distinct : NoDup (double_registers target).*1;
  phis_allocated : forall phi, phi ∈ live_phis target ->
    loc_allocated kAllocatableRegistersT (phi_result phi)
    /\ operand_allocated kAllocatableRegistersT
         (input_operand (phi_input phi predecessor_id));
  general_allocated : forall reg state node merge,
    (reg, state) ∈ general_registers target ->
    LoadMergeState state = Some (node, merge) ->
    reg ∈ kAllocatableRegistersT
    /\ operand_allocated kAllocatableRegistersT (merge_operand merge predecessor_id);
  double_allocated : forall reg state node merge,
    (reg, state) ∈ double_registers target ->
    LoadMergeState state = Some (node, merge) ->
    reg ∈ kAllocatableDoubleRegistersT
    /\ operand_allocated kAllocatableDoubleRegistersT
         (merge_operand merge predecessor_id)
}.

(** The move of a phi and the move of a register merge. *)
Definition phi_move (predecessor_id : nat) (phi : Phi) : GapMove ValueNode :=
  mkGapMove (input_node (phi_input phi predecessor_id))
    (input_operand (phi_input phi predecessor_id)) (phi_result phi).

Definition merge_move (predecessor_id : nat) (entry : RegisterT * RegisterState)
    : option (GapMove ValueNode) :=
  match LoadMergeState entry.2 with
  | Some (node, merge) =>
      Some (mkGapMove node (merge_operand merge predecessor_id) (Reg entry.1))
  | None => None
  end.

Definition merge_moves (predecessor_id : nat) (skip : list RegisterT)
    (regs : list (RegisterT * RegisterState)) : list (GapMove ValueNode) :=
  omap (merge_move predecessor_id) (filter (fun entry => entry.1 ∉ skip) regs).

Lemma foldl_record_phi predecessor_id (l : list Phi) : forall st set,
  exists set',
    foldl (record_phi predecessor_id) (st, set) l
    = (record_moves (phi_move predecessor_id
                       <$> filter (fun phi => has_valid_live_range phi = true) l) st,
       set')
    /\ forall r, r ∈ set' <->
         r ∈ set
         \/ Reg r ∈ phi_result <$> filter (fun phi => has_valid_live_range phi = true) l.
Proof.
  induction l as [|phi l IH]; intros st set.
  - exists set. split; [reflexivity|]. intros r. simpl. split; [auto|].
    intros [H|H]; [exact H|inversion H].
  - simpl. destruct (has_valid_live_range phi) eqn:Hlive.
    + rewrite filter_cons_True by exact Hlive.
      edestruct IH as (set' & -> & Hset'). exists set'. split; [reflexivity|].
      intros r. rewrite Hset', fmap_cons, elem_of_cons.
      destruct (phi_result phi) as [r'|s'].
      * rewrite elem_of_reglist_set. split.
        -- intros [[->|H]|H]; auto.
        -- intros [H|[[= ->]|H]]; auto.
      * split; [intros [H|H]; auto|]. intros [H|[[=]|H]]; auto.
    + rewrite filter_cons_False by (rewrite Hlive; discriminate).
      apply IH.
Qed.

Lemma merge_move_Some predecessor_id reg state node merge :
  LoadMergeState state = Some (node, merge) ->
  merge_move predecessor_id (reg, state)
  = Some (mkGapMove node (merge_operand merge predecessor_id) (Reg reg)).
Proof. unfold merge_move. simpl. intros ->. reflexivity. Qed.

Lemma merge_move_None predecessor_id reg state :
  LoadMergeState state = None -> merge_move predecessor_id (reg, state) = None.
Proof. unfold merge_move. simpl. intros ->. reflexivity. Qed.

Lemma foldl_record_register_merge predecessor_id skip
    (l : list (RegisterT * RegisterState)) : forall st,
  foldl (record_register_merge predecessor_id skip) st l
  = record_moves (merge_moves predecessor_id skip l) st.
Proof.
  unfold merge_moves.
  induction l as [|[reg state] l IH]; intros st; [reflexivity|].
  simpl. unfold has. destruct (decide (reg ∈ skip)) as [Hin|Hnot].
  - rewrite bool_decide_eq_true_2 by exact Hin.
    rewrite filter_cons_False by (simpl; auto). apply IH.
  - rewrite bool_decide_eq_false_2 by exact Hnot.
    rewrite filter_cons_True by exact Hnot. simpl.
    destruct (LoadMergeState state) as [[node merge]|] eqn:Hload.
    + rewrite (merge_move_Some predecessor_id reg state node merge Hload). simpl.
      rewrite IH. reflexivity.
    + rewrite (merge_move_None predecessor_id reg state Hload). apply IH.
Qed.

Lemma foldl_record_double_register_merge predecessor_id
    (l : list (RegisterT * RegisterState)) : forall st,
  foldl (record_double_register_merge predecessor_id) st l
  = record_moves (merge_moves predecessor_id [] l) st.
Proof.
  unfold merge_moves.
  induction l as [|[reg state] l IH]; intros st; [reflexivity|].
  rewrite filter_cons_True by (simpl; apply not_elem_of_nil). simpl.
  destruct (LoadMergeState state) as [[node merge]|] eqn:Hload.
  - rewrite (merge_move_Some predecessor_id reg state node merge Hload). simpl.
    rewrite IH. reflexivity.
  - rewrite (merge_move_None predecessor_id reg state Hload). apply IH.
Qed.

Lemma elem_of_merge_moves predecessor_id skip regs mv :
  mv ∈ merge_moves predecessor_id skip regs <->
  exists reg state node merge,
    (reg, state) ∈ regs /\ (reg ∉ skip) /\ LoadMergeState state = Some (node, merge)
    /\ mv = mkGapMove node (merge_operand merge predecessor_id) (Reg reg).
Proof.
  unfold merge_moves. rewrite list_elem_of_omap. split.
  - intros ([reg state] & Hin & Hmv). apply list_elem_of_filter in Hin as [Hskip Hin].
    unfold merge_move in Hmv. simpl in *.
    destruct (LoadMergeState state) as [[node merge]|] eqn:Hload; [|discriminate].
    injection Hmv as <-. exists reg, state, node, merge. auto.
  - intros (reg & state & node & merge & Hin & Hskip & Hload & ->).
    exists (reg, state). split; [apply list_elem_of_filter; auto|].
    unfold merge_move. simpl. rewrite Hload. reflexivity.
Qed.

Lemma merge_moves_in_degree predecessor_id skip regs :
  NoDup regs.*1 -> in_degree_le_1 (merge_moves predecessor_id skip regs).
Proof.
  unfold in_degree_le_1, merge_moves.
  induction regs as [|[reg state] regs IH]; simpl; intros Hnd; [constructor|].
  apply NoDup_cons in Hnd as [Hreg Hnd].
  destruct (decide (reg ∈ skip)) as [Hin|Hnot].
  - rewrite filter_cons_False by (simpl; auto). apply IH, Hnd.
  - rewrite filter_cons_True by exact Hnot. simpl.
    destruct (LoadMergeState state) as [[node merge]|] eqn:Hload;
      [|rewrite (merge_move_None predecessor_id reg state Hload); apply IH, Hnd].
    rewrite (merge_move_Some predecessor_id reg state node merge Hload).
    simpl. apply NoDup_cons. split; [|apply IH, Hnd].
    intros Hin. apply list_elem_of_fmap in Hin as (mv & Ht & Hmv).
    apply (elem_of_merge_moves predecessor_id skip regs) in Hmv
      as (reg' & state' & node' & merge' & Hin' & _ & _ & ->).
    simpl in Ht. injection Ht as <-.
    apply Hreg. apply list_elem_of_fmap. exists (reg, state'). auto.
Qed.

(** The value an operand holds in a machine state; a constant is the value
    of its node. *)
Definition operand_value {Value : Type} (node_value : ValueNode -> Value)
    (m : Machine Value) (node : ValueNode) (o : InstructionOperand) : Value :=
  match source_loc o with
  | Some l => read m l
  | None => node_value node
  end.

(** The gap moves put every live phi and every merged register in place.
    When the live phis of the target have distinct results and each register
    of the merge state is visited once (over allocatable registers),
    [EmitBlockEndGapMoves] returns and its code for the general purpose
    registers, run at the block end, leaves in the result of every live phi
    the value its input for this predecessor had at the block end, and in
    every register with a merge that no phi is assigned to the value of its
    merge operand for this predecessor: a register assigned by a phi is not
    clobbered by a register merge.  The native stack is as it was. *)
Theorem EmitBlockEndGapMoves_assigns_phis_and_merges {Value : Type}
    (node_value : ValueNode -> Value) (target : BasicBlock) (predecessor_id : nat)
    (m : Machine Value) :
  kScratchRegT ∉ kAllocatableRegistersT ->
  kScratchDoubleRegT ∉ kAllocatableDoubleRegistersT ->
  (forall r, r ∈ kAllocatableRegistersT -> (r < kNumRegisters)%nat) ->
  (forall r, r ∈ kAllocatableDoubleRegistersT -> (r < kNumDoubleRegisters)%nat) ->
  (forall mp : gmap Z GapMoveTargets,
     mp <> ∅ -> exists k, begin mp = Some k /\ is_Some (mp !! k)) ->
  has_state target = true ->
  gap_moves_ok target predecessor_id ->
  exists general doubles m',
    EmitBlockEndGapMoves target predecessor_id
    = Some (RecordComment "--   Gap moves:" :: general,
            RecordComment "--   Double gap moves:" :: doubles)
    /\ exec node_value general m = Some m'
    /\ (forall phi, phi ∈ live_phis target ->
          read m' (phi_result phi)
          = operand_value node_value m (input_node (phi_input phi predecessor_id))
              (input_operand (phi_input phi predecessor_id)))
    /\ (forall reg state node merge,
          (reg, state) ∈ general_registers target ->
          LoadMergeState state = Some (node, merge) ->
          Reg reg ∉ phi_result <$> live_phis target ->
          read m' (Reg reg)
          = operand_value node_value m node (merge_operand merge predecessor_id))
    /\ native_stack m' = native_stack m.
Proof.
  intros Hscratch Hscratch_d Hlt Hlt_d Hbegin Hstate
    [Hphis Hgen Hdbl Hphis_al Hgen_al Hdbl_al].
  unfold EmitBlockEndGapMoves. rewrite Hstate. simpl.
  (* the state of [register_moves] after the two loops *)
  assert (Hrec : exists set,
    (if has_phi target
     then foldl (record_phi predecessor_id) (new_resolver kNumRegisters, []) (phis target)
     else (new_resolver kNumRegisters, []))
    = (record_moves (phi_move predecessor_id <$> live_phis target)
         (new_resolver kNumRegisters), set)
    /\ forall r, r ∈ set <-> Reg r ∈ phi_result <$> live_phis target).
  { unfold live_phis. destruct (has_phi target).
    - destruct (foldl_record_phi predecessor_id (phis target)
                  (new_resolver kNumRegisters) []) as (set & Hfold & Hset).
      exists set. split; [exact Hfold|]. intros r. rewrite Hset. split; [|auto].
      intros [H|H]; [inversion H|exact H].
    - exists []. split; [reflexivity|]. simpl. intros r. split; intros H; inversion H. }
  destruct Hrec as (set & -> & Hset).
  rewrite foldl_record_register_merge, foldl_record_double_register_merge.
  set (phi_moves := phi_move predecessor_id <$> live_phis target).
  set (reg_moves := merge_moves predecessor_id set (general_registers target)).
  assert (Hmoves : record_moves reg_moves (record_moves phi_moves (new_resolver kNumRegisters))
                   = record_moves (phi_moves ++ reg_moves)
                       (new_resolver (ValueNode := ValueNode) kNumRegisters)).
  { unfold record_moves. rewrite foldl_app. reflexivity. }
  rewrite Hmoves.
  assert (Hphi_targets : move_target <$> phi_moves = phi_result <$> live_phis target).
  { unfold phi_moves. rewrite <- list_fmap_compose. reflexivity. }
  assert (Hdeg : in_degree_le_1 (phi_moves ++ reg_moves)).
  { unfold in_degree_le_1. rewrite fmap_app. apply NoDup_app. split_and!.
    - rewrite Hphi_targets. exact Hphis.
    - intros t Ht Ht'. rewrite Hphi_targets in Ht.
      apply list_elem_of_fmap in Ht' as (mv & -> & Hmv).
      apply elem_of_merge_moves in Hmv
        as (reg & state & node & merge & _ & Hskip & _ & ->).
      simpl in Ht. apply Hskip, Hset, Ht.
    - apply merge_moves_in_degree, Hgen. }
  assert (Halloc : allocated kAllocatableRegistersT (phi_moves ++ reg_moves)).
  { intros mv Hin. apply elem_of_app in Hin as [Hin|Hin].
    - apply list_elem_of_fmap in Hin as (phi & -> & Hphi).
      destruct (Hphis_al phi Hphi) as [Ht Hs]. split; [exact Hs|exact Ht].
    - apply elem_of_merge_moves in Hin
        as (reg & state & node & merge & Hin & _ & Hload & ->).
      destruct (Hgen_al reg state node merge Hin Hload) as [Hr Hs].
      split; [exact Hs|]. simpl. intros r [= <-]. exact Hr. }
  destruct (EmitMoves_record_moves_spec ValueNode kScratchRegT kAllocatableRegistersT
              begin Value node_value Hscratch Hbegin kNumRegisters Hlt
              (phi_moves ++ reg_moves) m Hdeg Halloc)
    as (st' & general & m' & -> & Hexec & Hread & Hstack).
  (* the double registers *)
  set (dbl_moves := merge_moves predecessor_id [] (double_registers target)).
  assert (Hdeg_d : in_degree_le_1 dbl_moves) by apply merge_moves_in_degree, Hdbl.
  assert (Halloc_d : allocated kAllocatableDoubleRegistersT dbl_moves).
  { intros mv Hin. apply elem_of_merge_moves in Hin
      as (reg & state & node & merge & Hin & _ & Hload & ->).
    destruct (Hdbl_al reg state node merge Hin Hload) as [Hr Hs].
    split; [exact Hs|]. simpl. intros r [= <-]. exact Hr. }
  destruct (EmitMoves_record_moves_spec ValueNode kScratchDoubleRegT
              kAllocatableDoubleRegistersT begin Value node_value Hscratch_d Hbegin
              kNumDoubleRegisters Hlt_d dbl_moves m Hdeg_d Halloc_d)
    as (st_d & doubles & _ & -> & _).
  exists general, doubles, m'. split_and!; [reflexivity|exact Hexec| | |exact Hstack].
  - intros phi Hphi.
    assert (Hin : phi_move predecessor_id phi ∈ phi_moves ++ reg_moves).
    { apply elem_of_app. left. apply list_elem_of_fmap. eauto. }
    rewrite (Hread (phi_result phi)).
    + apply (simultaneous_target ValueNode Value node_value _ m _ Hdeg Hin).
    + intros Heq. apply Hscratch. apply (proj1 (Hphis_al phi Hphi)). exact Heq.
  - intros reg state node merge Hin Hload Hnot.
    assert (Hmv : mkGapMove node (merge_operand merge predecessor_id) (Reg reg)
                  ∈ phi_moves ++ reg_moves).
    { apply elem_of_app. right. apply elem_of_merge_moves.
      exists reg, state, node, merge. split_and!; auto.
      intros Hskip. apply Hnot, Hset, Hskip. }
    change (reg_file Value m' reg) with (read m' (Reg reg)).
    rewrite (Hread (Reg reg)).
    + apply (simultaneous_target ValueNode Value node_value _ m _ Hdeg Hmv).
    + intros [= ->]. apply Hscratch.
      apply (proj1 (Hgen_al _ _ _ _ Hin Hload)).
Qed.

End BlockEndGapMoves.

Arguments mkInput {ValueNode} input_node input_operand.
Arguments input_node {ValueNode} i.
Arguments input_operand {ValueNode} i.
Arguments mkPhi {ValueNode} has_valid_live_range phi_input phi_result.
Arguments phi_input {ValueNode} p n.
Arguments phi_result {ValueNode} p.
Arguments mkBasicBlock {ValueNode RegisterState} has_state has_phi phis
  general_registers double_registers.
Arguments live_phis {ValueNode RegisterState} target.
Arguments general_registers {ValueNode RegisterState} b.

(** *** An instance: a block end with two live phis and a dead one

    The merge of a register is given by its node and its operand for each
    predecessor.  [rdx] is assigned by a phi and has a register merge as
    well; the double registers are [xmm0]-[xmm14], with [xmm15] as the
    scratch register. *)

Definition example_LoadMergeState
    (state : option (nat * (nat -> InstructionOperand)))
    : option (nat * (nat -> InstructionOperand)) := state.

Definition example_merge_operand (merge : nat -> InstructionOperand) (i : nat)
    : InstructionOperand := merge i.

Definition example_double_scratch : RegisterT := 15%nat.

Definition example_double_allocatable : list RegisterT :=
  [0; 1; 2; 3; 4; 5; 6; 7; 8; 9; 10; 11; 12; 13; 14]%nat.

Lemma example_double_scratch_not_allocatable :
  example_double_scratch ∉ example_double_allocatable.
Proof.
  unfold example_double_scratch, example_double_allocatable.
  rewrite !not_elem_of_cons. split_and!; try lia. apply not_elem_of_nil.
Qed.

Lemma example_double_allocatable_lt r :
  r ∈ example_double_allocatable -> (r < example_num_registers)%nat.
Proof.
  unfold example_double_allocatable, example_num_registers.
  rewrite !elem_of_cons. intros H.
  repeat (destruct H as [->|H]; [lia|]). inversion H.
Qed.

Definition example_target
    : BasicBlock nat (option (nat * (nat -> InstructionOperand))) :=
  mkBasicBlock true true
    [ mkPhi true (fun _ => mkInput 1%nat (RegisterOperand 1)) (Reg 2);
      mkPhi false (fun _ => mkInput 2%nat (RegisterOperand 0)) (Reg 3);
      mkPhi true (fun _ => mkInput 3%nat (StackSlotOperand (-8))) (Slot (-16)) ]
    [ (2%nat, Some (5%nat, fun _ => RegisterOperand 3));
      (3%nat, Some (6%nat, fun _ => RegisterOperand 2));
      (6%nat, None) ]
    [ (0%nat, Some (7%nat, fun _ => RegisterOperand 1)) ].

Lemma example_target_ok :
  gap_moves_ok nat (option (nat * (nat -> InstructionOperand)))
    (nat -> InstructionOperand) example_LoadMergeState example_merge_operand
    example_allocatable example_double_allocatable example_target 0.
Proof.
  assert (Hlive : live_phis example_target
                  = [ mkPhi true (fun _ => mkInput 1%nat (RegisterOperand 1)) (Reg 2);
                      mkPhi true (fun _ => mkInput 3%nat (StackSlotOperand (-8)))
                        (Slot (-16)) ]) by reflexivity.
  split.
  - rewrite Hlive. simpl.
    repeat (apply NoDup_cons_2;
            [rewrite ?not_elem_of_cons; split_and?; try discriminate; apply not_elem_of_nil|]).
    apply NoDup_nil_2.
  - simpl.
    repeat (apply NoDup_cons_2;
            [rewrite ?not_elem_of_cons; split_and?; try lia; apply not_elem_of_nil|]).
    apply NoDup_nil_2.
  - simpl. apply NoDup_cons_2; [apply not_elem_of_nil|apply NoDup_nil_2].
  - rewrite Hlive. intros phi Hin.
    repeat (apply elem_of_cons in Hin as [->|Hin]); [| |inversion Hin];
      split; intros r [= <-]; unfold example_allocatable; rewrite !elem_of_cons; auto 20.
  - simpl. intros reg state node merge Hin Hload.
    repeat (apply elem_of_cons in Hin as [[= -> ->]|Hin]); [| | |inversion Hin];
      try discriminate; injection Hload as <- <-;
      (split; [|intros r [= <-]]); unfold example_allocatable;
      rewrite !elem_of_cons; auto 20.
  - simpl. intros reg state node merge Hin Hload.
    repeat (apply elem_of_cons in Hin as [[= -> ->]|Hin]); [|inversion Hin].
    injection Hload as <- <-.
    (split; [|intros r [= <-]]); unfold example_double_allocatable;
      rewrite !elem_of_cons; auto 20.
Qed.

Lemma EmitBlockEndGapMoves_assigns_phis_and_merges_witness :
  exists general doubles m',
    EmitBlockEndGapMoves nat (option (nat * (nat -> InstructionOperand)))
      (nat -> InstructionOperand) example_LoadMergeState example_merge_operand
      example_scratch example_allocatable example_num_registers
      example_double_scratch example_double_allocatable example_num_registers
      first_key example_target 0
    = Some (RecordComment "--   Gap moves:" :: general,
            RecordComment "--   Double gap moves:" :: doubles)
    /\ exec Z.of_nat general example_machine = Some m'
    /\ (forall phi, phi ∈ live_phis example_target ->
          read m' (phi_result phi)
          = operand_value nat Z.of_nat example_machine (input_node (phi_input phi 0))
              (input_operand (phi_input phi 0)))
    /\ (forall reg state node merge,
          (reg, state) ∈ general_registers example_target ->
          example_LoadMergeState state = Some (node, merge) ->
          Reg reg ∉ phi_result <$> live_phis example_target ->
          read m' (Reg reg)
          = operand_value nat Z.of_nat example_machine node
              (example_merge_operand merge 0))
    /\ native_stack m' = native_stack example_machine.
Proof.
  apply (EmitBlockEndGapMoves_assigns_phis_and_merges nat
           (option (nat * (nat -> InstructionOperand))) (nat -> InstructionOperand)
           example_LoadMergeState example_merge_operand
           example_scratch example_allocatable example_num_registers
           example_double_scratch example_double_allocatable example_num_registers
           first_key Z.of_nat example_target 0 example_machine).
  - exact example_scratch_not_allocatable.
  - exact example_double_scratch_not_allocatable.
  - exact example_allocatable_lt.
  - exact example_double_allocatable_lt.
  - exact first_key_spec.
  - reflexivity.
  - exact example_target_ok.
Defined.

End ParallelMoveResolver.

(** * [X64OperandConverter::MemoryOperand]
    (src/compiler/backend/x64/code-generator-x64.cc) *)

Module X64OperandConverter.

(** The addressing modes, as the cases of the switch of [MemoryOperand]
    list them. *)
Inductive AddressingMode :=
  | kMode_None
  | kMode_MR | kMode_MRI
  | kMode_MR1 | kMode_MR2 | kMode_MR4 | kMode_MR8
  | kMode_MR1I | kMode_MR2I | kMode_MR4I | kMode_MR8I
  | kMode_M1 | kMode_M2 | kMode_M4 | kMode_M8
  | kMode_M1I | kMode_M2I | kMode_M4I | kMode_M8I
  | kMode_Root | kMode_MCR | kMode_MCRI.

Inductive ScaleFactor := times_1 | times_2 | times_4 | times_8.

(** [static_cast<ScaleFactor>(scale)]; the four static assertions of
    [ScaleFor] fix the values of the enumerators, its [DCHECK] the range. *)
Definition ScaleFactor_of_int (scale : Z) : option ScaleFactor :=
  if scale =? 0 then Some times_1
  else if scale =? 1 then Some times_2
  else if scale =? 2 then Some times_4
  else if scale =? 3 then Some times_8
  else None.

(** The factor an enumerator of [ScaleFactor] stands for. *)
Definition factor (s : ScaleFactor) : Z :=
  match s with
  | times_1 => 1
  | times_2 => 2
  | times_4 => 4
  | times_8 => 8
  end.

Abbreviation Register := nat.

(** The inputs of an instruction that [MemoryOperand] reads: registers and
    32 bit constants. *)
Inductive InstructionOperand :=
  | RegisterInput (r : Register)
  | Int32Input (value : Z).

Record Instruction := mkInstruction {
  addressing_mode : AddressingMode;
  inputs : list InstructionOperand
}.

(** [Operand(base, disp)], [Operand(base, index, scale, disp)] and
    [Operand(index, scale, disp)]. *)
Inductive Operand :=
  | OperandBaseDisp (base : Register) (disp : Z)
  | OperandBaseIndex (base index : Register) (scale : ScaleFactor) (disp : Z)
  | OperandIndex (index : Register) (scale : ScaleFactor) (disp : Z).

(** What a call of [MemoryOperand] can see and change: the instruction of
    the converter and the cursor [*offset]. *)
Record Converter := mkConverter {
  instr_ : Instruction;
  offset : nat
}.

(** Fallible computations over the converter; [None] is a fatal error
    ([UNREACHABLE], a failed check, an input that is not there). *)
Definition Conv (A : Type) : Type := Converter -> option (A * Converter).

Definition conv_ret {A} (a : A) : Conv A := fun c => Some (a, c).

Definition conv_bind {A B} (x : Conv A) (f : A -> Conv B) : Conv B :=
  fun c =>
    match x c with
    | Some (a, c') => f a c'
    | None => None
    end.

Definition UNREACHABLE {A} : Conv A := fun _ => None.

Notation "'let*' x ':=' e1 'in' e2" := (conv_bind e1 (fun x => e2))
  (at level 10, x name, e1 at level 100, e2 at level 200).

Definition NextOffset : Conv nat :=
  fun c => Some (offset c, mkConverter (instr_ c) (S (offset c))).

Definition InputAt (index : nat) : Conv InstructionOperand :=
  fun c =>
    match inputs (instr_ c) !! index with
    | Some op => Some (op, c)
    | None => None
    end.

Definition InputRegister (index : nat) : Conv Register :=
  let* op := InputAt index in
  match op with
  | RegisterInput r => conv_ret r
  | Int32Input _ => UNREACHABLE
  end.

Definition InputInt32 (index : nat) : Conv Z :=
  let* op := InputAt index in
  match op with
  | Int32Input v => conv_ret v
  | RegisterInput _ => UNREACHABLE
  end.

Section Converter.

(** The numeric values of the enumerators of [AddressingMode], and the two
    fixed base registers; they are declared in headers. *)
Variable mode_code : AddressingMode -> Z.
Variable kRootRegister : Register.
Variable kPtrComprCageBaseRegister : Register.

Definition ScaleFor (one mode : AddressingMode) : Conv ScaleFactor :=
  match ScaleFactor_of_int (mode_code mode - mode_code one) with
  | Some scale => conv_ret scale
  | None => UNREACHABLE
  end.

Definition MemoryOperand : Conv Operand :=
  fun c =>
    let mode := addressing_mode (instr_ c) in
    match mode with
    | kMode_MR =>
        (let* i := NextOffset in let* base := InputRegister i in
         conv_ret (OperandBaseDisp base 0)) c
    | kMode_MRI =>
        (let* i := NextOffset in let* base := InputRegister i in
         let* j := NextOffset in let* disp := InputInt32 j in
         conv_ret (OperandBaseDisp base disp)) c
    | kMode_MR1 | kMode_MR2 | kMode_MR4 | kMode_MR8 =>
        (let* i := NextOffset in let* base := InputRegister i in
         let* j := NextOffset in let* index := InputRegister j in
         let* scale := ScaleFor kMode_MR1 mode in
         conv_ret (OperandBaseIndex base index scale 0)) c
    | kMode_MR1I | kMode_MR2I | kMode_MR4I | kMode_MR8I =>
        (let* i := NextOffset in let* base := InputRegister i in
         let* j := NextOffset in let* index := InputRegister j in
         let* scale := ScaleFor kMode_MR1I mode in
         let* k := NextOffset in let* disp := InputInt32 k in
         conv_ret (OperandBaseIndex base index scale disp)) c
    | kMode_M1 =>
        (let* i := NextOffset in let* base := InputRegister i in
         conv_ret (OperandBaseDisp base 0)) c
    | kMode_M2 => UNREACHABLE c
    | kMode_M4 | kMode_M8 =>
        (let* i := NextOffset in let* index := InputRegister i in
         let* scale := ScaleFor kMode_M1 mode in
         conv_ret (OperandIndex index scale 0)) c
    | kMode_M1I | kMode_M2I | kMode_M4I | kMode_M8I =>
        (let* i := NextOffset in let* index := InputRegister i in
         let* scale := ScaleFor kMode_M1I mode in
         let* j := NextOffset in let* disp := InputInt32 j in
         conv_ret (OperandIndex index scale disp)) c
    | kMode_Root =>
        (let* i := NextOffset in let* disp := InputInt32 i in
         conv_ret (OperandBaseDisp kRootRegister disp)) c
    | kMode_MCR =>
        (let* i := NextOffset in let* index := InputRegister i in
         conv_ret (OperandBaseIndex kPtrComprCageBaseRegister index times_1 0)) c
    | kMode_MCRI =>
        (let* i := NextOffset in let* index := InputRegister i in
         let* j := NextOffset in let* disp := InputInt32 j in
         conv_ret (OperandBaseIndex kPtrComprCageBaseRegister index times_1 disp)) c
    | kMode_None => UNREACHABLE c
    end.

(** [MemoryOperand(size_t first_input = 0)]. *)
Definition MemoryOperand_from (instr : Instruction) (first_input : nat) : option Operand :=
  fst <$> MemoryOperand (mkConverter instr first_input).

End Converter.

(** ** The operand slots of an addressing mode *)

Inductive OperandKind := kRegisterSlot | kInt32Slot.

(** The operand slots an addressing mode stands for, in the order of the
    inputs: base register, index register, displacement. *)
Definition required_operands (mode : AddressingMode) : list OperandKind :=
  match mode with
  | kMode_None => []
  | kMode_MR => [kRegisterSlot]
  | kMode_MRI => [kRegisterSlot; kInt32Slot]
  | kMode_MR1 | kMode_MR2 | kMode_MR4 | kMode_MR8 => [kRegisterSlot; kRegisterSlot]
  | kMode_MR1I | kMode_MR2I | kMode_MR4I | kMode_MR8I =>
      [kRegisterSlot; kRegisterSlot; kInt32Slot]
  | kMode_M1 | kMode_M2 | kMode_M4 | kMode_M8 => [kRegisterSlot]
  | kMode_M1I | kMode_M2I | kMode_M4I | kMode_M8I => [kRegisterSlot; kInt32Slot]
  | kMode_Root => [kInt32Slot]
  | kMode_MCR => [kRegisterSlot]
  | kMode_MCRI => [kRegisterSlot; kInt32Slot]
  end.

Definition has_kind (k : OperandKind) (op : InstructionOperand) : bool :=
  match k, op with
  | kRegisterSlot, RegisterInput _ => true
  | kInt32Slot, Int32Input _ => true
  | _, _ => false
  end.

(** The operands [ops] start with slots of the kinds [kinds]. *)
Fixpoint has_kinds (ops : list InstructionOperand) (kinds : list OperandKind) : bool :=
  match kinds, ops with
  | [], _ => true
  | k :: kinds', op :: ops' => has_kind k op && has_kinds ops' kinds'
  | _ :: _, [] => false
  end.

(** The instruction of [c] has, from the cursor on, the operand slots its
    addressing mode requires. *)
Definition has_required_operands (c : Converter) : Prop :=
  has_kinds (drop (offset c) (inputs (instr_ c)))
            (required_operands (addressing_mode (instr_ c))) = true.

(** The enumerators of the four scaled families of [AddressingMode] follow
    each other in the order x1, x2, x4, x8. *)
Definition consecutive (mode_code : AddressingMode -> Z)
    (one two four eight : AddressingMode) : Prop :=
  mode_code two = mode_code one + 1
  /\ mode_code four = mode_code one + 2
  /\ mode_code eight = mode_code one + 3.

Definition scaled_modes_consecutive (mode_code : AddressingMode -> Z) : Prop :=
  consecutive mode_code kMode_MR1 kMode_MR2 kMode_MR4 kMode_MR8
  /\ consecutive mode_code kMode_MR1I kMode_MR2I kMode_MR4I kMode_MR8I
  /\ consecutive mode_code kMode_M1 kMode_M2 kMode_M4 kMode_M8
  /\ consecutive mode_code kMode_M1I kMode_M2I kMode_M4I kMode_M8I.

(** The scale factor in the name of an addressing mode with an index. *)
Definition mode_factor (mode : AddressingMode) : option Z :=
  match mode with
  | kMode_MR1 | kMode_MR1I | kMode_M1I => Some 1
  | kMode_MR2 | kMode_MR2I | kMode_M2I => Some 2
  | kMode_MR4 | kMode_MR4I | kMode_M4 | kMode_M4I => Some 4
  | kMode_MR8 | kMode_MR8I | kMode_M8 | kMode_M8I => Some 8
  | _ => None
  end.

Definition operand_factor (op : Operand) : option Z :=
  match op with
  | OperandBaseDisp _ _ => None
  | OperandBaseIndex _ _ scale _ | OperandIndex _ scale _ => Some (factor scale)
  end.

(** ** Properties *)

Lemma has_kinds_drop_cons (l : list InstructionOperand) (n : nat) k kinds :
  has_kinds (drop n l) (k :: kinds) = true ->
  exists op, l !! n = Some op /\ has_kind k op = true
             /\ has_kinds (drop (S n) l) kinds = true.
Proof.
  destruct (l !! n) as [op|] eqn:Hop.
  - rewrite (drop_S l op n Hop). simpl.
    intros [H1 H2]%andb_true_iff. eauto.
  - apply lookup_ge_None in Hop. rewrite drop_ge by exact Hop. discriminate.
Qed.

Lemma InputRegister_slot (instr : Instruction) (o n : nat) kinds :
  has_kinds (drop n (inputs instr)) (kRegisterSlot :: kinds) = true ->
  exists r, InputRegister n (mkConverter instr o) = Some (r, mkConverter instr o)
            /\ has_kinds (drop (S n) (inputs instr)) kinds = true.
Proof.
  intros (op & Hop & Hk & Hrest)%has_kinds_drop_cons.
  destruct op as [r|v]; [|discriminate].
  exists r. split; [|exact Hrest].
  unfold InputRegister, conv_bind, InputAt. simpl. rewrite Hop. reflexivity.
Qed.

Lemma InputInt32_slot (instr : Instruction) (o n : nat) kinds :
  has_kinds (drop n (inputs instr)) (kInt32Slot :: kinds) = true ->
  exists v, InputInt32 n (mkConverter instr o) = Some (v, mkConverter instr o)
            /\ has_kinds (drop (S n) (inputs instr)) kinds = true.
Proof.
  intros (op & Hop & Hk & Hrest)%has_kinds_drop_cons.
  destruct op as [r|v]; [discriminate|].
  exists v. split; [|exact Hrest].
  unfold InputInt32, conv_bind, InputAt. simpl. rewrite Hop. reflexivity.
Qed.

Lemma conv_bind_Some {A B} (x : Conv A) (f : A -> Conv B) c a c' :
  x c = Some (a, c') -> conv_bind x f c = f a c'.
Proof. unfold conv_bind. intros ->. reflexivity. Qed.

Lemma ScaleFor_consecutive mode_code one two four eight (c : Converter) :
  consecutive mode_code one two four eight ->
  ScaleFor mode_code one one c = Some (times_1, c)
  /\ ScaleFor mode_code one two c = Some (times_2, c)
  /\ ScaleFor mode_code one four c = Some (times_4, c)
  /\ ScaleFor mode_code one eight c = Some (times_8, c).
Proof.
  intros (H2 & H4 & H8). unfold ScaleFor. rewrite H2, H4, H8.
  replace (mode_code one - mode_code one) with 0 by lia.
  replace (mode_code one + 1 - mode_code one) with 1 by lia.
  replace (mode_code one + 2 - mode_code one) with 2 by lia.
  replace (mode_code one + 3 - mode_code one) with 3 by lia.
  auto.
Qed.

Ltac next_offset :=
  erewrite conv_bind_Some by (unfold NextOffset; cbn [offset instr_]; reflexivity).

Ltac input_register H :=
  let r := fresh "r" in
  let Hr := fresh "Hr" in
  eapply InputRegister_slot in H as (r & Hr & H);
  erewrite conv_bind_Some by exact Hr.

Ltac input_int32 H :=
  let v := fresh "v" in
  let Hv := fresh "Hv" in
  eapply InputInt32_slot in H as (v & Hv & H);
  erewrite conv_bind_Some by exact Hv.

Ltac scale_for H :=
  erewrite conv_bind_Some by (apply (ScaleFor_consecutive _ _ _ _ _ _ H)).

Ltac operand_done n :=
  eexists _, _;
  split; [reflexivity|];
  split; [cbn [offset length required_operands]; lia|];
  split; [cbn [length required_operands]; lia|];
  split; [reflexivity|];
  cbn [mode_factor]; intros f [= <-]; reflexivity.

(** C4, as the code has it.  For every addressing mode other than
    [kMode_None] and [kMode_M2], on an instruction that has, from the cursor
    on, the operand slots the mode requires, [MemoryOperand] returns an
    operand and advances the cursor by exactly the number of these slots,
    which is between 1 and 3; the instruction is unchanged; an operand with
    a scaled index has the scale factor of the mode.  The scale values 0, 1,
    2, 3 are decoded as the factors 1, 2, 4, 8.  [kMode_None] is fatal. *)
Theorem MemoryOperand_advances_cursor (mode_code : AddressingMode -> Z)
    (kRootRegister kPtrComprCageBaseRegister : Register) (c : Converter) :
  scaled_modes_consecutive mode_code ->
  addressing_mode (instr_ c) <> kMode_None ->
  addressing_mode (instr_ c) <> kMode_M2 ->
  has_required_operands c ->
  (exists op c',
      MemoryOperand mode_code kRootRegister kPtrComprCageBaseRegister c = Some (op, c')
      /\ offset c' = (offset c + length (required_operands (addressing_mode (instr_ c))))%nat
      /\ (1 <= length (required_operands (addressing_mode (instr_ c))) <= 3)%nat
      /\ instr_ c' = instr_ c
      /\ (forall f, mode_factor (addressing_mode (instr_ c)) = Some f ->
            operand_factor op = Some f))
  /\ (forall scale, 0 <= scale <= 3 ->
        exists s, ScaleFactor_of_int scale = Some s /\ factor s = 2 ^ scale)
  /\ (forall c0, addressing_mode (instr_ c0) = kMode_None ->
        MemoryOperand mode_code kRootRegister kPtrComprCageBaseRegister c0 = None).
Proof.
  intros (HMR & HMRI & HM & HMI) Hnone Hm2 Hops. split_and!.
  - destruct c as [instr n]. unfold has_required_operands in Hops.
    cbn [instr_ offset] in *. unfold MemoryOperand. cbn [instr_].
    destruct (addressing_mode instr) eqn:Hmode; try contradiction;
      cbn [required_operands] in Hops; next_offset.
    + input_register Hops. operand_done n.
    + input_register Hops. next_offset. input_int32 Hops. operand_done n.
    + input_register Hops. next_offset. input_register Hops. scale_for HMR.
      operand_done n.
    + input_register Hops. next_offset. input_register Hops. scale_for HMR.
      operand_done n.
    + input_register Hops. next_offset. input_register Hops. scale_for HMR.
      operand_done n.
    + input_register Hops. next_offset. input_register Hops. scale_for HMR.
      operand_done n.
    + input_register Hops. next_offset. input_register Hops. scale_for HMRI.
      next_offset. input_int32 Hops. operand_done n.
    + input_register Hops. next_offset. input_register Hops. scale_for HMRI.
      next_offset. input_int32 Hops. operand_done n.
    + input_register Hops. next_offset. input_register Hops. scale_for HMRI.
      next_offset. input_int32 Hops. operand_done n.
    + input_register Hops. next_offset. input_register Hops. scale_for HMRI.
      next_offset. input_int32 Hops. operand_done n.
    + input_register Hops. operand_done n.
    + input_register Hops. scale_for HM. operand_done n.
    + input_register Hops. scale_for HM. operand_done n.
    + input_register Hops. scale_for HMI. next_offset. input_int32 Hops.
      operand_done n.
    + input_register Hops. scale_for HMI. next_offset. input_int32 Hops.
      operand_done n.
    + input_register Hops. scale_for HMI. next_offset. input_int32 Hops.
      operand_done n.
    + input_register Hops. scale_for HMI. next_offset. input_int32 Hops.
      operand_done n.
    + input_int32 Hops. operand_done n.
    + input_register Hops. operand_done n.
    + input_register Hops. next_offset. input_int32 Hops. operand_done n.
  - intros scale Hs.
    assert (scale = 0 \/ scale = 1 \/ scale = 2 \/ scale = 3) as [-> | [-> | [-> | ->]]] by lia;
      eexists; split; reflexivity.
  - intros c0 Hc0. unfold MemoryOperand. rewrite Hc0. reflexivity.
Qed.

(** ** An instance: the enumerators in the order the switch lists them *)

Definition example_mode_code (mode : AddressingMode) : Z :=
  match mode with
  | kMode_None => 0
  | kMode_MR => 1 | kMode_MRI => 2
  | kMode_MR1 => 3 | kMode_MR2 => 4 | kMode_MR4 => 5 | kMode_MR8 => 6
  | kMode_MR1I => 7 | kMode_MR2I => 8 | kMode_MR4I => 9 | kMode_MR8I => 10
  | kMode_M1 => 11 | kMode_M2 => 12 | kMode_M4 => 13 | kMode_M8 => 14
  | kMode_M1I => 15 | kMode_M2I => 16 | kMode_M4I => 17 | kMode_M8I => 18
  | kMode_Root => 19 | kMode_MCR => 20 | kMode_MCRI => 21
  end.

(** A load from [rax + rcx*4 + 16] whose address operands start at input 1. *)
Definition example_converter : Converter :=
  mkConverter
    (mkInstruction kMode_MR4I
       [Int32Input 5; RegisterInput 0; RegisterInput 1; Int32Input 16])
    1.

Lemma MemoryOperand_advances_cursor_witness :
  (exists op c',
      MemoryOperand example_mode_code 13%nat 14%nat example_converter = Some (op, c')
      /\ offset c'
         = (offset example_converter
            + length (required_operands (addressing_mode (instr_ example_converter))))%nat
      /\ (1 <= length (required_operands (addressing_mode (instr_ example_converter)))
          <= 3)%nat
      /\ instr_ c' = instr_ example_converter
      /\ (forall f, mode_factor (addressing_mode (instr_ example_converter)) = Some f ->
            operand_factor op = Some f))
  /\ (forall scale, 0 <= scale <= 3 ->
        exists s, ScaleFactor_of_int scale = Some s /\ factor s = 2 ^ scale)
  /\ (forall c0, addressing_mode (instr_ c0) = kMode_None ->
        MemoryOperand example_mode_code 13%nat 14%nat c0 = None).
Proof.
  apply (MemoryOperand_advances_cursor example_mode_code 13%nat 14%nat
           example_converter).
  - unfold scaled_modes_consecutive, consecutive. simpl. lia.
  - simpl. discriminate.
  - simpl. discriminate.
  - reflexivity.
Defined.

(** An instruction of mode [kMode_M2] with the index register it requires. *)
Definition m2_converter : Converter :=
  mkConverter (mkInstruction kMode_M2 [RegisterInput 1]) 0.

(** C4, as the specification states it, fails at [kMode_M2]: the mode is
    one of the set and the instruction has the operand slot it requires, yet
    [MemoryOperand] is fatal and advances nothing. *)
Lemma MemoryOperand_M2_is_fatal :
  scaled_modes_consecutive example_mode_code
  /\ has_required_operands m2_converter
  /\ required_operands (addressing_mode (instr_ m2_converter)) = [kRegisterSlot]
  /\ MemoryOperand example_mode_code 13%nat 14%nat m2_converter = None.
Proof.
  split_and!; try reflexivity.
  unfold scaled_modes_consecutive, consecutive. simpl. lia.
Qed.

(** ** [MemoryOperand] returns only on well-formed instructions *)

Lemma has_kinds_nil (ops : list InstructionOperand) : has_kinds ops [] = true.
Proof. destruct ops; reflexivity. Qed.

Lemma has_kinds_cons_intro (l : list InstructionOperand) (n : nat) op k kinds :
  l !! n = Some op -> has_kind k op = true ->
  has_kinds (drop (S n) l) kinds = true ->
  has_kinds (drop n l) (k :: kinds) = true.
Proof.
  intros Hop Hk Hrest. rewrite (drop_S l op n Hop). simpl.
  rewrite Hk, Hrest. reflexivity.
Qed.

Lemma conv_bind_inv {A B} (x : Conv A) (f : A -> Conv B) c b c'' :
  conv_bind x f c = Some (b, c'') ->
  exists a c', x c = Some (a, c') /\ f a c' = Some (b, c'').
Proof.
  unfold conv_bind. destruct (x c) as [[a c']|]; [|discriminate]. eauto.
Qed.

Lemma NextOffset_inv (c : Converter) i c' :
  NextOffset c = Some (i, c') ->
  i = offset c /\ c' = mkConverter (instr_ c) (S (offset c)).
Proof. unfold NextOffset. intros [= <- <-]. auto. Qed.

Lemma InputRegister_inv (c : Converter) n r c' :
  InputRegister n c = Some (r, c') ->
  inputs (instr_ c) !! n = Some (RegisterInput r) /\ c' = c.
Proof.
  unfold InputRegister, conv_bind, InputAt.
  destruct (inputs (instr_ c) !! n) as [[r'|v]|]; try discriminate.
  intros [= <- <-]. auto.
Qed.

Lemma InputInt32_inv (c : Converter) n v c' :
  InputInt32 n c = Some (v, c') ->
  inputs (instr_ c) !! n = Some (Int32Input v) /\ c' = c.
Proof.
  unfold InputInt32, conv_bind, InputAt.
  destruct (inputs (instr_ c) !! n) as [[r|v']|]; try discriminate.
  intros [= <- <-]. auto.
Qed.

Lemma ScaleFor_inv mode_code one mode (c : Converter) s c' :
  ScaleFor mode_code one mode c = Some (s, c') -> c' = c.
Proof.
  unfold ScaleFor. destruct (ScaleFactor_of_int _); [|discriminate].
  intros [= _ <-]. reflexivity.
Qed.

(** Takes a successful run of the switch apart, one call at a time. *)
Ltac conv_inv H :=
  repeat
    (let a := fresh "a" in
     let c := fresh "c" in
     let H1 := fresh "H" in
     apply conv_bind_inv in H as (a & c & H1 & H);
     first
       [ apply NextOffset_inv in H1 as [-> ->]
       | apply InputRegister_inv in H1 as [H1 ->]
       | apply InputInt32_inv in H1 as [H1 ->]
       | apply ScaleFor_inv in H1 as -> ];
     cbn [instr_ offset inputs] in *).

(** The converse of the decoding property: whenever [MemoryOperand]
    returns an operand, the addressing mode is neither [kMode_None] nor
    [kMode_M2], the instruction has, from the cursor on, the operand slots
    the mode requires -- none is missing and each is of the right kind --
    and the cursor has moved past exactly these slots.  An instruction that
    lacks a slot, or has a constant where a register is expected, is
    fatal. *)
Theorem MemoryOperand_returns_only_with_operands (mode_code : AddressingMode -> Z)
    (kRootRegister kPtrComprCageBaseRegister : Register) (c : Converter)
    (op : Operand) (c' : Converter) :
  MemoryOperand mode_code kRootRegister kPtrComprCageBaseRegister c = Some (op, c') ->
  addressing_mode (instr_ c) <> kMode_None
  /\ addressing_mode (instr_ c) <> kMode_M2
  /\ has_required_operands c
  /\ c' = mkConverter (instr_ c)
            (offset c + length (required_operands (addressing_mode (instr_ c)))).
Proof.
  destruct c as [[mode ops] n]. unfold has_required_operands, MemoryOperand.
  cbn [instr_ offset addressing_mode inputs].
  intros H.
  destruct mode; try discriminate H; cbn [required_operands length];
    conv_inv H; injection H as <- <-;
    (split_and!; [discriminate|discriminate| |f_equal; lia]);
    repeat (eapply has_kinds_cons_intro; [eassumption|reflexivity|]);
    apply has_kinds_nil.
Qed.

(** The cursor is an offset into the inputs: decoding from input
    [first_input] on is decoding, from the start, the instruction without
    its first [first_input] inputs. *)
Theorem MemoryOperand_from_drop (mode_code : AddressingMode -> Z)
    (kRootRegister kPtrComprCageBaseRegister : Register)
    (mode : AddressingMode) (ops : list InstructionOperand) (first_input : nat) :
  MemoryOperand_from mode_code kRootRegister kPtrComprCageBaseRegister
    (mkInstruction mode ops) first_input
  = MemoryOperand_from mode_code kRootRegister kPtrComprCageBaseRegister
      (mkInstruction mode (drop first_input ops)) 0.
Proof.
  unfold MemoryOperand_from, MemoryOperand.
  cbn [instr_ addressing_mode].
  assert (H0 : drop first_input ops !! 0%nat = ops !! first_input)
    by (rewrite lookup_drop; f_equal; lia).
  assert (H1 : drop first_input ops !! 1%nat = ops !! S first_input)
    by (rewrite lookup_drop; f_equal; lia).
  assert (H2 : drop first_input ops !! 2%nat = ops !! S (S first_input))
    by (rewrite lookup_drop; f_equal; lia).
  destruct mode;
    unfold ScaleFor, conv_bind, NextOffset, InputRegister, InputInt32, InputAt,
      conv_bind, conv_ret, UNREACHABLE;
    repeat first
      [ rewrite H0 | rewrite H1 | rewrite H2
      | progress cbn [instr_ offset inputs addressing_mode]
      | match goal with
        | |- context [ops !! ?i] => destruct (ops !! i) as [[?|?]|] eqn:?
        | |- context [ScaleFactor_of_int ?z] => destruct (ScaleFactor_of_int z)
        end ];
    reflexivity.
Qed.

Lemma MemoryOperand_returns_only_with_operands_witness :
  addressing_mode (instr_ example_converter) <> kMode_None
  /\ addressing_mode (instr_ example_converter) <> kMode_M2
  /\ has_required_operands example_converter
  /\ mkConverter (instr_ example_converter) 4
     = mkConverter (instr_ example_converter)
         (offset example_converter
          + length (required_operands (addressing_mode (instr_ example_converter)))).
Proof.
  apply (MemoryOperand_returns_only_with_operands example_mode_code 13%nat 14%nat
           example_converter (OperandBaseIndex 0%nat 1%nat times_4 16)
           (mkConverter (instr_ example_converter) 4)).
  reflexivity.
Defined.

End X64OperandConverter.

(** * [MaglevCodeGenerator::EmitDeferredCode]
    (src/maglev/maglev-code-generator.cc) *)

Module DeferredCode.

Section EmitDeferredCode.

(** The deferred blocks and the instructions of their bodies. *)
Variable DeferredCodeInfo : Type.
Variable BodyInstr : Type.

Inductive Instr :=
  | RecordComment (comment : string)
  | bind (deferred_code_label : DeferredCodeInfo)
  | Trap
  | Body (i : BodyInstr).

(** What code generation acts on: the code emitted so far and the queue
    of deferred blocks of the code generation state. *)
Record MaglevAssembler := mkMaglevAssembler {
  code : list Instr;
  deferred_code : list DeferredCodeInfo
}.

Definition emit (i : Instr) (masm : MaglevAssembler) : MaglevAssembler :=
  mkMaglevAssembler (code masm ++ [i]) (deferred_code masm).

(** [deferred_code->Generate(masm())]: the body of a deferred block; it
    emits code and may push deferred blocks. *)
Variable Generate : DeferredCodeInfo -> MaglevAssembler -> MaglevAssembler.

(** [TakeDeferredCode] hands the queue over and leaves it empty. *)
Definition TakeDeferredCode (masm : MaglevAssembler)
  : list DeferredCodeInfo * MaglevAssembler :=
  (deferred_code masm, mkMaglevAssembler (code masm) []).

(** The body of the inner loop. *)
Definition EmitDeferredBlock (masm : MaglevAssembler) (d : DeferredCodeInfo)
  : MaglevAssembler :=
  emit Trap (Generate d (emit (bind d) (emit (RecordComment "-- Deferred block") masm))).

(** One iteration of the outer loop. *)
Definition drain (masm : MaglevAssembler) : MaglevAssembler :=
  let (taken, masm') := TakeDeferredCode masm in
  foldl EmitDeferredBlock masm' taken.

(** [EmitDeferredCode], with the number of iterations its outer loop makes;
    [fuel] bounds the number of times the loop condition is tested. *)
Fixpoint EmitDeferredCode (fuel : nat) (masm : MaglevAssembler)
  : option (nat * MaglevAssembler) :=
  match fuel with
  | O => None
  | S fuel' =>
      match deferred_code masm with
      | [] => Some (O, masm)
      | _ :: _ =>
          match EmitDeferredCode fuel' (drain masm) with
          | Some (n, masm') => Some (S n, masm')
          | None => None
          end
      end
  end.

(** ** Deferred blocks nest to a finite depth *)

(** A measure of the nesting of deferred blocks. *)
Variable rank : DeferredCodeInfo -> nat.

(** The number of outer iterations a queue can need: one more than the
    largest rank in it, none for the empty queue. *)
Definition rank_bound (queue : list DeferredCodeInfo) : nat :=
  foldr (fun d b => Nat.max (S (rank d)) b) O queue.

Lemma rank_bound_spec queue n :
  (rank_bound queue <= n)%nat <-> (forall d, d ∈ queue -> (rank d < n)%nat).
Proof.
  induction queue as [|d queue IH]; simpl.
  - split; [intros _ d Hd; inversion Hd|intros _; lia].
  - split.
    + intros H d' [->|Hd']%elem_of_cons; [lia|].
      apply IH; [lia|exact Hd'].
    + intros H. apply Nat.max_lub.
      * apply H. left.
      * apply IH. intros d' Hd'. apply H. right. exact Hd'.
Qed.

(** A block pushes only blocks of smaller rank. *)
Hypothesis Generate_rank : forall d masm d',
  d' ∈ deferred_code (Generate d masm) ->
  d' ∈ deferred_code masm \/ (rank d' < rank d)%nat.

Lemma foldl_EmitDeferredBlock_rank taken n masm :
  (forall d, d ∈ taken -> (rank d < S n)%nat) ->
  (forall d, d ∈ deferred_code masm -> (rank d < n)%nat) ->
  forall d, d ∈ deferred_code (foldl EmitDeferredBlock masm taken) -> (rank d < n)%nat.
Proof.
  revert masm. induction taken as [|d0 taken IH]; intros masm Htaken Hq; simpl.
  - exact Hq.
  - apply IH.
    + intros d Hd. apply Htaken. right. exact Hd.
    + intros d Hd. unfold EmitDeferredBlock, emit in Hd. simpl in Hd.
      apply Generate_rank in Hd as [Hd|Hd].
      * simpl in Hd. apply Hq. exact Hd.
      * assert (rank d0 < S n)%nat by (apply Htaken; left). lia.
Qed.

Lemma drain_rank masm n :
  (rank_bound (deferred_code masm) <= S n)%nat ->
  (rank_bound (deferred_code (drain masm)) <= n)%nat.
Proof.
  intros H. apply rank_bound_spec. unfold drain, TakeDeferredCode.
  apply foldl_EmitDeferredBlock_rank.
  - apply rank_bound_spec. exact H.
  - simpl. intros d Hd. inversion Hd.
Qed.

Lemma EmitDeferredCode_fuel n : forall masm,
  (rank_bound (deferred_code masm) <= n)%nat ->
  exists iterations masm',
    EmitDeferredCode (S n) masm = Some (iterations, masm')
    /\ (iterations <= n)%nat
    /\ deferred_code masm' = [].
Proof.
  induction n as [|n IH]; intros masm Hb.
  - destruct (deferred_code masm) as [|d q] eqn:Hq.
    + exists O, masm. simpl. rewrite Hq. auto.
    + simpl in Hb. lia.
  - destruct (deferred_code masm) as [|d q] eqn:Hq.
    + exists O, masm. simpl. rewrite Hq. split_and!; [reflexivity|lia|reflexivity].
    + destruct (IH (drain masm)) as (k & masm' & Hk & Hle & Hempty).
      { apply drain_rank. rewrite Hq. exact Hb. }
      exists (S k), masm'.
      change (EmitDeferredCode (S (S n)) masm)
        with (match deferred_code masm with
              | [] => Some (O, masm)
              | _ :: _ =>
                  match EmitDeferredCode (S n) (drain masm) with
                  | Some (n, masm') => Some (S n, masm')
                  | None => None
                  end
              end).
      rewrite Hq, Hk. split_and!; [reflexivity|lia|exact Hempty].
Qed.

Lemma EmitDeferredCode_iter fuel : forall masm iterations masm',
  EmitDeferredCode fuel masm = Some (iterations, masm') ->
  masm' = Nat.iter iterations drain masm
  /\ (forall k, (k < iterations)%nat -> deferred_code (Nat.iter k drain masm) <> [])
  /\ deferred_code masm' = [].
Proof.
  induction fuel as [|fuel IH]; intros masm n masm' H; [discriminate|].
  simpl in H. destruct (deferred_code masm) as [|d q] eqn:Hq.
  - injection H as <- <-. split_and!; [reflexivity|intros k Hk; lia|exact Hq].
  - destruct (EmitDeferredCode fuel (drain masm)) as [[n0 masm0]|] eqn:Hrec;
      [|discriminate].
    injection H as <- <-.
    destruct (IH _ _ _ Hrec) as (Hiter & Hne & Hempty).
    split_and!.
    + rewrite Nat.iter_succ_r. exact Hiter.
    + intros [|k] Hk.
      * simpl. rewrite Hq. discriminate.
      * rewrite Nat.iter_succ_r. apply Hne. lia.
    + exact Hempty.
Qed.

(** ** No deferred block is left out *)

(** Code generation appends: a block's body is emitted after the code
    that is there. *)
Hypothesis Generate_code : forall d masm,
  exists body, code (Generate d masm) = code masm ++ body.

(** The code holds the block [d]: its comment, its label, a body and the
    trap that closes it. *)
Definition block_emitted (d : DeferredCodeInfo) (c : list Instr) : Prop :=
  exists pre body post,
    c = pre ++ [RecordComment "-- Deferred block"; bind d] ++ body ++ Trap :: post.

Lemma block_emitted_app d c rest : block_emitted d c -> block_emitted d (c ++ rest).
Proof.
  intros (pre & body & post & ->). exists pre, body, (post ++ rest).
  rewrite <- !app_assoc. simpl. rewrite <- ?app_assoc. reflexivity.
Qed.

Lemma EmitDeferredBlock_code masm d :
  exists body,
    code (EmitDeferredBlock masm d)
    = code masm ++ [RecordComment "-- Deferred block"; bind d] ++ body ++ [Trap].
Proof.
  unfold EmitDeferredBlock.
  destruct (Generate_code d (emit (bind d) (emit (RecordComment "-- Deferred block") masm)))
    as (body & Hbody).
  exists body. unfold emit at 1. cbn [code]. rewrite Hbody.
  unfold emit. cbn [code]. rewrite <- !app_assoc. reflexivity.
Qed.

Lemma foldl_EmitDeferredBlock_code taken : forall masm,
  (exists rest, code (foldl EmitDeferredBlock masm taken) = code masm ++ rest)
  /\ forall d, d ∈ taken -> block_emitted d (code (foldl EmitDeferredBlock masm taken)).
Proof.
  induction taken as [|d0 taken IH]; intros masm; simpl.
  - split; [exists []; rewrite app_nil_r; reflexivity|]. intros d Hd. inversion Hd.
  - destruct (IH (EmitDeferredBlock masm d0)) as [(rest & Hrest) Hblocks].
    destruct (EmitDeferredBlock_code masm d0) as (body & Hbody).
    split.
    + eexists. rewrite Hrest, Hbody, <- app_assoc. reflexivity.
    + intros d Hd. apply elem_of_cons in Hd as [->|Hd]; [|apply Hblocks, Hd].
      rewrite Hrest. apply block_emitted_app.
      exists (code masm), body, []. rewrite Hbody. reflexivity.
Qed.

Lemma drain_code masm :
  (exists rest, code (drain masm) = code masm ++ rest)
  /\ forall d, d ∈ deferred_code masm -> block_emitted d (code (drain masm)).
Proof.
  unfold drain, TakeDeferredCode.
  apply (foldl_EmitDeferredBlock_code (deferred_code masm)
           (mkMaglevAssembler (code masm) [])).
Qed.

Lemma iter_drain_code j : forall masm,
  exists rest, code (Nat.iter j drain masm) = code masm ++ rest.
Proof.
  induction j as [|j IH]; intros masm; simpl.
  - exists []. rewrite app_nil_r. reflexivity.
  - destruct (IH masm) as (rest & Hrest).
    destruct (drain_code (Nat.iter j drain masm)) as [(rest' & Hrest') _].
    eexists. rewrite Hrest', Hrest, <- app_assoc. reflexivity.
Qed.

(** Every deferred block is emitted.  When code generation appends, the
    code [EmitDeferredCode] returns extends the code it started from, and
    it holds every block that was in the queue at the start of an iteration
    of the outer loop -- those of the first queue and those pushed while
    blocks were generated: the comment, the label of the block bound, a
    body, and the trap that closes it. *)
Theorem EmitDeferredCode_emits_every_block (fuel : nat) (masm : MaglevAssembler)
    (iterations : nat) (masm' : MaglevAssembler) :
  EmitDeferredCode fuel masm = Some (iterations, masm') ->
  (exists emitted, code masm' = code masm ++ emitted)
  /\ forall k d, (k < iterations)%nat ->
       d ∈ deferred_code (Nat.iter k drain masm) ->
       block_emitted d (code masm').
Proof.
  intros Hrun. destruct (EmitDeferredCode_iter _ _ _ _ Hrun) as (-> & _ & _).
  split; [apply iter_drain_code|].
  intros k d Hk Hd.
  replace iterations with ((iterations - S k) + S k)%nat by lia.
  rewrite Nat.iter_add.
  destruct (iter_drain_code (iterations - S k) (Nat.iter (S k) drain masm))
    as (rest & ->).
  apply block_emitted_app. simpl.
  apply (proj2 (drain_code (Nat.iter k drain masm))). exact Hd.
Qed.

(** ** The code [EmitDeferredCode] emits *)

(** A body reaches the queue through [PushDeferredCode] only: the blocks it
    pushes are added at the end of the queue. *)
Hypothesis Generate_pushes : forall d masm,
  exists pushed, deferred_code (Generate d masm) = deferred_code masm ++ pushed.

(** A call of [Generate]: the block, and the assembler at the call. *)
Definition GenerateCall : Type := DeferredCodeInfo * MaglevAssembler.

(** What [Generate] emits for the block [d] when it is called in the state
    [before]. *)
Definition generated (d : DeferredCodeInfo) (before : MaglevAssembler) : list Instr :=
  drop (length (code before)) (code (Generate d before)).

(** The code of one pass of the inner loop: the comment, the label of the
    block, what [Generate] emits, and the trap. *)
Definition block_code (call : GenerateCall) : list Instr :=
  [RecordComment "-- Deferred block"; bind call.1] ++ generated call.1 call.2 ++ [Trap].

(** The assembler when the inner loop calls [Generate] for [d]. *)
Definition before_Generate (masm : MaglevAssembler) (d : DeferredCodeInfo)
  : MaglevAssembler :=
  emit (bind d) (emit (RecordComment "-- Deferred block") masm).

(** The calls of [Generate] the inner loop makes for the blocks [taken]. *)
Fixpoint inner_loop_calls (masm : MaglevAssembler) (taken : list DeferredCodeInfo)
  : list GenerateCall :=
  match taken with
  | [] => []
  | d :: taken' =>
      (d, before_Generate masm d) :: inner_loop_calls (EmitDeferredBlock masm d) taken'
  end.

Lemma Generate_generated d before :
  code (Generate d before) = code before ++ generated d before.
Proof.
  unfold generated. destruct (Generate_code d before) as (body & ->).
  rewrite drop_app_length. reflexivity.
Qed.

Lemma EmitDeferredBlock_block_code masm d :
  code (EmitDeferredBlock masm d) = code masm ++ block_code (d, before_Generate masm d).
Proof.
  unfold EmitDeferredBlock. fold (before_Generate masm d).
  unfold emit at 1. cbn [code]. rewrite Generate_generated.
  unfold block_code, before_Generate, emit. cbn [code fst snd].
  rewrite <- !app_assoc. reflexivity.
Qed.

Lemma EmitDeferredBlock_queue masm d :
  deferred_code (EmitDeferredBlock masm d) = deferred_code (Generate d (before_Generate masm d)).
Proof. reflexivity. Qed.

Lemma foldl_EmitDeferredBlock_queue taken : forall masm d,
  d ∈ deferred_code masm -> d ∈ deferred_code (foldl EmitDeferredBlock masm taken).
Proof.
  induction taken as [|d0 taken IH]; intros masm d Hd; [exact Hd|].
  cbn [foldl]. apply IH. rewrite EmitDeferredBlock_queue.
  destruct (Generate_pushes d0 (before_Generate masm d0)) as (pushed & ->).
  apply elem_of_app. left. exact Hd.
Qed.

Lemma inner_loop_calls_spec taken : forall masm,
  code (foldl EmitDeferredBlock masm taken)
  = code masm ++ concat (block_code <$> inner_loop_calls masm taken)
  /\ (inner_loop_calls masm taken).*1 = taken
  /\ (forall i d before,
        inner_loop_calls masm taken !! i = Some (d, before) ->
        code before
        = code masm ++ concat (block_code <$> take i (inner_loop_calls masm taken))
            ++ [RecordComment "-- Deferred block"; bind d])
  /\ (forall d before d',
        (d, before) ∈ inner_loop_calls masm taken ->
        d' ∈ deferred_code (Generate d before) ->
        d' ∈ deferred_code (foldl EmitDeferredBlock masm taken))
  /\ (forall d',
        d' ∈ deferred_code (foldl EmitDeferredBlock masm taken) ->
        d' ∈ deferred_code masm
        \/ exists d before,
             (d, before) ∈ inner_loop_calls masm taken
             /\ d' ∈ deferred_code (Generate d before)).
Proof.
  induction taken as [|d0 taken IH]; intros masm; cbn [foldl inner_loop_calls].
  - split_and!.
    + cbn. rewrite app_nil_r. reflexivity.
    + reflexivity.
    + intros i d before Hi. rewrite lookup_nil in Hi. discriminate.
    + intros d before d' Hin. inversion Hin.
    + intros d' Hd'. left. exact Hd'.
  - destruct (IH (EmitDeferredBlock masm d0)) as (Hcode & Hfst & Hbefore & Hkept & Horigin).
    split_and!.
    + rewrite Hcode, EmitDeferredBlock_block_code. cbn [fmap list_fmap concat].
      rewrite <- !app_assoc. reflexivity.
    + cbn [fmap list_fmap fst]. f_equal. exact Hfst.
    + intros [|i] d before Hi.
      * injection Hi as <- <-. unfold before_Generate, emit. cbn.
        rewrite <- !app_assoc. reflexivity.
      * cbn [lookup list_lookup] in Hi. rewrite (Hbefore i d before Hi).
        rewrite EmitDeferredBlock_block_code. cbn [take fmap list_fmap concat].
        rewrite <- !app_assoc. reflexivity.
    + intros d before d' Hin Hd'. apply elem_of_cons in Hin as [[= -> ->]|Hin].
      * apply foldl_EmitDeferredBlock_queue. rewrite EmitDeferredBlock_queue. exact Hd'.
      * eapply Hkept; eauto.
    + intros d' Hd'. right. destruct (Horigin d' Hd') as [Hd0|(d & before & Hin & Hd)].
      * exists d0, (before_Generate masm d0). split; [left|].
        rewrite EmitDeferredBlock_queue in Hd0. exact Hd0.
      * exists d, before. split; [right; exact Hin|exact Hd].
Qed.

(** The calls of [Generate] of one iteration of the outer loop. *)
Definition drain_calls (masm : MaglevAssembler) : list GenerateCall :=
  inner_loop_calls (TakeDeferredCode masm).2 (deferred_code masm).

Lemma drain_calls_spec masm :
  code (drain masm) = code masm ++ concat (block_code <$> drain_calls masm)
  /\ (drain_calls masm).*1 = deferred_code masm
  /\ (forall i d before,
        drain_calls masm !! i = Some (d, before) ->
        code before
        = code masm ++ concat (block_code <$> take i (drain_calls masm))
            ++ [RecordComment "-- Deferred block"; bind d])
  /\ (forall d before d',
        (d, before) ∈ drain_calls masm ->
        d' ∈ deferred_code (Generate d before) ->
        d' ∈ deferred_code (drain masm))
  /\ (forall d',
        d' ∈ deferred_code (drain masm) ->
        exists d before,
          (d, before) ∈ drain_calls masm /\ d' ∈ deferred_code (Generate d before)).
Proof.
  unfold drain, drain_calls, TakeDeferredCode. cbn [snd].
  destruct (inner_loop_calls_spec (deferred_code masm) (mkMaglevAssembler (code masm) []))
    as (Hcode & Hfst & Hbefore & Hkept & Horigin).
  split_and!; auto.
  intros d' Hd'. destruct (Horigin d' Hd') as [Hnil|H]; [inversion Hnil|exact H].
Qed.

(** The calls of [Generate] of a run of [EmitDeferredCode], in their order:
    the code is the code of these calls; each call is made with the code of
    the calls before it and the start of its own block emitted; the blocks
    generated are those of the queue at the start and those pushed while a
    block was generated, and no others. *)
Lemma EmitDeferredCode_calls fuel : forall masm iterations masm',
  EmitDeferredCode fuel masm = Some (iterations, masm') ->
  exists calls : list GenerateCall,
    code masm' = code masm ++ concat (block_code <$> calls)
    /\ (forall i d before,
          calls !! i = Some (d, before) ->
          code before
          = code masm ++ concat (block_code <$> take i calls)
              ++ [RecordComment "-- Deferred block"; bind d])
    /\ (forall d, d ∈ deferred_code masm -> d ∈ calls.*1)
    /\ (forall d before d',
          (d, before) ∈ calls -> d' ∈ deferred_code (Generate d before) ->
          d' ∈ calls.*1)
    /\ (forall d',
          d' ∈ calls.*1 ->
          d' ∈ deferred_code masm
          \/ exists d before,
               (d, before) ∈ calls /\ d' ∈ deferred_code (Generate d before)).
Proof.
  induction fuel as [|fuel IH]; intros masm n masm' H; [discriminate|].
  cbn [EmitDeferredCode] in H. destruct (deferred_code masm) as [|d0 q] eqn:Hq.
  - injection H as <- <-. exists []. split_and!.
    + cbn. rewrite app_nil_r. reflexivity.
    + intros i d before Hi. rewrite lookup_nil in Hi. discriminate.
    + intros d Hd. inversion Hd.
    + intros d before d' Hin. inversion Hin.
    + intros d' Hd'. inversion Hd'.
  - destruct (EmitDeferredCode fuel (drain masm)) as [[n0 masm0]|] eqn:Hrec;
      [|discriminate].
    injection H as <- <-.
    destruct (IH _ _ _ Hrec) as (calls & Hcode & Hbefore & Hfirst & Hpushed & Horigin).
    destruct (drain_calls_spec masm) as (Hcode0 & Hfst0 & Hbefore0 & Hkept0 & Horigin0).
    rewrite Hq in Hfst0.
    exists (drain_calls masm ++ calls). split_and!.
    + rewrite Hcode, Hcode0, fmap_app, concat_app, <- !app_assoc. reflexivity.
    + intros i d before Hi. apply lookup_app_Some in Hi as [Hi|[Hle Hi]].
      * pose proof (lookup_lt_Some _ _ _ Hi) as Hlt.
        rewrite take_app_le by (apply Nat.lt_le_incl; exact Hlt).
        apply Hbefore0. exact Hi.
      * rewrite take_app_ge by exact Hle.
        rewrite (Hbefore _ d before Hi), Hcode0, fmap_app, concat_app, <- !app_assoc.
        reflexivity.
    + intros d Hd. rewrite fmap_app, Hfst0. apply elem_of_app. left. exact Hd.
    + intros d before d' Hin Hd'. rewrite fmap_app. apply elem_of_app. right.
      apply elem_of_app in Hin as [Hin|Hin].
      * apply Hfirst. eapply Hkept0; eauto.
      * eapply Hpushed; eauto.
    + intros d' Hd'. rewrite fmap_app, Hfst0 in Hd'.
      apply elem_of_app in Hd' as [Hd'|Hd']; [left; exact Hd'|right].
      destruct (Horigin d' Hd') as [Hd0|(d & before & Hin & Hd)].
      * destruct (Horigin0 d' Hd0) as (d & before & Hin & Hd).
        exists d, before. split; [apply elem_of_app; left; exact Hin|exact Hd].
      * exists d, before. split; [apply elem_of_app; right; exact Hin|exact Hd].
Qed.


End EmitDeferredCode.

Arguments mkMaglevAssembler {DeferredCodeInfo BodyInstr} code deferred_code.
Arguments code {DeferredCodeInfo BodyInstr} m.
Arguments deferred_code {DeferredCodeInfo BodyInstr} m.
Arguments Body {DeferredCodeInfo BodyInstr} i.
Arguments emit {DeferredCodeInfo BodyInstr} i masm.
Arguments drain {DeferredCodeInfo BodyInstr} Generate masm.
Arguments EmitDeferredCode {DeferredCodeInfo BodyInstr} Generate fuel masm.
Arguments rank_bound {DeferredCodeInfo} rank queue.
Arguments block_code {DeferredCodeInfo BodyInstr} Generate call.

(** ** An instance: a block of depth [n] pushes a block of depth [n - 1] *)

Definition example_Generate (d : nat) (masm : MaglevAssembler nat string)
  : MaglevAssembler nat string :=
  match d with
  | O => emit (Body "runtime call"%string) masm
  | S d' =>
      mkMaglevAssembler (code masm ++ [Body "write barrier"%string])
                        (deferred_code masm ++ [d'])
  end.

Definition example_masm : MaglevAssembler nat string :=
  mkMaglevAssembler [] [2; 0]%nat.

Lemma example_Generate_code (d : nat) (masm : MaglevAssembler nat string) :
  exists body, code (example_Generate d masm) = code masm ++ body.
Proof. destruct d; simpl; eexists; reflexivity. Qed.

Lemma example_Generate_rank (d : nat) (masm : MaglevAssembler nat string) (d' : nat) :
  d' ∈ deferred_code (example_Generate d masm) ->
  d' ∈ deferred_code masm \/ (id d' < id d)%nat.
Proof.
  intros Hd'. destruct d as [|d]; simpl in Hd'.
  - left. exact Hd'.
  - apply elem_of_app in Hd' as [Hd'|Hd'].
    + left. exact Hd'.
    + right. apply list_elem_of_singleton in Hd'. subst d'. unfold id. lia.
Qed.

Lemma example_Generate_pushes (d : nat) (masm : MaglevAssembler nat string) :
  exists pushed, deferred_code (example_Generate d masm) = deferred_code masm ++ pushed.
Proof.
  destruct d; simpl; [exists []; rewrite app_nil_r; reflexivity|eexists; reflexivity].
Qed.


(** The code of the example: the blocks of depth 2 and 0 of the first
    queue, then the block of depth 1 that the first pushed, then the block
    of depth 0 that this one pushed. *)
Lemma example_deferred_code :
  code <$> (snd <$> EmitDeferredCode example_Generate 4 example_masm)
  = Some [ RecordComment nat string "-- Deferred block"; bind nat string 2%nat;
           Body "write barrier"%string; Trap nat string;
           RecordComment nat string "-- Deferred block"; bind nat string 0%nat;
           Body "runtime call"%string; Trap nat string;
           RecordComment nat string "-- Deferred block"; bind nat string 1%nat;
           Body "write barrier"%string; Trap nat string;
           RecordComment nat string "-- Deferred block"; bind nat string 0%nat;
           Body "runtime call"%string; Trap nat string ].
Proof. reflexivity. Qed.

(** ** The outer loop has no bound of its own *)

(** A body that defers a block like its own. *)
Definition requeue_Generate (d : unit) (masm : MaglevAssembler unit string)
  : MaglevAssembler unit string :=
  mkMaglevAssembler (code masm ++ [Body "deferred again"%string])
                    (deferred_code masm ++ [d]).

Definition requeue_masm : MaglevAssembler unit string :=
  mkMaglevAssembler [] [tt].

Lemma drain_requeue (masm : MaglevAssembler unit string) :
  deferred_code masm = [tt] -> deferred_code (drain requeue_Generate masm) = [tt].
Proof. intros H. unfold drain. simpl. rewrite H. reflexivity. Qed.

Lemma EmitDeferredCode_requeue fuel : forall masm : MaglevAssembler unit string,
  deferred_code masm = [tt] -> EmitDeferredCode requeue_Generate fuel masm = None.
Proof.
  induction fuel as [|fuel IH]; intros masm H; [reflexivity|].
  cbn [EmitDeferredCode]. rewrite H, (IH _ (drain_requeue masm H)). reflexivity.
Qed.


(** The block of depth 1 that the block of depth 2 pushes is in the queue
    of the second iteration. *)
Lemma EmitDeferredCode_emits_every_block_witness :
  exists masm',
    EmitDeferredCode example_Generate 4 example_masm = Some (3%nat, masm')
    /\ (exists emitted, code masm' = code example_masm ++ emitted)
    /\ forall k d, (k < 3)%nat ->
         d ∈ deferred_code (Nat.iter k (drain example_Generate) example_masm) ->
         block_emitted nat string d (code masm').
Proof.
  eexists. split; [reflexivity|].
  apply (EmitDeferredCode_emits_every_block nat string example_Generate
           example_Generate_code 4 example_masm 3).
  reflexivity.
Defined.

End DeferredCode.

(** * Stores with write barrier
    ([kArchStoreWithWriteBarrier], [kArchAtomicStoreWithWriteBarrier] and
    [OutOfLineRecordWrite] of src/compiler/backend/x64/code-generator-x64.cc) *)

Module WriteBarrier.

Abbreviation Register := nat.

Inductive RecordWriteMode :=
  | kValueIsMap
  | kValueIsPointer
  | kValueIsEphemeronKey
  | kValueIsAny.

Inductive SaveFPRegsMode := kIgnore | kSave.

Inductive StubCallMode := kCallCodeObject | kCallWasmRuntimeStub | kCallBuiltinPointer.

Inductive Condition := zero | not_zero | not_equal.

(** The two labels of an out-of-line code object. *)
Inductive Label := entry | exit.

Inductive ArchOpcode := kArchStoreWithWriteBarrier | kArchAtomicStoreWithWriteBarrier.

Section Barrier.

(** Memory operands and the address they denote. *)
Variable Operand : Type.
Variable effective_address : (Register -> Z) -> Operand -> Z.

(** The instructions the two code generators emit.  The last argument of
    [CallRecordWriteStubSaveRegisters] is optional in the source. *)
Inductive Instr :=
  | Cmp (r : Register) (imm : Z)
  | Check (cc : Condition) (reason : string)
  | StoreTaggedField (dst : Operand) (value : Register)
  | AtomicStoreTaggedField (dst : Operand) (value : Register)
  | JumpIfSmi (r : Register) (target : Label)
  | CheckPageFlag (object scratch : Register) (mask : Z) (cc : Condition) (target : Label)
  | bind (l : Label)
  | DecompressTaggedPointer (dst src : Register)
  | leaq (dst : Register) (src : Operand)
  | CallEphemeronKeyBarrier (object slot_address : Register) (fp_mode : SaveFPRegsMode)
  | CallRecordWriteStubSaveRegisters (object slot_address : Register)
      (fp_mode : SaveFPRegsMode) (mode : option StubCallMode).

(** Build configuration, flags and constants of other files. *)
Variable COMPRESS_POINTERS_BOOL : bool.
Variable V8_ENABLE_WEBASSEMBLY : bool.
Variable debug_code : bool.
Variable kPointersFromHereAreInterestingMask : Z.
Variable kPointersToHereAreInterestingOrInSharedHeapMask : Z.
Variable kClearedWeakHeapObjectLower32 : Z.

(** The numeric values of the enumerators of [RecordWriteMode]. *)
Variable mode_code : RecordWriteMode -> Z.

Record OutOfLineRecordWrite := mkOutOfLineRecordWrite {
  object_ : Register;
  operand_ : Operand;
  value_ : Register;
  scratch0_ : Register;
  scratch1_ : Register;
  mode_ : RecordWriteMode;
  stub_mode_ : StubCallMode
}.

Definition RecordWriteMode_eqb (a b : RecordWriteMode) : bool :=
  match a, b with
  | kValueIsMap, kValueIsMap
  | kValueIsPointer, kValueIsPointer
  | kValueIsEphemeronKey, kValueIsEphemeronKey
  | kValueIsAny, kValueIsAny => true
  | _, _ => false
  end.

Definition StubCallMode_eqb (a b : StubCallMode) : bool :=
  match a, b with
  | kCallCodeObject, kCallCodeObject
  | kCallWasmRuntimeStub, kCallWasmRuntimeStub
  | kCallBuiltinPointer, kCallBuiltinPointer => true
  | _, _ => false
  end.

(** [OutOfLineRecordWrite::Generate]; [DidAllocateDoubleRegisters] is the
    answer of [frame()->DidAllocateDoubleRegisters()]. *)
Definition Generate (ool : OutOfLineRecordWrite) (DidAllocateDoubleRegisters : bool)
  : list Instr :=
  (if COMPRESS_POINTERS_BOOL
   then [DecompressTaggedPointer (value_ ool) (value_ ool)] else [])
  ++ [CheckPageFlag (value_ ool) (scratch0_ ool)
        kPointersToHereAreInterestingOrInSharedHeapMask zero exit;
      leaq (scratch1_ ool) (operand_ ool)]
  ++ (let save_fp_mode := if DidAllocateDoubleRegisters then kSave else kIgnore in
      if RecordWriteMode_eqb (mode_ ool) kValueIsEphemeronKey then
        [CallEphemeronKeyBarrier (object_ ool) (scratch1_ ool) save_fp_mode]
      else if V8_ENABLE_WEBASSEMBLY
                && StubCallMode_eqb (stub_mode_ ool) kCallWasmRuntimeStub then
        [CallRecordWriteStubSaveRegisters (object_ ool) (scratch1_ ool) save_fp_mode
           (Some kCallWasmRuntimeStub)]
      else
        [CallRecordWriteStubSaveRegisters (object_ ool) (scratch1_ ool) save_fp_mode
           None]).

(** [EmitTSANAwareStore] for a tagged value, in a build without TSAN: the
    store of [EmitStore]. *)
Definition EmitTSANAwareStore (arch_opcode : ArchOpcode) (operand : Operand)
    (value : Register) : list Instr :=
  match arch_opcode with
  | kArchStoreWithWriteBarrier => [StoreTaggedField operand value]
  | kArchAtomicStoreWithWriteBarrier => [AtomicStoreTaggedField operand value]
  end.

(** The case of [kArchStoreWithWriteBarrier] and
    [kArchAtomicStoreWithWriteBarrier] in [AssembleArchInstruction]: the
    code emitted in line and the out-of-line code object.  The registers and
    the operand are those the operand converter reads from the
    instruction. *)
Definition AssembleStoreWithWriteBarrier (arch_opcode : ArchOpcode)
    (mode : RecordWriteMode) (object : Register) (operand : Operand)
    (value scratch0 scratch1 : Register) (stub_mode : StubCallMode)
  : list Instr * OutOfLineRecordWrite :=
  let ool :=
    mkOutOfLineRecordWrite object operand value scratch0 scratch1 mode stub_mode in
  ((if debug_code
    then [Cmp value kClearedWeakHeapObjectLower32;
          Check not_equal "kOperandIsCleared"]
    else [])
   ++ EmitTSANAwareStore arch_opcode operand value
   ++ (if mode_code kValueIsPointer <? mode_code mode
       then [JumpIfSmi value exit] else [])
   ++ [CheckPageFlag object scratch0 kPointersFromHereAreInterestingMask
         not_zero entry;
       bind exit],
   ool).

(** ** A reference semantics of the emitted code *)

(** The heap as the barrier sees it: whether a tagged value is a smi, the
    start of the page of an address and the flags of that page; and pointer
    decompression. *)
Variable is_smi : Z -> bool.
Variable page_of : Z -> Z.
Variable page_flags : Z -> Z.
Variable decompress : Z -> Z.

Inductive Event :=
  | EnterOutOfLine
  | EphemeronKeyBarrier (object slot_address : Register) (fp_mode : SaveFPRegsMode)
  | RecordWriteStub (object slot_address : Register) (fp_mode : SaveFPRegsMode)
      (mode : option StubCallMode).

Record Machine := mkMachine {
  regs : Register -> Z;
  mem : Z -> Z;
  zf : bool;
  trace : list Event
}.

Definition write_reg (r : Register) (v : Z) (m : Machine) : Machine :=
  mkMachine (fun r' => if Nat.eqb r' r then v else regs m r') (mem m) (zf m) (trace m).

Definition write_mem (a v : Z) (m : Machine) : Machine :=
  mkMachine (regs m) (fun a' => if a' =? a then v else mem m a') (zf m) (trace m).

Definition set_zf (b : bool) (m : Machine) : Machine :=
  mkMachine (regs m) (mem m) b (trace m).

Definition record (e : Event) (m : Machine) : Machine :=
  mkMachine (regs m) (mem m) (zf m) (trace m ++ [e]).

Definition holds (cc : Condition) (m : Machine) : bool :=
  match cc with
  | zero => zf m
  | not_zero | not_equal => negb (zf m)
  end.

Definition lower32 (v : Z) : Z := Z.land v (2 ^ 32 - 1).

(** The outcome of an instruction without the labels: the next machine and
    the label jumped to, if any; [None] is an abort. *)
Definition exec_instr (i : Instr) (m : Machine) : option (Machine * option Label) :=
  match i with
  | Cmp r imm => Some (set_zf (lower32 (regs m r) =? lower32 imm) m, None)
  | Check cc _ => if holds cc m then Some (m, None) else None
  | StoreTaggedField dst value
  | AtomicStoreTaggedField dst value =>
      Some (write_mem (effective_address (regs m) dst) (regs m value) m, None)
  | JumpIfSmi r target =>
      Some (m, if is_smi (regs m r) then Some target else None)
  | CheckPageFlag object scratch mask cc target =>
      let m' :=
        set_zf (Z.land (page_flags (regs m object)) mask =? 0)
               (write_reg scratch (page_of (regs m object)) m) in
      Some (m', if holds cc m' then Some target else None)
  | bind _ => Some (m, None)
  | DecompressTaggedPointer dst src =>
      Some (write_reg dst (decompress (regs m src)) m, None)
  | leaq dst src => Some (write_reg dst (effective_address (regs m) src) m, None)
  | CallEphemeronKeyBarrier object slot_address fp_mode =>
      Some (record (EphemeronKeyBarrier object slot_address fp_mode) m, None)
  | CallRecordWriteStubSaveRegisters object slot_address fp_mode mode =>
      Some (record (RecordWriteStub object slot_address fp_mode mode) m, None)
  end.

(** The out-of-line code: it is left by a jump to [exit] or by its end,
    where the code generator emits a jump to [exit]. *)
Fixpoint exec_ool (body : list Instr) (m : Machine) : option Machine :=
  match body with
  | [] => Some m
  | i :: rest =>
      match exec_instr i m with
      | Some (m', None) => exec_ool rest m'
      | Some (m', Some exit) => Some m'
      | Some (_, Some entry) => None
      | None => None
      end
  end.

Definition is_bind (l : Label) (i : Instr) : bool :=
  match i, l with
  | bind entry, entry | bind exit, exit => true
  | _, _ => false
  end.

(** The code in line: after a jump the instructions up to the label are
    skipped ([pending]); a jump to [entry] runs the out-of-line code, which
    comes back at [exit]. *)
Fixpoint exec (ool : list Instr) (code : list Instr) (pending : option Label)
    (m : Machine) : option Machine :=
  match code with
  | [] => match pending with None => Some m | Some _ => None end
  | i :: rest =>
      match pending with
      | Some l => exec ool rest (if is_bind l i then None else pending) m
      | None =>
          match exec_instr i m with
          | Some (m', None) => exec ool rest None m'
          | Some (m', Some exit) => exec ool rest (Some exit) m'
          | Some (m', Some entry) =>
              match exec_ool ool (record EnterOutOfLine m') with
              | Some m'' => exec ool rest (Some exit) m''
              | None => None
              end
          | None => None
          end
      end
  end.

(** Running a store with write barrier. *)
Definition run_store (arch_opcode : ArchOpcode) (mode : RecordWriteMode)
    (object : Register) (operand : Operand) (value scratch0 scratch1 : Register)
    (stub_mode : StubCallMode) (DidAllocateDoubleRegisters : bool) (m : Machine)
  : option Machine :=
  let (code, ool) :=
    AssembleStoreWithWriteBarrier arch_opcode mode object operand value
      scratch0 scratch1 stub_mode in
  exec (Generate ool DidAllocateDoubleRegisters) code None m.

(** ** The two paths *)

(** The modes in which the stored value can be a smi. *)
Definition value_can_be_smi (mode : RecordWriteMode) : bool :=
  match mode with
  | kValueIsMap | kValueIsPointer => false
  | kValueIsEphemeronKey | kValueIsAny => true
  end.

(** The enumerators of [RecordWriteMode] in the order of their declaration. *)
Definition declared_order : Prop :=
  mode_code kValueIsMap < mode_code kValueIsPointer
  /\ mode_code kValueIsPointer < mode_code kValueIsEphemeronKey
  /\ mode_code kValueIsEphemeronKey < mode_code kValueIsAny.

(** The page of the destination object has the flag
    pointers-from-here-are-interesting. *)
Definition from_here_interesting (m : Machine) (object : Register) : bool :=
  negb (Z.land (page_flags (regs m object)) kPointersFromHereAreInterestingMask =? 0).

(** The page of the stored value has a flag of the mask
    pointers-to-here-are-interesting-or-in-shared-heap. *)
Definition to_here_interesting (m : Machine) (value : Register) : bool :=
  let v := if COMPRESS_POINTERS_BOOL then decompress (regs m value) else regs m value in
  negb (Z.land (page_flags v) kPointersToHereAreInterestingOrInSharedHeapMask =? 0).

(** The out-of-line code is entered. *)
Definition slow_path_entered (mode : RecordWriteMode) (object value : Register)
    (m : Machine) : bool :=
  negb (value_can_be_smi mode && is_smi (regs m value))
  && from_here_interesting m object.

(** The call of the recording routine. *)
Definition barrier_call (mode : RecordWriteMode) (object scratch1 : Register)
    (stub_mode : StubCallMode) (DidAllocateDoubleRegisters : bool) : Event :=
  let fp_mode := if DidAllocateDoubleRegisters then kSave else kIgnore in
  match mode with
  | kValueIsEphemeronKey => EphemeronKeyBarrier object scratch1 fp_mode
  | _ =>
      RecordWriteStub object scratch1 fp_mode
        (if V8_ENABLE_WEBASSEMBLY && StubCallMode_eqb stub_mode kCallWasmRuntimeStub
         then Some kCallWasmRuntimeStub else None)
  end.

Lemma smi_check_declared_order (mode : RecordWriteMode) :
  declared_order ->
  (mode_code kValueIsPointer <? mode_code mode) = value_can_be_smi mode.
Proof.
  intros (H1 & H2 & H3). destruct mode; simpl.
  - apply Z.ltb_ge. lia.
  - apply Z.ltb_irrefl.
  - apply Z.ltb_lt. lia.
  - apply Z.ltb_lt. lia.
Qed.

Lemma exec_ool_Generate ool did (m : Machine) :
  exists m',
    exec_ool (Generate ool did) m = Some m'
    /\ trace m'
       = trace m
         ++ (if to_here_interesting m (value_ ool)
             then [barrier_call (mode_ ool) (object_ ool) (scratch1_ ool)
                     (stub_mode_ ool) did]
             else []).
Proof.
  destruct ool as [object operand value scratch0 scratch1 mode stub_mode].
  unfold Generate, to_here_interesting, barrier_call.
  cbn [value_ scratch0_ scratch1_ operand_ object_ mode_ stub_mode_].
  destruct COMPRESS_POINTERS_BOOL;
    cbn [app exec_ool exec_instr holds zf set_zf write_reg regs];
    rewrite ?Nat.eqb_refl;
    match goal with
    | |- context [Z.land ?a ?b =? 0] => destruct (Z.land a b =? 0) eqn:Hflag
    end;
    cbn [negb];
    try (eexists; split; [reflexivity|]; cbn [trace]; rewrite app_nil_r; reflexivity);
    destruct mode; cbn [RecordWriteMode_eqb];
    destruct (V8_ENABLE_WEBASSEMBLY && StubCallMode_eqb stub_mode kCallWasmRuntimeStub);
    cbn [exec_ool exec_instr record trace write_reg];
    eexists; split; reflexivity.
Qed.

(** C6.  A store with write barrier, run on the reference semantics
    (the value register is not the first scratch register, and with
    [debug_code] the value is not a cleared weak reference): the
    out-of-line code is entered exactly when the page of the destination
    object has the pointers-from-here-are-interesting flag and the value is
    not a smi in a mode in which it can be one; in the out-of-line code the
    recording routine is called exactly when the page of the value has a
    pointers-to-here flag; the call saves the floating point registers
    exactly when the frame allocated double registers, and it is
    [CallEphemeronKeyBarrier] for an ephemeron key store and the record
    write stub otherwise ([barrier_call]). *)
Theorem store_with_write_barrier_paths (arch_opcode : ArchOpcode)
    (mode : RecordWriteMode) (object : Register) (operand : Operand)
    (value scratch0 scratch1 : Register) (stub_mode : StubCallMode)
    (DidAllocateDoubleRegisters : bool) (m : Machine) :
  declared_order ->
  value <> scratch0 ->
  (debug_code = true -> lower32 (regs m value) <> lower32 kClearedWeakHeapObjectLower32) ->
  exists m',
    run_store arch_opcode mode object operand value scratch0 scratch1 stub_mode
      DidAllocateDoubleRegisters m = Some m'
    /\ trace m'
       = trace m
         ++ (if slow_path_entered mode object value m
             then EnterOutOfLine
                  :: (if to_here_interesting m value
                      then [barrier_call mode object scratch1 stub_mode
                              DidAllocateDoubleRegisters]
                      else [])
             else []).
Proof.
  intros Hord Hne Hdbg.
  unfold run_store, AssembleStoreWithWriteBarrier.
  rewrite (smi_check_declared_order mode Hord).
  apply Nat.eqb_neq in Hne.
  set (ool := mkOutOfLineRecordWrite object operand value scratch0 scratch1 mode stub_mode).
  (* the machine after the check of [debug_code] and the store *)
  assert (Hprefix : forall rest,
    exists m1,
      regs m1 = regs m /\ trace m1 = trace m
      /\ exec (Generate ool DidAllocateDoubleRegisters)
           ((if debug_code
             then [Cmp value kClearedWeakHeapObjectLower32;
                   Check not_equal "kOperandIsCleared"]
             else [])
            ++ EmitTSANAwareStore arch_opcode operand value ++ rest) None m
         = exec (Generate ool DidAllocateDoubleRegisters) rest None m1).
  { intros rest. destruct debug_code.
    - specialize (Hdbg eq_refl). apply Z.eqb_neq in Hdbg.
      destruct arch_opcode;
        cbn [app EmitTSANAwareStore exec exec_instr holds set_zf zf regs negb];
        rewrite Hdbg; cbn [negb];
        (eexists; split_and!; [| |reflexivity]; reflexivity).
    - destruct arch_opcode; cbn [app EmitTSANAwareStore exec exec_instr];
        (eexists; split_and!; [| |reflexivity]; reflexivity). }
  destruct (Hprefix
              ((if value_can_be_smi mode then [JumpIfSmi value exit] else [])
               ++ [CheckPageFlag object scratch0 kPointersFromHereAreInterestingMask
                     not_zero entry; bind exit]))
    as (m1 & Hregs & Htrace & ->).
  unfold slow_path_entered, from_here_interesting.
  assert (Hcheck :
    exists m',
      exec (Generate ool DidAllocateDoubleRegisters)
        [CheckPageFlag object scratch0 kPointersFromHereAreInterestingMask
           not_zero entry; bind exit] None m1 = Some m'
      /\ trace m'
         = trace m
           ++ (if negb (Z.land (page_flags (regs m object))
                          kPointersFromHereAreInterestingMask =? 0)
               then EnterOutOfLine
                    :: (if to_here_interesting m value
                        then [barrier_call mode object scratch1 stub_mode
                                DidAllocateDoubleRegisters]
                        else [])
               else [])).
  { cbn [exec exec_instr holds set_zf zf]. rewrite Hregs.
    destruct (Z.land (page_flags (regs m object)) kPointersFromHereAreInterestingMask =? 0);
      cbn [negb].
    - eexists. split; [reflexivity|]. cbn [trace write_reg set_zf].
      rewrite Htrace, app_nil_r. reflexivity.
    - match goal with
      | |- context [exec_ool ?body ?m0] =>
          destruct (exec_ool_Generate ool DidAllocateDoubleRegisters m0)
            as (m'' & Hool & Htr)
      end.
      rewrite Hool. cbn [is_bind]. eexists. split; [reflexivity|].
      rewrite Htr. unfold to_here_interesting.
      cbn [trace record regs write_reg set_zf value_ ool object_ scratch1_ mode_ stub_mode_].
      rewrite Hne, Hregs, Htrace, <- app_assoc. reflexivity. }
  destruct (value_can_be_smi mode); cbn [app andb negb].
  - destruct Hcheck as (m' & Hm' & Htr).
    destruct (is_smi (regs m value)) eqn:Hs; cbn [negb andb].
    + exists m1. split; [|rewrite Htrace, app_nil_r; reflexivity].
      cbn [exec exec_instr]. rewrite Hregs, Hs. reflexivity.
    + exists m'. split; [|exact Htr].
      rewrite <- Hm'. cbn [exec exec_instr]. rewrite Hregs, Hs. reflexivity.
  - exact Hcheck.
Qed.

(** ** What a store with write barrier changes *)

(** The registers an instruction writes, and whether it writes memory. *)
Definition instr_writes (i : Instr) : list Register :=
  match i with
  | CheckPageFlag _ scratch _ _ _ => [scratch]
  | DecompressTaggedPointer dst _ | leaq dst _ => [dst]
  | _ => []
  end.

Definition is_store (i : Instr) : bool :=
  match i with
  | StoreTaggedField _ _ | AtomicStoreTaggedField _ _ => true
  | _ => false
  end.

Lemma exec_instr_frame (i : Instr) (m m' : Machine) (l : option Label) :
  exec_instr i m = Some (m', l) -> is_store i = false ->
  mem m' = mem m /\ forall r, r ∉ instr_writes i -> regs m' r = regs m r.
Proof.
  destruct i; cbn [exec_instr is_store instr_writes]; try discriminate;
    try (intros [= <- <-] _; split; [reflexivity|]; intros r' Hr; cbn [regs write_reg set_zf];
         try reflexivity;
         apply not_elem_of_cons in Hr as [Hr _]; apply Nat.eqb_neq in Hr;
         rewrite Hr; reflexivity).
  destruct (holds cc m); [|discriminate]. intros [= <- <-] _. auto.
Qed.

Lemma exec_ool_frame (body : list Instr) : forall m m',
  exec_ool body m = Some m' ->
  Forall (fun i => is_store i = false) body ->
  mem m' = mem m
  /\ forall r, Forall (fun i => r ∉ instr_writes i) body -> regs m' r = regs m r.
Proof.
  induction body as [|i body IH]; intros m m' Hexec Hns.
  - injection Hexec as <-. auto.
  - apply Forall_cons in Hns as [Hi Hns]. cbn [exec_ool] in Hexec.
    destruct (exec_instr i m) as [[m1 l]|] eqn:Hstep; [|discriminate].
    destruct (exec_instr_frame i m m1 l Hstep Hi) as [Hmem1 Hregs1].
    destruct l as [[]|].
    + discriminate.
    + injection Hexec as <-. split; [exact Hmem1|].
      intros r Hr. apply Forall_cons in Hr as [Hr _]. apply Hregs1, Hr.
    + destruct (IH m1 m' Hexec Hns) as [Hmem Hregs]. split; [congruence|].
      intros r Hr. apply Forall_cons in Hr as [Hr Hrest].
      rewrite Hregs by exact Hrest. apply Hregs1, Hr.
Qed.

(** The page flag check of the destination object and, behind it, the
    out-of-line code. *)
Lemma exec_barrier_frame (ool : OutOfLineRecordWrite) (did : bool) (m1 : Machine) :
  exists m',
    exec (Generate ool did)
      [CheckPageFlag (object_ ool) (scratch0_ ool) kPointersFromHereAreInterestingMask
         not_zero entry; bind exit] None m1 = Some m'
    /\ mem m' = mem m1
    /\ forall r, r <> scratch0_ ool -> r <> scratch1_ ool ->
         (COMPRESS_POINTERS_BOOL = true -> r <> value_ ool) ->
         regs m' r = regs m1 r.
Proof.
  cbn [exec exec_instr].
  set (m2 := set_zf _ (write_reg (scratch0_ ool) _ m1)).
  assert (Hregs2 : forall r, r <> scratch0_ ool -> regs m2 r = regs m1 r).
  { intros r Hr. unfold m2. cbn [regs set_zf write_reg].
    apply Nat.eqb_neq in Hr. rewrite Hr. reflexivity. }
  destruct (holds not_zero m2).
  - destruct (exec_ool_Generate ool did (record EnterOutOfLine m2)) as (m'' & Hool & _).
    rewrite Hool. cbn [exec is_bind].
    destruct (exec_ool_frame _ _ _ Hool) as [Hmem Hregs].
    { unfold Generate.
      destruct COMPRESS_POINTERS_BOOL, (RecordWriteMode_eqb (mode_ ool) kValueIsEphemeronKey),
        (V8_ENABLE_WEBASSEMBLY && StubCallMode_eqb (stub_mode_ ool) kCallWasmRuntimeStub);
        repeat constructor. }
    exists m''. split_and!; [reflexivity|exact Hmem|].
    intros r H0 H1 Hv. rewrite Hregs; [apply Hregs2, H0|].
    unfold Generate.
    destruct COMPRESS_POINTERS_BOOL, (RecordWriteMode_eqb (mode_ ool) kValueIsEphemeronKey),
      (V8_ENABLE_WEBASSEMBLY && StubCallMode_eqb (stub_mode_ ool) kCallWasmRuntimeStub);
      cbn [app]; repeat (apply Forall_cons; split); try apply Forall_nil;
      cbn [instr_writes]; rewrite ?not_elem_of_cons;
      try (split; [auto|apply not_elem_of_nil]); try apply not_elem_of_nil;
      try exact I.
  - exists m2. split_and!; [reflexivity|reflexivity|].
    intros r H0 _ _. apply Hregs2, H0.
Qed.

(** A store with write barrier stores, and clobbers the scratch registers
    only.  On every path -- the value a smi, the barrier skipped by the
    page flags, or the recording routine called -- the code ends with the
    value written to the effective address of the operand and the rest of
    the memory as it was, and every register other than the two scratch
    registers keeps its value, except that the value register is
    decompressed in place when pointers are compressed.  (With
    [debug_code], the value is not a cleared weak reference.) *)
Theorem store_with_write_barrier_effect (arch_opcode : ArchOpcode)
    (mode : RecordWriteMode) (object : Register) (operand : Operand)
    (value scratch0 scratch1 : Register) (stub_mode : StubCallMode)
    (DidAllocateDoubleRegisters : bool) (m : Machine) :
  (debug_code = true -> lower32 (regs m value) <> lower32 kClearedWeakHeapObjectLower32) ->
  exists m',
    run_store arch_opcode mode object operand value scratch0 scratch1 stub_mode
      DidAllocateDoubleRegisters m = Some m'
    /\ (forall a, mem m' a
                  = if a =? effective_address (regs m) operand
                    then regs m value else mem m a)
    /\ (forall r, r <> scratch0 -> r <> scratch1 ->
          (COMPRESS_POINTERS_BOOL = true -> r <> value) ->
          regs m' r = regs m r).
Proof.
  intros Hdbg.
  unfold run_store, AssembleStoreWithWriteBarrier.
  set (ool := mkOutOfLineRecordWrite object operand value scratch0 scratch1 mode stub_mode).
  (* the machine after the check of [debug_code] and the store *)
  assert (Hprefix : forall rest,
    exists m1,
      regs m1 = regs m
      /\ mem m1 = mem (write_mem (effective_address (regs m) operand) (regs m value) m)
      /\ exec (Generate ool DidAllocateDoubleRegisters)
           ((if debug_code
             then [Cmp value kClearedWeakHeapObjectLower32;
                   Check not_equal "kOperandIsCleared"]
             else [])
            ++ EmitTSANAwareStore arch_opcode operand value ++ rest) None m
         = exec (Generate ool DidAllocateDoubleRegisters) rest None m1).
  { intros rest. destruct debug_code.
    - specialize (Hdbg eq_refl). apply Z.eqb_neq in Hdbg.
      destruct arch_opcode;
        cbn [app EmitTSANAwareStore exec exec_instr holds set_zf zf regs negb];
        rewrite Hdbg; cbn [negb];
        (eexists; split_and!; [| |reflexivity]; reflexivity).
    - destruct arch_opcode; cbn [app EmitTSANAwareStore exec exec_instr];
        (eexists; split_and!; [| |reflexivity]; reflexivity). }
  destruct (Hprefix
              ((if mode_code kValueIsPointer <? mode_code mode
                then [JumpIfSmi value exit] else [])
               ++ [CheckPageFlag object scratch0 kPointersFromHereAreInterestingMask
                     not_zero entry; bind exit]))
    as (m1 & Hregs & Hmem & ->).
  destruct (exec_barrier_frame ool DidAllocateDoubleRegisters m1)
    as (m' & Hexec & Hmem' & Hregs').
  cbn [object_ scratch0_ scratch1_ value_ ool] in Hexec, Hregs'.
  assert (Hdone : forall m2 : Machine,
            mem m2 = mem m1 ->
            (forall r, r <> scratch0 -> r <> scratch1 ->
               (COMPRESS_POINTERS_BOOL = true -> r <> value) -> regs m2 r = regs m1 r) ->
            (forall a, mem m2 a
                       = if a =? effective_address (regs m) operand
                         then regs m value else mem m a)
            /\ (forall r, r <> scratch0 -> r <> scratch1 ->
                  (COMPRESS_POINTERS_BOOL = true -> r <> value) ->
                  regs m2 r = regs m r)).
  { intros m2 Hm2 Hr2. split.
    - intros a. rewrite Hm2, Hmem. reflexivity.
    - intros r H0 H1 Hv. rewrite Hr2 by assumption. rewrite Hregs. reflexivity. }
  destruct (mode_code kValueIsPointer <? mode_code mode); cbn [app].
  - cbn [exec exec_instr]. destruct (is_smi (regs m1 value)).
    + (* the value is a smi: the barrier is jumped over *)
      cbn [exec is_bind]. exists m1. split; [reflexivity|].
      apply Hdone; [reflexivity|auto].
    + exists m'. split; [exact Hexec|]. apply Hdone; assumption.
  - exists m'. split; [exact Hexec|]. apply Hdone; assumption.
Qed.

End Barrier.

(** ** An instance *)

(** The enumerators of [RecordWriteMode], numbered from 0. *)
Definition example_mode_code (mode : RecordWriteMode) : Z :=
  match mode with
  | kValueIsMap => 0
  | kValueIsPointer => 1
  | kValueIsEphemeronKey => 2
  | kValueIsAny => 3
  end.

(** Smis have tag bit 0; pages of 256 KB, of which the one at [0x40000]
    has the from-here flag (4) and the one at [0x80000] the to-here flag
    (2). *)
Definition example_is_smi (v : Z) : bool := Z.even v.

Definition example_page_of (a : Z) : Z := Z.shiftl (Z.shiftr a 18) 18.

Definition example_page_flags (a : Z) : Z :=
  if example_page_of a =? 262144 then 4
  else if example_page_of a =? 524288 then 2
  else 0.

(** [rax] holds an object of the first page, [rcx] a pointer into the
    second. *)
Definition example_machine : Machine :=
  mkMachine
    (fun r => match r with O => 262153 | 1%nat => 524305 | _ => 0 end)
    (fun _ => 0) false [].

Lemma store_with_write_barrier_paths_witness :
  exists m',
    run_store Z (fun _ a => a) false true false 4 2 3 example_mode_code
      example_is_smi example_page_of example_page_flags (fun v => v)
      kArchStoreWithWriteBarrier kValueIsAny 0%nat 262161 1%nat 2%nat 3%nat
      kCallCodeObject true example_machine = Some m'
    /\ trace m'
       = trace example_machine
         ++ (if slow_path_entered 4 example_is_smi example_page_flags
                  kValueIsAny 0%nat 1%nat example_machine
             then EnterOutOfLine
                  :: (if to_here_interesting false 2 example_page_flags (fun v => v)
                           example_machine 1%nat
                      then [barrier_call true kValueIsAny 0%nat 3%nat
                              kCallCodeObject true]
                      else [])
             else []).
Proof.
  apply (store_with_write_barrier_paths Z (fun _ a => a) false true false 4 2 3
           example_mode_code example_is_smi example_page_of example_page_flags
           (fun v => v)).
  - unfold declared_order. simpl. lia.
  - discriminate.
  - discriminate.
Defined.

(** The same store with [debug_code] on and pointer compression. *)
Lemma store_with_write_barrier_effect_witness :
  exists m',
    run_store Z (fun _ a => a) true true true 4 2 3 example_mode_code
      example_is_smi example_page_of example_page_flags (fun v => v)
      kArchStoreWithWriteBarrier kValueIsAny 0%nat 262161 1%nat 2%nat 3%nat
      kCallCodeObject true example_machine = Some m'
    /\ (forall a, mem m' a
                  = if a =? 262161 then regs example_machine 1%nat
                    else mem example_machine a)
    /\ (forall r, r <> 2%nat -> r <> 3%nat -> (true = true -> r <> 1%nat) ->
          regs m' r = regs example_machine r).
Proof.
  apply (store_with_write_barrier_effect Z (fun _ a => a) true true true 4 2 3
           example_mode_code example_is_smi example_page_of example_page_flags
           (fun v => v) kArchStoreWithWriteBarrier kValueIsAny 0%nat 262161
           1%nat 2%nat 3%nat kCallCodeObject true example_machine).
  intros _. vm_compute. discriminate.
Defined.

End WriteBarrier.

(** * [AdjustStackPointerForTailCall]
    (src/compiler/backend/x64/code-generator-x64.cc) *)

Module TailCall.

Abbreviation Register := nat.

(** The code of [rsp]. *)
Definition rsp : Register := 4%nat.

(** What the function reads and changes of the frame access state: the
    frame's total slot count and the SP delta.  C++ [int]s are integers
    here. *)
Record FrameAccessState := mkFrameAccessState {
  GetTotalFrameSlotCount : Z;
  sp_delta : Z
}.

Definition IncreaseSPDelta (amount : Z) (state : FrameAccessState) : FrameAccessState :=
  mkFrameAccessState (GetTotalFrameSlotCount state) (sp_delta state + amount).

Inductive Instr :=
  | AllocateStackSpace (bytes : Z)
  | addq (dst : Register) (imm : Z).

(** The emitted instructions on the registers: [AllocateStackSpace]
    subtracts from [rsp]. *)
Definition exec_instr (i : Instr) (regs : Register -> Z) : Register -> Z :=
  match i with
  | AllocateStackSpace bytes =>
      fun r => if Nat.eqb r rsp then regs rsp - bytes else regs r
  | addq dst imm =>
      fun r => if Nat.eqb r dst then regs dst + imm else regs r
  end.

Definition exec (code : list Instr) (regs : Register -> Z) : Register -> Z :=
  foldl (fun regs i => exec_instr i regs) regs code.

Section Adjust.

(** Constants and an accessor of other files. *)
Variable kSystemPointerSize : Z.
Variable kReturnAddressStackSlotCount : Z.
Variable kFixedSlotCountAboveFp : Z.
Variable GetSPToFPSlotCount : FrameAccessState -> Z.

(** The value of the local [stack_slot_delta]; [kIsTailCallForTierUp] is
    the answer of [instr->HasCallDescriptorFlag(kIsTailCallForTierUp)]. *)
Definition stack_slot_delta (kIsTailCallForTierUp : bool) (state : FrameAccessState)
    (new_slot_above_sp : Z) : Z :=
  if kIsTailCallForTierUp then
    (GetTotalFrameSlotCount state - kReturnAddressStackSlotCount) * -1
  else
    let current_sp_offset := GetSPToFPSlotCount state + kFixedSlotCountAboveFp in
    new_slot_above_sp - current_sp_offset.

(** The emitted code and the frame access state afterwards. *)
Definition AdjustStackPointerForTailCall (kIsTailCallForTierUp : bool)
    (state : FrameAccessState) (new_slot_above_sp : Z) (allow_shrinkage : bool)
  : list Instr * FrameAccessState :=
  let delta := stack_slot_delta kIsTailCallForTierUp state new_slot_above_sp in
  if 0 <? delta then
    ([AllocateStackSpace (delta * kSystemPointerSize)], IncreaseSPDelta delta state)
  else if allow_shrinkage && (delta <? 0) then
    ([addq rsp (- delta * kSystemPointerSize)], IncreaseSPDelta delta state)
  else
    ([], state).

(** The last call of [AssembleTailCallBeforeGap], when there is no push
    to do, and the call of [AssembleTailCallAfterGap]. *)
Definition AssembleTailCallBeforeGap_no_pushes (kIsTailCallForTierUp : bool)
    (state : FrameAccessState) (first_unused_slot_offset : Z)
  : list Instr * FrameAccessState :=
  AdjustStackPointerForTailCall kIsTailCallForTierUp state first_unused_slot_offset false.

Definition AssembleTailCallAfterGap (kIsTailCallForTierUp : bool)
    (state : FrameAccessState) (first_unused_slot_offset : Z)
  : list Instr * FrameAccessState :=
  AdjustStackPointerForTailCall kIsTailCallForTierUp state first_unused_slot_offset true.

(** ** [AssembleTailCallBeforeGap] with its pushes (l. 1174-1211) *)

(** The source of a push-compatible move, as [AssembleTailCallBeforeGap]
    tells them apart. *)
Inductive InstructionOperand :=
  | StackSlot (index : Z)
  | RegisterOperand (r : Register)
  | Immediate (inline_int32_value : Z)
  | OtherOperand.

(** A move of [GetPushCompatibleMoves]: its source and the index of its
    destination slot. *)
Record MoveOperands := mkMoveOperands {
  source : InstructionOperand;
  destination_index : Z
}.

Inductive GapInstr :=
  | Stack (i : Instr)
  | PushSlot (index : Z)
  | PushRegister (r : Register)
  | PushImmediate (value : Z).

(** The [__ Push] of a source; [None] is [UNIMPLEMENTED]. *)
Definition Push (src : InstructionOperand) : option GapInstr :=
  match src with
  | StackSlot index => Some (PushSlot index)
  | RegisterOperand r => Some (PushRegister r)
  | Immediate value => Some (PushImmediate value)
  | OtherOperand => None
  end.

(** The loop over the pushes. *)
Fixpoint push_moves (kIsTailCallForTierUp : bool) (pushes : list MoveOperands)
    (state : FrameAccessState) : option (list GapInstr * FrameAccessState) :=
  match pushes with
  | [] => Some ([], state)
  | move :: pushes' =>
      let '(adjust, state1) :=
        AdjustStackPointerForTailCall kIsTailCallForTierUp state
          (destination_index move) true in
      match Push (source move) with
      | None => None
      | Some push =>
          match push_moves kIsTailCallForTierUp pushes' (IncreaseSPDelta 1 state1) with
          | None => None
          | Some (code, state2) => Some ((Stack <$> adjust) ++ push :: code, state2)
          end
      end
  end.

(** [AssembleTailCallBeforeGap]; [pushes] are the moves of
    [GetPushCompatibleMoves], which the loop eliminates from the gap. *)
Definition AssembleTailCallBeforeGap (kIsTailCallForTierUp : bool)
    (pushes : list MoveOperands) (state : FrameAccessState)
    (first_unused_slot_offset : Z) : option (list GapInstr * FrameAccessState) :=
  let pushed :=
    match last pushes with
    | Some back =>
        if destination_index back + 1 =? first_unused_slot_offset
        then push_moves kIsTailCallForTierUp pushes state
        else Some ([], state)
    | None => Some ([], state)
    end in
  match pushed with
  | None => None
  | Some (code, state1) =>
      let '(adjust, state2) :=
        AdjustStackPointerForTailCall kIsTailCallForTierUp state1
          first_unused_slot_offset false in
      Some (code ++ (Stack <$> adjust), state2)
  end.

(** A push takes one slot. *)
Definition exec_gap_instr (i : GapInstr) (regs : Register -> Z) : Register -> Z :=
  match i with
  | Stack i => exec_instr i regs
  | PushSlot _ | PushRegister _ | PushImmediate _ =>
      fun r => if Nat.eqb r rsp then regs rsp - kSystemPointerSize else regs r
  end.

Definition exec_gap (code : list GapInstr) (regs : Register -> Z) : Register -> Z :=
  foldl (fun regs i => exec_gap_instr i regs) regs code.

(** [FrameAccessState::GetSPToFPSlotCount] is declared outside this file;
    it follows the SP delta. *)
Hypothesis GetSPToFPSlotCount_delta : forall amount state,
  GetSPToFPSlotCount (IncreaseSPDelta amount state) = GetSPToFPSlotCount state + amount.

(** The slot offset of the stack pointer, as
    [AdjustStackPointerForTailCall] computes it. *)
Definition current_sp_offset (state : FrameAccessState) : Z :=
  GetSPToFPSlotCount state + kFixedSlotCountAboveFp.

(** The registers after some code, from those before it: the stack pointer
    has moved with the SP offset. *)
Definition sp_follows (state state' : FrameAccessState) (regs regs' : Register -> Z)
    : Prop :=
  regs' rsp = regs rsp - (current_sp_offset state' - current_sp_offset state)
                         * kSystemPointerSize
  /\ forall r, r <> rsp -> regs' r = regs r.

Lemma sp_follows_refl state regs : sp_follows state state regs regs.
Proof. split; [lia|auto]. Qed.

Lemma sp_follows_trans s1 s2 s3 r1 r2 r3 :
  sp_follows s1 s2 r1 r2 -> sp_follows s2 s3 r2 r3 -> sp_follows s1 s3 r1 r3.
Proof.
  intros [H1 H1'] [H2 H2']. split; [rewrite H2, H1; lia|].
  intros r Hr. rewrite H2', H1' by exact Hr. reflexivity.
Qed.

Lemma exec_gap_app a b regs : exec_gap (a ++ b) regs = exec_gap b (exec_gap a regs).
Proof. unfold exec_gap. apply foldl_app. Qed.

Lemma exec_gap_Stack code regs : exec_gap (Stack <$> code) regs = exec code regs.
Proof.
  unfold exec_gap, exec. revert regs.
  induction code as [|i code IH]; intros regs; simpl; [reflexivity|apply IH].
Qed.

(** One call of [AdjustStackPointerForTailCall] for a tail call that is not
    for tier-up: with shrinkage allowed the SP offset becomes
    [new_slot_above_sp]; without, it becomes the larger of the two. *)
Lemma AdjustStackPointerForTailCall_offset state new_slot_above_sp allow_shrinkage regs :
  let '(code, state') :=
    AdjustStackPointerForTailCall false state new_slot_above_sp allow_shrinkage in
  current_sp_offset state'
  = (if allow_shrinkage then new_slot_above_sp
     else Z.max new_slot_above_sp (current_sp_offset state))
  /\ sp_follows state state' regs (exec code regs).
Proof.
  unfold AdjustStackPointerForTailCall, stack_slot_delta.
  fold (current_sp_offset state).
  set (delta := new_slot_above_sp - current_sp_offset state).
  assert (Hinc : current_sp_offset (IncreaseSPDelta delta state) = new_slot_above_sp).
  { unfold current_sp_offset. rewrite GetSPToFPSlotCount_delta. unfold delta, current_sp_offset. lia. }
  destruct (0 <? delta) eqn:Hpos.
  - apply Z.ltb_lt in Hpos. split.
    + rewrite Hinc. destruct allow_shrinkage; [reflexivity|]. unfold delta in Hpos. lia.
    + split.
      * rewrite Hinc. unfold exec. simpl. unfold delta. lia.
      * intros r Hr. unfold exec. simpl. apply Nat.eqb_neq in Hr. rewrite Hr. reflexivity.
  - apply Z.ltb_ge in Hpos. destruct allow_shrinkage; cbn [andb].
    + destruct (delta <? 0) eqn:Hneg.
      * split; [exact Hinc|]. split.
        -- rewrite Hinc. unfold exec. simpl. unfold delta. lia.
        -- intros r Hr. unfold exec. simpl. apply Nat.eqb_neq in Hr. rewrite Hr. reflexivity.
      * apply Z.ltb_ge in Hneg. split; [unfold delta in *; lia|].
        replace state with state at 1 by reflexivity. apply sp_follows_refl.
    + split; [unfold delta in Hpos; lia|apply sp_follows_refl].
Qed.

Lemma push_moves_offset (pushes : list MoveOperands) : forall state regs back,
  Forall (fun move => source move <> OtherOperand) pushes ->
  last pushes = Some back ->
  exists code state',
    push_moves false pushes state = Some (code, state')
    /\ current_sp_offset state' = destination_index back + 1
    /\ sp_follows state state' regs (exec_gap code regs).
Proof.
  induction pushes as [|move pushes IH]; intros state regs back Hsrc Hlast;
    [discriminate|].
  apply Forall_cons in Hsrc as [Hmove Hsrc]. cbn [push_moves].
  pose proof (AdjustStackPointerForTailCall_offset state (destination_index move) true regs)
    as Hadj.
  destruct (AdjustStackPointerForTailCall false state (destination_index move) true)
    as [adjust state1].
  destruct Hadj as [Hoff1 Hsp1].
  destruct (Push (source move)) as [push|] eqn:Hpush;
    [|destruct (source move); try discriminate; contradiction].
  set (state1' := IncreaseSPDelta 1 state1).
  assert (Hoff1' : current_sp_offset state1' = destination_index move + 1).
  { unfold state1', current_sp_offset. rewrite GetSPToFPSlotCount_delta.
    unfold current_sp_offset in Hoff1. lia. }
  assert (Hstep : sp_follows state state1' regs
                    (exec_gap ((Stack <$> adjust) ++ [push]) regs)).
  { rewrite exec_gap_app, exec_gap_Stack.
    apply (sp_follows_trans _ state1 _ _ (exec adjust regs)); [exact Hsp1|].
    split.
    - unfold exec_gap. simpl. rewrite Hoff1', Hoff1.
      destruct (source move); try discriminate; injection Hpush as <-; simpl; lia.
    - intros r Hr. unfold exec_gap. simpl. apply Nat.eqb_neq in Hr.
      destruct (source move); try discriminate; injection Hpush as <-; simpl;
        rewrite Hr; reflexivity. }
  destruct pushes as [|move' pushes'].
  - injection Hlast as <-. cbn [push_moves].
    exists ((Stack <$> adjust) ++ [push]), state1'. split_and!; auto.
  - destruct (IH state1' (exec_gap ((Stack <$> adjust) ++ [push]) regs) back Hsrc Hlast)
      as (code & state' & Hrec & Hoff & Hsp).
    rewrite Hrec. exists ((Stack <$> adjust) ++ push :: code), state'.
    split_and!; [reflexivity|exact Hoff|].
    replace ((Stack <$> adjust) ++ push :: code)
      with (((Stack <$> adjust) ++ [push]) ++ code) by (rewrite <- app_assoc; reflexivity).
    rewrite exec_gap_app. exact (sp_follows_trans _ _ _ _ _ _ Hstep Hsp).
Qed.

(** A tail call ends at its first unused slot.  For a tail call that is
    not for tier-up, with pushes of stack slots, registers and immediates:
    after [AssembleTailCallBeforeGap] and [AssembleTailCallAfterGap] the SP
    offset is [first_unused_slot_offset], whether the stack had to grow, to
    shrink or to take the pushes; the stack pointer has moved by exactly the
    difference of the offsets, and no other register has changed. *)
Theorem AssembleTailCall_ends_at_first_unused_slot (pushes : list MoveOperands)
    (state : FrameAccessState) (first_unused_slot_offset : Z) (regs : Register -> Z) :
  Forall (fun move => source move <> OtherOperand) pushes ->
  exists before state1 after state2,
    AssembleTailCallBeforeGap false pushes state first_unused_slot_offset
    = Some (before, state1)
    /\ AssembleTailCallAfterGap false state1 first_unused_slot_offset = (after, state2)
    /\ current_sp_offset state2 = first_unused_slot_offset
    /\ exec_gap (before ++ (Stack <$> after)) regs rsp
       = regs rsp - (first_unused_slot_offset - current_sp_offset state)
                    * kSystemPointerSize
    /\ (forall r, r <> rsp -> exec_gap (before ++ (Stack <$> after)) regs r = regs r).
Proof.
  intros Hsrc.
  (* the pushes *)
  assert (Hpushed : exists code state0,
    match last pushes with
    | Some back =>
        if destination_index back + 1 =? first_unused_slot_offset
        then push_moves false pushes state
        else Some ([], state)
    | None => Some ([], state)
    end = Some (code, state0)
    /\ sp_follows state state0 regs (exec_gap code regs)).
  { destruct (last pushes) as [back|] eqn:Hlast.
    - destruct (destination_index back + 1 =? first_unused_slot_offset).
      + destruct (push_moves_offset pushes state regs back Hsrc Hlast)
          as (code & state0 & Hrun & _ & Hsp).
        exists code, state0. auto.
      + exists [], state. split; [reflexivity|apply sp_follows_refl].
    - exists [], state. split; [reflexivity|apply sp_follows_refl]. }
  destruct Hpushed as (code & state0 & Hpushed & Hsp0).
  unfold AssembleTailCallBeforeGap, AssembleTailCallAfterGap. rewrite Hpushed.
  pose proof (AdjustStackPointerForTailCall_offset state0 first_unused_slot_offset false
                (exec_gap code regs)) as Hadj1.
  destruct (AdjustStackPointerForTailCall false state0 first_unused_slot_offset false)
    as [adjust1 state1].
  destruct Hadj1 as [Hoff1 Hsp1].
  pose proof (AdjustStackPointerForTailCall_offset state1 first_unused_slot_offset true
                (exec adjust1 (exec_gap code regs))) as Hadj2.
  destruct (AdjustStackPointerForTailCall false state1 first_unused_slot_offset true)
    as [adjust2 state2] eqn:Hafter.
  destruct Hadj2 as [Hoff2 Hsp2].
  exists (code ++ (Stack <$> adjust1)), state1, adjust2, state2.
  assert (Hall : sp_follows state state2 regs
                   (exec_gap ((code ++ (Stack <$> adjust1)) ++ (Stack <$> adjust2)) regs)).
  { rewrite !exec_gap_app, !exec_gap_Stack.
    exact (sp_follows_trans _ _ _ _ _ _ Hsp0 (sp_follows_trans _ _ _ _ _ _ Hsp1 Hsp2)). }
  destruct Hall as [Hrsp Hother].
  split_and!; [reflexivity|exact Hafter|exact Hoff2| |exact Hother].
  rewrite Hrsp, Hoff2. reflexivity.
Qed.

End Adjust.

(** ** An instance: x64, a frame of 6 slots *)

Definition example_GetSPToFPSlotCount (state : FrameAccessState) : Z :=
  GetTotalFrameSlotCount state - 2 + sp_delta state.

Definition example_state : FrameAccessState := mkFrameAccessState 6 0.

Lemma example_GetSPToFPSlotCount_delta (amount : Z) (state : FrameAccessState) :
  example_GetSPToFPSlotCount (IncreaseSPDelta amount state)
  = example_GetSPToFPSlotCount state + amount.
Proof. unfold example_GetSPToFPSlotCount. simpl. lia. Qed.

(** Two pushes, of [rax] into slot 5 and of a constant into slot 6, from an
    SP offset of 6. *)
Definition example_pushes : list MoveOperands :=
  [mkMoveOperands (RegisterOperand 0) 5; mkMoveOperands (Immediate 7) 6].

Lemma AssembleTailCall_ends_at_first_unused_slot_witness :
  exists before state1 after state2,
    AssembleTailCallBeforeGap 8 1 2 example_GetSPToFPSlotCount false example_pushes
      example_state 7 = Some (before, state1)
    /\ AssembleTailCallAfterGap 8 1 2 example_GetSPToFPSlotCount false state1 7
       = (after, state2)
    /\ current_sp_offset 2 example_GetSPToFPSlotCount state2 = 7
    /\ exec_gap 8 (before ++ (Stack <$> after)) (fun _ => 1024) rsp
       = 1024 - (7 - current_sp_offset 2 example_GetSPToFPSlotCount example_state) * 8
    /\ (forall r, r <> rsp ->
          exec_gap 8 (before ++ (Stack <$> after)) (fun _ => 1024) r = 1024).
Proof.
  apply (AssembleTailCall_ends_at_first_unused_slot 8 1 2 example_GetSPToFPSlotCount
           example_GetSPToFPSlotCount_delta example_pushes example_state 7
           (fun _ => 1024)).
  unfold example_pushes. repeat constructor; discriminate.
Defined.

End TailCall.

(** * [MaglevTranslationArrayBuilder]
    (src/maglev/maglev-code-generator.cc) *)

Module Translation.

Inductive ValueRepresentation := kTagged | kInt32 | kUint32 | kFloat64 | kWord64.

(** The operand of an input location: a constant, a register (general
    purpose or double) or a stack slot. *)
Inductive InstructionOperand :=
  | ConstantOperand
  | RegisterOperand (code : nat)
  | StackSlotOperand (index : Z).

Abbreviation InputLocation := InstructionOperand.

(** The calls of the [TranslationArrayBuilder] that the builder makes; the
    translation array is the sequence of these calls. *)
Inductive Command :=
  | BeginTranslation (frame_count jsframe_count update_feedback_count : Z)
  | AddUpdateFeedback (vector_literal_id slot : Z)
  | BeginInterpretedFrame (bytecode_offset literal_id height : Z)
      (return_value_offset return_value_count : Z)
  | BeginBuiltinContinuationFrame (bytecode_offset literal_id height : Z)
  | StoreOptimizedOut
  | StoreLiteral (literal_id : Z)
  | StoreRegister (reg : nat)
  | StoreInt32Register (reg : nat)
  | StoreUint32Register (reg : nat)
  | StoreDoubleRegister (reg : nat)
  | StoreStackSlot (index : Z)
  | StoreInt32StackSlot (index : Z)
  | StoreUint32StackSlot (index : Z)
  | StoreDoubleStackSlot (index : Z).

(** An [interpreter::Register], by its index. *)
Abbreviation Register := Z.

Section Builder.

(** Heap objects; the identity map of deopt literals compares them. *)
Variable Object : Type.
Context `{EqDecision Object}.

(** What the builder reads of a value node: its representation and the
    object it reifies to. *)
Record ValueNode := mkValueNode {
  value_representation : ValueRepresentation;
  Reify : Object
}.

Record MaglevCompilationUnit := mkUnit {
  register_count : Z;
  parameter_count : Z;
  inlining_depth : Z;
  shared_function_info : Object;
  function : Object
}.

(** A [CompactInterpreterFrameState]: the parameters, the context, the live
    locals with their register index, in the order of [ForEachLocal], and
    the accumulator if it is live. *)
Record CompactInterpreterFrameState := mkFrameState {
  parameters : list ValueNode;
  context : ValueNode;
  live_locals : list (Z * ValueNode);
  accumulator : option ValueNode
}.

#[warnings="-register-all"]
Inductive DeoptFrame :=
  | InterpretedDeoptFrame (unit : MaglevCompilationUnit)
      (frame_state : CompactInterpreterFrameState) (bytecode_position : Z)
      (parent : option DeoptFrame)
  | BuiltinContinuationDeoptFrame (builtin_id : Z)
      (continuation_parameters : list ValueNode) (continuation_context : ValueNode)
      (parent : option DeoptFrame).

Definition frame_parent (frame : DeoptFrame) : option DeoptFrame :=
  match frame with
  | InterpretedDeoptFrame _ _ _ parent => parent
  | BuiltinContinuationDeoptFrame _ _ _ parent => parent
  end.

(** What the builder reads of an [EagerDeoptInfo] or a [LazyDeoptInfo];
    the result location and size are those of a [LazyDeoptInfo]. *)
Record DeoptInfo := mkDeoptInfo {
  top_frame : DeoptFrame;
  feedback_to_update : option (Object * Z);
  input_locations : list InputLocation;
  result_location : Register;
  result_size : Z
}.

(** Constants and accessors of other files. *)
Variable kSystemPointerSize : Z.
Variable kFunctionOffset : Z.
Variable GetFramePointerOffsetForStackSlot : Z -> Z.
Variable GetContinuationBytecodeOffset : Z -> Z.
Variable virtual_accumulator : Register.
Variable invalid_value : Register.
Variable FromParameterIndex : Z -> Register.
Variable is_parameter : Register -> bool.
Variable ToParameterIndex : Register -> Z.

(** The state of the builder: the translation array, the deopt literals in
    the order of their ids, and the pointer [current_input_location] that
    the methods pass on by reference, as the input locations from it on. *)
Record Builder := mkBuilder {
  translation_array_builder_ : list Command;
  deopt_literals_ : list Object;
  current_input_location : list InputLocation
}.

(** Computations of the builder; [None] is [UNREACHABLE], a failed cast or
    a read past the input locations. *)
Definition Build (A : Type) : Type := Builder -> option (A * Builder).

Definition build_ret {A} (a : A) : Build A := fun b => Some (a, b).

Definition build_bind {A B} (x : Build A) (f : A -> Build B) : Build B :=
  fun b =>
    match x b with
    | Some (a, b') => f a b'
    | None => None
    end.

Definition UNREACHABLE {A} : Build A := fun _ => None.

Notation "'let*' x ':=' e1 'in' e2" := (build_bind e1 (fun x => e2))
  (at level 10, x name, e1 at level 100, e2 at level 200).

Notation "e1 ;; e2" := (build_bind e1 (fun _ => e2))
  (at level 100, e2 at level 200, right associativity).

(** A call of the translation array builder. *)
Definition emit (c : Command) : Build unit :=
  fun b =>
    Some (tt, mkBuilder (translation_array_builder_ b ++ [c]) (deopt_literals_ b)
                (current_input_location b)).

(** [*input_location] and [input_location++]. *)
Definition deref : Build InputLocation :=
  fun b =>
    match current_input_location b with
    | loc :: _ => Some (loc, b)
    | [] => None
    end.

Definition increment : Build unit :=
  fun b =>
    Some (tt, mkBuilder (translation_array_builder_ b) (deopt_literals_ b)
                (tail (current_input_location b))).

Fixpoint index_of (obj : Object) (l : list Object) : option nat :=
  match l with
  | [] => None
  | x :: l' => if decide (x = obj) then Some O else S <$> index_of obj l'
  end.

Definition GetDeoptLiteral (obj : Object) : Build Z :=
  fun b =>
    match index_of obj (deopt_literals_ b) with
    | Some i => Some (Z.of_nat i, b)
    | None =>
        Some (Z.of_nat (length (deopt_literals_ b)),
              mkBuilder (translation_array_builder_ b) (deopt_literals_ b ++ [obj])
                (current_input_location b))
    end.

Definition DeoptStackSlotIndexFromFPOffset (offset : Z) : Z :=
  1 - Z.quot offset kSystemPointerSize.

Definition DeoptStackSlotFromStackSlot (operand : Z) : Z :=
  DeoptStackSlotIndexFromFPOffset (GetFramePointerOffsetForStackSlot operand).

Definition is_valid (reg : Register) : bool := negb (reg =? invalid_value).

Definition IsInRange (value lower upper : Z) : bool :=
  (lower <=? value) && (value <=? upper).

Definition InReturnValues (reg result_location : Register) (result_size : Z) : bool :=
  if (result_size =? 0) || negb (is_valid result_location) then false
  else IsInRange reg result_location (result_location + result_size - 1).

Definition BuildDeoptStoreRegister (operand : nat) (repr : ValueRepresentation)
  : Build unit :=
  match repr with
  | kWord64 => UNREACHABLE
  | kTagged => emit (StoreRegister operand)
  | kInt32 => emit (StoreInt32Register operand)
  | kUint32 => emit (StoreUint32Register operand)
  | kFloat64 => emit (StoreDoubleRegister operand)
  end.

Definition BuildDeoptStoreStackSlot (operand : Z) (repr : ValueRepresentation)
  : Build unit :=
  let stack_slot := DeoptStackSlotFromStackSlot operand in
  match repr with
  | kWord64 => UNREACHABLE
  | kTagged => emit (StoreStackSlot stack_slot)
  | kInt32 => emit (StoreInt32StackSlot stack_slot)
  | kUint32 => emit (StoreUint32StackSlot stack_slot)
  | kFloat64 => emit (StoreDoubleStackSlot stack_slot)
  end.

Definition BuildDeoptFrameSingleValue (value : ValueNode)
    (input_location : InputLocation) : Build unit :=
  match input_location with
  | ConstantOperand =>
      let* id := GetDeoptLiteral (Reify value) in
      emit (StoreLiteral id)
  | RegisterOperand code => BuildDeoptStoreRegister code (value_representation value)
  | StackSlotOperand index => BuildDeoptStoreStackSlot index (value_representation value)
  end.

(** The two statements
    [BuildDeoptFrameSingleValue(value, *input_location); input_location++]. *)
Definition BuildDeoptFrameSingleValue_and_advance (value : ValueNode) : Build unit :=
  let* input_location := deref in
  BuildDeoptFrameSingleValue value input_location ;;
  increment.

(** A loop [while (i < n) { StoreOptimizedOut(); i++; }] that starts with
    [n - i = count]. *)
Fixpoint StoreOptimizedOut_times (count : nat) : Build unit :=
  match count with
  | O => build_ret tt
  | S count' => emit StoreOptimizedOut ;; StoreOptimizedOut_times count'
  end.

(** The callback of [ForEachParameter], which visits the parameters with
    their index [i]. *)
Fixpoint BuildDeoptFrameValues_parameters (i : Z) (params : list ValueNode)
    (result_location : Register) (result_size : Z) : Build unit :=
  match params with
  | [] => build_ret tt
  | value :: params' =>
      (if InReturnValues (FromParameterIndex i) result_location result_size
       then emit StoreOptimizedOut
       else BuildDeoptFrameSingleValue_and_advance value) ;;
      BuildDeoptFrameValues_parameters (i + 1) params' result_location result_size
  end.

(** The callback of [ForEachLocal], which visits the live locals; the
    result is the counter [i] after the last of them. *)
Fixpoint BuildDeoptFrameValues_locals (i : Z) (locals : list (Z * ValueNode))
    (result_location : Register) (result_size : Z) : Build Z :=
  match locals with
  | [] => build_ret i
  | (reg, value) :: locals' =>
      if InReturnValues reg result_location result_size then
        BuildDeoptFrameValues_locals i locals' result_location result_size
      else
        StoreOptimizedOut_times (Z.to_nat (reg - i)) ;;
        BuildDeoptFrameSingleValue_and_advance value ;;
        BuildDeoptFrameValues_locals (Z.max i reg + 1) locals'
          result_location result_size
  end.

Definition BuildDeoptFrameValues (compilation_unit : MaglevCompilationUnit)
    (checkpoint_state : CompactInterpreterFrameState)
    (result_location : Register) (result_size : Z) : Build unit :=
  (* Closure *)
  (if inlining_depth compilation_unit =? 0 then
     emit (StoreStackSlot (DeoptStackSlotIndexFromFPOffset kFunctionOffset))
   else
     let* id := GetDeoptLiteral (function compilation_unit) in
     emit (StoreLiteral id)) ;;
  (* Parameters *)
  BuildDeoptFrameValues_parameters 0 (parameters checkpoint_state)
    result_location result_size ;;
  (* Context *)
  BuildDeoptFrameSingleValue_and_advance (context checkpoint_state) ;;
  (* Locals *)
  let* i := BuildDeoptFrameValues_locals 0 (live_locals checkpoint_state)
              result_location result_size in
  StoreOptimizedOut_times (Z.to_nat (register_count compilation_unit - i)) ;;
  (* Accumulator *)
  match accumulator checkpoint_state with
  | Some value =>
      if negb (InReturnValues virtual_accumulator result_location result_size)
      then BuildDeoptFrameSingleValue_and_advance value
      else emit StoreOptimizedOut
  | None => emit StoreOptimizedOut
  end.

(** The loop over the parameters of a builtin continuation frame. *)
Fixpoint BuildDeoptFrame_continuation_parameters (params : list ValueNode) : Build unit :=
  match params with
  | [] => build_ret tt
  | value :: params' =>
      BuildDeoptFrameSingleValue_and_advance value ;;
      BuildDeoptFrame_continuation_parameters params'
  end.

(** The case of a builtin continuation frame, the same in [BuildDeoptFrame]
    and in [BuildLazyDeopt]; its parent is cast to an interpreted frame. *)
Definition BuildBuiltinContinuationFrame (builtin_id : Z)
    (params : list ValueNode) (ctx : ValueNode) (parent : option DeoptFrame)
  : Build unit :=
  match parent with
  | Some (InterpretedDeoptFrame unit _ _ _) =>
      let* id := GetDeoptLiteral (shared_function_info unit) in
      emit (BeginBuiltinContinuationFrame (GetContinuationBytecodeOffset builtin_id)
              id (Z.of_nat (length params))) ;;
      (* Closure *)
      emit StoreOptimizedOut ;;
      (* Parameters *)
      BuildDeoptFrame_continuation_parameters params ;;
      (* Context *)
      BuildDeoptFrameSingleValue_and_advance ctx
  | _ => UNREACHABLE
  end.

Fixpoint BuildDeoptFrame (frame : DeoptFrame) : Build unit :=
  match frame with
  | InterpretedDeoptFrame unit frame_state bytecode_position parent =>
      match parent with
      | Some parent_frame => BuildDeoptFrame parent_frame
      | None => build_ret tt
      end ;;
      let return_offset := 0 in
      let return_count := 0 in
      let* id := GetDeoptLiteral (shared_function_info unit) in
      emit (BeginInterpretedFrame bytecode_position id (register_count unit)
              return_offset return_count) ;;
      BuildDeoptFrameValues unit frame_state invalid_value return_count
  | BuiltinContinuationDeoptFrame builtin_id params ctx parent =>
      match parent with
      | Some parent_frame => BuildDeoptFrame parent_frame
      | None => build_ret tt
      end ;;
      BuildBuiltinContinuationFrame builtin_id params ctx parent
  end.

Fixpoint GetFrameCount (deopt_frame : DeoptFrame) : option Z :=
  match deopt_frame with
  | InterpretedDeoptFrame unit _ _ _ => Some (1 + inlining_depth unit)
  | BuiltinContinuationDeoptFrame _ _ _ parent =>
      match parent with
      | Some parent_frame => Z.add 1 <$> GetFrameCount parent_frame
      | None => None
      end
  end.

(** The start of [BuildEagerDeopt] and of [BuildLazyDeopt]; the pointer
    [current_input_location] is set to the input locations of the deopt
    info. *)
Definition BeginDeopt (deopt_info : DeoptInfo) : Build unit :=
  match GetFrameCount (top_frame deopt_info) with
  | None => UNREACHABLE
  | Some frame_count =>
      let jsframe_count := frame_count in
      let update_feedback_count :=
        match feedback_to_update deopt_info with Some _ => 1 | None => 0 end in
      emit (BeginTranslation frame_count jsframe_count update_feedback_count) ;;
      match feedback_to_update deopt_info with
      | Some (vector, index) =>
          let* id := GetDeoptLiteral vector in
          emit (AddUpdateFeedback id index)
      | None => build_ret tt
      end ;;
      fun b =>
        Some (tt, mkBuilder (translation_array_builder_ b) (deopt_literals_ b)
                    (input_locations deopt_info))
  end.

Definition BuildEagerDeopt (deopt_info : DeoptInfo) : Build unit :=
  BeginDeopt deopt_info ;;
  BuildDeoptFrame (top_frame deopt_info).

(** The return offset of the top frame of a lazy deopt. *)
Definition return_offset_of (unit : MaglevCompilationUnit)
    (result_location : Register) : Z :=
  if result_location =? virtual_accumulator then 0
  else if is_parameter result_location then
    register_count unit + parameter_count unit - ToParameterIndex result_location
  else register_count unit - result_location.

Definition BuildLazyDeopt (deopt_info : DeoptInfo) : Build unit :=
  BeginDeopt deopt_info ;;
  match frame_parent (top_frame deopt_info) with
  | Some parent_frame => BuildDeoptFrame parent_frame
  | None => build_ret tt
  end ;;
  match top_frame deopt_info with
  | InterpretedDeoptFrame unit frame_state bytecode_position _ =>
      let return_offset := return_offset_of unit (result_location deopt_info) in
      let* id := GetDeoptLiteral (shared_function_info unit) in
      emit (BeginInterpretedFrame bytecode_position id (register_count unit)
              return_offset (result_size deopt_info)) ;;
      BuildDeoptFrameValues unit frame_state (result_location deopt_info)
        (result_size deopt_info)
  | BuiltinContinuationDeoptFrame builtin_id params ctx parent =>
      BuildBuiltinContinuationFrame builtin_id params ctx parent
  end.

(** ** The translation of a deopt point as a list of entries *)

(** The entries of a translation, before literal ids and input locations
    are resolved. *)
Inductive Item :=
  | Emit (c : Command)
  | UpdateFeedback (vector : Object) (slot : Z)
  | InterpretedFrame (bytecode_offset : Z) (shared_info : Object) (height : Z)
      (return_value_offset return_value_count : Z)
  | BuiltinContinuationFrame (bytecode_offset : Z) (shared_info : Object) (height : Z)
  | Literal (obj : Object)
  | Capture (value : ValueNode)
  | SetInputLocations (locations : list InputLocation)
  | Fatal.

Definition run_item (item : Item) : Build unit :=
  match item with
  | Emit c => emit c
  | UpdateFeedback vector slot =>
      let* id := GetDeoptLiteral vector in
      emit (AddUpdateFeedback id slot)
  | InterpretedFrame bytecode_offset shared_info height return_offset return_count =>
      let* id := GetDeoptLiteral shared_info in
      emit (BeginInterpretedFrame bytecode_offset id height return_offset return_count)
  | BuiltinContinuationFrame bytecode_offset shared_info height =>
      let* id := GetDeoptLiteral shared_info in
      emit (BeginBuiltinContinuationFrame bytecode_offset id height)
  | Literal obj =>
      let* id := GetDeoptLiteral obj in
      emit (StoreLiteral id)
  | Capture value => BuildDeoptFrameSingleValue_and_advance value
  | SetInputLocations locations =>
      fun b =>
        Some (tt, mkBuilder (translation_array_builder_ b) (deopt_literals_ b) locations)
  | Fatal => UNREACHABLE
  end.

Fixpoint run_script (script : list Item) : Build unit :=
  match script with
  | [] => build_ret tt
  | item :: script' => run_item item ;; run_script script'
  end.

(** The value of a live local. *)
Definition local_value (reg : Z) (locals : list (Z * ValueNode)) : option ValueNode :=
  snd <$> List.find (fun p => fst p =? reg) locals.

(** The logical slots of an interpreted frame after the closure, each with
    its interpreter register, if it has one, and its value, if it is live:
    the parameters, the context, the locals and the accumulator. *)
Fixpoint parameter_slots (i : Z) (params : list ValueNode)
  : list (option Register * option ValueNode) :=
  match params with
  | [] => []
  | value :: params' =>
      (Some (FromParameterIndex i), Some value) :: parameter_slots (i + 1) params'
  end.

Definition local_slots (first count : Z) (locals : list (Z * ValueNode))
  : list (option Register * option ValueNode) :=
  (fun reg => (Some reg, local_value reg locals)) <$> seqZ first count.

Definition frame_slots (unit : MaglevCompilationUnit)
    (frame_state : CompactInterpreterFrameState)
  : list (option Register * option ValueNode) :=
  parameter_slots 0 (parameters frame_state)
  ++ [(None, Some (context frame_state))]
  ++ local_slots 0 (register_count unit) (live_locals frame_state)
  ++ [(Some virtual_accumulator, accumulator frame_state)].

(** The entry of a logical slot: the optimized-out marker for a slot of
    the result range, and otherwise the capture of its value if it is live
    and the marker if it is dead. *)
Definition slot_item (result_location : Register) (result_size : Z)
    (slot : option Register * option ValueNode) : Item :=
  let captured :=
    match slot.2 with
    | Some value => Capture value
    | None => Emit StoreOptimizedOut
    end in
  match slot.1 with
  | Some reg =>
      if InReturnValues reg result_location result_size
      then Emit StoreOptimizedOut else captured
  | None => captured
  end.

Definition closure_item (unit : MaglevCompilationUnit) : Item :=
  if inlining_depth unit =? 0
  then Emit (StoreStackSlot (DeoptStackSlotIndexFromFPOffset kFunctionOffset))
  else Literal (function unit).

Definition values_script (unit : MaglevCompilationUnit)
    (frame_state : CompactInterpreterFrameState)
    (result_location : Register) (result_size : Z) : list Item :=
  closure_item unit
  :: (slot_item result_location result_size <$> frame_slots unit frame_state).

Definition continuation_script (builtin_id : Z) (params : list ValueNode)
    (ctx : ValueNode) (parent : option DeoptFrame) : list Item :=
  match parent with
  | Some (InterpretedDeoptFrame unit _ _ _) =>
      [BuiltinContinuationFrame (GetContinuationBytecodeOffset builtin_id)
         (shared_function_info unit) (Z.of_nat (length params));
       Emit StoreOptimizedOut]
      ++ (Capture <$> params) ++ [Capture ctx]
  | _ => [Fatal]
  end.

(** The entries of a frame that is not the top frame of a lazy deopt,
    after those of its parents. *)
Fixpoint frame_script (frame : DeoptFrame) : list Item :=
  match frame with
  | InterpretedDeoptFrame unit frame_state bytecode_position parent =>
      match parent with
      | Some parent_frame => frame_script parent_frame
      | None => []
      end
      ++ InterpretedFrame bytecode_position (shared_function_info unit)
           (register_count unit) 0 0
         :: values_script unit frame_state invalid_value 0
  | BuiltinContinuationDeoptFrame builtin_id params ctx parent =>
      match parent with
      | Some parent_frame => frame_script parent_frame
      | None => []
      end
      ++ continuation_script builtin_id params ctx parent
  end.

Definition parent_script (parent : option DeoptFrame) : list Item :=
  match parent with
  | Some parent_frame => frame_script parent_frame
  | None => []
  end.

Definition begin_script (deopt_info : DeoptInfo) : list Item :=
  match GetFrameCount (top_frame deopt_info) with
  | None => [Fatal]
  | Some frame_count =>
      Emit (BeginTranslation frame_count frame_count
              (match feedback_to_update deopt_info with Some _ => 1 | None => 0 end))
      :: match feedback_to_update deopt_info with
         | Some (vector, index) => [UpdateFeedback vector index]
         | None => []
         end
      ++ [SetInputLocations (input_locations deopt_info)]
  end.

Definition eager_script (deopt_info : DeoptInfo) : list Item :=
  begin_script deopt_info ++ frame_script (top_frame deopt_info).

(** The entries of the top frame of a lazy deopt. *)
Definition lazy_top_script (deopt_info : DeoptInfo) : list Item :=
  match top_frame deopt_info with
  | InterpretedDeoptFrame unit frame_state bytecode_position _ =>
      InterpretedFrame bytecode_position (shared_function_info unit)
        (register_count unit)
        (return_offset_of unit (result_location deopt_info))
        (result_size deopt_info)
      :: values_script unit frame_state (result_location deopt_info)
           (result_size deopt_info)
  | BuiltinContinuationDeoptFrame builtin_id params ctx parent =>
      continuation_script builtin_id params ctx parent
  end.

Definition lazy_script (deopt_info : DeoptInfo) : list Item :=
  begin_script deopt_info
  ++ parent_script (frame_parent (top_frame deopt_info))
  ++ lazy_top_script deopt_info.

(** The live locals come in the order of their registers, from register
    [first] on and below [count]. *)
Fixpoint locals_in_order (first : Z) (locals : list (Z * ValueNode)) (count : Z) : Prop :=
  match locals with
  | [] => True
  | (reg, _) :: locals' =>
      first <= reg < count /\ locals_in_order (reg + 1) locals' count
  end.

(** The frames of a chain have their live locals in order. *)
Fixpoint frame_in_order (frame : DeoptFrame) : Prop :=
  match frame with
  | InterpretedDeoptFrame unit frame_state _ parent =>
      locals_in_order 0 (live_locals frame_state) (register_count unit)
      /\ match parent with
         | Some parent_frame => frame_in_order parent_frame
         | None => True
         end
  | BuiltinContinuationDeoptFrame _ _ _ parent =>
      match parent with
      | Some parent_frame => frame_in_order parent_frame
      | None => True
      end
  end.

(** ** The builder emits the entries *)

(** A computation of the builder does what a list of entries does. *)
Definition emits (f : Build unit) (script : list Item) : Prop :=
  forall b, f b = run_script script b.

Lemma run_script_app (s1 s2 : list Item) (b : Builder) :
  run_script (s1 ++ s2) b = (run_script s1 ;; run_script s2) b.
Proof.
  revert b. induction s1 as [|item s1 IH]; intros b; simpl.
  - reflexivity.
  - unfold build_bind in *. destruct (run_item item b) as [[[] b']|]; [|reflexivity].
    apply IH.
Qed.

Lemma emits_nil : emits (build_ret tt) [].
Proof. intros b. reflexivity. Qed.

Lemma emits_seq (f g : Build unit) (s1 s2 : list Item) :
  emits f s1 -> emits g s2 -> emits (f ;; g) (s1 ++ s2).
Proof.
  intros Hf Hg b. rewrite run_script_app. unfold build_bind.
  rewrite Hf. destruct (run_script s1 b) as [[[] b']|]; [apply Hg|reflexivity].
Qed.

Lemma emits_item (item : Item) : emits (run_item item) [item].
Proof.
  intros b. simpl. unfold build_bind.
  destruct (run_item item b) as [[[] b']|]; reflexivity.
Qed.

Lemma emits_ext (f g : Build unit) (script : list Item) :
  (forall b, f b = g b) -> emits g script -> emits f script.
Proof. intros Hfg Hg b. rewrite Hfg. apply Hg. Qed.

Lemma build_bind_assoc {A B C} (x : Build A) (f : A -> Build B) (g : B -> Build C) b :
  build_bind (build_bind x f) g b = build_bind x (fun a => build_bind (f a) g) b.
Proof. unfold build_bind. destruct (x b) as [[a b']|]; reflexivity. Qed.

Lemma build_bind_assoc3 {A B} (x y : Build unit) (z : Build A) (g : A -> Build B) b :
  build_bind (x ;; y ;; z) g b = (x ;; (y ;; build_bind z g)) b.
Proof.
  unfold build_bind. destruct (x b) as [[[] b1]|]; [|reflexivity].
  destruct (y b1) as [[[] b2]|]; reflexivity.
Qed.

Lemma emits_StoreOptimizedOut_times (count : nat) :
  emits (StoreOptimizedOut_times count) (replicate count (Emit StoreOptimizedOut)).
Proof.
  induction count as [|count IH]; simpl.
  - apply emits_nil.
  - apply (emits_seq _ _ [_] _ (emits_item (Emit StoreOptimizedOut)) IH).
Qed.

Lemma fmap_ext_in {A B} (f g : A -> B) (l : list A) :
  (forall x, x ∈ l -> f x = g x) -> f <$> l = g <$> l.
Proof.
  induction l as [|x l IH]; intros H; simpl; [reflexivity|].
  f_equal; [apply H; left|].
  apply IH. intros y Hy. apply H. right. exact Hy.
Qed.

Lemma fmap_const_in {A B} (f : A -> B) (c : B) (l : list A) :
  (forall x, x ∈ l -> f x = c) -> f <$> l = replicate (length l) c.
Proof.
  induction l as [|x l IH]; intros H; simpl; [reflexivity|].
  f_equal; [apply H; left|].
  apply IH. intros y Hy. apply H. right. exact Hy.
Qed.

Lemma local_slots_items rl rs first count locals :
  slot_item rl rs <$> local_slots first count locals
  = (fun reg => slot_item rl rs (Some reg, local_value reg locals)) <$> seqZ first count.
Proof. unfold local_slots. rewrite <- list_fmap_compose. reflexivity. Qed.

Lemma local_value_cons_ne reg reg' value locals :
  reg <> reg' -> local_value reg ((reg', value) :: locals) = local_value reg locals.
Proof.
  intros Hne. unfold local_value. simpl.
  destruct (reg' =? reg) eqn:Heq; [|reflexivity].
  apply Z.eqb_eq in Heq. congruence.
Qed.

Lemma locals_in_order_le first first' locals count :
  first' <= first -> locals_in_order first locals count ->
  locals_in_order first' locals count.
Proof.
  destruct locals as [|[reg value] locals]; simpl; [auto|].
  intros Hle [Hreg Hrest]. split; [lia|exact Hrest].
Qed.

Lemma local_value_below first locals count reg :
  locals_in_order first locals count -> reg < first -> local_value reg locals = None.
Proof.
  revert first. induction locals as [|[reg' value] locals IH]; intros first Hord Hlt.
  - reflexivity.
  - destruct Hord as [Hreg Hrest].
    rewrite local_value_cons_ne by lia.
    apply (IH (reg' + 1)); [exact Hrest|lia].
Qed.

Lemma slot_item_dead rl rs reg :
  slot_item rl rs (Some reg, None) = Emit StoreOptimizedOut.
Proof. unfold slot_item. simpl. destruct (InReturnValues reg rl rs); reflexivity. Qed.

(** The slots of the dead locals below the first live one. *)
Lemma local_slots_dead rl rs first locals count i n :
  locals_in_order first locals count -> i + n <= first ->
  slot_item rl rs <$> local_slots i n locals
  = replicate (Z.to_nat n) (Emit StoreOptimizedOut).
Proof.
  intros Hord Hle. rewrite local_slots_items, <- (length_seqZ i n).
  apply fmap_const_in. intros reg Hreg%elem_of_seqZ.
  rewrite (local_value_below first locals count reg Hord) by lia.
  apply slot_item_dead.
Qed.

Lemma emits_parameters rl rs params : forall i,
  emits (BuildDeoptFrameValues_parameters i params rl rs)
        (slot_item rl rs <$> parameter_slots i params).
Proof.
  induction params as [|value params IH]; intros i; simpl.
  - apply emits_nil.
  - apply (emits_seq _ _ [_] _); [|apply IH].
    unfold slot_item. simpl.
    destruct (InReturnValues (FromParameterIndex i) rl rs).
    + apply (emits_item (Emit StoreOptimizedOut)).
    + apply (emits_item (Capture value)).
Qed.

Lemma emits_locals rl rs count locals : forall first,
  locals_in_order first locals count ->
  emits (let* i := BuildDeoptFrameValues_locals first locals rl rs in
         StoreOptimizedOut_times (Z.to_nat (count - i)))
        (slot_item rl rs <$> local_slots first (count - first) locals).
Proof.
  induction locals as [|[reg value] locals IH]; intros first Hord.
  - rewrite (local_slots_dead rl rs (first + (count - first)) [] count) by (simpl; auto; lia).
    eapply emits_ext; [|apply emits_StoreOptimizedOut_times].
    intros b. reflexivity.
  - destruct Hord as [Hreg Hrest]. simpl.
    assert (Hsame : forall i n, reg < i ->
      slot_item rl rs <$> local_slots i n ((reg, value) :: locals)
      = slot_item rl rs <$> local_slots i n locals).
    { intros i n Hi. rewrite !local_slots_items. apply fmap_ext_in.
      intros reg' Hreg'%elem_of_seqZ. rewrite local_value_cons_ne by lia. reflexivity. }
    destruct (InReturnValues reg rl rs) eqn:Hret.
    + (* a live local of the result range is passed over *)
      replace (slot_item rl rs <$> local_slots first (count - first) ((reg, value) :: locals))
        with (slot_item rl rs <$> local_slots first (count - first) locals).
      { apply IH. apply (locals_in_order_le (reg + 1)); [lia|exact Hrest]. }
      rewrite !local_slots_items. apply fmap_ext_in. intros reg' _.
      destruct (decide (reg' = reg)) as [->|Hne].
      * unfold slot_item. simpl. rewrite Hret. reflexivity.
      * rewrite local_value_cons_ne by exact Hne. reflexivity.
    + replace (count - first) with ((reg - first) + (count - reg)) by lia.
      unfold local_slots at 1. rewrite seqZ_app by lia.
      replace (first + (reg - first)) with reg by lia.
      rewrite (seqZ_cons reg) by lia. rewrite !fmap_app, !fmap_cons.
      change ((fun reg0 => (Some reg0, local_value reg0 ((reg, value) :: locals)))
                <$> seqZ first (reg - first))
        with (local_slots first (reg - first) ((reg, value) :: locals)).
      change ((fun reg0 => (Some reg0, local_value reg0 ((reg, value) :: locals)))
                <$> seqZ (Z.succ reg) (Z.pred (count - reg)))
        with (local_slots (Z.succ reg) (Z.pred (count - reg)) ((reg, value) :: locals)).
      assert (Hlive : locals_in_order reg ((reg, value) :: locals) count)
        by (split; [lia|exact Hrest]).
      rewrite (local_slots_dead rl rs reg ((reg, value) :: locals) count
                 first (reg - first) Hlive) by lia.
      rewrite Hsame by lia.
      replace (Z.succ reg) with (reg + 1) by lia.
      replace (Z.pred (count - reg)) with (count - (reg + 1)) by lia.
      replace (Z.max first reg) with reg by lia.
      assert (Hitem : slot_item rl rs (Some reg, local_value reg ((reg, value) :: locals))
                      = Capture value).
      { unfold slot_item, local_value. simpl. rewrite Hret, Z.eqb_refl. reflexivity. }
      rewrite Hitem.
      eapply emits_ext; [apply build_bind_assoc3|].
      apply emits_seq; [apply emits_StoreOptimizedOut_times|].
      apply (emits_seq _ _ [_] _ (emits_item (Capture value))).
      apply IH. exact Hrest.
Qed.

Lemma emits_accumulator rl rs (acc : option ValueNode) :
  emits (match acc with
         | Some value =>
             if negb (InReturnValues virtual_accumulator rl rs)
             then BuildDeoptFrameSingleValue_and_advance value
             else emit StoreOptimizedOut
         | None => emit StoreOptimizedOut
         end)
        [slot_item rl rs (Some virtual_accumulator, acc)].
Proof.
  unfold slot_item. simpl.
  destruct acc as [value|]; destruct (InReturnValues virtual_accumulator rl rs); simpl.
  - apply (emits_item (Emit StoreOptimizedOut)).
  - apply (emits_item (Capture value)).
  - apply (emits_item (Emit StoreOptimizedOut)).
  - apply (emits_item (Emit StoreOptimizedOut)).
Qed.

Lemma emits_closure (unit : MaglevCompilationUnit) :
  emits (if inlining_depth unit =? 0 then
           emit (StoreStackSlot (DeoptStackSlotIndexFromFPOffset kFunctionOffset))
         else
           let* id := GetDeoptLiteral (function unit) in
           emit (StoreLiteral id))
        [closure_item unit].
Proof.
  unfold closure_item. destruct (inlining_depth unit =? 0).
  - apply (emits_item (Emit _)).
  - apply (emits_item (Literal _)).
Qed.

Lemma emits_values unit frame_state rl rs :
  locals_in_order 0 (live_locals frame_state) (register_count unit) ->
  emits (BuildDeoptFrameValues unit frame_state rl rs)
        (values_script unit frame_state rl rs).
Proof.
  intros Hord. unfold BuildDeoptFrameValues, values_script, frame_slots.
  rewrite !fmap_app.
  apply (emits_seq _ _ [_] _ (emits_closure unit)).
  apply emits_seq; [apply emits_parameters|].
  apply (emits_seq _ _ [_] _ (emits_item (Capture (context frame_state)))).
  eapply emits_ext.
  { intros b. symmetry.
    apply (build_bind_assoc
             (BuildDeoptFrameValues_locals 0 (live_locals frame_state) rl rs)
             (fun i => StoreOptimizedOut_times (Z.to_nat (register_count unit - i)))). }
  apply emits_seq; [|apply emits_accumulator].
  pose proof (emits_locals rl rs (register_count unit) (live_locals frame_state) 0 Hord)
    as Hlocals.
  rewrite Z.sub_0_r in Hlocals. exact Hlocals.
Qed.

Lemma emits_continuation_parameters (params : list ValueNode) :
  emits (BuildDeoptFrame_continuation_parameters params) (Capture <$> params).
Proof.
  induction params as [|value params IH]; simpl.
  - apply emits_nil.
  - apply (emits_seq _ _ [_] _ (emits_item (Capture value)) IH).
Qed.

Lemma emits_continuation builtin_id params ctx parent :
  emits (BuildBuiltinContinuationFrame builtin_id params ctx parent)
        (continuation_script builtin_id params ctx parent).
Proof.
  unfold BuildBuiltinContinuationFrame, continuation_script.
  destruct parent as [[unit frame_state pos parent|]|];
    try apply (emits_item Fatal).
  apply (emits_ext _
           (run_item (BuiltinContinuationFrame (GetContinuationBytecodeOffset builtin_id)
                        (shared_function_info unit) (Z.of_nat (length params))) ;;
            emit StoreOptimizedOut ;;
            BuildDeoptFrame_continuation_parameters params ;;
            BuildDeoptFrameSingleValue_and_advance ctx)).
  { intros b. unfold run_item. rewrite build_bind_assoc. reflexivity. }
  apply (emits_seq _ _ [_] _ (emits_item (BuiltinContinuationFrame _ _ _))).
  apply (emits_seq _ _ [_] _ (emits_item (Emit StoreOptimizedOut))).
  apply emits_seq; [apply emits_continuation_parameters|].
  apply (emits_item (Capture ctx)).
Qed.

Lemma emits_frame : forall frame,
  frame_in_order frame -> emits (BuildDeoptFrame frame) (frame_script frame).
Proof.
  fix IH 1. intros [unit frame_state pos parent|builtin_id params ctx parent] Hord.
  - destruct Hord as [Hlocals Hparent]. simpl.
    apply emits_seq.
    { destruct parent as [parent_frame|]; [apply IH; exact Hparent|apply emits_nil]. }
    apply (emits_ext _
             (run_item (InterpretedFrame pos (shared_function_info unit)
                          (register_count unit) 0 0) ;;
              BuildDeoptFrameValues unit frame_state invalid_value 0)).
    { intros b. unfold run_item. rewrite build_bind_assoc. reflexivity. }
    apply (emits_seq _ _ [_] _ (emits_item (InterpretedFrame _ _ _ _ _))).
    apply emits_values. exact Hlocals.
  - simpl in Hord |- *.
    apply emits_seq; [|apply emits_continuation].
    destruct parent as [parent_frame|]; [apply IH; exact Hord|apply emits_nil].
Qed.

Lemma emits_begin (deopt_info : DeoptInfo) :
  emits (BeginDeopt deopt_info) (begin_script deopt_info).
Proof.
  unfold BeginDeopt, begin_script.
  destruct (GetFrameCount (top_frame deopt_info)) as [frame_count|];
    [|apply (emits_item Fatal)].
  apply (emits_seq _ _ [_] _ (emits_item (Emit _))).
  apply emits_seq.
  - destruct (feedback_to_update deopt_info) as [[vector index]|].
    + apply (emits_item (UpdateFeedback vector index)).
    + apply emits_nil.
  - apply (emits_item (SetInputLocations _)).
Qed.

Lemma emits_eager (deopt_info : DeoptInfo) :
  frame_in_order (top_frame deopt_info) ->
  emits (BuildEagerDeopt deopt_info) (eager_script deopt_info).
Proof.
  intros Hord. apply emits_seq; [apply emits_begin|apply emits_frame; exact Hord].
Qed.

Lemma emits_lazy (deopt_info : DeoptInfo) :
  frame_in_order (top_frame deopt_info) ->
  emits (BuildLazyDeopt deopt_info) (lazy_script deopt_info).
Proof.
  intros Hord. unfold BuildLazyDeopt, lazy_script, lazy_top_script.
  apply emits_seq; [apply emits_begin|].
  destruct (top_frame deopt_info)
    as [unit frame_state pos parent|builtin_id params ctx parent]; simpl in Hord |- *.
  - destruct Hord as [Hlocals Hparent].
    apply emits_seq.
    { destruct parent as [parent_frame|]; [apply emits_frame; exact Hparent|apply emits_nil]. }
    apply (emits_ext _
             (run_item (InterpretedFrame pos (shared_function_info unit)
                          (register_count unit)
                          (return_offset_of unit (result_location deopt_info))
                          (result_size deopt_info)) ;;
              BuildDeoptFrameValues unit frame_state (result_location deopt_info)
                (result_size deopt_info))).
    { intros b. unfold run_item. rewrite build_bind_assoc. reflexivity. }
    apply (emits_seq _ _ [_] _ (emits_item (InterpretedFrame _ _ _ _ _))).
    apply emits_values. exact Hlocals.
  - apply emits_seq; [|apply emits_continuation].
    destruct parent as [parent_frame|]; [apply emits_frame; exact Hord|apply emits_nil].
Qed.

(** ** The entries run *)

(** A value can be stored from a location: [BuildDeoptStoreRegister] and
    [BuildDeoptStoreStackSlot] have no case for [kWord64]. *)
Definition capturable (value : ValueNode) (location : InputLocation) : bool :=
  match location, value_representation value with
  | ConstantOperand, _ => true
  | _, kWord64 => false
  | _, _ => true
  end.

(** The entries find the input locations they read, from [locations] on. *)
Fixpoint script_runs (script : list Item) (locations : list InputLocation) : bool :=
  match script with
  | [] => true
  | Capture value :: script' =>
      match locations with
      | location :: locations' =>
          capturable value location && script_runs script' locations'
      | [] => false
      end
  | SetInputLocations locations' :: script' => script_runs script' locations'
  | Fatal :: _ => false
  | _ :: script' => script_runs script' locations
  end.

Lemma GetDeoptLiteral_runs (obj : Object) (b : Builder) :
  exists id b',
    GetDeoptLiteral obj b = Some (id, b')
    /\ current_input_location b' = current_input_location b
    /\ translation_array_builder_ b' = translation_array_builder_ b.
Proof.
  unfold GetDeoptLiteral. destruct (index_of obj (deopt_literals_ b));
    eexists _, _; split_and!; reflexivity.
Qed.

Lemma literal_then_emit_runs (obj : Object) (c : Z -> Command) (b : Builder) :
  exists b',
    (let* id := GetDeoptLiteral obj in emit (c id)) b = Some (tt, b')
    /\ current_input_location b' = current_input_location b.
Proof.
  destruct (GetDeoptLiteral_runs obj b) as (id & b1 & Hget & Hloc & _).
  unfold build_bind. rewrite Hget. eexists. split; [reflexivity|exact Hloc].
Qed.

Lemma capture_runs (value : ValueNode) (b : Builder) location locations :
  current_input_location b = location :: locations ->
  capturable value location = true ->
  exists b',
    BuildDeoptFrameSingleValue_and_advance value b = Some (tt, b')
    /\ current_input_location b' = locations.
Proof.
  intros Hloc Hcap.
  unfold BuildDeoptFrameSingleValue_and_advance, build_bind, deref. rewrite Hloc.
  assert (Hsingle : exists b1,
    BuildDeoptFrameSingleValue value location b = Some (tt, b1)
    /\ current_input_location b1 = location :: locations).
  { unfold BuildDeoptFrameSingleValue, capturable in *.
    destruct location as [|code|index].
    - destruct (literal_then_emit_runs (Reify value) StoreLiteral b) as (b1 & H1 & H2).
      exists b1. split; [exact H1|congruence].
    - unfold BuildDeoptStoreRegister.
      destruct (value_representation value); try discriminate;
        (eexists; split; [reflexivity|exact Hloc]).
    - unfold BuildDeoptStoreStackSlot.
      destruct (value_representation value); try discriminate;
        (eexists; split; [reflexivity|exact Hloc]). }
  destruct Hsingle as (b1 & -> & Hloc1).
  eexists. split; [reflexivity|]. simpl. rewrite Hloc1. reflexivity.
Qed.

Lemma run_script_runs (script : list Item) : forall b,
  script_runs script (current_input_location b) = true ->
  exists b', run_script script b = Some (tt, b').
Proof.
  induction script as [|item script IH]; intros b Hruns.
  - exists b. reflexivity.
  - assert (Hstep : forall b1,
      run_item item b = Some (tt, b1) ->
      script_runs script (current_input_location b1) = true ->
      exists b', run_script (item :: script) b = Some (tt, b')).
    { intros b1 Hitem Hrest. destruct (IH b1 Hrest) as (b' & Hb').
      exists b'. simpl. unfold build_bind. rewrite Hitem. exact Hb'. }
    destruct item; simpl in Hruns.
    + apply (Hstep _ eq_refl). exact Hruns.
    + destruct (literal_then_emit_runs vector (fun id => AddUpdateFeedback id slot) b)
        as (b1 & H1 & H2).
      apply (Hstep b1 H1). rewrite H2. exact Hruns.
    + destruct (literal_then_emit_runs shared_info
                  (fun id => BeginInterpretedFrame bytecode_offset id height
                               return_value_offset return_value_count) b)
        as (b1 & H1 & H2).
      apply (Hstep b1 H1). rewrite H2. exact Hruns.
    + destruct (literal_then_emit_runs shared_info
                  (fun id => BeginBuiltinContinuationFrame bytecode_offset id height) b)
        as (b1 & H1 & H2).
      apply (Hstep b1 H1). rewrite H2. exact Hruns.
    + destruct (literal_then_emit_runs obj StoreLiteral b) as (b1 & H1 & H2).
      apply (Hstep b1 H1). rewrite H2. exact Hruns.
    + destruct (current_input_location b) as [|location locations] eqn:Hloc;
        [discriminate|].
      apply andb_true_iff in Hruns as [Hcap Hrest].
      destruct (capture_runs value b location locations Hloc Hcap) as (b1 & H1 & H2).
      apply (Hstep b1 H1). rewrite H2. exact Hrest.
    + apply (Hstep _ eq_refl). exact Hruns.
    + discriminate.
Qed.

(** ** The deopt literals *)

Lemma index_of_Some (obj : Object) (l : list Object) (i : nat) :
  index_of obj l = Some i -> l !! i = Some obj.
Proof.
  revert i. induction l as [|x l IH]; intros i; simpl; [discriminate|].
  destruct (decide (x = obj)) as [->|Hne].
  - intros [= <-]. reflexivity.
  - destruct (index_of obj l) as [j|]; [|discriminate].
    intros [= <-]. simpl. apply IH. reflexivity.
Qed.

Lemma index_of_None (obj : Object) (l : list Object) :
  index_of obj l = None -> obj ∉ l.
Proof.
  induction l as [|x l IH]; simpl; intros H; [apply not_elem_of_nil|].
  destruct (decide (x = obj)) as [->|Hne]; [discriminate|].
  destruct (index_of obj l); [discriminate|].
  apply not_elem_of_cons. split; [congruence|apply IH; reflexivity].
Qed.

Lemma index_of_NoDup (obj : Object) (l : list Object) (i : nat) :
  NoDup l -> l !! i = Some obj -> index_of obj l = Some i.
Proof.
  revert i. induction l as [|x l IH]; intros i Hnd Hi; [inversion Hi|].
  apply NoDup_cons in Hnd as [Hx Hnd]. simpl.
  destruct i as [|i]; simpl in Hi.
  - injection Hi as ->. rewrite decide_True by reflexivity. reflexivity.
  - rewrite decide_False.
    + rewrite (IH i Hnd Hi). reflexivity.
    + intros ->. apply Hx. apply list_elem_of_lookup. eauto.
Qed.

Lemma index_of_app (obj : Object) (l l' : list Object) (i : nat) :
  index_of obj l = Some i -> index_of obj (l ++ l') = Some i.
Proof.
  revert i. induction l as [|x l IH]; intros i; simpl; [discriminate|].
  destruct (decide (x = obj)); [auto|].
  destruct (index_of obj l) as [j|]; [|discriminate].
  intros [= <-]. rewrite (IH j eq_refl). reflexivity.
Qed.

(** The literal ids are the indices of a table without duplicates that
    only grows: [GetDeoptLiteral] returns the index at which the object is in
    the table afterwards; asking again for the object gives the same id and
    changes nothing; the objects that were in the table keep their ids. *)
Theorem GetDeoptLiteral_round_trip (obj : Object) (b : Builder) :
  NoDup (deopt_literals_ b) ->
  exists id b',
    GetDeoptLiteral obj b = Some (id, b')
    /\ 0 <= id < Z.of_nat (length (deopt_literals_ b'))
    /\ deopt_literals_ b' !! Z.to_nat id = Some obj
    /\ NoDup (deopt_literals_ b')
    /\ (exists new, deopt_literals_ b' = deopt_literals_ b ++ new)
    /\ GetDeoptLiteral obj b' = Some (id, b')
    /\ (forall obj' i, deopt_literals_ b !! i = Some obj' ->
          GetDeoptLiteral obj' b' = Some (Z.of_nat i, b')).
Proof.
  intros Hnd. unfold GetDeoptLiteral.
  destruct (index_of obj (deopt_literals_ b)) as [i|] eqn:Hi.
  - (* the object is in the table *)
    pose proof (index_of_Some _ _ _ Hi) as Hlook.
    exists (Z.of_nat i), b. rewrite Hi.
    split; [reflexivity|].
    split; [apply lookup_lt_Some in Hlook; lia|].
    split; [rewrite Nat2Z.id; exact Hlook|].
    split; [exact Hnd|].
    split; [exists []; rewrite app_nil_r; reflexivity|].
    split; [reflexivity|].
    intros obj' j Hj. rewrite (index_of_NoDup _ _ _ Hnd Hj). reflexivity.
  - (* the object is new: it goes to the end of the table *)
    pose proof (index_of_None _ _ Hi) as Hnew.
    assert (Hnd' : NoDup (deopt_literals_ b ++ [obj])).
    { apply NoDup_app. split_and!; [exact Hnd| |apply NoDup_singleton].
      intros x Hx Hx'. apply list_elem_of_singleton in Hx' as ->. contradiction. }
    assert (Hlast : (deopt_literals_ b ++ [obj]) !! length (deopt_literals_ b) = Some obj).
    { rewrite lookup_app_r by lia. rewrite Nat.sub_diag. reflexivity. }
    eexists _, _. split; [reflexivity|]. cbn [deopt_literals_].
    split; [rewrite length_app; simpl; lia|].
    split; [rewrite Nat2Z.id; exact Hlast|].
    split; [exact Hnd'|].
    split; [exists [obj]; reflexivity|].
    split; [rewrite (index_of_NoDup _ _ _ Hnd' Hlast); reflexivity|].
    intros obj' j Hj.
    rewrite (index_of_app _ _ [obj] _ (index_of_NoDup _ _ _ Hnd Hj)). reflexivity.
Qed.

(** The literal id a command of the translation array refers to. *)
Definition literal_id (c : Command) : option Z :=
  match c with
  | AddUpdateFeedback id _
  | BeginInterpretedFrame _ id _ _ _
  | BeginBuiltinContinuationFrame _ id _
  | StoreLiteral id => Some id
  | _ => None
  end.

(** Every literal id of the translation array is an index of the table of
    deopt literals, and the table has no duplicates. *)
Definition literals_cover (b : Builder) : Prop :=
  NoDup (deopt_literals_ b)
  /\ forall c id, c ∈ translation_array_builder_ b -> literal_id c = Some id ->
       0 <= id < Z.of_nat (length (deopt_literals_ b)).

(** The table after some steps of the builder: the old one with objects
    added at its end. *)
Definition literals_grow (b b' : Builder) : Prop :=
  exists new, deopt_literals_ b' = deopt_literals_ b ++ new.

Lemma literals_grow_refl b : literals_grow b b.
Proof. exists []. rewrite app_nil_r. reflexivity. Qed.

Lemma literals_grow_trans b1 b2 b3 :
  literals_grow b1 b2 -> literals_grow b2 b3 -> literals_grow b1 b3.
Proof.
  intros (n1 & H1) (n2 & H2). exists (n1 ++ n2). rewrite H2, H1, app_assoc. reflexivity.
Qed.

Lemma emit_literals_cover (c : Command) (b : Builder) :
  literals_cover b ->
  (forall id, literal_id c = Some id -> 0 <= id < Z.of_nat (length (deopt_literals_ b))) ->
  forall b', emit c b = Some (tt, b') -> literals_cover b' /\ literals_grow b b'.
Proof.
  intros [Hnd Hcov] Hc b' [= <-].
  split; [split|exists []; simpl; rewrite app_nil_r; reflexivity].
  - exact Hnd.
  - cbn [translation_array_builder_ deopt_literals_]. intros c' id Hin Hid.
    apply elem_of_app in Hin as [Hin|Hin]; [exact (Hcov c' id Hin Hid)|].
    apply list_elem_of_singleton in Hin as ->. exact (Hc id Hid).
Qed.

Lemma literal_then_emit_literals_cover (obj : Object) (c : Z -> Command) (b b' : Builder) :
  literals_cover b ->
  (forall id id', literal_id (c id) = Some id' -> id' = id) ->
  (let* id := GetDeoptLiteral obj in emit (c id)) b = Some (tt, b') ->
  literals_cover b' /\ literals_grow b b'.
Proof.
  intros [Hnd Hcov] Hc Hrun. unfold build_bind in Hrun.
  destruct (GetDeoptLiteral_round_trip obj b Hnd)
    as (id & b1 & Hget & Hid & _ & Hnd1 & Hgrow & _).
  rewrite Hget in Hrun.
  assert (Hcov1 : literals_cover b1).
  { split; [exact Hnd1|]. intros c' id' Hin Hid'.
    assert (Htr : translation_array_builder_ b1 = translation_array_builder_ b).
    { revert Hget. unfold GetDeoptLiteral.
      destruct (index_of obj (deopt_literals_ b)); intros [= _ <-]; reflexivity. }
    rewrite Htr in Hin. specialize (Hcov c' id' Hin Hid').
    destruct Hgrow as (new & ->). rewrite length_app. lia. }
  destruct (emit_literals_cover (c id) b1 Hcov1) with (b' := b') as [Hcov' Hgrow'];
    [|exact Hrun|].
  - intros id' Hid'. rewrite (Hc id id' Hid'). exact Hid.
  - split; [exact Hcov'|]. exact (literals_grow_trans _ _ _ Hgrow Hgrow').
Qed.

Lemma run_item_literals_cover (item : Item) (b b' : Builder) :
  literals_cover b ->
  (forall c id, item = Emit c -> literal_id c = Some id ->
     0 <= id < Z.of_nat (length (deopt_literals_ b))) ->
  run_item item b = Some (tt, b') ->
  literals_cover b' /\ literals_grow b b'.
Proof.
  intros Hcov Hemit Hrun. destruct item; cbn [run_item] in Hrun.
  - apply (emit_literals_cover c b Hcov); [|exact Hrun].
    intros id Hid. exact (Hemit c id eq_refl Hid).
  - apply (literal_then_emit_literals_cover vector (fun id => AddUpdateFeedback id slot)
             b b' Hcov); [|exact Hrun].
    intros id id' [= ->]. reflexivity.
  - apply (literal_then_emit_literals_cover shared_info
             (fun id => BeginInterpretedFrame bytecode_offset id height
                          return_value_offset return_value_count) b b' Hcov);
      [|exact Hrun].
    intros id id' [= ->]. reflexivity.
  - apply (literal_then_emit_literals_cover shared_info
             (fun id => BeginBuiltinContinuationFrame bytecode_offset id height)
             b b' Hcov); [|exact Hrun].
    intros id id' [= ->]. reflexivity.
  - apply (literal_then_emit_literals_cover obj StoreLiteral b b' Hcov); [|exact Hrun].
    intros id id' [= ->]. reflexivity.
  - (* a captured value *)
    unfold BuildDeoptFrameSingleValue_and_advance, build_bind, deref in Hrun.
    destruct (current_input_location b) as [|location locations]; [discriminate|].
    assert (Hsingle : forall b1,
              BuildDeoptFrameSingleValue value location b = Some (tt, b1) ->
              literals_cover b1 /\ literals_grow b b1).
    { intros b1 H1. unfold BuildDeoptFrameSingleValue in H1.
      destruct location as [|code|index].
      - apply (literal_then_emit_literals_cover (Reify value) StoreLiteral b b1 Hcov);
          [|exact H1].
        intros id id' [= ->]. reflexivity.
      - unfold BuildDeoptStoreRegister in H1.
        destruct (value_representation value); try discriminate;
          (eapply (emit_literals_cover _ b Hcov); [|exact H1]; discriminate).
      - unfold BuildDeoptStoreStackSlot in H1.
        destruct (value_representation value); try discriminate;
          (eapply (emit_literals_cover _ b Hcov); [|exact H1]; discriminate). }
    destruct (BuildDeoptFrameSingleValue value location b) as [[[] b1]|]; [|discriminate].
    destruct (Hsingle b1 eq_refl) as [Hcov1 Hgrow1].
    unfold increment in Hrun. injection Hrun as <-.
    split; [exact Hcov1|exact Hgrow1].
  - injection Hrun as <-.
    split; [exact Hcov|exists []; simpl; rewrite app_nil_r; reflexivity].
  - discriminate.
Qed.

(** The commands a list of entries emits on its own account have no
    literal id. *)
Definition plain_emits (script : list Item) : Prop :=
  forall c, Emit c ∈ script -> literal_id c = None.

Lemma run_script_literals_cover (script : list Item) : forall b b',
  plain_emits script -> literals_cover b ->
  run_script script b = Some (tt, b') ->
  literals_cover b' /\ literals_grow b b'.
Proof.
  induction script as [|item script IH]; intros b b' Hplain Hcov Hrun.
  - injection Hrun as <-. split; [exact Hcov|apply literals_grow_refl].
  - cbn [run_script] in Hrun. unfold build_bind in Hrun.
    destruct (run_item item b) as [[[] b1]|] eqn:Hitem; [|discriminate].
    destruct (run_item_literals_cover item b b1 Hcov) as [Hcov1 Hgrow1]; [|exact Hitem|].
    { intros c id -> Hid. rewrite (Hplain c) in Hid by left. discriminate. }
    destruct (IH b1 b') as [Hcov' Hgrow']; [|exact Hcov1|exact Hrun|].
    { intros c Hc. apply Hplain. right. exact Hc. }
    split; [exact Hcov'|exact (literals_grow_trans _ _ _ Hgrow1 Hgrow')].
Qed.

Lemma plain_emits_app s1 s2 : plain_emits s1 -> plain_emits s2 -> plain_emits (s1 ++ s2).
Proof. intros H1 H2 c Hc. apply elem_of_app in Hc as [Hc|Hc]; auto. Qed.

Lemma plain_emits_values unit frame_state rl rs :
  plain_emits (values_script unit frame_state rl rs).
Proof.
  intros c Hc. unfold values_script in Hc. apply elem_of_cons in Hc as [Hc|Hc].
  - unfold closure_item in Hc. destruct (inlining_depth unit =? 0); [|discriminate].
    injection Hc as ->. reflexivity.
  - apply list_elem_of_fmap in Hc as ([reg value] & Hitem & _).
    unfold slot_item in Hitem. simpl in Hitem.
    destruct reg as [reg|]; [destruct (InReturnValues reg rl rs)|];
      destruct value; try discriminate; injection Hitem as ->; reflexivity.
Qed.

Lemma plain_emits_continuation builtin_id params ctx parent :
  plain_emits (continuation_script builtin_id params ctx parent).
Proof.
  intros c Hc. unfold continuation_script in Hc.
  destruct parent as [[unit frame_state bpos parent|]|].
  - rewrite !elem_of_app, !elem_of_cons, list_elem_of_fmap in Hc.
    destruct Hc as [[Hc|[Hc|Hc]]|[(v & Hc & _)|Hc]];
      try discriminate; try (inversion Hc; fail).
    + injection Hc as ->. reflexivity.
    + destruct Hc as [Hc|Hc]; [discriminate|inversion Hc].
  - apply list_elem_of_singleton in Hc. discriminate.
  - apply list_elem_of_singleton in Hc. discriminate.
Qed.

Lemma plain_emits_frame : forall frame, plain_emits (frame_script frame).
Proof.
  fix IH 1.
  intros [unit frame_state bpos parent|builtin_id params ctx parent]; simpl;
    apply plain_emits_app.
  - destruct parent as [parent_frame|]; [apply IH|]. intros c Hc. inversion Hc.
  - intros c Hc. apply elem_of_cons in Hc as [Hc|Hc]; [discriminate|].
    exact (plain_emits_values _ _ _ _ c Hc).
  - destruct parent as [parent_frame|]; [apply IH|]. intros c Hc. inversion Hc.
  - apply plain_emits_continuation.
Qed.

Lemma plain_emits_begin deopt_info : plain_emits (begin_script deopt_info).
Proof.
  intros c Hc. unfold begin_script in Hc.
  destruct (GetFrameCount (top_frame deopt_info)) as [frame_count|].
  - apply elem_of_cons in Hc as [Hc|Hc]; [injection Hc as ->; reflexivity|].
    destruct (feedback_to_update deopt_info) as [[vector index]|]; simpl in Hc.
    + apply elem_of_cons in Hc as [Hc|Hc]; [discriminate|].
      apply list_elem_of_singleton in Hc. discriminate.
    + apply list_elem_of_singleton in Hc. discriminate.
  - apply list_elem_of_singleton in Hc. discriminate.
Qed.

Lemma plain_emits_eager deopt_info : plain_emits (eager_script deopt_info).
Proof. apply plain_emits_app; [apply plain_emits_begin|apply plain_emits_frame]. Qed.

Lemma plain_emits_lazy deopt_info : plain_emits (lazy_script deopt_info).
Proof.
  unfold lazy_script. apply plain_emits_app; [apply plain_emits_begin|].
  apply plain_emits_app.
  - unfold parent_script.
    destruct (frame_parent (top_frame deopt_info)); [apply plain_emits_frame|].
    intros c Hc. inversion Hc.
  - unfold lazy_top_script.
    destruct (top_frame deopt_info) as [unit frame_state pos parent|builtin_id params ctx parent].
    + intros c Hc. apply elem_of_cons in Hc as [Hc|Hc]; [discriminate|].
      exact (plain_emits_values _ _ _ _ c Hc).
    + apply plain_emits_continuation.
Qed.

(** The translations never refer to a literal that is not there.  Whatever
    deopts were built before, an eager or a lazy deopt (of frames whose live
    locals are in register order) leaves every literal id of the translation
    array -- feedback vectors, shared function infos, closures and constants
    -- an index of the table of deopt literals; the table still has no
    duplicates, and it has only grown at its end, so that the ids written
    earlier still refer to their objects. *)
Theorem deopt_literal_ids_in_table (deopt_info : DeoptInfo) (b b' : Builder) :
  frame_in_order (top_frame deopt_info) ->
  literals_cover b ->
  BuildEagerDeopt deopt_info b = Some (tt, b')
  \/ BuildLazyDeopt deopt_info b = Some (tt, b') ->
  literals_cover b' /\ literals_grow b b'.
Proof.
  intros Hord Hcov [Hrun|Hrun].
  - rewrite (emits_eager deopt_info Hord b) in Hrun.
    exact (run_script_literals_cover _ b b' (plain_emits_eager deopt_info) Hcov Hrun).
  - rewrite (emits_lazy deopt_info Hord b) in Hrun.
    exact (run_script_literals_cover _ b b' (plain_emits_lazy deopt_info) Hcov Hrun).
Qed.

(** ** The size of a frame *)

(** The commands that write one value of a frame. *)
Definition is_store (c : Command) : bool :=
  match c with
  | StoreOptimizedOut | StoreLiteral _
  | StoreRegister _ | StoreInt32Register _ | StoreUint32Register _ | StoreDoubleRegister _
  | StoreStackSlot _ | StoreInt32StackSlot _ | StoreUint32StackSlot _
  | StoreDoubleStackSlot _ => true
  | _ => false
  end.

(** The entries that write one value. *)
Definition value_item (item : Item) : Prop :=
  match item with
  | Emit c => is_store c = true
  | Literal _ | Capture _ => True
  | _ => False
  end.

Lemma GetDeoptLiteral_translation (obj : Object) (b : Builder) id b' :
  GetDeoptLiteral obj b = Some (id, b') ->
  translation_array_builder_ b' = translation_array_builder_ b.
Proof.
  unfold GetDeoptLiteral. destruct (index_of obj (deopt_literals_ b));
    intros [= _ <-]; reflexivity.
Qed.

Lemma run_item_value (item : Item) (b b' : Builder) :
  value_item item -> run_item item b = Some (tt, b') ->
  exists c, translation_array_builder_ b' = translation_array_builder_ b ++ [c]
            /\ is_store c = true.
Proof.
  intros Hitem Hrun. destruct item; try contradiction; cbn [run_item] in Hrun.
  - injection Hrun as <-. exists c. split; [reflexivity|exact Hitem].
  - unfold build_bind in Hrun.
    destruct (GetDeoptLiteral obj b) as [[id b1]|] eqn:Hget; [|discriminate].
    injection Hrun as <-. exists (StoreLiteral id). simpl.
    rewrite (GetDeoptLiteral_translation _ _ _ _ Hget). auto.
  - unfold BuildDeoptFrameSingleValue_and_advance, build_bind, deref in Hrun.
    destruct (current_input_location b) as [|location locations]; [discriminate|].
    assert (Hsingle : forall b1,
              BuildDeoptFrameSingleValue value location b = Some (tt, b1) ->
              exists c, translation_array_builder_ b1 = translation_array_builder_ b ++ [c]
                        /\ is_store c = true).
    { intros b1 H1. unfold BuildDeoptFrameSingleValue in H1.
      destruct location as [|code|index].
      - unfold build_bind in H1.
        destruct (GetDeoptLiteral (Reify value) b) as [[id b2]|] eqn:Hget; [|discriminate].
        injection H1 as <-. exists (StoreLiteral id). simpl.
        rewrite (GetDeoptLiteral_translation _ _ _ _ Hget). auto.
      - unfold BuildDeoptStoreRegister in H1.
        destruct (value_representation value); try discriminate;
          injection H1 as <-; eexists; split; reflexivity.
      - unfold BuildDeoptStoreStackSlot in H1.
        destruct (value_representation value); try discriminate;
          injection H1 as <-; eexists; split; reflexivity. }
    destruct (BuildDeoptFrameSingleValue value location b) as [[[] b1]|]; [|discriminate].
    destruct (Hsingle b1 eq_refl) as (c & Hc & Hs).
    unfold increment in Hrun. injection Hrun as <-. exists c. auto.
Qed.

Lemma run_script_values (script : list Item) : forall b b',
  Forall value_item script -> run_script script b = Some (tt, b') ->
  exists values,
    translation_array_builder_ b' = translation_array_builder_ b ++ values
    /\ length values = length script
    /\ Forall (fun c => is_store c = true) values.
Proof.
  induction script as [|item script IH]; intros b b' Hitems Hrun.
  - injection Hrun as <-. exists []. rewrite app_nil_r. auto.
  - apply Forall_cons in Hitems as [Hitem Hitems].
    cbn [run_script] in Hrun. unfold build_bind in Hrun.
    destruct (run_item item b) as [[[] b1]|] eqn:Hstep; [|discriminate].
    destruct (run_item_value item b b1 Hitem Hstep) as (c & Hc & Hs).
    destruct (IH b1 b' Hitems Hrun) as (values & Hvalues & Hlen & Hstores).
    exists (c :: values). split_and!.
    + rewrite Hvalues, Hc, <- app_assoc. reflexivity.
    + simpl. rewrite Hlen. reflexivity.
    + constructor; assumption.
Qed.

Lemma values_script_value_items unit frame_state rl rs :
  Forall value_item (values_script unit frame_state rl rs).
Proof.
  unfold values_script. constructor.
  - unfold closure_item. destruct (inlining_depth unit =? 0); simpl; auto.
  - apply Forall_fmap, Forall_forall. intros [reg value] _.
    unfold slot_item. simpl.
    destruct reg as [reg|]; [destruct (InReturnValues reg rl rs)|];
      destruct value; simpl; auto.
Qed.

Lemma length_parameter_slots params : forall i,
  length (parameter_slots i params) = length params.
Proof.
  induction params as [|value params IH]; intros i; simpl; [reflexivity|].
  rewrite IH. reflexivity.
Qed.

(** A frame has a value for every slot.  Whatever is live and whatever
    lies in the result range, [BuildDeoptFrameValues] (on live locals in
    register order) writes exactly one value for the closure, one for each
    parameter, one for the context, [register_count] values for the locals --
    the gaps between live registers and the registers after the last live
    one are filled with the optimized-out marker, as are the registers of
    the result range -- and one for the accumulator, and nothing else. *)
Theorem BuildDeoptFrameValues_writes_every_slot (unit : MaglevCompilationUnit)
    (frame_state : CompactInterpreterFrameState) (result_location : Register)
    (result_size : Z) (b b' : Builder) :
  locals_in_order 0 (live_locals frame_state) (register_count unit) ->
  BuildDeoptFrameValues unit frame_state result_location result_size b = Some (tt, b') ->
  exists values,
    translation_array_builder_ b' = translation_array_builder_ b ++ values
    /\ length values
       = (1 + length (parameters frame_state) + 1
          + Z.to_nat (register_count unit) + 1)%nat
    /\ Forall (fun c => is_store c = true) values.
Proof.
  intros Hord Hrun.
  rewrite (emits_values unit frame_state result_location result_size Hord b) in Hrun.
  destruct (run_script_values _ b b' (values_script_value_items _ _ _ _) Hrun)
    as (values & Hvalues & Hlen & Hstores).
  exists values. split_and!; [exact Hvalues| |exact Hstores].
  rewrite Hlen. unfold values_script, frame_slots, local_slots.
  cbn [length].
  repeat first [rewrite length_fmap | rewrite length_app | rewrite length_parameter_slots
               | rewrite length_seqZ | progress cbn [length]].
  lia.
Qed.

(** ** Return values *)

(** The result range of a call: the registers [result_location] ..
    [result_location + result_size - 1]. *)
Definition in_result_range (result_location : Register) (result_size : Z)
    (reg : Register) : Prop :=
  result_location <= reg <= result_location + result_size - 1.

(** The capture of a value from its machine location: the command that
    stores the register or the stack slot in the representation of the
    value; a constant is stored as the deopt literal of its object. *)
Definition captures (literals : list Object) (value : ValueNode)
    (location : InputLocation) (c : Command) : Prop :=
  match location with
  | ConstantOperand =>
      exists id,
        c = StoreLiteral id /\ 0 <= id /\ literals !! Z.to_nat id = Some (Reify value)
  | RegisterOperand code =>
      match value_representation value with
      | kTagged => c = StoreRegister code
      | kInt32 => c = StoreInt32Register code
      | kUint32 => c = StoreUint32Register code
      | kFloat64 => c = StoreDoubleRegister code
      | kWord64 => False
      end
  | StackSlotOperand index =>
      let stack_slot :=
        1 - Z.quot (GetFramePointerOffsetForStackSlot index) kSystemPointerSize in
      match value_representation value with
      | kTagged => c = StoreStackSlot stack_slot
      | kInt32 => c = StoreInt32StackSlot stack_slot
      | kUint32 => c = StoreUint32StackSlot stack_slot
      | kFloat64 => c = StoreDoubleStackSlot stack_slot
      | kWord64 => False
      end
  end.

(** The entries of the logical slots of a frame, one for each slot: the
    optimized-out marker for a slot whose register lies in the result
    range; for any other slot the capture of its value from the next input
    location, or the marker if the slot is dead.  The input locations go
    from [locations] to what is left of them. *)
Inductive slot_entries (literals : list Object) (result_location : Register)
    (result_size : Z)
  : list (option Register * option ValueNode) -> list InputLocation ->
    list Command -> list InputLocation -> Prop :=
  | slot_entries_nil locations :
      slot_entries literals result_location result_size [] locations [] locations
  | slot_entries_elided reg value slots locations entries locations' :
      in_result_range result_location result_size reg ->
      slot_entries literals result_location result_size slots locations entries locations' ->
      slot_entries literals result_location result_size
        ((Some reg, value) :: slots) locations (StoreOptimizedOut :: entries) locations'
  | slot_entries_dead reg slots locations entries locations' :
      (forall r, reg = Some r -> ~ in_result_range result_location result_size r) ->
      slot_entries literals result_location result_size slots locations entries locations' ->
      slot_entries literals result_location result_size
        ((reg, None) :: slots) locations (StoreOptimizedOut :: entries) locations'
  | slot_entries_captured reg value location c slots locations entries locations' :
      (forall r, reg = Some r -> ~ in_result_range result_location result_size r) ->
      captures literals value location c ->
      slot_entries literals result_location result_size slots locations entries locations' ->
      slot_entries literals result_location result_size
        ((reg, Some value) :: slots) (location :: locations) (c :: entries) locations'.

(** The interpreted frames of a chain of frames, parents first, each with
    its bytecode position and its register count. *)
Fixpoint interpreted_frames (frame : DeoptFrame) : list (Z * Z) :=
  match frame with
  | InterpretedDeoptFrame unit _ bytecode_position parent =>
      match parent with
      | Some parent_frame => interpreted_frames parent_frame
      | None => []
      end
      ++ [(bytecode_position, register_count unit)]
  | BuiltinContinuationDeoptFrame _ _ _ parent =>
      match parent with
      | Some parent_frame => interpreted_frames parent_frame
      | None => []
      end
  end.

(** The interpreted frame a command begins: its bytecode offset, its
    height, its return offset and its return count. *)
Definition frame_begin (c : Command) : option (Z * Z * Z * Z) :=
  match c with
  | BeginInterpretedFrame bytecode_offset _ height return_value_offset return_value_count =>
      Some (bytecode_offset, height, return_value_offset, return_value_count)
  | _ => None
  end.

(** A frame without return values. *)
Definition no_return_values (frame : Z * Z) : Z * Z * Z * Z := (frame.1, frame.2, 0, 0).

(** The closure of a frame: the stack slot of the function, or the literal
    of the function in an inlined frame. *)
Definition closure_entry (literals : list Object) (unit : MaglevCompilationUnit)
    (c : Command) : Prop :=
  if inlining_depth unit =? 0
  then c = StoreStackSlot (1 - Z.quot kFunctionOffset kSystemPointerSize)
  else exists id,
         c = StoreLiteral id /\ 0 <= id /\ literals !! Z.to_nat id = Some (function unit).

(** [InReturnValues] is the test of the result range, when the result
    location of a call with a result is valid. *)
Lemma InReturnValues_in_result_range reg rl rs :
  (rs <> 0 -> is_valid rl = true) ->
  InReturnValues reg rl rs = true <-> in_result_range rl rs reg.
Proof.
  intros Hvalid. unfold InReturnValues, in_result_range, IsInRange.
  destruct (rs =? 0) eqn:Hz.
  - apply Z.eqb_eq in Hz. cbn [orb]. split; [discriminate|lia].
  - apply Z.eqb_neq in Hz. rewrite (Hvalid Hz). cbn [orb negb].
    rewrite andb_true_iff, !Z.leb_le. reflexivity.
Qed.

Lemma literals_grow_same (b b' : Builder) :
  deopt_literals_ b' = deopt_literals_ b -> literals_grow b b'.
Proof. intros H. exists []. rewrite H, app_nil_r. reflexivity. Qed.

Lemma captures_grow literals new value location c :
  captures literals value location c -> captures (literals ++ new) value location c.
Proof.
  unfold captures. destruct location as [|code|index]; [|auto|auto].
  intros (id & -> & Hid & Hlookup). exists id. split_and!; [reflexivity|exact Hid|].
  apply lookup_app_l_Some. exact Hlookup.
Qed.

Lemma captures_frame_begin literals value location c :
  captures literals value location c -> frame_begin c = None.
Proof.
  unfold captures. destruct location as [|code|index].
  - intros (id & -> & _). reflexivity.
  - destruct (value_representation value); try contradiction; intros ->; reflexivity.
  - cbv zeta. destruct (value_representation value); try contradiction;
      intros ->; reflexivity.
Qed.

Lemma closure_entry_grow literals new unit c :
  closure_entry literals unit c -> closure_entry (literals ++ new) unit c.
Proof.
  unfold closure_entry. destruct (inlining_depth unit =? 0); [auto|].
  intros (id & -> & Hid & Hlookup). exists id. split_and!; [reflexivity|exact Hid|].
  apply lookup_app_l_Some. exact Hlookup.
Qed.

Lemma GetDeoptLiteral_lookup (obj : Object) (b : Builder) id b' :
  GetDeoptLiteral obj b = Some (id, b') ->
  0 <= id
  /\ deopt_literals_ b' !! Z.to_nat id = Some obj
  /\ literals_grow b b'
  /\ translation_array_builder_ b' = translation_array_builder_ b
  /\ current_input_location b' = current_input_location b.
Proof.
  unfold GetDeoptLiteral.
  destruct (index_of obj (deopt_literals_ b)) as [i|] eqn:Hi; intros [= <- <-].
  - split_and!; [lia| |apply literals_grow_same; reflexivity|reflexivity|reflexivity].
    rewrite Nat2Z.id. apply index_of_Some. exact Hi.
  - split_and!; [lia| |exists [obj]; reflexivity|reflexivity|reflexivity].
    rewrite Nat2Z.id. cbn [deopt_literals_]. apply list_lookup_middle. reflexivity.
Qed.

Lemma literal_then_emit_effect (obj : Object) (c : Z -> Command) (b b' : Builder) :
  (let* id := GetDeoptLiteral obj in emit (c id)) b = Some (tt, b') ->
  exists id,
    translation_array_builder_ b' = translation_array_builder_ b ++ [c id]
    /\ 0 <= id
    /\ deopt_literals_ b' !! Z.to_nat id = Some obj
    /\ literals_grow b b'
    /\ current_input_location b' = current_input_location b.
Proof.
  unfold build_bind.
  destruct (GetDeoptLiteral obj b) as [[id b1]|] eqn:Hget; [|discriminate].
  destruct (GetDeoptLiteral_lookup obj b id b1 Hget) as (Hid & Hlookup & Hgrow & Htr & Hloc).
  intros [= <-]. exists id. cbn [translation_array_builder_ deopt_literals_
                                   current_input_location].
  rewrite Htr. split_and!; auto.
Qed.

(** One value captured: the command is the capture of the value from the
    input location that is read, and the pointer moves on by one. *)
Lemma capture_effect (value : ValueNode) (b b' : Builder) :
  BuildDeoptFrameSingleValue_and_advance value b = Some (tt, b') ->
  exists location c,
    current_input_location b = location :: current_input_location b'
    /\ translation_array_builder_ b' = translation_array_builder_ b ++ [c]
    /\ captures (deopt_literals_ b') value location c
    /\ literals_grow b b'.
Proof.
  unfold BuildDeoptFrameSingleValue_and_advance, build_bind, deref.
  destruct (current_input_location b) as [|location locations] eqn:Hloc; [discriminate|].
  assert (Hsingle : forall b1,
    BuildDeoptFrameSingleValue value location b = Some (tt, b1) ->
    exists c,
      current_input_location b1 = location :: locations
      /\ translation_array_builder_ b1 = translation_array_builder_ b ++ [c]
      /\ captures (deopt_literals_ b1) value location c
      /\ literals_grow b b1).
  { intros b1 H1. unfold BuildDeoptFrameSingleValue in H1.
    destruct location as [|code|index].
    - destruct (literal_then_emit_effect (Reify value) StoreLiteral b b1 H1)
        as (id & Htr & Hid & Hlookup & Hgrow & Hloc1).
      exists (StoreLiteral id). split_and!; [congruence|exact Htr| |exact Hgrow].
      exists id. auto.
    - unfold BuildDeoptStoreRegister in H1. unfold captures.
      destruct (value_representation value); try discriminate;
        injection H1 as <-; eexists;
        (split_and!; [exact Hloc|reflexivity|reflexivity
                     |apply literals_grow_same; reflexivity]).
    - unfold BuildDeoptStoreStackSlot, DeoptStackSlotFromStackSlot,
        DeoptStackSlotIndexFromFPOffset in H1.
      unfold captures. cbv zeta.
      destruct (value_representation value); try discriminate;
        injection H1 as <-; eexists;
        (split_and!; [exact Hloc|reflexivity|reflexivity
                     |apply literals_grow_same; reflexivity]). }
  destruct (BuildDeoptFrameSingleValue value location b) as [[[] b1]|]; [|discriminate].
  destruct (Hsingle b1 eq_refl) as (c & Hloc1 & Htr & Hcap & Hgrow).
  unfold increment. intros [= <-].
  exists location, c. cbn [current_input_location translation_array_builder_ deopt_literals_].
  rewrite Hloc1. cbn [tail]. auto.
Qed.

(** The interpreted frame an entry begins. *)
Definition item_frame_begin (item : Item) : option (Z * Z * Z * Z) :=
  match item with
  | Emit c => frame_begin c
  | InterpretedFrame bytecode_offset _ height return_value_offset return_value_count =>
      Some (bytecode_offset, height, return_value_offset, return_value_count)
  | _ => None
  end.

(** What an entry does to the builder: the commands it adds, the frames
    these begin, the literals, and the input locations. *)
Lemma run_item_effect (item : Item) (b b' : Builder) :
  run_item item b = Some (tt, b') ->
  exists added,
    translation_array_builder_ b' = translation_array_builder_ b ++ added
    /\ omap frame_begin added = omap item_frame_begin [item]
    /\ literals_grow b b'
    /\ match item with
       | SetInputLocations locations => current_input_location b' = locations
       | Capture _ =>
           exists location,
             current_input_location b = location :: current_input_location b'
       | _ => current_input_location b' = current_input_location b
       end.
Proof.
  intros Hrun. destruct item; cbn [run_item] in Hrun.
  - injection Hrun as <-. exists [c].
    split_and!; [reflexivity|reflexivity|apply literals_grow_same; reflexivity|reflexivity].
  - destruct (literal_then_emit_effect _ (fun id => AddUpdateFeedback id slot) b b' Hrun)
      as (id & Htr & _ & _ & Hgrow & Hloc).
    exists [AddUpdateFeedback id slot]. auto.
  - destruct (literal_then_emit_effect _
                (fun id => BeginInterpretedFrame bytecode_offset id height
                             return_value_offset return_value_count) b b' Hrun)
      as (id & Htr & _ & _ & Hgrow & Hloc).
    eexists. split_and!; [exact Htr|reflexivity|exact Hgrow|exact Hloc].
  - destruct (literal_then_emit_effect _
                (fun id => BeginBuiltinContinuationFrame bytecode_offset id height)
                b b' Hrun)
      as (id & Htr & _ & _ & Hgrow & Hloc).
    eexists. split_and!; [exact Htr|reflexivity|exact Hgrow|exact Hloc].
  - destruct (literal_then_emit_effect _ StoreLiteral b b' Hrun)
      as (id & Htr & _ & _ & Hgrow & Hloc).
    eexists. split_and!; [exact Htr|reflexivity|exact Hgrow|exact Hloc].
  - destruct (capture_effect value b b' Hrun) as (location & c & Hloc & Htr & Hcap & Hgrow).
    exists [c]. split_and!; [exact Htr| |exact Hgrow|exists location; exact Hloc].
    cbn [omap list_omap item_frame_begin]. rewrite (captures_frame_begin _ _ _ _ Hcap).
    reflexivity.
  - injection Hrun as <-. exists []. cbn. rewrite app_nil_r.
    split_and!; [reflexivity|reflexivity|apply literals_grow_same; reflexivity|reflexivity].
  - discriminate.
Qed.

Lemma run_script_app_inv (s1 s2 : list Item) (b b' : Builder) :
  run_script (s1 ++ s2) b = Some (tt, b') ->
  exists b1, run_script s1 b = Some (tt, b1) /\ run_script s2 b1 = Some (tt, b').
Proof.
  rewrite run_script_app. unfold build_bind.
  destruct (run_script s1 b) as [[[] b1]|]; [|discriminate].
  intros Hrun. exists b1. auto.
Qed.

(** Entries that leave the pointer to the input locations to the
    captures. *)
Definition keeps_input_locations (script : list Item) : Prop :=
  Forall (fun item => forall locations, item <> SetInputLocations locations) script.

Lemma run_script_effect (script : list Item) : forall b b',
  keeps_input_locations script ->
  run_script script b = Some (tt, b') ->
  exists added consumed,
    translation_array_builder_ b' = translation_array_builder_ b ++ added
    /\ omap frame_begin added = omap item_frame_begin script
    /\ literals_grow b b'
    /\ current_input_location b = consumed ++ current_input_location b'.
Proof.
  induction script as [|item script IH]; intros b b' Hkeeps Hrun.
  - injection Hrun as <-. exists [], []. rewrite app_nil_r.
    split_and!; [reflexivity|reflexivity|apply literals_grow_same; reflexivity|reflexivity].
  - apply Forall_cons in Hkeeps as [Hitem Hkeeps].
    cbn [run_script] in Hrun. unfold build_bind in Hrun.
    destruct (run_item item b) as [[[] b1]|] eqn:Hstep; [|discriminate].
    destruct (run_item_effect item b b1 Hstep) as (added1 & Htr1 & Hfr1 & Hgrow1 & Hloc1).
    destruct (IH b1 b' Hkeeps Hrun) as (added & consumed & Htr & Hfr & Hgrow & Hloc).
    assert (Hloc' : exists consumed1,
              current_input_location b = consumed1 ++ current_input_location b1).
    { destruct item; try (exists []; rewrite Hloc1; reflexivity).
      - destruct Hloc1 as (location & Hloc1). exists [location]. exact Hloc1.
      - exfalso. exact (Hitem _ eq_refl). }
    destruct Hloc' as (consumed1 & Hloc').
    exists (added1 ++ added), (consumed1 ++ consumed). split_and!.
    + rewrite Htr, Htr1, <- app_assoc. reflexivity.
    + rewrite omap_app, Hfr1, Hfr. cbn [omap list_omap].
      destruct (item_frame_begin item); reflexivity.
    + exact (literals_grow_trans _ _ _ Hgrow1 Hgrow).
    + rewrite Hloc', Hloc, <- app_assoc. reflexivity.
Qed.

(** The entries of the logical slots, as the builder writes them. *)
Lemma run_slot_items rl rs slots : forall b b',
  (rs <> 0 -> is_valid rl = true) ->
  run_script (slot_item rl rs <$> slots) b = Some (tt, b') ->
  exists entries,
    translation_array_builder_ b' = translation_array_builder_ b ++ entries
    /\ slot_entries (deopt_literals_ b') rl rs slots (current_input_location b)
         entries (current_input_location b')
    /\ literals_grow b b'.
Proof.
  intros b b' Hvalid. revert b.
  induction slots as [|[reg value] slots IH]; intros b Hrun.
  - injection Hrun as <-. exists []. rewrite app_nil_r.
    split_and!; [reflexivity|constructor|apply literals_grow_same; reflexivity].
  - cbn [fmap list_fmap run_script] in Hrun. unfold build_bind in Hrun.
    destruct (run_item (slot_item rl rs (reg, value)) b) as [[[] b1]|] eqn:Hstep;
      [|discriminate].
    destruct (IH b1 Hrun) as (entries & Htr & Hentries & Hgrow).
    assert (Hrange : forall r, reg = Some r ->
              InReturnValues r rl rs = false -> ~ in_result_range rl rs r).
    { intros r _ Hfalse Hin.
      apply (InReturnValues_in_result_range r rl rs Hvalid) in Hin. congruence. }
    assert (Hmarker : run_item (Emit StoreOptimizedOut) b = Some (tt, b1) ->
              translation_array_builder_ b1
              = translation_array_builder_ b ++ [StoreOptimizedOut]
              /\ current_input_location b1 = current_input_location b
              /\ literals_grow b b1).
    { intros [= <-]. split_and!; [reflexivity|reflexivity|apply literals_grow_same; reflexivity]. }
    assert (Hcaptured : forall v,
              (forall r, reg = Some r -> ~ in_result_range rl rs r) ->
              run_item (Capture v) b = Some (tt, b1) ->
              exists entries0,
                translation_array_builder_ b' = translation_array_builder_ b ++ entries0
                /\ slot_entries (deopt_literals_ b') rl rs ((reg, Some v) :: slots)
                     (current_input_location b) entries0 (current_input_location b')
                /\ literals_grow b b').
    { intros v Hout Hcap.
      destruct (capture_effect v b b1 Hcap) as (location & c & Hloc & Htr1 & Hc & Hgrow1).
      exists (c :: entries). split_and!.
      - rewrite Htr, Htr1, <- app_assoc. reflexivity.
      - rewrite Hloc. destruct Hgrow as (new & Hnew).
        apply slot_entries_captured; [exact Hout| |exact Hentries].
        rewrite Hnew. apply captures_grow. exact Hc.
      - exact (literals_grow_trans _ _ _ Hgrow1 Hgrow). }
    assert (Hdead : (forall r, reg = Some r -> ~ in_result_range rl rs r) ->
              run_item (Emit StoreOptimizedOut) b = Some (tt, b1) ->
              exists entries0,
                translation_array_builder_ b' = translation_array_builder_ b ++ entries0
                /\ slot_entries (deopt_literals_ b') rl rs ((reg, None) :: slots)
                     (current_input_location b) entries0 (current_input_location b')
                /\ literals_grow b b').
    { intros Hout Hemit. destruct (Hmarker Hemit) as (Htr1 & Hloc1 & Hgrow1).
      exists (StoreOptimizedOut :: entries). split_and!.
      - rewrite Htr, Htr1, <- app_assoc. reflexivity.
      - rewrite <- Hloc1. apply slot_entries_dead; [exact Hout|exact Hentries].
      - exact (literals_grow_trans _ _ _ Hgrow1 Hgrow). }
    unfold slot_item in Hstep. cbn [fst snd] in Hstep.
    destruct reg as [r|].
    + destruct (InReturnValues r rl rs) eqn:Hin.
      * apply (InReturnValues_in_result_range r rl rs Hvalid) in Hin.
        destruct (Hmarker Hstep) as (Htr1 & Hloc1 & Hgrow1).
        exists (StoreOptimizedOut :: entries). split_and!.
        -- rewrite Htr, Htr1, <- app_assoc. reflexivity.
        -- rewrite <- Hloc1. apply slot_entries_elided; [exact Hin|exact Hentries].
        -- exact (literals_grow_trans _ _ _ Hgrow1 Hgrow).
      * destruct value as [v|].
        -- apply Hcaptured; [|exact Hstep].
           intros r' [= <-]. exact (Hrange r eq_refl Hin).
        -- apply Hdead; [|exact Hstep].
           intros r' [= <-]. exact (Hrange r eq_refl Hin).
    + destruct value as [v|].
      * apply Hcaptured; [discriminate|exact Hstep].
      * apply Hdead; [discriminate|exact Hstep].
Qed.

Lemma slot_items_no_frame rl rs slots :
  omap item_frame_begin (slot_item rl rs <$> slots) = []
  /\ keeps_input_locations (slot_item rl rs <$> slots).
Proof.
  induction slots as [|[reg value] slots [IH1 IH2]]; [split; [reflexivity|constructor]|].
  assert (Hitem : item_frame_begin (slot_item rl rs (reg, value)) = None
                  /\ forall locations,
                       slot_item rl rs (reg, value) <> SetInputLocations locations).
  { unfold slot_item. cbn [fst snd].
    destruct reg as [r|]; [destruct (InReturnValues r rl rs)|];
      destruct value; split; try reflexivity; discriminate. }
  destruct Hitem as [Hnone Hkeep]. split.
  - cbn [fmap list_fmap omap list_omap]. rewrite Hnone. exact IH1.
  - cbn [fmap list_fmap]. constructor; [exact Hkeep|exact IH2].
Qed.

Lemma values_script_no_frame unit frame_state rl rs :
  omap item_frame_begin (values_script unit frame_state rl rs) = []
  /\ keeps_input_locations (values_script unit frame_state rl rs).
Proof.
  unfold values_script.
  destruct (slot_items_no_frame rl rs (frame_slots unit frame_state)) as [H1 H2].
  split.
  - cbn [omap list_omap]. rewrite H1. unfold closure_item.
    destruct (inlining_depth unit =? 0); reflexivity.
  - constructor; [|exact H2]. unfold closure_item.
    destruct (inlining_depth unit =? 0); discriminate.
Qed.

Lemma continuation_script_no_frame builtin_id params ctx parent :
  omap item_frame_begin (continuation_script builtin_id params ctx parent) = []
  /\ keeps_input_locations (continuation_script builtin_id params ctx parent).
Proof.
  assert (Hparams : omap item_frame_begin (Capture <$> params) = []
                    /\ keeps_input_locations (Capture <$> params)).
  { induction params as [|value params [IH1 IH2]]; [split; [reflexivity|constructor]|].
    split; [exact IH1|]. cbn [fmap list_fmap]. constructor; [discriminate|exact IH2]. }
  destruct Hparams as [H1 H2]. unfold continuation_script.
  destruct parent as [[unit frame_state bpos parent|]|].
  - split.
    + rewrite !omap_app, H1. reflexivity.
    + unfold keeps_input_locations. rewrite !Forall_app. split_and!.
      * repeat constructor; discriminate.
      * exact H2.
      * repeat constructor; discriminate.
  - split; [reflexivity|]. repeat constructor; discriminate.
  - split; [reflexivity|]. repeat constructor; discriminate.
Qed.

(** The frames of [frame_script] are the interpreted frames of the chain,
    each without return values. *)
Lemma frame_script_frames : forall frame,
  omap item_frame_begin (frame_script frame)
  = no_return_values <$> interpreted_frames frame
  /\ keeps_input_locations (frame_script frame).
Proof.
  fix IH 1.
  intros [unit frame_state bpos parent|builtin_id params ctx parent];
    cbn [frame_script interpreted_frames].
  - assert (Hparent :
      omap item_frame_begin
        match parent with Some parent_frame => frame_script parent_frame | None => [] end
      = no_return_values
          <$> match parent with
              | Some parent_frame => interpreted_frames parent_frame
              | None => []
              end
      /\ keeps_input_locations
           match parent with Some parent_frame => frame_script parent_frame | None => [] end).
    { destruct parent as [parent_frame|]; [apply IH|split; [reflexivity|constructor]]. }
    destruct Hparent as [H1 H2].
    destruct (values_script_no_frame unit frame_state invalid_value 0) as [H3 H4].
    split.
    + rewrite omap_app, H1, fmap_app. cbn [omap list_omap item_frame_begin].
      rewrite H3. reflexivity.
    + unfold keeps_input_locations. rewrite Forall_app. split; [exact H2|].
      constructor; [discriminate|exact H4].
  - assert (Hparent :
      omap item_frame_begin
        match parent with Some parent_frame => frame_script parent_frame | None => [] end
      = no_return_values
          <$> match parent with
              | Some parent_frame => interpreted_frames parent_frame
              | None => []
              end
      /\ keeps_input_locations
           match parent with Some parent_frame => frame_script parent_frame | None => [] end).
    { destruct parent as [parent_frame|]; [apply IH|split; [reflexivity|constructor]]. }
    destruct Hparent as [H1 H2].
    destruct (continuation_script_no_frame builtin_id params ctx parent) as [H3 H4].
    split.
    + rewrite omap_app, H1, H3, app_nil_r. reflexivity.
    + unfold keeps_input_locations. rewrite Forall_app. split; [exact H2|exact H4].
Qed.

(** The start of a deopt begins no frame and sets the pointer to the input
    locations of the deopt. *)
Lemma begin_script_effect (deopt_info : DeoptInfo) (b b' : Builder) :
  run_script (begin_script deopt_info) b = Some (tt, b') ->
  exists added,
    translation_array_builder_ b' = translation_array_builder_ b ++ added
    /\ omap frame_begin added = []
    /\ literals_grow b b'
    /\ current_input_location b' = input_locations deopt_info.
Proof.
  unfold begin_script.
  destruct (GetFrameCount (top_frame deopt_info)) as [frame_count|]; [|discriminate].
  set (first :=
         Emit (BeginTranslation frame_count frame_count
                 match feedback_to_update deopt_info with Some _ => 1 | None => 0 end)).
  set (feedback :=
         match feedback_to_update deopt_info with
         | Some (vector, index) => [UpdateFeedback vector index]
         | None => []
         end).
  intros Hrun.
  change (run_script (([first] ++ feedback)
                      ++ [SetInputLocations (input_locations deopt_info)]) b
          = Some (tt, b')) in Hrun.
  apply run_script_app_inv in Hrun as (b1 & Hrun1 & Hrun2).
  destruct (run_script_effect ([first] ++ feedback) b b1) as
    (added & consumed & Htr & Hfr & Hgrow & _); [|exact Hrun1|].
  { unfold keeps_input_locations. rewrite Forall_app. split.
    - repeat constructor; discriminate.
    - unfold feedback. destruct (feedback_to_update deopt_info) as [[vector index]|];
        repeat constructor; discriminate. }
  cbn [run_script run_item] in Hrun2. unfold build_bind, build_ret in Hrun2.
  injection Hrun2 as <-.
  exists added. cbn [translation_array_builder_ current_input_location].
  split_and!; [exact Htr| |exact Hgrow|reflexivity].
  rewrite Hfr, omap_app. unfold feedback.
  destruct (feedback_to_update deopt_info) as [[vector index]|]; reflexivity.
Qed.


(** ** The return offset of a lazy deopt *)

(** The registers of a frame in the order of the array the return offset is
    counted in: [parameters..., locals..., accumulator]. *)
Definition frame_registers (unit : MaglevCompilationUnit) : list Register :=
  (FromParameterIndex <$> seqZ 0 (parameter_count unit))
  ++ seqZ 0 (register_count unit) ++ [virtual_accumulator].

(** What is assumed of [interpreter::Register], which is declared outside
    this file: parameters and locals are told apart by [is_parameter],
    [ToParameterIndex] inverts [FromParameterIndex], and the accumulator is
    neither a parameter nor a local of the frame. *)
Definition registers_distinct (unit : MaglevCompilationUnit) : Prop :=
  (forall i, 0 <= i < parameter_count unit ->
     is_parameter (FromParameterIndex i) = true
     /\ ToParameterIndex (FromParameterIndex i) = i
     /\ FromParameterIndex i <> virtual_accumulator)
  /\ (forall reg, 0 <= reg < register_count unit ->
        is_parameter reg = false /\ reg <> virtual_accumulator).

(** The return offset is counted from the end, without a fence post
    error: for every result location of the frame -- the accumulator, a
    local or a parameter -- the register [return_offset] places before the
    end of [parameters..., locals..., accumulator] is the result location
    (the accumulator, the last one, is at offset 0). *)
Theorem return_offset_counts_from_the_end (unit : MaglevCompilationUnit)
    (result_location : Register) :
  0 <= register_count unit ->
  registers_distinct unit ->
  result_location ∈ frame_registers unit ->
  0 <= return_offset_of unit result_location
  /\ reverse (frame_registers unit) !! Z.to_nat (return_offset_of unit result_location)
     = Some result_location.
Proof.
  intros Hrc [Hparams Hlocals] Hin. unfold frame_registers in *.
  set (pc := parameter_count unit) in *. set (rc := register_count unit) in *.
  rewrite !reverse_app, <- app_assoc.
  change (reverse [virtual_accumulator]) with [virtual_accumulator].
  unfold return_offset_of. fold pc rc.
  apply elem_of_app in Hin as [Hin|Hin].
  - (* a parameter *)
    apply list_elem_of_fmap in Hin as (i & -> & Hi%elem_of_seqZ).
    destruct (Hparams i) as (Hisp & Hto & Hacc); [lia|].
    apply Z.eqb_neq in Hacc. rewrite Hacc, Hisp, Hto.
    split; [lia|].
    assert (Hlen_rc : length (reverse (seqZ 0 rc)) = Z.to_nat rc)
      by (rewrite length_reverse, length_seqZ; reflexivity).
    rewrite lookup_app_r by (simpl; lia).
    rewrite lookup_app_r by (simpl; rewrite Hlen_rc; lia).
    rewrite Hlen_rc. cbn [length].
    rewrite reverse_lookup by (rewrite length_fmap, length_seqZ; lia).
    rewrite length_fmap, length_seqZ, list_lookup_fmap.
    replace (Z.to_nat pc - S (Z.to_nat (rc + pc - i) - 1 - Z.to_nat rc))%nat
      with (Z.to_nat i) by lia.
    rewrite lookup_seqZ_lt by lia. simpl. f_equal. f_equal. lia.
  - apply elem_of_app in Hin as [Hin|Hin].
    + (* a local *)
      apply elem_of_seqZ in Hin.
      destruct (Hlocals result_location) as (Hisp & Hacc); [lia|].
      apply Z.eqb_neq in Hacc. rewrite Hacc, Hisp.
      split; [lia|].
      rewrite lookup_app_r by (simpl; lia).
      rewrite lookup_app_l by (rewrite length_reverse, length_seqZ; simpl; lia).
      rewrite reverse_lookup by (rewrite length_seqZ; simpl; lia).
      rewrite length_seqZ. cbn [length].
      replace (Z.to_nat rc - S (Z.to_nat (rc - result_location) - 1))%nat
        with (Z.to_nat result_location) by lia.
      rewrite lookup_seqZ_lt by lia. f_equal. lia.
    + (* the accumulator *)
      apply list_elem_of_singleton in Hin as ->.
      rewrite Z.eqb_refl. split; [lia|reflexivity].
Qed.

End Builder.

(** ** An instance: a frame with two parameters and three registers *)

Definition example_FromParameterIndex (i : Z) : Register := - 8 - i.

Definition example_node (repr : ValueRepresentation) (obj : nat) : ValueNode nat :=
  mkValueNode nat repr obj.

Definition example_unit : MaglevCompilationUnit nat := mkUnit nat 3 2 0 100%nat 101%nat.

(** The registers [r0] and [r2] and the accumulator are live. *)
Definition example_frame_state : CompactInterpreterFrameState nat :=
  mkFrameState nat
    [example_node kTagged 1%nat; example_node kTagged 2%nat]
    (example_node kTagged 3%nat)
    [(0, example_node kInt32 4%nat); (2, example_node kTagged 5%nat)]
    (Some (example_node kFloat64 6%nat)).

(** A call whose result goes to [r2]. *)
Definition example_deopt_info : DeoptInfo nat :=
  mkDeoptInfo nat
    (InterpretedDeoptFrame nat example_unit example_frame_state 42 None)
    None
    [RegisterOperand 0; StackSlotOperand 1; ConstantOperand; RegisterOperand 3;
     StackSlotOperand 2; RegisterOperand 1]
    2 1.

Definition example_builder : Builder nat := mkBuilder nat [] [] [].


(** The translations of the instance.  The eager deopt captures [r2] from
    its stack slot; the lazy deopt, whose result goes to [r2], begins the
    frame with return offset 1 and return count 1, writes the marker for
    [r2] and leaves the input location of [r2] unread. *)
Lemma example_eager_translation :
  BuildEagerDeopt nat 8 (-16) (fun index => - 8 * index - 24) id (-7) 2147483647
    example_FromParameterIndex example_deopt_info example_builder
  = Some (tt, mkBuilder nat
                [BeginTranslation 1 1 0; BeginInterpretedFrame 42 0 3 0 0;
                 StoreStackSlot 3; StoreRegister 0; StoreStackSlot 5; StoreLiteral 1;
                 StoreInt32Register 3; StoreOptimizedOut; StoreStackSlot 6;
                 StoreDoubleRegister 1]
                [100; 3]%nat []).
Proof. vm_compute. reflexivity. Qed.

Lemma example_lazy_translation :
  BuildLazyDeopt nat 8 (-16) (fun index => - 8 * index - 24) id (-7) 2147483647
    example_FromParameterIndex (fun reg => reg <? -7) (fun reg => - 8 - reg)
    example_deopt_info example_builder
  = Some (tt, mkBuilder nat
                [BeginTranslation 1 1 0; BeginInterpretedFrame 42 0 3 1 1;
                 StoreStackSlot 3; StoreRegister 0; StoreStackSlot 5; StoreLiteral 1;
                 StoreInt32Register 3; StoreOptimizedOut; StoreOptimizedOut;
                 StoreDoubleStackSlot 6]
                [100; 3]%nat [RegisterOperand 1]).
Proof. vm_compute. reflexivity. Qed.


(** *** The literals, the size of the frame and the return offset, on the
    instance *)

Lemma GetDeoptLiteral_round_trip_witness :
  exists id b',
    GetDeoptLiteral nat 7%nat (mkBuilder nat [] [5; 6]%nat []) = Some (id, b')
    /\ 0 <= id < Z.of_nat (length (deopt_literals_ nat b'))
    /\ deopt_literals_ nat b' !! Z.to_nat id = Some 7%nat
    /\ NoDup (deopt_literals_ nat b')
    /\ (exists new, deopt_literals_ nat b' = [5; 6]%nat ++ new)
    /\ GetDeoptLiteral nat 7%nat b' = Some (id, b')
    /\ (forall obj' i, [5; 6]%nat !! i = Some obj' ->
          GetDeoptLiteral nat obj' b' = Some (Z.of_nat i, b')).
Proof.
  apply (GetDeoptLiteral_round_trip nat 7%nat (mkBuilder nat [] [5; 6]%nat [])).
  simpl. apply NoDup_cons_2; [|apply NoDup_singleton].
  rewrite list_elem_of_singleton. discriminate.
Defined.

Lemma deopt_literal_ids_in_table_witness :
  exists b',
    BuildLazyDeopt nat 8 (-16) (fun index => - 8 * index - 24) id (-7) 2147483647
      example_FromParameterIndex (fun reg => reg <? -7) (fun reg => - 8 - reg)
      example_deopt_info example_builder = Some (tt, b')
    /\ literals_cover nat b' /\ literals_grow nat example_builder b'.
Proof.
  eexists. split; [vm_compute; reflexivity|].
  eapply (deopt_literal_ids_in_table nat 8 (-16) (fun index => - 8 * index - 24) id
            (-7) 2147483647 example_FromParameterIndex (fun reg => reg <? -7)
            (fun reg => - 8 - reg) example_deopt_info example_builder).
  - simpl. lia.
  - split; [constructor|]. intros c i Hin. inversion Hin.
  - right. vm_compute. reflexivity.
Defined.

Lemma BuildDeoptFrameValues_writes_every_slot_witness :
  exists b',
    BuildDeoptFrameValues nat 8 (-16) (fun index => - 8 * index - 24) (-7) 2147483647
      example_FromParameterIndex example_unit example_frame_state 2 1
      (mkBuilder nat [] [] (input_locations nat example_deopt_info)) = Some (tt, b')
    /\ exists values,
         translation_array_builder_ nat b' = [] ++ values
         /\ length values = (1 + 2 + 1 + 3 + 1)%nat
         /\ Forall (fun c => is_store c = true) values.
Proof.
  eexists. split; [vm_compute; reflexivity|].
  apply (BuildDeoptFrameValues_writes_every_slot nat 8 (-16)
           (fun index => - 8 * index - 24) (-7) 2147483647 example_FromParameterIndex
           example_unit example_frame_state 2 1
           (mkBuilder nat [] [] (input_locations nat example_deopt_info))).
  - simpl. lia.
  - vm_compute. reflexivity.
Defined.

(** The result location [r2] of a frame with two parameters and three
    registers. *)
Lemma return_offset_counts_from_the_end_witness :
  0 <= return_offset_of nat (-7) (fun reg => reg <? -7) (fun reg => - 8 - reg)
         example_unit 2
  /\ reverse (frame_registers nat (-7) example_FromParameterIndex example_unit)
       !! Z.to_nat (return_offset_of nat (-7) (fun reg => reg <? -7)
                      (fun reg => - 8 - reg) example_unit 2)
     = Some 2.
Proof.
  apply (return_offset_counts_from_the_end nat (-7) example_FromParameterIndex
           (fun reg => reg <? -7) (fun reg => - 8 - reg) example_unit 2).
  - simpl. lia.
  - split.
    + intros i Hi. unfold example_FromParameterIndex. split_and!; [|lia|lia].
      apply Z.ltb_lt. lia.
    + intros reg Hreg. simpl in Hreg. split; [apply Z.ltb_ge|]; lia.
  - apply list_elem_of_In. vm_compute. auto 10.
Defined.

End Translation.

(** * Construction and deconstruction of the frame
    ([AssembleConstructFrame], [AssembleReturn] and
    [AssembleDeconstructFrame] of
    src/compiler/backend/x64/code-generator-x64.cc, in a build without
    [V8_ENABLE_WEBASSEMBLY]) *)

Module Frame.

Abbreviation Register := nat.
Abbreviation XMMRegister := nat.

Definition rcx : Register := 1%nat.
Definition rsp : Register := 4%nat.
Definition rbp : Register := 5%nat.

Inductive Condition := equal.

Inductive Instr :=
  | pushq (src : Register)
  | pushq_imm (value : Z)
  | popq (dst : Register)
  | movq (dst src : Register)
  | movq_load (dst base : Register) (disp : Z)
  | AllocateStackSpace (bytes : Z)
  | addq (dst : Register) (imm : Z)
  | Movdqu_store (base : Register) (disp : Z) (src : XMMRegister)
  | Movdqu_load (dst : XMMRegister) (base : Register) (disp : Z)
  | cmpq (r : Register) (imm : Z)
  | Assert (cc : Condition) (reason : string)
  | Abort (reason : string)
  | RecordComment (comment : string)
  | bind_return_label
  | jmp_return_label.

(** ** The machine *)

(** Memory holds 64 bit words at byte addresses; an XMM register is a
    pair of words, the low one first. *)
Record Machine := mkMachine {
  regs : Register -> Z;
  xmm : XMMRegister -> Z * Z;
  mem : Z -> Z;
  zf : bool
}.

Definition set_reg (r : Register) (v : Z) (m : Machine) : Machine :=
  mkMachine (fun r' => if Nat.eqb r' r then v else regs m r') (xmm m) (mem m) (zf m).

Definition set_xmm (x : XMMRegister) (v : Z * Z) (m : Machine) : Machine :=
  mkMachine (regs m) (fun x' => if Nat.eqb x' x then v else xmm m x') (mem m) (zf m).

Definition store (a v : Z) (m : Machine) : Machine :=
  mkMachine (regs m) (xmm m) (fun a' => if a' =? a then v else mem m a') (zf m).

Definition push (v : Z) (m : Machine) : Machine :=
  let sp := regs m rsp - 8 in
  store sp v (set_reg rsp sp m).

(** [None] is an abort. *)
Definition exec_instr (i : Instr) (m : Machine) : option Machine :=
  match i with
  | pushq src => Some (push (regs m src) m)
  | pushq_imm value => Some (push value m)
  | popq dst =>
      Some (set_reg dst (mem m (regs m rsp)) (set_reg rsp (regs m rsp + 8) m))
  | movq dst src => Some (set_reg dst (regs m src) m)
  | movq_load dst base disp => Some (set_reg dst (mem m (regs m base + disp)) m)
  | AllocateStackSpace bytes => Some (set_reg rsp (regs m rsp - bytes) m)
  | addq dst imm => Some (set_reg dst (regs m dst + imm) m)
  | Movdqu_store base disp src =>
      let a := regs m base + disp in
      Some (store (a + 8) (xmm m src).2 (store a (xmm m src).1 m))
  | Movdqu_load dst base disp =>
      let a := regs m base + disp in
      Some (set_xmm dst (mem m a, mem m (a + 8)) m)
  | cmpq r imm => Some (mkMachine (regs m) (xmm m) (mem m) (regs m r =? imm))
  | Assert equal _ => if zf m then Some m else None
  | Abort _ => None
  | RecordComment _ | bind_return_label | jmp_return_label => Some m
  end.

Fixpoint exec (code : list Instr) (m : Machine) : option Machine :=
  match code with
  | [] => Some m
  | i :: code' =>
      match exec_instr i m with
      | Some m' => exec code' m'
      | None => None
      end
  end.

(** ** The code generator *)

Record CallDescriptor := mkCallDescriptor {
  IsCFunctionCall : bool;
  IsJSFunctionCall : bool;
  CalleeSavedRegisters : list Register;
  CalleeSavedFPRegisters : list XMMRegister;
  ParameterSlotCount : Z
}.

Record FrameInfo := mkFrameInfo {
  GetTotalFrameSlotCount : Z;
  GetFixedSlotCount : Z;
  GetReturnSlotCount : Z
}.

(** What the two functions read of the code generator: the incoming call
    descriptor, the frame, and the answers of [has_frame()], of
    [info()->is_osr()] and of [osr_helper()->UnoptimizedFrameSlots()]. *)
Record CodeGenerator := mkCodeGenerator {
  call_descriptor : CallDescriptor;
  frame : FrameInfo;
  has_frame : bool;
  is_osr : bool;
  UnoptimizedFrameSlots : Z
}.

Inductive InstructionOperand :=
  | ImmediateOperand (value : Z)
  | RegisterOperand (r : Register).

Definition kQuadWordSize : Z := 16.

Section Assemble.

(** Constants, a flag and two macros of other files.  The macros
    [Prologue] and [StubPrologue] are taken by the code they emit. *)
Variable kSystemPointerSize : Z.
Variable kArgCOffset : Z.
Variable debug_code : bool.
Variable Prologue : list Instr.
Variable StubPrologue : list Instr.

(** The loops over the callee-saved XMM registers; [slot_idx] is the slot
    of the first register of the list. *)
Fixpoint Movdqu_stores (slot_idx : Z) (saves_fp : list XMMRegister) : list Instr :=
  match saves_fp with
  | [] => []
  | reg :: saves_fp' =>
      Movdqu_store rsp (kQuadWordSize * slot_idx) reg
      :: Movdqu_stores (slot_idx + 1) saves_fp'
  end.

Fixpoint Movdqu_loads (slot_idx : Z) (saves_fp : list XMMRegister) : list Instr :=
  match saves_fp with
  | [] => []
  | reg :: saves_fp' =>
      Movdqu_load reg rsp (kQuadWordSize * slot_idx)
      :: Movdqu_loads (slot_idx + 1) saves_fp'
  end.

Definition is_empty {A} (l : list A) : bool :=
  match l with [] => true | _ :: _ => false end.

Definition AssembleConstructFrame (gen : CodeGenerator) : list Instr :=
  let call_descriptor := call_descriptor gen in
  (if has_frame gen then
     if IsCFunctionCall call_descriptor then [pushq rbp; movq rbp rsp]
     else if IsJSFunctionCall call_descriptor then Prologue
     else StubPrologue
   else [])
  ++
  let required_slots :=
    GetTotalFrameSlotCount (frame gen) - GetFixedSlotCount (frame gen) in
  (if is_osr gen then
     [Abort "kShouldNotDirectlyEnterOsrFunction"; RecordComment "-- OSR entrypoint --"]
   else [])
  ++
  let required_slots :=
    if is_osr gen then required_slots - UnoptimizedFrameSlots gen else required_slots in
  let saves := CalleeSavedRegisters call_descriptor in
  let saves_fp := CalleeSavedFPRegisters call_descriptor in
  (if 0 <? required_slots then
     let required_slots := required_slots - Z.of_nat (length saves) in
     let required_slots :=
       required_slots
       - Z.of_nat (length saves_fp) * Z.quot kQuadWordSize kSystemPointerSize in
     let required_slots := required_slots - GetReturnSlotCount (frame gen) in
     if 0 <? required_slots
     then [AllocateStackSpace (required_slots * kSystemPointerSize)] else []
   else [])
  ++
  (if negb (is_empty saves_fp) then
     let saves_fp_count := Z.of_nat (length saves_fp) in
     let stack_size := saves_fp_count * kQuadWordSize in
     AllocateStackSpace stack_size :: Movdqu_stores 0 saves_fp
   else [])
  ++
  (if negb (is_empty saves) then pushq <$> reverse saves else [])
  ++
  (if 0 <? GetReturnSlotCount (frame gen)
   then [AllocateStackSpace (GetReturnSlotCount (frame gen) * kSystemPointerSize)]
   else []).

Definition AssembleDeconstructFrame : list Instr := [movq rsp rbp; popq rbp].

(** [AssembleReturn] up to the deconstruction of the frame, as the
    instructions that run at a return site: at a return site after the
    first one with no additional pop count, these are the instructions up to
    the jump to [return_label_] and then those after the label.  The rest of
    [AssembleReturn] pops the arguments and returns. *)
Definition AssembleReturn (gen : CodeGenerator)
    (additional_pop_count : InstructionOperand) (return_label_is_bound : bool)
  : list Instr :=
  let call_descriptor := call_descriptor gen in
  let saves := CalleeSavedRegisters call_descriptor in
  (if negb (is_empty saves) then
     let returns := GetReturnSlotCount (frame gen) in
     (if negb (returns =? 0) then [addq rsp (returns * kSystemPointerSize)] else [])
     ++ (popq <$> saves)
   else [])
  ++
  let saves_fp := CalleeSavedFPRegisters call_descriptor in
  (if negb (is_empty saves_fp) then
     let saves_fp_count := Z.of_nat (length saves_fp) in
     let stack_size := saves_fp_count * kQuadWordSize in
     Movdqu_loads 0 saves_fp ++ [addq rsp stack_size]
   else [])
  ++
  let parameter_slots := ParameterSlotCount call_descriptor in
  (if negb (parameter_slots =? 0) then
     match additional_pop_count with
     | ImmediateOperand _ => []
     | RegisterOperand r =>
         if debug_code
         then [cmpq r 0; Assert equal "kUnexpectedAdditionalPopValue"] else []
     end
   else [])
  ++
  let argc_reg := rcx in
  let drop_jsargs :=
    negb (parameter_slots =? 0) && has_frame gen && IsJSFunctionCall call_descriptor in
  if IsCFunctionCall call_descriptor then AssembleDeconstructFrame
  else if has_frame gen then
    match additional_pop_count with
    | ImmediateOperand 0 =>
        if return_label_is_bound then [jmp_return_label] else [bind_return_label]
    | _ => []
    end
    ++ (if drop_jsargs then [movq_load argc_reg rbp kArgCOffset] else [])
    ++ AssembleDeconstructFrame
  else [].

End Assemble.

(** ** The machine on pushes and pops *)

Lemma exec_code_app (c1 c2 : list Instr) (m : Machine) :
  exec (c1 ++ c2) m
  = match exec c1 m with
    | Some m' => exec c2 m'
    | None => None
    end.
Proof.
  revert m. induction c1 as [|i c1 IH]; intros m; simpl; [reflexivity|].
  destruct (exec_instr i m); [apply IH|reflexivity].
Qed.

(** [m'] is [m] with a longer stack: the stack pointer is lower, the other
    registers and the memory from the old stack pointer on are the same. *)
Record extends (m m' : Machine) : Prop := mkExtends {
  ext_rsp : regs m' rsp <= regs m rsp;
  ext_regs : forall r, r <> rsp -> regs m' r = regs m r;
  ext_xmm : forall x, xmm m' x = xmm m x;
  ext_mem : forall a, regs m rsp <= a -> mem m' a = mem m a
}.

Lemma extends_refl m : extends m m.
Proof. split; auto; lia. Qed.

Lemma extends_trans m1 m2 m3 : extends m1 m2 -> extends m2 m3 -> extends m1 m3.
Proof.
  intros [Hs1 Hr1 Hx1 Hm1] [Hs2 Hr2 Hx2 Hm2]. split.
  - lia.
  - intros r Hr. rewrite Hr2, Hr1 by exact Hr. reflexivity.
  - intros x. rewrite Hx2, Hx1. reflexivity.
  - intros a Ha. rewrite Hm2, Hm1 by lia. reflexivity.
Qed.

Lemma regs_set_reg_eq r v m : regs (set_reg r v m) r = v.
Proof. simpl. rewrite Nat.eqb_refl. reflexivity. Qed.

Lemma regs_set_reg_ne r r' v m : r' <> r -> regs (set_reg r v m) r' = regs m r'.
Proof. intros Hne. simpl. apply Nat.eqb_neq in Hne. rewrite Hne. reflexivity. Qed.

Lemma mem_store_eq a v m : mem (store a v m) a = v.
Proof. simpl. rewrite Z.eqb_refl. reflexivity. Qed.

Lemma mem_store_ne a a' v m : a' <> a -> mem (store a v m) a' = mem m a'.
Proof. intros Hne. simpl. apply Z.eqb_neq in Hne. rewrite Hne. reflexivity. Qed.

Lemma extends_push v m : extends m (push v m).
Proof.
  unfold push. split.
  - simpl. lia.
  - intros r Hr. simpl. apply Nat.eqb_neq in Hr. rewrite Hr. reflexivity.
  - reflexivity.
  - intros a Ha. cbn [mem store set_reg regs].
    destruct (a =? regs m rsp - 8) eqn:Heq; [apply Z.eqb_eq in Heq; lia|reflexivity].
Qed.

Lemma extends_AllocateStackSpace bytes m :
  0 <= bytes -> extends m (set_reg rsp (regs m rsp - bytes) m).
Proof.
  intros Hb. split.
  - rewrite regs_set_reg_eq. lia.
  - intros r Hr. apply regs_set_reg_ne. exact Hr.
  - reflexivity.
  - reflexivity.
Qed.

(** The instructions of a prologue after the frame pointer is set. *)
Definition frame_setup (i : Instr) : Prop :=
  match i with
  | pushq _ | pushq_imm _ => True
  | AllocateStackSpace bytes => 0 <= bytes
  | _ => False
  end.

Lemma exec_frame_setup (code : list Instr) : forall m,
  Forall frame_setup code ->
  exists m', exec code m = Some m' /\ extends m m'.
Proof.
  induction code as [|i code IH]; intros m Hcode.
  - exists m. split; [reflexivity|apply extends_refl].
  - apply Forall_cons in Hcode as [Hi Hcode].
    assert (Hstep : exists m1, exec_instr i m = Some m1 /\ extends m m1).
    { destruct i; try contradiction; simpl in Hi |- *; eexists; split; try reflexivity.
      - apply extends_push.
      - apply extends_push.
      - apply extends_AllocateStackSpace. exact Hi. }
    destruct Hstep as (m1 & Hm1 & Hext1).
    destruct (IH m1 Hcode) as (m' & Hm' & Hext').
    exists m'. simpl. rewrite Hm1. split; [exact Hm'|].
    exact (extends_trans _ _ _ Hext1 Hext').
Qed.

(** Pushing the registers [l]: the register at index [i] is at
    [8 * (i + 1)] below the old stack pointer. *)
Lemma exec_pushes (l : list Register) : forall m,
  rsp ∉ l ->
  exists m',
    exec (pushq <$> l) m = Some m'
    /\ extends m m'
    /\ regs m' rsp = regs m rsp - 8 * Z.of_nat (length l)
    /\ (forall i r, l !! i = Some r ->
          mem m' (regs m rsp - 8 * (Z.of_nat i + 1)) = regs m r).
Proof.
  induction l as [|r0 l IH]; intros m Hrsp.
  - exists m. split_and!; [reflexivity|apply extends_refl|simpl; lia|].
    intros i r Hi. inversion Hi.
  - apply not_elem_of_cons in Hrsp as [Hr0 Hrsp].
    destruct (IH (push (regs m r0) m) Hrsp) as (m' & Hexec & Hext & Hsp & Hmem).
    pose proof (extends_push (regs m r0) m) as Hext0.
    assert (Hsp0 : regs (push (regs m r0) m) rsp = regs m rsp - 8).
    { unfold push. simpl. reflexivity. }
    exists m'. split_and!.
    + simpl. exact Hexec.
    + exact (extends_trans _ _ _ Hext0 Hext).
    + rewrite Hsp, Hsp0. simpl length. lia.
    + intros [|i] r Hi; simpl in Hi.
      * injection Hi as <-.
        rewrite (ext_mem _ _ Hext) by (rewrite Hsp0; lia).
        unfold push. replace (regs m rsp - 8 * (Z.of_nat 0 + 1)) with (regs m rsp - 8) by lia.
        apply mem_store_eq.
      * rewrite <- (ext_regs _ _ Hext0 r).
        -- rewrite <- (Hmem i r Hi). rewrite Hsp0. f_equal. lia.
        -- intros ->. apply Hrsp. apply list_elem_of_lookup. eauto.
Qed.

(** Popping the registers [l]: the register at index [j] gets the word at
    [8 * j] above the stack pointer. *)
Lemma exec_pops (l : list Register) : forall m,
  rsp ∉ l -> NoDup l ->
  exists m',
    exec (popq <$> l) m = Some m'
    /\ regs m' rsp = regs m rsp + 8 * Z.of_nat (length l)
    /\ (forall j r, l !! j = Some r ->
          regs m' r = mem m (regs m rsp + 8 * Z.of_nat j))
    /\ (forall r, r ∉ l -> r <> rsp -> regs m' r = regs m r)
    /\ (forall x, xmm m' x = xmm m x)
    /\ (forall a, mem m' a = mem m a).
Proof.
  induction l as [|r0 l IH]; intros m Hrsp Hnd.
  - exists m. split_and!; try reflexivity; [simpl; lia|].
    intros j r Hj. inversion Hj.
  - apply not_elem_of_cons in Hrsp as [Hr0 Hrsp].
    apply NoDup_cons in Hnd as [Hr0l Hnd].
    set (m1 := set_reg r0 (mem m (regs m rsp)) (set_reg rsp (regs m rsp + 8) m)).
    assert (Hsp1 : regs m1 rsp = regs m rsp + 8).
    { unfold m1. rewrite regs_set_reg_ne by exact Hr0. apply regs_set_reg_eq. }
    destruct (IH m1 Hrsp Hnd) as (m' & Hexec & Hsp & Hpop & Hother & Hx & Hmem).
    exists m'. split_and!.
    + simpl. exact Hexec.
    + rewrite Hsp, Hsp1. simpl length. lia.
    + intros [|j] r Hj; simpl in Hj.
      * injection Hj as <-. rewrite Hother by auto.
        unfold m1. rewrite regs_set_reg_eq. f_equal. lia.
      * rewrite (Hpop j r Hj), Hsp1. unfold m1. simpl. f_equal. lia.
    + intros r Hr Hne. apply not_elem_of_cons in Hr as [Hr0' Hr].
      rewrite Hother by auto. unfold m1.
      rewrite !regs_set_reg_ne by auto. reflexivity.
    + intros x. rewrite Hx. reflexivity.
    + intros a. rewrite Hmem. reflexivity.
Qed.

(** Storing the XMM registers [l] from slot [k] on: the register at index
    [j] is at [16 * (k + j)] above the stack pointer. *)
Lemma exec_Movdqu_stores (l : list XMMRegister) : forall k m,
  exists m',
    exec (Movdqu_stores k l) m = Some m'
    /\ (forall r, regs m' r = regs m r)
    /\ (forall x, xmm m' x = xmm m x)
    /\ (forall a, a < regs m rsp + 16 * k
                  \/ regs m rsp + 16 * (k + Z.of_nat (length l)) <= a ->
                  mem m' a = mem m a)
    /\ (forall j x, l !! j = Some x ->
          mem m' (regs m rsp + 16 * (k + Z.of_nat j)) = (xmm m x).1
          /\ mem m' (regs m rsp + 16 * (k + Z.of_nat j) + 8) = (xmm m x).2).
Proof.
  induction l as [|x0 l IH]; intros k m.
  - exists m. split_and!; try reflexivity. intros j x Hj. inversion Hj.
  - set (a0 := regs m rsp + kQuadWordSize * k).
    set (m1 := store (a0 + 8) (xmm m x0).2 (store a0 (xmm m x0).1 m)).
    assert (Ha0 : a0 = regs m rsp + 16 * k) by reflexivity.
    destruct (IH (k + 1) m1) as (m' & Hexec & Hregs & Hxmm & Hout & Hin).
    change (regs m1 rsp) with (regs m rsp) in Hout, Hin.
    exists m'. split_and!.
    + simpl. exact Hexec.
    + intros r. rewrite Hregs. reflexivity.
    + intros x. rewrite Hxmm. reflexivity.
    + intros a Ha. simpl length in Ha. rewrite Hout by lia.
      unfold m1. rewrite !mem_store_ne by lia. reflexivity.
    + intros [|j] x Hj; simpl in Hj.
      * injection Hj as <-. rewrite !Hout by lia. unfold m1.
        replace (regs m rsp + 16 * (k + Z.of_nat 0)) with a0 by lia.
        split; [|apply mem_store_eq].
        rewrite mem_store_ne by lia. apply mem_store_eq.
      * destruct (Hin j x Hj) as [H1 H2].
        replace (k + Z.of_nat (S j)) with (k + 1 + Z.of_nat j) by lia.
        rewrite H1, H2. split; reflexivity.
Qed.

(** Loading the XMM registers [l] from slot [k] on. *)
Lemma exec_Movdqu_loads (l : list XMMRegister) : forall k m,
  NoDup l ->
  exists m',
    exec (Movdqu_loads k l) m = Some m'
    /\ (forall r, regs m' r = regs m r)
    /\ (forall a, mem m' a = mem m a)
    /\ (forall j x, l !! j = Some x ->
          xmm m' x = (mem m (regs m rsp + 16 * (k + Z.of_nat j)),
                      mem m (regs m rsp + 16 * (k + Z.of_nat j) + 8)))
    /\ (forall x, x ∉ l -> xmm m' x = xmm m x).
Proof.
  induction l as [|x0 l IH]; intros k m Hnd.
  - exists m. split_and!; try reflexivity. intros j x Hj. inversion Hj.
  - apply NoDup_cons in Hnd as [Hx0 Hnd].
    set (a0 := regs m rsp + kQuadWordSize * k).
    set (m1 := set_xmm x0 (mem m a0, mem m (a0 + 8)) m).
    assert (Ha0 : a0 = regs m rsp + 16 * k) by reflexivity.
    destruct (IH (k + 1) m1 Hnd) as (m' & Hexec & Hregs & Hmem & Hin & Hout).
    change (regs m1 rsp) with (regs m rsp) in Hin.
    change (mem m1) with (mem m) in Hin.
    exists m'. split_and!.
    + simpl. exact Hexec.
    + intros r. rewrite Hregs. reflexivity.
    + intros a. rewrite Hmem. reflexivity.
    + intros [|j] x Hj; simpl in Hj.
      * injection Hj as <-. rewrite Hout by exact Hx0.
        unfold m1. simpl. rewrite Nat.eqb_refl.
        replace (regs m rsp + 16 * (k + Z.of_nat 0)) with a0 by lia. reflexivity.
      * rewrite (Hin j x Hj).
        replace (k + Z.of_nat (S j)) with (k + 1 + Z.of_nat j) by lia. reflexivity.
    + intros x Hx. apply not_elem_of_cons in Hx as [Hne Hx].
      rewrite Hout by exact Hx. unfold m1. simpl.
      apply Nat.eqb_neq in Hne. rewrite Hne. reflexivity.
Qed.

Lemma exec_nil_or {A} (l : list A) (f : list A -> list Instr) :
  f [] = [] -> (if negb (is_empty l) then f l else []) = f l.
Proof. intros Hnil. destruct l; [symmetry; exact Hnil|reflexivity]. Qed.

(** ** Construction, then return *)

Section Restore.

Variable kSystemPointerSize : Z.
Variable kArgCOffset : Z.
Variable debug_code : bool.
Variable Prologue : list Instr.
Variable StubPrologue : list Instr.

(** A prologue pushes the frame pointer, sets it to the stack pointer and
    pushes the fixed slots of the frame. *)
Definition prologue_like (code : list Instr) : Prop :=
  exists rest, code = pushq rbp :: movq rbp rsp :: rest /\ Forall frame_setup rest.

Hypothesis kSystemPointerSize_x64 : kSystemPointerSize = 8.
Hypothesis Prologue_spec : prologue_like Prologue.
Hypothesis StubPrologue_spec : prologue_like StubPrologue.

Variable gen : CodeGenerator.

Local Abbreviation saves := (CalleeSavedRegisters (call_descriptor gen)).
Local Abbreviation saves_fp := (CalleeSavedFPRegisters (call_descriptor gen)).
Local Abbreviation returns := (GetReturnSlotCount (frame gen)).

(** The descriptors for which construction and return are inverse: the
    code is not entered at its start for OSR; a C function has a frame; a
    function without frame has no slot to allocate; return slots come with
    callee-saved general purpose registers, or with a frame and without
    callee-saved XMM registers; the register lists are sets without the
    stack and frame pointers, and without [rcx] for a JS function. *)
Record descriptor_ok : Prop := mkDescriptorOk {
  ok_osr : is_osr gen = false;
  ok_c_frame : IsCFunctionCall (call_descriptor gen) = true -> has_frame gen = true;
  ok_frameless : has_frame gen = false ->
    GetTotalFrameSlotCount (frame gen) - GetFixedSlotCount (frame gen) <= 0;
  ok_returns : 0 <= returns;
  ok_return_slots : 0 < returns ->
    saves <> [] \/ (has_frame gen = true /\ saves_fp = []);
  ok_saves : NoDup saves;
  ok_saves_fp : NoDup saves_fp;
  ok_rsp : rsp ∉ saves;
  ok_rbp : rbp ∉ saves;
  ok_rcx : IsJSFunctionCall (call_descriptor gen) = true -> rcx ∉ saves
}.

(** The frame pointer and the registers during construction, from the
    machine [m0] before it. *)
Record Built (m0 m : Machine) : Prop := mkBuilt {
  b_rsp : regs m rsp <= regs m0 rsp - (if has_frame gen then 8 else 0);
  b_regs : forall r, r <> rsp -> r <> rbp -> regs m r = regs m0 r;
  b_xmm : forall x, xmm m x = xmm m0 x;
  b_rbp : has_frame gen = true ->
          regs m rbp = regs m0 rsp - 8 /\ mem m (regs m0 rsp - 8) = regs m0 rbp;
  b_frameless : has_frame gen = false -> regs m rbp = regs m0 rbp
}.

Lemma Built_extends m0 m m' : Built m0 m -> extends m m' -> Built m0 m'.
Proof.
  intros [Hsp Hregs Hxmm Hrbp Hfl] [Es Er Ex Em]. split.
  - lia.
  - intros r H1 H2. rewrite Er by exact H1. apply Hregs; assumption.
  - intros x. rewrite Ex. apply Hxmm.
  - intros Hf. destruct (Hrbp Hf) as [H1 H2]. rewrite Hf in Hsp.
    rewrite Er by discriminate. rewrite Em by lia. auto.
  - intros Hf. rewrite Er by discriminate. auto.
Qed.

Lemma exec_prologue code m0 :
  has_frame gen = true -> prologue_like code ->
  exists m, exec code m0 = Some m /\ Built m0 m.
Proof.
  intros Hf (rest & -> & Hrest).
  set (ma := set_reg rbp (regs (push (regs m0 rbp) m0) rsp) (push (regs m0 rbp) m0)).
  destruct (exec_frame_setup rest ma Hrest) as (m & Hm & Hext).
  exists m. split; [exact Hm|].
  apply (Built_extends m0 ma); [|exact Hext].
  split; rewrite ?Hf.
  - unfold ma. simpl. lia.
  - intros r H1 H2. unfold ma, push. simpl.
    apply Nat.eqb_neq in H1, H2. rewrite H1, H2. reflexivity.
  - reflexivity.
  - intros _. unfold ma, push. simpl. rewrite Z.eqb_refl. auto.
  - discriminate.
Qed.

(** The stack after construction; [rsp3] is the stack pointer after the
    XMM registers are saved. *)
Record Saved (m0 : Machine) (rsp3 : Z) (m : Machine) : Prop := mkSaved {
  s_rsp : regs m rsp = rsp3 - 8 * Z.of_nat (length saves) - 8 * returns;
  s_bound : rsp3 + 16 * Z.of_nat (length saves_fp)
            <= regs m0 rsp - (if has_frame gen then 8 else 0);
  s_frameless : has_frame gen = false ->
                rsp3 + 16 * Z.of_nat (length saves_fp) = regs m0 rsp;
  s_rbp : has_frame gen = true ->
          regs m rbp = regs m0 rsp - 8 /\ mem m (regs m0 rsp - 8) = regs m0 rbp;
  s_saves : forall j r, saves !! j = Some r ->
            mem m (rsp3 - 8 * Z.of_nat (length saves) + 8 * Z.of_nat j) = regs m0 r;
  s_saves_fp : forall j x, saves_fp !! j = Some x ->
               mem m (rsp3 + 16 * Z.of_nat j) = (xmm m0 x).1
               /\ mem m (rsp3 + 16 * Z.of_nat j + 8) = (xmm m0 x).2
}.

Lemma exec_save_fp (l : list XMMRegister) (m : Machine) :
  exists m',
    exec (if negb (is_empty l)
          then AllocateStackSpace (Z.of_nat (length l) * kQuadWordSize)
               :: Movdqu_stores 0 l
          else []) m = Some m'
    /\ extends m m'
    /\ regs m' rsp = regs m rsp - 16 * Z.of_nat (length l)
    /\ (forall j x, l !! j = Some x ->
          mem m' (regs m' rsp + 16 * Z.of_nat j) = (xmm m x).1
          /\ mem m' (regs m' rsp + 16 * Z.of_nat j + 8) = (xmm m x).2).
Proof.
  destruct l as [|x0 l].
  - exists m. split_and!; [reflexivity|apply extends_refl|simpl; lia|].
    intros j x Hj. inversion Hj.
  - set (l0 := x0 :: l). cbn [is_empty negb].
    set (ma := set_reg rsp (regs m rsp - Z.of_nat (length l0) * kQuadWordSize) m).
    assert (Hma : regs ma rsp = regs m rsp - 16 * Z.of_nat (length l0)).
    { unfold ma. rewrite regs_set_reg_eq. unfold kQuadWordSize. lia. }
    destruct (exec_Movdqu_stores l0 0 ma) as (m' & Hexec & Hregs & Hxmm & Hout & Hin).
    exists m'. split_and!.
    + simpl. exact Hexec.
    + split.
      * rewrite Hregs, Hma. lia.
      * intros r Hr. rewrite Hregs. unfold ma. apply regs_set_reg_ne. exact Hr.
      * intros x. rewrite Hxmm. reflexivity.
      * intros a Ha. rewrite Hout by (rewrite Hma; lia). reflexivity.
    + rewrite Hregs. exact Hma.
    + intros j x Hj. rewrite Hregs. destruct (Hin j x Hj) as [H1 H2].
      replace (regs ma rsp + 16 * Z.of_nat j) with (regs ma rsp + 16 * (0 + Z.of_nat j))
        by lia.
      rewrite H1, H2. split; reflexivity.
Qed.

Lemma exec_allocate_return_slots (m : Machine) :
  0 <= returns ->
  exists m',
    exec (if 0 <? returns
          then [AllocateStackSpace (returns * kSystemPointerSize)] else []) m
    = Some m'
    /\ extends m m'
    /\ regs m' rsp = regs m rsp - 8 * returns.
Proof.
  intros Hret. destruct (0 <? returns) eqn:Hlt.
  - eexists. split_and!; [reflexivity| |].
    + apply extends_AllocateStackSpace. rewrite kSystemPointerSize_x64. lia.
    + rewrite regs_set_reg_eq, kSystemPointerSize_x64. lia.
  - apply Z.ltb_ge in Hlt. exists m.
    split_and!; [reflexivity|apply extends_refl|lia].
Qed.

Lemma exec_allocate_spill (required_slots : Z) (m : Machine) :
  exists m',
    exec (if 0 <? required_slots
          then [AllocateStackSpace (required_slots * kSystemPointerSize)] else []) m
    = Some m'
    /\ extends m m'.
Proof.
  destruct (0 <? required_slots) eqn:Hlt.
  - eexists. split; [reflexivity|].
    apply extends_AllocateStackSpace. apply Z.ltb_lt in Hlt.
    rewrite kSystemPointerSize_x64. lia.
  - exists m. split; [reflexivity|apply extends_refl].
Qed.

Lemma AssembleConstructFrame_Saved (m0 : Machine) :
  descriptor_ok ->
  exists m1 rsp3,
    exec (AssembleConstructFrame kSystemPointerSize Prologue StubPrologue gen) m0
    = Some m1
    /\ Saved m0 rsp3 m1.
Proof.
  intros Hok. unfold AssembleConstructFrame. cbv zeta.
  rewrite (ok_osr Hok).
  (* the prologue *)
  assert (H1 : exists m1,
    exec (if has_frame gen then
            if IsCFunctionCall (call_descriptor gen) then [pushq rbp; movq rbp rsp]
            else if IsJSFunctionCall (call_descriptor gen) then Prologue
            else StubPrologue
          else []) m0 = Some m1
    /\ Built m0 m1
    /\ (has_frame gen = false -> m1 = m0)).
  { destruct (has_frame gen) eqn:Hf.
    - assert (Hp : prologue_like
                     (if IsCFunctionCall (call_descriptor gen)
                      then [pushq rbp; movq rbp rsp]
                      else if IsJSFunctionCall (call_descriptor gen) then Prologue
                      else StubPrologue)).
      { destruct (IsCFunctionCall (call_descriptor gen)).
        - exists []. split; [reflexivity|constructor].
        - destruct (IsJSFunctionCall (call_descriptor gen)); assumption. }
      destruct (exec_prologue _ m0 Hf Hp) as (m1 & Hm1 & Hb).
      exists m1. split_and!; [exact Hm1|exact Hb|discriminate].
    - exists m0. split_and!; [reflexivity| |reflexivity].
      split; rewrite ?Hf; auto; try lia; try discriminate. }
  destruct H1 as (m1 & Hexec1 & Hb1 & Hfl1).
  rewrite exec_code_app, Hexec1. cbn [app].
  (* the spill slots *)
  assert (H2 : exists m2,
    exec (if 0 <? GetTotalFrameSlotCount (frame gen) - GetFixedSlotCount (frame gen)
          then
            if 0 <? GetTotalFrameSlotCount (frame gen) - GetFixedSlotCount (frame gen)
                    - Z.of_nat (length saves)
                    - Z.of_nat (length saves_fp) * Z.quot kQuadWordSize kSystemPointerSize
                    - returns
            then [AllocateStackSpace
                    ((GetTotalFrameSlotCount (frame gen) - GetFixedSlotCount (frame gen)
                      - Z.of_nat (length saves)
                      - Z.of_nat (length saves_fp)
                        * Z.quot kQuadWordSize kSystemPointerSize
                      - returns) * kSystemPointerSize)]
            else []
          else []) m1 = Some m2
    /\ extends m1 m2
    /\ (has_frame gen = false -> m2 = m1)).
  { destruct (0 <? GetTotalFrameSlotCount (frame gen) - GetFixedSlotCount (frame gen))
      eqn:Hreq.
    - destruct (exec_allocate_spill
                  (GetTotalFrameSlotCount (frame gen) - GetFixedSlotCount (frame gen)
                   - Z.of_nat (length saves)
                   - Z.of_nat (length saves_fp) * Z.quot kQuadWordSize kSystemPointerSize
                   - returns) m1) as (m2 & Hm2 & Hext).
      exists m2. split_and!; [exact Hm2|exact Hext|].
      intros Hf. apply Z.ltb_lt in Hreq. pose proof (ok_frameless Hok Hf). lia.
    - exists m1. split_and!; [reflexivity|apply extends_refl|reflexivity]. }
  destruct H2 as (m2 & Hexec2 & Hext2 & Hfl2).
  rewrite exec_code_app, Hexec2.
  (* the XMM registers *)
  destruct (exec_save_fp saves_fp m2) as (m3 & Hexec3 & Hext3 & Hsp3 & Hfp3).
  rewrite exec_code_app, Hexec3.
  (* the general purpose registers *)
  rewrite (exec_nil_or saves (fun l => pushq <$> reverse l)) by reflexivity.
  assert (Hrev : rsp ∉ reverse saves).
  { rewrite elem_of_reverse. exact (ok_rsp Hok). }
  destruct (exec_pushes (reverse saves) m3 Hrev) as (m4 & Hexec4 & Hext4 & Hsp4 & Hgp4).
  rewrite length_reverse in Hsp4.
  rewrite exec_code_app, Hexec4.
  (* the return slots *)
  destruct (exec_allocate_return_slots m4 (ok_returns Hok)) as (m5 & Hexec5 & Hext5 & Hsp5).
  rewrite Hexec5.
  pose proof (Built_extends _ _ _ Hb1 Hext2) as Hb2.
  pose proof (Built_extends _ _ _ Hb2 Hext3) as Hb3.
  pose proof (Built_extends _ _ _ Hb3 Hext4) as Hb4.
  pose proof (Built_extends _ _ _ Hb4 Hext5) as Hb5.
  exists m5, (regs m3 rsp). split; [reflexivity|]. split.
  - rewrite Hsp5, Hsp4. lia.
  - rewrite Hsp3. pose proof (b_rsp _ _ Hb2). lia.
  - intros Hf. rewrite Hsp3, (Hfl2 Hf), (Hfl1 Hf). lia.
  - exact (b_rbp _ _ Hb5).
  - intros j r Hj.
    assert (Hlt : (j < length saves)%nat) by (apply lookup_lt_is_Some; eauto).
    assert (Hi : reverse saves !! (length saves - S j)%nat = Some r).
    { rewrite reverse_lookup by lia. rewrite <- Hj. f_equal. lia. }
    rewrite (ext_mem _ _ Hext5) by (rewrite Hsp4; lia).
    pose proof (Hgp4 _ _ Hi) as Hmem.
    replace (regs m3 rsp - 8 * Z.of_nat (length saves) + 8 * Z.of_nat j)
      with (regs m3 rsp - 8 * (Z.of_nat (length saves - S j) + 1)) by lia.
    rewrite Hmem. apply (b_regs _ _ Hb3).
    + intros ->. apply (ok_rsp Hok). apply list_elem_of_lookup. eauto.
    + intros ->. apply (ok_rbp Hok). apply list_elem_of_lookup. eauto.
  - intros j x Hj.
    assert (Hlt : (j < length saves_fp)%nat) by (apply lookup_lt_is_Some; eauto).
    rewrite !(ext_mem _ _ Hext5) by (rewrite Hsp4; lia).
    rewrite !(ext_mem _ _ Hext4) by lia.
    destruct (Hfp3 j x Hj) as [Hlo Hhi].
    rewrite Hlo, Hhi, (b_xmm _ _ Hb2). auto.
Qed.

(** The code between construction and return leaves the stack pointer,
    the frame pointer of a function with a frame, and the memory of the
    frame as they are after construction ([m1]). *)
Record frame_preserved (m0 m1 mb : Machine) : Prop := mkFramePreserved {
  fp_rsp : regs mb rsp = regs m1 rsp;
  fp_rbp : has_frame gen = true -> regs mb rbp = regs m1 rbp;
  fp_mem : forall a, regs m1 rsp <= a < regs m0 rsp -> mem mb a = mem m1 a
}.

Lemma Saved_preserved m0 rsp3 m1 mb :
  0 <= returns -> Saved m0 rsp3 m1 -> frame_preserved m0 m1 mb -> Saved m0 rsp3 mb.
Proof.
  intros Hret [Hsp Hbound Hfl Hrbp Hgp Hfp] [Psp Prbp Pmem].
  assert (Hlow : regs m1 rsp <= rsp3 - 8 * Z.of_nat (length saves)) by lia.
  assert (Hhigh : rsp3 + 16 * Z.of_nat (length saves_fp) <= regs m0 rsp).
  { destruct (has_frame gen); lia. }
  split.
  - rewrite Psp. exact Hsp.
  - exact Hbound.
  - exact Hfl.
  - intros Hf. destruct (Hrbp Hf) as [H1 H2]. rewrite Hf in Hbound.
    rewrite (Prbp Hf), Pmem by lia. auto.
  - intros j r Hj.
    assert (Hlt : (j < length saves)%nat) by (apply lookup_lt_is_Some; eauto).
    rewrite Pmem by lia. exact (Hgp j r Hj).
  - intros j x Hj.
    assert (Hlt : (j < length saves_fp)%nat) by (apply lookup_lt_is_Some; eauto).
    rewrite !Pmem by lia. exact (Hfp j x Hj).
Qed.

Lemma is_empty_true {A} (l : list A) : is_empty l = true -> l = [].
Proof. destruct l; [reflexivity|discriminate]. Qed.

Lemma is_empty_false {A} (l : list A) : is_empty l = false -> l <> [].
Proof. destruct l; [discriminate|intros _ H; discriminate]. Qed.

(** The first part of [AssembleReturn]: the general purpose registers. *)
Lemma exec_restore_saves m0 rsp3 mb :
  descriptor_ok -> Saved m0 rsp3 mb ->
  exists m6,
    exec (if negb (is_empty saves) then
            (if negb (returns =? 0)
             then [addq rsp (returns * kSystemPointerSize)] else [])
            ++ (popq <$> saves)
          else []) mb = Some m6
    /\ regs m6 rsp = rsp3 - (if is_empty saves then 8 * returns else 0)
    /\ (forall r, r ∈ saves -> regs m6 r = regs m0 r)
    /\ (forall r, r ∉ saves -> r <> rsp -> regs m6 r = regs mb r)
    /\ (forall x, xmm m6 x = xmm mb x)
    /\ (forall a, mem m6 a = mem mb a).
Proof.
  intros Hok [Hsp _ _ _ Hgp _].
  destruct (is_empty saves) eqn:Hempty; cbn [negb].
  - apply is_empty_true in Hempty. rewrite Hempty in Hsp |- *.
    exists mb. split_and!; try reflexivity.
    + simpl in Hsp. lia.
    + intros r Hr. inversion Hr.
  - assert (Ha : exists ma,
      exec (if negb (returns =? 0)
            then [addq rsp (returns * kSystemPointerSize)] else []) mb = Some ma
      /\ regs ma rsp = rsp3 - 8 * Z.of_nat (length saves)
      /\ (forall r, r <> rsp -> regs ma r = regs mb r)
      /\ (forall x, xmm ma x = xmm mb x)
      /\ (forall a, mem ma a = mem mb a)).
    { destruct (returns =? 0) eqn:Hz; cbn [negb].
      - apply Z.eqb_eq in Hz. exists mb. split_and!; try reflexivity. lia.
      - eexists. split_and!; try reflexivity.
        + rewrite regs_set_reg_eq, kSystemPointerSize_x64. lia.
        + intros r Hr. apply regs_set_reg_ne. exact Hr. }
    destruct Ha as (ma & Hexeca & Hspa & Hregsa & Hxa & Hma).
    destruct (exec_pops saves ma (ok_rsp Hok) (ok_saves Hok))
      as (m6 & Hexec & Hsp6 & Hpop & Hother & Hx & Hmem).
    exists m6. rewrite exec_code_app, Hexeca. split_and!.
    + exact Hexec.
    + rewrite Hsp6, Hspa. lia.
    + intros r Hr. apply list_elem_of_lookup in Hr as [j Hj].
      rewrite (Hpop j r Hj), Hma, Hspa. exact (Hgp j r Hj).
    + intros r Hr Hne. rewrite Hother by assumption. apply Hregsa. exact Hne.
    + intros x. rewrite Hx. apply Hxa.
    + intros a. rewrite Hmem. apply Hma.
Qed.

(** The second part: the XMM registers. *)
Lemma exec_restore_fp (l : list XMMRegister) (m : Machine) :
  NoDup l ->
  exists m',
    exec (if negb (is_empty l)
          then Movdqu_loads 0 l ++ [addq rsp (Z.of_nat (length l) * kQuadWordSize)]
          else []) m = Some m'
    /\ regs m' rsp = regs m rsp + 16 * Z.of_nat (length l)
    /\ (forall r, r <> rsp -> regs m' r = regs m r)
    /\ (forall a, mem m' a = mem m a)
    /\ (forall j x, l !! j = Some x ->
          xmm m' x = (mem m (regs m rsp + 16 * Z.of_nat j),
                      mem m (regs m rsp + 16 * Z.of_nat j + 8)))
    /\ (forall x, x ∉ l -> xmm m' x = xmm m x).
Proof.
  intros Hnd. destruct (is_empty l) eqn:Hempty; cbn [negb].
  - apply is_empty_true in Hempty. subst l.
    exists m. split_and!; try reflexivity; [simpl; lia|].
    intros j x Hj. inversion Hj.
  - destruct (exec_Movdqu_loads l 0 m Hnd) as (ma & Hexec & Hregs & Hmem & Hin & Hout).
    exists (set_reg rsp (regs ma rsp + Z.of_nat (length l) * kQuadWordSize) ma).
    rewrite exec_code_app, Hexec. split_and!.
    + reflexivity.
    + rewrite regs_set_reg_eq, Hregs. unfold kQuadWordSize. lia.
    + intros r Hr. rewrite regs_set_reg_ne by exact Hr. apply Hregs.
    + intros a. apply Hmem.
    + intros j x Hj. cbn [xmm set_reg]. rewrite (Hin j x Hj).
      replace (0 + Z.of_nat j) with (Z.of_nat j) by lia. reflexivity.
    + intros x Hx. cbn [xmm set_reg]. apply Hout. exact Hx.
Qed.

Lemma exec_AssembleDeconstructFrame (m : Machine) :
  exists m',
    exec AssembleDeconstructFrame m = Some m'
    /\ regs m' rsp = regs m rbp + 8
    /\ regs m' rbp = mem m (regs m rbp)
    /\ (forall r, r <> rsp -> r <> rbp -> regs m' r = regs m r)
    /\ (forall x, xmm m' x = xmm m x).
Proof.
  eexists. split_and!; [reflexivity| | | |reflexivity].
  - simpl. reflexivity.
  - simpl. reflexivity.
  - intros r H1 H2. simpl. apply Nat.eqb_neq in H1, H2. rewrite H1, H2. reflexivity.
Qed.

(** With [debug_code], a register that holds the additional pop count of
    a function with parameter slots is checked to be 0. *)
Definition additional_pop_checked (additional_pop_count : InstructionOperand)
    (mb : Machine) : Prop :=
  debug_code = true -> ParameterSlotCount (call_descriptor gen) <> 0 ->
  forall r, additional_pop_count = RegisterOperand r ->
            (r ∉ saves) /\ r <> rsp /\ regs mb r = 0.

Lemma AssembleReturn_restores m0 rsp3 mb additional_pop_count return_label_is_bound :
  descriptor_ok -> Saved m0 rsp3 mb ->
  additional_pop_checked additional_pop_count mb ->
  exists m3,
    exec (AssembleReturn kSystemPointerSize kArgCOffset debug_code gen
            additional_pop_count return_label_is_bound) mb = Some m3
    /\ regs m3 rsp = regs m0 rsp
    /\ (has_frame gen = true -> regs m3 rbp = regs m0 rbp)
    /\ (forall r, r ∈ saves -> regs m3 r = regs m0 r)
    /\ (forall x, x ∈ saves_fp -> xmm m3 x = xmm m0 x).
Proof.
  intros Hok Hsaved Hpop. unfold AssembleReturn. cbv zeta.
  destruct (exec_restore_saves m0 rsp3 mb Hok Hsaved)
    as (m6 & Hexec6 & Hsp6 & Hgp6 & Hother6 & Hx6 & Hmem6).
  rewrite exec_code_app, Hexec6.
  destruct (exec_restore_fp saves_fp m6 (ok_saves_fp Hok))
    as (m7 & Hexec7 & Hsp7 & Hregs7 & Hmem7 & Hfp7 & Hxother7).
  rewrite exec_code_app, Hexec7.
  destruct Hsaved as [Hsp Hbound Hfl Hrbp Hgp Hfp].
  (* the stack pointer after the general purpose registers *)
  assert (Hsp6' : saves_fp <> [] \/ has_frame gen = false -> regs m6 rsp = rsp3).
  { intros Hcase. rewrite Hsp6. destruct (is_empty saves) eqn:Hempty; [|lia].
    apply is_empty_true in Hempty.
    destruct (Z.eq_dec returns 0) as [->|Hne]; [lia|].
    destruct (ok_return_slots Hok) as [Hs|[Hf Hfpe]];
      [pose proof (ok_returns Hok); lia|contradiction| ].
    destruct Hcase as [Hc|Hc]; [contradiction|congruence]. }
  (* the XMM registers are restored *)
  assert (Hxmm7 : forall x, x ∈ saves_fp -> xmm m7 x = xmm m0 x).
  { intros x Hx. assert (Hne : saves_fp <> []) by (intros Heq; rewrite Heq in Hx; inversion Hx).
    apply list_elem_of_lookup in Hx as [j Hj].
    rewrite (Hfp7 j x Hj), !Hmem6, (Hsp6' (or_introl Hne)).
    destruct (Hfp j x Hj) as [-> ->]. destruct (xmm m0 x); reflexivity. }
  assert (Hgp7 : forall r, r ∈ saves -> regs m7 r = regs m0 r).
  { intros r Hr. rewrite Hregs7; [apply Hgp6; exact Hr|].
    intros ->. exact (ok_rsp Hok Hr). }
  assert (Hrbp7 : has_frame gen = true ->
                  regs m7 rbp = regs m0 rsp - 8 /\ mem m7 (regs m0 rsp - 8) = regs m0 rbp).
  { intros Hf. destruct (Hrbp Hf) as [H1 H2].
    rewrite Hregs7 by discriminate.
    rewrite Hother6 by (first [exact (ok_rbp Hok)|discriminate]).
    rewrite Hmem7, Hmem6. auto. }
  (* the check of the additional pop count *)
  assert (HD : exists mD,
    exec (if negb (ParameterSlotCount (call_descriptor gen) =? 0) then
            match additional_pop_count with
            | ImmediateOperand _ => []
            | RegisterOperand r =>
                if debug_code
                then [cmpq r 0; Assert equal "kUnexpectedAdditionalPopValue"] else []
            end
          else []) m7 = Some mD
    /\ regs mD = regs m7 /\ xmm mD = xmm m7 /\ mem mD = mem m7).
  { destruct (ParameterSlotCount (call_descriptor gen) =? 0) eqn:Hps; cbn [negb];
      [exists m7; auto|].
    destruct additional_pop_count as [v|r]; [exists m7; auto|].
    destruct debug_code eqn:Hdbg; [|exists m7; auto].
    apply Z.eqb_neq in Hps.
    destruct (Hpop Hdbg Hps r eq_refl) as (Hr1 & Hr2 & Hr3).
    assert (Hr7 : regs m7 r = 0).
    { rewrite Hregs7 by exact Hr2. rewrite Hother6 by assumption. exact Hr3. }
    cbn [exec exec_instr zf]. rewrite Hr7. cbn [Z.eqb].
    eexists. split; [reflexivity|]. auto. }
  destruct HD as (mD & HexecD & HregsD & HxD & HmemD).
  rewrite exec_code_app, HexecD.
  (* the frame *)
  assert (Hframe : has_frame gen = true -> forall code m,
    exec code mD = Some m ->
    regs m rbp = regs mD rbp -> mem m = mem mD -> xmm m = xmm mD ->
    (forall r, r ∈ saves -> regs m r = regs mD r) ->
    exists m3,
      exec (code ++ AssembleDeconstructFrame) mD = Some m3
      /\ regs m3 rsp = regs m0 rsp
      /\ (has_frame gen = true -> regs m3 rbp = regs m0 rbp)
      /\ (forall r, r ∈ saves -> regs m3 r = regs m0 r)
      /\ (forall x, x ∈ saves_fp -> xmm m3 x = xmm m0 x)).
  { intros Hf code m Hcode Hmrbp Hmmem Hmxmm Hmsaves.
    destruct (Hrbp7 Hf) as [Hr1 Hr2].
    destruct (exec_AssembleDeconstructFrame m) as (m3 & Hexec3 & Hsp3 & Hrbp3 & Hregs3 & Hx3).
    exists m3. rewrite exec_code_app, Hcode. split_and!.
    - exact Hexec3.
    - rewrite Hsp3, Hmrbp, HregsD, Hr1. lia.
    - intros _. rewrite Hrbp3, Hmrbp, Hmmem, HmemD, HregsD, Hr1. exact Hr2.
    - intros r Hr. rewrite Hregs3.
      + rewrite (Hmsaves r Hr), HregsD. apply Hgp7. exact Hr.
      + intros ->. exact (ok_rsp Hok Hr).
      + intros ->. exact (ok_rbp Hok Hr).
    - intros x Hx. rewrite Hx3, Hmxmm, HxD. apply Hxmm7. exact Hx. }
  destruct (IsCFunctionCall (call_descriptor gen)) eqn:HC.
  - apply (Hframe (ok_c_frame Hok HC) [] mD); auto.
  - destruct (has_frame gen) eqn:Hf.
    + rewrite app_assoc.
      assert (Hlabel : forall m,
        exec (match additional_pop_count with
              | ImmediateOperand 0 =>
                  if return_label_is_bound then [jmp_return_label]
                  else [bind_return_label]
              | _ => []
              end) m = Some m).
      { intros m. destruct additional_pop_count as [[| |]|]; try reflexivity.
        destruct return_label_is_bound; reflexivity. }
      apply (Hframe eq_refl _
               (if negb (ParameterSlotCount (call_descriptor gen) =? 0) && true
                   && IsJSFunctionCall (call_descriptor gen)
                then set_reg rcx (mem mD (regs mD rbp + kArgCOffset)) mD else mD)).
      * rewrite exec_code_app, Hlabel.
        destruct (negb (ParameterSlotCount (call_descriptor gen) =? 0) && true
                  && IsJSFunctionCall (call_descriptor gen)); reflexivity.
      * destruct (negb (ParameterSlotCount (call_descriptor gen) =? 0) && true
                  && IsJSFunctionCall (call_descriptor gen)); reflexivity.
      * destruct (negb (ParameterSlotCount (call_descriptor gen) =? 0) && true
                  && IsJSFunctionCall (call_descriptor gen)); reflexivity.
      * destruct (negb (ParameterSlotCount (call_descriptor gen) =? 0) && true
                  && IsJSFunctionCall (call_descriptor gen)); reflexivity.
      * intros r Hr.
        destruct (negb (ParameterSlotCount (call_descriptor gen) =? 0) && true
                  && IsJSFunctionCall (call_descriptor gen)) eqn:Hdrop; [|reflexivity].
        apply andb_true_iff in Hdrop as [_ HJS].
        apply regs_set_reg_ne. intros ->. exact (ok_rcx Hok HJS Hr).
    + exists mD. split_and!.
      * reflexivity.
      * rewrite HregsD, Hsp7, (Hsp6' (or_intror eq_refl)). apply Hfl. reflexivity.
      * discriminate.
      * intros r Hr. rewrite HregsD. apply Hgp7. exact Hr.
      * intros x Hx. rewrite HxD. apply Hxmm7. exact Hx.
Qed.


(** ** The size of the frame *)

(** The three parts of [AssembleConstructFrame]: the prologue, the abort
    in front of the OSR entry point, and the code from the OSR entry point
    on, which makes the slots of the frame. *)
Definition frame_prologue : list Instr :=
  if has_frame gen then
    if IsCFunctionCall (call_descriptor gen) then [pushq rbp; movq rbp rsp]
    else if IsJSFunctionCall (call_descriptor gen) then Prologue
    else StubPrologue
  else [].

Definition osr_abort : list Instr :=
  if is_osr gen then
    [Abort "kShouldNotDirectlyEnterOsrFunction"; RecordComment "-- OSR entrypoint --"]
  else [].

(** [required_slots], as it is when it is compared with 0: the slots of
    the frame that are not fixed slots, without those of the unoptimized
    frame for OSR. *)
Definition required_slots : Z :=
  if is_osr gen
  then GetTotalFrameSlotCount (frame gen) - GetFixedSlotCount (frame gen)
       - UnoptimizedFrameSlots gen
  else GetTotalFrameSlotCount (frame gen) - GetFixedSlotCount (frame gen).

(** The slots of the callee-saved registers and the return slots. *)
Definition accounted_slots : Z :=
  Z.of_nat (length saves) + 2 * Z.of_nat (length saves_fp) + returns.

Definition frame_slots_code : list Instr :=
  (if 0 <? required_slots then
     if 0 <? required_slots - Z.of_nat (length saves)
             - Z.of_nat (length saves_fp) * Z.quot kQuadWordSize kSystemPointerSize
             - returns
     then [AllocateStackSpace
             ((required_slots - Z.of_nat (length saves)
               - Z.of_nat (length saves_fp) * Z.quot kQuadWordSize kSystemPointerSize
               - returns) * kSystemPointerSize)]
     else []
   else [])
  ++ (if negb (is_empty saves_fp)
      then AllocateStackSpace (Z.of_nat (length saves_fp) * kQuadWordSize)
           :: Movdqu_stores 0 saves_fp
      else [])
  ++ (if negb (is_empty saves) then pushq <$> reverse saves else [])
  ++ (if 0 <? returns then [AllocateStackSpace (returns * kSystemPointerSize)] else []).

Lemma AssembleConstructFrame_parts :
  AssembleConstructFrame kSystemPointerSize Prologue StubPrologue gen
  = frame_prologue ++ osr_abort ++ frame_slots_code.
Proof.
  unfold AssembleConstructFrame, frame_prologue, osr_abort, frame_slots_code,
    required_slots.
  cbv zeta. destruct (is_osr gen); reflexivity.
Qed.

(** The frame is as large as the frame says.  [AssembleConstructFrame] is
    the prologue, then -- for OSR -- an abort in front of the OSR entry
    point, then the code that makes the slots; entered at its start, the
    code of an OSR function aborts.  The code that makes the slots -- spill
    slots, callee-saved XMM and general purpose registers, return slots --
    runs and lowers the stack pointer by the required slots of the frame,
    8 bytes each, when the frame has room for the callee-saved registers and
    the return slots, and by the slots of these otherwise; it changes no
    other register. *)
Theorem AssembleConstructFrame_frame_size (m0 m1 : Machine) :
  0 <= returns -> rsp ∉ saves ->
  AssembleConstructFrame kSystemPointerSize Prologue StubPrologue gen
  = frame_prologue ++ osr_abort ++ frame_slots_code
  /\ (is_osr gen = true ->
        exec (AssembleConstructFrame kSystemPointerSize Prologue StubPrologue gen) m0
        = None)
  /\ exists m',
       exec frame_slots_code m1 = Some m'
       /\ regs m' rsp = regs m1 rsp - 8 * Z.max required_slots accounted_slots
       /\ (forall r, r <> rsp -> regs m' r = regs m1 r)
       /\ (forall x, xmm m' x = xmm m1 x).
Proof.
  intros Hret Hrsp. split; [apply AssembleConstructFrame_parts|]. split.
  - intros Hosr. rewrite AssembleConstructFrame_parts, exec_code_app.
    unfold osr_abort. rewrite Hosr.
    destruct (exec frame_prologue m0); reflexivity.
  - unfold frame_slots_code.
    set (spill := required_slots - Z.of_nat (length saves)
                  - Z.of_nat (length saves_fp) * Z.quot kQuadWordSize kSystemPointerSize
                  - returns).
    assert (Hspill : spill = required_slots - accounted_slots).
    { unfold spill, accounted_slots. rewrite kSystemPointerSize_x64.
      change (Z.quot kQuadWordSize 8) with 2. lia. }
    (* the spill slots *)
    assert (H2 : exists m2,
      exec (if 0 <? required_slots then
              if 0 <? spill then [AllocateStackSpace (spill * kSystemPointerSize)]
              else []
            else []) m1 = Some m2
      /\ extends m1 m2
      /\ regs m2 rsp
         = regs m1 rsp - 8 * (if 0 <? required_slots then Z.max 0 spill else 0)).
    { destruct (0 <? required_slots).
      - destruct (0 <? spill) eqn:Hlt.
        + apply Z.ltb_lt in Hlt. eexists. split_and!; [reflexivity| |].
          * apply extends_AllocateStackSpace. rewrite kSystemPointerSize_x64. lia.
          * rewrite regs_set_reg_eq, kSystemPointerSize_x64. lia.
        + apply Z.ltb_ge in Hlt. exists m1.
          split_and!; [reflexivity|apply extends_refl|lia].
      - exists m1. split_and!; [reflexivity|apply extends_refl|lia]. }
    destruct H2 as (m2 & Hexec2 & Hext2 & Hsp2).
    rewrite exec_code_app, Hexec2.
    destruct (exec_save_fp saves_fp m2) as (m3 & Hexec3 & Hext3 & Hsp3 & _).
    rewrite exec_code_app, Hexec3.
    rewrite (exec_nil_or saves (fun l => pushq <$> reverse l)) by reflexivity.
    assert (Hrev : rsp ∉ reverse saves) by (rewrite elem_of_reverse; exact Hrsp).
    destruct (exec_pushes (reverse saves) m3 Hrev) as (m4 & Hexec4 & Hext4 & Hsp4 & _).
    rewrite length_reverse in Hsp4.
    rewrite exec_code_app, Hexec4.
    destruct (exec_allocate_return_slots m4 Hret) as (m5 & Hexec5 & Hext5 & Hsp5).
    exists m5. split; [exact Hexec5|].
    pose proof (extends_trans _ _ _ Hext2
                  (extends_trans _ _ _ Hext3 (extends_trans _ _ _ Hext4 Hext5))) as Hext.
    split_and!.
    + rewrite Hsp5, Hsp4, Hsp3, Hsp2.
      assert (Hacc : 0 <= accounted_slots) by (unfold accounted_slots; lia).
      destruct (0 <? required_slots) eqn:Hreq;
        [apply Z.ltb_lt in Hreq|apply Z.ltb_ge in Hreq];
        unfold accounted_slots in *; lia.
    + exact (ext_regs _ _ Hext).
    + exact (ext_xmm _ _ Hext).
Qed.

(** ** Preparing a tail call *)

(** [AssemblePrepareTailCall]: the code, and the frame access mode it
    sets ([SetFrameAccessToSP]: the frame is no longer accessed through the
    frame pointer). *)
Definition AssemblePrepareTailCall : list Instr * bool :=
  ((if has_frame gen then [movq_load rbp rbp 0] else []), false).

(** A tail call leaves with the frame pointer of the caller.  After the
    construction of the frame and any code that leaves the stack pointer,
    the frame pointer and the memory of the frame as they are,
    [AssemblePrepareTailCall] reloads, in a function with a frame, the frame
    pointer that the prologue has saved -- the one of the caller -- and
    changes no other register and no memory. *)
Theorem AssemblePrepareTailCall_restores_caller_fp (m0 : Machine) :
  descriptor_ok ->
  exists m1,
    exec (AssembleConstructFrame kSystemPointerSize Prologue StubPrologue gen) m0
    = Some m1
    /\ forall mb,
         frame_preserved m0 m1 mb ->
         exists m3,
           exec AssemblePrepareTailCall.1 mb = Some m3
           /\ (has_frame gen = true -> regs m3 rbp = regs m0 rbp)
           /\ (forall r, r <> rbp -> regs m3 r = regs mb r)
           /\ (forall x, xmm m3 x = xmm mb x)
           /\ (forall a, mem m3 a = mem mb a).
Proof.
  intros Hok.
  destruct (AssembleConstructFrame_Saved m0 Hok) as (m1 & rsp3 & Hexec & Hsaved).
  exists m1. split; [exact Hexec|].
  intros mb Hpres.
  pose proof (Saved_preserved m0 rsp3 m1 mb (ok_returns Hok) Hsaved Hpres) as Hb.
  unfold AssemblePrepareTailCall. cbn [fst].
  destruct (has_frame gen) eqn:Hf.
  - destruct (s_rbp _ _ _ Hb Hf) as [Hrbp Hmem].
    eexists. split; [reflexivity|]. split_and!.
    + intros _. rewrite regs_set_reg_eq, Hrbp, Z.add_0_r. exact Hmem.
    + intros r Hr. apply regs_set_reg_ne. exact Hr.
    + reflexivity.
    + reflexivity.
  - exists mb. split_and!; [reflexivity|discriminate|reflexivity|reflexivity|reflexivity].
Qed.

End Restore.

(** ** Instances *)

(** [StubPrologue]: the frame pointer and the marker of the frame type. *)
Definition example_StubPrologue : list Instr := [pushq rbp; movq rbp rsp; pushq_imm 22].

(** [Prologue]: the frame pointer, the context, the function and the
    argument count. *)
Definition example_Prologue : list Instr :=
  [pushq rbp; movq rbp rsp; pushq 6%nat; pushq 7%nat; pushq 0%nat].

Lemma example_StubPrologue_spec : prologue_like example_StubPrologue.
Proof. eexists. split; [reflexivity|]. repeat constructor. Qed.

Lemma example_Prologue_spec : prologue_like example_Prologue.
Proof. eexists. split; [reflexivity|]. repeat constructor. Qed.

(** A stub with a frame that saves [rbx], [r12], [xmm6] and [xmm7] and has
    two return slots and four spill slots. *)
Definition example_gen : CodeGenerator :=
  mkCodeGenerator (mkCallDescriptor false false [3; 12]%nat [6; 7]%nat 2)
    (mkFrameInfo 15 3 2) true false 0.

Lemma example_gen_ok : descriptor_ok example_gen.
Proof.
  split; simpl; try discriminate; try lia.
  - intros _. left. discriminate.
  - repeat (apply NoDup_cons_2; [rewrite ?not_elem_of_cons; split_and?; try lia; apply not_elem_of_nil|]).
    apply NoDup_nil_2.
  - repeat (apply NoDup_cons_2; [rewrite ?not_elem_of_cons; split_and?; try lia; apply not_elem_of_nil|]).
    apply NoDup_nil_2.
  - rewrite !not_elem_of_cons. split_and!; try discriminate. apply not_elem_of_nil.
  - rewrite !not_elem_of_cons. split_and!; try discriminate. apply not_elem_of_nil.
Qed.

Definition example_machine : Machine :=
  mkMachine (fun r => 1000 + Z.of_nat r) (fun x => (Z.of_nat x, 1)) (fun _ => 0) false.


(** A JavaScript function compiled for OSR: a frame of 30 slots, 3 of them
    fixed, over an unoptimized frame of 20 slots; it saves [rbx], [r12],
    [xmm6] and [xmm7] and has two return slots. *)
Definition osr_gen : CodeGenerator :=
  mkCodeGenerator (mkCallDescriptor false true [3; 12]%nat [6; 7]%nat 2)
    (mkFrameInfo 30 3 2) true true 20.

Lemma AssembleConstructFrame_frame_size_witness :
  AssembleConstructFrame 8 example_Prologue example_StubPrologue osr_gen
  = frame_prologue example_Prologue example_StubPrologue osr_gen
    ++ osr_abort osr_gen ++ frame_slots_code 8 osr_gen
  /\ (is_osr osr_gen = true ->
        exec (AssembleConstructFrame 8 example_Prologue example_StubPrologue osr_gen)
          example_machine = None)
  /\ exists m',
       exec (frame_slots_code 8 osr_gen) example_machine = Some m'
       /\ regs m' rsp
          = regs example_machine rsp
            - 8 * Z.max (required_slots osr_gen) (accounted_slots osr_gen)
       /\ (forall r, r <> rsp -> regs m' r = regs example_machine r)
       /\ (forall x, xmm m' x = xmm example_machine x).
Proof.
  apply (AssembleConstructFrame_frame_size 8 example_Prologue example_StubPrologue
           eq_refl osr_gen example_machine example_machine).
  - simpl. lia.
  - simpl. rewrite !not_elem_of_cons. split_and!; try discriminate. apply not_elem_of_nil.
Defined.

Lemma AssemblePrepareTailCall_restores_caller_fp_witness :
  exists m1,
    exec (AssembleConstructFrame 8 example_Prologue example_StubPrologue example_gen)
      example_machine = Some m1
    /\ forall mb,
         frame_preserved example_gen example_machine m1 mb ->
         exists m3,
           exec (AssemblePrepareTailCall example_gen).1 mb = Some m3
           /\ (has_frame example_gen = true -> regs m3 rbp = regs example_machine rbp)
           /\ (forall r, r <> rbp -> regs m3 r = regs mb r)
           /\ (forall x, xmm m3 x = xmm mb x)
           /\ (forall a, mem m3 a = mem mb a).
Proof.
  apply (AssemblePrepareTailCall_restores_caller_fp 8 example_Prologue
           example_StubPrologue eq_refl example_Prologue_spec example_StubPrologue_spec
           example_gen example_machine).
  exact example_gen_ok.
Defined.

(** A stub with a frame that saves [xmm6] only and has one return slot. *)
Definition return_slot_gen : CodeGenerator :=
  mkCodeGenerator (mkCallDescriptor false false [] [6]%nat 0)
    (mkFrameInfo 3 3 1) true false 0.

(** [xmm6] holds the words 1 and 2, the memory is zero. *)
Definition return_slot_machine : Machine :=
  mkMachine (fun r => 1000 + Z.of_nat r) (fun _ => (1, 2)) (fun _ => 0) false.


End Frame.

(* ===================================================================== *)
(** * The stack pointer at a tail call
    ([AdjustStackPointerForTailCall], [AssembleTailCallBeforeGap],
    [AssembleTailCallAfterGap] and [AssembleConstructFrame] of
    src/compiler/backend/x64/code-generator-x64.cc) *)
(* ===================================================================== *)

Module TailCallFrame.

Section TierUp.

Variable kSystemPointerSize : Z.
Variable kReturnAddressStackSlotCount : Z.
Variable kFixedSlotCountAboveFp : Z.
Variable GetSPToFPSlotCount : TailCall.FrameAccessState -> Z.
Variable Prologue : list Frame.Instr.
Variable StubPrologue : list Frame.Instr.

Hypothesis kSystemPointerSize_x64 : kSystemPointerSize = 8.

(** [FrameAccessState::GetSPToFPSlotCount] is declared outside this file;
    it follows the SP delta. *)
Hypothesis GetSPToFPSlotCount_delta : forall amount state,
  GetSPToFPSlotCount (TailCall.IncreaseSPDelta amount state)
  = GetSPToFPSlotCount state + amount.

(** The function that makes a tail call for tier-up, as the [DCHECK]s of
    [AdjustStackPointerForTailCall] have it: it is not compiled for OSR, it
    has no callee-saved registers and no return slots.  The layout of its
    frame is declared outside this file: the fixed slots are among the slots
    of the frame, the return address is among the fixed slots, and the
    prologue pushes the fixed slots below the return address. *)
Record tier_up_frame (gen : Frame.CodeGenerator) : Prop := mkTierUpFrame {
  tu_osr : Frame.is_osr gen = false;
  tu_saves : Frame.CalleeSavedRegisters (Frame.call_descriptor gen) = [];
  tu_saves_fp : Frame.CalleeSavedFPRegisters (Frame.call_descriptor gen) = [];
  tu_returns : Frame.GetReturnSlotCount (Frame.frame gen) = 0;
  tu_fixed : kReturnAddressStackSlotCount <= Frame.GetFixedSlotCount (Frame.frame gen)
             <= Frame.GetTotalFrameSlotCount (Frame.frame gen);
  tu_prologue : forall m, exists m',
    Frame.exec (Frame.frame_prologue Prologue StubPrologue gen) m = Some m'
    /\ Frame.regs m' Frame.rsp
       = Frame.regs m Frame.rsp
         - (Frame.GetFixedSlotCount (Frame.frame gen) - kReturnAddressStackSlotCount)
           * kSystemPointerSize
}.

(** The construction of the frame of such a function lowers the stack
    pointer by the slots of the frame below the return address. *)
Lemma AssembleConstructFrame_tier_up (gen : Frame.CodeGenerator) (m0 : Frame.Machine) :
  tier_up_frame gen ->
  exists m1,
    Frame.exec (Frame.AssembleConstructFrame kSystemPointerSize Prologue StubPrologue gen) m0
    = Some m1
    /\ Frame.regs m1 Frame.rsp
       = Frame.regs m0 Frame.rsp
         - (Frame.GetTotalFrameSlotCount (Frame.frame gen) - kReturnAddressStackSlotCount)
           * kSystemPointerSize.
Proof.
  intros [Hosr Hsaves Hsaves_fp Hreturns Hfixed Hprologue].
  rewrite Frame.AssembleConstructFrame_parts, Frame.exec_code_app.
  destruct (Hprologue m0) as (ma & -> & Hsp).
  unfold Frame.osr_abort, Frame.frame_slots_code, Frame.required_slots.
  rewrite Hosr, Hsaves, Hsaves_fp, Hreturns. cbn [app length Frame.is_empty negb].
  change (0 <? 0) with false. cbv iota. rewrite !app_nil_r.
  replace (Frame.GetTotalFrameSlotCount (Frame.frame gen)
           - Frame.GetFixedSlotCount (Frame.frame gen) - Z.of_nat 0
           - Z.of_nat 0 * Z.quot Frame.kQuadWordSize kSystemPointerSize - 0)
    with (Frame.GetTotalFrameSlotCount (Frame.frame gen)
          - Frame.GetFixedSlotCount (Frame.frame gen)) by lia.
  destruct (0 <? Frame.GetTotalFrameSlotCount (Frame.frame gen)
                 - Frame.GetFixedSlotCount (Frame.frame gen)) eqn:Hreq.
  - eexists. split; [reflexivity|]. rewrite Frame.regs_set_reg_eq, Hsp. lia.
  - apply Z.ltb_ge in Hreq. exists ma. split; [reflexivity|]. rewrite Hsp.
    replace (Frame.GetTotalFrameSlotCount (Frame.frame gen))
      with (Frame.GetFixedSlotCount (Frame.frame gen)) by lia.
    reflexivity.
Qed.

(** C7.  For a tail call for tier-up the slot delta is the negation of the
    frame's total slot count minus the return address slots, which is at
    most 0; the construction of the frame has lowered the stack pointer by
    exactly these slots, so that when the tail call is reached with the
    stack pointer where the construction left it, the code of
    [AssembleTailCallAfterGap] sets the stack pointer to the value it had
    before the prologue, and changes no other register.  For every other
    tail call the slot delta is [new_slot_above_sp] minus the current SP
    offset, and when it is negative the code of [AssembleTailCallAfterGap]
    adds exactly that many slots to the stack pointer and changes no other
    register -- no callee-saved register --, after which the SP offset is
    [new_slot_above_sp].  In both cases the last call of
    [AssembleTailCallBeforeGap], which does not allow shrinkage, emits
    nothing for a negative delta: the stack is shrunk once, after the gap
    moves. *)
Theorem AdjustStackPointerForTailCall_resets_or_shrinks
    (kIsTailCallForTierUp : bool) (gen : Frame.CodeGenerator)
    (state : TailCall.FrameAccessState) (new_slot_above_sp : Z)
    (m0 : Frame.Machine) (regs : TailCall.Register -> Z) :
  let delta :=
    TailCall.stack_slot_delta kReturnAddressStackSlotCount kFixedSlotCountAboveFp
      GetSPToFPSlotCount kIsTailCallForTierUp state new_slot_above_sp in
  (kIsTailCallForTierUp = true ->
     tier_up_frame gen ->
     TailCall.GetTotalFrameSlotCount state
     = Frame.GetTotalFrameSlotCount (Frame.frame gen) ->
     delta = - (Frame.GetTotalFrameSlotCount (Frame.frame gen)
                - kReturnAddressStackSlotCount)
     /\ delta <= 0
     /\ exists m1,
          Frame.exec (Frame.AssembleConstructFrame kSystemPointerSize Prologue
                        StubPrologue gen) m0 = Some m1
          /\ Frame.regs m1 Frame.rsp
             = Frame.regs m0 Frame.rsp + delta * kSystemPointerSize
          /\ (regs TailCall.rsp = Frame.regs m1 Frame.rsp ->
              exists code state',
                TailCall.AssembleTailCallAfterGap kSystemPointerSize
                  kReturnAddressStackSlotCount kFixedSlotCountAboveFp GetSPToFPSlotCount
                  true state new_slot_above_sp = (code, state')
                /\ TailCall.exec code regs TailCall.rsp = Frame.regs m0 Frame.rsp
                /\ (forall r, r <> TailCall.rsp -> TailCall.exec code regs r = regs r)
                /\ TailCall.sp_delta state' = TailCall.sp_delta state + delta))
  /\ (kIsTailCallForTierUp = false ->
        delta = new_slot_above_sp
                - TailCall.current_sp_offset kFixedSlotCountAboveFp GetSPToFPSlotCount state
        /\ (delta < 0 ->
            exists code state',
              TailCall.AssembleTailCallAfterGap kSystemPointerSize
                kReturnAddressStackSlotCount kFixedSlotCountAboveFp GetSPToFPSlotCount
                false state new_slot_above_sp = (code, state')
              /\ TailCall.exec code regs TailCall.rsp
                 = regs TailCall.rsp + (- delta) * kSystemPointerSize
              /\ (forall r, r <> TailCall.rsp -> TailCall.exec code regs r = regs r)
              /\ TailCall.current_sp_offset kFixedSlotCountAboveFp GetSPToFPSlotCount state'
                 = new_slot_above_sp
              /\ TailCall.sp_delta state' = TailCall.sp_delta state + delta))
  /\ (delta <= 0 ->
        TailCall.AssembleTailCallBeforeGap_no_pushes kSystemPointerSize
          kReturnAddressStackSlotCount kFixedSlotCountAboveFp GetSPToFPSlotCount
          kIsTailCallForTierUp state new_slot_above_sp = ([], state)).
Proof.
  intros delta.
  assert (Hafter : delta < 0 ->
    TailCall.AssembleTailCallAfterGap kSystemPointerSize kReturnAddressStackSlotCount
      kFixedSlotCountAboveFp GetSPToFPSlotCount kIsTailCallForTierUp state
      new_slot_above_sp
    = ([TailCall.addq TailCall.rsp (- delta * kSystemPointerSize)],
       TailCall.IncreaseSPDelta delta state)).
  { intros Hneg.
    unfold TailCall.AssembleTailCallAfterGap, TailCall.AdjustStackPointerForTailCall.
    fold delta.
    replace (0 <? delta) with false by (symmetry; apply Z.ltb_ge; lia).
    replace (delta <? 0) with true by (symmetry; apply Z.ltb_lt; lia).
    reflexivity. }
  assert (Hnone : delta = 0 ->
    TailCall.AssembleTailCallAfterGap kSystemPointerSize kReturnAddressStackSlotCount
      kFixedSlotCountAboveFp GetSPToFPSlotCount kIsTailCallForTierUp state
      new_slot_above_sp
    = ([], state)).
  { intros Hzero.
    unfold TailCall.AssembleTailCallAfterGap, TailCall.AdjustStackPointerForTailCall.
    fold delta. rewrite Hzero. reflexivity. }
  assert (Hother : forall r, r <> TailCall.rsp ->
    TailCall.exec [TailCall.addq TailCall.rsp (- delta * kSystemPointerSize)] regs r
    = regs r).
  { intros r Hr. unfold TailCall.exec. simpl.
    apply Nat.eqb_neq in Hr. rewrite Hr. reflexivity. }
  split_and!.
  - intros -> Htier Htotal.
    assert (Hdelta : delta = - (Frame.GetTotalFrameSlotCount (Frame.frame gen)
                                - kReturnAddressStackSlotCount)).
    { unfold delta, TailCall.stack_slot_delta. rewrite Htotal. lia. }
    pose proof (tu_fixed gen Htier) as Hfixed.
    split; [exact Hdelta|]. split; [lia|].
    destruct (AssembleConstructFrame_tier_up gen m0 Htier) as (m1 & Hexec & Hsp).
    exists m1. split; [exact Hexec|]. split; [rewrite Hsp; lia|].
    intros Hregs. destruct (Z.eq_dec delta 0) as [Hzero|Hnz].
    + exists [], state. split; [apply Hnone; exact Hzero|].
      split_and!; [|reflexivity|lia].
      unfold TailCall.exec. simpl. rewrite Hregs, Hsp. lia.
    + eexists _, _. split; [apply Hafter; lia|].
      split_and!; [|exact Hother|reflexivity].
      unfold TailCall.exec. simpl. rewrite Hregs, Hsp. lia.
  - intros ->. split; [reflexivity|]. intros Hneg.
    eexists _, _. split; [apply Hafter; exact Hneg|].
    split_and!; [|exact Hother| |reflexivity].
    + unfold TailCall.exec. simpl. lia.
    + unfold TailCall.current_sp_offset. rewrite GetSPToFPSlotCount_delta.
      unfold delta, TailCall.stack_slot_delta. lia.
  - intros Hle.
    unfold TailCall.AssembleTailCallBeforeGap_no_pushes,
      TailCall.AdjustStackPointerForTailCall.
    fold delta.
    replace (0 <? delta) with false by (symmetry; apply Z.ltb_ge; lia).
    reflexivity.
Qed.

End TierUp.

(** ** An instance: a JavaScript function with a frame of 9 slots *)

(** The frame has the return address, the four slots the prologue pushes
    and four spill slots. *)
Definition example_gen : Frame.CodeGenerator :=
  Frame.mkCodeGenerator (Frame.mkCallDescriptor false true [] [] 2)
    (Frame.mkFrameInfo 9 5 0) true false 0.

Definition example_state : TailCall.FrameAccessState :=
  TailCall.mkFrameAccessState 9 0.

Lemma example_gen_tier_up :
  tier_up_frame 8 1 Frame.example_Prologue Frame.example_StubPrologue example_gen.
Proof.
  split; try reflexivity; [simpl; lia|].
  intros m. eexists. split; [reflexivity|]. simpl. lia.
Qed.

(** The registers at the tail call: the stack pointer is 64 bytes below
    its value in [Frame.example_machine]. *)
Definition example_regs (r : TailCall.Register) : Z :=
  if Nat.eqb r TailCall.rsp then Frame.regs Frame.example_machine Frame.rsp - 64
  else 7.

Lemma AdjustStackPointerForTailCall_resets_or_shrinks_witness :
  exists code state',
    TailCall.AssembleTailCallAfterGap 8 1 2 TailCall.example_GetSPToFPSlotCount
      true example_state 3 = (code, state')
    /\ TailCall.exec code example_regs TailCall.rsp
       = Frame.regs Frame.example_machine Frame.rsp
    /\ (forall r, r <> TailCall.rsp -> TailCall.exec code example_regs r = example_regs r)
    /\ TailCall.sp_delta state' = -8.
Proof.
  pose proof (AdjustStackPointerForTailCall_resets_or_shrinks 8 1 2
                TailCall.example_GetSPToFPSlotCount Frame.example_Prologue
                Frame.example_StubPrologue eq_refl
                TailCall.example_GetSPToFPSlotCount_delta
                true example_gen example_state 3 Frame.example_machine example_regs)
    as (Htier & _ & _).
  destruct (Htier eq_refl example_gen_tier_up eq_refl)
    as (_ & _ & m1 & Hexec & _ & Hreset).
  injection Hexec as <-.
  exact (Hreset eq_refl).
Defined.

End TailCallFrame.

(* ===================================================================== *)
(** * Moves and swaps of the gap resolver
    ([AssembleMove], [AssembleSwap], [Push], [Pop], [PopTempStackSlots],
    [MoveToTempLocation], [MoveTempLocationTo] and [SetPendingMove] of
    src/compiler/backend/x64/code-generator-x64.cc, l. 5082-5517, with
    [ToOperand] and [SlotToOperand] of l. 66-75; the [DCHECK]s are those of
    a release build) *)
(* ===================================================================== *)

Module GapMoves.

Abbreviation Register := nat.
Abbreviation XMMRegister := nat.

Definition rsp : Register := 4%nat.
Definition rbp : Register := 5%nat.

(** [Operand(base, disp)]. *)
Record Operand := mkOperand { base : Register; disp : Z }.

(** The cases of the switches of the source. *)
Inductive MoveType :=
  | kRegisterToRegister | kRegisterToStack | kStackToRegister | kStackToStack
  | kConstantToRegister | kConstantToStack.

Inductive ConstantType :=
  | kInt32 | kInt64 | kFloat32 | kFloat64 | kExternalReference | kHeapObject
  | kCompressedHeapObject | kRpoNumber.

#[global] Instance ConstantType_eq_dec : EqDecision ConstantType.
Proof. solve_decision. Defined.

Inductive LocationKind := REGISTER | STACK_SLOT.

Record FrameOffset := mkFrameOffset { from_stack_pointer : bool; offset : Z }.

Record MoveCycleState := mkMoveCycleState {
  pending_scratch_register_use : bool;
  pending_double_scratch_register_use : bool
}.

(** What the functions read and write of the code generator: the SP delta
    of the frame access state, [temp_slots_] and [move_cycle_]. *)
Record CodeGenerator := mkCodeGenerator {
  sp_delta : Z;
  temp_slots_ : Z;
  move_cycle_ : MoveCycleState
}.

Definition IncreaseSPDelta (amount : Z) (gen : CodeGenerator) : CodeGenerator :=
  mkCodeGenerator (sp_delta gen + amount) (temp_slots_ gen) (move_cycle_ gen).

Definition set_temp_slots (n : Z) (gen : CodeGenerator) : CodeGenerator :=
  mkCodeGenerator (sp_delta gen) n (move_cycle_ gen).

(** ** The machine *)

(** Memory holds 64 bit words at byte addresses (the addresses of two
    words are equal or at least 8 apart); an XMM register is a pair of
    words, the low one first. *)
Record Machine := mkMachine {
  regs : Register -> Z;
  xmm : XMMRegister -> Z * Z;
  mem : Z -> Z
}.

Definition set_reg (r : Register) (v : Z) (m : Machine) : Machine :=
  mkMachine (fun r' => if Nat.eqb r' r then v else regs m r') (xmm m) (mem m).

Definition set_xmm (x : XMMRegister) (v : Z * Z) (m : Machine) : Machine :=
  mkMachine (regs m) (fun x' => if Nat.eqb x' x then v else xmm m x') (mem m).

Definition store (a v : Z) (m : Machine) : Machine :=
  mkMachine (regs m) (xmm m) (fun a' => if a' =? a then v else mem m a').

Definition operand_address (m : Machine) (op : Operand) : Z :=
  regs m (base op) + disp op.

(** ** What the functions use of other files *)

(** The constants, flags, types and functions of other files:

    - the pointer size and the scratch registers;
    - [MachineRepresentation] with the four representations that the
      functions name, [IsFloatingPoint] and [ElementSizeInPointers];
    - a constant: its type, whether its relocation mode is a WebAssembly
      reference, its value as an [int32_t], and the root it can be
      materialized from, if any;
    - instruction operands, with their predicates and accessors, the
      constructor [AllocatedOperand(kind, rep, index)], the conversions of
      the operand converter and the classification of moves and swaps;
    - [v8_flags.trace_turbo_stack_accesses]; whether the code is optimized
      code or, with WebAssembly enabled, WebAssembly code; whether the code
      kind is [WASM_FUNCTION];
    - the frame: its total slot count, and [GetFrameOffset] as a function
      of the SP delta, the one field of the frame access state that the
      functions change. *)
Class Backend := mkBackend {
  kSystemPointerSize : Z;
  kScratchRegister : Register;
  kScratchDoubleReg : XMMRegister;

  MachineRepresentation : Type;
  MachineRepresentation_eq_dec :: EqDecision MachineRepresentation;
  kWord32 : MachineRepresentation;
  kCompressed : MachineRepresentation;
  kCompressedPointer : MachineRepresentation;
  kSimd128 : MachineRepresentation;
  IsFloatingPoint : MachineRepresentation -> bool;
  ElementSizeInPointers : MachineRepresentation -> Z;

  Constant : Type;
  constant_type : Constant -> ConstantType;
  IsWasmReference : Constant -> bool;
  ToInt32 : Constant -> Z;
  RootIndex : Type;
  IsMaterializableFromRoot : Constant -> option RootIndex;

  InstructionOperand : Type;
  IsRegister : InstructionOperand -> bool;
  IsFPRegister : InstructionOperand -> bool;
  IsStackSlot : InstructionOperand -> bool;
  IsFPStackSlot : InstructionOperand -> bool;
  IsFloatStackSlot : InstructionOperand -> bool;
  IsDoubleStackSlot : InstructionOperand -> bool;
  IsAnyStackSlot : InstructionOperand -> bool;
  IsFPLocationOperand : InstructionOperand -> bool;
  representation : InstructionOperand -> MachineRepresentation;
  index : InstructionOperand -> Z;
  AllocatedOperand : LocationKind -> MachineRepresentation -> Z -> InstructionOperand;
  ToRegister : InstructionOperand -> Register;
  ToDoubleRegister : InstructionOperand -> XMMRegister;
  ToConstant : InstructionOperand -> Constant;
  InferMove : InstructionOperand -> InstructionOperand -> MoveType;
  InferSwap : InstructionOperand -> InstructionOperand -> MoveType;

  trace_turbo_stack_accesses : bool;
  counts_stack_accesses : bool;
  code_kind_is_WASM_FUNCTION : bool;

  GetTotalFrameSlotCount : Z;
  GetFrameOffset : Z -> Z -> FrameOffset
}.

Section Moves.

Context `{Backend}.

(** ** The instructions *)

(** The calls of the macro assembler that load a constant or count a stack
    access. *)
Inductive MacroCall :=
  | movq_Immediate64 (dst : Register) (src : Constant)
  | Move_int64 (dst : Register) (src : Constant)
  | MoveNumber_float32 (dst : Register) (src : Constant)
  | MoveNumber_float64 (dst : Register) (src : Constant)
  | Move_external_reference (dst : Register) (src : Constant)
  | LoadRoot (dst : Register) (index : RootIndex)
  | Move_heap_object (dst : Register) (src : Constant)
  | LoadTaggedRoot (dst : Register) (index : RootIndex)
  | Move_compressed_heap_object (dst : Register) (src : Constant)
  | Move_slot_int32 (dst : Operand) (src : Constant)
  | Move_slot_int64 (dst : Operand) (src : Constant)
  | Move_double_float32 (dst : XMMRegister) (src : Constant)
  | Move_double_float64 (dst : XMMRegister) (src : Constant)
  | movl_slot_float32 (dst : Operand) (src : Constant)
  | Move_slot_float64 (dst : Operand) (src : Constant)
  | incl_load_from_stack_count
  | incl_store_to_stack_count.

(** [MaybeIncreaseBaseOffsetAt] is a record of the unwinding info writer at
    the current pc, no instruction. *)
Inductive Instr :=
  | movq (dst src : Register)
  | movl (dst src : Register)
  | movq_load (dst : Register) (src : Operand)
  | movl_load (dst : Register) (src : Operand)
  | movq_store (dst : Operand) (src : Register)
  | Movapd (dst src : XMMRegister)
  | Movsd (dst src : XMMRegister)
  | Movsd_load (dst : XMMRegister) (src : Operand)
  | Movsd_store (dst : Operand) (src : XMMRegister)
  | Movups (dst src : XMMRegister)
  | Movups_load (dst : XMMRegister) (src : Operand)
  | Movups_store (dst : Operand) (src : XMMRegister)
  | movups_load (dst : XMMRegister) (src : Operand)
  | movups_store (dst : Operand) (src : XMMRegister)
  | pushq (src : Register)
  | pushq_mem (src : Operand)
  | popq (dst : Register)
  | popq_mem (dst : Operand)
  | subq (dst : Register) (imm : Z)
  | addq (dst : Register) (imm : Z)
  | xorl (dst src : Register)
  | movl_imm (dst : Register) (value : Z)
  | MaybeIncreaseBaseOffsetAt (delta : Z)
  | Macro (call : MacroCall).

(** What a call of the macro assembler does to the machine. *)
Variable exec_macro : MacroCall -> Machine -> option Machine.

(** [pushq] of a memory operand reads the operand before it moves the
    stack pointer; [popq] to a memory operand computes the address of the
    operand after it has moved the stack pointer.  The 32 bit moves clear
    the upper half of their destination; [Movsd] from memory clears the high
    word of the register, [Movsd] between registers keeps it. *)
Definition exec_instr (i : Instr) (m : Machine) : option Machine :=
  match i with
  | movq dst src => Some (set_reg dst (regs m src) m)
  | movl dst src => Some (set_reg dst (regs m src mod 2 ^ 32) m)
  | movq_load dst src => Some (set_reg dst (mem m (operand_address m src)) m)
  | movl_load dst src => Some (set_reg dst (mem m (operand_address m src) mod 2 ^ 32) m)
  | movq_store dst src => Some (store (operand_address m dst) (regs m src) m)
  | Movapd dst src | Movups dst src => Some (set_xmm dst (xmm m src) m)
  | Movsd dst src => Some (set_xmm dst ((xmm m src).1, (xmm m dst).2) m)
  | Movsd_load dst src => Some (set_xmm dst (mem m (operand_address m src), 0) m)
  | Movsd_store dst src => Some (store (operand_address m dst) (xmm m src).1 m)
  | Movups_load dst src | movups_load dst src =>
      let a := operand_address m src in
      Some (set_xmm dst (mem m a, mem m (a + 8)) m)
  | Movups_store dst src | movups_store dst src =>
      let a := operand_address m dst in
      Some (store (a + 8) (xmm m src).2 (store a (xmm m src).1 m))
  | pushq src =>
      let sp := regs m rsp - 8 in
      Some (store sp (regs m src) (set_reg rsp sp m))
  | pushq_mem src =>
      let sp := regs m rsp - 8 in
      Some (store sp (mem m (operand_address m src)) (set_reg rsp sp m))
  | popq dst =>
      Some (set_reg dst (mem m (regs m rsp)) (set_reg rsp (regs m rsp + 8) m))
  | popq_mem dst =>
      let m' := set_reg rsp (regs m rsp + 8) m in
      Some (store (operand_address m' dst) (mem m (regs m rsp)) m')
  | subq dst imm => Some (set_reg dst (regs m dst - imm) m)
  | addq dst imm => Some (set_reg dst (regs m dst + imm) m)
  | xorl dst src => Some (set_reg dst (Z.lxor (regs m dst) (regs m src) mod 2 ^ 32) m)
  | movl_imm dst value => Some (set_reg dst (value mod 2 ^ 32) m)
  | MaybeIncreaseBaseOffsetAt _ => Some m
  | Macro call => exec_macro call m
  end.

Fixpoint exec (code : list Instr) (m : Machine) : option Machine :=
  match code with
  | [] => Some m
  | i :: code' =>
      match exec_instr i m with
      | Some m' => exec code' m'
      | None => None
      end
  end.

(** ** The operand converter *)

Definition SlotToOperand (gen : CodeGenerator) (slot_index : Z) (extra : Z) : Operand :=
  let offset := GetFrameOffset (sp_delta gen) slot_index in
  mkOperand (if from_stack_pointer offset then rsp else rbp)
    (GapMoves.offset offset + extra).

Definition ToOperand (gen : CodeGenerator) (op : InstructionOperand) (extra : Z) : Operand :=
  SlotToOperand gen (index op) extra.

(** ** [IncrementStackAccessCounter] *)

Definition IncrementStackAccessCounter (source destination : InstructionOperand)
    : list Instr :=
  if negb counts_stack_accesses then []
  else
    (if IsAnyStackSlot source then [Macro incl_load_from_stack_count] else [])
    ++ (if IsAnyStackSlot destination then [Macro incl_store_to_stack_count] else []).

(** ** [AssembleMove] *)

(** [None] is [UNREACHABLE()]. *)
Definition MoveConstantToRegister (dst : Register) (src : Constant) : option (list Instr) :=
  match constant_type src with
  | kInt32 =>
      if IsWasmReference src then Some [Macro (movq_Immediate64 dst src)]
      else
        let value := ToInt32 src in
        if value =? 0 then Some [xorl dst dst] else Some [movl_imm dst value]
  | kInt64 =>
      if IsWasmReference src then Some [Macro (movq_Immediate64 dst src)]
      else Some [Macro (Move_int64 dst src)]
  | kFloat32 => Some [Macro (MoveNumber_float32 dst src)]
  | kFloat64 => Some [Macro (MoveNumber_float64 dst src)]
  | kExternalReference => Some [Macro (Move_external_reference dst src)]
  | kHeapObject =>
      match IsMaterializableFromRoot src with
      | Some index => Some [Macro (LoadRoot dst index)]
      | None => Some [Macro (Move_heap_object dst src)]
      end
  | kCompressedHeapObject =>
      match IsMaterializableFromRoot src with
      | Some index => Some [Macro (LoadTaggedRoot dst index)]
      | None => Some [Macro (Move_compressed_heap_object dst src)]
      end
  | kRpoNumber => None
  end.

Definition MoveConstantToSlot (dst : Operand) (src : Constant) : option (list Instr) :=
  let direct :=
    if negb (IsWasmReference src) then
      match constant_type src with
      | kInt32 => Some [Macro (Move_slot_int32 dst src)]
      | kInt64 => Some [Macro (Move_slot_int64 dst src)]
      | _ => None
      end
    else None in
  match direct with
  | Some code => Some code
  | None =>
      code ← MoveConstantToRegister kScratchRegister src;
      Some (code ++ [movq_store dst kScratchRegister])
  end.

Definition is_kSimd128 (rep : MachineRepresentation) : bool :=
  bool_decide (rep = kSimd128).

Definition AssembleMove (gen : CodeGenerator) (source destination : InstructionOperand)
    : option (list Instr) :=
  let counters :=
    if trace_turbo_stack_accesses then IncrementStackAccessCounter source destination
    else [] in
  body ←
    match InferMove source destination with
    | kRegisterToRegister =>
        if IsRegister source then
          let src_rep := representation source in
          let dest_rep := representation destination in
          if bool_decide (dest_rep = kWord32) && bool_decide (src_rep = kWord32)
          then Some [movl (ToRegister destination) (ToRegister source)]
          else Some [movq (ToRegister destination) (ToRegister source)]
        else Some [Movapd (ToDoubleRegister destination) (ToDoubleRegister source)]
    | kRegisterToStack =>
        let dst := ToOperand gen destination 0 in
        if IsRegister source then Some [movq_store dst (ToRegister source)]
        else
          let src := ToDoubleRegister source in
          let rep := representation source in
          if negb (is_kSimd128 rep) then Some [Movsd_store dst src]
          else Some [Movups_store dst src]
    | kStackToRegister =>
        let src := ToOperand gen source 0 in
        if IsStackSlot source then
          let mr := representation source in
          let is_32_bit :=
            bool_decide (mr = kWord32) || bool_decide (mr = kCompressed)
            || bool_decide (mr = kCompressedPointer) in
          if code_kind_is_WASM_FUNCTION && is_32_bit
          then Some [movl_load (ToRegister destination) src]
          else Some [movq_load (ToRegister destination) src]
        else
          let dst := ToDoubleRegister destination in
          let rep := representation source in
          if negb (is_kSimd128 rep) then Some [Movsd_load dst src]
          else Some [Movups_load dst src]
    | kStackToStack =>
        let src := ToOperand gen source 0 in
        let dst := ToOperand gen destination 0 in
        if IsStackSlot source then
          Some [movq_load kScratchRegister src; movq_store dst kScratchRegister]
        else
          let rep := representation source in
          if negb (is_kSimd128 rep)
          then Some [Movsd_load kScratchDoubleReg src; Movsd_store dst kScratchDoubleReg]
          else Some [Movups_load kScratchDoubleReg src; Movups_store dst kScratchDoubleReg]
    | kConstantToRegister =>
        let src := ToConstant source in
        if IsRegister destination
        then MoveConstantToRegister (ToRegister destination) src
        else
          let dst := ToDoubleRegister destination in
          match constant_type src with
          | kFloat32 => Some [Macro (Move_double_float32 dst src)]
          | _ => Some [Macro (Move_double_float64 dst src)]
          end
    | kConstantToStack =>
        let src := ToConstant source in
        let dst := ToOperand gen destination 0 in
        if IsStackSlot destination then MoveConstantToSlot dst src
        else
          match constant_type src with
          | kFloat32 => Some [Macro (movl_slot_float32 dst src)]
          | _ => Some [Macro (Move_slot_float64 dst src)]
          end
    end;
  Some (counters ++ body).

(** ** [AssembleSwap] *)

Definition AssembleSwap (gen : CodeGenerator) (source destination : InstructionOperand)
    : option (list Instr) :=
  let counters :=
    if trace_turbo_stack_accesses then
      IncrementStackAccessCounter source destination
      ++ IncrementStackAccessCounter destination source
    else [] in
  body ←
    match InferSwap source destination with
    | kRegisterToRegister =>
        if IsRegister source then
          let src := ToRegister source in
          let dst := ToRegister destination in
          Some [movq kScratchRegister src; movq src dst; movq dst kScratchRegister]
        else
          let src := ToDoubleRegister source in
          let dst := ToDoubleRegister destination in
          Some [Movapd kScratchDoubleReg src; Movapd src dst; Movapd dst kScratchDoubleReg]
    | kRegisterToStack =>
        if IsRegister source then
          let src := ToRegister source in
          let dst := ToOperand gen destination 0 in
          Some [movq kScratchRegister src; movq_load src dst;
                movq_store dst kScratchRegister]
        else
          let src := ToDoubleRegister source in
          let dst := ToOperand gen destination 0 in
          let rep := representation source in
          if negb (is_kSimd128 rep) then
            Some [Movsd kScratchDoubleReg src; Movsd_load src dst;
                  Movsd_store dst kScratchDoubleReg]
          else
            Some [Movups kScratchDoubleReg src; Movups_load src dst;
                  Movups_store dst kScratchDoubleReg]
    | kStackToStack =>
        let src := ToOperand gen source 0 in
        let dst := ToOperand gen destination 0 in
        let rep := representation source in
        if negb (is_kSimd128 rep) then
          let tmp := kScratchRegister in
          Some [movq_load tmp dst;
                pushq_mem src;
                MaybeIncreaseBaseOffsetAt kSystemPointerSize;
                popq_mem dst;
                MaybeIncreaseBaseOffsetAt (- kSystemPointerSize);
                movq_store src tmp]
        else
          Some [movups_load kScratchDoubleReg dst;
                pushq_mem src;
                MaybeIncreaseBaseOffsetAt kSystemPointerSize;
                popq_mem dst;
                MaybeIncreaseBaseOffsetAt (- kSystemPointerSize);
                pushq_mem (ToOperand gen source kSystemPointerSize);
                MaybeIncreaseBaseOffsetAt kSystemPointerSize;
                popq_mem (ToOperand gen destination kSystemPointerSize);
                MaybeIncreaseBaseOffsetAt (- kSystemPointerSize);
                movups_store src kScratchDoubleReg]
    | _ => None
    end;
  Some (counters ++ body).

(** ** The temporary location of a move cycle *)

(** [Push]: the code, the code generator afterwards, and the stack slot of
    the pushed value. *)
Definition Push (gen : CodeGenerator) (source : InstructionOperand)
    : option (list Instr * CodeGenerator * InstructionOperand) :=
  let rep := representation source in
  let new_slots := ElementSizeInPointers rep in
  let last_frame_slot_id := GetTotalFrameSlotCount - 1 in
  let slot_id := last_frame_slot_id + sp_delta gen + new_slots in
  let stack_slot := AllocatedOperand STACK_SLOT rep slot_id in
  '(code, gen') ←
    (if IsRegister source then
       Some ([pushq (ToRegister source)], IncreaseSPDelta new_slots gen)
     else if IsStackSlot source || IsFloatStackSlot source || IsDoubleStackSlot source then
       Some ([pushq_mem (ToOperand gen source 0)], IncreaseSPDelta new_slots gen)
     else
       let gen' := IncreaseSPDelta new_slots gen in
       move ← AssembleMove gen' source stack_slot;
       Some (subq rsp (new_slots * kSystemPointerSize) :: move, gen'));
  Some (code, set_temp_slots (temp_slots_ gen' + new_slots) gen', stack_slot).

Definition Pop (gen : CodeGenerator) (dest : InstructionOperand)
    (rep : MachineRepresentation) : option (list Instr * CodeGenerator) :=
  let new_slots := ElementSizeInPointers rep in
  let gen' := IncreaseSPDelta (- new_slots) gen in
  code ←
    (if IsRegister dest then Some [popq (ToRegister dest)]
     else if IsStackSlot dest || IsFloatStackSlot dest || IsDoubleStackSlot dest then
       Some [popq_mem (ToOperand gen' dest 0)]
     else
       let last_frame_slot_id := GetTotalFrameSlotCount - 1 in
       let slot_id := last_frame_slot_id + sp_delta gen' + new_slots in
       let stack_slot := AllocatedOperand STACK_SLOT rep slot_id in
       move ← AssembleMove gen' stack_slot dest;
       Some (move ++ [addq rsp (new_slots * kSystemPointerSize)]));
  Some (code, set_temp_slots (temp_slots_ gen' - new_slots) gen').

Definition PopTempStackSlots (gen : CodeGenerator) : list Instr * CodeGenerator :=
  if 0 <? temp_slots_ gen then
    let gen' := IncreaseSPDelta (- temp_slots_ gen) gen in
    ([addq rsp (temp_slots_ gen * kSystemPointerSize)], set_temp_slots 0 gen')
  else ([], gen).

(** Whether the scratch register of the representation is available. *)
Definition scratch_available (gen : CodeGenerator) (rep : MachineRepresentation) : bool :=
  (IsFloatingPoint rep
   && negb (pending_double_scratch_register_use (move_cycle_ gen)))
  || (negb (IsFloatingPoint rep)
      && negb (pending_scratch_register_use (move_cycle_ gen))).

Definition scratch_operand (rep : MachineRepresentation) : InstructionOperand :=
  let scratch_reg_code :=
    if negb (IsFloatingPoint rep) then Z.of_nat kScratchRegister
    else Z.of_nat kScratchDoubleReg in
  AllocatedOperand REGISTER rep scratch_reg_code.

Definition MoveToTempLocation (gen : CodeGenerator) (source : InstructionOperand)
    : option (list Instr * CodeGenerator) :=
  let rep := representation source in
  if scratch_available gen rep then
    code ← AssembleMove gen source (scratch_operand rep);
    Some (code, gen)
  else
    '(code, gen', _) ← Push gen source;
    Some (code, gen').

(** [MoveCycleState()] has both flags clear. *)
Definition MoveTempLocationTo (gen : CodeGenerator) (dest : InstructionOperand)
    (rep : MachineRepresentation) : option (list Instr * CodeGenerator) :=
  '(code, gen') ←
    (if scratch_available gen rep then
       code ← AssembleMove gen (scratch_operand rep) dest;
       Some (code, gen)
     else Pop gen dest rep);
  Some (code, mkCodeGenerator (sp_delta gen') (temp_slots_ gen')
                (mkMoveCycleState false false)).

Definition SetPendingMove (gen : CodeGenerator) (source destination : InstructionOperand)
    : CodeGenerator :=
  let set_scratch gen :=
    mkCodeGenerator (sp_delta gen) (temp_slots_ gen)
      (mkMoveCycleState true
         (pending_double_scratch_register_use (move_cycle_ gen))) in
  let set_double_scratch gen :=
    mkCodeGenerator (sp_delta gen) (temp_slots_ gen)
      (mkMoveCycleState (pending_scratch_register_use (move_cycle_ gen)) true) in
  match InferMove source destination with
  | kConstantToStack =>
      let src := ToConstant source in
      if IsStackSlot destination
         && (IsWasmReference src
             || (negb (bool_decide (constant_type src = kInt32))
                 && negb (bool_decide (constant_type src = kInt64))))
      then set_scratch gen
      else gen
  | kStackToStack =>
      if IsFPLocationOperand source then set_double_scratch gen
      else set_scratch gen
  | _ => gen
  end.


(** ** What a move and a swap do *)

(** The location of an operand: a general purpose register, an XMM
    register, or the word of memory at the address of its stack slot. *)
Inductive Location :=
  | RegLoc (r : Register)
  | XmmLoc (x : XMMRegister)
  | MemLoc (a : Z).

Definition is_any_register (op : InstructionOperand) : bool :=
  IsRegister op || IsFPRegister op.

Definition location (gen : CodeGenerator) (m : Machine) (op : InstructionOperand)
    : Location :=
  if IsRegister op then RegLoc (ToRegister op)
  else if IsFPRegister op then XmmLoc (ToDoubleRegister op)
  else MemLoc (operand_address m (ToOperand gen op 0)).

(** The low word of a location, and the word after it. *)
Definition low (m : Machine) (l : Location) : Z :=
  match l with
  | RegLoc r => regs m r
  | XmmLoc x => (xmm m x).1
  | MemLoc a => mem m a
  end.

Definition high (m : Machine) (l : Location) : Z :=
  match l with
  | RegLoc r => 0
  | XmmLoc x => (xmm m x).2
  | MemLoc a => mem m (a + 8)
  end.

(** The words of memory of a location: the word at its address and, for a
    128 bit value, the word after it. *)
Definition covers (rep : MachineRepresentation) (l : Location) (a : Z) : Prop :=
  l = MemLoc a \/ (rep = kSimd128 /\ l = MemLoc (a - 8)).

(** What [AssembleSwap] takes for granted: [InferSwap] classifies the
    operands by what they are; the general purpose registers are neither the
    scratch register nor the stack or frame pointer, the XMM registers are
    not the scratch register; the stack slots are above the stack pointer,
    and two 128 bit slots are the same or do not overlap. *)
Record swap_ok (gen : CodeGenerator) (m : Machine)
    (source destination : InstructionOperand) : Prop := mkSwapOk {
  swap_kinds :
    match InferSwap source destination with
    | kRegisterToRegister =>
        is_any_register source = true /\ is_any_register destination = true
        /\ IsRegister destination = IsRegister source
    | kRegisterToStack =>
        is_any_register source = true /\ is_any_register destination = false
    | kStackToStack =>
        is_any_register source = false /\ is_any_register destination = false
    | _ => False
    end;
  swap_scratch : kScratchRegister <> rsp /\ kScratchRegister <> rbp;
  swap_registers : forall op, op = source \/ op = destination ->
    IsRegister op = true ->
    ToRegister op <> kScratchRegister /\ ToRegister op <> rsp /\ ToRegister op <> rbp;
  swap_double_registers : forall op, op = source \/ op = destination ->
    IsFPRegister op = true -> ToDoubleRegister op <> kScratchDoubleReg;
  swap_slots : forall op, op = source \/ op = destination ->
    is_any_register op = false ->
    regs m rsp <= operand_address m (ToOperand gen op 0);
  swap_simd :
    representation source = kSimd128 ->
    is_any_register source = false -> is_any_register destination = false ->
    kSystemPointerSize = 8
    /\ (operand_address m (ToOperand gen source 0)
        = operand_address m (ToOperand gen destination 0)
        \/ operand_address m (ToOperand gen source 0) + 16
           <= operand_address m (ToOperand gen destination 0)
        \/ operand_address m (ToOperand gen destination 0) + 16
           <= operand_address m (ToOperand gen source 0))
}.

Ltac run_code :=
  cbn [exec exec_instr regs xmm mem set_reg set_xmm store low high fst snd base disp];
  unfold operand_address in *;
  cbn [regs xmm mem set_reg set_xmm store fst snd base disp].

Ltac prune := try (exfalso; unfold rsp, rbp in *; first [congruence | lia]).

Ltac eqb_cases :=
  repeat match goal with
    | |- context [Nat.eqb ?a ?b] => destruct (Nat.eqb_spec a b); prune
    | |- context [Z.eqb ?a ?b] => destruct (Z.eqb_spec a b); prune
    end;
  cbn [fst snd]; unfold rsp, rbp in *;
  try first [ reflexivity | congruence | lia | f_equal; lia
            | match goal with e : ?r = _ |- _ = regs _ ?r => rewrite e; lia end ].

Ltac absurd_cover :=
  exfalso;
  match goal with
  | H : ~ (_ \/ _) |- _ =>
      apply H;
      first [ left; f_equal; first [congruence | lia]
            | right; split; [assumption | f_equal; lia] ]
  end.

Lemma ToOperand_base gen op extra :
  base (ToOperand gen op extra) = rsp \/ base (ToOperand gen op extra) = rbp.
Proof.
  unfold ToOperand, SlotToOperand. cbn [base].
  destruct (from_stack_pointer _); [left|right]; reflexivity.
Qed.

Lemma ToOperand_extra gen op extra m :
  operand_address m (ToOperand gen op extra)
  = operand_address m (ToOperand gen op 0) + extra.
Proof. unfold operand_address, ToOperand, SlotToOperand. cbn [base disp]. lia. Qed.

Lemma ToOperand_extra_eq gen op extra :
  ToOperand gen op extra
  = mkOperand (base (ToOperand gen op 0)) (disp (ToOperand gen op 0) + extra).
Proof.
  unfold ToOperand, SlotToOperand. cbn [base disp]. f_equal. lia.
Qed.

(** The address of a stack slot depends on the stack and frame pointer
    only. *)
Lemma operand_address_eq gen op extra m m' :
  regs m' rsp = regs m rsp -> regs m' rbp = regs m rbp ->
  operand_address m' (ToOperand gen op extra) = operand_address m (ToOperand gen op extra).
Proof.
  intros Hsp Hbp. unfold operand_address.
  destruct (ToOperand_base gen op extra) as [-> | ->]; congruence.
Qed.


(** A stack slot copied through the stack: [pushq] of the source, [popq]
    to the destination.  The word below the stack pointer is overwritten. *)
Lemma exec_copy_slot (m : Machine) (src dst : Operand) (d1 d2 : Z) (rest : list Instr) :
  base src = rsp \/ base src = rbp -> base dst = rsp \/ base dst = rbp ->
  exists m',
    exec (pushq_mem src :: MaybeIncreaseBaseOffsetAt d1
          :: popq_mem dst :: MaybeIncreaseBaseOffsetAt d2 :: rest) m
    = exec rest m'
    /\ (forall r, regs m' r = regs m r)
    /\ (forall x, xmm m' x = xmm m x)
    /\ (forall a,
          mem m' a
          = if a =? regs m (base dst) + disp dst then mem m (regs m (base src) + disp src)
            else if a =? regs m rsp - 8 then mem m (regs m (base src) + disp src)
            else mem m a).
Proof.
  intros Hbs Hbd. eexists. split; [reflexivity|].
  destruct Hbs as [Hbs|Hbs], Hbd as [Hbd|Hbd]; run_code; rewrite ?Hbs, ?Hbd, ?Z.sub_add.
  all: split_and!; intros; eqb_cases.
Qed.
(** [AssembleSwap] exchanges its operands.  For operands of the kinds that
    [InferSwap] says -- two registers, a register and a stack slot, or two
    stack slots -- the code runs, and afterwards each operand holds the low
    word that the other one held; two XMM registers and two operands of a
    128 bit representation have exchanged their high words as well.  The
    stack pointer, every other general purpose register but the scratch
    register, every other XMM register but the scratch register, and every
    word of memory from the stack pointer upwards that is not a word of the
    operands are as before (the swap of two stack slots goes through the
    word below the stack pointer). *)
Theorem AssembleSwap_exchanges (gen : CodeGenerator) (source destination : InstructionOperand)
    (m : Machine) :
  trace_turbo_stack_accesses = false ->
  swap_ok gen m source destination ->
  exists code m',
    AssembleSwap gen source destination = Some code
    /\ exec code m = Some m'
    /\ low m' (location gen m source) = low m (location gen m destination)
    /\ low m' (location gen m destination) = low m (location gen m source)
    /\ (IsRegister source = false ->
        representation source = kSimd128 \/ IsFPRegister destination = true ->
        high m' (location gen m source) = high m (location gen m destination)
        /\ high m' (location gen m destination) = high m (location gen m source))
    /\ (forall r, r <> kScratchRegister ->
          RegLoc r <> location gen m source -> RegLoc r <> location gen m destination ->
          regs m' r = regs m r)
    /\ (forall x, x <> kScratchDoubleReg ->
          XmmLoc x <> location gen m source -> XmmLoc x <> location gen m destination ->
          xmm m' x = xmm m x)
    /\ (forall a, regs m rsp <= a ->
          ~ covers (representation source) (location gen m source) a ->
          ~ covers (representation source) (location gen m destination) a ->
          mem m' a = mem m a).
Proof.
  intros Htrace [Hkinds [Hs1 Hs2] Hregs Hdregs Hslots Hsimd].
  unfold AssembleSwap. rewrite Htrace. cbn [app].
  rewrite (ToOperand_extra_eq gen source kSystemPointerSize),
    (ToOperand_extra_eq gen destination kSystemPointerSize).
  pose proof (Hregs source (or_introl eq_refl)) as Hrs.
  pose proof (Hregs destination (or_intror eq_refl)) as Hrd.
  pose proof (Hdregs source (or_introl eq_refl)) as Hxs.
  pose proof (Hdregs destination (or_intror eq_refl)) as Hxd.
  pose proof (Hslots source (or_introl eq_refl)) as Hss.
  pose proof (Hslots destination (or_intror eq_refl)) as Hsd.
  clear Hregs Hdregs Hslots.
  pose proof (ToOperand_base gen source 0) as Hbs.
  pose proof (ToOperand_base gen destination 0) as Hbd.
  unfold location, covers, is_any_register in *.
  set (src := ToOperand gen source 0) in *.
  set (dst := ToOperand gen destination 0) in *.
  clearbody src dst.
  destruct (InferSwap source destination); try contradiction.
  - (* register to register *)
    destruct Hkinds as (Hs & Hd & Hsame).
    destruct (IsRegister source) eqn:Hsr; rewrite Hsame in *.
    + destruct (Hrs eq_refl) as (Hs3 & Hs4 & Hs5).
      destruct (Hrd eq_refl) as (Hd3 & Hd4 & Hd5).
      eexists _, _. split; [reflexivity|]. split; [reflexivity|].
      cbn. split_and!.
      * eqb_cases.
      * eqb_cases.
      * discriminate.
      * intros r Hr Hr1 Hr2. eqb_cases.
      * reflexivity.
      * reflexivity.
    + cbn in Hs, Hd. rewrite Hs, Hd in *.
      specialize (Hxs eq_refl). specialize (Hxd eq_refl).
      eexists _, _. split; [reflexivity|]. split; [reflexivity|].
      cbn. split_and!.
      * eqb_cases.
      * eqb_cases.
      * intros _ _. split; eqb_cases.
      * reflexivity.
      * intros x Hx Hx1 Hx2. eqb_cases.
      * reflexivity.
  - (* register to stack *)
    destruct Hkinds as (Hs & Hd).
    apply orb_false_elim in Hd as [Hd1 Hd2]. rewrite Hd1, Hd2 in *.
    specialize (Hsd eq_refl).
    destruct (IsRegister source) eqn:Hsr.
    + destruct (Hrs eq_refl) as (Hs3 & Hs4 & Hs5).
      eexists _, _. split; [reflexivity|]. split; [reflexivity|].
      unfold operand_address in *.
      destruct Hbd as [Hbd|Hbd]; rewrite Hbd in *; run_code; rewrite ?Hbd; split_and!.
      all: try discriminate; try reflexivity.
      all: try (intros r Hr Hr1 Hr2); try (intros a Ha Ha1 Ha2).
      all: eqb_cases.
      all: try absurd_cover.
    + cbn in Hs. rewrite Hs in *. specialize (Hxs eq_refl).
      unfold is_kSimd128.
      destruct (bool_decide (representation source = kSimd128)) eqn:Hrep;
        [apply bool_decide_eq_true in Hrep|apply bool_decide_eq_false in Hrep];
        cbn [negb].
      all: eexists _, _; (split; [reflexivity|]); (split; [reflexivity|]).
      all: unfold operand_address in *.
      all: destruct Hbd as [Hbd|Hbd]; rewrite Hbd in *; run_code; rewrite ?Hbd; split_and!.
      all: try discriminate; try reflexivity.
      all: try (intros _ [?|?]; [|discriminate]); try (intros _ _; split).
      all: try (intros r Hr Hr1 Hr2).
      all: eqb_cases.
      all: try absurd_cover.
      all: cbn [fst snd]; try (split; eqb_cases); reflexivity.
  - (* stack to stack *)
    destruct Hkinds as (Hs & Hd).
    apply orb_false_elim in Hs as [Hs1' Hs2'].
    apply orb_false_elim in Hd as [Hd1 Hd2]. rewrite Hs1', Hs2', Hd1, Hd2 in *.
    specialize (Hss eq_refl). specialize (Hsd eq_refl).
    unfold is_kSimd128.
    destruct (bool_decide (representation source = kSimd128)) eqn:Hrep;
      [apply bool_decide_eq_true in Hrep|apply bool_decide_eq_false in Hrep];
      cbn [negb].
    + destruct (Hsimd Hrep eq_refl eq_refl) as [-> Hdisjoint].
      assert (Hbs' : base (mkOperand (base src) (disp src + 8)) = rsp
                     \/ base (mkOperand (base src) (disp src + 8)) = rbp) by exact Hbs.
      assert (Hbd' : base (mkOperand (base dst) (disp dst + 8)) = rsp
                     \/ base (mkOperand (base dst) (disp dst + 8)) = rbp) by exact Hbd.
      pose (m1 := set_xmm kScratchDoubleReg
                    (mem m (operand_address m dst), mem m (operand_address m dst + 8)) m).
      destruct (exec_copy_slot m1 src dst 8 (- 8)
                  [pushq_mem (mkOperand (base src) (disp src + 8));
                   MaybeIncreaseBaseOffsetAt 8;
                   popq_mem (mkOperand (base dst) (disp dst + 8));
                   MaybeIncreaseBaseOffsetAt (- 8);
                   movups_store src kScratchDoubleReg] Hbs Hbd)
        as (m2 & Hexec2 & Hr2 & Hx2 & Hm2).
      destruct (exec_copy_slot m2 (mkOperand (base src) (disp src + 8))
                  (mkOperand (base dst) (disp dst + 8)) 8 (- 8)
                  [movups_store src kScratchDoubleReg] Hbs' Hbd')
        as (m3 & Hexec3 & Hr3 & Hx3 & Hm3).
      eexists _, _. split; [reflexivity|].
      split.
      { transitivity (exec [movups_store src kScratchDoubleReg] m3); [|reflexivity].
        rewrite <- Hexec3, <- Hexec2. reflexivity. }
      cbn [base disp] in Hm3.
      unfold operand_address in *.
      cbn [low high mem regs xmm store].
      split_and!.
      all: try discriminate; try reflexivity.
      all: try (intros _ _; split).
      all: intros.
      all: rewrite ?Hm3, ?Hm2, ?Hr3, ?Hr2, ?Hx3, ?Hx2; subst m1;
        cbn [mem regs xmm set_xmm fst snd].
      all: eqb_cases.
      all: try absurd_cover.
    + pose (m1 := set_reg kScratchRegister (mem m (operand_address m dst)) m).
      destruct (exec_copy_slot m1 src dst kSystemPointerSize (- kSystemPointerSize)
                  [movq_store src kScratchRegister] Hbs Hbd)
        as (m2 & Hexec2 & Hr2 & Hx2 & Hm2).
      eexists _, _. split; [reflexivity|].
      split.
      { transitivity (exec [movq_store src kScratchRegister] m2); [|reflexivity].
        rewrite <- Hexec2. reflexivity. }
      unfold operand_address in *.
      cbn [low high mem regs xmm store].
      split_and!.
      all: try discriminate; try reflexivity.
      all: try (intros _ [?|?]; [contradiction|discriminate]).
      all: intros.
      all: rewrite ?Hm2, ?Hr2, ?Hx2; subst m1; cbn [mem regs xmm set_reg fst snd].
      all: eqb_cases.
      all: try absurd_cover.
Qed.
(** ** [AssembleMove] between locations *)

Definition is_32_bit (mr : MachineRepresentation) : bool :=
  bool_decide (mr = kWord32) || bool_decide (mr = kCompressed)
  || bool_decide (mr = kCompressedPointer).

(** The moves that [AssembleMove] makes with a 32 bit instruction. *)
Definition move_is_32_bit (source destination : InstructionOperand) : bool :=
  match InferMove source destination with
  | kRegisterToRegister =>
      IsRegister source
      && bool_decide (representation destination = kWord32)
      && bool_decide (representation source = kWord32)
  | kStackToRegister =>
      IsStackSlot source && code_kind_is_WASM_FUNCTION
      && is_32_bit (representation source)
  | _ => false
  end.

(** The moves that [AssembleMove] makes with a 128 bit instruction. *)
Definition move_is_128_bit (source destination : InstructionOperand) : bool :=
  match InferMove source destination with
  | kRegisterToRegister => negb (IsRegister source)
  | kRegisterToStack =>
      negb (IsRegister source) && is_kSimd128 (representation source)
  | kStackToRegister | kStackToStack =>
      negb (IsStackSlot source) && is_kSimd128 (representation source)
  | _ => false
  end.

(** What [AssembleMove] takes for granted of a move between locations:
    [InferMove] classifies the operands by what they are, and the scratch
    register is neither the stack nor the frame pointer. *)
Record move_ok (source destination : InstructionOperand) : Prop := mkMoveOk {
  move_kinds :
    match InferMove source destination with
    | kRegisterToRegister =>
        is_any_register source = true /\ is_any_register destination = true
        /\ IsRegister destination = IsRegister source
    | kRegisterToStack =>
        is_any_register source = true /\ is_any_register destination = false
    | kStackToRegister =>
        is_any_register source = false /\ is_any_register destination = true
        /\ IsRegister destination = IsStackSlot source
    | kStackToStack =>
        is_any_register source = false /\ is_any_register destination = false
    | _ => False
    end;
  move_scratch : kScratchRegister <> rsp /\ kScratchRegister <> rbp
}.

(** [AssembleMove] moves its source to its destination: afterwards the
    destination holds the low word of the source -- its low 32 bits, zero
    extended, where the move is made with a 32 bit instruction -- and, where
    the move is made with a 128 bit instruction, also its high word; no
    other general purpose register but the scratch register, no other XMM
    register but the scratch register and no other word of memory has
    changed. *)
Theorem AssembleMove_moves (gen : CodeGenerator) (source destination : InstructionOperand)
    (m : Machine) :
  trace_turbo_stack_accesses = false ->
  move_ok source destination ->
  exists code m',
    AssembleMove gen source destination = Some code
    /\ exec code m = Some m'
    /\ low m' (location gen m destination)
       = (if move_is_32_bit source destination
          then low m (location gen m source) mod 2 ^ 32
          else low m (location gen m source))
    /\ (move_is_128_bit source destination = true ->
        high m' (location gen m destination) = high m (location gen m source))
    /\ (forall r, r <> kScratchRegister -> RegLoc r <> location gen m destination ->
          regs m' r = regs m r)
    /\ (forall x, x <> kScratchDoubleReg -> XmmLoc x <> location gen m destination ->
          xmm m' x = xmm m x)
    /\ (forall a,
          ~ covers (representation source) (location gen m destination) a ->
          mem m' a = mem m a).
Proof.
  intros Htrace [Hkinds [Hs1 Hs2]].
  unfold AssembleMove, move_is_32_bit, move_is_128_bit. rewrite Htrace. cbn [app].
  pose proof (ToOperand_base gen source 0) as Hbs.
  pose proof (ToOperand_base gen destination 0) as Hbd.
  unfold location, covers, is_any_register, is_32_bit, is_kSimd128 in *.
  set (src := ToOperand gen source 0) in *.
  set (dst := ToOperand gen destination 0) in *.
  clearbody src dst. unfold operand_address in *.
  destruct (InferMove source destination); try contradiction.
  - (* register to register *)
    destruct Hkinds as (Hs & Hd & Hsame).
    destruct (IsRegister source) eqn:Hsr; rewrite Hsame in *.
    + destruct (bool_decide (representation destination = kWord32)),
        (bool_decide (representation source = kWord32)); cbn [andb].
      all: eexists _, _; (split; [reflexivity|]); (split; [reflexivity|]).
      all: run_code; split_and!.
      all: try discriminate; try reflexivity.
      all: intros.
      all: eqb_cases.
    + cbn in Hs, Hd. rewrite Hs, Hd in *.
      eexists _, _. split; [reflexivity|]. split; [reflexivity|].
      run_code. split_and!.
      all: try discriminate; try reflexivity.
      all: intros.
      all: eqb_cases.
  - (* register to stack *)
    destruct Hkinds as (Hs & Hd).
    apply orb_false_elim in Hd as [Hd1 Hd2]. rewrite Hd1, Hd2 in *.
    destruct (IsRegister source) eqn:Hsr.
    + eexists _, _. split; [reflexivity|]. split; [reflexivity|].
      run_code. split_and!.
      all: try discriminate; try reflexivity.
      all: intros.
      all: eqb_cases.
      all: try absurd_cover.
    + cbn in Hs. rewrite Hs in *.
      destruct (bool_decide (representation source = kSimd128)) eqn:Hrep;
        [apply bool_decide_eq_true in Hrep|apply bool_decide_eq_false in Hrep];
        cbn [negb andb].
      all: eexists _, _; (split; [reflexivity|]); (split; [reflexivity|]).
      all: run_code; split_and!.
      all: try discriminate; try reflexivity.
      all: intros.
      all: eqb_cases.
      all: try absurd_cover.
  - (* stack to register *)
    destruct Hkinds as (Hs & Hd & Hsame).
    apply orb_false_elim in Hs as [Hs1' Hs2']. rewrite Hs1', Hs2' in *.
    destruct (IsStackSlot source) eqn:Hss; rewrite Hsame in *.
    + destruct code_kind_is_WASM_FUNCTION,
        (bool_decide (representation source = kWord32)),
        (bool_decide (representation source = kCompressed)),
        (bool_decide (representation source = kCompressedPointer)); cbn [andb orb].
      all: eexists _, _; (split; [reflexivity|]); (split; [reflexivity|]).
      all: run_code; split_and!.
      all: try discriminate; try reflexivity.
      all: intros.
      all: eqb_cases.
    + cbn in Hd. rewrite Hd in *.
      destruct (bool_decide (representation source = kSimd128)) eqn:Hrep;
        [apply bool_decide_eq_true in Hrep|apply bool_decide_eq_false in Hrep];
        cbn [negb andb].
      all: eexists _, _; (split; [reflexivity|]); (split; [reflexivity|]).
      all: run_code; split_and!.
      all: try discriminate; try reflexivity.
      all: intros.
      all: eqb_cases.
  - (* stack to stack *)
    destruct Hkinds as (Hs & Hd).
    apply orb_false_elim in Hs as [Hs1' Hs2'].
    apply orb_false_elim in Hd as [Hd1 Hd2]. rewrite Hs1', Hs2', Hd1, Hd2 in *.
    destruct (IsStackSlot source) eqn:Hss.
    + eexists _, _. split; [reflexivity|]. split; [reflexivity|].
      destruct Hbs as [Hbs|Hbs], Hbd as [Hbd|Hbd]; rewrite Hbs, Hbd in *;
        run_code; rewrite ?Hbs, ?Hbd; split_and!.
      all: try discriminate; try reflexivity.
      all: intros.
      all: eqb_cases.
      all: try absurd_cover.
    + destruct (bool_decide (representation source = kSimd128)) eqn:Hrep;
        [apply bool_decide_eq_true in Hrep|apply bool_decide_eq_false in Hrep];
        cbn [negb andb].
      all: eexists _, _; (split; [reflexivity|]); (split; [reflexivity|]).
      all: run_code; split_and!.
      all: try discriminate; try reflexivity.
      all: intros.
      all: eqb_cases.
      all: try absurd_cover.
Qed.

(** ** The temporary location of a move cycle *)

(** What [MoveToTempLocation] and [MoveTempLocationTo] take for granted of
    a value in a general purpose register or a stack slot: the operands are
    general purpose registers or stack slots, the destination is not the
    stack pointer, the scratch register is neither the stack nor the frame
    pointer, and the operand made for the scratch register is this register,
    with moves to and from it classified accordingly. *)
Record temp_ok (source dest : InstructionOperand) : Prop := mkTempOk {
  temp_general : IsFloatingPoint (representation source) = false;
  temp_source : IsRegister source = false -> IsStackSlot source = true;
  temp_dest : IsRegister dest = false -> IsStackSlot dest = true;
  temp_dest_register : IsRegister dest = true -> ToRegister dest <> rsp;
  temp_scratch : kScratchRegister <> rsp /\ kScratchRegister <> rbp;
  temp_scratch_is_register :
    IsRegister (scratch_operand (representation source)) = true;
  temp_scratch_register :
    ToRegister (scratch_operand (representation source)) = kScratchRegister;
  temp_scratch_representation :
    representation (scratch_operand (representation source)) = representation source;
  temp_to_scratch :
    InferMove source (scratch_operand (representation source))
    = (if IsRegister source then kRegisterToRegister else kStackToRegister);
  temp_from_scratch :
    InferMove (scratch_operand (representation source)) dest
    = (if IsRegister dest then kRegisterToRegister else kRegisterToStack)
}.

(** What the code between the two must keep: the stack and the frame
    pointer and the temporary location, which is the scratch register when
    it is available and the top of the stack otherwise. *)
Definition temp_preserved (gen : CodeGenerator) (rep : MachineRepresentation)
    (m1 m2 : Machine) : Prop :=
  regs m2 rsp = regs m1 rsp /\ regs m2 rbp = regs m1 rbp
  /\ if scratch_available gen rep
     then regs m2 kScratchRegister = regs m1 kScratchRegister
     else mem m2 (regs m1 rsp) = mem m1 (regs m1 rsp).

(** The location of a general purpose operand. *)
Definition word_location (gen : CodeGenerator) (m : Machine) (op : InstructionOperand)
    : Location :=
  if IsRegister op then RegLoc (ToRegister op)
  else MemLoc (operand_address m (ToOperand gen op 0)).

Lemma mod_mod_32 (v : Z) : (v mod 2 ^ 32) mod 2 ^ 32 = v mod 2 ^ 32.
Proof. apply Z.mod_mod. lia. Qed.

Section TempLocation.

Variable gen : CodeGenerator.
Variables source dest : InstructionOperand.
Hypothesis Htrace : trace_turbo_stack_accesses = false.
Hypothesis Hok : temp_ok source dest.

Lemma scratch_is_not_rsp : Nat.eqb rsp kScratchRegister = false.
Proof. apply Nat.eqb_neq. destruct (temp_scratch _ _ Hok). congruence. Qed.

Lemma scratch_is_not_rbp : Nat.eqb rbp kScratchRegister = false.
Proof. apply Nat.eqb_neq. destruct (temp_scratch _ _ Hok). congruence. Qed.

(** The move into the scratch register. *)
Lemma move_to_scratch (m : Machine) :
  exists code1 m1,
    AssembleMove gen source (scratch_operand (representation source)) = Some code1
    /\ exec code1 m = Some m1
    /\ regs m1 rsp = regs m rsp /\ regs m1 rbp = regs m rbp
    /\ regs m1 kScratchRegister mod 2 ^ 32
       = low m (word_location gen m source) mod 2 ^ 32
    /\ (is_32_bit (representation source) = false ->
        regs m1 kScratchRegister = low m (word_location gen m source)).
Proof.
  destruct Hok as [Hgen Hsrc Hdst Hdreg [Hs1 Hs2] Hsr Hsreg Hsrep Hto Hfrom].
  pose proof scratch_is_not_rsp as E1. pose proof scratch_is_not_rbp as E2.
  unfold AssembleMove. rewrite Htrace, Hto, Hsrep, Hsreg. cbn [app].
  unfold word_location, is_32_bit.
  destruct (IsRegister source) eqn:Hrs.
  - destruct (bool_decide (representation source = kWord32)); cbn [andb orb].
    all: eexists _, _; (split; [reflexivity|]); (split; [reflexivity|]).
    all: run_code; rewrite E1, E2, Nat.eqb_refl, ?mod_mod_32; split_and!.
    all: try reflexivity; try discriminate.
  - rewrite (Hsrc eq_refl).
    destruct code_kind_is_WASM_FUNCTION,
      (bool_decide (representation source = kWord32)),
      (bool_decide (representation source = kCompressed)),
      (bool_decide (representation source = kCompressedPointer)); cbn [andb orb].
    all: eexists _, _; (split; [reflexivity|]); (split; [reflexivity|]).
    all: run_code; rewrite E1, E2, Nat.eqb_refl, ?mod_mod_32; split_and!.
    all: try reflexivity; try discriminate.
Qed.

(** The move out of the scratch register. *)
Lemma move_from_scratch (m m2 : Machine) :
  regs m2 rsp = regs m rsp -> regs m2 rbp = regs m rbp ->
  exists code2 m3,
    AssembleMove gen (scratch_operand (representation source)) dest = Some code2
    /\ exec code2 m2 = Some m3
    /\ regs m3 rsp = regs m rsp
    /\ low m3 (word_location gen m dest) mod 2 ^ 32 = regs m2 kScratchRegister mod 2 ^ 32
    /\ (is_32_bit (representation source) = false ->
        low m3 (word_location gen m dest) = regs m2 kScratchRegister)
    /\ (forall r, r <> rsp -> RegLoc r <> word_location gen m dest ->
          regs m3 r = regs m2 r)
    /\ (forall x, xmm m3 x = xmm m2 x)
    /\ (forall a, MemLoc a <> word_location gen m dest -> mem m3 a = mem m2 a).
Proof.
  intros Hsp Hbp.
  destruct Hok as [Hgen Hsrc Hdst Hdreg [Hs1 Hs2] Hsr Hsreg Hsrep Hto Hfrom].
  assert (Haddr : operand_address m2 (ToOperand gen dest 0)
                  = operand_address m (ToOperand gen dest 0)).
  { apply operand_address_eq; assumption. }
  unfold AssembleMove. rewrite Htrace, Hfrom, Hsr, Hsrep, Hsreg. cbn [app].
  unfold word_location, is_32_bit.
  destruct (IsRegister dest) eqn:Hrd.
  - specialize (Hdreg eq_refl).
    destruct (bool_decide (representation dest = kWord32)),
      (bool_decide (representation source = kWord32)) eqn:H32; cbn [andb orb].
    all: eexists _, _; (split; [reflexivity|]); (split; [reflexivity|]).
    all: cbn [exec exec_instr regs xmm mem set_reg set_xmm store low high];
      rewrite ?Nat.eqb_refl, ?mod_mod_32; split_and!.
    all: try reflexivity; try discriminate.
    all: intros.
    all: eqb_cases.
  - eexists _, _. split; [reflexivity|]. split; [reflexivity|].
    cbn [exec exec_instr regs xmm mem set_reg set_xmm store low high].
    rewrite Haddr, Z.eqb_refl. split_and!.
    all: try reflexivity; try assumption.
    all: intros.
    all: eqb_cases.
Qed.

(** The value pushed. *)
Lemma push_to_stack (m : Machine) :
  exists code1 gen1 slot m1,
    Push gen source = Some (code1, gen1, slot)
    /\ exec code1 m = Some m1
    /\ sp_delta gen1 = sp_delta gen + ElementSizeInPointers (representation source)
    /\ temp_slots_ gen1 = temp_slots_ gen + ElementSizeInPointers (representation source)
    /\ move_cycle_ gen1 = move_cycle_ gen
    /\ regs m1 rsp = regs m rsp - 8 /\ regs m1 rbp = regs m rbp
    /\ mem m1 (regs m1 rsp) = low m (word_location gen m source).
Proof.
  destruct Hok as [Hgen Hsrc Hdst Hdreg [Hs1 Hs2] Hsr Hsreg Hsrep Hto Hfrom].
  unfold Push, word_location.
  destruct (IsRegister source) eqn:Hrs.
  - eexists _, _, _, _. split; [reflexivity|]. split; [reflexivity|].
    cbn [sp_delta temp_slots_ move_cycle_ set_temp_slots IncreaseSPDelta].
    run_code. split_and!; try reflexivity; eqb_cases.
  - rewrite (Hsrc eq_refl). cbn [orb].
    eexists _, _, _, _. split; [reflexivity|]. split; [reflexivity|].
    cbn [sp_delta temp_slots_ move_cycle_ set_temp_slots IncreaseSPDelta].
    run_code. split_and!; try reflexivity; eqb_cases.
Qed.

(** The value popped. *)
Lemma pop_from_stack (gen1 : CodeGenerator) (m m2 : Machine) :
  sp_delta gen1 = sp_delta gen + ElementSizeInPointers (representation source) ->
  regs m2 rsp = regs m rsp - 8 -> regs m2 rbp = regs m rbp ->
  exists code2 gen2 m3,
    Pop gen1 dest (representation source) = Some (code2, gen2)
    /\ exec code2 m2 = Some m3
    /\ sp_delta gen2 = sp_delta gen
    /\ temp_slots_ gen2
       = temp_slots_ gen1 - ElementSizeInPointers (representation source)
    /\ regs m3 rsp = regs m rsp
    /\ low m3 (word_location gen m dest) = mem m2 (regs m2 rsp)
    /\ (forall r, r <> rsp -> RegLoc r <> word_location gen m dest ->
          regs m3 r = regs m2 r)
    /\ (forall x, xmm m3 x = xmm m2 x)
    /\ (forall a, MemLoc a <> word_location gen m dest -> mem m3 a = mem m2 a).
Proof.
  intros Hdelta Hsp Hbp.
  destruct Hok as [Hgen Hsrc Hdst Hdreg [Hs1 Hs2] Hsr Hsreg Hsrep Hto Hfrom].
  unfold Pop, word_location.
  destruct (IsRegister dest) eqn:Hrd.
  - specialize (Hdreg eq_refl).
    eexists _, _, _. split; [reflexivity|]. split; [reflexivity|].
    cbn [sp_delta temp_slots_ move_cycle_ set_temp_slots IncreaseSPDelta].
    run_code. split_and!; try reflexivity; intros; eqb_cases.
  - rewrite (Hdst eq_refl). cbn [orb].
    assert (Hop : ToOperand (IncreaseSPDelta (- ElementSizeInPointers (representation source))
                               gen1) dest 0
                  = ToOperand gen dest 0).
    { unfold ToOperand, SlotToOperand. cbn [sp_delta IncreaseSPDelta].
      replace (sp_delta gen1 + - ElementSizeInPointers (representation source))
        with (sp_delta gen) by lia.
      reflexivity. }
    rewrite Hop.
    pose proof (ToOperand_base gen dest 0) as Hbd.
    eexists _, _, _. split; [reflexivity|]. split; [reflexivity|].
    cbn [sp_delta temp_slots_ move_cycle_ set_temp_slots IncreaseSPDelta].
    run_code.
    destruct Hbd as [Hbd|Hbd]; rewrite Hbd; cbn [Nat.eqb rsp rbp].
    all: split_and!; try reflexivity; intros; eqb_cases.
    all: exfalso; match goal with H : MemLoc _ <> MemLoc _ |- _ => apply H; f_equal; lia end.
Qed.

(** A value goes through the temporary location of a move cycle.
    [MoveToTempLocation] runs and keeps the move cycle state; after any code
    that keeps the stack pointer, the frame pointer and the temporary
    location, [MoveTempLocationTo] runs and leaves in the destination the
    word that the source held (its low 32 bits at least, and all of it
    unless the representation is a 32 bit one), whether the temporary
    location is the scratch register or, when a move of the cycle needs
    this register, the stack.  The stack pointer, the SP delta and
    [temp_slots_] are as they were before the two, the move cycle state is
    cleared, and [MoveTempLocationTo] changes nothing but the stack pointer
    and the destination. *)
Theorem temp_location_round_trip (m : Machine) :
  exists code1 gen1 m1,
    MoveToTempLocation gen source = Some (code1, gen1)
    /\ exec code1 m = Some m1
    /\ move_cycle_ gen1 = move_cycle_ gen
    /\ forall m2,
         temp_preserved gen (representation source) m1 m2 ->
         exists code2 gen2 m3,
           MoveTempLocationTo gen1 dest (representation source) = Some (code2, gen2)
           /\ exec code2 m2 = Some m3
           /\ sp_delta gen2 = sp_delta gen
           /\ temp_slots_ gen2 = temp_slots_ gen
           /\ move_cycle_ gen2 = mkMoveCycleState false false
           /\ regs m3 rsp = regs m rsp
           /\ low m3 (word_location gen m dest) mod 2 ^ 32
              = low m (word_location gen m source) mod 2 ^ 32
           /\ (is_32_bit (representation source) = false ->
               low m3 (word_location gen m dest) = low m (word_location gen m source))
           /\ (forall r, r <> rsp -> RegLoc r <> word_location gen m dest ->
                 regs m3 r = regs m2 r)
           /\ (forall x, xmm m3 x = xmm m2 x)
           /\ (forall a, MemLoc a <> word_location gen m dest -> mem m3 a = mem m2 a).
Proof.
  pose proof (temp_general _ _ Hok) as Hgen.
  unfold MoveToTempLocation, MoveTempLocationTo, temp_preserved.
  destruct (scratch_available gen (representation source)) eqn:Havailable.
  - (* the scratch register *)
    destruct (move_to_scratch m) as (code1 & m1 & Hcode1 & Hexec1 & Hsp1 & Hbp1 & Hlow1 & Hexact1).
    exists code1, gen, m1. rewrite Hcode1. split; [reflexivity|].
    split; [exact Hexec1|]. split; [reflexivity|].
    intros m2 (Hsp & Hbp & Htemp). rewrite Havailable.
    rewrite Hsp1 in Hsp. rewrite Hbp1 in Hbp.
    destruct (move_from_scratch m m2 Hsp Hbp)
      as (code2 & m3 & Hcode2 & Hexec2 & Hsp3 & Hlow3 & Hexact3 & Hregs3 & Hxmm3 & Hmem3).
    rewrite Hcode2. eexists _, _, m3. split; [reflexivity|]. split; [exact Hexec2|].
    cbn [sp_delta temp_slots_ move_cycle_].
    split_and!; try reflexivity; try assumption.
    + rewrite Hlow3, Htemp. exact Hlow1.
    + intros H32. rewrite (Hexact3 H32), Htemp. exact (Hexact1 H32).
  - (* the stack *)
    destruct (push_to_stack m)
      as (code1 & gen1 & slot & m1 & Hcode1 & Hexec1 & Hdelta1 & Hslots1 & Hcycle1
          & Hsp1 & Hbp1 & Htop1).
    exists code1, gen1, m1. rewrite Hcode1. split; [reflexivity|].
    split; [exact Hexec1|]. split; [exact Hcycle1|].
    intros m2 (Hsp & Hbp & Htemp).
    assert (Havailable1 : scratch_available gen1 (representation source) = false).
    { unfold scratch_available in *. rewrite Hcycle1. exact Havailable. }
    rewrite Havailable1.
    rewrite Hsp1 in Hsp. rewrite Hbp1 in Hbp.
    destruct (pop_from_stack gen1 m m2 Hdelta1 Hsp Hbp)
      as (code2 & gen2 & m3 & Hcode2 & Hexec2 & Hdelta2 & Hslots2 & Hsp3 & Hlow3
          & Hregs3 & Hxmm3 & Hmem3).
    rewrite Hcode2. eexists _, _, m3. split; [reflexivity|]. split; [exact Hexec2|].
    cbn [sp_delta temp_slots_ move_cycle_].
    assert (Hvalue : low m3 (word_location gen m dest) = low m (word_location gen m source)).
    { rewrite Hlow3, Hsp, <- Hsp1, Htemp. exact Htop1. }
    split_and!; try reflexivity; try assumption.
    + lia.
    + rewrite Hvalue. reflexivity.
    + intros _. exact Hvalue.
Qed.

End TempLocation.
End Moves.

(** ** Instances *)

Inductive ExampleRepresentation :=
  | eWord32 | eWord64 | eCompressed | eCompressedPointer | eFloat64 | eSimd128.

#[global] Instance ExampleRepresentation_eq_dec : EqDecision ExampleRepresentation.
Proof. solve_decision. Defined.

Inductive ExampleOperand :=
  | ExampleLocation (kind : LocationKind) (rep : ExampleRepresentation) (index : Z)
  | ExampleConstant (type : ConstantType) (value : Z).

Definition example_is_fp (rep : ExampleRepresentation) : bool :=
  match rep with eFloat64 | eSimd128 => true | _ => false end.

Definition example_is_register (op : ExampleOperand) : bool :=
  match op with ExampleLocation REGISTER _ _ => true | _ => false end.

Definition example_is_slot (op : ExampleOperand) : bool :=
  match op with ExampleLocation STACK_SLOT _ _ => true | _ => false end.

Definition example_representation (op : ExampleOperand) : ExampleRepresentation :=
  match op with ExampleLocation _ rep _ => rep | ExampleConstant _ _ => eWord64 end.

Definition example_index (op : ExampleOperand) : Z :=
  match op with ExampleLocation _ _ index => index | ExampleConstant _ _ => 0 end.

Definition example_InferMove (source destination : ExampleOperand) : MoveType :=
  match source with
  | ExampleConstant _ _ =>
      if example_is_register destination then kConstantToRegister else kConstantToStack
  | ExampleLocation _ _ _ =>
      if example_is_register source then
        if example_is_register destination then kRegisterToRegister else kRegisterToStack
      else
        if example_is_register destination then kStackToRegister else kStackToStack
  end.

(** Six frame slots, addressed from the stack pointer; [r10] and [xmm15]
    are the scratch registers. *)
#[global] Instance example_backend : Backend := {|
  kSystemPointerSize := 8;
  kScratchRegister := 10%nat;
  kScratchDoubleReg := 15%nat;
  MachineRepresentation := ExampleRepresentation;
  kWord32 := eWord32;
  kCompressed := eCompressed;
  kCompressedPointer := eCompressedPointer;
  kSimd128 := eSimd128;
  IsFloatingPoint := example_is_fp;
  ElementSizeInPointers := fun rep => match rep with eSimd128 => 2 | _ => 1 end;
  Constant := ConstantType * Z;
  constant_type := fst;
  IsWasmReference := fun _ => false;
  ToInt32 := snd;
  RootIndex := nat;
  IsMaterializableFromRoot := fun _ => None;
  InstructionOperand := ExampleOperand;
  IsRegister := fun op =>
    example_is_register op && negb (example_is_fp (example_representation op));
  IsFPRegister := fun op =>
    example_is_register op && example_is_fp (example_representation op);
  IsStackSlot := fun op =>
    example_is_slot op && negb (example_is_fp (example_representation op));
  IsFPStackSlot := fun op =>
    example_is_slot op && example_is_fp (example_representation op);
  IsFloatStackSlot := fun _ => false;
  IsDoubleStackSlot := fun op =>
    example_is_slot op && bool_decide (example_representation op = eFloat64);
  IsAnyStackSlot := example_is_slot;
  IsFPLocationOperand := fun op => example_is_fp (example_representation op);
  representation := example_representation;
  index := example_index;
  AllocatedOperand := ExampleLocation;
  ToRegister := fun op => Z.to_nat (example_index op);
  ToDoubleRegister := fun op => Z.to_nat (example_index op);
  ToConstant := fun op =>
    match op with ExampleConstant type value => (type, value) | _ => (kInt32, 0) end;
  InferMove := example_InferMove;
  InferSwap := example_InferMove;
  trace_turbo_stack_accesses := false;
  counts_stack_accesses := false;
  code_kind_is_WASM_FUNCTION := true;
  GetTotalFrameSlotCount := 6;
  GetFrameOffset := fun sp_delta slot => mkFrameOffset true (8 * (sp_delta + 5 - slot))
|}.

Definition example_exec_macro : MacroCall -> Machine -> option Machine :=
  fun _ _ => None.

Definition example_gen : CodeGenerator :=
  mkCodeGenerator 0 0 (mkMoveCycleState false false).

(** The scratch register is in use by a move of the cycle. *)
Definition pending_gen : CodeGenerator :=
  mkCodeGenerator 0 0 (mkMoveCycleState true false).

Definition example_machine : Machine :=
  mkMachine (fun r => 1000 + 8 * Z.of_nat r) (fun x => (Z.of_nat x, 7)) (fun a => a + 1).

Definition slot (rep : ExampleRepresentation) (index : Z) : ExampleOperand :=
  ExampleLocation STACK_SLOT rep index.

Definition register (rep : ExampleRepresentation) (code : Z) : ExampleOperand :=
  ExampleLocation REGISTER rep code.

Lemma example_swap_ok :
  swap_ok example_gen example_machine (slot eSimd128 1) (slot eSimd128 4).
Proof.
  split.
  - cbn. auto.
  - split; discriminate.
  - intros op [->| ->]; discriminate.
  - intros op [->| ->]; discriminate.
  - intros op [->| ->] _; vm_compute; discriminate.
  - intros _ _ _. split; [reflexivity|]. right. right. vm_compute. discriminate.
Qed.

Lemma AssembleSwap_exchanges_witness :
  exists code m',
    AssembleSwap example_gen (slot eSimd128 1) (slot eSimd128 4) = Some code
    /\ exec example_exec_macro code example_machine = Some m'
    /\ low m' (location example_gen example_machine (slot eSimd128 1))
       = low example_machine (location example_gen example_machine (slot eSimd128 4))
    /\ low m' (location example_gen example_machine (slot eSimd128 4))
       = low example_machine (location example_gen example_machine (slot eSimd128 1))
    /\ (IsRegister (slot eSimd128 1) = false ->
        representation (slot eSimd128 1) = kSimd128
        \/ IsFPRegister (slot eSimd128 4) = true ->
        high m' (location example_gen example_machine (slot eSimd128 1))
        = high example_machine (location example_gen example_machine (slot eSimd128 4))
        /\ high m' (location example_gen example_machine (slot eSimd128 4))
           = high example_machine
               (location example_gen example_machine (slot eSimd128 1)))
    /\ (forall r, r <> kScratchRegister ->
          RegLoc r <> location example_gen example_machine (slot eSimd128 1) ->
          RegLoc r <> location example_gen example_machine (slot eSimd128 4) ->
          regs m' r = regs example_machine r)
    /\ (forall x, x <> kScratchDoubleReg ->
          XmmLoc x <> location example_gen example_machine (slot eSimd128 1) ->
          XmmLoc x <> location example_gen example_machine (slot eSimd128 4) ->
          xmm m' x = xmm example_machine x)
    /\ (forall a, regs example_machine rsp <= a ->
          ~ covers (representation (slot eSimd128 1))
              (location example_gen example_machine (slot eSimd128 1)) a ->
          ~ covers (representation (slot eSimd128 1))
              (location example_gen example_machine (slot eSimd128 4)) a ->
          mem m' a = mem example_machine a).
Proof.
  apply (AssembleSwap_exchanges example_exec_macro example_gen (slot eSimd128 1)
           (slot eSimd128 4) example_machine).
  - reflexivity.
  - exact example_swap_ok.
Defined.

Lemma example_move_ok : move_ok (slot eWord32 2) (register eWord32 3).
Proof. split; [cbn; auto|split; discriminate]. Qed.

Lemma AssembleMove_moves_witness :
  exists code m',
    AssembleMove example_gen (slot eWord32 2) (register eWord32 3) = Some code
    /\ exec example_exec_macro code example_machine = Some m'
    /\ low m' (location example_gen example_machine (register eWord32 3))
       = (if move_is_32_bit (slot eWord32 2) (register eWord32 3)
          then low example_machine
                 (location example_gen example_machine (slot eWord32 2)) mod 2 ^ 32
          else low example_machine
                 (location example_gen example_machine (slot eWord32 2)))
    /\ (move_is_128_bit (slot eWord32 2) (register eWord32 3) = true ->
        high m' (location example_gen example_machine (register eWord32 3))
        = high example_machine (location example_gen example_machine (slot eWord32 2)))
    /\ (forall r, r <> kScratchRegister ->
          RegLoc r <> location example_gen example_machine (register eWord32 3) ->
          regs m' r = regs example_machine r)
    /\ (forall x, x <> kScratchDoubleReg ->
          XmmLoc x <> location example_gen example_machine (register eWord32 3) ->
          xmm m' x = xmm example_machine x)
    /\ (forall a,
          ~ covers (representation (slot eWord32 2))
              (location example_gen example_machine (register eWord32 3)) a ->
          mem m' a = mem example_machine a).
Proof.
  apply (AssembleMove_moves example_exec_macro example_gen (slot eWord32 2)
           (register eWord32 3) example_machine).
  - reflexivity.
  - exact example_move_ok.
Defined.

Lemma example_temp_ok : temp_ok (slot eWord64 1) (slot eWord64 4).
Proof.
  split; try reflexivity; try discriminate.
  split; discriminate.
Qed.

Lemma temp_location_round_trip_witness :
  exists code1 gen1 m1,
    MoveToTempLocation pending_gen (slot eWord64 1) = Some (code1, gen1)
    /\ exec example_exec_macro code1 example_machine = Some m1
    /\ move_cycle_ gen1 = move_cycle_ pending_gen
    /\ forall m2,
         temp_preserved pending_gen (representation (slot eWord64 1)) m1 m2 ->
         exists code2 gen2 m3,
           MoveTempLocationTo gen1 (slot eWord64 4) (representation (slot eWord64 1))
           = Some (code2, gen2)
           /\ exec example_exec_macro code2 m2 = Some m3
           /\ sp_delta gen2 = sp_delta pending_gen
           /\ temp_slots_ gen2 = temp_slots_ pending_gen
           /\ move_cycle_ gen2 = mkMoveCycleState false false
           /\ regs m3 rsp = regs example_machine rsp
           /\ low m3 (word_location pending_gen example_machine (slot eWord64 4))
                mod 2 ^ 32
              = low example_machine
                  (word_location pending_gen example_machine (slot eWord64 1)) mod 2 ^ 32
           /\ (is_32_bit (representation (slot eWord64 1)) = false ->
               low m3 (word_location pending_gen example_machine (slot eWord64 4))
               = low example_machine
                   (word_location pending_gen example_machine (slot eWord64 1)))
           /\ (forall r, r <> rsp ->
                 RegLoc r <> word_location pending_gen example_machine (slot eWord64 4) ->
                 regs m3 r = regs m2 r)
           /\ (forall x, xmm m3 x = xmm m2 x)
           /\ (forall a,
                 MemLoc a <> word_location pending_gen example_machine (slot eWord64 4) ->
                 mem m3 a = mem m2 a).
Proof.
  apply (temp_location_round_trip example_exec_macro pending_gen (slot eWord64 1)
           (slot eWord64 4) eq_refl example_temp_ok example_machine).
Defined.

End GapMoves.

(* ===================================================================== *)
(** * The exception handler trampoline
    ([ExceptionHandlerTrampolineBuilder], [maglev-code-generator.cc],
    l. 426-595) *)
(* ===================================================================== *)

Module ExceptionHandlerTrampoline.

Import ParallelMoveResolver.

(** The cases of the switch of [RecordMoves]. *)
Inductive ValueRepresentation := kTagged | kInt32 | kUint32 | kFloat64 | kWord64.

Section Trampoline.

(** [ValueNode], [interpreter::Register] and [Label] are declared outside
    this file, as are the allocation, the value representation and the
    opcode of a node, of which [IsConstantNode] is read. *)
Variable ValueNode : Type.
Variable InterpreterRegister : Type.
Context `{EqDecision InterpreterRegister}.
Variable virtual_accumulator : InterpreterRegister.
Variable Label : Type.
Variable allocation : ValueNode -> InstructionOperand.
Variable value_representation : ValueNode -> ValueRepresentation.
Variable IsConstantNode : ValueNode -> bool.

(** The general purpose registers of the resolver, and the register of the
    accumulator. *)
Variable kScratchRegister : RegisterT.
Variable kAllocatableRegistersT : list RegisterT.
Variable kNumRegisters : nat.
Variable begin : gmap Z GapMoveTargets -> option Z.
Variable kReturnRegister0 : RegisterT.

(** An exception phi, as far as [RecordMoves] reads it: [result] is
    [result().operand()]. *)
Record Phi := mkPhi {
  has_valid_live_range : bool;
  owner : InterpreterRegister;
  result : AllocatedOperand
}.

Record BasicBlock := mkBasicBlock {
  phis : list Phi;
  label : Label
}.

Record ExceptionHandlerInfo := mkExceptionHandlerInfo {
  catch_block : BasicBlock;
  trampoline_entry : Label
}.

(** [struct Move]. *)
Record Move := mkMove {
  target : AllocatedOperand;
  source : ValueNode
}.

(** The instructions of the trampoline: those that the resolver emits as
    well, and [BindJumpTarget], [MaterialiseValueNode],
    [Move(ToMemOperand(operand), reg)] and [Jump]. *)
Inductive TrampolineInstr :=
  | Plain (i : Instr ValueNode)
  | BindJumpTarget (l : Label)
  | MaterialiseValueNode (dst : RegisterT) (node : ValueNode)
  | MoveToMemOperand (operand : AllocatedOperand) (src : RegisterT)
  | Jump (l : Label).

(** ** [RecordMoves] *)

(** The body of the loop over the phis of the catch block, on
    [direct_moves], [materialising_moves] and [save_accumulator];
    [register_frame] is [register_frame->GetValueOf(_, unit)], and [None] is
    [UNREACHABLE()]. *)
Definition record_phi (register_frame : InterpreterRegister -> ValueNode)
    (acc : option (Resolver ValueNode * list Move * bool)) (phi : Phi)
    : option (Resolver ValueNode * list Move * bool) :=
  '(direct_moves, materialising_moves, save_accumulator) ← acc;
  if negb (has_valid_live_range phi) then
    Some (direct_moves, materialising_moves, save_accumulator)
  else
    let target := result phi in
    if decide (owner phi = virtual_accumulator) then
      Some (direct_moves, materialising_moves, true)
    else
      let source := register_frame (owner phi) in
      match value_representation source with
      | kWord64 => None
      | kTagged =>
          Some (RecordMove ValueNode source (allocation source) target direct_moves,
                materialising_moves, save_accumulator)
      | kInt32 | kUint32 =>
          Some (direct_moves, materialising_moves ++ [mkMove target source],
                save_accumulator)
      | kFloat64 =>
          Some (direct_moves, materialising_moves ++ [mkMove target source],
                save_accumulator)
      end.

Definition RecordMoves (catch_block : BasicBlock)
    (register_frame : InterpreterRegister -> ValueNode)
    (direct_moves : Resolver ValueNode) (materialising_moves : list Move)
    (save_accumulator : bool) : option (Resolver ValueNode * list Move * bool) :=
  foldl (record_phi register_frame)
    (Some (direct_moves, materialising_moves, save_accumulator)) (phis catch_block).

(** ** [EmitMaterialisationsAndPushResults] and [EmitPopMaterialisedResults] *)

Definition push_result (move : Move) : list TrampolineInstr :=
  if IsConstantNode (source move) then []
  else [MaterialiseValueNode kReturnRegister0 (source move);
        Plain (PushReg kReturnRegister0)].

Definition EmitMaterialisationsAndPushResults (moves : list Move)
    (save_accumulator : bool) : list TrampolineInstr :=
  match moves with
  | [] => []
  | _ :: _ =>
      Plain (RecordComment "EmitMaterialisationsAndPushResults")
      :: (if save_accumulator then [Plain (PushReg kReturnRegister0)] else [])
      ++ flat_map push_result moves
  end.

Definition pop_result (move : Move) : list TrampolineInstr :=
  let target_reg :=
    match target move with
    | Reg r => r
    | Slot _ => kScratchRegister
    end in
  (if IsConstantNode (source move)
   then [MaterialiseValueNode target_reg (source move)]
   else [Plain (PopReg target_reg)])
  ++ (if decide (target_reg = kScratchRegister)
      then [MoveToMemOperand (target move) kScratchRegister]
      else []).

Definition EmitPopMaterialisedResults (moves : list Move) (save_accumulator : bool)
    : list TrampolineInstr :=
  match moves with
  | [] => []
  | _ :: _ =>
      Plain (RecordComment "EmitPopMaterialisedResults")
      :: flat_map pop_result (reverse moves)
      ++ (if save_accumulator then [Plain (PopReg kReturnRegister0)] else [])
  end.

(** ** [EmitTrampolineFor] *)

(** [register_frame] is the frame state of the interpreted frame of the
    lazy deopt of the node. *)
Definition EmitTrampolineFor (handler_info : ExceptionHandlerInfo)
    (register_frame : InterpreterRegister -> ValueNode)
    : option (list TrampolineInstr) :=
  '(direct_moves, materialising_moves, save_accumulator) ←
    RecordMoves (catch_block handler_info) register_frame
      (new_resolver kNumRegisters) [] false;
  '(_, moves_code) ← EmitMoves kScratchRegister kAllocatableRegistersT begin direct_moves;
  Some ([BindJumpTarget (trampoline_entry handler_info);
         Plain (RecordComment "-- Exception handler trampoline START")]
        ++ EmitMaterialisationsAndPushResults materialising_moves save_accumulator
        ++ [Plain (RecordComment "EmitMoves")]
        ++ (Plain <$> moves_code)
        ++ EmitPopMaterialisedResults materialising_moves save_accumulator
        ++ [Jump (label (catch_block handler_info));
            Plain (RecordComment "-- Exception handler trampoline END")]).

(** ** The machine *)

Variable Value : Type.
Variable node_value : ValueNode -> Value.

(** [MaterialiseValueNode] is declared outside this file: what it does to
    the machine, and the value it makes of a node from the stack slots of
    the frame. *)
Variable materialise : RegisterT -> ValueNode -> Machine Value -> Machine Value.
Variable materialised : ValueNode -> (Z -> Value) -> Value.

(** The code runs up to its [Jump]: the machine there and the label jumped
    to, if any.  [None] is a pop from the empty stack or a register taken
    for a memory operand. *)
Fixpoint exec_trampoline (code : list TrampolineInstr) (m : Machine Value)
    : option (Machine Value * option Label) :=
  match code with
  | [] => Some (m, None)
  | Plain i :: code' =>
      match exec_instr ValueNode Value node_value i m with
      | Some m' => exec_trampoline code' m'
      | None => None
      end
  | BindJumpTarget _ :: code' => exec_trampoline code' m
  | MaterialiseValueNode dst node :: code' => exec_trampoline code' (materialise dst node m)
  | MoveToMemOperand (Slot s) src :: code' =>
      exec_trampoline code' (write Value (Slot s) (reg_file Value m src) m)
  | MoveToMemOperand (Reg _) _ :: _ => None
  | Jump l :: _ => Some (m, Some l)
  end.

(** ** What the trampoline does *)

(** The scratch register is not handed out by the register allocator,
    [begin] of a non-empty map is one of its keys, and every allocatable
    register has a code below [kNumRegisters]. *)
Hypothesis scratch_not_allocatable : kScratchRegister ∉ kAllocatableRegistersT.
Hypothesis begin_spec : forall m : gmap Z GapMoveTargets,
  m <> ∅ -> exists k, begin m = Some k /\ is_Some (m !! k).
Hypothesis allocatable_lt : forall r, r ∈ kAllocatableRegistersT -> (r < kNumRegisters)%nat.

(** What is assumed of [MaterialiseValueNode]: it leaves the value in its
    destination and keeps the stack slots of the frame and the stack; for a
    node that is no constant it calls a builtin, which may change every
    other register; the value of a constant does not depend on the frame. *)
Hypothesis materialise_frame : forall dst node m,
  frame_slots Value (materialise dst node m) = frame_slots Value m.
Hypothesis materialise_stack : forall dst node m,
  native_stack (materialise dst node m) = native_stack m.
Hypothesis materialise_result : forall dst node m,
  reg_file Value (materialise dst node m) dst = materialised node (frame_slots Value m).
Hypothesis materialise_constant : forall dst node m,
  IsConstantNode node = true ->
  forall r, r <> dst -> reg_file Value (materialise dst node m) r = reg_file Value m r.
Hypothesis materialised_constant : forall node slots slots',
  IsConstantNode node = true -> materialised node slots = materialised node slots'.

Section Phis.

Variable register_frame : InterpreterRegister -> ValueNode.

(** The move of an exception phi: none for a phi that is not live and for
    the accumulator, a direct move for a tagged value and a materialising
    move for the others. *)
Definition is_accumulator (phi : Phi) : bool :=
  bool_decide (owner phi = virtual_accumulator).

Definition direct_move (phi : Phi) : option (GapMove ValueNode) :=
  if has_valid_live_range phi && negb (is_accumulator phi) then
    let source := register_frame (owner phi) in
    match value_representation source with
    | kTagged => Some (mkGapMove source (allocation source) (result phi))
    | _ => None
    end
  else None.

Definition materialising_move (phi : Phi) : option Move :=
  if has_valid_live_range phi && negb (is_accumulator phi) then
    let source := register_frame (owner phi) in
    match value_representation source with
    | kInt32 | kUint32 | kFloat64 => Some (mkMove (result phi) source)
    | _ => None
    end
  else None.

Definition saves_accumulator (phi : Phi) : bool :=
  has_valid_live_range phi && is_accumulator phi.

(** The value that an exception phi has to hold in the catch block: the
    accumulator the exception in [kReturnRegister0], a tagged value the
    value of its source, another value the value materialised from its
    source. *)
Definition phi_value (m : Machine Value) (phi : Phi) : Value :=
  if is_accumulator phi then reg_file Value m kReturnRegister0
  else
    let source := register_frame (owner phi) in
    match value_representation source with
    | kTagged =>
        source_value ValueNode Value node_value m
          (mkGapMove source (allocation source) (result phi))
    | _ => materialised source (frame_slots Value m)
    end.

(** What [RecordMoves] takes for granted of the live phis of the catch
    block: their locations are distinct, allocatable registers or stack
    slots, the one of the accumulator is [kReturnRegister0]; the values of
    the other ones are spilled and are no 64 bit words. *)
Record trampoline_ok (block : BasicBlock) : Prop := mkTrampolineOk {
  ok_targets :
    NoDup (result <$> filter (fun phi => has_valid_live_range phi = true) (phis block));
  ok_accumulator : forall phi,
    phi ∈ phis block -> has_valid_live_range phi = true -> is_accumulator phi = true ->
    result phi = Reg kReturnRegister0;
  ok_registers : forall phi r,
    phi ∈ phis block -> has_valid_live_range phi = true -> result phi = Reg r ->
    r ∈ kAllocatableRegistersT;
  ok_spilled : forall phi,
    phi ∈ phis block -> has_valid_live_range phi = true -> is_accumulator phi = false ->
    (forall r, allocation (register_frame (owner phi)) <> RegisterOperand r)
    /\ value_representation (register_frame (owner phi)) <> kWord64
}.

Lemma RecordMoves_moves (l : list Phi) direct_moves materialising_moves save_accumulator :
  (forall phi, phi ∈ l -> has_valid_live_range phi = true -> is_accumulator phi = false ->
     value_representation (register_frame (owner phi)) <> kWord64) ->
  foldl (record_phi register_frame)
    (Some (direct_moves, materialising_moves, save_accumulator)) l
  = Some (record_moves (omap direct_move l) direct_moves,
          materialising_moves ++ omap materialising_move l,
          save_accumulator || existsb saves_accumulator l).
Proof.
  revert direct_moves materialising_moves save_accumulator.
  induction l as [|phi l IH]; intros d ms s Hrep.
  - cbn. rewrite app_nil_r, orb_false_r. reflexivity.
  - assert (Hrep' : forall phi', phi' ∈ l -> has_valid_live_range phi' = true ->
              is_accumulator phi' = false ->
              value_representation (register_frame (owner phi')) <> kWord64).
    { intros phi' Hin. apply Hrep. apply elem_of_cons. right. exact Hin. }
    assert (Hhere : phi ∈ phi :: l) by (apply elem_of_cons; left; reflexivity).
    specialize (Hrep phi Hhere).
    assert (Hstep : record_phi register_frame (Some (d, ms, s)) phi
                    = Some (record_moves (omap direct_move [phi]) d,
                            ms ++ omap materialising_move [phi],
                            s || saves_accumulator phi)).
    { unfold record_phi, direct_move, materialising_move, saves_accumulator,
        is_accumulator in *.
      cbn [mbind option_bind omap list_omap]. cbv beta.
      destruct (has_valid_live_range phi); cbn [negb andb].
      - destruct (decide (owner phi = virtual_accumulator)) as [Hacc|Hacc].
        + rewrite (bool_decide_eq_true_2 _ Hacc). cbn.
          rewrite app_nil_r, orb_true_r. reflexivity.
        + rewrite (bool_decide_eq_false_2 _ Hacc) in *. cbn [negb andb].
          specialize (Hrep eq_refl eq_refl).
          destruct (value_representation (register_frame (owner phi)));
            try contradiction.
          all: cbn; rewrite ?app_nil_r, ?orb_false_r; reflexivity.
      - cbn. rewrite app_nil_r, orb_false_r. reflexivity. }
    cbn [foldl]. rewrite Hstep, IH by exact Hrep'.
    change (phi :: l) with ([phi] ++ l).
    rewrite !omap_app, existsb_app, <- app_assoc.
    unfold record_moves. rewrite foldl_app.
    cbn [existsb]. rewrite orb_false_r, orb_assoc. reflexivity.
Qed.

(** *** The moves of the live phis *)

Definition live (l : list Phi) : list Phi :=
  filter (fun phi => has_valid_live_range phi = true) l.

Lemma direct_move_Some (phi : Phi) (mv : GapMove ValueNode) :
  direct_move phi = Some mv ->
  has_valid_live_range phi = true /\ is_accumulator phi = false
  /\ value_representation (register_frame (owner phi)) = kTagged
  /\ mv = mkGapMove (register_frame (owner phi))
            (allocation (register_frame (owner phi))) (result phi).
Proof.
  unfold direct_move.
  destruct (has_valid_live_range phi), (is_accumulator phi); cbn; try discriminate.
  destruct (value_representation _); try discriminate.
  intros [= <-]. auto.
Qed.

Lemma materialising_move_Some (phi : Phi) (mv : Move) :
  materialising_move phi = Some mv ->
  has_valid_live_range phi = true /\ is_accumulator phi = false
  /\ value_representation (register_frame (owner phi)) <> kTagged
  /\ mv = mkMove (result phi) (register_frame (owner phi)).
Proof.
  unfold materialising_move.
  destruct (has_valid_live_range phi), (is_accumulator phi); cbn; try discriminate.
  destruct (value_representation _); try discriminate.
  all: intros [= <-]; split_and!; auto; discriminate.
Qed.

(** The targets of a choice of moves of the phis are among the locations
    of the live phis, in their order. *)
Lemma targets_sublist {A} (g : Phi -> option A) (p : A -> Loc) (l : list Phi) :
  (forall phi a, g phi = Some a -> has_valid_live_range phi = true /\ p a = result phi) ->
  (p <$> omap g l) `sublist_of` (result <$> live l).
Proof.
  intros Hg. unfold live. induction l as [|phi l IH]; [constructor|].
  cbn [omap list_omap]. destruct (g phi) as [a|] eqn:Ha.
  - destruct (Hg phi a Ha) as [Hlive Hp].
    rewrite filter_cons_True by exact Hlive.
    cbn [fmap list_fmap]. rewrite Hp. apply sublist_skip. exact IH.
  - destruct (has_valid_live_range phi) eqn:Hlive.
    + rewrite filter_cons_True by exact Hlive. cbn [fmap list_fmap].
      apply sublist_cons. exact IH.
    + rewrite filter_cons_False by (rewrite Hlive; discriminate). exact IH.
Qed.

Lemma NoDup_fmap_elem {A B} (f : A -> B) (l : list A) (x y : A) :
  NoDup (f <$> l) -> x ∈ l -> y ∈ l -> f x = f y -> x = y.
Proof.
  induction l as [|z l IH]; intros Hnd Hx Hy Hf; [inversion Hx|].
  cbn in Hnd. apply NoDup_cons in Hnd as [Hz Hnd].
  apply elem_of_cons in Hx as [->|Hx], Hy as [->|Hy]; auto.
  - exfalso. apply Hz. rewrite Hf. apply list_elem_of_fmap. exists y. auto.
  - exfalso. apply Hz. rewrite <- Hf. apply list_elem_of_fmap. exists x. auto.
Qed.

Lemma elem_of_live (l : list Phi) (phi : Phi) :
  phi ∈ live l <-> phi ∈ l /\ has_valid_live_range phi = true.
Proof. unfold live. rewrite list_elem_of_filter. tauto. Qed.

(** Two live phis in the same location are the same phi. *)
Lemma live_result_inj (l : list Phi) (phi phi' : Phi) :
  NoDup (result <$> live l) ->
  phi ∈ l -> has_valid_live_range phi = true ->
  phi' ∈ l -> has_valid_live_range phi' = true ->
  result phi = result phi' -> phi = phi'.
Proof.
  intros Hnd Hin Hlive Hin' Hlive' Heq.
  apply (NoDup_fmap_elem result (live l)); auto; apply elem_of_live; auto.
Qed.

(** *** The code runs *)

Lemma exec_trampoline_Plain (code : list (Instr ValueNode)) (rest : list TrampolineInstr)
    (m : Machine Value) :
  exec_trampoline ((Plain <$> code) ++ rest) m
  = match exec node_value code m with
    | Some m' => exec_trampoline rest m'
    | None => None
    end.
Proof.
  revert m. induction code as [|i code IH]; intros m; [reflexivity|].
  cbn. destruct (exec_instr ValueNode Value node_value i m); [apply IH|reflexivity].
Qed.

(** The values that [EmitMaterialisationsAndPushResults] pushes for a list
    of moves, in the order of the list. *)
Definition pushed_values (slots : Z -> Value) (moves : list Move) : list Value :=
  omap (fun move =>
          if IsConstantNode (source move) then None
          else Some (materialised (source move) slots)) moves.

Lemma pushed_values_reverse slots moves :
  pushed_values slots (reverse moves) = reverse (pushed_values slots moves).
Proof.
  unfold pushed_values. induction moves as [|mv moves IH]; [reflexivity|].
  rewrite reverse_cons, omap_app, IH. cbn [omap list_omap].
  destruct (IsConstantNode (source mv)).
  - rewrite app_nil_r. reflexivity.
  - rewrite reverse_cons. reflexivity.
Qed.

Lemma exec_push_results (moves : list Move) (rest : list TrampolineInstr)
    (m : Machine Value) :
  exists m',
    exec_trampoline (flat_map push_result moves ++ rest) m = exec_trampoline rest m'
    /\ frame_slots Value m' = frame_slots Value m
    /\ native_stack m'
       = reverse (pushed_values (frame_slots Value m) moves) ++ native_stack m.
Proof.
  revert m. induction moves as [|mv moves IH]; intros m.
  - exists m. split_and!; reflexivity.
  - cbn [flat_map]. unfold push_result at 1, pushed_values.
    cbn [omap list_omap]. fold (pushed_values (frame_slots Value m) moves).
    destruct (IsConstantNode (source mv)).
    + cbn [app]. exact (IH m).
    + cbn [app exec_trampoline exec_instr].
      set (m1 := materialise kReturnRegister0 (source mv) m).
      destruct (IH (mkMachine Value (reg_file Value m1) (frame_slots Value m1)
                      (reg_file Value m1 kReturnRegister0 :: native_stack m1)))
        as (m' & Hexec & Hframe & Hstack).
      exists m'. split; [exact Hexec|]. cbn [frame_slots native_stack] in *.
      subst m1. rewrite materialise_frame in *.
      rewrite materialise_stack, materialise_result in Hstack.
      split; [exact Hframe|].
      rewrite Hstack, reverse_cons, <- app_assoc. reflexivity.
Qed.

Lemma exec_pop_results (slots0 : Z -> Value) (moves : list Move)
    (rest : list TrampolineInstr) (m : Machine Value) (k : list Value) :
  NoDup (target <$> moves) ->
  (forall mv r, mv ∈ moves -> target mv = Reg r -> r ∈ kAllocatableRegistersT) ->
  native_stack m = pushed_values slots0 moves ++ k ->
  exists m',
    exec_trampoline (flat_map pop_result moves ++ rest) m = exec_trampoline rest m'
    /\ native_stack m' = k
    /\ (forall mv, mv ∈ moves -> read m' (target mv) = materialised (source mv) slots0)
    /\ (forall l, l <> Reg kScratchRegister -> l ∉ target <$> moves ->
          read m' l = read m l).
Proof.
  revert m. induction moves as [|mv moves IH]; intros m Hnd Halloc Hstack.
  - exists m. split_and!; auto. intros mv Hin. inversion Hin.
  - cbn [fmap list_fmap] in Hnd. apply NoDup_cons in Hnd as [Hfresh Hnd].
    assert (Halloc' : forall mv' r, mv' ∈ moves -> target mv' = Reg r ->
              r ∈ kAllocatableRegistersT).
    { intros mv' r Hin. apply Halloc. apply elem_of_cons. right. exact Hin. }
    assert (Hnot_scratch : target mv <> Reg kScratchRegister).
    { intros Heq. apply scratch_not_allocatable.
      apply (Halloc mv kScratchRegister); [apply elem_of_cons; left; reflexivity|exact Heq]. }
    (* the first move *)
    assert (Hfirst : exists m1,
      exec_trampoline (pop_result mv ++ flat_map pop_result moves ++ rest) m
      = exec_trampoline (flat_map pop_result moves ++ rest) m1
      /\ native_stack m1 = pushed_values slots0 moves ++ k
      /\ read m1 (target mv) = materialised (source mv) slots0
      /\ (forall l, l <> Reg kScratchRegister -> l <> target mv -> read m1 l = read m l)).
    { unfold pop_result, pushed_values in *. cbn [omap list_omap] in Hstack.
      destruct (target mv) as [r|s] eqn:Htarget.
      - (* into a register *)
        destruct (decide (r = kScratchRegister)) as [->|Hr]; [contradiction|].
        destruct (IsConstantNode (source mv)) eqn:Hconst.
        + cbn [app exec_trampoline]. eexists. split; [reflexivity|].
          rewrite materialise_stack. split; [exact Hstack|]. split.
          * cbn [read]. rewrite materialise_result.
            apply materialised_constant. exact Hconst.
          * intros [r'|s'] Hl1 Hl2; cbn [read].
            -- apply materialise_constant; [exact Hconst|congruence].
            -- rewrite materialise_frame. reflexivity.
        + cbn [app exec_trampoline exec_instr]. rewrite Hstack. cbn [app].
          eexists. split; [reflexivity|]. rewrite native_stack_write.
          cbn [native_stack]. split; [reflexivity|]. split.
          * rewrite read_write_eq. reflexivity.
          * intros l Hl1 Hl2. rewrite read_write_ne by congruence.
            destruct l; reflexivity.
      - (* into a stack slot, through the scratch register *)
        destruct (decide (kScratchRegister = kScratchRegister)) as [_|Hne];
          [|contradiction].
        destruct (IsConstantNode (source mv)) eqn:Hconst.
        + cbn [app exec_trampoline]. eexists. split; [reflexivity|].
          rewrite native_stack_write, materialise_stack. split; [exact Hstack|]. split.
          * rewrite read_write_eq, materialise_result.
            apply materialised_constant. exact Hconst.
          * intros [r'|s'] Hl1 Hl2; rewrite read_write_ne by congruence; cbn [read].
            -- apply materialise_constant; [exact Hconst|congruence].
            -- rewrite materialise_frame. reflexivity.
        + cbn [app exec_trampoline exec_instr]. rewrite Hstack. cbn [app].
          eexists. split; [reflexivity|]. rewrite !native_stack_write.
          cbn [native_stack]. split; [reflexivity|]. split.
          * rewrite read_write_eq.
            change (reg_file Value ?m' kScratchRegister)
              with (read m' (Reg kScratchRegister)).
            rewrite read_write_eq. reflexivity.
          * intros l Hl1 Hl2. rewrite !read_write_ne by congruence.
            destruct l; reflexivity. }
    destruct Hfirst as (m1 & Hexec1 & Hstack1 & Hvalue1 & Hframe1).
    destruct (IH m1 Hnd Halloc' Hstack1) as (m' & Hexec & Hk & Hvalues & Hframe).
    exists m'. cbn [flat_map]. rewrite <- app_assoc, Hexec1.
    split; [exact Hexec|]. split; [exact Hk|]. split.
    + intros mv' [->|Hin]%elem_of_cons.
      * rewrite Hframe by assumption. exact Hvalue1.
      * exact (Hvalues mv' Hin).
    + intros l Hl1 Hl2. cbn [fmap list_fmap] in Hl2.
      apply not_elem_of_cons in Hl2 as [Hl2 Hl3].
      rewrite Hframe by assumption. apply Hframe1; assumption.
Qed.

(** The accumulator as [EmitMaterialisationsAndPushResults] saves it. *)
Definition saved_accumulator (moves : list Move) (save_accumulator : bool)
    (accumulator : Value) : list Value :=
  match moves with
  | [] => []
  | _ :: _ => if save_accumulator then [accumulator] else []
  end.

Lemma exec_EmitMaterialisationsAndPushResults (moves : list Move)
    (save_accumulator : bool) (rest : list TrampolineInstr) (m : Machine Value) :
  exists m1,
    exec_trampoline (EmitMaterialisationsAndPushResults moves save_accumulator ++ rest) m
    = exec_trampoline rest m1
    /\ frame_slots Value m1 = frame_slots Value m
    /\ native_stack m1
       = reverse (pushed_values (frame_slots Value m) moves)
         ++ saved_accumulator moves save_accumulator (reg_file Value m kReturnRegister0)
         ++ native_stack m
    /\ (moves = [] -> m1 = m).
Proof.
  destruct moves as [|mv moves].
  - exists m. split_and!; reflexivity.
  - unfold EmitMaterialisationsAndPushResults, saved_accumulator.
    set (all := mv :: moves).
    cbn [app exec_trampoline exec_instr]. rewrite <- app_assoc.
    destruct save_accumulator.
    + cbn [app exec_trampoline exec_instr].
      destruct (exec_push_results all rest
                  (mkMachine Value (reg_file Value m) (frame_slots Value m)
                     (reg_file Value m kReturnRegister0 :: native_stack m)))
        as (m1 & Hexec & Hframe & Hstack).
      exists m1. split; [exact Hexec|]. split; [exact Hframe|].
      split; [exact Hstack|discriminate].
    + cbn [app].
      destruct (exec_push_results all rest m) as (m1 & Hexec & Hframe & Hstack).
      exists m1. split; [exact Hexec|]. split; [exact Hframe|].
      split; [exact Hstack|discriminate].
Qed.

Lemma exec_EmitPopMaterialisedResults (slots0 : Z -> Value) (moves : list Move)
    (save_accumulator : bool) (accumulator : Value) (rest : list TrampolineInstr)
    (m : Machine Value) (k : list Value) :
  NoDup (target <$> moves) ->
  (forall mv r, mv ∈ moves -> target mv = Reg r -> r ∈ kAllocatableRegistersT) ->
  native_stack m
  = reverse (pushed_values slots0 moves)
    ++ saved_accumulator moves save_accumulator accumulator ++ k ->
  exists m',
    exec_trampoline (EmitPopMaterialisedResults moves save_accumulator ++ rest) m
    = exec_trampoline rest m'
    /\ native_stack m' = k
    /\ (save_accumulator = false \/ Reg kReturnRegister0 ∉ target <$> moves ->
        forall mv, mv ∈ moves -> read m' (target mv) = materialised (source mv) slots0)
    /\ (moves <> [] -> save_accumulator = true ->
        reg_file Value m' kReturnRegister0 = accumulator)
    /\ (forall l, l <> Reg kScratchRegister -> l ∉ target <$> moves ->
          (moves <> [] -> save_accumulator = true -> l <> Reg kReturnRegister0) ->
          read m' l = read m l).
Proof.
  intros Hnd Halloc Hstack.
  destruct moves as [|mv moves].
  - exists m. split_and!; auto.
    + intros _ mv Hin. inversion Hin.
    + intros Hne. contradiction.
  - unfold EmitPopMaterialisedResults, saved_accumulator in *.
    set (all := mv :: moves) in *.
    cbn [app exec_trampoline exec_instr]. rewrite <- app_assoc.
    rewrite <- pushed_values_reverse in Hstack.
    assert (Hnd' : NoDup (target <$> reverse all)).
    { rewrite fmap_reverse, reverse_Permutation. exact Hnd. }
    assert (Halloc' : forall mv' r, mv' ∈ reverse all -> target mv' = Reg r ->
              r ∈ kAllocatableRegistersT).
    { intros mv' r Hin. apply Halloc. apply elem_of_reverse. exact Hin. }
    destruct (exec_pop_results slots0 (reverse all)
                ((if save_accumulator then [Plain (PopReg kReturnRegister0)] else [])
                 ++ rest) m _ Hnd' Halloc' Hstack)
      as (m1 & Hexec & Hk & Hvalues & Hframe).
    rewrite Hexec.
    assert (Hvalues' : forall mv', mv' ∈ all ->
              read m1 (target mv') = materialised (source mv') slots0).
    { intros mv' Hin. apply Hvalues. apply elem_of_reverse. exact Hin. }
    assert (Hframe' : forall l, l <> Reg kScratchRegister -> l ∉ target <$> all ->
              read m1 l = read m l).
    { intros l Hl1 Hl2. apply Hframe; [exact Hl1|].
      rewrite fmap_reverse, elem_of_reverse. exact Hl2. }
    destruct save_accumulator.
    + cbn [app exec_trampoline exec_instr]. rewrite Hk. cbn [app].
      eexists. split; [reflexivity|]. rewrite native_stack_write. cbn [native_stack].
      split; [reflexivity|]. split_and!.
      * intros [Hsave|Hacc]; [discriminate|]. intros mv' Hin.
        rewrite read_write_ne.
        -- rewrite <- (Hvalues' mv' Hin). destruct (target mv'); reflexivity.
        -- intros Heq. apply Hacc. rewrite Heq. apply list_elem_of_fmap.
           exists mv'. auto.
      * intros _ _.
        change (reg_file Value ?m' kReturnRegister0) with (read m' (Reg kReturnRegister0)).
        apply read_write_eq.
      * intros l Hl1 Hl2 Hl3. rewrite read_write_ne.
        -- rewrite <- (Hframe' _ Hl1 Hl2). destruct l; reflexivity.
        -- intros Heq. apply Hl3; [discriminate|reflexivity|congruence].
    + cbn [app]. exists m1. split; [reflexivity|]. split; [exact Hk|]. split_and!.
      * intros _. exact Hvalues'.
      * discriminate.
      * intros l Hl1 Hl2 _. apply Hframe'; assumption.
Qed.

Lemma simultaneous_other (moves : list (GapMove ValueNode)) (m : Machine Value) (l : Loc) :
  l ∉ move_target <$> moves -> simultaneous node_value moves m l = read m l.
Proof.
  intros Hl. unfold simultaneous.
  destruct (List.find _ moves) as [mv|] eqn:Hfind; [|reflexivity].
  apply List.find_some in Hfind as [Hin Ht].
  apply list_elem_of_In in Hin. apply bool_decide_eq_true in Ht.
  exfalso. apply Hl. rewrite <- Ht. apply list_elem_of_fmap. exists mv. auto.
Qed.

Lemma save_accumulator_phi (l : list Phi) :
  existsb saves_accumulator l = true ->
  exists phi, phi ∈ l /\ has_valid_live_range phi = true /\ is_accumulator phi = true.
Proof.
  intros (phi & Hin & Hsave)%existsb_exists.
  apply list_elem_of_In in Hin. unfold saves_accumulator in Hsave.
  apply andb_true_iff in Hsave as [Hlive Hacc]. exists phi. auto.
Qed.

(** The exception handler trampoline puts every live exception phi in its
    place.  For a catch block whose live phis have distinct locations
    (allocatable registers or stack slots, [kReturnRegister0] for the
    accumulator) and spilled values that are no 64 bit words,
    [EmitTrampolineFor] returns code that runs up to its jump to the catch
    block and leaves in the location of every live phi the value it has to
    hold there: the accumulator is the exception that [kReturnRegister0]
    held on entry, a tagged value is the value that its source held on
    entry, and an [Int32], [Uint32] or [Float64] value is the value
    materialised from the frame as it was on entry -- although the
    materialisations may change every register, and whatever slots the
    moves share.  The stack is as it was on entry. *)
Theorem trampoline_assigns_exception_phis (handler_info : ExceptionHandlerInfo)
    (m : Machine Value) :
  trampoline_ok (catch_block handler_info) ->
  exists code m',
    EmitTrampolineFor handler_info register_frame = Some code
    /\ exec_trampoline code m = Some (m', Some (label (catch_block handler_info)))
    /\ native_stack m' = native_stack m
    /\ forall phi,
         phi ∈ phis (catch_block handler_info) -> has_valid_live_range phi = true ->
         read m' (result phi) = phi_value m phi.
Proof.
  intros [Htargets Haccumulator Hregisters Hspilled].
  set (l := phis (catch_block handler_info)) in *.
  set (d := omap direct_move l).
  set (ms := omap materialising_move l).
  set (save := existsb saves_accumulator l).
  assert (Hrec : RecordMoves (catch_block handler_info) register_frame
                   (new_resolver kNumRegisters) [] false
                 = Some (record_moves d (new_resolver kNumRegisters), ms, save)).
  { unfold RecordMoves. fold l. rewrite RecordMoves_moves; [reflexivity|].
    intros phi Hin Hlive Hacc. apply (Hspilled phi Hin Hlive Hacc). }
  (* the direct moves *)
  assert (Hd : forall mv, mv ∈ d -> exists phi,
            phi ∈ l /\ direct_move phi = Some mv).
  { intros mv Hin. apply list_elem_of_omap in Hin. exact Hin. }
  assert (Hms : forall mv, mv ∈ ms -> exists phi,
            phi ∈ l /\ materialising_move phi = Some mv).
  { intros mv Hin. apply list_elem_of_omap in Hin. exact Hin. }
  assert (Hdeg : in_degree_le_1 d).
  { unfold in_degree_le_1. eapply sublist_NoDup; [exact Htargets|].
    apply targets_sublist. intros phi mv Hmv.
    apply direct_move_Some in Hmv as (Hlive & _ & _ & ->). auto. }
  assert (Hallocated : allocated kAllocatableRegistersT d).
  { intros mv Hin. destruct (Hd mv Hin) as (phi & Hphi & Hmv).
    apply direct_move_Some in Hmv as (Hlive & Hacc & _ & ->). cbn. split.
    - intros r Hr. destruct (Hspilled phi Hphi Hlive Hacc) as [Hnot _].
      exfalso. exact (Hnot r Hr).
    - intros r Hr. exact (Hregisters phi r Hphi Hlive Hr). }
  assert (Hnd : NoDup (target <$> ms)).
  { eapply sublist_NoDup; [exact Htargets|].
    apply targets_sublist. intros phi mv Hmv.
    apply materialising_move_Some in Hmv as (Hlive & _ & _ & ->). auto. }
  assert (Hmsalloc : forall mv r, mv ∈ ms -> target mv = Reg r ->
            r ∈ kAllocatableRegistersT).
  { intros mv r Hin Hr. destruct (Hms mv Hin) as (phi & Hphi & Hmv).
    apply materialising_move_Some in Hmv as (Hlive & _ & _ & ->).
    exact (Hregisters phi r Hphi Hlive Hr). }
  (* a location is the one of one live phi *)
  assert (Hnot_direct : forall phi, phi ∈ l -> has_valid_live_range phi = true ->
            direct_move phi = None -> result phi ∉ move_target <$> d).
  { intros phi Hphi Hlive Hnone (mv & Heq & Hin)%list_elem_of_fmap.
    destruct (Hd mv Hin) as (phi' & Hphi' & Hmv).
    pose proof Hmv as Hmv'.
    apply direct_move_Some in Hmv' as (Hlive' & _ & _ & ->). cbn in Heq.
    rewrite (live_result_inj l phi phi' Htargets Hphi Hlive Hphi' Hlive' Heq) in Hnone.
    congruence. }
  assert (Hnot_materialising : forall phi, phi ∈ l -> has_valid_live_range phi = true ->
            materialising_move phi = None -> result phi ∉ target <$> ms).
  { intros phi Hphi Hlive Hnone (mv & Heq & Hin)%list_elem_of_fmap.
    destruct (Hms mv Hin) as (phi' & Hphi' & Hmv).
    pose proof Hmv as Hmv'.
    apply materialising_move_Some in Hmv' as (Hlive' & _ & _ & ->). cbn in Heq.
    rewrite (live_result_inj l phi phi' Htargets Hphi Hlive Hphi' Hlive' Heq) in Hnone.
    congruence. }
  assert (Hnot_scratch : forall phi, phi ∈ l -> has_valid_live_range phi = true ->
            result phi <> Reg kScratchRegister).
  { intros phi Hphi Hlive Heq. apply scratch_not_allocatable.
    exact (Hregisters phi _ Hphi Hlive Heq). }
  assert (Hsaved : save = true -> exists phi,
            phi ∈ l /\ has_valid_live_range phi = true /\ is_accumulator phi = true
            /\ result phi = Reg kReturnRegister0).
  { intros Hsave. destruct (save_accumulator_phi l Hsave) as (phi & Hphi & Hlive & Hacc).
    exists phi. split_and!; auto. }
  assert (Hacc_none : forall phi, is_accumulator phi = true ->
            direct_move phi = None /\ materialising_move phi = None).
  { intros phi Hacc. unfold direct_move, materialising_move. rewrite Hacc.
    rewrite andb_false_r. auto. }
  (* the code *)
  destruct (EmitMoves_record_moves_spec ValueNode kScratchRegister kAllocatableRegistersT
              begin Value node_value scratch_not_allocatable begin_spec kNumRegisters
              allocatable_lt d m Hdeg Hallocated)
    as (st' & moves_code & _ & Hemit & _).
  unfold EmitTrampolineFor. rewrite Hrec. cbn [mbind option_bind]. rewrite Hemit.
  cbn [mbind option_bind].
  set (finish := [Jump (label (catch_block handler_info));
                  Plain (RecordComment "-- Exception handler trampoline END")]).
  destruct (exec_EmitMaterialisationsAndPushResults ms save
              (Plain (RecordComment "EmitMoves") :: (Plain <$> moves_code)
               ++ EmitPopMaterialisedResults ms save ++ finish) m)
    as (m1 & Hexec1 & Hframe1 & Hstack1 & Hnil1).
  destruct (EmitMoves_record_moves_spec ValueNode kScratchRegister kAllocatableRegistersT
              begin Value node_value scratch_not_allocatable begin_spec kNumRegisters
              allocatable_lt d m1 Hdeg Hallocated)
    as (st'' & moves_code' & m2 & Hemit' & Hexec2 & Hsim & Hstack2).
  rewrite Hemit in Hemit'. injection Hemit' as _ <-.
  rewrite Hstack1 in Hstack2.
  destruct (exec_EmitPopMaterialisedResults (frame_slots Value m) ms save
              (reg_file Value m kReturnRegister0) finish m2 (native_stack m)
              Hnd Hmsalloc Hstack2)
    as (m3 & Hexec3 & Hk & Hvalues & Hacc3 & Hframe3).
  eexists _, m3. split; [reflexivity|]. split.
  { cbn [app exec_trampoline exec_instr]. rewrite Hexec1.
    cbn [app exec_trampoline exec_instr].
    rewrite exec_trampoline_Plain, Hexec2, Hexec3. reflexivity. }
  split; [exact Hk|].
  intros phi Hphi Hlive. unfold phi_value.
  destruct (is_accumulator phi) eqn:Hacc.
  - (* the accumulator *)
    rewrite (Haccumulator phi Hphi Hlive Hacc). cbn [read].
    assert (Hsave : save = true).
    { apply existsb_exists. exists phi. split; [apply list_elem_of_In; exact Hphi|].
      unfold saves_accumulator. rewrite Hlive, Hacc. reflexivity. }
    destruct (Hacc_none phi Hacc) as [Hnone1 Hnone2].
    destruct (decide (ms = [])) as [Hnil|Hne].
    + change (reg_file Value m3 kReturnRegister0) with (read m3 (Reg kReturnRegister0)).
      rewrite <- (Haccumulator phi Hphi Hlive Hacc).
      rewrite Hframe3.
      * rewrite Hsim by (apply Hnot_scratch; assumption).
        rewrite simultaneous_other by (apply Hnot_direct; assumption).
        rewrite (Hnil1 Hnil), (Haccumulator phi Hphi Hlive Hacc). reflexivity.
      * apply Hnot_scratch; assumption.
      * apply Hnot_materialising; assumption.
      * intros Hne. contradiction.
    + exact (Hacc3 Hne Hsave).
  - (* another register of the frame *)
    destruct (Hspilled phi Hphi Hlive Hacc) as [Hnot_reg Hnot_word].
    assert (Hnot_ret : save = true -> result phi <> Reg kReturnRegister0).
    { intros Hsave Heq.
      destruct (Hsaved Hsave) as (phi' & Hphi' & Hlive' & Hacc' & Hresult').
      rewrite <- Hresult' in Heq.
      rewrite (live_result_inj l phi phi' Htargets Hphi Hlive Hphi' Hlive' Heq) in Hacc.
      congruence. }
    assert (Hmaterialised :
      materialising_move phi = Some (mkMove (result phi) (register_frame (owner phi))) ->
      read m3 (result phi) = materialised (register_frame (owner phi)) (frame_slots Value m)).
    { intros Hmv.
      assert (Hin : mkMove (result phi) (register_frame (owner phi)) ∈ ms).
      { apply list_elem_of_omap. exists phi. auto. }
      refine (Hvalues _ _ Hin).
      destruct (Bool.bool_dec save true) as [Hsave|Hsave];
        [right|left; apply not_true_is_false; exact Hsave].
      intros (mv' & Heq & Hin')%list_elem_of_fmap.
      destruct (Hms mv' Hin') as (phi' & Hphi' & Hmv').
      apply materialising_move_Some in Hmv' as (Hlive' & Hacc' & _ & ->). cbn in Heq.
      destruct (Hsaved Hsave) as (phi'' & Hphi'' & Hlive'' & Hacc'' & Hresult'').
      rewrite <- Hresult'' in Heq.
      rewrite (live_result_inj l phi'' phi' Htargets Hphi'' Hlive'' Hphi' Hlive' Heq)
        in Hacc''.
      congruence. }
    destruct (value_representation (register_frame (owner phi))) eqn:Hrep;
      try contradiction.
    + (* a tagged value: a direct move *)
      set (mv := mkGapMove (register_frame (owner phi))
                   (allocation (register_frame (owner phi))) (result phi)).
      assert (Hmv : direct_move phi = Some mv).
      { unfold direct_move. rewrite Hlive, Hacc, Hrep. reflexivity. }
      assert (Hin : mv ∈ d).
      { apply list_elem_of_omap. exists phi. auto. }
      rewrite Hframe3.
      * rewrite Hsim by (apply Hnot_scratch; assumption).
        change (result phi) with (move_target mv).
        rewrite (simultaneous_target ValueNode Value node_value d m1 mv Hdeg Hin).
        unfold source_value, mv. cbn [move_source move_node].
        destruct (allocation (register_frame (owner phi))) as [r|s|] eqn:Halloc;
          cbn [source_loc read].
        -- exfalso. exact (Hnot_reg r eq_refl).
        -- rewrite Hframe1. reflexivity.
        -- reflexivity.
      * apply Hnot_scratch; assumption.
      * apply Hnot_materialising; [assumption..|].
        unfold materialising_move. rewrite Hlive, Hacc, Hrep. reflexivity.
      * intros _ Hsave. exact (Hnot_ret Hsave).
    + (* an [Int32]: a materialising move *)
      apply Hmaterialised. unfold materialising_move. rewrite Hlive, Hacc, Hrep. reflexivity.
    + (* a [Uint32] *)
      apply Hmaterialised. unfold materialising_move. rewrite Hlive, Hacc, Hrep. reflexivity.
    + (* a [Float64] *)
      apply Hmaterialised. unfold materialising_move. rewrite Hlive, Hacc, Hrep. reflexivity.
Qed.


End Phis.

End Trampoline.

Arguments mkPhi {InterpreterRegister} has_valid_live_range owner result.
Arguments mkBasicBlock {InterpreterRegister Label} phis label.
Arguments mkExceptionHandlerInfo {InterpreterRegister Label} catch_block trampoline_entry.
Arguments has_valid_live_range {InterpreterRegister} p.
Arguments owner {InterpreterRegister} p.
Arguments result {InterpreterRegister} p.
Arguments phis {InterpreterRegister Label} b.
Arguments label {InterpreterRegister Label} b.
Arguments catch_block {InterpreterRegister Label} e.

(** ** Instances *)

(** Nodes are numbers: node 1 is tagged, node 2 an [Int32], node 3 a
    [Float64] constant, node 4 tagged; node [n] is spilled to the slot at
    [-8 * n]. *)
Definition example_allocation (node : nat) : InstructionOperand :=
  StackSlotOperand (- 8 * Z.of_nat node).

Definition example_value_representation (node : nat) : ValueRepresentation :=
  match node with
  | 2%nat => kInt32
  | 3%nat => kFloat64
  | _ => kTagged
  end.

Definition example_IsConstantNode (node : nat) : bool := (node =? 3)%nat.

(** The number of a constant, or the number in the slot of the node, as a
    heap number (its double). *)
Definition example_materialised (node : nat) (slots : Z -> Z) : Z :=
  if example_IsConstantNode node then 2 * Z.of_nat node
  else 2 * slots (- 8 * Z.of_nat node).

(** The materialisation of a node that is no constant clears every other
    register. *)
Definition example_materialise (dst : RegisterT) (node : nat) (m : Machine Z)
    : Machine Z :=
  mkMachine Z
    (fun r => if decide (r = dst) then example_materialised node (frame_slots Z m)
              else if example_IsConstantNode node then reg_file Z m r
              else 0)
    (frame_slots Z m) (native_stack m).

(** The accumulator is the register -1 of the interpreter; the catch block
    has a phi for it, one for each of the registers 1 to 4, of which the
    last one is not live. *)
Definition example_handler_info : ExceptionHandlerInfo Z string :=
  mkExceptionHandlerInfo
    (mkBasicBlock
       [mkPhi true (-1) (Reg 0);
        mkPhi true 1 (Slot (-16));
        mkPhi true 2 (Slot (-8));
        mkPhi true 3 (Reg 1);
        mkPhi false 4 (Reg 1)]
       "catch"%string)
    "trampoline"%string.

Lemma example_handler_ok :
  trampoline_ok nat Z (-1) string example_allocation example_value_representation
    example_allocatable 0%nat Z.to_nat (catch_block example_handler_info).
Proof.
  split.
  - change (NoDup [Reg 0; Slot (-16); Slot (-8); Reg 1]).
    repeat (apply NoDup_cons_2;
      [rewrite ?not_elem_of_cons; split_and?; try discriminate; apply not_elem_of_nil|]).
    apply NoDup_nil_2.
  - intros phi Hin Hlive Hacc. cbn in Hin.
    repeat (apply elem_of_cons in Hin as [->|Hin]); try discriminate; try reflexivity.
    inversion Hin.
  - intros phi r Hin Hlive Hr. cbn in Hin.
    repeat (apply elem_of_cons in Hin as [->|Hin]); try discriminate.
    + injection Hr as <-. unfold example_allocatable. set_solver.
    + injection Hr as <-. unfold example_allocatable. set_solver.
    + inversion Hin.
  - intros phi Hin Hlive Hacc. cbn in Hin.
    repeat (apply elem_of_cons in Hin as [->|Hin]); try discriminate.
    all: try (split; [intros r; discriminate|discriminate]).
    inversion Hin.
Qed.

Lemma trampoline_assigns_exception_phis_witness :
  exists code m',
    EmitTrampolineFor nat Z (-1) string example_allocation example_value_representation
      example_IsConstantNode example_scratch example_allocatable example_num_registers
      first_key 0%nat example_handler_info Z.to_nat = Some code
    /\ exec_trampoline nat string Z Z.of_nat example_materialise code example_machine
       = Some (m', Some (label (catch_block example_handler_info)))
    /\ native_stack m' = native_stack example_machine
    /\ forall phi,
         phi ∈ phis (catch_block example_handler_info) ->
         has_valid_live_range phi = true ->
         read m' (result phi)
         = phi_value nat Z (-1) example_allocation example_value_representation 0%nat Z
             Z.of_nat example_materialised Z.to_nat example_machine phi.
Proof.
  apply (trampoline_assigns_exception_phis nat Z (-1) string example_allocation
           example_value_representation example_IsConstantNode example_scratch
           example_allocatable example_num_registers first_key 0%nat Z Z.of_nat
           example_materialise example_materialised
           example_scratch_not_allocatable first_key_spec example_allocatable_lt).
  - reflexivity.
  - reflexivity.
  - intros dst node m. cbn. destruct (decide (dst = dst)); [reflexivity|contradiction].
  - intros dst node m Hconst r Hr. cbn. rewrite Hconst.
    destruct (decide (r = dst)); [contradiction|reflexivity].
  - intros node slots slots' Hconst. unfold example_materialised. rewrite Hconst.
    reflexivity.
  - exact example_handler_ok.
Defined.

End ExceptionHandlerTrampoline.

(* ===================================================================== *)
(** * The stack slots of a Maglev frame
    (the end of [MaglevAssembler::Prologue],
    src/maglev/x64/maglev-assembler-x64.cc, l. 471-502, which
    [MaglevCodeGeneratingNodeProcessor::PreProcessGraph] calls) *)
(* ===================================================================== *)

Module MaglevPrologue.

Abbreviation Register := nat.

Definition rax : Register := 0%nat.
Definition rbx : Register := 3%nat.
Definition rsp : Register := 4%nat.

Inductive Condition := greater.

Inductive Label := loop.

#[global] Instance Label_eq_dec : EqDecision Label.
Proof. solve_decision. Defined.

Inductive Instr :=
  | Move (dst : Register) (value : Z)
  | pushq (src : Register)
  | bind (l : Label)
  | decl (dst : Register)
  | j (cc : Condition) (l : Label)
  | subq (dst : Register) (imm : Z).

Section Prologue.

(** [kSystemPointerSize] is declared outside this file. *)
Variable kSystemPointerSize : Z.

Definition kLoopUnrollSize : Z := 8.

(** The code that initializes the tagged stack slots and extends the frame
    by the untagged ones.  The loops of the assembler are unrolled as they
    run at code generation; the loop of the generated code is the one around
    the label [loop]. *)
Definition Prologue_stack_slots (tagged_stack_slots untagged_stack_slots : Z)
    : list Instr :=
  (if 0 <? tagged_stack_slots then
     Move rax 0
     :: (let tagged_slots := tagged_stack_slots in
         if tagged_slots <? 2 * kLoopUnrollSize then
           replicate (Z.to_nat tagged_slots) (pushq rax)
         else
           let first_slots := Z.rem tagged_slots kLoopUnrollSize in
           replicate (Z.to_nat first_slots) (pushq rax)
           ++ [Move rbx (Z.quot tagged_slots kLoopUnrollSize); bind loop]
           ++ replicate (Z.to_nat kLoopUnrollSize) (pushq rax)
           ++ [decl rbx; j greater loop])
   else [])
  ++ (if 0 <? untagged_stack_slots
      then [subq rsp (untagged_stack_slots * kSystemPointerSize)]
      else []).

(** ** The machine *)

(** Registers hold 64 bit words, memory holds 64 bit words at byte
    addresses; of the flags, the zero, the sign and the overflow flag. *)
Record Machine := mkMachine {
  regs : Register -> Z;
  mem : Z -> Z;
  zero_flag : bool;
  sign_flag : bool;
  overflow_flag : bool
}.

Definition set_reg (r : Register) (v : Z) (m : Machine) : Machine :=
  mkMachine (fun r' => if Nat.eqb r' r then v else regs m r') (mem m) (zero_flag m) (sign_flag m)
    (overflow_flag m).

Definition holds (cc : Condition) (m : Machine) : bool :=
  match cc with
  | greater => negb (zero_flag m) && Bool.eqb (sign_flag m) (overflow_flag m)
  end.

(** The position of [bind l] in the code. *)
Fixpoint label_position (l : Label) (code : list Instr) : option nat :=
  match code with
  | [] => None
  | bind l' :: code' =>
      if decide (l' = l) then Some 0%nat else S <$> label_position l code'
  | _ :: code' => S <$> label_position l code'
  end.

(** One instruction: the next position and the machine.  [decl] is a 32
    bit decrement: it clears the upper half of the register, and the
    overflow flag is set when the operand is the least 32 bit integer.  The
    flags that [subq] sets are not read. *)
Definition step (code : list Instr) (pc : nat) (i : Instr) (m : Machine)
    : option (nat * Machine) :=
  match i with
  | Move dst value => Some (S pc, set_reg dst value m)
  | pushq src =>
      let sp := regs m rsp - 8 in
      Some (S pc,
            mkMachine (fun r => if Nat.eqb r rsp then sp else regs m r)
              (fun a => if a =? sp then regs m src else mem m a)
              (zero_flag m) (sign_flag m) (overflow_flag m))
  | bind _ => Some (S pc, m)
  | decl dst =>
      let operand := regs m dst mod 2 ^ 32 in
      let value := (operand - 1) mod 2 ^ 32 in
      Some (S pc,
            mkMachine (fun r => if Nat.eqb r dst then value else regs m r) (mem m)
              (value =? 0) (2 ^ 31 <=? value) (operand =? 2 ^ 31))
  | j cc l =>
      if holds cc m then
        match label_position l code with
        | Some target => Some (target, m)
        | None => None
        end
      else Some (S pc, m)
  | subq dst imm => Some (S pc, set_reg dst (regs m dst - imm) m)
  end.

(** The code runs from [pc] until it leaves its end. *)
Fixpoint run (fuel : nat) (code : list Instr) (pc : nat) (m : Machine) : option Machine :=
  match code !! pc with
  | None => Some m
  | Some i =>
      match fuel with
      | O => None
      | S fuel' =>
          match step code pc i m with
          | Some (pc', m') => run fuel' code pc' m'
          | None => None
          end
      end
  end.

(** ** The slots are initialized *)

Hypothesis kSystemPointerSize_x64 : kSystemPointerSize = 8.

(** The instructions that go on to the next one. *)
Definition straight (i : Instr) : bool :=
  match i with
  | j _ _ => false
  | _ => true
  end.

Definition exec_straight (m : Machine) (i : Instr) : Machine :=
  match step [] 0 i m with
  | Some (_, m') => m'
  | None => m
  end.

Lemma step_straight (code : list Instr) (pc : nat) (i : Instr) (m : Machine) :
  straight i = true -> step code pc i m = Some (S pc, exec_straight m i).
Proof. destruct i; try discriminate; reflexivity. Qed.

Lemma run_step (fuel : nat) (code : list Instr) (pc pc' : nat) (i : Instr)
    (m m' : Machine) :
  code !! pc = Some i -> step code pc i m = Some (pc', m') ->
  run (S fuel) code pc m = run fuel code pc' m'.
Proof. intros Hi Hstep. cbn [run]. rewrite Hi, Hstep. reflexivity. Qed.

(** A segment of straight instructions runs from its first to its last
    one. *)
Lemma run_straight (seg pre post : list Instr) (fuel : nat) (m : Machine) :
  Forall (fun i => straight i = true) seg ->
  run (length seg + fuel) (pre ++ seg ++ post) (length pre) m
  = run fuel (pre ++ seg ++ post) (length pre + length seg) (foldl exec_straight m seg).
Proof.
  revert pre m. induction seg as [|i seg IH]; intros pre m Hseg.
  - cbn [length foldl]. rewrite Nat.add_0_r. reflexivity.
  - apply Forall_cons in Hseg as [Hi Hseg].
    cbn [length foldl Nat.add].
    rewrite (run_step _ _ (length pre) (S (length pre)) i m (exec_straight m i)).
    + replace (pre ++ (i :: seg) ++ post) with ((pre ++ [i]) ++ seg ++ post)
        by (rewrite <- app_assoc; reflexivity).
      replace (S (length pre)) with (length (pre ++ [i]))
        by (rewrite length_app; cbn; lia).
      rewrite IH by exact Hseg.
      f_equal. rewrite length_app. cbn. lia.
    + rewrite lookup_app_r by lia. rewrite Nat.sub_diag. reflexivity.
    + apply step_straight. exact Hi.
Qed.

(** [k] words of zero have been pushed: the stack pointer is [k] words
    lower, the words between the old and the new stack pointer are zero, the
    memory above them and the registers other than [rax], which is zero,
    and [rbx] are as before. *)
Record Pushed (k : Z) (m m' : Machine) : Prop := mkPushed {
  pushed_rsp : regs m' rsp = regs m rsp - 8 * k;
  pushed_rax : regs m' rax = 0;
  pushed_regs : forall r, r <> rsp -> r <> rax -> r <> rbx -> regs m' r = regs m r;
  pushed_zero : forall i, 0 <= i < k -> mem m' (regs m rsp - 8 * (i + 1)) = 0;
  pushed_mem : forall a, regs m rsp <= a -> mem m' a = mem m a
}.

Lemma Pushed_refl (m : Machine) : regs m rax = 0 -> Pushed 0 m m.
Proof. intros Hrax. split; intros; try reflexivity; try assumption; lia. Qed.

Lemma Pushed_trans (k1 k2 : Z) (m m1 m2 : Machine) :
  0 <= k1 -> 0 <= k2 -> Pushed k1 m m1 -> Pushed k2 m1 m2 -> Pushed (k1 + k2) m m2.
Proof.
  intros Hk1 Hk2 [Hsp1 Hrax1 Hregs1 Hzero1 Hmem1] [Hsp2 Hrax2 Hregs2 Hzero2 Hmem2]. split.
  - rewrite Hsp2, Hsp1. lia.
  - exact Hrax2.
  - intros r Hr1 Hr2 Hr3. rewrite Hregs2, Hregs1 by assumption. reflexivity.
  - intros i Hi. destruct (Z_lt_ge_dec i k1) as [Hlt|Hge].
    + rewrite Hmem2 by (rewrite Hsp1; lia). apply Hzero1. lia.
    + replace (regs m rsp - 8 * (i + 1)) with (regs m1 rsp - 8 * (i - k1 + 1))
        by (rewrite Hsp1; lia).
      apply Hzero2. lia.
  - intros a Ha. rewrite Hmem2 by (rewrite Hsp1; lia). apply Hmem1. exact Ha.
Qed.

Lemma exec_zero_pushes (k : nat) (m : Machine) :
  regs m rax = 0 ->
  Pushed (Z.of_nat k) m (foldl exec_straight m (replicate k (pushq rax)))
  /\ regs (foldl exec_straight m (replicate k (pushq rax))) rbx = regs m rbx.
Proof.
  revert m. induction k as [|k IH]; intros m Hrax.
  - split; [apply Pushed_refl; exact Hrax|reflexivity].
  - cbn [replicate foldl].
    set (m1 := exec_straight m (pushq rax)).
    assert (H1 : Pushed 1 m m1).
    { subst m1. split; cbn.
      - lia.
      - exact Hrax.
      - intros r Hr _ _. destruct (Nat.eqb_spec r rsp); [contradiction|reflexivity].
      - intros i Hi. replace i with 0 by lia.
        rewrite Z.eqb_refl. exact Hrax.
      - intros a Ha. destruct (Z.eqb_spec a (regs m rsp - 8)); [lia|reflexivity]. }
    assert (Hrax1 : regs m1 rax = 0) by exact (pushed_rax _ _ _ H1).
    destruct (IH m1 Hrax1) as [Hk Hrbx]. split.
    + replace (Z.of_nat (S k)) with (1 + Z.of_nat k) by lia.
      apply (Pushed_trans 1 (Z.of_nat k) m m1); [lia|lia|exact H1|exact Hk].
    + rewrite Hrbx. subst m1. reflexivity.
Qed.

Lemma Forall_straight_pushes (k : nat) :
  Forall (fun i => straight i = true) (replicate k (pushq rax)).
Proof. apply Forall_replicate. reflexivity. Qed.

Lemma label_position_straight (pre rest : list Instr) (l : Label) :
  Forall (fun i => match i with bind _ => False | _ => True end) pre ->
  label_position l (pre ++ bind l :: rest) = Some (length pre).
Proof.
  induction pre as [|i pre IH]; intros Hpre.
  - cbn. destruct (decide (l = l)); [reflexivity|contradiction].
  - apply Forall_cons in Hpre as [Hi Hpre]. cbn [app label_position length].
    destruct i; try contradiction; rewrite (IH Hpre); reflexivity.
Qed.

(** The loop: [n] rounds of eight pushes. *)
Lemma run_loop (pre post : list Instr) (n : nat) (fuel : nat) (m : Machine) :
  let code :=
    pre ++ (bind loop :: replicate 8 (pushq rax) ++ [decl rbx]) ++ j greater loop :: post in
  Forall (fun i => match i with bind _ => False | _ => True end) pre ->
  (0 < n)%nat -> Z.of_nat n < 2 ^ 31 ->
  regs m rbx = Z.of_nat n -> regs m rax = 0 ->
  exists m',
    Pushed (8 * Z.of_nat n) m m'
    /\ run (11 * n + fuel) code (length pre) m = run fuel code (length pre + 11) m'.
Proof.
  intros code Hpre. revert m.
  induction n as [|n IH]; intros m Hn Hbound Hrbx Hrax; [lia|].
  set (seg := bind loop :: replicate 8 (pushq rax) ++ [decl rbx]).
  assert (Hseg : Forall (fun i => straight i = true) seg).
  { subst seg. repeat constructor. }
  (* one round *)
  set (m0 := foldl exec_straight m (replicate 8 (pushq rax))).
  destruct (exec_zero_pushes 8 m Hrax) as [Hpushed Hrbx0]. fold m0 in Hpushed, Hrbx0.
  set (m1 := exec_straight m0 (decl rbx)).
  assert (Hm1 : foldl exec_straight m seg = m1).
  { subst seg m1 m0. cbn [foldl]. rewrite foldl_app. reflexivity. }
  assert (Hvalue : regs m1 rbx = Z.of_nat n).
  { unfold m1, exec_straight. cbn [step regs]. rewrite Nat.eqb_refl, Hrbx0, Hrbx.
    rewrite (Z.mod_small (Z.of_nat (S n))) by lia. rewrite Z.mod_small by lia. lia. }
  assert (Hpushed1 : Pushed 8 m m1).
  { destruct Hpushed as [Hsp Hrax0 Hregs Hzero Hmem].
    unfold m1, exec_straight. cbn [step]. split; cbn [regs mem].
    - exact Hsp.
    - exact Hrax0.
    - intros r Hr1 Hr2 Hr3. destruct (Nat.eqb_spec r rbx); [contradiction|].
      apply Hregs; assumption.
    - exact Hzero.
    - exact Hmem. }
  assert (Hholds : holds greater m1 = negb (Z.of_nat n =? 0)).
  { unfold m1, exec_straight. cbn [step holds zero_flag sign_flag overflow_flag].
    rewrite Hrbx0, Hrbx.
    rewrite (Z.mod_small (Z.of_nat (S n))) by lia.
    rewrite (Z.mod_small (Z.of_nat (S n) - 1)) by lia.
    replace (Z.of_nat (S n) - 1) with (Z.of_nat n) by lia.
    destruct (Z.leb_spec (2 ^ 31) (Z.of_nat n)); [lia|].
    destruct (Z.eqb_spec (Z.of_nat (S n)) (2 ^ 31)); [lia|].
    rewrite andb_true_r. reflexivity. }
  assert (Hjump : code !! (length pre + length seg)%nat = Some (j greater loop)).
  { change code with (pre ++ seg ++ j greater loop :: post).
    rewrite lookup_app_r by lia.
    replace (length pre + length seg - length pre)%nat with (length seg) by lia.
    rewrite lookup_app_r by lia. rewrite Nat.sub_diag. reflexivity. }
  assert (Hlabel : label_position loop code = Some (length pre)).
  { subst code seg. cbn [app]. apply label_position_straight. exact Hpre. }
  assert (Hround : forall fuel', run (11 + fuel') code (length pre) m
                     = run (S fuel') code (length pre + length seg) m1).
  { intros fuel'. change code with (pre ++ seg ++ j greater loop :: post).
    change (11 + fuel')%nat with (length seg + S fuel')%nat.
    rewrite (run_straight seg pre (j greater loop :: post) (S fuel') m Hseg), Hm1.
    reflexivity. }
  destruct n as [|n].
  - (* the last round *)
    exists m1. split; [exact Hpushed1|].
    replace (11 * 1 + fuel)%nat with (11 + fuel)%nat by lia.
    rewrite Hround.
    rewrite (run_step _ _ _ (S (length pre + length seg)) _ _ m1 Hjump).
    + f_equal. subst seg. cbn. lia.
    + cbn [step]. rewrite Hholds. reflexivity.
  - (* another round *)
    destruct (IH m1) as (m' & Hpushed' & Hrun'); [lia|lia|exact Hvalue| |].
    { exact (pushed_rax _ _ _ Hpushed1). }
    exists m'. split.
    + replace (8 * Z.of_nat (S (S n))) with (8 + 8 * Z.of_nat (S n)) by lia.
      apply (Pushed_trans 8 _ m m1); [lia|lia|exact Hpushed1|exact Hpushed'].
    + replace (11 * S (S n) + fuel)%nat with (11 + (11 * S n + fuel))%nat by lia.
      rewrite Hround.
      rewrite (run_step _ _ _ (length pre) _ _ m1 Hjump).
      * exact Hrun'.
      * cbn [step]. rewrite Hholds, Hlabel.
        destruct (Z.eqb_spec (Z.of_nat (S n)) 0); [lia|reflexivity].
Qed.

Lemma exec_Move_rax (m : Machine) :
  Pushed 0 m (exec_straight m (Move rax 0))
  /\ regs (exec_straight m (Move rax 0)) rbx = regs m rbx.
Proof.
  split; [split|]; cbn; try reflexivity; try lia.
  intros r _ Hr _. destruct (Nat.eqb_spec r rax); [contradiction|reflexivity].
Qed.

Lemma exec_Move_rbx (k value : Z) (m m' : Machine) :
  Pushed k m m' ->
  Pushed k m (exec_straight m' (Move rbx value))
  /\ regs (exec_straight m' (Move rbx value)) rbx = value.
Proof.
  intros [Hsp Hrax Hregs Hzero Hmem].
  split; [split|]; cbn; try assumption; try reflexivity.
  intros r Hr1 Hr2 Hr3. destruct (Nat.eqb_spec r rbx); [contradiction|].
  apply Hregs; assumption.
Qed.

(** The untagged slots. *)
Definition untagged_slots_code (untagged_stack_slots : Z) : list Instr :=
  if 0 <? untagged_stack_slots
  then [subq rsp (untagged_stack_slots * kSystemPointerSize)]
  else [].

Lemma exec_untagged_slots (untagged : Z) (m : Machine) :
  0 <= untagged ->
  let m' := foldl exec_straight m (untagged_slots_code untagged) in
  regs m' rsp = regs m rsp - 8 * untagged
  /\ (forall r, r <> rsp -> regs m' r = regs m r)
  /\ mem m' = mem m.
Proof.
  intros Hu. unfold untagged_slots_code. rewrite kSystemPointerSize_x64.
  destruct (Z.ltb_spec 0 untagged); cbn.
  - split_and!; [lia| |reflexivity].
    intros r Hr. destruct (Nat.eqb_spec r rsp); [contradiction|reflexivity].
  - split_and!; [lia|reflexivity|reflexivity].
Qed.

Lemma Forall_straight_untagged (untagged : Z) :
  Forall (fun i => straight i = true) (untagged_slots_code untagged).
Proof. unfold untagged_slots_code. destruct (0 <? untagged); repeat constructor. Qed.

(** The whole of a code of straight instructions runs. *)
Lemma run_all_straight (code : list Instr) (m : Machine) :
  Forall (fun i => straight i = true) code ->
  run (length code) code 0 m = Some (foldl exec_straight m code).
Proof.
  intros Hcode.
  pose proof (run_straight code [] [] 0 m Hcode) as Hrun.
  rewrite app_nil_r, Nat.add_0_r in Hrun. cbn [app length Nat.add] in Hrun.
  rewrite Hrun. destruct code as [|i code]; [reflexivity|].
  cbn [run]. rewrite lookup_ge_None_2 by lia. reflexivity.
Qed.

(** The tagged stack slots are initialized.  For a frame of [tagged] tagged
    and [untagged] untagged slots the code runs to its end -- also through
    the loop that it has for 16 tagged slots or more -- and leaves the stack
    pointer [tagged + untagged] slots lower, with a zero in each of the
    [tagged] slots next to the old stack pointer; the memory above and the
    registers other than [rsp], [rax] and [rbx] are as before. *)
Theorem Prologue_zeroes_tagged_slots (tagged untagged : Z) (m : Machine) :
  0 <= tagged < 2 ^ 31 -> 0 <= untagged < 2 ^ 28 ->
  exists fuel m',
    run fuel (Prologue_stack_slots tagged untagged) 0 m = Some m'
    /\ regs m' rsp = regs m rsp - 8 * (tagged + untagged)
    /\ (forall i, 0 <= i < tagged -> mem m' (regs m rsp - 8 * (i + 1)) = 0)
    /\ (forall a, regs m rsp <= a -> mem m' a = mem m a)
    /\ (forall r, r <> rsp -> r <> rax -> r <> rbx -> regs m' r = regs m r).
Proof.
  intros Htagged [Huntagged _].
  unfold Prologue_stack_slots. fold (untagged_slots_code untagged).
  pose proof (Forall_straight_untagged untagged) as Hstraight.
  destruct (Z.ltb_spec 0 tagged) as [Hpos|Hzero].
  - destruct (exec_Move_rax m) as [Hmove Hmove_rbx].
    set (m0 := exec_straight m (Move rax 0)) in *.
    cbv zeta.
    destruct (Z.ltb_spec tagged (2 * kLoopUnrollSize)) as [Hsmall|Hbig].
    + (* few slots: the pushes are unrolled *)
      set (code := (Move rax 0 :: replicate (Z.to_nat tagged) (pushq rax))
                   ++ untagged_slots_code untagged).
      assert (Hcode : Forall (fun i => straight i = true) code).
      { subst code. apply Forall_app. split; [|exact Hstraight].
        constructor; [reflexivity|apply Forall_straight_pushes]. }
      exists (length code). eexists. split; [apply run_all_straight; exact Hcode|].
      subst code. rewrite foldl_app. cbn [foldl]. fold m0.
      destruct (exec_zero_pushes (Z.to_nat tagged) m0 (pushed_rax _ _ _ Hmove))
        as [Hpushed _].
      rewrite Z2Nat.id in Hpushed by lia.
      set (m1 := foldl exec_straight m0 (replicate (Z.to_nat tagged) (pushq rax))) in *.
      destruct (exec_untagged_slots untagged m1 Huntagged) as (Hsp & Hregs & Hmem).
      pose proof (Pushed_trans 0 tagged m m0 m1 ltac:(lia) ltac:(lia) Hmove Hpushed)
        as [Hsp1 _ Hregs1 Hzero1 Hmem1].
      split_and!.
      * rewrite Hsp, Hsp1. lia.
      * intros i Hi. rewrite Hmem. apply Hzero1. lia.
      * intros a Ha. rewrite Hmem. apply Hmem1. exact Ha.
      * intros r Hr1 Hr2 Hr3. rewrite Hregs by exact Hr1. apply Hregs1; assumption.
    + (* many slots: the loop *)
      unfold kLoopUnrollSize in *. change (Z.to_nat 8) with 8%nat.
      pose proof (Z.quot_rem' tagged 8) as Hquot_rem.
      pose proof (Z.rem_bound_pos tagged 8 ltac:(lia) ltac:(lia)) as Hrem.
      set (first_slots := Z.rem tagged 8) in *.
      set (rounds := Z.quot tagged 8) in *.
      set (A := Move rax 0 :: replicate (Z.to_nat first_slots) (pushq rax)
                ++ [Move rbx rounds]).
      set (body := bind loop :: replicate 8 (pushq rax) ++ [decl rbx]).
      set (U := untagged_slots_code untagged) in *.
      set (code := A ++ body ++ j greater loop :: U).
      assert (Hcode : (Move rax 0 :: replicate (Z.to_nat first_slots) (pushq rax)
                       ++ [Move rbx rounds; bind loop] ++ replicate 8 (pushq rax)
                       ++ [decl rbx; j greater loop]) ++ U = code).
      { subst code A body. cbn [app]. rewrite <- !app_assoc. reflexivity. }
      rewrite Hcode.
      assert (HA : Forall (fun i => straight i = true) A).
      { subst A. constructor; [reflexivity|]. apply Forall_app.
        split; [apply Forall_straight_pushes|repeat constructor]. }
      assert (HA' : Forall (fun i => match i with bind _ => False | _ => True end) A).
      { subst A. constructor; [exact I|]. apply Forall_app.
        split; [apply Forall_replicate; exact I|repeat constructor]. }
      (* the first slots *)
      destruct (exec_zero_pushes (Z.to_nat first_slots) m0 (pushed_rax _ _ _ Hmove))
        as [Hfirst _].
      rewrite Z2Nat.id in Hfirst by lia.
      destruct (exec_Move_rbx first_slots rounds m0 _ Hfirst) as [HpushedA Hrounds].
      set (mA := foldl exec_straight m A).
      assert (HmA : exec_straight
                      (foldl exec_straight m0 (replicate (Z.to_nat first_slots) (pushq rax)))
                      (Move rbx rounds) = mA).
      { subst mA A. cbn [foldl]. rewrite foldl_app. reflexivity. }
      rewrite HmA in HpushedA, Hrounds.
      (* the loop *)
      destruct (run_loop A U (Z.to_nat rounds) (length U + 0) mA HA')
        as (m2 & Hpushed2 & Hrun2);
        [lia|lia|rewrite Hrounds; lia|exact (pushed_rax _ _ _ HpushedA)|].
      fold body in Hrun2. fold code in Hrun2.
      rewrite Z2Nat.id in Hpushed2 by lia.
      (* the untagged slots *)
      destruct (exec_untagged_slots untagged m2 Huntagged) as (Hsp & Hregs & Hmem).
      fold U in Hsp, Hregs, Hmem.
      set (m3 := foldl exec_straight m2 U) in *.
      exists (length A + (11 * Z.to_nat rounds + (length U + 0)))%nat, m3. split.
      { pose proof (run_straight A [] (body ++ j greater loop :: U)
                      (11 * Z.to_nat rounds + (length U + 0)) m HA) as Hrun1.
        change ([] ++ A ++ body ++ j greater loop :: U) with code in Hrun1.
        change (length (@nil Instr) + length A)%nat with (length A) in Hrun1.
        change (length (@nil Instr)) with 0%nat in Hrun1.
        rewrite Hrun1. fold mA. rewrite Hrun2.
        pose proof (run_straight U (A ++ body ++ [j greater loop]) [] 0 m2 Hstraight)
          as Hrun3.
        assert (Hcode3 : (A ++ body ++ [j greater loop]) ++ U ++ [] = code).
        { subst code. rewrite app_nil_r, <- !app_assoc. reflexivity. }
        assert (Hlength : length (A ++ body ++ [j greater loop]) = (length A + 11)%nat).
        { rewrite !length_app. subst body. cbn. lia. }
        rewrite Hcode3, Hlength in Hrun3. rewrite Hrun3. fold m3.
        assert (Hend : code !! (length A + 11 + length U)%nat = None).
        { apply lookup_ge_None_2. rewrite <- Hcode3, !length_app.
          subst body. cbn. lia. }
        cbn [run]. rewrite Hend. reflexivity. }
      pose proof (Pushed_trans 0 first_slots m m0 mA ltac:(lia) ltac:(lia) Hmove HpushedA)
        as HpushedA'.
      pose proof (Pushed_trans (0 + first_slots) (8 * rounds) m mA m2 ltac:(lia) ltac:(lia)
                    HpushedA' Hpushed2) as [Hsp2 _ Hregs2 Hzero2 Hmem2].
      split_and!.
      * rewrite Hsp, Hsp2. lia.
      * intros i Hi. rewrite Hmem. apply Hzero2. lia.
      * intros a Ha. rewrite Hmem. apply Hmem2. exact Ha.
      * intros r Hr1 Hr2 Hr3. rewrite Hregs by exact Hr1. apply Hregs2; assumption.
  - (* no tagged slot *)
    assert (tagged = 0) as -> by lia. cbn [app].
    exists (length (untagged_slots_code untagged)). eexists.
    split; [apply run_all_straight; exact Hstraight|].
    destruct (exec_untagged_slots untagged m Huntagged) as (Hsp & Hregs & Hmem).
    split_and!.
    + rewrite Hsp. lia.
    + intros i Hi. lia.
    + intros a _. rewrite Hmem. reflexivity.
    + intros r Hr _ _. apply Hregs. exact Hr.
Qed.

End Prologue.

(** ** An instance: a frame of 19 tagged and 2 untagged slots *)

Definition example_machine : Machine :=
  mkMachine (fun r => if Nat.eqb r rsp then 4096 else 7) (fun _ => 5) false false false.

Lemma Prologue_zeroes_tagged_slots_witness :
  exists fuel m',
    run fuel (Prologue_stack_slots 8 19 2) 0 example_machine = Some m'
    /\ regs m' rsp = regs example_machine rsp - 8 * (19 + 2)
    /\ (forall i, 0 <= i < 19 -> mem m' (regs example_machine rsp - 8 * (i + 1)) = 0)
    /\ (forall a, regs example_machine rsp <= a -> mem m' a = mem example_machine a)
    /\ (forall r, r <> rsp -> r <> rax -> r <> rbx -> regs m' r = regs example_machine r).
Proof.
  apply (Prologue_zeroes_tagged_slots 8 eq_refl 19 2 example_machine); lia.
Defined.

End MaglevPrologue.

(* ===================================================================== *)
(** * What follows an instruction that sets the flags
    ([ShouldClearOutputRegisterBeforeInstruction], [AssembleArchBranch],
    [AssembleArchTrap], [AssembleArchBoolean], [AssembleArchTableSwitch],
    [AssembleArchSelect] and [AssembleJumpTable] of
    src/compiler/backend/x64/code-generator-x64.cc) *)
(* ===================================================================== *)

Module FlagsContinuation.

Abbreviation Register := nat.

(** [FlagsCondition] and [FlagsMode] are declared outside this file.  Of
    their enumerators the file names the ones below; [kOtherFlagsCondition]
    and [kOtherFlagsMode] stand for the rest. *)
Inductive FlagsCondition :=
  | kEqual | kNotEqual
  | kSignedLessThan | kSignedGreaterThanOrEqual
  | kSignedLessThanOrEqual | kSignedGreaterThan
  | kUnsignedLessThan | kUnsignedGreaterThanOrEqual
  | kUnsignedLessThanOrEqual | kUnsignedGreaterThan
  | kUnorderedEqual | kUnorderedNotEqual
  | kOverflow | kNotOverflow
  | kOtherFlagsCondition.

#[global] Instance FlagsCondition_eq_dec : EqDecision FlagsCondition.
Proof. solve_decision. Defined.

Inductive FlagsMode := kFlags_set | kOtherFlagsMode.

#[global] Instance FlagsMode_eq_dec : EqDecision FlagsMode.
Proof. solve_decision. Defined.

(** The conditions of the x64 instructions [j], [setcc] and [cmov]. *)
Inductive Condition :=
  | equal | not_equal
  | less | greater_equal | less_equal | greater
  | below | above_equal | below_equal | above
  | overflow | no_overflow
  | parity_even | parity_odd.

(** [UNREACHABLE()] is [None]. *)
Definition FlagsConditionToCondition (condition : FlagsCondition) : option Condition :=
  match condition with
  | kUnorderedEqual | kEqual => Some equal
  | kUnorderedNotEqual | kNotEqual => Some not_equal
  | kSignedLessThan => Some less
  | kSignedGreaterThanOrEqual => Some greater_equal
  | kSignedLessThanOrEqual => Some less_equal
  | kSignedGreaterThan => Some greater
  | kUnsignedLessThan => Some below
  | kUnsignedGreaterThanOrEqual => Some above_equal
  | kUnsignedLessThanOrEqual => Some below_equal
  | kUnsignedGreaterThan => Some above
  | kOverflow => Some overflow
  | kNotOverflow => Some no_overflow
  | kOtherFlagsCondition => None
  end.

Inductive MachineRepresentation := kWord32 | kWord64 | kOtherRepresentation.

#[global] Instance MachineRepresentation_eq_dec : EqDecision MachineRepresentation.
Proof. solve_decision. Defined.

(** The labels: the ones of other code (of a block, of out of line code, of
    a jump table) and the ones that the functions below declare. *)
Inductive Label :=
  | Target (n : nat)
  | check | done | end_label.

#[global] Instance Label_eq_dec : EqDecision Label.
Proof. solve_decision. Defined.

Inductive Distance := kNear | kFar.

(** The operands of an instruction, as far as the functions below tell them
    apart: a register, a stack slot, or the number of a block. *)
Inductive InstructionOperand :=
  | RegisterOperand (rep : MachineRepresentation) (r : Register)
  | StackSlotOperand (rep : MachineRepresentation) (index : Z)
  | RpoOperand (rpo : nat).

Record Instruction := mkInstruction {
  flags_mode : FlagsMode;          (* [FlagsModeField::decode(opcode())] *)
  flags_condition : FlagsCondition; (* [FlagsConditionField::decode(opcode())] *)
  outputs : list InstructionOperand;
  inputs : list InstructionOperand
}.

Record BranchInfo := mkBranchInfo {
  condition : FlagsCondition;
  true_label : Label;
  false_label : Label;
  fallthru : bool
}.

Section Continuation.

(** The x64 operand of a stack slot; [SlotToOperand] asks the frame access
    state for it. *)
Context {Operand : Type}.
Variable SlotToOperand : Z -> Z -> Operand.

(** The label of a block. *)
Variable GetLabel : nat -> Label.

Variable kScratchRegister : Register.

Inductive ScaleFactor := times_1 | times_2 | times_4 | times_8.

Inductive Instr :=
  | j (cc : Condition) (l : Label) (distance : Distance)
  | jmp (l : Label) (distance : Distance)
  | jmp_operand (base index : Register) (scale : ScaleFactor) (disp : Z)
  | bind (l : Label)
  | Move (dst : Register) (value : Z)
  | setcc (cc : Condition) (reg : Register)
  | movzxbl (dst src : Register)
  | xorl (dst src : Register)
  | cmpl (dst : Register) (imm : Z)
  | leaq (dst : Register) (l : Label)
  | cmovl (cc : Condition) (dst : Register) (src : Register + Operand)
  | cmovq (cc : Condition) (dst : Register) (src : Register + Operand)
  | dq (l : Label).

(** ** The operand converter *)

(** A failing [DCHECK] is [None]. *)

Definition IsRegister (op : InstructionOperand) : bool :=
  match op with RegisterOperand _ _ => true | _ => false end.

Definition ToRegister (op : InstructionOperand) : option Register :=
  match op with RegisterOperand _ r => Some r | _ => None end.

Definition ToOperand (op : InstructionOperand) (extra : Z) : option Operand :=
  match op with
  | StackSlotOperand _ index => Some (SlotToOperand index extra)
  | _ => None
  end.

Definition InputCount (instr : Instruction) : nat := length (inputs instr).
Definition OutputCount (instr : Instruction) : nat := length (outputs instr).

Definition InputRegister (instr : Instruction) (index : nat) : option Register :=
  inputs instr !! index ≫= ToRegister.

Definition OutputRegister (instr : Instruction) (index : nat) : option Register :=
  outputs instr !! index ≫= ToRegister.

Definition InputOperand (instr : Instruction) (index : nat) : option Operand :=
  inputs instr !! index ≫= fun op => ToOperand op 0.

Definition InputRpo (instr : Instruction) (index : nat) : option nat :=
  match inputs instr !! index with
  | Some (RpoOperand rpo) => Some rpo
  | _ => None
  end.

Definition HasRegisterInput (instr : Instruction) (index : nat) : option bool :=
  IsRegister <$> inputs instr !! index.

(** The last output; there is none when the instruction has no output. *)
Definition last_output (instr : Instruction) : option Register :=
  match OutputCount instr with
  | O => None
  | S index => OutputRegister instr index
  end.

(** ** ShouldClearOutputRegisterBeforeInstruction *)

(** The loop over the inputs, from [index] on. *)
Fixpoint no_input_is (instr : Instruction) (reg : Register) (count index : nat)
    : option bool :=
  match count with
  | O => Some true
  | S count' =>
      HasRegisterInput instr index ≫= fun is_register : bool =>
      if is_register then
        input ← InputRegister instr index;
        if Nat.eqb reg input then Some false
        else no_input_is instr reg count' (S index)
      else no_input_is instr reg count' (S index)
  end.

Definition ShouldClearOutputRegisterBeforeInstruction (instr : Instruction)
    : option bool :=
  let mode := flags_mode instr in
  if decide (mode = kFlags_set) then
    let condition := flags_condition instr in
    if decide (condition <> kUnorderedEqual /\ condition <> kUnorderedNotEqual) then
      reg ← last_output instr;
      no_input_is instr reg (InputCount instr) 0
    else Some false
  else Some false.

(** The first lines of [AssembleArchInstruction] (l. 1253-1258): what is
    assembled before the instruction itself. *)
Definition AssembleArchInstruction_clear (instr : Instruction) : option (list Instr) :=
  ShouldClearOutputRegisterBeforeInstruction instr ≫= fun clear : bool =>
  if clear then
    reg ← last_output instr;
    Some [xorl reg reg]
  else Some [].

(** ** AssembleArchBranch *)

Definition AssembleArchBranch (branch : BranchInfo) : option (list Instr) :=
  let flabel_distance := if fallthru branch then kNear else kFar in
  let tlabel := true_label branch in
  let flabel := false_label branch in
  cc ← FlagsConditionToCondition (condition branch);
  Some ((if decide (condition branch = kUnorderedEqual) then
           [j parity_even flabel flabel_distance]
         else if decide (condition branch = kUnorderedNotEqual) then
           [j parity_even tlabel kFar]
         else [])
        ++ [j cc tlabel kFar]
        ++ (if fallthru branch then [] else [jmp flabel flabel_distance])).

(** ** AssembleArchTrap *)

(** [ool_entry] is the entry of the out of line trap that the function
    allocates. *)
Definition AssembleArchTrap (ool_entry : Label) (condition : FlagsCondition)
    : option (list Instr) :=
  let tlabel := ool_entry in
  cc ← FlagsConditionToCondition condition;
  Some ((if decide (condition = kUnorderedEqual) then
           [j parity_even end_label kNear]
         else if decide (condition = kUnorderedNotEqual) then
           [j parity_even tlabel kFar]
         else [])
        ++ [j cc tlabel kFar; bind end_label]).

(** ** AssembleArchBoolean *)

Definition AssembleArchBoolean (instr : Instruction) (condition : FlagsCondition)
    : option (list Instr) :=
  reg ← last_output instr;
  cc ← FlagsConditionToCondition condition;
  ShouldClearOutputRegisterBeforeInstruction instr ≫= fun clear : bool =>
  Some ((if decide (condition = kUnorderedEqual) then
           [j parity_odd check kNear; Move reg 0; jmp done kNear]
         else if decide (condition = kUnorderedNotEqual) then
           [j parity_odd check kNear; Move reg 1; jmp done kNear]
         else [])
        ++ [bind check; setcc cc reg]
        ++ (if negb clear then [movzxbl reg reg] else [])
        ++ [bind done]).

(** ** AssembleArchTableSwitch and AssembleJumpTable *)

(** The labels of the cases, from input [index] on. *)
Fixpoint case_labels (instr : Instruction) (case_count index : nat)
    : option (list Label) :=
  match case_count with
  | O => Some []
  | S case_count' =>
      rpo ← InputRpo instr index;
      rest ← case_labels instr case_count' (S index);
      Some (GetLabel rpo :: rest)
  end.

(** [AddJumpTable] belongs to the other half of the code generator; the
    function returns the cases it adds together with the code, [table] is the
    label [AddJumpTable] gives them. *)
Definition AssembleArchTableSwitch (instr : Instruction) (table : Label)
    : option (list Instr * list Label) :=
  input ← InputRegister instr 0;
  if (InputCount instr <? 2)%nat then None
  else
    let case_count := (InputCount instr - 2)%nat in
    cases ← case_labels instr case_count 2;
    default ← InputRpo instr 1;
    Some ([cmpl input (Z.of_nat case_count);
           j above_equal (GetLabel default) kFar;
           leaq kScratchRegister table;
           jmp_operand kScratchRegister input times_8 0],
          cases).

Definition AssembleJumpTable (targets : list Label) : list Instr :=
  dq <$> targets.

(** ** AssembleArchSelect *)

Definition output_representation (instr : Instruction) : option MachineRepresentation :=
  match outputs instr !! 0%nat with
  | Some (RegisterOperand rep _) | Some (StackSlotOperand rep _) => Some rep
  | _ => None
  end.

Definition AssembleArchSelect (instr : Instruction) (condition : FlagsCondition)
    : option (list Instr) :=
  rep ← output_representation instr;
  cc ← FlagsConditionToCondition condition;
  output ← OutputRegister instr 0;
  if (InputCount instr <? 2)%nat then None
  else
    first ← InputRegister instr (InputCount instr - 2);
    if negb (Nat.eqb output first) then None
    else
      let last_input := (InputCount instr - 1)%nat in
      if decide (condition = kUnorderedEqual) then None
      else
        HasRegisterInput instr last_input ≫= fun is_register : bool =>
        src ← (if is_register then inl <$> InputRegister instr last_input
               else inr <$> InputOperand instr last_input);
        if decide (rep = kWord32) then
          Some (cmovl cc output src
                :: (if decide (condition = kUnorderedNotEqual)
                    then [cmovl parity_even output src] else []))
        else if decide (rep = kWord64) then
          Some (cmovq cc output src
                :: (if decide (condition = kUnorderedNotEqual)
                    then [cmovq parity_even output src] else []))
        else None.

(** ** The machine *)

Record Flags := mkFlags {
  CF : bool;
  ZF : bool;
  SF : bool;
  OF : bool;
  PF : bool
}.

Definition holds (cc : Condition) (f : Flags) : bool :=
  match cc with
  | equal => ZF f
  | not_equal => negb (ZF f)
  | less => negb (Bool.eqb (SF f) (OF f))
  | greater_equal => Bool.eqb (SF f) (OF f)
  | less_equal => ZF f || negb (Bool.eqb (SF f) (OF f))
  | greater => negb (ZF f) && Bool.eqb (SF f) (OF f)
  | below => CF f
  | above_equal => negb (CF f)
  | below_equal => CF f || ZF f
  | above => negb (CF f) && negb (ZF f)
  | overflow => OF f
  | no_overflow => negb (OF f)
  | parity_even => PF f
  | parity_odd => negb (PF f)
  end.

(** Registers hold 64 bit words; the memory is read at operands and, for
    the jump tables, at addresses. *)
Record Machine := mkMachine {
  regs : Register -> Z;
  flags : Flags;
  mem : Operand -> Z;
  code_mem : Z -> Z
}.

Definition set_reg (r : Register) (v : Z) (m : Machine) : Machine :=
  mkMachine (fun r' => if Nat.eqb r' r then v else regs m r') (flags m) (mem m)
    (code_mem m).

Definition set_flags (f : Flags) (m : Machine) : Machine :=
  mkMachine (regs m) f (mem m) (code_mem m).

(** The parity flag: the low byte has an even number of bits set. *)
Definition parity (v : Z) : bool :=
  negb (fold_right xorb false (map (fun i => Z.testbit v (Z.of_nat i)) (seq 0 8))).

(** The flags of a 32 bit result of a logical instruction. *)
Definition logic_flags (v : Z) : Flags :=
  mkFlags false (v =? 0) (Z.testbit v 31) false (parity v).

Definition signed32 (v : Z) : Z :=
  if v mod 2 ^ 32 <? 2 ^ 31 then v mod 2 ^ 32 else v mod 2 ^ 32 - 2 ^ 32.

(** The flags of the 32 bit comparison of [a] with [b]. *)
Definition compare_flags (a b : Z) : Flags :=
  let a := a mod 2 ^ 32 in
  let b := b mod 2 ^ 32 in
  let difference := (a - b) mod 2 ^ 32 in
  mkFlags (a <? b) (difference =? 0) (Z.testbit difference 31)
    (negb (signed32 a - signed32 b =? signed32 difference)) (parity difference).

Definition factor (s : ScaleFactor) : Z :=
  match s with
  | times_1 => 1
  | times_2 => 2
  | times_4 => 4
  | times_8 => 8
  end.

Definition read (m : Machine) (src : Register + Operand) : Z :=
  match src with
  | inl r => regs m r
  | inr op => mem m op
  end.

(** How the code ends: it runs off its end, it jumps to a label that it does
    not bind, or it jumps to the address that it read. *)
Inductive Outcome :=
  | FallsThrough (m : Machine)
  | JumpsTo (l : Label) (m : Machine)
  | JumpsToAddress (address : Z) (m : Machine).

(** The macro [Move] is defined by the assembler; how it leaves the flags is
    not fixed here. *)
Variable Move_flags : Z -> Flags -> Flags.

(** The address at which a label is bound. *)
Variable label_address : Label -> Z.

(** The jumps of this code go forward: after a jump to [l] the instructions
    up to [bind l] are skipped ([pending] is [Some l]). *)
Fixpoint exec (pending : option Label) (code : list Instr) (m : Machine) : Outcome :=
  match code with
  | [] =>
      match pending with
      | None => FallsThrough m
      | Some l => JumpsTo l m
      end
  | i :: rest =>
      match pending with
      | Some l =>
          match i with
          | bind l' => if decide (l' = l) then exec None rest m else exec pending rest m
          | _ => exec pending rest m
          end
      | None =>
          match i with
          | j cc l _ => if holds cc (flags m) then exec (Some l) rest m else exec None rest m
          | jmp l _ => exec (Some l) rest m
          | jmp_operand base index scale disp =>
              JumpsToAddress
                (code_mem m ((regs m base + regs m index * factor scale + disp) mod 2 ^ 64)) m
          | bind _ => exec None rest m
          | Move dst value =>
              exec None rest (set_reg dst (value mod 2 ^ 64)
                                (set_flags (Move_flags value (flags m)) m))
          | setcc cc reg =>
              exec None rest
                (set_reg reg (regs m reg - regs m reg mod 2 ^ 8
                              + (if holds cc (flags m) then 1 else 0)) m)
          | movzxbl dst src => exec None rest (set_reg dst (regs m src mod 2 ^ 8) m)
          | xorl dst src =>
              let value := Z.lxor (regs m dst mod 2 ^ 32) (regs m src mod 2 ^ 32) in
              exec None rest (set_reg dst value (set_flags (logic_flags value) m))
          | cmpl dst imm => exec None rest (set_flags (compare_flags (regs m dst) imm) m)
          | leaq dst l => exec None rest (set_reg dst (label_address l) m)
          | cmovl cc dst src =>
              exec None rest
                (set_reg dst ((if holds cc (flags m) then read m src else regs m dst)
                              mod 2 ^ 32) m)
          | cmovq cc dst src =>
              exec None rest
                (set_reg dst (if holds cc (flags m) then read m src else regs m dst) m)
          | dq _ => exec None rest m
          end
      end
  end.

(** ** The continuations agree *)

(** What a continuation with [condition] does on the flags [f]: the two
    unordered conditions look at the parity flag as well, which a floating
    point comparison sets when an operand is not a number. *)
Definition continues (condition : FlagsCondition) (cc : Condition) (f : Flags) : bool :=
  match condition with
  | kUnorderedEqual => negb (PF f) && holds cc f
  | kUnorderedNotEqual => PF f || holds cc f
  | _ => holds cc f
  end.

Definition machine (o : Outcome) : Machine :=
  match o with
  | FallsThrough m | JumpsTo _ m | JumpsToAddress _ m => m
  end.

Lemma no_input_is_Some (instr : Instruction) (reg : Register) (count index : nat) :
  (index + count <= InputCount instr)%nat ->
  exists clear, no_input_is instr reg count index = Some clear.
Proof.
  revert index. induction count as [|count IH]; intros index Hindex.
  - exists true. reflexivity.
  - cbn [no_input_is]. unfold HasRegisterInput, InputRegister.
    destruct (lookup_lt_is_Some_2 (inputs instr) index) as [op Hop];
      [unfold InputCount in Hindex; lia|].
    rewrite Hop. cbn.
    destruct op as [rep r| |]; cbn; try (apply IH; lia).
    destruct (Nat.eqb reg r); [exists false; reflexivity|apply IH; lia].
Qed.

Lemma ShouldClearOutputRegisterBeforeInstruction_Some (instr : Instruction)
    (reg : Register) :
  last_output instr = Some reg ->
  exists clear, ShouldClearOutputRegisterBeforeInstruction instr = Some clear.
Proof.
  intros Hreg. unfold ShouldClearOutputRegisterBeforeInstruction.
  destruct (decide (flags_mode instr = kFlags_set)); [|exists false; reflexivity].
  destruct (decide _); [|exists false; reflexivity].
  rewrite Hreg. cbn. apply no_input_is_Some. lia.
Qed.

(** No register that the loop has looked at is [reg]. *)
Lemma no_input_is_true (instr : Instruction) (reg : Register) (count index : nat) :
  no_input_is instr reg count index = Some true ->
  forall k r, (index <= k < index + count)%nat -> InputRegister instr k = Some r ->
  r <> reg.
Proof.
  revert index. induction count as [|count IH]; intros index Hloop k r Hk Hr; [lia|].
  cbn [no_input_is] in Hloop.
  destruct (decide (k = index)) as [->|Hne].
  - unfold HasRegisterInput, InputRegister in *.
    destruct (inputs instr !! index) as [[rep r'| |]|]; try discriminate.
    cbn in Hloop, Hr. injection Hr as ->.
    destruct (Nat.eqb_spec reg r); [discriminate|congruence].
  - assert (Hrest : no_input_is instr reg count (S index) = Some true).
    { destruct (HasRegisterInput instr index) as [[|]|]; cbn in Hloop;
        try discriminate; [|exact Hloop].
      destruct (InputRegister instr index) as [input|]; cbn in Hloop; [|discriminate].
      destruct (Nat.eqb reg input); [discriminate|exact Hloop]. }
    apply (IH (S index) Hrest k r); [lia|exact Hr].
Qed.

(** [AssembleArchInstruction] never clears a register that the instruction
    reads.  The code that it puts before an instruction of which
    [AssembleArchBoolean] is to materialize the condition runs through and
    leaves the registers of all inputs, and the memory, as they are; when
    [ShouldClearOutputRegisterBeforeInstruction] holds it leaves zero in the
    last output register. *)
Theorem AssembleArchInstruction_clear_keeps_inputs (instr : Instruction)
    (reg : Register) (m : Machine) :
  last_output instr = Some reg ->
  exists clear code m',
    ShouldClearOutputRegisterBeforeInstruction instr = Some clear
    /\ AssembleArchInstruction_clear instr = Some code
    /\ exec None code m = FallsThrough m'
    /\ (clear = true -> regs m' reg = 0)
    /\ (forall index r, InputRegister instr index = Some r -> regs m' r = regs m r)
    /\ mem m' = mem m.
Proof.
  intros Hreg.
  destruct (ShouldClearOutputRegisterBeforeInstruction_Some instr reg Hreg)
    as [clear Hclear].
  exists clear. unfold AssembleArchInstruction_clear. rewrite Hclear. cbn.
  destruct clear.
  - rewrite Hreg. cbn. eexists _, _. split_and!; try reflexivity.
    + intros _. cbn. rewrite Nat.eqb_refl. apply Z.lxor_nilpotent.
    + intros index r Hr. cbn.
      destruct (Nat.eqb_spec r reg) as [->|]; [|reflexivity].
      exfalso. unfold ShouldClearOutputRegisterBeforeInstruction in Hclear.
      destruct (decide (flags_mode instr = kFlags_set)); [|discriminate].
      destruct (decide _); [|discriminate].
      rewrite Hreg in Hclear. cbn in Hclear.
      assert (Hindex : (index < InputCount instr)%nat).
      { unfold InputRegister in Hr. apply lookup_lt_is_Some.
        destruct (inputs instr !! index); [eauto|discriminate]. }
      apply (no_input_is_true instr reg _ 0 Hclear index reg); [lia|exact Hr|reflexivity].
  - eexists _, _. split_and!; try reflexivity. discriminate.
Qed.

Lemma continues_ordered (condition : FlagsCondition) (cc : Condition) (f : Flags) :
  condition <> kUnorderedEqual -> condition <> kUnorderedNotEqual ->
  continues condition cc f = holds cc f.
Proof. destruct condition; intros; try reflexivity; contradiction. Qed.

Lemma exec_AssembleArchBranch (branch : BranchInfo) (cc : Condition) (m : Machine) :
  FlagsConditionToCondition (condition branch) = Some cc ->
  exists code,
    AssembleArchBranch branch = Some code
    /\ if continues (condition branch) cc (flags m)
       then exec None code m = JumpsTo (true_label branch) m
       else exec None code m = JumpsTo (false_label branch) m
            \/ fallthru branch = true /\ exec None code m = FallsThrough m.
Proof.
  intros Hcc. unfold AssembleArchBranch. rewrite Hcc. cbn [mbind option_bind].
  eexists. split; [reflexivity|].
  destruct (decide (condition branch = kUnorderedEqual)) as [Hcond|Hcond];
    [|destruct (decide (condition branch = kUnorderedNotEqual)) as [Hcond'|Hcond']].
  - rewrite Hcond in Hcc |- *. injection Hcc as <-.
    cbn [continues app exec holds].
    destruct (PF (flags m)), (ZF (flags m)), (fallthru branch); cbn; auto.
  - rewrite Hcond' in Hcc |- *. injection Hcc as <-.
    cbn [continues app exec holds].
    destruct (PF (flags m)), (ZF (flags m)), (fallthru branch); cbn; auto.
  - rewrite continues_ordered by assumption. cbn [app exec].
    destruct (holds cc (flags m)), (fallthru branch); cbn; auto.
Qed.

Lemma exec_AssembleArchTrap (ool_entry : Label) (condition : FlagsCondition)
    (cc : Condition) (m : Machine) :
  FlagsConditionToCondition condition = Some cc ->
  ool_entry <> end_label ->
  exists code,
    AssembleArchTrap ool_entry condition = Some code
    /\ exec None code m
       = if continues condition cc (flags m) then JumpsTo ool_entry m else FallsThrough m.
Proof.
  intros Hcc Hool. unfold AssembleArchTrap. rewrite Hcc. cbn [mbind option_bind].
  eexists. split; [reflexivity|].
  assert (Hend : forall o : Outcome,
            (if decide (end_label = ool_entry) then FallsThrough m else o) = o).
  { intros o. destruct (decide (end_label = ool_entry)); congruence. }
  destruct (decide (condition = kUnorderedEqual)) as [Hcond|Hcond];
    [|destruct (decide (condition = kUnorderedNotEqual)) as [Hcond'|Hcond']].
  - rewrite Hcond in Hcc |- *. injection Hcc as <-.
    cbn [continues app exec holds].
    destruct (PF (flags m)), (ZF (flags m)); cbn; rewrite ?Hend; reflexivity.
  - rewrite Hcond' in Hcc |- *. injection Hcc as <-.
    cbn [continues app exec holds].
    destruct (PF (flags m)), (ZF (flags m)); cbn; rewrite ?Hend; reflexivity.
  - rewrite continues_ordered by assumption. cbn [app exec].
    destruct (holds cc (flags m)); cbn; rewrite ?Hend; reflexivity.
Qed.

Lemma setcc_byte (v b : Z) : 0 <= b < 2 ^ 8 -> (v - v mod 2 ^ 8 + b) mod 2 ^ 8 = b.
Proof.
  intros Hb.
  replace (v - v mod 2 ^ 8 + b) with (b + (v / 2 ^ 8) * 2 ^ 8)
    by (pose proof (Z.div_mod v (2 ^ 8)); lia).
  rewrite Z.mod_add by lia. apply Z.mod_small. lia.
Qed.

(** [setcc] and what follows it. *)
Lemma exec_setcc (cc : Condition) (reg : Register) (clear : bool) (m : Machine) :
  (clear = true -> regs m reg = 0) ->
  exists m',
    exec None (setcc cc reg :: (if negb clear then [movzxbl reg reg] else [])
               ++ [bind done]) m = FallsThrough m'
    /\ regs m' reg = (if holds cc (flags m) then 1 else 0)
    /\ (forall r, r <> reg -> regs m' r = regs m r)
    /\ mem m' = mem m.
Proof.
  intros Hzero. destruct clear; cbn [negb app exec].
  - eexists. split; [reflexivity|]. cbn. rewrite Nat.eqb_refl.
    rewrite Hzero by reflexivity. split_and!.
    + destruct (holds cc (flags m)); reflexivity.
    + intros r Hr. destruct (Nat.eqb_spec r reg); [contradiction|reflexivity].
    + reflexivity.
  - eexists. split; [reflexivity|]. cbn. rewrite !Nat.eqb_refl. split_and!.
    + destruct (holds cc (flags m)); apply setcc_byte; lia.
    + intros r Hr. destruct (Nat.eqb_spec r reg); [contradiction|reflexivity].
    + reflexivity.
Qed.

Lemma exec_AssembleArchBoolean (instr : Instruction) (condition : FlagsCondition)
    (cc : Condition) (reg : Register) (m : Machine) :
  FlagsConditionToCondition condition = Some cc ->
  last_output instr = Some reg ->
  (ShouldClearOutputRegisterBeforeInstruction instr = Some true -> regs m reg = 0) ->
  exists code m',
    AssembleArchBoolean instr condition = Some code
    /\ exec None code m = FallsThrough m'
    /\ regs m' reg = (if continues condition cc (flags m) then 1 else 0)
    /\ (forall r, r <> reg -> regs m' r = regs m r)
    /\ mem m' = mem m.
Proof.
  intros Hcc Hreg Hclear.
  destruct (ShouldClearOutputRegisterBeforeInstruction_Some instr reg Hreg)
    as [clear Hclear'].
  unfold AssembleArchBoolean.
  rewrite Hcc, Hreg, Hclear'. cbn [mbind option_bind].
  assert (Hzero : clear = true -> regs m reg = 0) by (intros ->; auto).
  destruct (exec_setcc cc reg clear m Hzero) as (m' & Hexec & Hvalue & Hregs & Hmem).
  assert (Hmove : forall value, 0 <= value < 2 ^ 64 ->
            exists m',
              exec (Some done) ((if negb clear then [movzxbl reg reg] else [])
                                ++ [bind done])
                (set_reg reg (value mod 2 ^ 64)
                   (set_flags (Move_flags value (flags m)) m)) = FallsThrough m'
              /\ regs m' reg = value
              /\ (forall r, r <> reg -> regs m' r = regs m r)
              /\ mem m' = mem m).
  { intros value Hvalue'. eexists. split.
    - destruct clear; cbn; reflexivity.
    - cbn. rewrite Nat.eqb_refl. split_and!; [apply Z.mod_small; lia| |reflexivity].
      intros r Hr. destruct (Nat.eqb_spec r reg); [contradiction|reflexivity]. }
  destruct (decide (condition = kUnorderedEqual)) as [Hcond|Hcond];
    [|destruct (decide (condition = kUnorderedNotEqual)) as [Hcond'|Hcond']].
  - rewrite Hcond in Hcc |- *. injection Hcc as <-.
    cbn [continues app exec holds] in *.
    destruct (PF (flags m)) eqn:HPF; cbn [negb andb].
    + destruct (Hmove 0 ltac:(lia)) as (m0 & Hexec0 & Hvalue0 & Hregs0 & Hmem0).
      eexists _, m0. split; [reflexivity|].
      cbn [app exec holds]. rewrite HPF. cbn [negb]. auto.
    + eexists _, m'. split; [reflexivity|].
      cbn [app exec holds]. rewrite HPF. cbn [negb].
      destruct (decide (check = check)); [|contradiction]. auto.
  - rewrite Hcond' in Hcc |- *. injection Hcc as <-.
    cbn [continues app exec holds] in *.
    destruct (PF (flags m)) eqn:HPF; cbn [negb orb].
    + destruct (Hmove 1 ltac:(lia)) as (m1 & Hexec1 & Hvalue1 & Hregs1 & Hmem1).
      eexists _, m1. split; [reflexivity|].
      cbn [app exec holds]. rewrite HPF. cbn [negb]. auto.
    + eexists _, m'. split; [reflexivity|].
      cbn [app exec holds]. rewrite HPF. cbn [negb].
      destruct (decide (check = check)); [|contradiction]. auto.
  - rewrite continues_ordered by assumption.
    eexists _, m'. split; [reflexivity|]. cbn [app exec]. auto.
Qed.

(** The continuations agree.  For each of the fourteen conditions that
    [FlagsConditionToCondition] knows, and whatever the flags are, the code
    of [AssembleArchBranch] jumps to the true label, the code of
    [AssembleArchTrap] jumps to the trap and the code of
    [AssembleArchBoolean] leaves 1 in the whole of the output register in
    the same case: when the condition holds, where [kUnorderedEqual] fails
    and [kUnorderedNotEqual] holds if the parity flag is set.  Otherwise the
    branch goes to the false label (by a jump, or by falling through when
    the block follows), the trap is passed and the register is 0.  The
    register is clear before the instruction when
    [ShouldClearOutputRegisterBeforeInstruction] says so. *)
Theorem AssembleArchBoolean_agrees_with_AssembleArchBranch
    (instr : Instruction) (branch : BranchInfo) (ool_entry : Label) (cc : Condition)
    (reg : Register) (m : Machine) :
  FlagsConditionToCondition (condition branch) = Some cc ->
  last_output instr = Some reg ->
  ool_entry <> end_label ->
  (ShouldClearOutputRegisterBeforeInstruction instr = Some true -> regs m reg = 0) ->
  exists code_branch code_trap code_boolean m',
    AssembleArchBranch branch = Some code_branch
    /\ AssembleArchTrap ool_entry (condition branch) = Some code_trap
    /\ AssembleArchBoolean instr (condition branch) = Some code_boolean
    /\ exec None code_boolean m = FallsThrough m'
    /\ (forall r, r <> reg -> regs m' r = regs m r)
    /\ mem m' = mem m
    /\ if continues (condition branch) cc (flags m)
       then exec None code_branch m = JumpsTo (true_label branch) m
            /\ exec None code_trap m = JumpsTo ool_entry m
            /\ regs m' reg = 1
       else (exec None code_branch m = JumpsTo (false_label branch) m
             \/ fallthru branch = true /\ exec None code_branch m = FallsThrough m)
            /\ exec None code_trap m = FallsThrough m
            /\ regs m' reg = 0.
Proof.
  intros Hcc Hreg Hool Hclear.
  destruct (exec_AssembleArchBranch branch cc m Hcc) as (code_branch & Hbranch & Hexec1).
  destruct (exec_AssembleArchTrap ool_entry _ cc m Hcc Hool)
    as (code_trap & Htrap & Hexec2).
  destruct (exec_AssembleArchBoolean instr _ cc reg m Hcc Hreg Hclear)
    as (code_boolean & m' & Hboolean & Hexec3 & Hvalue & Hregs & Hmem).
  exists code_branch, code_trap, code_boolean, m'.
  split_and!; try assumption.
  destruct (continues (condition branch) cc (flags m)); auto.
Qed.

(** ** AssembleArchSelect selects *)

(** The value of an input: of a register or of a stack slot. *)
Definition input_value (m : Machine) (op : InstructionOperand) : option Z :=
  match op with
  | RegisterOperand _ r => Some (regs m r)
  | StackSlotOperand _ index => Some (mem m (SlotToOperand index 0))
  | RpoOperand _ => None
  end.

(** A 32 bit instruction clears the upper half of its register. *)
Definition truncate (rep : MachineRepresentation) (v : Z) : Z :=
  if decide (rep = kWord32) then v mod 2 ^ 32 else v.

(** The conditional moves of a select, the second one for
    [kUnorderedNotEqual]. *)
Lemma exec_cmov (rep : MachineRepresentation) (condition : FlagsCondition)
    (cc : Condition) (output : Register) (src : Register + Operand) (m : Machine) :
  let cmov := if decide (rep = kWord32) then cmovl else cmovq in
  FlagsConditionToCondition condition = Some cc ->
  condition <> kUnorderedEqual ->
  exists m',
    exec None (cmov cc output src
               :: (if decide (condition = kUnorderedNotEqual)
                   then [cmov parity_even output src] else [])) m = FallsThrough m'
    /\ regs m' output
       = truncate rep (if continues condition cc (flags m) then read m src
                       else regs m output)
    /\ (forall r, r <> output -> regs m' r = regs m r)
    /\ mem m' = mem m.
Proof.
  intros cmov Hcc Hcond. subst cmov. unfold truncate.
  destruct (decide (condition = kUnorderedNotEqual)) as [Hcond'|Hcond'].
  - rewrite Hcond' in Hcc |- *. injection Hcc as <-. cbn [continues holds].
    destruct (decide (rep = kWord32)); cbn [exec holds];
      (eexists; split; [reflexivity|]; cbn [set_reg regs mem flags];
       rewrite !Nat.eqb_refl; split_and!; [|intros r Hr; destruct (Nat.eqb_spec r output); [contradiction|reflexivity]|reflexivity]).
    + destruct src as [r|op]; cbn [read regs set_reg mem].
      * destruct (Nat.eqb_spec r output) as [->|];
          destruct (PF (flags m)), (ZF (flags m)); cbn [negb orb];
          rewrite ?Z.mod_mod by lia; reflexivity.
      * destruct (PF (flags m)), (ZF (flags m)); cbn [negb orb];
          rewrite ?Z.mod_mod by lia; reflexivity.
    + destruct src as [r|op]; cbn [read regs set_reg mem].
      * destruct (Nat.eqb_spec r output) as [->|];
          destruct (PF (flags m)), (ZF (flags m)); cbn [negb orb]; reflexivity.
      * destruct (PF (flags m)), (ZF (flags m)); cbn [negb orb]; reflexivity.
  - rewrite continues_ordered by assumption.
    destruct (decide (rep = kWord32)); cbn [exec];
      (eexists; split; [reflexivity|]; cbn [set_reg regs mem flags];
       rewrite !Nat.eqb_refl; split_and!;
       [reflexivity|intros r Hr; destruct (Nat.eqb_spec r output); [contradiction|reflexivity]|reflexivity]).
Qed.

(** [AssembleArchSelect] selects.  When it returns code, the condition is
    one that [FlagsConditionToCondition] knows and not [kUnorderedEqual], the
    output is the register of the last input but one, and the code leaves
    in the output the value of the last input (a register or a stack slot)
    if the condition holds -- for [kUnorderedNotEqual]: or the parity flag is
    set -- and the value that it had otherwise; for [kWord32] the low 32
    bits of it.  No other register and no memory is written. *)
Theorem AssembleArchSelect_selects (instr : Instruction) (condition : FlagsCondition)
    (code : list Instr) (m : Machine) :
  AssembleArchSelect instr condition = Some code ->
  exists cc rep output last value m',
    FlagsConditionToCondition condition = Some cc
    /\ condition <> kUnorderedEqual
    /\ output_representation instr = Some rep
    /\ OutputRegister instr 0 = Some output
    /\ InputRegister instr (InputCount instr - 2) = Some output
    /\ inputs instr !! (InputCount instr - 1)%nat = Some last
    /\ input_value m last = Some value
    /\ exec None code m = FallsThrough m'
    /\ regs m' output
       = truncate rep (if continues condition cc (flags m) then value
                       else regs m output)
    /\ (forall r, r <> output -> regs m' r = regs m r)
    /\ mem m' = mem m.
Proof.
  unfold AssembleArchSelect. intros Hcode.
  destruct (output_representation instr) as [rep|]; [|discriminate].
  destruct (FlagsConditionToCondition condition) as [cc|] eqn:Hcc; [|discriminate].
  destruct (OutputRegister instr 0) as [output|]; [|discriminate].
  cbn [mbind option_bind] in Hcode.
  destruct (InputCount instr <? 2)%nat; [discriminate|].
  destruct (InputRegister instr (InputCount instr - 2)) as [first_input|]; [|discriminate].
  cbn [mbind option_bind] in Hcode.
  destruct (Nat.eqb_spec output first_input) as [Hfirst|]; [|discriminate].
  subst first_input.
  cbn [negb] in Hcode.
  destruct (decide (condition = kUnorderedEqual)) as [|Hcond]; [discriminate|].
  unfold HasRegisterInput, InputRegister, InputOperand in Hcode.
  destruct (inputs instr !! (InputCount instr - 1)%nat) as [last|] eqn:Hlast;
    [|discriminate].
  cbn [fmap option_fmap option_map mbind option_bind] in Hcode.
  assert (Hsrc : exists src value,
            (if IsRegister last then inl <$> ToRegister last
             else inr <$> ToOperand last 0) = Some src
            /\ input_value m last = Some value /\ read m src = value).
  { destruct last as [rep' r|rep' index|rpo]; cbn in Hcode |- *;
      [eauto|eauto|discriminate]. }
  destruct Hsrc as (src & value & Hsrc & Hvalue & Hread).
  rewrite Hsrc in Hcode. cbn [mbind option_bind] in Hcode.
  destruct (exec_cmov rep condition cc output src m Hcc Hcond)
    as (m' & Hexec & Hout & Hregs & Hmem).
  subst value. exists cc, rep, output, last, (read m src), m'.
  split_and!; try reflexivity; try assumption.
  destruct (decide (rep = kWord32)) as [Hrep|Hrep].
  - injection Hcode as <-. exact Hexec.
  - destruct (decide (rep = kWord64)); [|discriminate].
    injection Hcode as <-. exact Hexec.
Qed.

(** ** AssembleArchTableSwitch dispatches *)

(** The jump table [code] is in the memory at [address]: each [dq] is the
    address of its label. *)
Definition assembled_at (address : Z) (code : list Instr) (m : Machine) : Prop :=
  forall (i : nat) (l : Label),
    code !! i = Some (dq l) -> code_mem m (address + 8 * Z.of_nat i) = label_address l.

Lemma case_labels_spec (instr : Instruction) (case_count index : nat)
    (cases : list Label) :
  case_labels instr case_count index = Some cases ->
  length cases = case_count
  /\ forall k, (k < case_count)%nat ->
       exists rpo, InputRpo instr (index + k) = Some rpo
                   /\ cases !! k = Some (GetLabel rpo).
Proof.
  revert index cases. induction case_count as [|n IH]; intros index cases Hcases.
  - injection Hcases as <-. split; [reflexivity|]. intros k Hk. lia.
  - cbn [case_labels] in Hcases.
    destruct (InputRpo instr index) as [rpo|] eqn:Hrpo; [|discriminate].
    cbn [mbind option_bind] in Hcases.
    destruct (case_labels instr n (S index)) as [rest|] eqn:Hrest; [|discriminate].
    injection Hcases as <-.
    destruct (IH (S index) rest Hrest) as [Hlength Hlookup].
    split; [cbn; lia|].
    intros [|k] Hk.
    + exists rpo. rewrite Nat.add_0_r. split; [exact Hrpo|reflexivity].
    + destruct (Hlookup k ltac:(lia)) as (rpo' & Hrpo' & Hk').
      exists rpo'. split; [|exact Hk'].
      replace (index + S k)%nat with (S index + k)%nat by lia. exact Hrpo'.
Qed.

(** [AssembleArchTableSwitch] dispatches.  The input register holds a zero
    extended 32 bit index and is not the scratch register, and the cases,
    fewer than 2^31, have been assembled by [AssembleJumpTable] at the
    table's label.  Then the code jumps to the address of the block of
    input [index + 2] if the index is less than the number of cases, and to
    the label of the block of input 1 otherwise. *)
Theorem AssembleArchTableSwitch_dispatches (instr : Instruction) (table : Label)
    (code : list Instr) (cases : list Label) (input : Register) (m : Machine) :
  AssembleArchTableSwitch instr table = Some (code, cases) ->
  InputRegister instr 0 = Some input ->
  input <> kScratchRegister ->
  Z.of_nat (length cases) < 2 ^ 31 ->
  0 <= label_address table ->
  label_address table + 8 * Z.of_nat (length cases) <= 2 ^ 64 ->
  assembled_at (label_address table) (AssembleJumpTable cases) m ->
  0 <= regs m input < 2 ^ 32 ->
  length cases = (InputCount instr - 2)%nat
  /\ if regs m input <? Z.of_nat (length cases) then
       exists rpo m',
         InputRpo instr (Z.to_nat (regs m input) + 2) = Some rpo
         /\ exec None code m = JumpsToAddress (label_address (GetLabel rpo)) m'
     else
       exists default m',
         InputRpo instr 1 = Some default
         /\ exec None code m = JumpsTo (GetLabel default) m'.
Proof.
  unfold AssembleArchTableSwitch.
  intros Hcode Hinput Hscratch Hcount Haddress Hend Htable Hindex.
  rewrite Hinput in Hcode. cbn [mbind option_bind] in Hcode.
  destruct (InputCount instr <? 2)%nat; [discriminate|].
  destruct (case_labels instr (InputCount instr - 2) 2) as [cases'|] eqn:Hcases;
    [|discriminate].
  cbn [mbind option_bind] in Hcode.
  destruct (InputRpo instr 1) as [default|] eqn:Hdefault; [|discriminate].
  injection Hcode as <- <-.
  destruct (case_labels_spec _ _ _ _ Hcases) as [Hlength Hlookup].
  split; [exact Hlength|]. rewrite <- Hlength.
  cbn [exec flags set_flags holds compare_flags CF].
  rewrite (Z.mod_small (regs m input)) by lia.
  rewrite (Z.mod_small (Z.of_nat (length cases'))) by lia.
  destruct (Z.ltb_spec (regs m input) (Z.of_nat (length cases'))) as [Hlt|Hge];
    cbn [negb].
  - destruct (Hlookup (Z.to_nat (regs m input)) ltac:(lia)) as (rpo & Hrpo & Hcase).
    exists rpo. eexists. split.
    + rewrite Nat.add_comm. exact Hrpo.
    + f_equal. cbn [regs set_reg set_flags code_mem factor].
      rewrite Nat.eqb_refl.
      destruct (Nat.eqb_spec input kScratchRegister); [contradiction|].
      rewrite Z.mod_small by lia.
      replace (label_address table + regs m input * 8 + 0)
        with (label_address table + 8 * Z.of_nat (Z.to_nat (regs m input))) by lia.
      apply Htable. unfold AssembleJumpTable. rewrite list_lookup_fmap, Hcase.
      reflexivity.
  - exists default. eexists. split; reflexivity.
Qed.

End Continuation.

(** ** Instances *)

Definition example_label_address (l : Label) : Z :=
  match l with
  | Target n => 4096 + 64 * Z.of_nat n
  | _ => 0
  end.

Definition example_Move_flags (value : Z) (f : Flags) : Flags :=
  if value =? 0 then logic_flags 0 else f.

Definition example_SlotToOperand (index extra : Z) : Z := 8 * index + extra.

(** A machine with register 0 clear and [r] in register [r], after a comparison of unequal numbers;
    the jump table of [example_switch] is at the address of [Target 100]. *)
Definition example_machine : Machine (Operand := Z) :=
  mkMachine (fun r => Z.of_nat r)
    (mkFlags true false true false false)
    (fun op => op + 1000)
    (fun address =>
       if address =? 10496 then example_label_address (Target 4)
       else if address =? 10504 then example_label_address (Target 5)
       else if address =? 10512 then example_label_address (Target 6)
       else 0).

Definition example_set : Instruction :=
  mkInstruction kFlags_set kUnsignedLessThan
    [RegisterOperand kWord32 0%nat]
    [RegisterOperand kWord32 1%nat; StackSlotOperand kWord32 2].

Definition example_branch : BranchInfo :=
  mkBranchInfo kUnsignedLessThan (Target 1) (Target 2) false.

Definition example_select : Instruction :=
  mkInstruction kOtherFlagsMode kUnorderedNotEqual
    [RegisterOperand kWord32 0%nat]
    [RegisterOperand kWord32 0%nat; StackSlotOperand kWord32 3].

Definition example_switch : Instruction :=
  mkInstruction kOtherFlagsMode kEqual []
    [RegisterOperand kWord32 2%nat; RpoOperand 9; RpoOperand 4; RpoOperand 5;
     RpoOperand 6].

Lemma AssembleArchInstruction_clear_keeps_inputs_witness :
  exists clear code m',
    ShouldClearOutputRegisterBeforeInstruction example_set = Some clear
    /\ AssembleArchInstruction_clear example_set = Some code
    /\ exec example_Move_flags example_label_address None code example_machine
       = FallsThrough m'
    /\ (clear = true -> regs m' 0%nat = 0)
    /\ (forall index r, InputRegister example_set index = Some r ->
        regs m' r = regs example_machine r)
    /\ mem m' = mem example_machine.
Proof.
  apply (AssembleArchInstruction_clear_keeps_inputs example_Move_flags
           example_label_address example_set 0%nat example_machine).
  reflexivity.
Defined.

Lemma AssembleArchBoolean_agrees_with_AssembleArchBranch_witness :
  exists code_branch code_trap code_boolean m',
    AssembleArchBranch example_branch = Some code_branch
    /\ AssembleArchTrap (Target 3) (condition example_branch) = Some code_trap
    /\ AssembleArchBoolean example_set (condition example_branch) = Some code_boolean
    /\ exec example_Move_flags example_label_address None code_boolean example_machine
       = FallsThrough m'
    /\ (forall r, r <> 0%nat -> regs m' r = regs example_machine r)
    /\ mem m' = mem example_machine
    /\ if continues (condition example_branch) below (flags example_machine)
       then exec example_Move_flags example_label_address None code_branch
              example_machine
            = JumpsTo (true_label example_branch) example_machine
            /\ exec example_Move_flags example_label_address None code_trap
                 example_machine
               = JumpsTo (Target 3) example_machine
            /\ regs m' 0%nat = 1
       else (exec example_Move_flags example_label_address None code_branch
               example_machine
             = JumpsTo (false_label example_branch) example_machine
             \/ fallthru example_branch = true
                /\ exec example_Move_flags example_label_address None code_branch
                     example_machine
                   = FallsThrough example_machine)
            /\ exec example_Move_flags example_label_address None code_trap
                 example_machine
               = FallsThrough example_machine
            /\ regs m' 0%nat = 0.
Proof.
  apply (AssembleArchBoolean_agrees_with_AssembleArchBranch example_Move_flags
           example_label_address example_set example_branch (Target 3) below 0%nat
           example_machine).
  - reflexivity.
  - reflexivity.
  - discriminate.
  - intros _. reflexivity.
Defined.

Lemma AssembleArchSelect_selects_witness :
  exists cc rep output last value m',
    FlagsConditionToCondition kUnorderedNotEqual = Some cc
    /\ kUnorderedNotEqual <> kUnorderedEqual
    /\ output_representation example_select = Some rep
    /\ OutputRegister example_select 0 = Some output
    /\ InputRegister example_select (InputCount example_select - 2) = Some output
    /\ inputs example_select !! (InputCount example_select - 1)%nat = Some last
    /\ input_value example_SlotToOperand example_machine last = Some value
    /\ exec example_Move_flags example_label_address None
         [cmovl not_equal 0%nat (inr 24); cmovl parity_even 0%nat (inr 24)]
         example_machine
       = FallsThrough m'
    /\ regs m' output
       = truncate rep
           (if continues kUnorderedNotEqual cc (flags example_machine) then value
            else regs example_machine output)
    /\ (forall r, r <> output -> regs m' r = regs example_machine r)
    /\ mem m' = mem example_machine.
Proof.
  apply (AssembleArchSelect_selects example_SlotToOperand example_Move_flags
           example_label_address example_select kUnorderedNotEqual).
  reflexivity.
Defined.

Lemma AssembleArchTableSwitch_dispatches_witness :
  length [Target 4; Target 5; Target 6] = (InputCount example_switch - 2)%nat
  /\ if regs example_machine 2%nat <? Z.of_nat (length [Target 4; Target 5; Target 6])
     then
       exists rpo m',
         InputRpo example_switch (Z.to_nat (regs example_machine 2%nat) + 2) = Some rpo
         /\ exec example_Move_flags example_label_address None
              [cmpl 2%nat 3; j above_equal (Target 9) kFar; leaq 10%nat (Target 100);
               jmp_operand 10%nat 2%nat times_8 0] example_machine
            = JumpsToAddress (example_label_address (Target rpo)) m'
     else
       exists default m',
         InputRpo example_switch 1 = Some default
         /\ exec example_Move_flags example_label_address None
              [cmpl 2%nat 3; j above_equal (Target 9) kFar; leaq 10%nat (Target 100);
               jmp_operand 10%nat 2%nat times_8 0] example_machine
            = JumpsTo (Target default) m'.
Proof.
  apply (AssembleArchTableSwitch_dispatches Target 10%nat example_Move_flags
           example_label_address example_switch (Target 100)).
  - reflexivity.
  - reflexivity.
  - discriminate.
  - cbn. lia.
  - cbn. lia.
  - cbn. lia.
  - intros [|[|[|i]]] l Hl; cbn in Hl; try discriminate;
      injection Hl as <-; reflexivity.
  - cbn. lia.
Defined.

End FlagsContinuation.

(* ===================================================================== *)
(** * The deoptimization exits and their table
    ([MaglevCodeGenerator::EmitDeopts] and
    [MaglevCodeGenerator::GenerateDeoptimizationData],
    src/maglev/maglev-code-generator.cc, l. 1242-1309 and 1344-1436, with
    [GetBytecodeOffset] and [GetSourcePosition], l. 819-836, and
    [MaglevAssembler::MaybeEmitDeoptBuiltinsCall],
    src/maglev/x64/maglev-assembler-x64.cc, l. 504-507) *)
(* ===================================================================== *)

Module DeoptExits.

Inductive DeoptimizeKind := kEager | kLazy.

Inductive Builtin := kDeoptimizationEntry_Eager | kDeoptimizationEntry_Lazy.

(** A label: unbound, or bound at a position of the code. *)
Definition Label := option Z.

Section Emit.

(** Declared outside this file. *)
Context {DeoptimizeReason SourcePosition Object : Type}.
Variable kUnknown : DeoptimizeReason.
Variable IsDeoptimizationWithoutCodeInvalidation : DeoptimizeReason -> bool.
Variable SourcePosition_Unknown : SourcePosition.
Variable GetContinuationBytecodeOffset : Z -> Z.
Variable BytecodeOffset_None : Z.

Inductive DeoptFrame :=
  | InterpretedDeoptFrame (bytecode_position : Z) (source_position : SourcePosition)
  | BuiltinContinuationDeoptFrame (builtin_id : Z).

Definition GetBytecodeOffset (deopt_frame : DeoptFrame) : Z :=
  match deopt_frame with
  | InterpretedDeoptFrame bytecode_position _ => bytecode_position
  | BuiltinContinuationDeoptFrame builtin_id => GetContinuationBytecodeOffset builtin_id
  end.

Definition GetSourcePosition (deopt_frame : DeoptFrame) : SourcePosition :=
  match deopt_frame with
  | InterpretedDeoptFrame _ source_position => source_position
  | BuiltinContinuationDeoptFrame _ => SourcePosition_Unknown
  end.

(** What the two functions read and write of a deopt info. *)
Record DeoptInfo := mkDeoptInfo {
  top_frame : DeoptFrame;
  translation_index : Z;
  deopt_entry_label : Label
}.

Record EagerDeoptInfo := mkEagerDeoptInfo {
  eager_info : DeoptInfo;
  reason : DeoptimizeReason
}.

Record LazyDeoptInfo := mkLazyDeoptInfo {
  lazy_info : DeoptInfo;
  deopting_call_return_pc : Z
}.

Inductive Instr :=
  | RecordComment (comment : string)
  | RecordDeoptReason (reason : DeoptimizeReason) (node_id : Z)
      (position : SourcePosition) (id : Z)
  | bind
  | BindExceptionHandler
  | CallForDeoptimization (target : Builtin) (deopt_index : Z) (kind : DeoptimizeKind).

(** The number of bytes that the assembler emits for an instruction. *)
Variable size : Instr -> Z.

Record MaglevAssembler := mkAssembler {
  pc_offset : Z;
  code : list Instr
}.

Definition emit (i : Instr) (masm : MaglevAssembler) : MaglevAssembler :=
  mkAssembler (pc_offset masm + size i) (code masm ++ [i]).

(** The translation builder and the safepoint table builder belong to
    other code.  Of [BuildEagerDeopt] and [BuildLazyDeopt] this part needs
    the translation index that they set in the deopt info. *)
Context {TranslationArrayBuilder SafepointTableBuilder : Type}.
Variable BuildEagerDeopt
  : EagerDeoptInfo -> TranslationArrayBuilder -> Z * TranslationArrayBuilder.
Variable BuildLazyDeopt
  : LazyDeoptInfo -> TranslationArrayBuilder -> Z * TranslationArrayBuilder.
Variable UpdateDeoptimizationInfo
  : Z -> Z -> Z -> Z -> SafepointTableBuilder -> Z * SafepointTableBuilder.

Record MaglevCodeGenerator := mkGenerator {
  masm_ : MaglevAssembler;
  translation_array_builder_ : TranslationArrayBuilder;
  safepoint_table_builder_ : SafepointTableBuilder;
  eager_deopts : list EagerDeoptInfo;
  lazy_deopts : list LazyDeoptInfo;
  deopt_literals_ : list Object;
  deopt_exit_start_offset_ : Z;
  collect_source_positions : bool
}.

(** [MaglevAssembler::MaybeEmitDeoptBuiltinsCall] has an empty body. *)
Definition MaybeEmitDeoptBuiltinsCall (eager_deopt_count lazy_deopt_count : nat)
    (masm : MaglevAssembler) : MaglevAssembler :=
  masm.

(** ** EmitDeopts *)

(** A label is bound at the position of the instruction that binds it; the
    two calls of [Safepoint] have no part in what is emitted.  The loop over
    the eager deopts: the deopt infos as it leaves them, the
    deopt index, the assembler and the translation builder. *)
Fixpoint emit_eager_deopts (collect : bool) (deopts : list EagerDeoptInfo)
    (deopt_index : Z) (masm : MaglevAssembler) (builder : TranslationArrayBuilder)
    : list EagerDeoptInfo * Z * MaglevAssembler * TranslationArrayBuilder :=
  match deopts with
  | [] => ([], deopt_index, masm, builder)
  | deopt_info :: rest =>
      let '(index, builder) := BuildEagerDeopt deopt_info builder in
      let masm :=
        if collect || IsDeoptimizationWithoutCodeInvalidation (reason deopt_info)
        then emit (RecordDeoptReason (reason deopt_info) 0
                     (GetSourcePosition (top_frame (eager_info deopt_info)))
                     deopt_index) masm
        else masm in
      let label := Some (pc_offset masm) in
      let masm := emit bind masm in
      let masm :=
        emit (CallForDeoptimization kDeoptimizationEntry_Eager deopt_index kEager) masm in
      let deopt_info :=
        mkEagerDeoptInfo (mkDeoptInfo (top_frame (eager_info deopt_info)) index label)
          (reason deopt_info) in
      let '(rest, deopt_index, masm, builder) :=
        emit_eager_deopts collect rest (deopt_index + 1) masm builder in
      (deopt_info :: rest, deopt_index, masm, builder)
  end.

Fixpoint emit_lazy_deopts (collect : bool) (deopts : list LazyDeoptInfo)
    (deopt_index last_updated_safepoint : Z) (masm : MaglevAssembler)
    (builder : TranslationArrayBuilder) (safepoints : SafepointTableBuilder)
    : list LazyDeoptInfo * MaglevAssembler * TranslationArrayBuilder
      * SafepointTableBuilder :=
  match deopts with
  | [] => ([], masm, builder, safepoints)
  | deopt_info :: rest =>
      let '(index, builder) := BuildLazyDeopt deopt_info builder in
      let masm :=
        if collect
        then emit (RecordDeoptReason kUnknown 0
                     (GetSourcePosition (top_frame (lazy_info deopt_info)))
                     deopt_index) masm
        else masm in
      let pos := pc_offset masm in
      let label := Some pos in
      let masm := emit BindExceptionHandler masm in
      let masm :=
        emit (CallForDeoptimization kDeoptimizationEntry_Lazy deopt_index kLazy) masm in
      let '(last_updated_safepoint, safepoints) :=
        UpdateDeoptimizationInfo (deopting_call_return_pc deopt_info) pos
          last_updated_safepoint deopt_index safepoints in
      let deopt_info :=
        mkLazyDeoptInfo (mkDeoptInfo (top_frame (lazy_info deopt_info)) index label)
          (deopting_call_return_pc deopt_info) in
      let '(rest, masm, builder, safepoints) :=
        emit_lazy_deopts collect rest (deopt_index + 1) last_updated_safepoint masm
          builder safepoints in
      (deopt_info :: rest, masm, builder, safepoints)
  end.

Definition EmitDeopts (g : MaglevCodeGenerator) : MaglevCodeGenerator :=
  let masm :=
    MaybeEmitDeoptBuiltinsCall (length (eager_deopts g)) (length (lazy_deopts g))
      (masm_ g) in
  let deopt_exit_start_offset := pc_offset masm in
  let deopt_index := 0 in
  let masm := emit (RecordComment "-- Non-lazy deopts") masm in
  let '(eager, deopt_index, masm, builder) :=
    emit_eager_deopts (collect_source_positions g) (eager_deopts g) deopt_index masm
      (translation_array_builder_ g) in
  let masm := emit (RecordComment "-- Lazy deopts") masm in
  let last_updated_safepoint := 0 in
  let '(lazy, masm, builder, safepoints) :=
    emit_lazy_deopts (collect_source_positions g) (lazy_deopts g) deopt_index
      last_updated_safepoint masm builder (safepoint_table_builder_ g) in
  mkGenerator masm builder safepoints eager lazy (deopt_literals_ g)
    deopt_exit_start_offset (collect_source_positions g).

(** ** GenerateDeoptimizationData *)

Record DeoptEntry := mkDeoptEntry {
  BytecodeOffset : Z;
  TranslationIndex : Z;
  Pc : Z
}.

(** The objects that the data refers to and that other code makes. *)
Context {TranslationArray SharedFunctionInfo : Type}.
Variable ToTranslationArray : TranslationArrayBuilder -> TranslationArray.
Variable shared_function_info : SharedFunctionInfo.
Variable bytecode : Object.

Record DeoptimizationData := mkData {
  TranslationByteArray : TranslationArray;
  InlinedFunctionCount : Z;
  OptimizationId : Z;
  DeoptExitStart : Z;
  EagerDeoptCount : Z;
  LazyDeoptCount : Z;
  SharedFunctionInfo_ : SharedFunctionInfo;
  LiteralArray : list Object;
  InliningPositions : list Z;
  OsrBytecodeOffset : Z;
  OsrPcOffset : Z;
  entries : list (option DeoptEntry)
}.

(** The loops that populate the entries, from entry [i] on.  A failing
    [DCHECK] and the position of a label that is not bound are [None]. *)
Fixpoint populate (deopts : list DeoptInfo) (i : nat)
    (entries : list (option DeoptEntry)) : option (list (option DeoptEntry) * nat) :=
  match deopts with
  | [] => Some (entries, i)
  | deopt_info :: rest =>
      if translation_index deopt_info =? -1 then None
      else
        match deopt_entry_label deopt_info with
        | None => None
        | Some pos =>
            populate rest (S i)
              (<[i := Some (mkDeoptEntry (GetBytecodeOffset (top_frame deopt_info))
                              (translation_index deopt_info) pos)]> entries)
        end
  end.

(** [DeoptimizationData::Empty] is [Some None].  The deopt literals are in
    the order of their ids, so the literal array is the list of them, and the
    bytecode after them. *)
Definition GenerateDeoptimizationData (g : MaglevCodeGenerator)
    : option (option DeoptimizationData) :=
  let eager_deopt_count := length (eager_deopts g) in
  let lazy_deopt_count := length (lazy_deopts g) in
  let deopt_count := (lazy_deopt_count + eager_deopt_count)%nat in
  if Nat.eqb deopt_count 0 then Some None
  else
    let data := replicate deopt_count None in
    if deopt_exit_start_offset_ g =? -1 then None
    else
      let literals := deopt_literals_ g ++ [bytecode] in
      '(data, i) ← populate (eager_info <$> eager_deopts g) 0 data;
      '(data, i) ← populate (lazy_info <$> lazy_deopts g) i data;
      Some (Some (mkData (ToTranslationArray (translation_array_builder_ g)) 0 0
                    (deopt_exit_start_offset_ g) (Z.of_nat eager_deopt_count)
                    (Z.of_nat lazy_deopt_count) shared_function_info literals []
                    BytecodeOffset_None (-1) data)).

(** ** The exits and the table agree *)

(** Every translation has an index. *)
Hypothesis BuildEagerDeopt_index : forall deopt_info builder,
  (BuildEagerDeopt deopt_info builder).1 <> -1.
Hypothesis BuildLazyDeopt_index : forall deopt_info builder,
  (BuildLazyDeopt deopt_info builder).1 <> -1.

Definition sizes (l : list Instr) : Z := foldr (fun i n => size i + n) 0 l.

Lemma sizes_app (l1 l2 : list Instr) : sizes (l1 ++ l2) = sizes l1 + sizes l2.
Proof. unfold sizes. induction l1 as [|i l1 IH]; cbn [app foldr]; lia. Qed.

(** The assembler has gone on from [masm] to [masm']. *)
Definition extends (masm masm' : MaglevAssembler) : Prop :=
  exists emitted,
    code masm' = code masm ++ emitted
    /\ pc_offset masm' = pc_offset masm + sizes emitted.

Lemma assembler_extends_refl (masm : MaglevAssembler) : extends masm masm.
Proof. exists []. cbn. rewrite app_nil_r. split; [reflexivity|lia]. Qed.

Lemma assembler_extends_trans (masm1 masm2 masm3 : MaglevAssembler) :
  extends masm1 masm2 -> extends masm2 masm3 -> extends masm1 masm3.
Proof.
  intros (e1 & Hcode1 & Hpc1) (e2 & Hcode2 & Hpc2). exists (e1 ++ e2).
  rewrite Hcode2, Hcode1, Hpc2, Hpc1, sizes_app, app_assoc. split; [reflexivity|lia].
Qed.

Lemma assembler_extends_emit (i : Instr) (masm : MaglevAssembler) : extends masm (emit i masm).
Proof. exists [i]. cbn. split; [reflexivity|lia]. Qed.

(** Since [masm], the exit of [deopt_index] has been emitted at [pos]: the
    instruction that binds its label and the call of the deoptimizer. *)
Definition exit_at (masm masm' : MaglevAssembler) (binder : Instr) (target : Builtin)
    (deopt_index : Z) (kind : DeoptimizeKind) (pos : Z) : Prop :=
  exists prefix suffix,
    code masm' = code masm ++ prefix
                 ++ binder :: CallForDeoptimization target deopt_index kind :: suffix
    /\ pos = pc_offset masm + sizes prefix.

Lemma exit_at_before (masm0 masm masm' : MaglevAssembler) binder target deopt_index
    kind pos :
  extends masm0 masm -> exit_at masm masm' binder target deopt_index kind pos ->
  exit_at masm0 masm' binder target deopt_index kind pos.
Proof.
  intros (e & Hcode & Hpc) (prefix & suffix & Hcode' & Hpos).
  exists (e ++ prefix), suffix. rewrite Hcode', Hcode, Hpos, Hpc, sizes_app.
  rewrite <- !app_assoc. split; [reflexivity|lia].
Qed.

Lemma exit_at_after (masm masm' masm'' : MaglevAssembler) binder target deopt_index
    kind pos :
  exit_at masm masm' binder target deopt_index kind pos -> extends masm' masm'' ->
  exit_at masm masm'' binder target deopt_index kind pos.
Proof.
  intros (prefix & suffix & Hcode' & Hpos) (e & Hcode & Hpc).
  exists prefix, (suffix ++ e). rewrite Hcode, Hcode'.
  rewrite <- !app_assoc. split; [reflexivity|exact Hpos].
Qed.

(** What [EmitDeopts] leaves in a deopt info. *)
Definition emitted_exit (masm masm' : MaglevAssembler) (binder : Instr)
    (target : Builtin) (deopt_index : Z) (kind : DeoptimizeKind)
    (before after : DeoptInfo) : Prop :=
  top_frame after = top_frame before
  /\ translation_index after <> -1
  /\ exists pos,
       deopt_entry_label after = Some pos
       /\ exit_at masm masm' binder target deopt_index kind pos.

Lemma emit_eager_deopts_spec (collect : bool) (deopts : list EagerDeoptInfo) :
  forall deopt_index masm builder deopts' deopt_index' masm' builder',
  emit_eager_deopts collect deopts deopt_index masm builder
  = (deopts', deopt_index', masm', builder') ->
  deopt_index' = deopt_index + Z.of_nat (length deopts)
  /\ extends masm masm'
  /\ length deopts' = length deopts
  /\ forall (k : nat) before after,
       deopts !! k = Some before -> deopts' !! k = Some after ->
       emitted_exit masm masm' bind kDeoptimizationEntry_Eager
         (deopt_index + Z.of_nat k) kEager (eager_info before) (eager_info after).
Proof.
  induction deopts as [|deopt_info rest IH];
    intros deopt_index masm builder deopts' deopt_index' masm' builder' Hemit.
  - injection Hemit as <- <- <- <-.
    split_and!; [cbn; lia|apply assembler_extends_refl|reflexivity|].
    intros k before after Hbefore. discriminate.
  - cbn [emit_eager_deopts] in Hemit.
    pose proof (BuildEagerDeopt_index deopt_info builder) as Hindex.
    destruct (BuildEagerDeopt deopt_info builder) as [index builder1].
    set (masm1 := if collect || IsDeoptimizationWithoutCodeInvalidation (reason deopt_info)
                  then emit _ masm else masm) in Hemit.
    set (masm3 := emit (CallForDeoptimization _ _ _) (emit bind masm1)) in Hemit.
    destruct (emit_eager_deopts collect rest (deopt_index + 1) masm3 builder1)
      as [[[rest' index'] masm''] builder''] eqn:Hrest.
    injection Hemit as <- <- <- <-.
    destruct (IH _ _ _ _ _ _ _ Hrest) as (Hindex' & Hextends & Hlength & Hexits).
    assert (Hextends1 : extends masm masm1).
    { subst masm1. destruct (_ || _); [apply assembler_extends_emit|apply assembler_extends_refl]. }
    assert (Hextends3 : extends masm1 masm3).
    { subst masm3. eapply assembler_extends_trans; apply assembler_extends_emit. }
    split_and!.
    + cbn [length]. lia.
    + eapply assembler_extends_trans; [exact Hextends1|].
      eapply assembler_extends_trans; [exact Hextends3|exact Hextends].
    + cbn [length]. lia.
    + intros [|k] before after Hbefore Hafter.
      * injection Hbefore as <-. injection Hafter as <-. cbn.
        split_and!; [reflexivity|exact Hindex|].
        exists (pc_offset masm1). split; [reflexivity|].
        apply (exit_at_before masm masm1); [exact Hextends1|].
        apply (exit_at_after masm1 masm3); [|exact Hextends].
        exists [], []. subst masm3. cbn. rewrite Z.add_0_r, <- app_assoc.
        split; [|lia]. reflexivity.
      * cbn in Hbefore, Hafter.
        destruct (Hexits k before after Hbefore Hafter)
          as (Hframe & Htranslation & pos & Hlabel & Hexit).
        split_and!; [exact Hframe|exact Htranslation|].
        exists pos. split; [exact Hlabel|].
        replace (deopt_index + Z.of_nat (S k)) with (deopt_index + 1 + Z.of_nat k) by lia.
        apply (exit_at_before masm masm3); [|exact Hexit].
        eapply assembler_extends_trans; [exact Hextends1|exact Hextends3].
Qed.

Lemma emit_lazy_deopts_spec (collect : bool) (deopts : list LazyDeoptInfo) :
  forall deopt_index last masm builder safepoints deopts' masm' builder' safepoints',
  emit_lazy_deopts collect deopts deopt_index last masm builder safepoints
  = (deopts', masm', builder', safepoints') ->
  extends masm masm'
  /\ length deopts' = length deopts
  /\ forall (k : nat) before after,
       deopts !! k = Some before -> deopts' !! k = Some after ->
       emitted_exit masm masm' BindExceptionHandler kDeoptimizationEntry_Lazy
         (deopt_index + Z.of_nat k) kLazy (lazy_info before) (lazy_info after).
Proof.
  induction deopts as [|deopt_info rest IH];
    intros deopt_index last masm builder safepoints deopts' masm' builder' safepoints'
      Hemit.
  - injection Hemit as <- <- <- <-.
    split_and!; [apply assembler_extends_refl|reflexivity|].
    intros k before after Hbefore. discriminate.
  - cbn [emit_lazy_deopts] in Hemit.
    pose proof (BuildLazyDeopt_index deopt_info builder) as Hindex.
    destruct (BuildLazyDeopt deopt_info builder) as [index builder1].
    set (masm1 := if collect then emit _ masm else masm) in Hemit.
    set (masm3 := emit (CallForDeoptimization _ _ _) (emit BindExceptionHandler masm1))
      in Hemit.
    destruct (UpdateDeoptimizationInfo _ _ _ _ _) as [last1 safepoints1].
    destruct (emit_lazy_deopts collect rest (deopt_index + 1) last1 masm3 builder1
                safepoints1)
      as [[[rest' masm''] builder''] safepoints''] eqn:Hrest.
    injection Hemit as <- <- <- <-.
    destruct (IH _ _ _ _ _ _ _ _ _ Hrest) as (Hextends & Hlength & Hexits).
    assert (Hextends1 : extends masm masm1).
    { subst masm1. destruct collect; [apply assembler_extends_emit|apply assembler_extends_refl]. }
    assert (Hextends3 : extends masm1 masm3).
    { subst masm3. eapply assembler_extends_trans; apply assembler_extends_emit. }
    split_and!.
    + eapply assembler_extends_trans; [exact Hextends1|].
      eapply assembler_extends_trans; [exact Hextends3|exact Hextends].
    + cbn [length]. lia.
    + intros [|k] before after Hbefore Hafter.
      * injection Hbefore as <-. injection Hafter as <-. cbn.
        split_and!; [reflexivity|exact Hindex|].
        exists (pc_offset masm1). split; [reflexivity|].
        apply (exit_at_before masm masm1); [exact Hextends1|].
        apply (exit_at_after masm1 masm3); [|exact Hextends].
        exists [], []. subst masm3. cbn. rewrite Z.add_0_r, <- app_assoc.
        split; [|lia]. reflexivity.
      * cbn in Hbefore, Hafter.
        destruct (Hexits k before after Hbefore Hafter)
          as (Hframe & Htranslation & pos & Hlabel & Hexit).
        split_and!; [exact Hframe|exact Htranslation|].
        exists pos. split; [exact Hlabel|].
        replace (deopt_index + Z.of_nat (S k)) with (deopt_index + 1 + Z.of_nat k) by lia.
        apply (exit_at_before masm masm3); [|exact Hexit].
        eapply assembler_extends_trans; [exact Hextends1|exact Hextends3].
Qed.

(** The entry of a deopt info. *)
Definition entry_of (deopt_info : DeoptInfo) (pos : Z) : DeoptEntry :=
  mkDeoptEntry (GetBytecodeOffset (top_frame deopt_info)) (translation_index deopt_info)
    pos.

(** The loop sets the entries from [i] on and no other. *)
Lemma populate_spec (deopts : list DeoptInfo) :
  forall (i : nat) (entries : list (option DeoptEntry)),
  (forall deopt_info, deopt_info ∈ deopts ->
     translation_index deopt_info <> -1 /\ is_Some (deopt_entry_label deopt_info)) ->
  (i + length deopts <= length entries)%nat ->
  exists entries',
    populate deopts i entries = Some (entries', (i + length deopts)%nat)
    /\ length entries' = length entries
    /\ (forall (k : nat) deopt_info pos,
          deopts !! k = Some deopt_info -> deopt_entry_label deopt_info = Some pos ->
          entries' !! (i + k)%nat = Some (Some (entry_of deopt_info pos)))
    /\ (forall j : nat, (j < i \/ i + length deopts <= j)%nat ->
          entries' !! j = entries !! j).
Proof.
  induction deopts as [|deopt_info rest IH]; intros i entries Hok Hlength.
  - exists entries. cbn. rewrite Nat.add_0_r.
    split_and!; [reflexivity|reflexivity| |reflexivity].
    intros k d pos Hd. discriminate.
  - cbn [populate length].
    destruct (Hok deopt_info ltac:(left)) as [Hindex [pos Hpos]].
    destruct (Z.eqb_spec (translation_index deopt_info) (-1)); [contradiction|].
    rewrite Hpos.
    destruct (IH (S i) (<[i := Some (entry_of deopt_info pos)]> entries))
      as (entries' & Hpopulate & Hlength' & Hset & Hkeep).
    { intros d Hd. apply Hok. right. exact Hd. }
    { rewrite length_insert. cbn [length] in Hlength. lia. }
    exists entries'. unfold entry_of in *.
    replace (i + S (length rest))%nat with (S i + length rest)%nat by lia.
    split_and!.
    + exact Hpopulate.
    + rewrite Hlength', length_insert. reflexivity.
    + intros [|k] d pos' Hd Hpos'.
      * injection Hd as <-. rewrite Hpos in Hpos'. injection Hpos' as <-.
        rewrite Nat.add_0_r, Hkeep by lia.
        apply list_lookup_insert_eq. cbn [length] in Hlength. lia.
      * replace (i + S k)%nat with (S i + k)%nat by lia. exact (Hset k d pos' Hd Hpos').
    + intros j Hj. rewrite Hkeep by lia. apply list_lookup_insert_ne. lia.
Qed.

(** The deopt infos of the generator, the eager ones first. *)
Definition deopt_infos (g : MaglevCodeGenerator) : list DeoptInfo :=
  (eager_info <$> eager_deopts g) ++ (lazy_info <$> lazy_deopts g).

(** The exits and the table agree.  [EmitDeopts] numbers the exits, the
    eager ones first, and [GenerateDeoptimizationData] then returns a table
    -- the empty one if there is no deopt -- that has under the number of
    each exit the position of its label, at which the code has the
    instruction that binds the label and, after it, the call of the
    deoptimizer with this number (of the eager entry for the first
    [EagerDeoptCount] exits, of the lazy entry for the others), together with
    the translation index and the bytecode offset of that deopt.  The exits
    start at [DeoptExitStart]. *)
Theorem EmitDeopts_exits_match_table (g : MaglevCodeGenerator) :
  pc_offset (masm_ g) <> -1 ->
  let g' := EmitDeopts g in
  let eager_count := length (eager_deopts g) in
  let lazy_count := length (lazy_deopts g) in
  ((eager_count + lazy_count = 0)%nat -> GenerateDeoptimizationData g' = Some None)
  /\ ((eager_count + lazy_count <> 0)%nat ->
      exists data,
        GenerateDeoptimizationData g' = Some (Some data)
        /\ DeoptExitStart data = pc_offset (masm_ g)
        /\ EagerDeoptCount data = Z.of_nat eager_count
        /\ LazyDeoptCount data = Z.of_nat lazy_count
        /\ length (entries data) = (eager_count + lazy_count)%nat
        /\ forall (i : nat) before,
             deopt_infos g !! i = Some before ->
             exists after entry prefix suffix,
               deopt_infos g' !! i = Some after
               /\ entries data !! i = Some (Some entry)
               /\ deopt_entry_label after = Some (Pc entry)
               /\ TranslationIndex entry = translation_index after
               /\ TranslationIndex entry <> -1
               /\ BytecodeOffset entry = GetBytecodeOffset (top_frame before)
               /\ Pc entry = pc_offset (masm_ g) + sizes prefix
               /\ code (masm_ g')
                  = code (masm_ g) ++ prefix
                    ++ (if (i <? eager_count)%nat
                        then [bind;
                              CallForDeoptimization kDeoptimizationEntry_Eager
                                (Z.of_nat i) kEager]
                        else [BindExceptionHandler;
                              CallForDeoptimization kDeoptimizationEntry_Lazy
                                (Z.of_nat i) kLazy])
                    ++ suffix).
Proof.
  intros Hstart g' eager_count lazy_count.
  unfold EmitDeopts in g'. unfold MaybeEmitDeoptBuiltinsCall in g'.
  set (masm1 := emit (RecordComment "-- Non-lazy deopts") (masm_ g)) in g'.
  destruct (emit_eager_deopts (collect_source_positions g) (eager_deopts g) 0 masm1
              (translation_array_builder_ g))
    as [[[eager index] masm2] builder2] eqn:Heager.
  set (masm3 := emit (RecordComment "-- Lazy deopts") masm2) in g'.
  destruct (emit_lazy_deopts (collect_source_positions g) (lazy_deopts g) index 0 masm3
              builder2 (safepoint_table_builder_ g))
    as [[[lazy masm4] builder4] safepoints4] eqn:Hlazy.
  destruct (emit_eager_deopts_spec _ _ _ _ _ _ _ _ _ Heager)
    as (Hindex & Hextends2 & Hlength_eager & Hexits_eager).
  destruct (emit_lazy_deopts_spec _ _ _ _ _ _ _ _ _ _ _ Hlazy)
    as (Hextends4 & Hlength_lazy & Hexits_lazy).
  assert (Hextends1 : extends (masm_ g) masm1) by apply assembler_extends_emit.
  assert (Hextends3 : extends masm2 masm3) by apply assembler_extends_emit.
  unfold GenerateDeoptimizationData. subst g'.
  cbn [eager_deopts lazy_deopts deopt_exit_start_offset_ masm_ deopt_literals_
       translation_array_builder_].
  rewrite Hlength_eager, Hlength_lazy. fold eager_count lazy_count.
  split.
  { intros Hnone. replace (lazy_count + eager_count)%nat with 0%nat by lia.
    reflexivity. }
  intros Hsome.
  destruct (Nat.eqb_spec (lazy_count + eager_count) 0) as [|_]; [lia|].
  destruct (Z.eqb_spec (pc_offset (masm_ g)) (-1)); [contradiction|].
  (* the labels are bound, the translations have their indices *)
  assert (Hok_eager : forall deopt_info, deopt_info ∈ eager_info <$> eager ->
            translation_index deopt_info <> -1
            /\ is_Some (deopt_entry_label deopt_info)).
  { intros d Hd. apply list_elem_of_fmap in Hd as (after & -> & Hafter).
    apply list_elem_of_lookup in Hafter as [k Hafter].
    destruct (lookup_lt_is_Some_2 (eager_deopts g) k) as [before Hbefore].
    { rewrite <- Hlength_eager. apply lookup_lt_is_Some. eauto. }
    destruct (Hexits_eager k before after Hbefore Hafter)
      as (_ & Htranslation & pos & Hlabel & _).
    split; [exact Htranslation|]. rewrite Hlabel. eauto. }
  assert (Hok_lazy : forall deopt_info, deopt_info ∈ lazy_info <$> lazy ->
            translation_index deopt_info <> -1
            /\ is_Some (deopt_entry_label deopt_info)).
  { intros d Hd. apply list_elem_of_fmap in Hd as (after & -> & Hafter).
    apply list_elem_of_lookup in Hafter as [k Hafter].
    destruct (lookup_lt_is_Some_2 (lazy_deopts g) k) as [before Hbefore].
    { rewrite <- Hlength_lazy. apply lookup_lt_is_Some. eauto. }
    destruct (Hexits_lazy k before after Hbefore Hafter)
      as (_ & Htranslation & pos & Hlabel & _).
    split; [exact Htranslation|]. rewrite Hlabel. eauto. }
  destruct (populate_spec (eager_info <$> eager) 0
              (replicate (lazy_count + eager_count) None) Hok_eager)
    as (entries1 & Hpopulate1 & Hlength1 & Hset1 & Hkeep1).
  { rewrite length_fmap, length_replicate, Hlength_eager. fold eager_count. lia. }
  rewrite length_fmap, Hlength_eager in Hpopulate1. fold eager_count in Hpopulate1.
  change (0 + eager_count)%nat with eager_count in Hpopulate1.
  destruct (populate_spec (lazy_info <$> lazy) eager_count entries1 Hok_lazy)
    as (entries2 & Hpopulate2 & Hlength2 & Hset2 & Hkeep2).
  { rewrite length_fmap, Hlength1, length_replicate, Hlength_lazy.
    fold lazy_count. lia. }
  rewrite Hpopulate1. cbn [mbind option_bind]. rewrite Hpopulate2.
  cbn [mbind option_bind].
  eexists. split; [reflexivity|]. cbn [DeoptExitStart EagerDeoptCount LazyDeoptCount entries].
  split_and!; try reflexivity.
  { rewrite Hlength2, Hlength1, length_replicate. lia. }
  intros i before Hbefore. unfold deopt_infos in *.
  cbn [eager_deopts lazy_deopts masm_].
  destruct (Nat.ltb_spec i eager_count) as [Hi|Hi].
  - (* an eager exit *)
    rewrite lookup_app_l in Hbefore by (rewrite length_fmap; exact Hi).
    rewrite list_lookup_fmap in Hbefore.
    destruct (eager_deopts g !! i) as [before'|] eqn:Hbefore'; [|discriminate].
    injection Hbefore as <-.
    destruct (lookup_lt_is_Some_2 eager i) as [after Hafter]; [lia|].
    destruct (Hexits_eager i before' after Hbefore' Hafter)
      as (Hframe & Htranslation & pos & Hlabel & Hexit).
    assert (Hexit' : exit_at (masm_ g) masm4 bind kDeoptimizationEntry_Eager
                       (Z.of_nat i) kEager pos).
    { apply (exit_at_before _ masm1); [exact Hextends1|].
      apply (exit_at_after _ masm2); [exact Hexit|].
      eapply assembler_extends_trans; [exact Hextends3|exact Hextends4]. }
    destruct Hexit' as (prefix & suffix & Hcode & Hpos).
    exists (eager_info after), (entry_of (eager_info after) pos), prefix, suffix.
    split_and!.
    + rewrite lookup_app_l by (rewrite length_fmap; lia).
      rewrite list_lookup_fmap, Hafter. reflexivity.
    + rewrite Hkeep2 by lia.
      apply (Hset1 i (eager_info after) pos); [|exact Hlabel].
      rewrite list_lookup_fmap, Hafter. reflexivity.
    + exact Hlabel.
    + reflexivity.
    + exact Htranslation.
    + cbn. rewrite Hframe. reflexivity.
    + exact Hpos.
    + rewrite Hcode. reflexivity.
  - (* a lazy exit *)
    rewrite lookup_app_r in Hbefore by (rewrite length_fmap; exact Hi).
    rewrite length_fmap, list_lookup_fmap in Hbefore. fold eager_count in Hbefore.
    destruct (lazy_deopts g !! (i - eager_count)%nat) as [before'|] eqn:Hbefore';
      [|discriminate].
    injection Hbefore as <-.
    assert (Hk : (i - eager_count < lazy_count)%nat).
    { apply lookup_lt_is_Some. eauto. }
    destruct (lookup_lt_is_Some_2 lazy (i - eager_count)) as [after Hafter]; [lia|].
    destruct (Hexits_lazy _ before' after Hbefore' Hafter)
      as (Hframe & Htranslation & pos & Hlabel & Hexit).
    replace (index + Z.of_nat (i - eager_count)) with (Z.of_nat i) in Hexit
      by (rewrite Hindex; fold eager_count; lia).
    assert (Hexit' : exit_at (masm_ g) masm4 BindExceptionHandler
                       kDeoptimizationEntry_Lazy (Z.of_nat i) kLazy pos).
    { apply (exit_at_before _ masm3); [|exact Hexit].
      eapply assembler_extends_trans; [exact Hextends1|].
      eapply assembler_extends_trans; [exact Hextends2|exact Hextends3]. }
    destruct Hexit' as (prefix & suffix & Hcode & Hpos).
    exists (lazy_info after), (entry_of (lazy_info after) pos), prefix, suffix.
    split_and!.
    + rewrite lookup_app_r by (rewrite length_fmap; lia).
      rewrite length_fmap, Hlength_eager, list_lookup_fmap. fold eager_count.
      rewrite Hafter. reflexivity.
    + replace i with (eager_count + (i - eager_count))%nat at 1 by lia.
      apply (Hset2 _ (lazy_info after) pos); [|exact Hlabel].
      rewrite list_lookup_fmap, Hafter. reflexivity.
    + exact Hlabel.
    + reflexivity.
    + exact Htranslation.
    + cbn. rewrite Hframe. reflexivity.
    + exact Hpos.
    + rewrite Hcode. reflexivity.
Qed.

End Emit.

(** ** An instance: two eager deopts and a lazy one *)

Definition example_size (i : Instr (DeoptimizeReason := nat) (SourcePosition := Z)) : Z :=
  match i with
  | CallForDeoptimization _ _ _ => 5
  | _ => 0
  end.

(** The translations are counted. *)
Definition example_BuildEagerDeopt
    (deopt_info : EagerDeoptInfo (DeoptimizeReason := nat) (SourcePosition := Z))
    (builder : nat) : Z * nat :=
  (Z.of_nat builder, S builder).

Definition example_BuildLazyDeopt (deopt_info : LazyDeoptInfo (SourcePosition := Z))
    (builder : nat) : Z * nat :=
  (Z.of_nat builder, S builder).

Definition example_UpdateDeoptimizationInfo (pc trampoline start deopt_index : Z)
    (safepoints : list (Z * Z * Z)) : Z * list (Z * Z * Z) :=
  (start + 1, safepoints ++ [(pc, trampoline, deopt_index)]).

Definition example_generator
    : MaglevCodeGenerator (DeoptimizeReason := nat) (Object := nat) :=
  mkGenerator (mkAssembler 400 [RecordComment "-- Deferred block"]) 0%nat
    (@nil (Z * Z * Z))
    [mkEagerDeoptInfo (mkDeoptInfo (InterpretedDeoptFrame 12 100) (-1) None) 3%nat;
     mkEagerDeoptInfo (mkDeoptInfo (BuiltinContinuationDeoptFrame 7) (-1) None) 4%nat]
    [mkLazyDeoptInfo (mkDeoptInfo (InterpretedDeoptFrame 30 200) (-1) None) 250]
    [11%nat; 12%nat] (-1) true.

Definition example_EmitDeopts
    : MaglevCodeGenerator (DeoptimizeReason := nat) (Object := nat) :=
  EmitDeopts 0%nat (fun reason => Nat.eqb reason 4) 0 example_size
    example_BuildEagerDeopt example_BuildLazyDeopt example_UpdateDeoptimizationInfo
    example_generator.

Definition example_GenerateDeoptimizationData
    : option (option (DeoptimizationData (TranslationArray := nat)
                        (SharedFunctionInfo := unit))) :=
  GenerateDeoptimizationData (fun builtin_id => - builtin_id) (-1)
    (fun builder => builder) tt 99%nat example_EmitDeopts.

Lemma EmitDeopts_exits_match_table_witness :
  ((2 + 1 = 0)%nat -> example_GenerateDeoptimizationData = Some None)
  /\ ((2 + 1 <> 0)%nat ->
      exists data,
        example_GenerateDeoptimizationData = Some (Some data)
        /\ DeoptExitStart data = 400
        /\ EagerDeoptCount data = 2
        /\ LazyDeoptCount data = 1
        /\ length (entries data) = 3%nat
        /\ forall (i : nat) before,
             deopt_infos example_generator !! i = Some before ->
             exists after entry prefix suffix,
               deopt_infos example_EmitDeopts !! i = Some after
               /\ entries data !! i = Some (Some entry)
               /\ deopt_entry_label after = Some (Pc entry)
               /\ TranslationIndex entry = translation_index after
               /\ TranslationIndex entry <> -1
               /\ BytecodeOffset entry
                  = GetBytecodeOffset (fun builtin_id => - builtin_id) (top_frame before)
               /\ Pc entry = 400 + sizes example_size prefix
               /\ code (masm_ example_EmitDeopts)
                  = [RecordComment "-- Deferred block"] ++ prefix
                    ++ (if (i <? 2)%nat
                        then [bind;
                              CallForDeoptimization kDeoptimizationEntry_Eager
                                (Z.of_nat i) kEager]
                        else [BindExceptionHandler;
                              CallForDeoptimization kDeoptimizationEntry_Lazy
                                (Z.of_nat i) kLazy])
                    ++ suffix).
Proof.
  apply (EmitDeopts_exits_match_table 0%nat (fun reason => Nat.eqb reason 4) 0
           (fun builtin_id => - builtin_id) (-1) example_size
           example_BuildEagerDeopt example_BuildLazyDeopt
           example_UpdateDeoptimizationInfo (fun builder => builder) tt 99%nat
           ltac:(intros deopt_info builder; cbn; lia)
           ltac:(intros deopt_info builder; cbn; lia)
           example_generator).
  cbn. lia.
Defined.

End DeoptExits.

(* ===================================================================== *)
(** * The truncation of a double to an integer
    ([kArchTruncateDoubleToI] of [CodeGenerator::AssembleArchInstruction],
    src/compiler/backend/x64/code-generator-x64.cc, l. 1526-1540, and
    [OutOfLineTruncateDoubleToI], l. 221-272) *)
(* ===================================================================== *)

Module TruncateDoubleToI.

Abbreviation Register := nat.
Abbreviation XMMRegister := nat.

Definition rsp : Register := 4%nat.

(** The labels of the out of line code. *)
Inductive Label := entry | exit.

#[global] Instance Label_eq_dec : EqDecision Label.
Proof. solve_decision. Defined.

Inductive Condition := overflow.

(** [StubCallMode] is declared outside this file, which names one of its
    enumerators. *)
Inductive StubCallMode := kCallWasmRuntimeStub | kOtherStubCallMode.

#[global] Instance StubCallMode_eq_dec : EqDecision StubCallMode.
Proof. solve_decision. Defined.

Inductive Instr :=
  | AllocateStackSpace (bytes : Z)
  | MaybeIncreaseBaseOffsetAt (base_delta : Z)
  | Movsd (base : Register) (disp : Z) (src : XMMRegister)
  | near_call_kDoubleToI
  | CallBuiltin_kDoubleToI
  | movl_load (dst base : Register) (disp : Z)
  | addq (dst : Register) (imm : Z)
  | Cvttsd2siq (dst : Register) (src : XMMRegister)
  | cmpq (dst : Register) (imm : Z)
  | j (cc : Condition) (l : Label)
  | bind (l : Label)
  | movl (dst src : Register).

Definition kDoubleSize : Z := 8.

Section Truncate.

Variable V8_ENABLE_WEBASSEMBLY : bool.

(** [OutOfLineTruncateDoubleToI::Generate]; the unwinding info writer is told
    of the two changes of the stack pointer. *)
Definition Generate (result_ : Register) (input_ : XMMRegister)
    (stub_mode_ : StubCallMode) : list Instr :=
  [AllocateStackSpace kDoubleSize;
   MaybeIncreaseBaseOffsetAt kDoubleSize;
   Movsd rsp 0 input_]
  ++ (if V8_ENABLE_WEBASSEMBLY && bool_decide (stub_mode_ = kCallWasmRuntimeStub)
      then [near_call_kDoubleToI]
      else [CallBuiltin_kDoubleToI])
  ++ [movl_load result_ rsp 0;
      addq rsp kDoubleSize;
      MaybeIncreaseBaseOffsetAt (- kDoubleSize)].

(** The case [kArchTruncateDoubleToI]: [result] is the output register,
    [input] the double register of input 0; the out of line code is the one
    that [Generate] makes of them. *)
Definition kArchTruncateDoubleToI (result : Register) (input : XMMRegister)
    : list Instr :=
  [Cvttsd2siq result input;
   cmpq result 1;
   j overflow entry;
   bind exit;
   movl result result].

(** ** The machine *)

(** Doubles, what [cvttsd2si] leaves in a 64 bit register for a double (the
    truncated number, or the word 2^63 if there is none that fits), and the
    32 bit word that the routine [DoubleToI] computes of it. *)
Context {Double : Type}.
Variable Cvttsd2siq_value : Double -> Z.
Variable DoubleToI : Double -> Z.

(** A word of the stack holds an integer or a double. *)
Inductive Cell :=
  | Word (value : Z)
  | DoubleWord (value : Double).

Record Machine := mkMachine {
  regs : Register -> Z;
  xmm : XMMRegister -> Double;
  OF : bool;
  mem : Z -> Cell
}.

Definition set_reg (r : Register) (v : Z) (m : Machine) : Machine :=
  mkMachine (fun r' => if Nat.eqb r' r then v else regs m r') (xmm m) (OF m) (mem m).

Definition store (a : Z) (c : Cell) (m : Machine) : Machine :=
  mkMachine (regs m) (xmm m) (OF m) (fun a' => if a' =? a then c else mem m a').

Definition signed64 (v : Z) : Z :=
  if v mod 2 ^ 64 <? 2 ^ 63 then v mod 2 ^ 64 else v mod 2 ^ 64 - 2 ^ 64.

(** The overflow flag of the 64 bit comparison of [a] with [b]: the
    difference of the signed numbers is no signed 64 bit number. *)
Definition compare_overflows (a b : Z) : bool :=
  let difference := signed64 a - signed64 b in
  (difference <? - 2 ^ 63) || (2 ^ 63 <=? difference).

(** The routine [DoubleToI] is called with a double in the word at the
    stack pointer and returns with its result there.  It keeps the registers;
    the stack below the stack pointer and the flags are as it leaves them. *)
Variable callee_stack : Z -> Cell.
Variable callee_OF : bool.

Definition call_DoubleToI (m : Machine) : option Machine :=
  match mem m (regs m rsp) with
  | DoubleWord d =>
      Some (mkMachine (regs m) (xmm m) callee_OF
              (fun a => if a =? regs m rsp then Word (DoubleToI d)
                        else if a <? regs m rsp then callee_stack a
                        else mem m a))
  | Word _ => None
  end.

Inductive Outcome :=
  | FallsThrough (m : Machine)
  | JumpsTo (l : Label) (m : Machine).

(** The jumps go forward: after a jump to [l], and when the code is entered
    at [l], the instructions up to [bind l] are skipped ([pending] is
    [Some l]).  Of the flags the overflow flag is the one that is read. *)
Fixpoint exec (pending : option Label) (code : list Instr) (m : Machine)
    : option Outcome :=
  match code with
  | [] =>
      match pending with
      | None => Some (FallsThrough m)
      | Some l => Some (JumpsTo l m)
      end
  | i :: rest =>
      match pending with
      | Some l =>
          match i with
          | bind l' => if decide (l' = l) then exec None rest m else exec pending rest m
          | _ => exec pending rest m
          end
      | None =>
          match i with
          | AllocateStackSpace bytes =>
              exec None rest (set_reg rsp (regs m rsp - bytes) m)
          | MaybeIncreaseBaseOffsetAt _ => exec None rest m
          | Movsd base disp src =>
              exec None rest (store (regs m base + disp) (DoubleWord (xmm m src)) m)
          | near_call_kDoubleToI | CallBuiltin_kDoubleToI =>
              m' ← call_DoubleToI m; exec None rest m'
          | movl_load dst base disp =>
              match mem m (regs m base + disp) with
              | Word value => exec None rest (set_reg dst (value mod 2 ^ 32) m)
              | DoubleWord _ => None
              end
          | addq dst imm => exec None rest (set_reg dst ((regs m dst + imm) mod 2 ^ 64) m)
          | Cvttsd2siq dst src =>
              exec None rest (set_reg dst (Cvttsd2siq_value (xmm m src)) m)
          | cmpq dst imm =>
              exec None rest
                (mkMachine (regs m) (xmm m) (compare_overflows (regs m dst) imm) (mem m))
          | j overflow l => if OF m then exec (Some l) rest m else exec None rest m
          | bind _ => exec None rest m
          | movl dst src => exec None rest (set_reg dst (regs m src mod 2 ^ 32) m)
          end
      end
  end.

(** ** The result *)

Hypothesis Cvttsd2siq_value_range : forall d, 0 <= Cvttsd2siq_value d < 2 ^ 64.
Hypothesis DoubleToI_range : forall d, 0 <= DoubleToI d < 2 ^ 32.

(** The comparison with 1 overflows for the word 2^63 only. *)
Lemma compare_overflows_1 (v : Z) :
  0 <= v < 2 ^ 64 -> compare_overflows v 1 = (v =? 2 ^ 63).
Proof.
  intros Hv. unfold compare_overflows, signed64.
  rewrite (Z.mod_small v), (Z.mod_small 1) by lia.
  change (1 <? 2 ^ 63) with true. cbv iota.
  destruct (Z.ltb_spec v (2 ^ 63));
    repeat match goal with
           | |- context [?a <? ?b] => destruct (Z.ltb_spec a b)
           | |- context [?a <=? ?b] => destruct (Z.leb_spec a b)
           | |- context [?a =? ?b] => destruct (Z.eqb_spec a b)
           end; cbn [orb]; try reflexivity; lia.
Qed.

(** The truncation truncates.  The code of [kArchTruncateDoubleToI] leaves
    in the result register the low 32 bits of the word of [cvttsd2si], unless
    this word is 2^63, which [cvttsd2si] gives when no number fits: then, and
    only then, the code jumps to the out of line code, which calls
    [DoubleToI] with the double in a new word of the stack and, entered
    again at the exit label, the code ends with the result of the routine in
    the result register.  On both ways the other registers, the stack
    pointer among them, and the stack at and above the stack pointer are as
    before. *)
Theorem kArchTruncateDoubleToI_truncates (result : Register) (input : XMMRegister)
    (stub_mode : StubCallMode) (m : Machine) :
  result <> rsp ->
  2 ^ 3 <= regs m rsp < 2 ^ 64 ->
  let word := Cvttsd2siq_value (xmm m input) in
  let code := kArchTruncateDoubleToI result input in
  exists m',
    (forall r, r <> result -> regs m' r = regs m r)
    /\ (forall a, regs m rsp <= a -> mem m' a = mem m a)
    /\ xmm m' = xmm m
    /\ if word =? 2 ^ 63 then
         exists m1 m2,
           exec None code m = Some (JumpsTo entry m1)
           /\ exec None (Generate result input stub_mode) m1 = Some (FallsThrough m2)
           /\ exec (Some exit) code m2 = Some (FallsThrough m')
           /\ regs m' result = DoubleToI (xmm m input)
       else
         exec None code m = Some (FallsThrough m')
         /\ regs m' result = word mod 2 ^ 32.
Proof.
  intros Hresult Hrsp word code. subst code.
  pose proof (Cvttsd2siq_value_range (xmm m input)) as Hword. fold word in Hword.
  pose proof (DoubleToI_range (xmm m input)) as Hint.
  unfold kArchTruncateDoubleToI. cbn [exec regs set_reg OF xmm].
  rewrite Nat.eqb_refl. fold word.
  rewrite (compare_overflows_1 word Hword).
  destruct (Z.eqb_spec word (2 ^ 63)) as [Hindefinite|Hfits].
  - (* out of line *)
    cbn [exec]. destruct (decide (exit = exit)); [|contradiction].
    set (m1 := mkMachine _ _ true _).
    assert (Hrsp1 : regs m1 rsp = regs m rsp).
    { subst m1. cbn [regs set_reg].
      destruct (Nat.eqb_spec rsp result); [congruence|reflexivity]. }
    assert (Hcall : exists m2,
              exec None (Generate result input stub_mode) m1 = Some (FallsThrough m2)
              /\ regs m2 result = DoubleToI (xmm m input)
              /\ (forall r, r <> result -> regs m2 r = regs m r)
              /\ (forall a, regs m rsp <= a -> mem m2 a = mem m a)
              /\ xmm m2 = xmm m).
    { unfold Generate, kDoubleSize.
      assert (Hrun : forall call, call = near_call_kDoubleToI \/ call = CallBuiltin_kDoubleToI ->
                exists m2,
                  exec None ([AllocateStackSpace 8; MaybeIncreaseBaseOffsetAt 8;
                              Movsd rsp 0 input] ++ [call]
                             ++ [movl_load result rsp 0; addq rsp 8;
                                 MaybeIncreaseBaseOffsetAt (- 8)]) m1
                  = Some (FallsThrough m2)
                  /\ regs m2 result = DoubleToI (xmm m input)
                  /\ (forall r, r <> result -> regs m2 r = regs m r)
                  /\ (forall a, regs m rsp <= a -> mem m2 a = mem m a)
                  /\ xmm m2 = xmm m).
      { intros call Hcall.
        assert (Hcalled : exists m2, forall rest,
                  exec None ([AllocateStackSpace 8; MaybeIncreaseBaseOffsetAt 8;
                              Movsd rsp 0 input] ++ [call] ++ rest) m1
                  = exec None rest m2
                  /\ regs m2 = (fun r => if Nat.eqb r rsp then regs m rsp - 8
                                         else regs m1 r)
                  /\ mem m2 (regs m rsp - 8) = Word (DoubleToI (xmm m input))
                  /\ (forall a, regs m rsp <= a -> mem m2 a = mem m a)
                  /\ xmm m2 = xmm m).
        { eexists. intros rest.
          destruct Hcall as [-> | ->]; cbn [app exec regs set_reg store mem xmm];
            unfold call_DoubleToI; cbn [regs set_reg store mem xmm];
            rewrite !Nat.eqb_refl, Hrsp1, Z.add_0_r, Z.eqb_refl;
            cbn [mbind option_bind];
            (split; [reflexivity|]); cbn [regs mem xmm];
            (split_and!; [reflexivity|rewrite Z.eqb_refl; reflexivity| |reflexivity]);
            intros a Ha;
            destruct (Z.eqb_spec a (regs m rsp - 8)); try lia;
            destruct (Z.ltb_spec a (regs m rsp - 8)); try lia; reflexivity. }
        destruct Hcalled as (m2 & Hcalled).
        destruct (Hcalled [movl_load result rsp 0; addq rsp 8;
                           MaybeIncreaseBaseOffsetAt (- 8)])
          as (Hexec & Hregs & Hslot & Hmem & Hxmm).
        rewrite Hexec. cbn [exec]. rewrite Hregs. cbn beta.
        rewrite Nat.eqb_refl, Z.add_0_r, Hslot.
        eexists. split; [reflexivity|]. cbn [regs set_reg mem xmm].
        destruct (Nat.eqb_spec result rsp); [contradiction|].
        rewrite Hregs. split_and!.
        - destruct (Nat.eqb_spec result rsp); [contradiction|].
          rewrite Nat.eqb_refl. apply Z.mod_small. exact Hint.
        - intros r Hr. rewrite Nat.eqb_refl.
          destruct (Nat.eqb_spec r rsp) as [->|Hr'].
          + destruct (Nat.eqb_spec rsp result); [congruence|].
            replace (regs m rsp - 8 + 8) with (regs m rsp) by lia.
            apply Z.mod_small. lia.
          + destruct (Nat.eqb_spec r result); [contradiction|].
            subst m1. cbn [regs set_reg].
            destruct (Nat.eqb_spec r result); [contradiction|reflexivity].
        - exact Hmem.
        - exact Hxmm. }
      destruct (V8_ENABLE_WEBASSEMBLY && bool_decide (stub_mode = kCallWasmRuntimeStub));
        apply Hrun; auto. }
    destruct Hcall as (m2 & Hexec2 & Hvalue2 & Hregs2 & Hmem2 & Hxmm2).
    exists (set_reg result (regs m2 result mod 2 ^ 32) m2).
    cbn [regs set_reg mem xmm]. split_and!.
    + intros r Hr. destruct (Nat.eqb_spec r result); [contradiction|]. apply Hregs2, Hr.
    + exact Hmem2.
    + exact Hxmm2.
    + exists m1, m2. split_and!; [reflexivity|exact Hexec2|reflexivity|].
      rewrite Nat.eqb_refl, Hvalue2. apply Z.mod_small. exact Hint.
  - (* the word fits *)
    cbn [exec]. eexists. split_and!; only 4: reflexivity.
    + intros r Hr. cbn [regs set_reg].
      destruct (Nat.eqb_spec r result); [contradiction|reflexivity].
    + reflexivity.
    + reflexivity.
    + cbn [regs set_reg]. rewrite !Nat.eqb_refl. reflexivity.
Qed.

End Truncate.

(** ** An instance: whole numbers as doubles *)

Definition example_Cvttsd2siq_value (d : Z) : Z :=
  if (- 2 ^ 63 <=? d) && (d <? 2 ^ 63) then d mod 2 ^ 64 else 2 ^ 63.

Definition example_DoubleToI (d : Z) : Z := d mod 2 ^ 32.

Definition example_machine : Machine :=
  mkMachine (fun r => if Nat.eqb r rsp then 4096 else 7) (fun x => 2 ^ 70 + 9) false
    (fun a => Word a).

Lemma example_Cvttsd2siq_value_range (d : Z) : 0 <= example_Cvttsd2siq_value d < 2 ^ 64.
Proof.
  unfold example_Cvttsd2siq_value.
  destruct (_ && _); [apply Z.mod_pos_bound|]; lia.
Qed.

Lemma example_DoubleToI_range (d : Z) : 0 <= example_DoubleToI d < 2 ^ 32.
Proof. apply Z.mod_pos_bound. lia. Qed.

Lemma kArchTruncateDoubleToI_truncates_witness :
  exists m',
    (forall r, r <> 0%nat -> regs m' r = regs example_machine r)
    /\ (forall a, regs example_machine rsp <= a -> mem m' a = mem example_machine a)
    /\ xmm m' = xmm example_machine
    /\ if example_Cvttsd2siq_value (xmm example_machine 1%nat) =? 2 ^ 63 then
         exists m1 m2,
           exec example_Cvttsd2siq_value example_DoubleToI (fun _ => Word 0) true None
             (kArchTruncateDoubleToI 0%nat 1%nat) example_machine
           = Some (JumpsTo entry m1)
           /\ exec example_Cvttsd2siq_value example_DoubleToI (fun _ => Word 0) true None
                (Generate true 0%nat 1%nat kCallWasmRuntimeStub) m1
              = Some (FallsThrough m2)
           /\ exec example_Cvttsd2siq_value example_DoubleToI (fun _ => Word 0) true
                (Some exit) (kArchTruncateDoubleToI 0%nat 1%nat) m2
              = Some (FallsThrough m')
           /\ regs m' 0%nat = example_DoubleToI (xmm example_machine 1%nat)
       else
         exec example_Cvttsd2siq_value example_DoubleToI (fun _ => Word 0) true None
           (kArchTruncateDoubleToI 0%nat 1%nat) example_machine
         = Some (FallsThrough m')
         /\ regs m' 0%nat = example_Cvttsd2siq_value (xmm example_machine 1%nat) mod 2 ^ 32.
Proof.
  apply (kArchTruncateDoubleToI_truncates true example_Cvttsd2siq_value example_DoubleToI
           (fun _ => Word 0) true example_Cvttsd2siq_value_range example_DoubleToI_range
           0%nat 1%nat kCallWasmRuntimeStub example_machine).
  - discriminate.
  - cbn. lia.
Defined.

End TruncateDoubleToI.

(* ===================================================================== *)
(** * The branch to a deoptimization exit
    ([CodeGenerator::AssembleArchDeoptBranch],
    src/compiler/backend/x64/code-generator-x64.cc, l. 4660-4699) *)
(* ===================================================================== *)

Module DeoptBranch.

Import FlagsContinuation.

Definition rax : Register := 0%nat.
Definition rsp : Register := 4%nat.

(** The labels of the branch and the label that the function declares. *)
Inductive DeoptLabel :=
  | Branch (l : Label)
  | nodeopt.

#[global] Instance DeoptLabel_eq_dec : EqDecision DeoptLabel.
Proof. solve_decision. Defined.

(** [not_zero] is the assembler's other name of [not_equal]. *)
Definition not_zero : Condition := not_equal.

Inductive Instr :=
  | j (cc : Condition) (l : DeoptLabel) (distance : Distance)
  | jmp (l : DeoptLabel) (distance : Distance)
  | bind (l : DeoptLabel)
  | pushfq
  | popfq
  | pushq (src : Register)
  | popq (dst : Register)
  | load_rax_stress_deopt_count
  | store_rax_stress_deopt_count
  | decl (dst : Register)
  | Move (dst : Register) (value : Z).

(** [deopt_every_n_times] is the flag of this name. *)
Definition AssembleArchDeoptBranch (deopt_every_n_times : Z) (branch : BranchInfo)
    : option (list Instr) :=
  let flabel_distance := if fallthru branch then kNear else kFar in
  let tlabel := Branch (true_label branch) in
  let flabel := Branch (false_label branch) in
  cc ← FlagsConditionToCondition (condition branch);
  Some ((if decide (condition branch = kUnorderedEqual) then
           [j parity_even flabel flabel_distance]
         else if decide (condition branch = kUnorderedNotEqual) then
           [j parity_even tlabel kFar]
         else [])
        ++ [j cc tlabel kFar]
        ++ (if 0 <? deopt_every_n_times then
              [pushfq;
               pushq rax;
               load_rax_stress_deopt_count;
               decl rax;
               j not_zero nodeopt kNear;
               Move rax deopt_every_n_times;
               store_rax_stress_deopt_count;
               popq rax;
               popfq;
               jmp tlabel kFar;
               bind nodeopt;
               store_rax_stress_deopt_count;
               popq rax;
               popfq]
            else [])
        ++ (if fallthru branch then [] else [jmp flabel flabel_distance])).

(** ** The machine *)

(** A word of the stack holds a number or the flags. *)
Inductive Cell :=
  | Word (value : Z)
  | FlagsWord (f : Flags).

Record Machine := mkMachine {
  regs : Register -> Z;
  flags : Flags;
  mem : Z -> Cell;
  stress_deopt_count : Z
}.

Inductive Outcome :=
  | FallsThrough (m : Machine)
  | JumpsTo (l : DeoptLabel) (m : Machine).

Definition push (c : Cell) (m : Machine) : Machine :=
  let sp := regs m rsp - 8 in
  mkMachine (fun r => if Nat.eqb r rsp then sp else regs m r) (flags m)
    (fun a => if a =? sp then c else mem m a) (stress_deopt_count m).

Definition set_reg (r : Register) (v : Z) (m : Machine) : Machine :=
  mkMachine (fun r' => if Nat.eqb r' r then v else regs m r') (flags m) (mem m)
    (stress_deopt_count m).

Definition set_flags (f : Flags) (m : Machine) : Machine :=
  mkMachine (regs m) f (mem m) (stress_deopt_count m).

Section Exec.

(** How the macro [Move] leaves the flags. *)
Variable Move_flags : Z -> Flags -> Flags.

(** The jumps go forward: after a jump to [l] the instructions up to
    [bind l] are skipped.  [decl] is a 32 bit decrement, which keeps the
    carry flag; popping a word of the wrong kind is [None]. *)
Fixpoint exec (pending : option DeoptLabel) (code : list Instr) (m : Machine)
    : option Outcome :=
  match code with
  | [] =>
      match pending with
      | None => Some (FallsThrough m)
      | Some l => Some (JumpsTo l m)
      end
  | i :: rest =>
      match pending with
      | Some l =>
          match i with
          | bind l' => if decide (l' = l) then exec None rest m else exec pending rest m
          | _ => exec pending rest m
          end
      | None =>
          match i with
          | j cc l _ => if holds cc (flags m) then exec (Some l) rest m else exec None rest m
          | jmp l _ => exec (Some l) rest m
          | bind _ => exec None rest m
          | pushfq => exec None rest (push (FlagsWord (flags m)) m)
          | popfq =>
              match mem m (regs m rsp) with
              | FlagsWord f =>
                  exec None rest (set_reg rsp (regs m rsp + 8) (set_flags f m))
              | Word _ => None
              end
          | pushq src => exec None rest (push (Word (regs m src)) m)
          | popq dst =>
              match mem m (regs m rsp) with
              | Word value =>
                  exec None rest (set_reg dst value (set_reg rsp (regs m rsp + 8) m))
              | FlagsWord _ => None
              end
          | load_rax_stress_deopt_count =>
              exec None rest (set_reg rax (stress_deopt_count m) m)
          | store_rax_stress_deopt_count =>
              exec None rest (mkMachine (regs m) (flags m) (mem m) (regs m rax))
          | decl dst =>
              let operand := regs m dst mod 2 ^ 32 in
              let value := (operand - 1) mod 2 ^ 32 in
              exec None rest
                (set_reg dst value
                   (set_flags (mkFlags (CF (flags m)) (value =? 0) (Z.testbit value 31)
                                 (operand =? 2 ^ 31) (parity value)) m))
          | Move dst value =>
              exec None rest (set_reg dst (value mod 2 ^ 64)
                                (set_flags (Move_flags value (flags m)) m))
          end
      end
  end.

(** ** The forced deopts *)

(** The code that counts. *)
Definition counting_code (deopt_every_n_times : Z) (tlabel : DeoptLabel) : list Instr :=
  [pushfq;
   pushq rax;
   load_rax_stress_deopt_count;
   decl rax;
   j not_zero nodeopt kNear;
   Move rax deopt_every_n_times;
   store_rax_stress_deopt_count;
   popq rax;
   popfq;
   jmp tlabel kFar;
   bind nodeopt;
   store_rax_stress_deopt_count;
   popq rax;
   popfq].

(** The counter after one more branch that is not taken. *)
Definition counted (m : Machine) : Z := (stress_deopt_count m mod 2 ^ 32 - 1) mod 2 ^ 32.

(** [m'] is [m] but for the counter and the stack below the stack
    pointer. *)
Definition restored (m m' : Machine) : Prop :=
  (forall r, regs m' r = regs m r)
  /\ flags m' = flags m
  /\ (forall a, regs m rsp <= a -> mem m' a = mem m a).

Lemma exec_counting_code (n : Z) (l : Label) (rest : list Instr) (m : Machine) :
  0 < n < 2 ^ 31 ->
  exists m',
    restored m m'
    /\ stress_deopt_count m' = (if counted m =? 0 then n else counted m)
    /\ exec None (counting_code n (Branch l) ++ rest) m
       = if counted m =? 0 then exec (Some (Branch l)) rest m' else exec None rest m'.
Proof.
  intros Hn. unfold counting_code, counted, not_zero.
  cbn [app exec push set_reg set_flags regs flags mem stress_deopt_count holds ZF].
  change (Nat.eqb rax rax) with true. change (Nat.eqb rsp rax) with false.
  change (Nat.eqb rax rsp) with false. change (Nat.eqb rsp rsp) with true.
  cbv iota.
  set (count := (stress_deopt_count m mod 2 ^ 32 - 1) mod 2 ^ 32).
  destruct (Z.eqb_spec count 0) as [Hzero|Hcount]; cbn [negb];
    cbn [exec push set_reg set_flags regs flags mem stress_deopt_count];
    change (Nat.eqb rax rax) with true; change (Nat.eqb rsp rax) with false;
    change (Nat.eqb rax rsp) with false; change (Nat.eqb rsp rsp) with true;
    cbv iota;
    rewrite ?Z.eqb_refl;
    cbn [exec push set_reg set_flags regs flags mem stress_deopt_count];
    change (Nat.eqb rax rax) with true; change (Nat.eqb rsp rax) with false;
    change (Nat.eqb rax rsp) with false; change (Nat.eqb rsp rsp) with true;
    cbv iota;
    replace (regs m rsp - 8 - 8 + 8) with (regs m rsp - 8) by lia;
    destruct (Z.eqb_spec (regs m rsp - 8) (regs m rsp - 8 - 8)); try lia;
    rewrite ?Z.eqb_refl;
    cbn [exec push set_reg set_flags regs flags mem stress_deopt_count];
    change (Nat.eqb rax rax) with true; change (Nat.eqb rsp rax) with false;
    change (Nat.eqb rax rsp) with false; change (Nat.eqb rsp rsp) with true;
    cbv iota.
  - destruct (decide (nodeopt = Branch l)); [discriminate|]. cbn [exec].
    eexists. refine (conj _ (conj _ eq_refl)).
    + split_and!; cbn [regs flags mem].
      * intros r. cbn [regs set_reg set_flags].
        destruct (Nat.eqb_spec r rsp) as [Hsp|Hsp].
        -- rewrite Hsp. change (Nat.eqb rsp rax) with false. cbv iota. lia.
        -- destruct (Nat.eqb_spec r rax) as [Hax|Hax]; [rewrite Hax|]; reflexivity.
      * reflexivity.
      * intros a Ha. cbn [mem set_reg set_flags].
        destruct (Z.eqb_spec a (regs m rsp - 8 - 8)); [lia|].
        destruct (Z.eqb_spec a (regs m rsp - 8)); [lia|reflexivity].
    + cbn. apply Z.mod_small. lia.
  - destruct (decide (nodeopt = nodeopt)); [|contradiction].
    cbn [exec push set_reg set_flags regs flags mem stress_deopt_count];
    change (Nat.eqb rax rax) with true; change (Nat.eqb rsp rax) with false;
    change (Nat.eqb rax rsp) with false; change (Nat.eqb rsp rsp) with true;
    cbv iota.
    rewrite ?Z.eqb_refl.
    cbn [exec push set_reg set_flags regs flags mem stress_deopt_count];
    change (Nat.eqb rax rax) with true; change (Nat.eqb rsp rax) with false;
    change (Nat.eqb rax rsp) with false; change (Nat.eqb rsp rsp) with true;
    cbv iota.
    replace (regs m rsp - 8 - 8 + 8) with (regs m rsp - 8) by lia.
    destruct (Z.eqb_spec (regs m rsp - 8) (regs m rsp - 8 - 8)); try lia.
    rewrite ?Z.eqb_refl.
    eexists. refine (conj _ (conj _ eq_refl)).
    + split_and!; cbn [regs flags mem].
      * intros r. cbn [regs set_reg set_flags].
        destruct (Nat.eqb_spec r rsp) as [Hsp|Hsp].
        -- rewrite Hsp. change (Nat.eqb rsp rax) with false. cbv iota. lia.
        -- destruct (Nat.eqb_spec r rax) as [Hax|Hax]; [rewrite Hax|]; reflexivity.
      * reflexivity.
      * intros a Ha. cbn [mem set_reg set_flags].
        destruct (Z.eqb_spec a (regs m rsp - 8 - 8)); [lia|].
        destruct (Z.eqb_spec a (regs m rsp - 8)); [lia|reflexivity].
    + reflexivity.
Qed.

Lemma AssembleArchDeoptBranch_code (n : Z) (branch : BranchInfo) (cc : Condition) :
  FlagsConditionToCondition (condition branch) = Some cc ->
  0 < n ->
  AssembleArchDeoptBranch n branch
  = Some ((if decide (condition branch = kUnorderedEqual) then
             [j parity_even (Branch (false_label branch))
                (if fallthru branch then kNear else kFar)]
           else if decide (condition branch = kUnorderedNotEqual) then
             [j parity_even (Branch (true_label branch)) kFar]
           else [])
          ++ [j cc (Branch (true_label branch)) kFar]
          ++ counting_code n (Branch (true_label branch))
          ++ (if fallthru branch then []
              else [jmp (Branch (false_label branch))
                      (if fallthru branch then kNear else kFar)])).
Proof.
  intros Hcc Hn. unfold AssembleArchDeoptBranch. rewrite Hcc.
  destruct (Z.ltb_spec 0 n); [reflexivity|lia].
Qed.

(** Every n-th branch deoptimizes.  With the flag [deopt_every_n_times]
    set to [n], the code of [AssembleArchDeoptBranch] jumps to the true label
    if the condition holds, as the code of [AssembleArchBranch] does, and
    leaves the machine as it is; so it does when it jumps to the false label
    because of the parity flag ([kUnorderedEqual]).  Otherwise it counts the
    32 bit counter down: if the counter reaches zero it is set to [n] again
    and the code jumps to the true label, else the code goes to the false
    label.  After counting all registers -- [rax] and the stack pointer among
    them --, the flags and the stack at and above the stack pointer are as
    before. *)
Theorem AssembleArchDeoptBranch_forces_deopts (n : Z) (branch : BranchInfo)
    (cc : Condition) (m : Machine) :
  FlagsConditionToCondition (condition branch) = Some cc ->
  0 < n < 2 ^ 31 ->
  exists code,
    AssembleArchDeoptBranch n branch = Some code
    /\ if continues (condition branch) cc (flags m) then
         exec None code m = Some (JumpsTo (Branch (true_label branch)) m)
       else if bool_decide (condition branch = kUnorderedEqual) && PF (flags m) then
         exec None code m = Some (JumpsTo (Branch (false_label branch)) m)
       else
         exists m',
           restored m m'
           /\ if counted m =? 0 then
                stress_deopt_count m' = n
                /\ exec None code m = Some (JumpsTo (Branch (true_label branch)) m')
              else
                stress_deopt_count m' = counted m
                /\ (exec None code m = Some (JumpsTo (Branch (false_label branch)) m')
                    \/ fallthru branch = true
                       /\ exec None code m = Some (FallsThrough m')).
Proof.
  intros Hcc Hn.
  rewrite (AssembleArchDeoptBranch_code n branch cc Hcc) by lia.
  eexists. split; [reflexivity|].
  set (tail := if fallthru branch then [] else [jmp _ _]).
  destruct (exec_counting_code n (true_label branch) tail m Hn)
    as (m' & Hrestored & Hcount & Hexec).
  assert (Hcounting :
            exists m',
              restored m m'
              /\ if counted m =? 0 then
                   stress_deopt_count m' = n
                   /\ exec None (counting_code n (Branch (true_label branch)) ++ tail) m
                      = Some (JumpsTo (Branch (true_label branch)) m')
                 else
                   stress_deopt_count m' = counted m
                   /\ (exec None (counting_code n (Branch (true_label branch)) ++ tail) m
                       = Some (JumpsTo (Branch (false_label branch)) m')
                       \/ fallthru branch = true
                          /\ exec None
                               (counting_code n (Branch (true_label branch)) ++ tail) m
                             = Some (FallsThrough m'))).
  { exists m'. split; [exact Hrestored|]. rewrite Hexec.
    destruct (counted m =? 0); (split; [exact Hcount|]);
      subst tail; destruct (fallthru branch); cbn [exec]; auto. }
  assert (Hskip : forall l, l <> nodeopt ->
            exec (Some l) (counting_code n (Branch (true_label branch)) ++ tail) m
            = Some (JumpsTo l m)).
  { intros l Hl. unfold counting_code. cbn [app exec].
    destruct (decide (nodeopt = l)); [congruence|].
    subst tail. destruct (fallthru branch); reflexivity. }
  destruct (decide (condition branch = kUnorderedEqual)) as [Hcond|Hcond];
    [|destruct (decide (condition branch = kUnorderedNotEqual)) as [Hcond'|Hcond']].
  - rewrite Hcond in Hcc |- *. injection Hcc as <-.
    rewrite bool_decide_eq_true_2 by reflexivity.
    cbn [continues app exec holds andb].
    destruct (PF (flags m)), (ZF (flags m)); cbn [negb andb];
      rewrite ?Hskip by discriminate; try reflexivity; exact Hcounting.
  - rewrite Hcond' in Hcc |- *. injection Hcc as <-.
    rewrite bool_decide_eq_false_2 by discriminate.
    cbn [continues app exec holds andb].
    destruct (PF (flags m)), (ZF (flags m)); cbn [negb orb];
      rewrite ?Hskip by discriminate; try reflexivity; exact Hcounting.
  - rewrite continues_ordered by assumption.
    rewrite bool_decide_eq_false_2 by assumption.
    cbn [app exec andb].
    destruct (holds cc (flags m));
      rewrite ?Hskip by discriminate; try reflexivity; exact Hcounting.
Qed.

End Exec.

(** ** An instance: the counter is at 1 and the branch is not taken *)

Definition example_branch : BranchInfo :=
  mkBranchInfo kEqual (Target 1) (Target 2) false.

Definition example_machine : Machine :=
  mkMachine (fun r => if Nat.eqb r rsp then 4096 else Z.of_nat r + 20)
    (mkFlags false false false false true) (fun a => Word a) 1.

Lemma AssembleArchDeoptBranch_forces_deopts_witness :
  exists code,
    AssembleArchDeoptBranch 3 example_branch = Some code
    /\ if continues (condition example_branch) equal (flags example_machine) then
         exec (fun _ f => f) None code example_machine
         = Some (JumpsTo (Branch (true_label example_branch)) example_machine)
       else if bool_decide (condition example_branch = kUnorderedEqual)
               && PF (flags example_machine) then
         exec (fun _ f => f) None code example_machine
         = Some (JumpsTo (Branch (false_label example_branch)) example_machine)
       else
         exists m',
           restored example_machine m'
           /\ if counted example_machine =? 0 then
                stress_deopt_count m' = 3
                /\ exec (fun _ f => f) None code example_machine
                   = Some (JumpsTo (Branch (true_label example_branch)) m')
              else
                stress_deopt_count m' = counted example_machine
                /\ (exec (fun _ f => f) None code example_machine
                    = Some (JumpsTo (Branch (false_label example_branch)) m')
                    \/ fallthru example_branch = true
                       /\ exec (fun _ f => f) None code example_machine
                          = Some (FallsThrough m')).
Proof.
  apply (AssembleArchDeoptBranch_forces_deopts (fun _ f => f) 3 example_branch equal
           example_machine).
  - reflexivity.
  - lia.
Defined.

End DeoptBranch.
